(* ===== verification/_CoqProject ===== *)
-Q . S2P
Prelude.v
Bytes.v
Errors.v
Values.v
Scalars.v
Cbor.v
PageMap.v
CheckpointIndex.v
PagePack.v
Hashes.v
PageTree.v
PagePersist.v
PageLoad.v
ByteArray.v
Overlay.v
Storage.v
CanonicalJson.v
Schema.v
Objects.v
CheckpointBuild.v
Resolve.v
ImageRoundtrip.v
Publication.v
Candidate.v
FooterBounds.v
Cache.v
Reader.v
ReaderRanges.v
LazyPages.v
EnginePages.v
EngineFacts.v
EngineRead.v
Database.v
History.v
SchemaRows.v
Transactions.v
Append.v
RelationalImage.v
HistoryFacts.v
FileOrder.v
TransactionFacts.v
DatabaseFacts.v
SchemaFacts.v
TableState.v
SchemaRoundtrip.v
AppendFacts.v
TransactState.v
TableHistory.v
CommitLog.v
HistoryValid.v
