(* ===== verification/Prelude.v ===== *)
(** OTMP: a verification development of the table format in src/.

    * The program

    OTMP keeps a table as immutable objects in an object store and one mutable
    object, the head. A commit uploads new objects and then replaces the head by a
    conditional write. The metadata of a version is a relational image (a SQLite
    file), stored as a checkpoint and, in incremental versions, as page packs under a
    copy-on-write page map. Writers open the parent image through a page overlay,
    execute SQL on it, freeze it, and publish it; readers resolve the generation
    that the head names, in full or page by page, and ask the image for refs,
    snapshots, files and schemas.

    A data flow, with the file of the model for each step:

      request -> Transactions, Append      (what it demands, what it means)
              -> Database, SchemaRows      (rows it writes; History reads them)
              -> Overlay                   (pages the engine writes)
              -> PageTree, PagePersist     (packs and page map of the new image)
              -> Candidate                 (generation, head, image checks)
              -> Publication over Storage  (uploads, compare-and-swap, rebase)
      head    -> Resolve, PageLoad         (whole image)
              -> Reader, Cache             (one page at a time)
              -> EngineRead, EnginePages   (pages the engine asks for)
              -> RelationalImage           (checks of the rows)

    * Files and sources (paths under src/)

    Foundations. Prelude: results with the [?] operator, loops, ordered maps, this
    header. Bytes, ByteArray: the parts of the Rust standard library on bytes,
    integers and text. Errors: otmp-protocol/src/error.rs, otmp/src/error.rs.

    Protocol (otmp-protocol/src). Values and Scalars: value.rs. Cbor: cbor.rs.
    CanonicalJson: canonical_json.rs. Schema: types.rs. Objects: objects.rs. PageMap:
    page_map.rs. CheckpointIndex: checkpoint_index.rs. PagePack: page_pack.rs. Hashes:
    hash.rs.

    Physical images. PageTree, PagePersist, PageLoad, Resolve: otmp/src/physical.rs.
    CheckpointBuild: otmp/src/checkpoint_index.rs. Overlay: otmp/src/cow_writer.rs.
    ImageRoundtrip models no code; it composes freezing, persisting and resolving.

    Publication. Storage: otmp/src/storage.rs. Publication and Candidate: the upload,
    publish and finish_candidate parts of otmp/src/runtime.rs and the head of
    image::validate in otmp/src/image.rs.

    Readers. Reader, ReaderRanges, LazyPages: otmp/src/reader/pages.rs and mod.rs.
    Cache: otmp/src/reader/cache.rs. EnginePages, EngineFacts:
    otmp/src/reader_engine_pages.rs. EngineRead: the reads of ReadOnlyStorage in
    otmp/src/reader_engine.rs. FooterBounds: otmp-datafusion/src/footer_bounds.rs.

    The relational image. Database: spec/OTMP-0.0.2-alpha-table-schema.sql, the tables
    with their constraints, and the statements the writers execute. History:
    otmp/src/runtime/history.rs, the queries of otmp/src/runtime.rs on a pinned image,
    and the writer's ancestry of otmp/src/sql_writer.rs. SchemaRows: insert_schema,
    read_schema and validate_schemas of otmp/src/image.rs. Transactions:
    otmp/src/runtime/transactions.rs and mutate_metadata. Append: the append path of
    otmp/src/runtime.rs, mutate_append and mutate_genesis. RelationalImage: the
    history queries of image::validate. HistoryFacts, FileOrder, DatabaseFacts,
    SchemaFacts, TransactionFacts, TableState, SchemaRoundtrip, AppendFacts,
    TransactState, TableHistory, CommitLog and HistoryValid model no code; they hold
    the lemmas and the properties.

    * How code is modelled

    A function that returns [Result] returns [result]; an error is a value with the
    source's constructor and message. Integers are [Z] with the width written where
    the code checks, wraps or overflows; usize has 64 bits. Loops over collections are
    [try_fold]; other loops recurse on fuel. Shared objects have identities where
    sharing matters: the pages of the overlay, the reference-counted byte strings of
    the cache, the objects and versions of a store. Concurrency appears where the
    code meets it: publication runs against a world in which other clients act
    between any two of its calls. The tables of an image are finite maps by primary
    key; a statement fails where the schema's keys, checks and indexes refuse it, and
    COMMIT checks the deferred foreign keys.

    Code outside src/ is a parameter: the classes [HexCrate], [Sha2Crate],
    [TursoCrate], [SerdeJson], [FromJson], [ToJson], [ImageCrates], [ReaderCrates],
    [ImageSql], [SqlEngine]. The laws a proof needs are named hypotheses or classes
    (for instance [CanonicalReads]: text that was written as canonical JSON reads
    back), and the witnesses instantiate them. Collisions of SHA-256 are never
    excluded; a theorem that depends on them offers the colliding messages.

    * Fuel

    [ancestry_fuel]: one round more than snapshots; every round takes another row. The
    loop returns [None] where the fuel is used up, and ancestry_ends shows that it
    never is, circular parents included.
    [persist_loop]: the levels of a page tree over 64-bit page numbers
    (persist_terminates). Schema validation: 64 levels, the depth the code refuses
    beyond. Mapping and index walks: the levels of the tree they descend. Publication:
    the attempts of the retry policy (publish_ends). Varint and container loops of the
    footer: the bytes that are left (footer_bounds_exact is stated for all fuel that
    reaches them). No theorem assumes that a loop returned.

    * What the theorems show

    Tables. genesis, append and transact lead from image to image; in every image
    they reach, the rows kept for a branch are the files its line of snapshots added
    (branch_is_its_snapshot). Of the checks readers make of the rows, those on defaults,
    commits, snapshots, ancestry, refs, memberships and file descriptors never refuse
    such an image; writers_pass_validation says which others decide. One of these,
    the check of schemas, refuses a table that genesis creates: a valid schema with a
    NaN default below a struct (nested_nan_refused in SchemaRoundtrip). An append adds its files at the end of one branch and
    nothing else (append_refines); a metadata transaction moves the refs it names and
    changes no file (transact_refines). A transaction prepared again after losing a
    race finds what it changes as it found it first (transaction_rebase_safe).
    Ancestry walks end (ancestry_ends). A schema written as rows reads back
    (schema_rows_roundtrip). An accepted schema grows and never changes
    (additive_schema_safe), and what the check refuses although it is valid
    (additive_schema_refuses).

    Publication. A transaction is published at most once, a success is recorded, and
    a definite error wrote nothing (publish_once, publish_ends, genesis_once), over any
    store with the laws of [StoreLaws], which the in-memory store has; that store's
    conditional writes (memory_conditional_cas) and what keeps its objects immutable
    (immutable_objects); staged files (stage_file_correct).

    Images. The overlay is a flat file (overlay_refines_file, freeze_correct); the
    page-tree update is the update of a map (update_refines); persisting and resolving
    return the file the engine wrote (persist_correct, candidate_resolves,
    resolve_generation_iff), and resolved bytes are authentic
    (image_root_authentic, checkpoint_index_built, checkpoint_index_authentic).

    Readers. Pages read one by one are those of the resolved image or errors
    (lazy_pages_authentic); the cache keeps its budget (cache_budget_kept,
    cache_reserve_exact). The SQL engine reads exactly those pages, after a validation
    that never panics and keeps cells and references within page and image
    (page_validation, engine_reads_authentic_pages), and the references in the pages it
    admits are acyclic, chains of overflow pages included (page_roles_form_a_tree). Footers
    (footer_bounds_exact).

    Codecs and validation. Canonical JSON and CBOR accept exactly their encodings;
    schema and commit validation accept exactly, or only, well-formed objects, and
    never panic.

    * Not modelled

    The SQL engines, Arrow and DataFusion, the AWS SDK, serde's derived code and
    cryptography, which are not under src/. Of src/: the projection of a commit onto
    the rows, replay and retained-history verification (image.rs, runtime/history.rs),
    which compare two databases through SQL and are arguments of image validation;
    the page engine's threads, cancellation and I/O traits (the rest of
    reader_engine.rs) and the reader's SQL queries (reader/files.rs, metadata.rs, schema.rs, selection.rs,
    snapshot.rs), whose reads over the tables History and SchemaRows model; sharing of
    loads in flight and request limits in reader/pages.rs; the DataFusion provider but
    for its footer check; the local file store, the S3 store, the command line, and
    the qualification programs. *)
From Stdlib Require Export ZArith Lia.
From Stdlib Require Export Strings.Byte Strings.Ascii Strings.String.
From stdpp Require Export base gmap strings list numbers sorting.

Open Scope Z_scope.

(** ** Results: [Result<A, E>] and the [?] operator *)

Inductive result (E A : Type) : Type :=
| Ok (a : A)
| Err (e : E).
Arguments Ok {E A} a.
Arguments Err {E A} e.

#[export] Instance result_ret E : MRet (result E) := fun A a => Ok a.
#[export] Instance result_bind E : MBind (result E) := fun A B f m =>
  match m with Ok a => f a | Err e => Err e end.
#[export] Instance result_eq_dec E A `{EqDecision E, EqDecision A} :
  EqDecision (result E A).
Proof. solve_decision. Defined.

Definition map_err {E F A} (f : E -> F) (m : result E A) : result F A :=
  match m with Ok a => Ok a | Err e => Err (f e) end.

Definition ok_or {E A} (o : option A) (e : E) : result E A :=
  match o with Some a => Ok a | None => Err e end.

Definition ok {E A} (m : result E A) : option A :=
  match m with Ok a => Some a | Err _ => None end.

Definition ok_default {E A} (d : A) (r : result E A) : A :=
  match r with Ok a => a | Err _ => d end.
Definition is_ok {E A} (m : result E A) : bool :=
  match m with Ok _ => true | Err _ => false end.

(** [if b { return Err(e) }] *)
Definition reject {E} (b : bool) (e : E) : result E unit :=
  if b then Err e else Ok tt.

(** [iter().map(f).collect::<Result<Vec<_>, _>>()] *)
Fixpoint collect {E A B} (f : A -> result E B) (l : list A) : result E (list B) :=
  match l with
  | [] => Ok []
  | a :: l' => b ← f a; bs ← collect f l'; Ok (b :: bs)
  end.

(** [for a in l { s = f(s, a)?; }] *)
Fixpoint try_fold {E S A} (f : S -> A -> result E S) (s : S) (l : list A) : result E S :=
  match l with
  | [] => Ok s
  | a :: l' => s' ← f s a; try_fold f s' l'
  end.

Section result_lemmas.
Context {E : Type}.

Lemma bind_ok {A B} (m : result E A) (f : A -> result E B) b :
  (m ≫= f) = Ok b <-> exists a, m = Ok a /\ f a = Ok b.
Proof. destruct m; cbn; naive_solver. Qed.

Lemma bind_err {A B} (m : result E A) (f : A -> result E B) e :
  (m ≫= f) = Err e <-> m = Err e \/ exists a, m = Ok a /\ f a = Err e.
Proof. destruct m; cbn; naive_solver. Qed.

Lemma reject_ok b (e : E) u : reject b e = Ok u <-> b = false.
Proof. destruct b, u; cbn; naive_solver. Qed.

Lemma ok_or_ok {A} (o : option A) (e : E) a : ok_or o e = Ok a <-> o = Some a.
Proof. destruct o; cbn; naive_solver. Qed.

Lemma map_err_ok {F A} (f : E -> F) (m : result E A) a : map_err f m = Ok a <-> m = Ok a.
Proof. destruct m; cbn; naive_solver. Qed.

Lemma is_ok_true {A} (m : result E A) : is_ok m = true <-> exists a, m = Ok a.
Proof. destruct m; cbn; naive_solver. Qed.

Lemma collect_ok {A B} (f : A -> result E B) l bs :
  collect f l = Ok bs <-> Forall2 (fun a b => f a = Ok b) l bs.
Proof.
  revert bs; induction l as [|a l IH]; intros bs; cbn.
  - split; [intros [= <-]; constructor | inversion 1; done].
  - rewrite bind_ok. setoid_rewrite bind_ok. setoid_rewrite IH.
    split; [naive_solver|]. inversion 1; subst; eauto 10.
Qed.

Lemma try_fold_app {S A} (f : S -> A -> result E S) s l1 l2 :
  try_fold f s (l1 ++ l2) = (s' ← try_fold f s l1; try_fold f s' l2).
Proof.
  revert s; induction l1 as [|a l1 IH]; intros s; cbn; [done|].
  destruct (f s a); cbn; [apply IH|done].
Qed.

(** An invariant of the loop body holds after the loop. *)
Lemma try_fold_inv {S A} (I : S -> Prop) (f : S -> A -> result E S) l : forall s s',
  I s -> (forall s a s', a ∈ l -> I s -> f s a = Ok s' -> I s') -> try_fold f s l = Ok s' -> I s'.
Proof.
  induction l as [|a l IH]; intros s s' Hs Hf; cbn.
  - by intros [= <-].
  - intros (s1 & E1 & E2)%bind_ok. eapply IH; [|by intros; eapply Hf; [right| |]|exact E2].
    eapply Hf; [left|exact Hs|exact E1].
Qed.

(** Guards before a continuation. *)
Lemma bind_reject {A} b (e : E) (k : result E A) r : (_ ← reject b e; k) = Ok r <-> b = false /\ k = Ok r.
Proof. destruct b; cbn; naive_solver. Qed.

Lemma bind_unit {A} (m : result E unit) (k : result E A) r : (_ ← m; k) = Ok r <-> m = Ok tt /\ k = Ok r.
Proof. destruct m as [[]|]; cbn; naive_solver. Qed.

Lemma bind_map {A B C} (f : B -> C) (m : result E A) (k : A -> result E B) :
  (x ← m; y ← k x; Ok (f y)) = (y ← (x ← m; k x); Ok (f y)).
Proof. by destruct m. Qed.

(** A loop that only checks its items. *)
Lemma check_all {A} (f : A -> result E unit) l u :
  try_fold (fun _ a => f a) u l = Ok tt <-> forall a, a ∈ l -> f a = Ok tt.
Proof.
  revert u. induction l as [|a l IH]; intros []; cbn [try_fold].
  - split; [|done]. intros _ a Ha. by apply not_elem_of_nil in Ha.
  - rewrite bind_ok. setoid_rewrite IH. setoid_rewrite elem_of_cons. split.
    + intros ([] & Ha & Hl) x [->|Hx]; auto.
    + intros Hl. exists tt. split; [apply Hl; by left|]. intros x Hx. apply Hl. by right.
Qed.
End result_lemmas.

(** Inverts a chain of binds that returned [Ok]. *)
Ltac inv_ok :=
  repeat match goal with
  | H : mbind _ _ = Ok _ |- _ => apply bind_ok in H; destruct H as (? & ? & H)
  | H : reject _ _ = Ok ?u |- _ => apply reject_ok in H
  | H : ok_or _ _ = Ok _ |- _ => apply ok_or_ok in H
  | H : map_err _ _ = Ok _ |- _ => apply map_err_ok in H
  | H : Ok _ = Ok _ |- _ => injection H as H; subst
  | H : Err _ = Ok _ |- _ => discriminate H
  | H : Ok _ = Err _ |- _ => discriminate H
  | H : mret _ = Ok _ |- _ => injection H as H; subst
  end.

(** Case split on the scrutinee of a [match]/[if] of hypothesis [H]. *)
Ltac case_in H :=
  match type of H with
  | context [match ?x with _ => _ end] => destruct x eqn:?
  end.

(** Boolean conditions to propositions. *)
Ltac bool_to_prop :=
  repeat match goal with
  | H : (_ || _)%bool = false |- _ => apply orb_false_iff in H; destruct H
  | H : (_ && _)%bool = true |- _ => apply andb_true_iff in H; destruct H
  | H : negb _ = false |- _ => apply negb_false_iff in H
  | H : negb _ = true |- _ => apply negb_true_iff in H
  | H : (_ =? _)%Z = true |- _ => apply Z.eqb_eq in H
  | H : (_ =? _)%Z = false |- _ => apply Z.eqb_neq in H
  | H : (_ <? _)%Z = true |- _ => apply Z.ltb_lt in H
  | H : (_ <? _)%Z = false |- _ => apply Z.ltb_ge in H
  | H : (_ <=? _)%Z = true |- _ => apply Z.leb_le in H
  | H : (_ <=? _)%Z = false |- _ => apply Z.leb_gt in H
  | H : bool_decide _ = true |- _ => apply bool_decide_eq_true in H
  | H : bool_decide _ = false |- _ => apply bool_decide_eq_false in H
  end.

(** ** Machine integers

    [u8], [u32], [u64], [i64] and [usize] values are [Z]; the library targets
    64-bit platforms, so [usize] is 64 bits wide. *)

Definition is_uint (w z : Z) : Prop := 0 <= z < 2 ^ w.
Definition is_sint (w z : Z) : Prop := - 2 ^ (w - 1) <= z < 2 ^ (w - 1).
#[export] Instance is_uint_dec w z : Decision (is_uint w z).
Proof. unfold is_uint; apply _. Defined.
#[export] Instance is_sint_dec w z : Decision (is_sint w z).
Proof. unfold is_sint; apply _. Defined.

Notation is_u8 := (is_uint 8).
Notation is_u16 := (is_uint 16).
Notation is_u32 := (is_uint 32).
Notation is_u64 := (is_uint 64).
Notation is_usize := (is_uint 64).
Notation is_i32 := (is_sint 32).
Notation is_i64 := (is_sint 64).

(** [uN::try_from(z).ok()] and [iN::try_from(z).ok()] *)
Definition try_uint (w z : Z) : option Z := if decide (is_uint w z) then Some z else None.
Definition try_sint (w z : Z) : option Z := if decide (is_sint w z) then Some z else None.

(** [x.checked_add(y)], [x.checked_sub(y)], [x.checked_mul(y)] on [uN] *)
Definition checked_add (w x y : Z) : option Z := try_uint w (x + y).
Definition checked_sub (w x y : Z) : option Z := try_uint w (x - y).
Definition checked_mul (w x y : Z) : option Z := try_uint w (x * y).
Definition saturating_sub (x y : Z) : Z := Z.max 0 (x - y).

Lemma try_uint_some w z n : try_uint w z = Some n <-> n = z /\ is_uint w z.
Proof. unfold try_uint. case_decide; naive_solver. Qed.
Lemma try_uint_none w z : try_uint w z = None <-> ~ is_uint w z.
Proof. unfold try_uint. case_decide; naive_solver. Qed.
Lemma try_uint_id w z : is_uint w z -> try_uint w z = Some z.
Proof. intros. by apply try_uint_some. Qed.
Lemma try_sint_some w z n : try_sint w z = Some n <-> n = z /\ is_sint w z.
Proof. unfold try_sint. case_decide; naive_solver. Qed.
Lemma try_sint_id w z : is_sint w z -> try_sint w z = Some z.
Proof. intros. by apply try_sint_some. Qed.

(** [x.is_power_of_two()] *)
Definition is_power_of_two (x : Z) : bool := (0 <? x) && (Z.land x (x - 1) =? 0).

(** Length of a slice, as the [usize]/[u64] the code computes with. *)
Definition len {A} (l : list A) : Z := Z.of_nat (length l).

Lemma len_nil {A} : len (@nil A) = 0. Proof. done. Qed.
Lemma len_cons {A} (a : A) l : len (a :: l) = 1 + len l.
Proof. unfold len. cbn [length]. lia. Qed.
Lemma len_app {A} (l1 l2 : list A) : len (l1 ++ l2) = len l1 + len l2.
Proof. unfold len. rewrite length_app. lia. Qed.
Lemma len_nonneg {A} (l : list A) : 0 <= len l.
Proof. unfold len. lia. Qed.
Lemma len_zero {A} (l : list A) : len l = 0 -> l = [].
Proof. unfold len. destruct l; cbn; [done|lia]. Qed.
Lemma len_map {A B} (f : A -> B) l : len (map f l) = len l.
Proof. unfold len. by rewrite length_map. Qed.

Create HintDb otmp discriminated.
#[export] Hint Rewrite @len_nil @len_cons @len_app @len_map : otmp.

Ltac simplify_len := autorewrite with otmp in *.

(** [l.get(start..end)] *)
Definition slice {A} (l : list A) (s e : Z) : option (list A) :=
  if (0 <=? s) && (s <=? e) && (e <=? len l)
  then Some (take (Z.to_nat (e - s)) (drop (Z.to_nat s) l)) else None.

Lemma slice_some {A} (l m : list A) s e :
  slice l s e = Some m <->
  0 <= s <= e /\ e <= len l /\ m = take (Z.to_nat (e - s)) (drop (Z.to_nat s) l).
Proof.
  unfold slice. destruct (_ && _) eqn:E.
  - bool_to_prop. naive_solver.
  - split; [done|]. intros (?&?&?). apply andb_false_iff in E as [E|E].
    + apply andb_false_iff in E as [E|E]; apply Z.leb_gt in E; lia.
    + apply Z.leb_gt in E; lia.
Qed.

Lemma slice_len {A} (l m : list A) s e : slice l s e = Some m -> len m = e - s.
Proof.
  intros (?&?&->)%slice_some. unfold len in *.
  rewrite length_take, length_drop. lia.
Qed.

Lemma slice_app {A} (l1 m l2 : list A) s e :
  s = len l1 -> e = len l1 + len m -> slice (l1 ++ m ++ l2) s e = Some m.
Proof.
  intros -> ->. apply slice_some. simplify_len.
  pose proof (len_nonneg l1). pose proof (len_nonneg m). pose proof (len_nonneg l2).
  split; [lia|split; [lia|]]. unfold len.
  replace (Z.to_nat (Z.of_nat (length l1))) with (length l1) by lia.
  replace (Z.to_nat _) with (length m) by lia.
  rewrite drop_app_length. by rewrite take_app_length.
Qed.

Lemma StronglySorted_snoc {A} (R : A -> A -> Prop) l x :
  StronglySorted R (l ++ [x]) <-> StronglySorted R l /\ Forall (fun y => R y x) l.
Proof.
  induction l as [|a l IH]; cbn.
  - split; [split; constructor|repeat constructor].
  - split.
    + intros [H Ha]%StronglySorted_inv. apply IH in H as [? ?].
      apply Forall_app in Ha as [? Ha]. apply Forall_cons in Ha as [? _].
      split; constructor; done.
    + intros [[H Ha]%StronglySorted_inv Hx]. apply Forall_cons in Hx as [? ?].
      constructor; [by apply IH|]. apply Forall_app. split; [done|]. by constructor.
Qed.

(** [l.chunks(n)] for [n > 0]: every chunk has [n] elements, the last one at most
    [n]. The fuel is the length of the list. *)
Fixpoint chunks_fuel {A} (fuel n : nat) (l : list A) : list (list A) :=
  match fuel, l with
  | _, [] => []
  | O, _ => []
  | S fuel, _ => take n l :: chunks_fuel fuel n (drop n l)
  end.
Definition chunks {A} (n : nat) (l : list A) : list (list A) := chunks_fuel (length l) n l.

Lemma chunks_fuel_concat {A} n fuel : forall (l : list A),
  (0 < n)%nat -> (length l <= fuel)%nat -> concat (chunks_fuel fuel n l) = l.
Proof.
  induction fuel as [|fuel IH]; intros [|a l] Hn Hl; cbn [chunks_fuel]; try done.
  - cbn in Hl. lia.
  - cbn [concat]. rewrite IH; [apply take_drop|done|]. rewrite length_drop. cbn in *. lia.
Qed.

Lemma chunks_concat {A} n (l : list A) : (0 < n)%nat -> concat (chunks n l) = l.
Proof. intros. by apply chunks_fuel_concat. Qed.

Lemma chunks_bound {A} n (l : list A) :
  (0 < n)%nat -> Forall (fun c => c <> [] /\ (length c <= n)%nat) (chunks n l).
Proof.
  intros Hn. unfold chunks. generalize (length l). intros fuel. revert l.
  induction fuel as [|fuel IH]; intros [|a l]; cbn [chunks_fuel]; constructor; [|apply IH].
  split; [destruct n; [lia|done]|]. rewrite length_take. lia.
Qed.

Lemma chunks_fuel_lookup {A} n fuel : forall (l : list A) j c, (0 < n)%nat ->
  chunks_fuel fuel n l !! j = Some c -> (j * n < length l)%nat /\ c = take n (drop (j * n) l).
Proof.
  induction fuel as [|fuel IH]; intros [|a l] j c Hn E; cbn [chunks_fuel] in E; try done.
  destruct j as [|j]; cbn [lookup list_lookup] in E.
  - injection E as <-. split; [cbn; lia|done].
  - apply IH in E as [Hl ->]; [|done]. rewrite drop_drop. rewrite length_drop in Hl. split; [lia|]. f_equal; f_equal; lia.
Qed.

Lemma chunks_lookup {A} n (l : list A) j c : (0 < n)%nat ->
  chunks n l !! j = Some c -> (j * n < length l)%nat /\ c = take n (drop (j * n) l).
Proof. apply chunks_fuel_lookup. Qed.

Lemma chunks_fuel_count {A} n k : forall fuel (l : list A), (0 < n)%nat -> (length l <= fuel)%nat ->
  (length l <= k * n)%nat -> (k * n < length l + n)%nat -> length (chunks_fuel fuel n l) = k.
Proof.
  induction k as [|k IH]; intros [|fuel] [|a l] Hn Hf Hl Hu; cbn [chunks_fuel length] in *; try lia.
  f_equal. apply IH; rewrite ?length_drop; cbn [length]; lia.
Qed.

(** The number of chunks is the length over [n], rounded up. *)
Lemma chunks_count {A} n k (l : list A) : (0 < n)%nat -> (length l <= k * n)%nat -> (k * n < length l + n)%nat ->
  length (chunks n l) = k.
Proof. intros. by apply chunks_fuel_count. Qed.

Lemma chunks_fuel_map {A B} (f : A -> B) n fuel : forall l,
  chunks_fuel fuel n (map f l) = map (map f) (chunks_fuel fuel n l).
Proof.
  induction fuel as [|fuel IH]; intros [|a l]; [done..|]. cbn [chunks_fuel map]. rewrite <- IH. f_equal.
  - change (f a :: map f l) with (map f (a :: l)). by rewrite firstn_map.
  - f_equal. change (f a :: map f l) with (map f (a :: l)). by rewrite skipn_map.
Qed.

Lemma chunks_map {A B} (f : A -> B) n l : chunks n (map f l) = map (map f) (chunks n l).
Proof. unfold chunks. rewrite length_map. apply chunks_fuel_map. Qed.

(** Halving, at least: what bounds the height. *)
Lemma chunks_half {A} (n k : nat) (l : list A) : (2 <= n)%nat -> (length l <= 2 ^ S k)%nat -> (length (chunks n l) <= 2 ^ k)%nat.
Proof.
  intros Hn Hl. pose proof (Nat.div_mod_eq (length l + n - 1) n) as Hd.
  pose proof (Nat.mod_upper_bound (length l + n - 1) n ltac:(lia)) as Hm.
  rewrite (chunks_count n ((length l + n - 1) / n)); [|lia|lia|lia].
  pose proof (Nat.pow_nonzero 2 k ltac:(lia)). cbn [Nat.pow] in Hl.
  set (q := ((length l + n - 1) / n)%nat) in *. destruct (Nat.le_gt_cases q (2 ^ k)); [done|exfalso].
  assert (n * (2 ^ k + 1) <= n * q)%nat by nia. nia.
Qed.

Lemma chunks_shrink {A} (n : nat) (l : list A) : (2 <= n)%nat -> (2 <= length l)%nat -> (length (chunks n l) < length l)%nat.
Proof.
  intros Hn Hl. pose proof (Nat.div_mod_eq (length l + n - 1) n) as Hd.
  pose proof (Nat.mod_upper_bound (length l + n - 1) n ltac:(lia)) as Hm.
  rewrite (chunks_count n ((length l + n - 1) / n)); [|lia|lia|lia].
  set (q := ((length l + n - 1) / n)%nat) in *. destruct (Nat.lt_ge_cases q (length l)); [done|exfalso].
  assert (n * length l <= n * q)%nat by nia. nia.
Qed.

(** ** Ordered maps: [BTreeMap<K, V>] as its sequence of entries *)

Class TotalOrd (A : Type) := {
  ocmp : A -> A -> comparison;
  ocmp_eq a b : ocmp a b = Eq <-> a = b;
  ocmp_antisym a b : ocmp b a = CompOpp (ocmp a b);
  ocmp_trans a b c : ocmp a b = Lt -> ocmp b c = Lt -> ocmp a c = Lt }.

#[export, refine] Instance Z_ord : TotalOrd Z := {| ocmp := Z.compare |}.
Proof.
  - intros; apply Z.compare_eq_iff.
  - intros; apply Z.compare_antisym.
  - intros a b c. rewrite !Z.compare_lt_iff. lia.
Defined.

Lemma ascii_compare_lt_trans a b c :
  Ascii.compare a b = Lt -> Ascii.compare b c = Lt -> Ascii.compare a c = Lt.
Proof. unfold Ascii.compare. rewrite !N.compare_lt_iff. lia. Qed.

Lemma string_compare_refl s : String.compare s s = Eq.
Proof.
  induction s as [|c s IH]; cbn; [done|].
  unfold Ascii.compare. by rewrite N.compare_refl.
Qed.

Lemma string_compare_lt_trans s1 s2 s3 :
  String.compare s1 s2 = Lt -> String.compare s2 s3 = Lt -> String.compare s1 s3 = Lt.
Proof.
  revert s2 s3; induction s1 as [|a s1 IH]; intros [|b s2] [|c s3]; cbn; try done.
  destruct (Ascii.compare a b) eqn:E1, (Ascii.compare b c) eqn:E2; try done;
    repeat match goal with
    | H : Ascii.compare _ _ = Eq |- _ => apply Ascii.compare_eq_iff in H; subst
    end; rewrite ?E1, ?E2; try done.
  - unfold Ascii.compare; rewrite N.compare_refl; apply IH.
  - by rewrite (ascii_compare_lt_trans _ _ _ E1 E2).
Qed.

#[export, refine] Instance string_ord : TotalOrd string := {| ocmp := String.compare |}.
Proof.
  - intros a b; split; [apply String.compare_eq_iff|intros ->; apply string_compare_refl].
  - intros; apply String.compare_antisym.
  - apply string_compare_lt_trans.
Defined.

Section btree.
Context {K V : Type} `{TotalOrd K}.

Definition olt (a b : K) : Prop := ocmp a b = Lt.

(** The keys are strictly increasing. *)
Definition bt_sorted (m : list (K * V)) : Prop := StronglySorted olt m.*1.

Fixpoint bt_get (k : K) (m : list (K * V)) : option V :=
  match m with
  | [] => None
  | (k', v) :: m' =>
    match ocmp k k' with Eq => Some v | _ => bt_get k m' end
  end.

Definition bt_contains (k : K) (m : list (K * V)) : bool :=
  match bt_get k m with Some _ => true | None => false end.

Fixpoint bt_insert (k : K) (v : V) (m : list (K * V)) : list (K * V) :=
  match m with
  | [] => [(k, v)]
  | (k', v') :: m' =>
    match ocmp k k' with
    | Lt => (k, v) :: m
    | Eq => (k, v) :: m'
    | Gt => (k', v') :: bt_insert k v m'
    end
  end.

Fixpoint bt_remove (k : K) (m : list (K * V)) : list (K * V) :=
  match m with
  | [] => []
  | (k', v') :: m' =>
    match ocmp k k' with Eq => m' | _ => (k', v') :: bt_remove k m' end
  end.

(** [iter.collect::<BTreeMap<_, _>>()]: later entries win. *)
Definition bt_of_list (l : list (K * V)) : list (K * V) :=
  fold_left (fun m kv => bt_insert kv.1 kv.2 m) l [].

Lemma ocmp_refl (a : K) : ocmp a a = Eq.
Proof. by apply ocmp_eq. Qed.
Lemma olt_irrefl (a : K) : ~ olt a a.
Proof. unfold olt. by rewrite ocmp_refl. Qed.
Lemma ocmp_gt (a b : K) : ocmp a b = Gt -> olt b a.
Proof. unfold olt. rewrite (ocmp_antisym a b). by intros ->. Qed.
Lemma olt_gt (a b : K) : olt b a -> ocmp a b = Gt.
Proof. unfold olt. intros E. rewrite (ocmp_antisym b a), E. done. Qed.

Lemma bt_sorted_cons k v m :
  bt_sorted ((k, v) :: m) <-> Forall (olt k) m.*1 /\ bt_sorted m.
Proof.
  unfold bt_sorted; cbn. split.
  - intros Hs. apply StronglySorted_inv in Hs as [? ?]. done.
  - intros [? ?]. by constructor.
Qed.

Lemma bt_get_lt k m : Forall (olt k) m.*1 -> bt_get k m = None.
Proof.
  induction m as [|[k' v] m IH]; cbn; [done|].
  inversion 1 as [|?? E]; subst. unfold olt in E. rewrite E. by apply IH.
Qed.

Lemma bt_get_insert k k' v m :
  bt_sorted m ->
  bt_get k (bt_insert k' v m) = match ocmp k k' with Eq => Some v | _ => bt_get k m end.
Proof.
  induction m as [|[k1 v1] m IH]; intros Hs; cbn; [done|].
  apply bt_sorted_cons in Hs as [Hall Hs].
  destruct (ocmp k' k1) eqn:E1; cbn.
  - apply ocmp_eq in E1; subst. destruct (ocmp k k1); done.
  - done.
  - rewrite IH by done. destruct (ocmp k k1) eqn:E2; try done.
    apply ocmp_eq in E2; subst.
    rewrite (ocmp_antisym k' k1), E1. done.
Qed.

Lemma bt_keys_insert k v m x : x ∈ (bt_insert k v m).*1 <-> x = k \/ x ∈ m.*1.
Proof.
  induction m as [|[k1 v1] m IH]; cbn; [set_solver|].
  destruct (ocmp k k1) eqn:E; cbn; rewrite ?list_elem_of_fmap in *; try set_solver.
  apply ocmp_eq in E; subst. set_solver.
Qed.

Lemma bt_sorted_insert k v m : bt_sorted m -> bt_sorted (bt_insert k v m).
Proof.
  induction m as [|[k1 v1] m IH]; intros Hs; cbn.
  - repeat constructor.
  - apply bt_sorted_cons in Hs as Hs'. destruct Hs' as [Hall Hs'].
    destruct (ocmp k k1) eqn:E.
    + apply ocmp_eq in E; subst. done.
    + apply bt_sorted_cons. split; [|done]. cbn. constructor; [done|].
      eapply Forall_impl; [exact Hall|]. intros; eapply ocmp_trans; eauto.
    + apply bt_sorted_cons. split; [|auto].
      apply Forall_forall. intros x Hx. apply bt_keys_insert in Hx as [->|Hx].
      * by apply ocmp_gt.
      * rewrite Forall_forall in Hall. by apply Hall.
Qed.

Lemma bt_insert_last k v m :
  Forall (fun x => olt x k) m.*1 -> bt_insert k v m = m ++ [(k, v)].
Proof.
  induction m as [|[k1 v1] m IH]; cbn; [done|].
  inversion 1 as [|?? E]; subst. by rewrite (olt_gt _ _ E), IH.
Qed.

Lemma bt_sorted_of_list (l : list (K * V)) : bt_sorted (bt_of_list l).
Proof.
  unfold bt_of_list. assert (bt_sorted (@nil (K * V))) as Hs by constructor.
  revert Hs. generalize (@nil (K * V)).
  induction l as [|kv l IH]; intros m Hm; cbn; [done|].
  apply IH. by apply bt_sorted_insert.
Qed.

Lemma bt_of_list_sorted (l : list (K * V)) : bt_sorted l -> bt_of_list l = l.
Proof.
  unfold bt_of_list. rewrite <- (app_nil_l l) at 1 3. generalize (@nil (K * V)).
  induction l as [|[k v] l IH]; intros m Hs; cbn.
  - by rewrite app_nil_r.
  - rewrite bt_insert_last.
    + replace (m ++ (k, v) :: l) with ((m ++ [(k, v)]) ++ l) in *
        by (by rewrite <- app_assoc).
      by apply IH.
    + unfold bt_sorted in Hs. rewrite fmap_app in Hs. cbn in Hs.
      apply Forall_forall. intros x Hx.
      eapply (StronglySorted_app_1_elem_of olt _ _ _ _ Hs); [done|]. left.
Qed.

Lemma bt_get_elem k v m : bt_sorted m -> (k, v) ∈ m -> bt_get k m = Some v.
Proof.
  induction m as [|[k1 v1] m IH]; intros Hs Hin; [by apply not_elem_of_nil in Hin|].
  apply bt_sorted_cons in Hs as [Hall Hs]. cbn.
  apply elem_of_cons in Hin as [[= -> ->]|Hin]; [by rewrite ocmp_refl|].
  rewrite Forall_forall in Hall.
  rewrite (olt_gt k k1); [by apply IH|].
  apply Hall, list_elem_of_fmap. by exists (k, v).
Qed.

Lemma bt_get_some_elem k v m : bt_get k m = Some v -> (k, v) ∈ m.
Proof.
  induction m as [|[k1 v1] m IH]; cbn; [done|].
  destruct (ocmp k k1) eqn:E; intros Hg; try (right; by apply IH).
  apply ocmp_eq in E as ->. injection Hg as ->. left.
Qed.

Lemma bt_keys_remove k m x : x ∈ (bt_remove k m).*1 -> x ∈ m.*1.
Proof.
  induction m as [|[k1 v1] m IH]; cbn; [done|]. destruct (ocmp k k1); cbn; rewrite ?elem_of_cons; tauto.
Qed.

Lemma bt_sorted_remove k m : bt_sorted m -> bt_sorted (bt_remove k m).
Proof.
  induction m as [|[k1 v1] m IH]; cbn [bt_remove]; [done|]. rewrite bt_sorted_cons. intros [Ha Hs].
  destruct (ocmp k k1); [done|..]; apply bt_sorted_cons; (split; [|by apply IH]);
    apply Forall_forall; intros x Hx%bt_keys_remove; rewrite Forall_forall in Ha; by apply Ha.
Qed.

Lemma bt_get_remove k k' m :
  bt_sorted m -> bt_get k (bt_remove k' m) = match ocmp k k' with Eq => None | _ => bt_get k m end.
Proof.
  induction m as [|[k1 v1] m IH]; cbn [bt_remove bt_get]; [by destruct (ocmp k k')|].
  rewrite bt_sorted_cons. intros [Ha Hs]. destruct (ocmp k' k1) eqn:E1.
  - apply ocmp_eq in E1 as ->. destruct (ocmp k k1) eqn:E; [|done..].
    apply ocmp_eq in E as ->. by apply bt_get_lt.
  - cbn [bt_get]. rewrite IH by done. destruct (ocmp k k1) eqn:E, (ocmp k k') eqn:E'; try done;
      apply ocmp_eq in E, E'; subst; by rewrite ocmp_refl in E1.
  - cbn [bt_get]. rewrite IH by done. destruct (ocmp k k1) eqn:E, (ocmp k k') eqn:E'; try done;
      apply ocmp_eq in E, E'; subst; by rewrite ocmp_refl in E1.
Qed.

Lemma bt_insert_app_r k v (m1 m2 : list (K * V)) :
  Forall (fun x => olt x k) m1.*1 -> bt_insert k v (m1 ++ m2) = m1 ++ bt_insert k v m2.
Proof.
  induction m1 as [|[k1 v1] m1 IH]; cbn; [done|].
  inversion 1 as [|?? E]; subst. by rewrite (olt_gt _ _ E), IH.
Qed.

Lemma bt_insert_app_l k v (m1 m2 : list (K * V)) :
  Forall (olt k) m2.*1 -> bt_insert k v (m1 ++ m2) = bt_insert k v m1 ++ m2.
Proof.
  intros Hm. induction m1 as [|[k1 v1] m1 IH]; cbn.
  - destruct m2 as [|[k2 v2] m2]; cbn; [done|]. inversion Hm as [|?? E]; subst.
    unfold olt in E. by rewrite E.
  - destruct (ocmp k k1); cbn; [done|done|by rewrite IH].
Qed.
End btree.
Arguments bt_sorted {K V H} m.

(** ** Binary search: [slice::binary_search_by] and [slice::partition_point]

    The loop of the standard library: [size] halves until it is one, [base]
    moves to the probed middle unless the probe compares [Greater]. *)

Section binary_search.
Context {A : Type}.
Implicit Types (f : A -> comparison) (l : list A).

Fixpoint bs_loop f l (fuel base size : nat) : nat :=
  match fuel with
  | O => base
  | S fuel =>
    if bool_decide (size <= 1)%nat then base else
    let half := (size / 2)%nat in
    let mid := (base + half)%nat in
    let base' := match l !! mid with
                 | Some x => match f x with Gt => base | _ => mid end
                 | None => base
                 end in
    bs_loop f l fuel base' (size - half)%nat
  end.

Definition binary_search_by f l : result nat nat :=
  let base := bs_loop f l (length l) 0 (length l) in
  match l !! base with
  | None => Err 0%nat
  | Some x =>
    match f x with
    | Eq => Ok base
    | Lt => Err (base + 1)%nat
    | Gt => Err base
    end
  end.

Definition partition_point (p : A -> bool) l : nat :=
  match binary_search_by (fun x => if p x then Lt else Gt) l with
  | Ok i => i | Err i => i end.

(** The probe is nondecreasing along the list: [Less], then [Equal], then
    [Greater]. *)
Definition probe_sorted f l : Prop :=
  forall i j x y, (i < j)%nat -> l !! i = Some x -> l !! j = Some y ->
    (f x = Gt -> f y = Gt) /\ (f y = Lt -> f x = Lt).

Lemma bs_loop_spec f l fuel base size :
  probe_sorted f l -> (0 < size)%nat -> (size <= fuel)%nat ->
  (base + size <= length l)%nat ->
  (base = 0 \/ exists x, l !! base = Some x /\ f x <> Gt)%nat ->
  (forall i x, (base + size <= i)%nat -> l !! i = Some x -> f x = Gt) ->
  let b := bs_loop f l fuel base size in
  (b < length l)%nat /\
  (b = 0 \/ exists x, l !! b = Some x /\ f x <> Gt)%nat /\
  (forall i x, (b < i)%nat -> l !! i = Some x -> f x = Gt).
Proof.
  intros Hmono. revert base size.
  induction fuel as [|fuel IH]; intros base size Hs Hf Hl Hb Hg; cbn [bs_loop]; [lia|].
  case_bool_decide as Hsz.
  { split; [lia|]. split; [done|]. intros i x Hi. apply Hg. lia. }
  assert (0 < size / 2 < size /\ 2 * (size / 2) <= size)%nat as Hhalf.
  { pose proof (Nat.div_mod_eq size 2). pose proof (Nat.mod_upper_bound size 2). lia. }
  destruct (lookup_lt_is_Some_2 l (base + size / 2)) as [x Hx]; [lia|].
  rewrite Hx. destruct (f x) eqn:E; apply IH; try lia; try done.
  - right. exists x. by rewrite E.
  - intros i y Hi. apply Hg. lia.
  - right. exists x. by rewrite E.
  - intros i y Hi. apply Hg. lia.
  - intros i y Hi Hy. destruct (decide (i = base + size / 2)%nat) as [->|].
    + congruence.
    + eapply (Hmono (base + size / 2)%nat i x y); eauto. lia.
Qed.

Lemma binary_search_by_ok f l i :
  binary_search_by f l = Ok i -> exists x, l !! i = Some x /\ f x = Eq.
Proof.
  unfold binary_search_by. destruct (l !! _) as [x|] eqn:E; [|done].
  destruct (f x) eqn:Ef; intros [= <-]. eauto.
Qed.

Lemma binary_search_by_err f l i :
  probe_sorted f l -> binary_search_by f l = Err i ->
  (i <= length l)%nat /\
  (forall j x, (j < i)%nat -> l !! j = Some x -> f x = Lt) /\
  (forall j x, (i <= j)%nat -> l !! j = Some x -> f x = Gt).
Proof.
  intros Hm. unfold binary_search_by. destruct l as [|a l'] eqn:El.
  { cbn. intros [= <-]. by split; [lia|]. }
  rewrite <- El in *. assert (0 < length l)%nat by (subst; cbn; lia).
  destruct (bs_loop_spec f l (length l) 0 (length l)) as (Hlt & Hb & Hg);
    [done|lia|lia|lia|by left| |].
  { intros j x Hj Hx. apply lookup_lt_Some in Hx. lia. }
  destruct (l !! bs_loop _ _ _ _ _) as [x|] eqn:E.
  2:{ apply lookup_ge_None in E. lia. }
  destruct (f x) eqn:Ef; intros [= <-].
  - split; [lia|]. split.
    + intros j y Hj Hy.
      destruct (decide (j = bs_loop f l (length l) 0 (length l))%nat) as [->|]; [congruence|].
      eapply (Hm j (bs_loop f l (length l) 0 (length l))); eauto. lia.
    + intros j y Hj. apply Hg. lia.
  - destruct Hb as [Hb|(y & Hy & ?)]; [|congruence].
    rewrite Hb in *. split; [lia|]. split; [lia|].
    intros j y Hj Hy. destruct (decide (j = 0)%nat) as [->|]; [congruence|].
    eapply Hg; [|done]. lia.
Qed.

(** On a sorted probe the search finds an equal element exactly when there is one. *)
Lemma binary_search_by_found f l :
  probe_sorted f l ->
  is_ok (binary_search_by f l) = true <-> exists x, x ∈ l /\ f x = Eq.
Proof.
  intros Hm. rewrite is_ok_true. split.
  - intros [i Hi]. apply binary_search_by_ok in Hi as (x & Hx & ?).
    exists x. split; [|done]. by eapply list_elem_of_lookup_2.
  - intros (x & Hx & E). destruct (binary_search_by f l) as [i|i] eqn:Hs; [eauto|].
    apply list_elem_of_lookup in Hx as [j Hj].
    apply binary_search_by_err in Hs as (? & H1 & H2); [|done].
    destruct (decide (j < i)%nat);
      [pose proof (H1 j x ltac:(lia) Hj)|pose proof (H2 j x ltac:(lia) Hj)]; congruence.
Qed.

Lemma partition_point_spec (p : A -> bool) l :
  (forall i j x y, (i < j)%nat -> l !! i = Some x -> l !! j = Some y ->
     p y = true -> p x = true) ->
  let n := partition_point p l in
  (n <= length l)%nat /\ Forall (fun x => p x = true) (take n l) /\
  Forall (fun x => p x = false) (drop n l).
Proof.
  intros Hp. unfold partition_point.
  destruct (binary_search_by _ l) as [i|i] eqn:E.
  { apply binary_search_by_ok in E as (x & _ & Hx). by destruct (p x). }
  apply binary_search_by_err in E as (Hi & H1 & H2).
  - split; [done|]. split; apply Forall_lookup; intros j x.
    + intros [Hj ?]%lookup_take_Some. specialize (H1 j x). destruct (p x); [done|].
      discriminate H1; done.
    + rewrite lookup_drop. intros Hj. specialize (H2 (i + j)%nat x).
      destruct (p x); [|done]. discriminate H2; [lia|done].
  - intros j k x y ? Hx Hy. pose proof (Hp j k x y).
    destruct (p x), (p y); naive_solver.
Qed.
End binary_search.

Lemma elem_of_concat {A} (x : A) ls : x ∈ concat ls <-> exists l, l ∈ ls /\ x ∈ l.
Proof.
  rewrite list_elem_of_In, in_concat. split; intros (l & ? & ?); exists l;
    rewrite ?list_elem_of_In in *; done.
Qed.

Lemma elem_of_concat_map {A B} (f : A -> list B) y l : y ∈ concat (map f l) <-> exists x, x ∈ l /\ y ∈ f x.
Proof.
  rewrite elem_of_concat. split.
  - intros (ys & (x & -> & Hx)%list_elem_of_fmap & Hy). eauto.
  - intros (x & Hx & Hy). exists (f x). split; [|done]. apply list_elem_of_fmap. eauto.
Qed.
