(* ===== verification/Bytes.v ===== *)
(** Bytes, big-endian integers, UTF-8, decimal and hexadecimal text: the parts
    of the Rust standard library the codecs compute with, and the interface of
    the [hex] crate. *)
From Stdlib Require Import DecimalString DecimalN DecimalPos DecimalFacts.
From Stdlib Require Zbitwise.
From S2P Require Import Prelude.

Notation byte := Byte.byte.
Notation bytes := (list byte).

(** ** Bytes as 8-bit integers *)

Definition byte_to_Z (b : byte) : Z := Z.of_N (Byte.to_N b).
(** Truncation [z as u8]. *)
Definition byte_of_Z (z : Z) : byte :=
  default Byte.x00 (Byte.of_N (Z.to_N (z mod 256))).

Lemma byte_to_Z_range b : is_u8 (byte_to_Z b).
Proof.
  unfold byte_to_Z, is_uint. pose proof (Byte.to_N_bounded b). lia.
Qed.

Lemma byte_of_to b : byte_of_Z (byte_to_Z b) = b.
Proof. destruct b; reflexivity. Qed.

Lemma byte_to_of z : is_u8 z -> byte_to_Z (byte_of_Z z) = z.
Proof.
  intros Hz. unfold is_uint in Hz. unfold byte_of_Z. rewrite Z.mod_small by lia.
  destruct (Byte.of_N (Z.to_N z)) as [b|] eqn:E; cbn.
  - apply Byte.to_of_N in E. unfold byte_to_Z. rewrite E. lia.
  - apply Byte.of_N_None_iff in E. lia.
Qed.

Lemma byte_to_Z_inj a b : byte_to_Z a = byte_to_Z b -> a = b.
Proof. intros E. by rewrite <- (byte_of_to a), E, byte_of_to. Qed.

#[export] Instance byte_eq_dec : EqDecision byte := Byte.byte_eq_dec.
#[export] Instance byte_countable : Countable byte.
Proof. refine (inj_countable' byte_to_Z byte_of_Z byte_of_to). Defined.

Definition byte_eqb (a b : byte) : bool := byte_to_Z a =? byte_to_Z b.
Lemma byte_eqb_eq a b : byte_eqb a b = true <-> a = b.
Proof.
  unfold byte_eqb. rewrite Z.eqb_eq. split; [apply byte_to_Z_inj|by intros ->].
Qed.

(** [(lo..=hi).contains(&b)] *)
Definition byte_in (lo hi : Z) (b : byte) : bool :=
  (lo <=? byte_to_Z b) && (byte_to_Z b <=? hi).

(** ** Big-endian integers: [to_be_bytes] and [from_be_bytes] *)

Fixpoint be_bytes (n : nat) (z : Z) : bytes :=
  match n with
  | O => []
  | S n => byte_of_Z (z / 256 ^ Z.of_nat n) :: be_bytes n (z mod 256 ^ Z.of_nat n)
  end.

Fixpoint be_val (l : bytes) : Z :=
  match l with
  | [] => 0
  | b :: l => byte_to_Z b * 256 ^ len l + be_val l
  end.

Lemma be_bytes_length n z : length (be_bytes n z) = n.
Proof. revert z; induction n; intros; cbn; auto. Qed.

Lemma be_bytes_len n z : len (be_bytes n z) = Z.of_nat n.
Proof. unfold len. by rewrite be_bytes_length. Qed.
#[export] Hint Rewrite be_bytes_len : otmp.

Lemma be_val_range l : 0 <= be_val l < 256 ^ len l.
Proof.
  induction l as [|b l IH]; [done|]. cbn [be_val].
  rewrite len_cons, Z.pow_add_r by (pose proof (len_nonneg l); lia).
  pose proof (byte_to_Z_range b). unfold is_uint in *. nia.
Qed.

Lemma be_val_bytes n z : 0 <= z < 256 ^ Z.of_nat n -> be_val (be_bytes n z) = z.
Proof.
  revert z; induction n as [|n IH]; intros z Hz; cbn [be_bytes be_val]; [cbn in Hz; lia|].
  rewrite Nat2Z.inj_succ, Z.pow_succ_r in Hz by lia.
  assert (0 < 256 ^ Z.of_nat n) by (apply Z.pow_pos_nonneg; lia).
  rewrite be_bytes_len, IH by (apply Z.mod_pos_bound; lia).
  rewrite byte_to_of.
  - pose proof (Z.div_mod z (256 ^ Z.of_nat n)). lia.
  - unfold is_uint. split; [apply Z.div_pos; lia|].
    apply Z.div_lt_upper_bound; lia.
Qed.

Lemma be_bytes_val l : be_bytes (length l) (be_val l) = l.
Proof.
  induction l as [|b l IH]; cbn [length be_bytes be_val]; [done|].
  pose proof (be_val_range l). fold (len l). f_equal.
  - rewrite Z.div_add_l, Z.div_small, Z.add_0_r by lia. apply byte_of_to.
  - rewrite Z.add_comm, Z.mod_add, Z.mod_small by lia. done.
Qed.

Lemma be_val_inj l1 l2 : length l1 = length l2 -> be_val l1 = be_val l2 -> l1 = l2.
Proof.
  intros Hl E. rewrite <- (be_bytes_val l1), <- (be_bytes_val l2). by rewrite Hl, E.
Qed.

Lemma be_val_uint n l : length l = n -> is_uint (8 * Z.of_nat n) (be_val l).
Proof.
  intros <-. unfold is_uint. rewrite Z.pow_mul_r by lia. apply be_val_range.
Qed.

Lemma be_bytes_inj n z1 z2 :
  0 <= z1 < 256 ^ Z.of_nat n -> 0 <= z2 < 256 ^ Z.of_nat n ->
  be_bytes n z1 = be_bytes n z2 -> z1 = z2.
Proof.
  intros H1 H2 E. by rewrite <- (be_val_bytes n z1), E, be_val_bytes.
Qed.

(** Bits above and below [n] *)
Lemma lor_shift (a b n : Z) : 0 <= n -> 0 <= a < 2 ^ n -> Z.lor a (Z.shiftl b n) = a + 2 ^ n * b.
Proof.
  intros Hn Ha. rewrite Z.shiftl_mul_pow2, (Z.mul_comm (2 ^ n)) by done. rewrite <- Zbitwise.Z.add_lor_land.
  assert (Z.land a (b * 2 ^ n) = 0) as ->; [|lia].
  apply Z.bits_inj'. intros k Hk. rewrite Z.land_spec, Z.bits_0. destruct (Z.lt_ge_cases k n).
  - rewrite (Z.mul_pow2_bits_low b n k) by lia. by rewrite andb_false_r.
  - rewrite <- (Z.mod_small a (2 ^ n)) by done. by rewrite Z.mod_pow2_bits_high by lia.
Qed.

(** ** Strings

    A Rust [String] is its UTF-8 bytes; [string] holds one character per byte. *)

Definition as_bytes (s : string) : bytes := list_byte_of_string s.
Definition of_bytes (l : bytes) : string := string_of_list_byte l.

Lemma of_as_bytes s : of_bytes (as_bytes s) = s.
Proof. apply string_of_list_byte_of_string. Qed.
Lemma as_of_bytes l : as_bytes (of_bytes l) = l.
Proof. apply list_byte_of_string_of_list_byte. Qed.

Lemma as_bytes_inj s1 s2 : as_bytes s1 = as_bytes s2 -> s1 = s2.
Proof. intros E. by rewrite <- (of_as_bytes s1), E, of_as_bytes. Qed.

Lemma as_bytes_cons a s : as_bytes (String a s) = Ascii.byte_of_ascii a :: as_bytes s.
Proof. done. Qed.

Lemma as_bytes_app s1 s2 : as_bytes (s1 +:+ s2) = as_bytes s1 ++ as_bytes s2.
Proof.
  induction s1 as [|a s1 IH]; [done|].
  change (as_bytes (String a (s1 +:+ s2)) = as_bytes (String a s1) ++ as_bytes s2).
  rewrite !as_bytes_cons, IH. done.
Qed.

Lemma as_bytes_length s : length (as_bytes s) = String.length s.
Proof.
  induction s as [|a s IH]; [done|]. rewrite as_bytes_cons. cbn. by rewrite IH.
Qed.

(** [s.len()] *)
Definition str_len (s : string) : Z := len (as_bytes s).

(** [&s[start..end]] for indices on character boundaries. *)
Definition str_slice (s : string) (start stop : nat) : string :=
  of_bytes (take (stop - start) (drop start (as_bytes s))).

(** *** UTF-8 validation: [std::str::from_utf8] *)

Definition is_cont (b : byte) : bool := byte_in 0x80 0xBF b.

Fixpoint utf8_valid (l : bytes) : bool :=
  match l with
  | [] => true
  | b0 :: l0 =>
    if byte_in 0 0x7F b0 then utf8_valid l0 else
    match l0 with
    | [] => false
    | b1 :: l1 =>
      if byte_in 0xC2 0xDF b0 then is_cont b1 && utf8_valid l1 else
      match l1 with
      | [] => false
      | b2 :: l2 =>
        if byte_in 0xE0 0xEF b0 then
          (if byte_in 0xE0 0xE0 b0 then byte_in 0xA0 0xBF b1
           else if byte_in 0xED 0xED b0 then byte_in 0x80 0x9F b1
           else is_cont b1) && is_cont b2 && utf8_valid l2 else
        match l2 with
        | [] => false
        | b3 :: l3 =>
          byte_in 0xF0 0xF4 b0 &&
          (if byte_in 0xF0 0xF0 b0 then byte_in 0x90 0xBF b1
           else if byte_in 0xF4 0xF4 b0 then byte_in 0x80 0x8F b1
           else is_cont b1) && is_cont b2 && is_cont b3 && utf8_valid l3
        end
      end
    end
  end.

(** The invariant of every Rust [String]. *)
Definition is_utf8 (s : string) : Prop := utf8_valid (as_bytes s) = true.

Lemma utf8_ascii l : Forall (fun b => byte_in 0 0x7F b = true) l -> utf8_valid l = true.
Proof. induction 1 as [|b l Hb _ IH]; cbn; [done|]. by rewrite Hb. Qed.
Lemma utf8_all_ascii l : forallb (byte_in 0 0x7F) l = true -> utf8_valid l = true.
Proof. intros Hl. apply utf8_ascii. rewrite forallb_forall in Hl. apply Forall_forall. intros b Hb%list_elem_of_In. by apply Hl. Qed.

(** ** Decimal text: [to_string] and [parse] of integers *)

(** [n.to_string()] for an unsigned integer *)
Definition u64_to_string (n : Z) : string :=
  NilEmpty.string_of_uint (N.to_uint (Z.to_N n)).

Definition digits_value (s : string) : option Z :=
  match s with
  | EmptyString => None
  | _ => d ← NilEmpty.uint_of_string s; Some (Z.of_N (N.of_uint d))
  end.

(** [s.parse::<u64>().ok()]: an optional [+], then digits, within range. *)
Definition u64_from_str (s : string) : option Z :=
  v ← match s with
      | String "+"%char s' => digits_value s'
      | _ => digits_value s
      end;
  try_uint 64 v.

(** [n.to_string()] for a signed integer *)
Definition i64_to_string (n : Z) : string :=
  if n <? 0 then String "-"%char (u64_to_string (- n)) else u64_to_string n.

(** [s.parse::<i64>().ok()] *)
Definition i64_from_str (s : string) : option Z :=
  v ← match s with
      | String "+"%char s' => digits_value s'
      | String "-"%char s' => v ← digits_value s'; Some (- v)
      | _ => digits_value s
      end;
  try_sint 64 v.

Lemma uint_nonempty n : N.to_uint n <> Decimal.Nil.
Proof.
  destruct n as [|p]; [done|]. cbn. apply DecimalPos.Unsigned.to_uint_nonnil.
Qed.

Lemma string_of_uint_empty d : NilEmpty.string_of_uint d = EmptyString -> d = Decimal.Nil.
Proof. by destruct d. Qed.

Lemma digits_value_to_string n : 0 <= n -> digits_value (u64_to_string n) = Some n.
Proof.
  intros Hn. unfold digits_value, u64_to_string.
  destruct (NilEmpty.string_of_uint _) eqn:E.
  { by apply string_of_uint_empty, uint_nonempty in E. }
  rewrite <- E, NilEmpty.usu. cbn. rewrite DecimalN.Unsigned.of_to.
  by rewrite Z2N.id.
Qed.

Lemma u64_to_string_inj m n : 0 <= m -> 0 <= n -> u64_to_string m = u64_to_string n -> m = n.
Proof.
  intros Hm Hn E. apply digits_value_to_string in Hm, Hn. rewrite E in Hm. congruence.
Qed.

(** The first character of a printed number is a digit. *)
Lemma u64_to_string_head n :
  exists c s, u64_to_string n = String c s /\ c <> "+"%char /\ c <> "-"%char /\
    (c = "0"%char -> s = EmptyString).
Proof.
  unfold u64_to_string.
  assert (Decimal.unorm (N.to_uint (Z.to_N n)) = N.to_uint (Z.to_N n)) as Hn.
  { rewrite <- DecimalN.Unsigned.to_of. by rewrite DecimalN.Unsigned.of_to. }
  pose proof (uint_nonempty (Z.to_N n)) as Hne.
  destruct (N.to_uint (Z.to_N n)) as [|d|d|d|d|d|d|d|d|d|d] eqn:E; try done;
    try (eexists _, _; split; [reflexivity|]; repeat split; discriminate).
  eexists _, _. split; [reflexivity|]. repeat split; try discriminate. intros _.
  rewrite DecimalFacts.unorm_D0 in Hn.
  assert (Decimal.nzhead d = Decimal.Nil \/ Decimal.nzhead d <> Decimal.Nil) as [Ez|Ez]
    by (destruct (Decimal.nzhead d); eauto).
  - apply DecimalFacts.unorm_0 in Ez. rewrite Ez in Hn. by injection Hn as <-.
  - rewrite DecimalFacts.unorm_nzhead in Hn by done.
    by apply DecimalFacts.nzhead_nonzero in Hn.
Qed.

Lemma u64_from_to_string n : is_u64 n -> u64_from_str (u64_to_string n) = Some n.
Proof.
  intros Hn. destruct (u64_to_string_head n) as (c & s & E & ? & ? & ?).
  assert (u64_from_str (u64_to_string n) = (v ← digits_value (u64_to_string n); try_uint 64 v)) as ->.
  { rewrite E. unfold u64_from_str.
    destruct (ascii_dec c "+") as [->|]; [done|]. by destruct c as [[] [] [] [] [] [] [] []]. }
  rewrite digits_value_to_string by (unfold is_uint in Hn; lia).
  by apply try_uint_id.
Qed.

(** No leading zero unless the number is one digit long. *)
Definition no_leading_zero (s : string) : bool :=
  match s with String "0"%char (String _ _) => false | _ => true end.

Lemma unorm_canonical d :
  d <> Decimal.Nil -> (forall d', d = Decimal.D0 d' -> d' = Decimal.Nil) ->
  Decimal.unorm d = d.
Proof.
  intros Hne H0. destruct d; try done. by rewrite (H0 d).
Qed.

Lemma digits_value_canonical s n :
  digits_value s = Some n -> no_leading_zero s = true ->
  0 <= n /\ u64_to_string n = s.
Proof.
  intros Hd Hz. unfold digits_value in Hd.
  destruct (NilEmpty.uint_of_string s) as [d|] eqn:E; [|by destruct s].
  assert (s <> EmptyString /\ n = Z.of_N (N.of_uint d)) as [Hs ->]
    by (by destruct s; cbn in Hd; simplify_eq).
  split; [lia|]. unfold u64_to_string. rewrite N2Z.id, DecimalN.Unsigned.to_of.
  apply NilEmpty.sus in E. rewrite unorm_canonical; [done| |].
  - intros ->. by subst.
  - intros d' ->. subst s. cbn in Hz. by destruct d'.
Qed.

Lemma u64_from_str_canonical s n :
  u64_from_str s = Some n -> no_leading_zero s = true ->
  (forall s', s <> String "+" s') -> is_u64 n /\ u64_to_string n = s.
Proof.
  intros Hf Hz Hp.
  assert (u64_from_str s = (v ← digits_value s; try_uint 64 v)) as E.
  { destruct s as [|c s]; [done|]. cbn -[digits_value].
    destruct (ascii_dec c "+") as [->|]; [by destruct (Hp s)|].
    by destruct c as [[] [] [] [] [] [] [] []]. }
  rewrite E in Hf. destruct (digits_value s) as [v|] eqn:Ev; [|done]. cbn in Hf.
  apply try_uint_some in Hf as [-> ?]. split; [done|].
  by eapply digits_value_canonical.
Qed.

Lemma i64_from_to_string n : is_i64 n -> i64_from_str (i64_to_string n) = Some n.
Proof.
  intros Hn. unfold i64_to_string. destruct (n <? 0) eqn:Hneg; bool_to_prop.
  - cbn -[digits_value]. rewrite digits_value_to_string by lia. cbn.
    rewrite try_sint_id; [f_equal; lia|]. by replace (- - n) with n by lia.
  - destruct (u64_to_string_head n) as (c & s & E & ? & ? & ?).
    assert (i64_from_str (u64_to_string n)
            = (v ← digits_value (u64_to_string n); try_sint 64 v)) as ->.
    { rewrite E. unfold i64_from_str.
      by destruct c as [[] [] [] [] [] [] [] []]. }
    rewrite digits_value_to_string by lia. by apply try_sint_id.
Qed.

(** ** Hexadecimal text: the interface of the [hex] crate

    Its documented behaviour: [encode] writes two lowercase digits per byte,
    [decode] inverts it on every even-length string of such digits. *)

(** [matches!(byte, b'0'..=b'9' | b'a'..=b'f')] *)
Definition is_lower_hex (b : byte) : bool := byte_in 0x30 0x39 b || byte_in 0x61 0x66 b.

Class HexCrate := {
  hex_encode : bytes -> string;
  hex_decode : string -> option bytes;
  (** the message of a failed [decode] *)
  hex_decode_error : string -> string;
  hex_encode_length b : length (as_bytes (hex_encode b)) = (2 * length b)%nat;
  hex_encode_lower b : forallb is_lower_hex (as_bytes (hex_encode b)) = true;
  hex_decode_encode b : hex_decode (hex_encode b) = Some b;
  hex_decode_lower s n :
    forallb is_lower_hex (as_bytes s) = true -> length (as_bytes s) = (2 * n)%nat ->
    exists b, hex_decode s = Some b /\ hex_encode b = s }.

Lemma hex_encode_inj `{HexCrate} a b : hex_encode a = hex_encode b -> a = b.
Proof. intros E. apply (f_equal hex_decode) in E. rewrite !hex_decode_encode in E. congruence. Qed.

(** A concrete codec with that behaviour, used to evaluate the definitions. *)
Module HexReference.
Definition digit (n : Z) : byte := byte_of_Z (if n <? 10 then 0x30 + n else 0x57 + n).
Definition encode (l : bytes) : bytes :=
  flat_map (fun b => [digit (byte_to_Z b / 16); digit (byte_to_Z b mod 16)]) l.
Definition nibble (b : byte) : option Z :=
  let z := byte_to_Z b in
  if byte_in 0x30 0x39 b then Some (z - 0x30)
  else if byte_in 0x61 0x66 b then Some (z - 0x57)
  else if byte_in 0x41 0x46 b then Some (z - 0x37) else None.
Fixpoint decode (l : bytes) : option bytes :=
  match l with
  | [] => Some []
  | [_] => None
  | a :: b :: l =>
    x ← nibble a; y ← nibble b; r ← decode l; Some (byte_of_Z (16 * x + y) :: r)
  end.

Lemma decode_two b :
  nibble (digit (byte_to_Z b / 16)) = Some (byte_to_Z b / 16) /\
  nibble (digit (byte_to_Z b mod 16)) = Some (byte_to_Z b mod 16) /\
  is_lower_hex (digit (byte_to_Z b / 16)) = true /\
  is_lower_hex (digit (byte_to_Z b mod 16)) = true.
Proof. destruct b; repeat split; reflexivity. Qed.

Lemma nibble_digit b :
  is_lower_hex b = true -> exists n, nibble b = Some n /\ 0 <= n < 16 /\ digit n = b.
Proof. destruct b; intros H; try discriminate H; eexists; repeat split; done. Qed.

Lemma decode_encode l : decode (encode l) = Some l.
Proof.
  induction l as [|b l IH]; [done|].
  change (encode (b :: l)) with
    (digit (byte_to_Z b / 16) :: digit (byte_to_Z b mod 16) :: encode l).
  cbn [decode]. destruct (decode_two b) as (-> & -> & _ & _). cbn.
  rewrite IH. cbn. rewrite <- Z.div_mod by lia. by rewrite byte_of_to.
Qed.

Lemma decode_lower n l :
  forallb is_lower_hex l = true -> length l = (2 * n)%nat ->
  exists b, decode l = Some b /\ encode b = l.
Proof.
  revert l; induction n as [|n IH]; intros l Hl Hn.
  { destruct l; [by exists []|discriminate]. }
  destruct l as [|x [|y l]]; [discriminate|cbn in Hn; lia|]. cbn in Hl.
  apply andb_true_iff in Hl as [Hx [Hy Hl]%andb_true_iff].
  apply nibble_digit in Hx as (i & Hi & ? & <-), Hy as (j & Hj & ? & <-).
  destruct (IH l) as (r & Hr & <-); [done|cbn in Hn; lia|].
  exists (byte_of_Z (16 * i + j) :: r). cbn [decode]. rewrite Hi, Hj, Hr.
  split; [done|]. cbn. rewrite byte_to_of by (unfold is_uint; lia).
  rewrite Z.mul_comm, Z.div_add_l, Z.div_small, Z.add_0_r by lia.
  by rewrite Z.add_comm, Z.mod_add, Z.mod_small by lia.
Qed.
End HexReference.

#[refine] Definition hex_reference : HexCrate := {|
  hex_encode l := of_bytes (HexReference.encode l);
  hex_decode s := HexReference.decode (as_bytes s);
  hex_decode_error _ := "invalid hex string" |}.
Proof.
  - intros b. rewrite as_of_bytes. induction b as [|x b IH]; [done|].
    cbn -[Nat.mul]. change (flat_map _ b) with (HexReference.encode b). lia.
  - intros b. rewrite as_of_bytes. induction b as [|x b IH]; [done|].
    cbn -[HexReference.digit is_lower_hex].
    destruct (HexReference.decode_two x) as (_ & _ & -> & ->). done.
  - intros b. rewrite as_of_bytes. apply HexReference.decode_encode.
  - intros s n H1 H2.
    destruct (HexReference.decode_lower n (as_bytes s)) as (b & Hb & He); [done..|].
    exists b. split; [done|]. by rewrite He, of_as_bytes.
Defined.
