(* ===== verification/Errors.v ===== *)
(** Error values of the protocol, storage and runtime layers, with their stable
    codes, retry classes and messages
    (otmp-protocol/src/error.rs, otmp/src/storage.rs, otmp/src/error.rs). *)
From S2P Require Import Prelude Bytes.

Module ProtocolError.
Inductive t :=
| DuplicateJsonKey (key : string)
| FloatingPointJson
| IntegerOutOfRange
| NonCanonicalJson
| InvalidJson (m : string)
| InvalidId (m : string)
| InvalidHash (m : string)
| UnsafeRelativeUri (m : string)
| InvalidFeatureSet (m : string)
| InvalidIntegerString (m : string)
| InvalidSchema (m : string)
| InvalidObject (m : string)
| InvalidCbor (m : string)
| Encoding (m : string).

#[global] Instance t_eq_dec : EqDecision t.
Proof. solve_decision. Defined.

Definition code (e : t) : string :=
  match e with
  | DuplicateJsonKey _ => "OTMP_DUPLICATE_JSON_KEY"
  | FloatingPointJson => "OTMP_FLOATING_POINT_JSON"
  | IntegerOutOfRange | InvalidIntegerString _ => "OTMP_INVALID_INTEGER"
  | NonCanonicalJson => "OTMP_NONCANONICAL_JSON"
  | InvalidJson _ => "OTMP_INVALID_JSON"
  | InvalidId _ => "OTMP_INVALID_ID"
  | InvalidHash _ => "OTMP_INVALID_HASH"
  | UnsafeRelativeUri _ => "OTMP_UNSAFE_URI"
  | InvalidFeatureSet _ => "OTMP_INVALID_FEATURE_SET"
  | InvalidSchema _ => "OTMP_INVALID_SCHEMA"
  | InvalidObject _ => "OTMP_INVALID_OBJECT"
  | InvalidCbor _ => "OTMP_INVALID_CBOR"
  | Encoding _ => "OTMP_ENCODING_ERROR"
  end.

(** The [#[error(..)]] display strings. *)
Definition display (e : t) : string :=
  match e with
  | DuplicateJsonKey m => "duplicate JSON key: " +:+ m
  | FloatingPointJson => "floating-point JSON numbers are forbidden"
  | IntegerOutOfRange => "JSON integer is outside the supported range"
  | NonCanonicalJson => "JSON is not in canonical form"
  | InvalidJson m => "invalid JSON: " +:+ m
  | InvalidId m => "invalid identifier: " +:+ m
  | InvalidHash m => "invalid SHA-256 value: " +:+ m
  | UnsafeRelativeUri m => "unsafe relative URI: " +:+ m
  | InvalidFeatureSet m => "invalid feature set: " +:+ m
  | InvalidIntegerString m => "invalid decimal integer string: " +:+ m
  | InvalidSchema m => "invalid logical schema: " +:+ m
  | InvalidObject m => "invalid protocol object: " +:+ m
  | InvalidCbor m => "invalid deterministic CBOR: " +:+ m
  | Encoding m => "canonical encoding failed: " +:+ m
  end.
End ProtocolError.

Record ErrorPayload := {
  ep_code : string;
  ep_message : string;
  ep_retryable : bool;
  ep_details : list (string * string) }.

(** [impl From<&ProtocolError> for ErrorPayload] *)
Definition protocol_error_payload (e : ProtocolError.t) : ErrorPayload :=
  {| ep_code := ProtocolError.code e; ep_message := ProtocolError.display e;
     ep_retryable := false; ep_details := [] |}.

Module StorageError.
Inductive t :=
| NotFound (m : string)
| ImmutableConflict (m : string)
| UnsafeKey (m : string)
| Io (m : string)
| MaximumLengthExceeded
| VerificationFailed (m : string)
| Injected (m : string)
| Unsupported (m : string).

#[global] Instance t_eq_dec : EqDecision t.
Proof. solve_decision. Defined.

Definition code (e : t) : string :=
  match e with
  | NotFound _ => "OTMP_OBJECT_NOT_FOUND"
  | ImmutableConflict _ => "OTMP_IMMUTABLE_OBJECT_CONFLICT"
  | UnsafeKey _ => "OTMP_UNSAFE_URI"
  | MaximumLengthExceeded | VerificationFailed _ => "OTMP_FINGERPRINT_MISMATCH"
  | Io _ | Injected _ | Unsupported _ => "OTMP_STORAGE_ERROR"
  end.

Definition retryable (e : t) : bool :=
  match e with Io _ | Injected _ => true | _ => false end.

Definition display (e : t) : string :=
  match e with
  | NotFound m => "object not found: " +:+ m
  | ImmutableConflict m => "immutable object already exists: " +:+ m
  | UnsafeKey m => "unsafe object key: " +:+ m
  | Io m => "storage I/O failure: " +:+ m
  | MaximumLengthExceeded => "source exceeded the declared maximum length"
  | VerificationFailed m => "stored object failed exact byte verification: " +:+ m
  | Injected m => "injected storage failure: " +:+ m
  | Unsupported m => "storage operation is unsupported: " +:+ m
  end.
End StorageError.

Module RuntimeError.
(** Errors of SQLite, Turso and the operating system carry their rendered text. *)
Inductive t :=
| SharedCause (e : t)
| ResourceExhausted (m : string)
| AuthenticatedRangesUnavailable
| Cancelled
| InvalidTransaction (m : string)
| SemanticConflict (m : string)
| SnapshotNotFound
| MetadataVersionNotFound (v : Z)
| HistoryNotRetained (v : Z)
| Protocol (e : ProtocolError.t)
| Storage (e : StorageError.t)
| Sqlite (m : string)
| Turso (m : string)
| Io (m : string)
| AlreadyExists
| IdempotencyConflict
| FingerprintMismatch
| StagingMismatch (m : string)
| InvalidAppend (m : string)
| InvalidInitialize (m : string)
| PublicationIndeterminate
| RebaseExhausted
| Corrupt (m : string)
| RefNotFound (m : string).

Fixpoint code (e : t) : string :=
  match e with
  | SharedCause e => code e
  | ResourceExhausted _ => "OTMP_RESOURCE_EXHAUSTED"
  | AuthenticatedRangesUnavailable => "OTMP_AUTHENTICATED_RANGES_UNAVAILABLE"
  | Cancelled => "OTMP_CANCELLED"
  | InvalidTransaction _ => "OTMP_INVALID_TRANSACTION"
  | SemanticConflict _ => "OTMP_SEMANTIC_CONFLICT"
  | SnapshotNotFound => "OTMP_SNAPSHOT_NOT_FOUND"
  | MetadataVersionNotFound _ => "OTMP_METADATA_VERSION_NOT_FOUND"
  | HistoryNotRetained _ => "OTMP_HISTORY_NOT_RETAINED"
  | Protocol e => ProtocolError.code e
  | Storage e => StorageError.code e
  | Sqlite _ => "OTMP_SQLITE_ERROR"
  | Turso _ => "OTMP_TURSO_ERROR"
  | Io _ => "OTMP_IO_ERROR"
  | AlreadyExists => "OTMP_ALREADY_EXISTS"
  | IdempotencyConflict => "OTMP_IDEMPOTENCY_CONFLICT"
  | FingerprintMismatch => "OTMP_FINGERPRINT_MISMATCH"
  | StagingMismatch _ => "OTMP_STAGING_MISMATCH"
  | InvalidAppend _ => "OTMP_INVALID_APPEND"
  | InvalidInitialize _ => "OTMP_INVALID_INITIALIZE"
  | PublicationIndeterminate => "OTMP_PUBLICATION_INDETERMINATE"
  | RebaseExhausted => "OTMP_REBASE_EXHAUSTED"
  | Corrupt _ => "OTMP_CORRUPT_TABLE"
  | RefNotFound _ => "OTMP_REF_NOT_FOUND"
  end.

Fixpoint retryable (e : t) : bool :=
  match e with
  | SharedCause e => retryable e
  | PublicationIndeterminate | RebaseExhausted => true
  | Storage e => StorageError.retryable e
  | _ => false
  end.

Fixpoint display (e : t) : string :=
  match e with
  | SharedCause e => display e
  | ResourceExhausted m => "reader resource budget exhausted: " +:+ m
  | AuthenticatedRangesUnavailable =>
    "authenticated metadata ranges are unavailable for this generation"
  | Cancelled => "metadata reader operation was cancelled"
  | InvalidTransaction m => "transaction is invalid: " +:+ m
  | SemanticConflict m => "semantic conflict: " +:+ m
  | SnapshotNotFound => "snapshot not found"
  | MetadataVersionNotFound v => "metadata version not found: " +:+ u64_to_string v
  | HistoryNotRetained v => "history not retained for version: " +:+ u64_to_string v
  | Protocol e => ProtocolError.display e
  | Storage e => StorageError.display e
  | Sqlite m => "SQLite failure: " +:+ m
  | Turso m => "Turso engine failure: " +:+ m
  | Io m => "I/O failure: " +:+ m
  | AlreadyExists => "table already exists"
  | IdempotencyConflict => "idempotency key was reused for a different logical intent"
  | FingerprintMismatch =>
    "source or staged object does not match the expected fingerprint"
  | StagingMismatch m => "verified staged files do not match the logical request: " +:+ m
  | InvalidAppend m => "append request is invalid: " +:+ m
  | InvalidInitialize m => "initialize request is invalid: " +:+ m
  | PublicationIndeterminate =>
    "conditional publication remained indeterminate after reconciliation"
  | RebaseExhausted => "append-safe rebase retry limit was exhausted"
  | Corrupt m => "table is corrupt: " +:+ m
  | RefNotFound m => "requested ref does not exist: " +:+ m
  end.

Definition payload (e : t) : ErrorPayload :=
  {| ep_code := code e; ep_message := display e;
     ep_retryable := retryable e; ep_details := [] |}.
End RuntimeError.

(** [?] from a protocol or storage error into a runtime error. *)
Definition of_protocol {A} (m : result ProtocolError.t A) : result RuntimeError.t A :=
  map_err RuntimeError.Protocol m.
Definition of_storage {A} (m : result StorageError.t A) : result RuntimeError.t A :=
  map_err RuntimeError.Storage m.

(** The variants whose caller may retry: an unresolved publication, an exhausted
    rebase budget, or a transport failure of the store. *)
Inductive retry_class : RuntimeError.t -> Prop :=
| retry_shared e : retry_class e -> retry_class (RuntimeError.SharedCause e)
| retry_indeterminate : retry_class RuntimeError.PublicationIndeterminate
| retry_rebase : retry_class RuntimeError.RebaseExhausted
| retry_io m : retry_class (RuntimeError.Storage (StorageError.Io m))
| retry_injected m : retry_class (RuntimeError.Storage (StorageError.Injected m)).
#[export] Hint Constructors retry_class : otmp.

Lemma retryable_class e : RuntimeError.retryable e = true <-> retry_class e.
Proof.
  induction e as [e IH| | | | | | | | | |e| | | | | | | | | | | | |]; cbn;
    try (split; [intros; try discriminate; constructor|by inversion 1]; fail).
  - rewrite IH. split; [by constructor|by inversion 1].
  - split; [destruct e; try discriminate; constructor|by inversion 1].
Qed.

Notation rerror := RuntimeError.t.
Notation rresult := (result RuntimeError.t).
Definition corrupt (message : string) : rerror := RuntimeError.Corrupt message.
