(* ===== verification/Values.v ===== *)
(** Portable protocol values (otmp-protocol/src/value.rs): canonical JSON values,
    identifiers, hashes, decimal integers, relative URIs and feature sets. *)
From Stdlib Require Import DecimalString.
From S2P Require Import Prelude Bytes Errors.

Notation perror := ProtocolError.t.
Notation presult := (result ProtocolError.t).

(** ** [CanonicalValue] *)

Module CanonicalValue.
Inductive t :=
| Null
| Bool (b : bool)
| Integer (z : Z)
| String (s : string)
| Array (vs : list t)
| Object (fields : list (string * t)).

Section induction.
Context (P : t -> Prop).
Context (HNull : P Null) (HBool : forall b, P (Bool b)) (HInteger : forall z, P (Integer z))
  (HString : forall s, P (String s))
  (HArray : forall vs, Forall P vs -> P (Array vs))
  (HObject : forall fs, Forall (fun kv => P kv.2) fs -> P (Object fs)).

Fixpoint t_ind' (v : t) : P v :=
  match v with
  | Null => HNull
  | Bool b => HBool b
  | Integer z => HInteger z
  | String s => HString s
  | Array vs =>
    HArray vs ((fix go l : Forall P l :=
      match l with [] => List.Forall_nil _ | v :: l => @List.Forall_cons _ _ v l (t_ind' v) (go l) end) vs)
  | Object fs =>
    HObject fs ((fix go l : Forall (fun kv => P kv.2) l :=
      match l with
      | [] => List.Forall_nil _
      | kv :: l => @List.Forall_cons _ _ kv l (t_ind' kv.2) (go l) end) fs)
  end.
End induction.

Fixpoint eqb (a b : t) : bool :=
  match a, b with
  | Null, Null => true
  | Bool a, Bool b => Bool.eqb a b
  | Integer a, Integer b => a =? b
  | String a, String b => String.eqb a b
  | Array a, Array b =>
    (fix go (a b : list t) : bool := match a, b with
      | [], [] => true
      | x :: a, y :: b => eqb x y && go a b
      | _, _ => false
      end) a b
  | Object a, Object b =>
    (fix go (a b : list (string * t)) : bool := match a, b with
      | [], [] => true
      | (k, x) :: a, (l, y) :: b => String.eqb k l && eqb x y && go a b
      | _, _ => false
      end) a b
  | _, _ => false
  end.

Lemma eqb_eq a b : eqb a b = true <-> a = b.
Proof.
  revert b; induction a as [|x|x|x|vs IH|fs IH] using t_ind'; intros [|y|y|y|vs'|fs'];
    cbn; try (by split; try discriminate; congruence).
  - rewrite Bool.eqb_true_iff. naive_solver.
  - rewrite Z.eqb_eq. naive_solver.
  - rewrite String.eqb_eq. naive_solver.
  - revert vs'; induction IH as [|v vs Hv _ IHvs]; intros [|v' vs']; try done.
    rewrite andb_true_iff, Hv, IHvs. naive_solver.
  - revert fs'; induction IH as [|[k v] fs Hv _ IHfs]; intros [|[k' v'] fs']; try done.
    cbn in Hv. rewrite !andb_true_iff, Hv, IHfs, String.eqb_eq. naive_solver.
Qed.

#[global] Instance t_eq_dec : EqDecision t.
Proof.
  intros a b. destruct (eqb a b) eqn:E.
  - left. by apply eqb_eq.
  - right. intros ->. by rewrite (proj2 (eqb_eq b b) eq_refl) in E.
Defined.

(** Every nested object is an ordered map, as [BTreeMap] guarantees. *)
Inductive wf : t -> Prop :=
| wf_null : wf Null
| wf_bool b : wf (Bool b)
| wf_integer z : wf (Integer z)
| wf_string s : wf (String s)
| wf_array vs : Forall wf vs -> wf (Array vs)
| wf_object fs : bt_sorted fs -> Forall (fun kv => wf kv.2) fs -> wf (Object fs).
End CanonicalValue.
Notation cvalue := CanonicalValue.t.

(** ** Identifiers and hashes *)

Record Id := MkId { id_bytes : bytes }.
Record UuidValue := MkUuid { uuid_bytes : bytes }.
Record Sha256 := MkSha256 { sha_bytes : bytes }.

(** The array types [[u8; 16]] and [[u8; 32]]. *)
Definition wf_id (i : Id) : Prop := length (id_bytes i) = 16%nat.
Definition wf_uuid (u : UuidValue) : Prop := length (uuid_bytes u) = 16%nat.
Definition wf_sha (h : Sha256) : Prop := length (sha_bytes h) = 32%nat.

#[export] Instance id_eq_dec : EqDecision Id.
Proof. solve_decision. Defined.
#[export] Instance uuid_eq_dec : EqDecision UuidValue.
Proof. solve_decision. Defined.
#[export] Instance sha_eq_dec : EqDecision Sha256.
Proof. solve_decision. Defined.

(** The [sha2] crate. *)
Class Sha2Crate := {
  sha2_digest : bytes -> bytes;
  sha2_length b : length (sha2_digest b) = 32%nat }.

#[refine] Definition sha2_reference : Sha2Crate :=
  {| sha2_digest l :=
       be_bytes 32 (fold_left (fun a b => Z.land (a * 257 + byte_to_Z b) 0x1fffffffffffffff) (take 256 l ++ drop (length l - 32) l) (len l)) |}.
Proof. intros; apply be_bytes_length. Defined.

Module Sha256Impl.
Definition digest `{Sha2Crate} (b : bytes) : Sha256 := MkSha256 (sha2_digest b).
End Sha256Impl.
Notation digest := Sha256Impl.digest.

(** Two given distinct inputs with one digest: the event the protocol's
    integrity arguments exclude. *)
Definition collides `{Sha2Crate} (a b : bytes) : Prop := a <> b /\ digest a = digest b.

Lemma digest_inj `{Sha2Crate} a b : digest a = digest b -> a = b \/ collides a b.
Proof. intros E. by destruct (decide (a = b)); [left|right]. Qed.

Lemma wf_digest `{Sha2Crate} b : wf_sha (digest b).
Proof. apply sha2_length. Qed.

Section identifiers.
Context `{HexCrate}.

(** [parse_uuid] *)
Definition uuid_char_ok (i : nat) (b : byte) : bool :=
  if existsb (Nat.eqb i) [8; 13; 18; 23]%nat
  then byte_eqb b Byte.x2d else is_lower_hex b.

(** [enumerate().any(..)] of the rejected characters, negated *)
Fixpoint uuid_chars_ok (i : nat) (l : bytes) : bool :=
  match l with
  | [] => true
  | b :: l => uuid_char_ok i b && uuid_chars_ok (S i) l
  end.

Definition parse_uuid (input : string) : presult bytes :=
  let invalid := ProtocolError.InvalidId input in
  let bs := as_bytes input in
  if negb (len bs =? 36) || negb (uuid_chars_ok 0 bs)
  then Err invalid
  else
    let compact := of_bytes (List.filter (fun c => negb (byte_eqb c Byte.x2d)) bs) in
    bytes ← ok_or (hex_decode compact) invalid;
    if bool_decide (length bytes = 16%nat) then Ok bytes else Err invalid.

(** [format_uuid] *)
Definition format_uuid (b : bytes) : string :=
  let hex := hex_encode b in
  str_slice hex 0 8 +:+ "-" +:+ str_slice hex 8 12 +:+ "-" +:+ str_slice hex 12 16
  +:+ "-" +:+ str_slice hex 16 20 +:+ "-" +:+ str_slice hex 20 32.

(** [Id::try_from_bytes]: UUID version 7, RFC variant *)
Definition id_try_from_bytes (b : bytes) : presult Id :=
  if negb (Z.shiftr (byte_to_Z (nth 6 b Byte.x00)) 4 =? 7)
     || negb (Z.shiftr (byte_to_Z (nth 8 b Byte.x00)) 6 =? 2)
  then Err (ProtocolError.InvalidId (hex_encode b)) else Ok (MkId b).

Definition id_to_string (i : Id) : string := format_uuid (id_bytes i).
Definition id_from_str (input : string) : presult Id :=
  bytes ← parse_uuid input;
  map_err (fun _ => ProtocolError.InvalidId input) (id_try_from_bytes bytes).

Definition uuid_to_string (u : UuidValue) : string := format_uuid (uuid_bytes u).
Definition uuid_from_str (input : string) : presult UuidValue :=
  bytes ← parse_uuid input; Ok (MkUuid bytes).

Definition sha256_prefix : string := "sha256:".

(** [s.strip_prefix(p)] *)
Fixpoint strip_prefix (p s : string) : option string :=
  match p, s with
  | EmptyString, _ => Some s
  | String a p, String b s => if Ascii.eqb a b then strip_prefix p s else None
  | String _ _, EmptyString => None
  end.

Definition sha256_to_string (h : Sha256) : string := sha256_prefix +:+ hex_encode (sha_bytes h).
Definition sha256_from_str (input : string) : presult Sha256 :=
  let invalid := ProtocolError.InvalidHash input in
  match strip_prefix sha256_prefix input with
  | None => Err invalid
  | Some hex_part =>
    if negb (str_len hex_part =? 64) || negb (forallb is_lower_hex (as_bytes hex_part))
    then Err invalid
    else bytes ← ok_or (hex_decode hex_part) invalid;
         if bool_decide (length bytes = 32%nat) then Ok (MkSha256 bytes) else Err invalid
  end.
End identifiers.

Section identifier_lemmas.
Context `{HexCrate}.

Definition not_dash (c : byte) : bool := negb (byte_eqb c Byte.x2d).

Lemma lower_hex_not_dash b : is_lower_hex b = true -> not_dash b = true.
Proof. by destruct b. Qed.

Lemma filter_keep b l :
  is_lower_hex b = true -> List.filter not_dash (b :: l) = b :: List.filter not_dash l.
Proof. intros Hb. cbn [List.filter]. by rewrite lower_hex_not_dash. Qed.

Lemma filter_dash l : List.filter not_dash (Byte.x2d :: l) = List.filter not_dash l.
Proof. done. Qed.

(** The dashed layout of 32 hexadecimal digits. *)
Definition dashed (h : bytes) : bytes :=
  take 8 h ++ [Byte.x2d] ++ take 4 (drop 8 h) ++ [Byte.x2d] ++ take 4 (drop 12 h)
  ++ [Byte.x2d] ++ take 4 (drop 16 h) ++ [Byte.x2d] ++ take 12 (drop 20 h).

Lemma format_uuid_dashed b : as_bytes (format_uuid b) = dashed (as_bytes (hex_encode b)).
Proof.
  unfold format_uuid, str_slice. rewrite !as_bytes_app, !as_of_bytes. done.
Qed.

Local Ltac rewrite_lower_hex :=
  repeat match goal with E : is_lower_hex _ = true |- _ => rewrite E; clear E end;
  reflexivity.
Local Tactic Notation "explicit" ident(h) integer(n) :=
  do n (destruct h as [|? h]; [discriminate|]); destruct h; [|discriminate].

Lemma dashed_accepted h :
  length h = 32%nat -> forallb is_lower_hex h = true ->
  len (dashed h) = 36 /\ uuid_chars_ok 0 (dashed h) = true /\
  List.filter not_dash (dashed h) = h.
Proof.
  intros Hl Hh. split_and!.
  - unfold dashed. rewrite !len_app. unfold len. rewrite !length_take, !length_drop, Hl. done.
  - explicit h 32. cbn [forallb] in Hh. bool_to_prop.
    unfold dashed. cbn -[is_lower_hex byte_eqb]. rewrite_lower_hex.
  - explicit h 32. cbn [forallb] in Hh. bool_to_prop.
    unfold dashed. cbn [take drop app].
    repeat first [rewrite filter_dash | rewrite filter_keep by assumption]. reflexivity.
Qed.

Lemma accepted_dashed l :
  len l = 36 -> uuid_chars_ok 0 l = true ->
  exists h, length h = 32%nat /\ forallb is_lower_hex h = true /\ l = dashed h.
Proof.
  intros Hl Hf. unfold len in Hl.
  assert (length l = 36%nat) as Hl' by lia. clear Hl. explicit l 36.
  cbn -[is_lower_hex byte_eqb] in Hf. bool_to_prop.
  repeat match goal with E : byte_eqb _ _ = true |- _ => apply byte_eqb_eq in E; subst end.
  match goal with
  | |- context [dashed] =>
    eexists [b; b0; b1; b2; b3; b4; b5; b6; b8; b9; b10; b11; b13; b14; b15; b16;
             b18; b19; b20; b21; b23; b24; b25; b26; b27; b28; b29; b30; b31; b32; b33; b34]
  end.
  split; [done|]. split; [|done].
  cbn [forallb]. rewrite_lower_hex.
Qed.
End identifier_lemmas.

Section identifier_roundtrip.
Context `{HexCrate}.

Lemma parse_format_uuid b : length b = 16%nat -> parse_uuid (format_uuid b) = Ok b.
Proof.
  intros Hb. unfold parse_uuid. rewrite format_uuid_dashed.
  destruct (dashed_accepted (as_bytes (hex_encode b))) as (Hl & Hok & Hf).
  { rewrite hex_encode_length. lia. }
  { apply hex_encode_lower. }
  rewrite Hl, Hok. cbn -[as_bytes].
  change (fun c => negb (byte_eqb c Byte.x2d)) with not_dash.
  rewrite Hf, of_as_bytes, hex_decode_encode. cbn. by rewrite Hb.
Qed.

Lemma parse_uuid_ok s b :
  parse_uuid s = Ok b -> length b = 16%nat /\ format_uuid b = s.
Proof.
  unfold parse_uuid. destruct (_ || _) eqn:E; [done|]. bool_to_prop. intros Hp.
  destruct (accepted_dashed (as_bytes s)) as (h & Hl & Hh & Hs); [done..|].
  destruct (dashed_accepted h) as (_ & _ & Hf); [done..|].
  change (fun c => negb (byte_eqb c Byte.x2d)) with not_dash in Hp.
  rewrite Hs, Hf in Hp.
  destruct (hex_decode_lower (of_bytes h) 16) as (b' & Hd & He);
    [by rewrite as_of_bytes..|].
  rewrite Hd in Hp. cbn in Hp. case_bool_decide; [|done]. injection Hp as ->.
  split; [done|]. apply as_bytes_inj.
  by rewrite format_uuid_dashed, He, as_of_bytes.
Qed.

Definition id_valid (i : Id) : Prop :=
  wf_id i /\ Z.shiftr (byte_to_Z (nth 6 (id_bytes i) Byte.x00)) 4 = 7
  /\ Z.shiftr (byte_to_Z (nth 8 (id_bytes i) Byte.x00)) 6 = 2.

Lemma id_try_from_bytes_ok b i :
  length b = 16%nat -> id_try_from_bytes b = Ok i <-> i = MkId b /\ id_valid i.
Proof.
  intros Hb. unfold id_try_from_bytes, id_valid, wf_id.
  destruct (_ || _) eqn:E.
  - apply orb_true_iff in E as [E|E]; bool_to_prop; naive_solver.
  - bool_to_prop. naive_solver.
Qed.

(** Identifiers print to, and parse from, exactly one text. *)
Lemma id_text_iff s i : id_from_str s = Ok i <-> id_valid i /\ id_to_string i = s.
Proof.
  unfold id_from_str. split.
  - intros Hp. inv_ok. apply parse_uuid_ok in H0 as [Hl <-].
    apply id_try_from_bytes_ok in Hp as [-> ?]; done.
  - intros [Hi <-]. unfold id_to_string. rewrite parse_format_uuid by apply Hi.
    destruct i as [b]. cbn. rewrite (proj2 (id_try_from_bytes_ok b (MkId b) (proj1 Hi))); done.
Qed.

Lemma uuid_text_iff s u : uuid_from_str s = Ok u <-> wf_uuid u /\ uuid_to_string u = s.
Proof.
  unfold uuid_from_str. split.
  - intros Hp. inv_ok. by apply parse_uuid_ok.
  - intros [Hi <-]. unfold uuid_to_string. rewrite parse_format_uuid by apply Hi.
    by destruct u.
Qed.

Lemma strip_prefix_some p s r : strip_prefix p s = Some r <-> s = p +:+ r.
Proof.
  revert s; induction p as [|a p IH]; intros s; cbn.
  - change (EmptyString +:+ r) with r. naive_solver.
  - change (String a p +:+ r) with (String a (p +:+ r)). destruct s as [|b s]; [done|].
    destruct (Ascii.eqb_spec a b) as [->|]; [rewrite IH; naive_solver|naive_solver].
Qed.

Lemma sha_text_iff s h : sha256_from_str s = Ok h <-> wf_sha h /\ sha256_to_string h = s.
Proof.
  unfold sha256_from_str, sha256_to_string. split.
  - destruct (strip_prefix _ s) as [p|] eqn:Ep; [|done].
    apply strip_prefix_some in Ep as ->.
    destruct (_ || _) eqn:E; [done|]. bool_to_prop. unfold str_len, len in *.
    destruct (hex_decode_lower p 32) as (b & -> & He); [done|lia|]. cbn.
    case_bool_decide; [|done]. intros [= <-]. split; [done|]. cbn. by rewrite He.
  - intros [Hw <-]. destruct h as [b]. unfold wf_sha in Hw. cbn [sha_bytes] in *.
    rewrite (proj2 (strip_prefix_some _ _ _) eq_refl).
    unfold str_len, len. rewrite hex_encode_length, Hw, hex_encode_lower. cbn -[hex_decode].
    rewrite hex_decode_encode. cbn. by rewrite Hw.
Qed.
End identifier_roundtrip.
#[export] Hint Resolve wf_digest : otmp.

(** ** [JsonU64], [JsonI64]: integers carried as decimal strings *)

Definition starts_with (c : ascii) (s : string) : bool :=
  match s with String a _ => Ascii.eqb a c | _ => false end.

(** [parse_decimal], the parser of [JsonU64] *)
Definition parse_decimal (value : string) : presult Z :=
  if (str_len value =? 0) || starts_with "+" value
     || (starts_with "0" value && (1 <? str_len value))
     || negb (forallb (byte_in 0x30 0x39) (as_bytes value))
  then Err (ProtocolError.InvalidIntegerString value)
  else ok_or (u64_from_str value) (ProtocolError.InvalidIntegerString value).

(** The checks shared by [JsonI64::deserialize] and [take_i64_string] *)
Definition noncanonical_i64 (value : string) : bool :=
  bool_decide (value = "-0") || starts_with "+" value
  || (starts_with "0" value && (1 <? str_len value))
  || (bool_decide (is_Some (strip_prefix "-0" value)) && (2 <? str_len value)).

Definition json_i64_deserialize (value : string) : result string Z :=
  if noncanonical_i64 value then Err "noncanonical decimal integer"
  else ok_or (i64_from_str value) "invalid digit found in string".

Lemma no_leading_zero_start s :
  starts_with "0" s && (1 <? str_len s) = false -> no_leading_zero s = true.
Proof.
  destruct s as [|c [|c' s]]; try done.
  - intros _. by destruct c as [[] [] [] [] [] [] [] []].
  - unfold starts_with, str_len. rewrite !as_bytes_cons, !len_cons.
    pose proof (len_nonneg (as_bytes s)).
    destruct (Ascii.eqb_spec c "0") as [->|].
    + intros E. cbn [andb] in E. bool_to_prop. lia.
    + intros _. by destruct c as [[] [] [] [] [] [] [] []].
Qed.

Lemma u64_to_string_digits n : forallb (byte_in 0x30 0x39) (as_bytes (u64_to_string n)) = true.
Proof.
  unfold u64_to_string. induction (N.to_uint (Z.to_N n)); [done|..];
    cbn [NilEmpty.string_of_uint]; rewrite as_bytes_cons; cbn [forallb];
    by rewrite andb_true_iff.
Qed.

(** Decimal text is canonical: each 64-bit value has exactly one accepted text. *)
Lemma parse_decimal_iff s n :
  parse_decimal s = Ok n <-> is_u64 n /\ u64_to_string n = s.
Proof.
  unfold parse_decimal. split.
  - destruct (_ || _) eqn:E; [done|]. bool_to_prop. rewrite ok_or_ok. intros Hp.
    apply u64_from_str_canonical; [done|by apply no_leading_zero_start|].
    intros s' ->. discriminate.
  - intros [Hn <-]. rewrite u64_to_string_digits, u64_from_to_string by done.
    destruct (u64_to_string_head n) as (c & s & E & Hp & Hm & Hz). rewrite E.
    unfold str_len, starts_with. rewrite as_bytes_cons, len_cons.
    pose proof (len_nonneg (as_bytes s)).
    replace (1 + len (as_bytes s) =? 0) with false by lia.
    destruct (Ascii.eqb_spec c "+"); [done|]. destruct (Ascii.eqb_spec c "0") as [->|]; [|done].
    by rewrite Hz.
Qed.

Lemma u64_to_string_pos n : 0 < n -> starts_with "0" (u64_to_string n) = false.
Proof.
  intros Hn. destruct (u64_to_string_head n) as (c & s & E & _ & _ & Hz). rewrite E. cbn -[Ascii.eqb].
  destruct (Ascii.eqb_spec c "0") as [->|]; [|done]. rewrite Hz in E by done.
  pose proof (digits_value_to_string n ltac:(lia)) as Hd. rewrite E in Hd. cbn in Hd.
  injection Hd as ?. lia.
Qed.

Lemma i64_text_canonical v : noncanonical_i64 (i64_to_string v) = false.
Proof.
  unfold i64_to_string, noncanonical_i64. destruct (v <? 0) eqn:E; bool_to_prop.
  - pose proof (u64_to_string_pos (- v) ltac:(lia)) as H0.
    destruct (u64_to_string (- v)) as [|c s] eqn:Es.
    { destruct (u64_to_string_head (- v)) as (? & ? & ? & _). congruence. }
    rewrite bool_decide_eq_false_2; [|intros [= -> _]; done].
    cbn -[str_len Ascii.eqb] in *. rewrite Ascii.eqb_refl, (Ascii.eqb_sym _ c), H0.
    rewrite bool_decide_eq_false_2 by (by intros []). done.
  - destruct (u64_to_string_head v) as (c & s & Es & ? & ? & Hz). rewrite Es.
    rewrite bool_decide_eq_false_2 by (intros [= -> _]; done).
    cbn -[str_len Ascii.eqb]. destruct (Ascii.eqb_spec c "+") as [|]; [done|].
    destruct (Ascii.eqb_spec "-" c) as [<-|]; [done|].
    rewrite (bool_decide_eq_false_2 (is_Some None)) by (by intros []).
    destruct (Ascii.eqb_spec c "0") as [->|]; [|done]. by rewrite Hz.
Qed.

Lemma json_i64_roundtrip v : is_i64 v -> json_i64_deserialize (i64_to_string v) = Ok v.
Proof.
  intros Hv. unfold json_i64_deserialize. by rewrite i64_text_canonical, i64_from_to_string.
Qed.

(** ** [RelativeUri] *)

Record RelativeUri := MkUri { uri_str : string }.
#[export] Instance uri_eq_dec : EqDecision RelativeUri.
Proof. solve_decision. Defined.

(** [s.split(sep)] on bytes *)
Fixpoint split_on (sep : byte) (l : bytes) : list bytes :=
  match l with
  | [] => [[]]
  | b :: l =>
    if byte_eqb b sep then [] :: split_on sep l
    else match split_on sep l with
         | [] => [[b]]
         | s :: ss => (b :: s) :: ss
         end
  end.

Definition slash : byte := Byte.x2f.
Definition segments (s : string) : list bytes := split_on slash (as_bytes s).

Definition relative_uri_from_str (value : string) : presult RelativeUri :=
  let bs := as_bytes value in
  if (len bs =? 0)
     || match bs with b :: _ => byte_eqb b slash | [] => false end
     || match last bs with Some b => byte_eqb b slash | None => false end
     || existsb (byte_eqb Byte.x5c) bs
     || existsb (byte_eqb Byte.x3a) bs
     || existsb (fun part => bool_decide (part = []) || bool_decide (part = [Byte.x2e])
                             || bool_decide (part = [Byte.x2e; Byte.x2e]))
          (split_on slash bs)
  then Err (ProtocolError.UnsafeRelativeUri value)
  else Ok (MkUri value).

(** Lexical resolution of a [/]-separated path below a root, as a file system
    does it: [.] and empty segments stay, [..] goes up. *)
Definition resolve_step (dir : list bytes) (part : bytes) : list bytes :=
  if bool_decide (part = []) || bool_decide (part = [Byte.x2e]) then dir
  else if bool_decide (part = [Byte.x2e; Byte.x2e]) then take (length dir - 1) dir
  else dir ++ [part].
Definition resolve_path (root : list bytes) (s : string) : list bytes :=
  fold_left resolve_step (segments s) root.

Definition plain_segment (part : bytes) : Prop :=
  part <> [] /\ part <> [Byte.x2e] /\ part <> [Byte.x2e; Byte.x2e].

Lemma relative_uri_ok s u :
  relative_uri_from_str s = Ok u ->
  uri_str u = s /\ Forall plain_segment (segments s) /\
  ~ Byte.x5c ∈ as_bytes s /\ ~ Byte.x3a ∈ as_bytes s.
Proof.
  unfold relative_uri_from_str, segments. destruct (_ || _) eqn:E; [done|].
  intros [= <-]. bool_to_prop. split; [done|].
  assert (forall x l, existsb (byte_eqb x) l = false -> ~ x ∈ l) as Hno.
  { intros x l Hx Hin. apply not_true_iff_false in Hx. apply Hx.
    apply existsb_exists. exists x. split; [by apply list_elem_of_In|by apply byte_eqb_eq]. }
  split_and!; [|auto..].
  apply Forall_forall. intros part Hin%list_elem_of_In.
  destruct (existsb _ (split_on slash (as_bytes s))) eqn:Ex; [done|].
  apply not_true_iff_false in Ex. unfold plain_segment.
  split_and!; intros ->; apply Ex, existsb_exists; eexists; split; try done;
    rewrite bool_decide_eq_true_2 by done; by rewrite ?orb_true_r.
Qed.

Lemma resolve_plain root parts :
  Forall plain_segment parts -> fold_left resolve_step parts root = root ++ parts.
Proof.
  intros Hp. revert root. induction Hp as [|p parts (?&?&?) _ IH]; intros root; cbn.
  - by rewrite app_nil_r.
  - rewrite IH. unfold resolve_step. rewrite !bool_decide_eq_false_2 by done. cbn.
    by rewrite <- app_assoc.
Qed.

(** [join] inverts [split]. *)
Fixpoint join_on (sep : byte) (l : list bytes) : bytes :=
  match l with
  | [] => []
  | [s] => s
  | s :: l => s ++ sep :: join_on sep l
  end.

Lemma split_on_nonempty sep l : split_on sep l <> [].
Proof.
  destruct l as [|b l]; cbn; [done|]. destruct (byte_eqb b sep); [done|].
  by destruct (split_on sep l).
Qed.

Lemma join_split sep l : join_on sep (split_on sep l) = l.
Proof.
  induction l as [|b l IH]; cbn; [done|].
  pose proof (split_on_nonempty sep l).
  destruct (byte_eqb b sep) eqn:E.
  - apply byte_eqb_eq in E as ->. cbn. destruct (split_on sep l); [done|].
    by rewrite IH.
  - destruct (split_on sep l) as [|s ss]; [done|]. destruct ss; cbn in *; congruence.
Qed.

Lemma segments_inj s1 s2 : segments s1 = segments s2 -> s1 = s2.
Proof.
  unfold segments. intros E. apply as_bytes_inj.
  by rewrite <- (join_split slash (as_bytes s1)), E, join_split.
Qed.

(** ** [FeatureSet] *)

Record FeatureSet := MkFeatures { features : list string }.
#[export] Instance features_eq_dec : EqDecision FeatureSet.
Proof. solve_decision. Defined.

Definition feature_byte (b : byte) : bool :=
  byte_in 0x61 0x7A b || byte_in 0x30 0x39 b
  || byte_eqb b Byte.x2e || byte_eqb b Byte.x2d || byte_eqb b Byte.x5f.

(** The loop of [FeatureSet::new], [previous] threaded through. *)
Fixpoint feature_loop (previous : option string) (l : list string) : presult unit :=
  match l with
  | [] => Ok tt
  | f :: l =>
    if (str_len f =? 0) || negb (forallb feature_byte (as_bytes f))
       || match previous with
          | Some prior => match ocmp prior f with Lt => false | _ => true end
          | None => false
          end
    then Err (ProtocolError.InvalidFeatureSet f)
    else feature_loop (Some f) l
  end.

Definition feature_set_new (l : list string) : presult FeatureSet :=
  _ ← feature_loop None l; Ok (MkFeatures l).

Definition feature_contains (fs : FeatureSet) (feature : string) : bool :=
  is_ok (binary_search_by (fun item => ocmp item feature) (features fs)).

Definition require_supported (fs : FeatureSet) (supported : gset string) : presult unit :=
  match List.find (fun item => negb (bool_decide (item ∈ supported))) (features fs) with
  | Some unknown =>
    Err (ProtocolError.InvalidFeatureSet ("unsupported required feature " +:+ unknown))
  | None => Ok tt
  end.

Lemma feature_loop_sorted p l u :
  feature_loop p l = Ok u ->
  StronglySorted olt l /\ match p with Some p => Forall (olt p) l | None => True end.
Proof.
  revert p; induction l as [|f l IH]; intros p; cbn.
  { intros _. split; [constructor|by destruct p]. }
  destruct (_ || _) eqn:E; [done|]. bool_to_prop. intros [Hs Hf]%IH.
  split; [by constructor|]. destruct p as [p|]; [|done].
  assert (olt p f) as Hp by (unfold olt; by case_match).
  constructor; [done|]. eapply Forall_impl; [exact Hf|].
  intros x Hx. unfold olt in *. by eapply ocmp_trans.
Qed.

Lemma feature_set_sorted l fs :
  feature_set_new l = Ok fs -> features fs = l /\ StronglySorted olt (features fs).
Proof.
  unfold feature_set_new. intros Hn. inv_ok. split; [done|].
  by eapply feature_loop_sorted.
Qed.

(** Probing a strictly sorted list by key is a sorted probe. *)
Lemma probe_sorted_key {A K} `{TotalOrd K} (key : A -> K) (k : K) (l : list A) :
  StronglySorted olt (key <$> l) -> probe_sorted (fun x => ocmp (key x) k) l.
Proof.
  intros Hs i j x y Hij Hx Hy.
  assert (olt (key x) (key y)) as Hlt.
  { rewrite <- (take_drop j l), fmap_app in Hs.
    eapply StronglySorted_app_1_elem_of; [exact Hs| |]; apply list_elem_of_fmap.
    - exists x. split; [done|]. apply (list_elem_of_lookup_2 _ i). by rewrite lookup_take_lt by lia.
    - exists y. split; [done|]. apply (list_elem_of_lookup_2 _ 0%nat).
      by rewrite lookup_drop, Nat.add_0_r. }
  split; intros E.
  - apply olt_gt. unfold olt. apply ocmp_gt in E. by eapply ocmp_trans.
  - unfold olt in Hlt. by eapply ocmp_trans.
Qed.

(** ** Properties *)

(** Identifier text is canonical: a text parses to an identifier exactly
    when the identifier carries the version and variant bits of UUIDv7 and the
    text is the one it prints as. *)
Theorem id_text_canonical `{HexCrate} (s : string) (i : Id) :
  id_from_str s = Ok i <-> id_valid i /\ id_to_string i = s.
Proof. apply id_text_iff. Qed.

(** Hash text is canonical: a text parses to a SHA-256 value exactly when
    it is the 32-byte value's printed form. *)
Theorem sha256_text_canonical `{HexCrate} (s : string) (h : Sha256) :
  sha256_from_str s = Ok h <-> wf_sha h /\ sha256_to_string h = s.
Proof. apply sha_text_iff. Qed.

(** 64-bit integers carried as JSON strings have exactly one accepted
    text each: no sign, no leading zero, no value out of range. *)
Theorem json_u64_canonical (s : string) (n : Z) :
  parse_decimal s = Ok n <-> is_u64 n /\ u64_to_string n = s.
Proof. apply parse_decimal_iff. Qed.

(** an accepted relative URI stays below the root it is resolved against:
    lexical resolution only appends its segments, and distinct URIs resolve to
    distinct paths. *)
Theorem relative_uri_confined (s1 s2 : string) (u1 u2 : RelativeUri) (root : list bytes)
    (H1 : relative_uri_from_str s1 = Ok u1) (H2 : relative_uri_from_str s2 = Ok u2) :
  resolve_path root s1 = root ++ segments s1 /\ segments s1 <> [] /\
  (resolve_path root s1 = resolve_path root s2 -> u1 = u2).
Proof.
  apply relative_uri_ok in H1 as (E1 & Hp1 & _). apply relative_uri_ok in H2 as (E2 & Hp2 & _).
  unfold resolve_path. rewrite !resolve_plain by done.
  split; [done|]. split; [apply split_on_nonempty|].
  intros E%app_inv_head%segments_inj. destruct u1, u2; cbn in *; congruence.
Qed.

Lemma relative_uri_confined_witness :
  resolve_path [[Byte.x72]] "data/f.parquet" = [[Byte.x72]] ++ segments "data/f.parquet" /\
  segments "data/f.parquet" <> [] /\
  (resolve_path [[Byte.x72]] "data/f.parquet" = resolve_path [[Byte.x72]] "data/g.parquet" ->
   MkUri "data/f.parquet" = MkUri "data/g.parquet").
Proof. apply relative_uri_confined; vm_compute; reflexivity. Defined.

(** A feature set passes [require_supported] exactly when every feature in
    it is supported. *)
Theorem require_supported_iff (fs : FeatureSet) (supported : gset string) :
  require_supported fs supported = Ok tt <-> forall f, f ∈ features fs -> f ∈ supported.
Proof.
  unfold require_supported. destruct (List.find _ _) as [x|] eqn:E.
  - apply List.find_some in E as [Hin Hx]. bool_to_prop. split; [done|]. intros Hall. destruct Hx.
    by apply Hall, list_elem_of_In.
  - split; [|done]. intros _ f Hf%list_elem_of_In.
    apply (List.find_none _ _ E) in Hf. by bool_to_prop.
Qed.

(** Membership in an accepted feature set is decided by the binary search. *)
Theorem feature_contains_iff (l : list string) (fs : FeatureSet) (feature : string)
    (Hnew : feature_set_new l = Ok fs) :
  feature_contains fs feature = true <-> feature ∈ l.
Proof.
  apply feature_set_sorted in Hnew as [<- Hs]. unfold feature_contains.
  rewrite binary_search_by_found.
  - setoid_rewrite ocmp_eq. naive_solver.
  - apply (probe_sorted_key (fun x => x)). by rewrite list_fmap_id.
Qed.

Lemma feature_contains_iff_witness :
  feature_contains (MkFeatures ["a.1"; "b.2"; "c.3"]) "b.2" = true <-> "b.2" ∈ ["a.1"; "b.2"; "c.3"].
Proof. apply feature_contains_iff. vm_compute. reflexivity. Defined.
