(* ===== verification/Scalars.v ===== *)
(** [TypedScalar] (otmp-protocol/src/value.rs): validation, the partial order of
    metric bounds, and the JSON form. Floating-point values are their bit
    patterns. *)
From S2P Require Import Prelude Bytes Errors Values.

Module TypedScalar.
Inductive t :=
| Null
| Boolean (b : bool)
| Int32 (v : Z)
| Int64 (v : Z)
| Float32 (bits : Z)
| Float64 (bits : Z)
| Decimal (precision scale : Z) (unscaled : bytes)
| Date (v : Z)
| TimeMicros (v : Z)
| TimestampMicros (v : Z)
| TimestamptzMicros (v : Z)
| String (s : string)
| Binary (b : bytes)
| Fixed (b : bytes)
| Uuid (u : UuidValue).

#[global] Instance t_eq_dec : EqDecision t.
Proof. solve_decision. Defined.
End TypedScalar.
Notation scalar := TypedScalar.t.

(** The ranges of the Rust field types. *)
Definition wf_scalar (s : scalar) : Prop :=
  match s with
  | TypedScalar.Int32 v | TypedScalar.Date v => is_i32 v
  | TypedScalar.Int64 v | TypedScalar.TimeMicros v
  | TypedScalar.TimestampMicros v | TypedScalar.TimestamptzMicros v => is_i64 v
  | TypedScalar.Float32 bits => is_u32 bits
  | TypedScalar.Float64 bits => is_u64 bits
  | TypedScalar.Decimal p s u => is_u32 p /\ is_u32 s /\ len u < 2 ^ 63
  | TypedScalar.String s => is_utf8 s /\ str_len s < 2 ^ 63
  | TypedScalar.Binary b | TypedScalar.Fixed b => len b < 2 ^ 63
  | TypedScalar.Uuid u => wf_uuid u
  | TypedScalar.Null | TypedScalar.Boolean _ => True
  end.

(** *** IEEE-754 bit patterns *)

Definition f32_is_nan (bits : Z) : bool := 0x7f800000 <? Z.land bits 0x7fffffff.
Definition f64_is_nan (bits : Z) : bool :=
  0x7ff0000000000000 <? Z.land bits 0x7fffffffffffffff.

(** [canonical_f32], [canonical_f64] (otmp-protocol/src/cbor.rs) *)
Definition canonical_f32 (bits : Z) : Z := if f32_is_nan bits then 0x7fc00000 else bits.
Definition canonical_f64 (bits : Z) : Z :=
  if f64_is_nan bits then 0x7ff8000000000000 else bits.

(** The order of two floats that are not NaN: sign and magnitude. *)
Definition float_key (sign_bit bits : Z) : Z :=
  let magnitude := Z.land bits (sign_bit - 1) in
  if Z.testbit bits (Z.log2 sign_bit) then - magnitude else magnitude.

Definition f32_partial_cmp (a b : Z) : option comparison :=
  if f32_is_nan a || f32_is_nan b then None
  else Some (float_key (2 ^ 31) a ?= float_key (2 ^ 31) b).
Definition f64_partial_cmp (a b : Z) : option comparison :=
  if f64_is_nan a || f64_is_nan b then None
  else Some (float_key (2 ^ 63) a ?= float_key (2 ^ 63) b).

(** The value with NaN payloads replaced by the canonical one. *)
Definition canonical_nan (s : scalar) : scalar :=
  match s with
  | TypedScalar.Float32 b => TypedScalar.Float32 (canonical_f32 b)
  | TypedScalar.Float64 b => TypedScalar.Float64 (canonical_f64 b)
  | _ => s
  end.

(** [scalar_is_nan] (otmp/src/runtime.rs) *)
Definition scalar_is_nan (s : scalar) : bool :=
  match s with
  | TypedScalar.Float32 b => f32_is_nan b
  | TypedScalar.Float64 b => f64_is_nan b
  | _ => false
  end.

(** *** Two's complement byte strings *)

Definition high_bit (b : byte) : bool := negb (Z.land (byte_to_Z b) 0x80 =? 0).

Definition minimal_twos_complement (l : bytes) : bool :=
  match l with
  | [] => false
  | first :: second :: _ =>
    negb ((byte_to_Z first =? 0) && negb (high_bit second))
    && negb ((byte_to_Z first =? 0xff) && high_bit second)
  | _ => true
  end.

(** [<[u8]>::cmp]: lexicographic *)
Fixpoint bytes_cmp (a b : bytes) : comparison :=
  match a, b with
  | [], [] => Eq
  | [], _ :: _ => Lt
  | _ :: _, [] => Gt
  | x :: a, y :: b =>
    match byte_to_Z x ?= byte_to_Z y with Eq => bytes_cmp a b | c => c end
  end.

(** [Ordering::then_with] *)
Definition then_with (c d : comparison) : comparison := match c with Eq => d | _ => c end.

Definition signed_bytes_cmp (left right : bytes) : option comparison :=
  l0 ← head left; r0 ← head right;
  Some match high_bit l0, high_bit r0 with
       | true, false => Lt
       | false, true => Gt
       | false, false => then_with (len left ?= len right) (bytes_cmp left right)
       | true, true => then_with (len right ?= len left) (bytes_cmp left right)
       end.

(** The integer a big-endian two's complement byte string denotes. *)
Definition twos_value (l : bytes) : Z :=
  match l with
  | [] => 0
  | b :: _ => if high_bit b then be_val l - 256 ^ len l else be_val l
  end.

Definition validate_scalar (s : scalar) : presult unit :=
  match s with
  | TypedScalar.Decimal precision scale unscaled =>
    if (precision =? 0) || (precision <? scale) || negb (minimal_twos_complement unscaled)
    then Err (ProtocolError.InvalidObject "invalid decimal scalar") else Ok tt
  | TypedScalar.TimeMicros v =>
    if negb ((0 <=? v) && (v <? 86400000000))
    then Err (ProtocolError.InvalidObject "time_micros is outside one day") else Ok tt
  | _ => Ok tt
  end.

Definition bool_cmp (a b : bool) : comparison :=
  match a, b with false, true => Lt | true, false => Gt | _, _ => Eq end.

Definition partial_cmp_same_type (a b : scalar) : option comparison :=
  match a, b with
  | TypedScalar.Boolean l, TypedScalar.Boolean r => Some (bool_cmp l r)
  | TypedScalar.Int32 l, TypedScalar.Int32 r
  | TypedScalar.Date l, TypedScalar.Date r
  | TypedScalar.Int64 l, TypedScalar.Int64 r
  | TypedScalar.TimeMicros l, TypedScalar.TimeMicros r
  | TypedScalar.TimestampMicros l, TypedScalar.TimestampMicros r
  | TypedScalar.TimestamptzMicros l, TypedScalar.TimestamptzMicros r => Some (l ?= r)
  | TypedScalar.Float32 l, TypedScalar.Float32 r => f32_partial_cmp l r
  | TypedScalar.Float64 l, TypedScalar.Float64 r => f64_partial_cmp l r
  | TypedScalar.String l, TypedScalar.String r => Some (bytes_cmp (as_bytes l) (as_bytes r))
  | TypedScalar.Binary l, TypedScalar.Binary r
  | TypedScalar.Fixed l, TypedScalar.Fixed r => Some (bytes_cmp l r)
  | TypedScalar.Uuid l, TypedScalar.Uuid r => Some (bytes_cmp (uuid_bytes l) (uuid_bytes r))
  | TypedScalar.Decimal lp ls l, TypedScalar.Decimal rp rs r =>
    if (lp =? rp) && (ls =? rs) then signed_bytes_cmp l r else None
  | _, _ => None
  end.

(** ** The order of two's complement byte strings is the integer order *)

Lemma bytes_cmp_val a b : length a = length b -> bytes_cmp a b = (be_val a ?= be_val b).
Proof.
  revert b; induction a as [|x a IH]; intros [|y b]; cbn -[Z.mul Z.pow]; try done.
  intros [= Hl]. rewrite IH by done.
  assert (len a = len b) as El by (unfold len; lia). rewrite El.
  pose proof (be_val_range a) as Ha. pose proof (be_val_range b) as Hb. rewrite El in Ha.
  destruct (Z.compare_spec (byte_to_Z x) (byte_to_Z y)) as [E|E|E].
  - rewrite E. by rewrite Z.add_compare_mono_l.
  - symmetry. apply Z.compare_lt_iff. nia.
  - symmetry. apply Z.compare_gt_iff. nia.
Qed.

Lemma high_bit_spec b : high_bit b = (128 <=? byte_to_Z b).
Proof. by destruct b. Qed.

(** Width bounds of minimal encodings. *)
Lemma twos_value_range l :
  l <> [] -> - (128 * 256 ^ (len l - 1)) <= twos_value l < 128 * 256 ^ (len l - 1).
Proof.
  destruct l as [|b l]; [done|]. intros _. unfold twos_value.
  rewrite high_bit_spec, len_cons. cbn [be_val].
  replace (1 + len l - 1) with (len l) by lia.
  rewrite Z.pow_add_r by (pose proof (len_nonneg l); lia).
  pose proof (be_val_range l). pose proof (byte_to_Z_range b). unfold is_uint in *.
  destruct (Z.leb_spec 128 (byte_to_Z b)); nia.
Qed.

Lemma minimal_value_bound l :
  minimal_twos_complement l = true -> 1 < len l ->
  twos_value l < - (128 * 256 ^ (len l - 2)) \/ 128 * 256 ^ (len l - 2) <= twos_value l.
Proof.
  destruct l as [|a [|b l]]; [done|done|]. cbn [minimal_twos_complement].
  intros Hm _. unfold twos_value. rewrite !high_bit_spec in *. cbn [be_val].
  rewrite !len_cons. replace (1 + (1 + len l) - 2) with (len l) by lia.
  rewrite !Z.pow_add_r by (pose proof (len_nonneg l); lia).
  pose proof (be_val_range l). pose proof (byte_to_Z_range a). pose proof (byte_to_Z_range b).
  unfold is_uint in *.
  destruct (Z.leb_spec 128 (byte_to_Z a)), (Z.leb_spec 128 (byte_to_Z b)),
    (Z.eqb_spec (byte_to_Z a) 0), (Z.eqb_spec (byte_to_Z a) 255);
    try discriminate Hm; nia.
Qed.

Lemma twos_value_sign b l : (twos_value (b :: l) <? 0) = high_bit b.
Proof.
  unfold twos_value. rewrite high_bit_spec. pose proof (be_val_range (b :: l)).
  destruct (128 <=? byte_to_Z b); lia.
Qed.

Lemma shorter_smaller l r :
  minimal_twos_complement l = true -> minimal_twos_complement r = true ->
  len l < len r -> Z.abs (twos_value l) <= Z.abs (twos_value r) /\
  (0 <= twos_value r -> twos_value l < twos_value r) /\
  (twos_value r < 0 -> twos_value r < twos_value l).
Proof.
  intros Hl Hr Hlt. assert (l <> []) as Hne by (by intros ->).
  pose proof (len_nonneg l). assert (0 < len l).
  { destruct (decide (len l = 0)) as [E|]; [|lia]. by apply len_zero in E. }
  pose proof (twos_value_range l Hne).
  pose proof (minimal_value_bound r Hr ltac:(lia)).
  assert (256 ^ (len l - 1) <= 256 ^ (len r - 2)) by (apply Z.pow_le_mono_r; lia).
  lia.
Qed.

Lemma compare_sub_r x y c : (x ?= y) = (x - c ?= y - c).
Proof.
  symmetry. destruct (Z.compare_spec x y);
    [apply Z.compare_eq_iff|apply Z.compare_lt_iff|apply Z.compare_gt_iff]; lia.
Qed.

Lemma same_length_twos a b l r :
  len l = len r -> high_bit a = high_bit b ->
  bytes_cmp (a :: l) (b :: r) = (twos_value (a :: l) ?= twos_value (b :: r)).
Proof.
  intros Hl Hh. rewrite bytes_cmp_val by (unfold len in *; cbn; lia).
  unfold twos_value. rewrite Hh, !len_cons, Hl.
  destruct (high_bit b); [|done]. apply compare_sub_r.
Qed.

Lemma signed_cmp_correct l r :
  minimal_twos_complement l = true -> minimal_twos_complement r = true ->
  signed_bytes_cmp l r = Some (twos_value l ?= twos_value r).
Proof.
  intros Hl Hr. destruct l as [|a l]; [done|]. destruct r as [|b r]; [done|]. cbn [signed_bytes_cmp head].
  unfold signed_bytes_cmp. cbn [head mbind option_bind]. f_equal.
  pose proof (twos_value_sign a l) as Ha. pose proof (twos_value_sign b r) as Hb.
  pose proof (shorter_smaller _ _ Hl Hr) as H1. pose proof (shorter_smaller _ _ Hr Hl) as H2.
  pose proof (same_length_twos a b l r) as H3.
  destruct (high_bit a), (high_bit b); bool_to_prop;
    unfold then_with; rewrite ?len_cons in *.
  - destruct (Z.compare_spec (1 + len r) (1 + len l)); [by apply H3; [lia|]| |];
      symmetry; [apply Z.compare_lt_iff|apply Z.compare_gt_iff]; lia.
  - symmetry. apply Z.compare_lt_iff. lia.
  - symmetry. apply Z.compare_gt_iff. lia.
  - destruct (Z.compare_spec (1 + len l) (1 + len r)); [by apply H3; [lia|]| |];
      symmetry; [apply Z.compare_lt_iff|apply Z.compare_gt_iff]; lia.
Qed.

(** ** The JSON form ([impl Serialize] and [impl Deserialize] for [TypedScalar]) *)

(** [format!("{bits:0n$x}")] for a value of at most [n] hexadecimal digits *)
Fixpoint hex_digits (n : nat) (z : Z) : bytes :=
  match n with
  | O => []
  | S n => HexReference.digit (z / 16 ^ Z.of_nat n)
           :: hex_digits n (z mod 16 ^ Z.of_nat n)
  end.
(** [u64::from_str_radix(hex, 16)] on lowercase digits *)
Fixpoint hex_value (acc : Z) (l : bytes) : option Z :=
  match l with
  | [] => Some acc
  | b :: l => d ← HexReference.nibble b; hex_value (16 * acc + d) l
  end.

Section json.
Context `{HexCrate}.
Notation V := CanonicalValue.Object.
Notation str := CanonicalValue.String.

Definition type_name (s : scalar) : string :=
  match s with
  | TypedScalar.Null => "null"
  | TypedScalar.Boolean _ => "boolean"
  | TypedScalar.Int32 _ => "int32"
  | TypedScalar.Int64 _ => "int64"
  | TypedScalar.Float32 _ => "float32"
  | TypedScalar.Float64 _ => "float64"
  | TypedScalar.Decimal _ _ _ => "decimal"
  | TypedScalar.Date _ => "date"
  | TypedScalar.TimeMicros _ => "time_micros"
  | TypedScalar.TimestampMicros _ => "timestamp_micros"
  | TypedScalar.TimestamptzMicros _ => "timestamptz_micros"
  | TypedScalar.String _ => "string"
  | TypedScalar.Binary _ => "binary"
  | TypedScalar.Fixed _ => "fixed"
  | TypedScalar.Uuid _ => "uuid"
  end.

Definition scalar_payload (s : scalar) : option cvalue :=
  match s with
  | TypedScalar.Null => None
  | TypedScalar.Boolean v => Some (CanonicalValue.Bool v)
  | TypedScalar.Int32 v | TypedScalar.Date v => Some (CanonicalValue.Integer v)
  | TypedScalar.Int64 v | TypedScalar.TimeMicros v | TypedScalar.TimestampMicros v
  | TypedScalar.TimestamptzMicros v => Some (str (i64_to_string v))
  | TypedScalar.Float32 v => Some (str ("0x" +:+ of_bytes (hex_digits 8 (canonical_f32 v))))
  | TypedScalar.Float64 v => Some (str ("0x" +:+ of_bytes (hex_digits 16 (canonical_f64 v))))
  | TypedScalar.Decimal precision scale unscaled =>
    Some (V (bt_of_list [("precision", CanonicalValue.Integer precision);
                         ("scale", CanonicalValue.Integer scale);
                         ("unscaled_hex", str (hex_encode unscaled))]))
  | TypedScalar.String v => Some (str v)
  | TypedScalar.Binary v | TypedScalar.Fixed v => Some (str (hex_encode v))
  | TypedScalar.Uuid v => Some (str (uuid_to_string v))
  end.

Definition serialize_scalar (s : scalar) : cvalue :=
  V (bt_of_list
       (("type", str (type_name s))
        :: match scalar_payload s with Some v => [("value", v)] | None => [] end)).

Definition take_value_string (v : option cvalue) : result string string :=
  match v with Some (CanonicalValue.String s) => Ok s | _ => Err "expected string" end.
Definition take_bool (v : option cvalue) : result string bool :=
  match v with Some (CanonicalValue.Bool b) => Ok b | _ => Err "expected boolean" end.
Definition take_i32 (v : option cvalue) : result string Z :=
  match v with
  | Some (CanonicalValue.Integer z) => ok_or (try_sint 32 z) "int32 out of range"
  | _ => Err "expected integer"
  end.
Definition take_i64_string (v : option cvalue) : result string Z :=
  match v with
  | Some (CanonicalValue.String s) =>
    if noncanonical_i64 s then Err "expected decimal string"
    else ok_or (i64_from_str s) "invalid int64 decimal string"
  | _ => Err "expected decimal string"
  end.
Definition take_u32_field (m : list (string * cvalue)) (key : string) : result string Z :=
  match bt_get key m with
  | Some (CanonicalValue.Integer z) => ok_or (try_uint 32 z) (key +:+ " out of range")
  | _ => Err ("missing integer " +:+ key)
  end.
Definition take_hex_string (v : option cvalue) (digits : Z) : result string Z :=
  value ← take_value_string v;
  match strip_prefix "0x" value with
  | None => Err "float bits require 0x prefix"
  | Some hex =>
    if negb (str_len hex =? digits) || negb (forallb is_lower_hex (as_bytes hex))
    then Err "float bits must be fixed-width lowercase hex"
    else ok_or (hex_value 0 (as_bytes hex)) "invalid digit found in string"
  end.

Definition decode_hex (s : string) : result string bytes :=
  ok_or (hex_decode s) (hex_decode_error s).

Definition deserialize_decimal (value : option cvalue) : result string scalar :=
  match value with
  | Some (CanonicalValue.Object m) =>
    precision ← take_u32_field m "precision";
    let m := bt_remove "precision" m in
    scale ← take_u32_field m "scale";
    let m := bt_remove "scale" m in
    unscaled ← take_value_string (bt_get "unscaled_hex" m);
    let m := bt_remove "unscaled_hex" m in
    if bool_decide (m = []) then
      b ← decode_hex unscaled; Ok (TypedScalar.Decimal precision scale b)
    else Err "unknown decimal field"
  | _ => Err "decimal value must be an object"
  end.

Definition scalar_of_type (name : string) (value : option cvalue) : result string scalar :=
  if String.eqb name "null" && bool_decide (value = None) then Ok TypedScalar.Null
  else if String.eqb name "boolean" then v ← take_bool value; Ok (TypedScalar.Boolean v)
  else if String.eqb name "int32" then v ← take_i32 value; Ok (TypedScalar.Int32 v)
  else if String.eqb name "int64" then v ← take_i64_string value; Ok (TypedScalar.Int64 v)
  else if String.eqb name "float32" then
    bits ← take_hex_string value 8;
    bits ← ok_or (try_uint 32 bits) "out of range integral type conversion attempted";
    Ok (TypedScalar.Float32 bits)
  else if String.eqb name "float64" then
    bits ← take_hex_string value 16; Ok (TypedScalar.Float64 bits)
  else if String.eqb name "decimal" then deserialize_decimal value
  else if String.eqb name "date" then v ← take_i32 value; Ok (TypedScalar.Date v)
  else if String.eqb name "time_micros" then
    v ← take_i64_string value; Ok (TypedScalar.TimeMicros v)
  else if String.eqb name "timestamp_micros" then
    v ← take_i64_string value; Ok (TypedScalar.TimestampMicros v)
  else if String.eqb name "timestamptz_micros" then
    v ← take_i64_string value; Ok (TypedScalar.TimestamptzMicros v)
  else if String.eqb name "string" then
    v ← take_value_string value; Ok (TypedScalar.String v)
  else if String.eqb name "binary" then
    v ← take_value_string value; b ← decode_hex v; Ok (TypedScalar.Binary b)
  else if String.eqb name "fixed" then
    v ← take_value_string value; b ← decode_hex v; Ok (TypedScalar.Fixed b)
  else if String.eqb name "uuid" then
    v ← take_value_string value;
    u ← map_err ProtocolError.display (uuid_from_str v); Ok (TypedScalar.Uuid u)
  else Err "invalid typed scalar shape".

Definition deserialize_scalar (v : cvalue) : result string scalar :=
  match v with
  | CanonicalValue.Object m =>
    name ← take_value_string (bt_get "type" m);
    let m := bt_remove "type" m in
    let value := bt_get "value" m in
    let m := bt_remove "value" m in
    if bool_decide (m = []) then
      s ← scalar_of_type name value;
      _ ← map_err ProtocolError.display (validate_scalar s);
      Ok s
    else Err "unknown typed scalar field"
  | _ => Err "typed scalar must be an object"
  end.

Lemma nibble_of_digit d :
  0 <= d < 16 ->
  HexReference.nibble (HexReference.digit d) = Some d /\
  is_lower_hex (HexReference.digit d) = true.
Proof.
  intros Hd.
  assert (d = 0 \/ d = 1 \/ d = 2 \/ d = 3 \/ d = 4 \/ d = 5 \/ d = 6 \/ d = 7 \/ d = 8 \/
    d = 9 \/ d = 10 \/ d = 11 \/ d = 12 \/ d = 13 \/ d = 14 \/ d = 15) as Hc by lia.
  repeat (destruct Hc as [-> | Hc]; [by split|]). subst. by split.
Qed.

Lemma hex_digits_spec n z :
  0 <= z < 16 ^ Z.of_nat n ->
  length (hex_digits n z) = n /\ forallb is_lower_hex (hex_digits n z) = true /\
  forall acc, hex_value acc (hex_digits n z) = Some (acc * 16 ^ Z.of_nat n + z).
Proof.
  revert z; induction n as [|n IH]; intros z Hz; cbn [hex_digits].
  { cbn in *. split_and!; [done..|]. intros; f_equal; lia. }
  rewrite Nat2Z.inj_succ, Z.pow_succ_r in * by lia.
  assert (0 < 16 ^ Z.of_nat n) by (apply Z.pow_pos_nonneg; lia).
  destruct (IH (z mod 16 ^ Z.of_nat n)) as (Hl & Hh & Hv); [by apply Z.mod_pos_bound|].
  assert (0 <= z / 16 ^ Z.of_nat n < 16) as Hd.
  { split; [apply Z.div_pos; lia|]. apply Z.div_lt_upper_bound; lia. }
  set (d := z / 16 ^ Z.of_nat n) in *.
  destruct (nibble_of_digit d Hd) as [Hn Hlo].
  cbn [length forallb hex_value]. rewrite Hl, Hh, Hlo, Hn. split_and!; [done..|].
  intros acc. cbn. rewrite Hv. f_equal.
  pose proof (Z.div_mod z (16 ^ Z.of_nat n)). subst d. nia.
Qed.

Lemma take_i64_roundtrip v : is_i64 v -> take_i64_string (Some (str (i64_to_string v))) = Ok v.
Proof. intros Hv. cbn. by rewrite i64_text_canonical, i64_from_to_string. Qed.

Lemma take_hex_roundtrip (n : nat) bits :
  0 <= bits < 16 ^ Z.of_nat n ->
  take_hex_string (Some (str ("0x" +:+ of_bytes (hex_digits n bits)))) (Z.of_nat n) = Ok bits.
Proof.
  intros Hb. unfold take_hex_string. cbn [take_value_string mbind result_bind].
  rewrite (proj2 (strip_prefix_some "0x" _ _) eq_refl).
  destruct (hex_digits_spec n bits Hb) as (Hl & Hh & Hv).
  unfold str_len, len. rewrite as_of_bytes, Hl, Hh, Hv, Z.eqb_refl. cbn. f_equal.
Qed.

Lemma decimal_roundtrip p sc u :
  is_u32 p -> is_u32 sc ->
  deserialize_decimal (scalar_payload (TypedScalar.Decimal p sc u))
  = Ok (TypedScalar.Decimal p sc u).
Proof.
  intros Hp Hs.
  transitivity
    (p ← ok_or (try_uint 32 p) ("precision" +:+ " out of range");
     sc ← ok_or (try_uint 32 sc) ("scale" +:+ " out of range");
     b ← decode_hex (hex_encode u); Ok (TypedScalar.Decimal p sc b)); [reflexivity|].
  rewrite !try_uint_id by done. unfold decode_hex. by rewrite hex_decode_encode.
Qed.

Lemma canonical_f32_range b : is_u32 b -> is_u32 (canonical_f32 b).
Proof. unfold canonical_f32. by case_match. Qed.
Lemma canonical_f64_range b : is_u64 b -> is_u64 (canonical_f64 b).
Proof. unfold canonical_f64. by case_match. Qed.

Lemma float32_roundtrip b :
  is_u32 b -> scalar_of_type "float32" (scalar_payload (TypedScalar.Float32 b))
              = Ok (TypedScalar.Float32 (canonical_f32 b)).
Proof.
  intros Hb%canonical_f32_range.
  transitivity
    (bits ← take_hex_string
              (Some (str ("0x" +:+ of_bytes (hex_digits 8 (canonical_f32 b))))) (Z.of_nat 8);
     bits ← ok_or (try_uint 32 bits) "out of range integral type conversion attempted";
     Ok (TypedScalar.Float32 bits)); [reflexivity|].
  rewrite take_hex_roundtrip by done. cbn -[try_uint]. by rewrite try_uint_id.
Qed.

Lemma float64_roundtrip b :
  is_u64 b -> scalar_of_type "float64" (scalar_payload (TypedScalar.Float64 b))
              = Ok (TypedScalar.Float64 (canonical_f64 b)).
Proof.
  intros Hb%canonical_f64_range.
  transitivity
    (bits ← take_hex_string
              (Some (str ("0x" +:+ of_bytes (hex_digits 16 (canonical_f64 b))))) (Z.of_nat 16);
     Ok (TypedScalar.Float64 bits)); [reflexivity|].
  by rewrite take_hex_roundtrip.
Qed.

Lemma scalar_of_type_roundtrip s :
  wf_scalar s -> scalar_of_type (type_name s) (scalar_payload s) = Ok (canonical_nan s).
Proof.
  destruct s; intros Hw; try exact (decimal_roundtrip _ _ _ (proj1 Hw) (proj1 (proj2 Hw)));
    try exact (float32_roundtrip _ Hw); try exact (float64_roundtrip _ Hw);
    unfold scalar_of_type; cbn -[take_i64_string hex_decode hex_encode try_sint] in *;
    rewrite ?take_i64_roundtrip by done; try done.
  - by rewrite try_sint_id.
  - by rewrite try_sint_id.
  - unfold decode_hex. by rewrite hex_decode_encode.
  - unfold decode_hex. by rewrite hex_decode_encode.
  - by rewrite (proj2 (uuid_text_iff _ u) (conj Hw eq_refl)).
Qed.

Lemma serialize_fields s :
  exists m, serialize_scalar s = V m /\ bt_get "type" m = Some (str (type_name s)) /\
    bt_get "value" (bt_remove "type" m) = scalar_payload s /\
    bt_remove "value" (bt_remove "type" m) = [].
Proof.
  unfold serialize_scalar. eexists. split; [done|]. by destruct (scalar_payload s).
Qed.

Lemma validate_canonical_nan s : validate_scalar (canonical_nan s) = validate_scalar s.
Proof. by destruct s. Qed.
End json.

(** ** Properties *)

(** the byte-wise comparison of two valid decimal scalars of one precision
    and scale is the comparison of the integers they denote. *)
Theorem decimal_cmp_correct (p sc : Z) (l r : bytes)
    (Hl : validate_scalar (TypedScalar.Decimal p sc l) = Ok tt)
    (Hr : validate_scalar (TypedScalar.Decimal p sc r) = Ok tt) :
  partial_cmp_same_type (TypedScalar.Decimal p sc l) (TypedScalar.Decimal p sc r)
  = Some (twos_value l ?= twos_value r).
Proof.
  cbn in *. rewrite !Z.eqb_refl. cbn. case_in Hl; [done|]. case_in Hr; [done|]. bool_to_prop.
  by apply signed_cmp_correct.
Qed.

Lemma decimal_cmp_correct_witness :
  partial_cmp_same_type (TypedScalar.Decimal 9 2 [Byte.xff; Byte.x00])
    (TypedScalar.Decimal 9 2 [Byte.x80]) = Some (-256 ?= -128).
Proof. apply (decimal_cmp_correct 9 2 [Byte.xff; Byte.x00] [Byte.x80]); reflexivity. Defined.

(** every valid scalar is read back from its JSON form, NaNs as the
    canonical quiet NaN. *)
Theorem scalar_json_roundtrip `{HexCrate} (s : scalar) (Hwf : wf_scalar s)
    (Hvalid : validate_scalar s = Ok tt) :
  deserialize_scalar (serialize_scalar s) = Ok (canonical_nan s).
Proof.
  destruct (serialize_fields s) as (m & -> & Ht & Hv & Hm). unfold deserialize_scalar.
  rewrite Ht. cbn [take_value_string mbind result_bind]. rewrite Hv, Hm, bool_decide_eq_true_2 by done.
  rewrite scalar_of_type_roundtrip by done. cbn. by rewrite validate_canonical_nan, Hvalid.
Qed.

Lemma scalar_json_roundtrip_witness :
  @deserialize_scalar hex_reference (@serialize_scalar hex_reference (TypedScalar.Int64 (-42)))
  = Ok (TypedScalar.Int64 (-42)).
Proof.
  apply (@scalar_json_roundtrip hex_reference (TypedScalar.Int64 (-42))); [|reflexivity].
  split; vm_compute; congruence.
Defined.
