(* ===== verification/Cbor.v ===== *)
(** Deterministic CBOR (otmp-protocol/src/cbor.rs): the encoder primitives, the
    offset-tracking [Decoder], typed scalars and partition tuples.

    The encoders append to an output vector; here they return the bytes they
    append. The decoder is a state monad over [Decoder]. *)
From S2P Require Import Prelude Bytes Errors Values Scalars.

Definition invalid (message : string) : perror := ProtocolError.InvalidCbor message.

(** ** Encoder primitives *)

Definition major (kind value : Z) : bytes :=
  let prefix := Z.land (Z.shiftl kind 5) 0xff in
  if value <=? 23 then [byte_of_Z (Z.lor prefix value)]
  else if value <=? 0xff then byte_of_Z (Z.lor prefix 0x18) :: be_bytes 1 value
  else if value <=? 0xffff then byte_of_Z (Z.lor prefix 0x19) :: be_bytes 2 value
  else if value <=? 0xffffffff then byte_of_Z (Z.lor prefix 0x1a) :: be_bytes 4 value
  else byte_of_Z (Z.lor prefix 0x1b) :: be_bytes 8 value.

Definition enc_unsigned (value : Z) : bytes := major 0 value.
(** [value.unsigned_abs() - 1] is [-1 - value] for a negative [value]. *)
Definition enc_integer (value : Z) : bytes :=
  if 0 <=? value then enc_unsigned (Z.abs value) else major 1 (Z.abs value - 1).
Definition enc_bytes (value : bytes) : bytes := major 2 (len value) ++ value.
Definition enc_text (value : string) : bytes := major 3 (str_len value) ++ as_bytes value.
Definition enc_array_len (value : Z) : bytes := major 4 value.
Definition enc_map_len (value : Z) : bytes := major 5 value.

(** ** The decoder *)

Record Decoder := MkDecoder { d_bytes : bytes; d_offset : Z }.

Definition decoder_new (b : bytes) : Decoder := MkDecoder b 0.

Definition dec (A : Type) : Type := Decoder -> presult (A * Decoder).
#[export] Instance dec_ret : MRet dec := fun A a d => Ok (a, d).
#[export] Instance dec_bind : MBind dec := fun A B f m d =>
  match m d with Ok (a, d') => f a d' | Err e => Err e end.
Definition dec_fail {A} (e : perror) : dec A := fun _ => Err e.
(** A fallible computation that does not touch the decoder. *)
Definition dec_lift {A} (m : presult A) : dec A := fun d =>
  match m with Ok a => Ok (a, d) | Err e => Err e end.
Definition dec_reject (b : bool) (m : string) : dec unit :=
  if b then dec_fail (invalid m) else mret tt.

Definition dec_byte : dec byte := fun d =>
  match d_bytes d !! Z.to_nat (d_offset d) with
  | Some b => Ok (b, MkDecoder (d_bytes d) (d_offset d + 1))
  | None => Err (invalid "unexpected end of CBOR")
  end.

Definition dec_take (length : Z) : dec bytes := fun d =>
  match checked_add 64 (d_offset d) length with
  | None => Err (invalid "CBOR offset overflow")
  | Some stop =>
    match slice (d_bytes d) (d_offset d) stop with
    | None => Err (invalid "unexpected end of CBOR")
    | Some b => Ok (b, MkDecoder (d_bytes d) stop)
    end
  end.

Definition non_shortest : string := "non-shortest CBOR integer".

(** [value] read from [n] bytes must not fit the next shorter form. *)
Definition dec_wide (n : nat) (limit : Z) : dec Z :=
  b ← dec_take (Z.of_nat n);
  let value := be_val b in
  _ ← dec_reject (value <=? limit) non_shortest;
  mret value.

Definition dec_head : dec (Z * Z) :=
  head ← dec_byte;
  let major := Z.shiftr (byte_to_Z head) 5 in
  let additional := Z.land (byte_to_Z head) 0x1f in
  value ←
    (if additional <=? 23 then mret additional
     else if additional =? 24 then
       b ← dec_byte;
       let value := byte_to_Z b in
       _ ← dec_reject (value <? 24) non_shortest;
       mret value
     else if additional =? 25 then dec_wide 2 0xff
     else if additional =? 26 then dec_wide 4 0xffff
     else if additional =? 27 then dec_wide 8 0xffffffff
     else dec_fail (invalid "indefinite or reserved CBOR form"));
  mret (major, value).

Definition dec_unsigned : dec Z :=
  '(major, value) ← dec_head;
  _ ← dec_reject (negb (major =? 0)) "expected unsigned integer";
  mret value.

Definition dec_integer : dec Z :=
  '(major, value) ← dec_head;
  if major =? 0 then dec_lift (ok_or (try_sint 64 value) (invalid "positive integer overflow"))
  else if major =? 1 then
    dec_lift (v ← ok_or (try_sint 64 value) (invalid "negative integer overflow"); Ok (-1 - v))
  else dec_fail (invalid "expected signed integer").

Definition dec_length (expected_major : Z) : dec Z :=
  '(major, value) ← dec_head;
  _ ← dec_reject (negb (major =? expected_major)) "unexpected CBOR major type";
  dec_lift (ok_or (try_uint 64 value) (invalid "CBOR length overflow")).

Definition dec_byte_string : dec bytes :=
  length ← dec_length 2;
  dec_take length.

Definition dec_text : dec string :=
  length ← dec_length 3;
  b ← dec_take length;
  _ ← dec_reject (negb (utf8_valid b)) "CBOR text is not UTF-8";
  mret (of_bytes b).

Definition dec_finish (d : Decoder) : presult unit :=
  if d_offset d =? len (d_bytes d) then Ok tt else Err (invalid "trailing CBOR bytes").

(** Runs a decoder over a whole input. *)
Definition dec_all {A} (m : dec A) (input : bytes) : presult A :=
  match m (decoder_new input) with
  | Ok (a, d) => _ ← dec_finish d; Ok a
  | Err e => Err e
  end.

(** [for _ in 0..count { values.push(item()?) }] *)
Fixpoint dec_repeat {A} (count : nat) (item : dec A) : dec (list A) :=
  match count with
  | O => mret []
  | S count => a ← item; l ← dec_repeat count item; mret (a :: l)
  end.

(** ** What a decoder consumes

    [view d] is the unread input. [reads m i a]: on any input that starts with
    [i], [m] returns [a] and consumes exactly [i]. [consumes m P]: whenever [m]
    succeeds with [a], the bytes it consumed satisfy [P a]. *)

Definition view (d : Decoder) : bytes := drop (Z.to_nat (d_offset d)) (d_bytes d).
Definition wf_dec (d : Decoder) : Prop :=
  0 <= d_offset d <= len (d_bytes d) /\ len (d_bytes d) < 2 ^ 63.
Definition advance (n : Z) (d : Decoder) : Decoder := MkDecoder (d_bytes d) (d_offset d + n).

Definition reads {A} (m : dec A) (i : bytes) (a : A) : Prop :=
  forall d s, wf_dec d -> view d = i ++ s -> m d = Ok (a, advance (len i) d).

Definition consumes {A} (m : dec A) (P : A -> bytes -> Prop) : Prop :=
  forall d a d', wf_dec d -> m d = Ok (a, d') ->
    exists i, P a i /\ view d = i ++ view d' /\ d' = advance (len i) d.

Lemma view_len d : wf_dec d -> len (view d) = len (d_bytes d) - d_offset d.
Proof.
  intros [? ?]. unfold view, len in *. rewrite length_drop. lia.
Qed.

Lemma advance_zero d : advance 0 d = d.
Proof. destruct d as [b o]. unfold advance; cbn. by rewrite Z.add_0_r. Qed.

Lemma advance_advance m n d : advance n (advance m d) = advance (m + n) d.
Proof. unfold advance; cbn. by rewrite Z.add_assoc. Qed.

Lemma view_advance d i s : wf_dec d -> view d = i ++ s -> view (advance (len i) d) = s.
Proof.
  intros [? ?] E. unfold view, advance in *; cbn. unfold len in *.
  replace (Z.to_nat (d_offset d + Z.of_nat (length i)))
    with (Z.to_nat (d_offset d) + length i)%nat by lia.
  rewrite <- drop_drop, E. apply drop_app_length.
Qed.

Lemma wf_advance d i s : wf_dec d -> view d = i ++ s -> wf_dec (advance (len i) d).
Proof.
  intros Hd E. pose proof (view_len d Hd) as Hv. rewrite E, len_app in Hv.
  destruct Hd as [? ?]. pose proof (len_nonneg i). pose proof (len_nonneg s).
  unfold wf_dec, advance; cbn. lia.
Qed.
#[export] Hint Resolve wf_advance view_advance : otmp.

Section reads_rules.
Context {A B : Type}.

Lemma reads_ret (a : A) : reads (mret a) [] a.
Proof. intros d s _ _. rewrite len_nil, advance_zero. done. Qed.

Lemma reads_bind (m : dec A) (k : A -> dec B) i j a b :
  reads m i a -> reads (k a) j b -> reads (m ≫= k) (i ++ j) b.
Proof.
  intros Hm Hk d s Hd E. rewrite <- app_assoc in E. unfold mbind, dec_bind.
  rewrite (Hm d (j ++ s)) by done.
  rewrite (Hk _ s) by eauto with otmp. by rewrite advance_advance, len_app.
Qed.

(** A final step that consumes nothing. *)
Lemma reads_bind_pure (m : dec A) (k : A -> dec B) i a b :
  reads m i a -> reads (k a) [] b -> reads (m ≫= k) i b.
Proof. intros Hm Hk. rewrite <- (app_nil_r i). by eapply reads_bind. Qed.

(** A step that consumes nothing. *)
Lemma reads_skip (m : dec A) (k : A -> dec B) j a b :
  reads m [] a -> reads (k a) j b -> reads (m ≫= k) j b.
Proof. intros Hm Hk. by apply (reads_bind m k [] j a b). Qed.

Lemma reads_lift (m : presult A) a : m = Ok a -> reads (dec_lift m) [] a.
Proof. intros -> d s _ _. by rewrite len_nil, advance_zero. Qed.

Lemma reads_reject b msg : b = false -> reads (dec_reject b msg) [] tt.
Proof. intros ->. intros d s _ _. by rewrite len_nil, advance_zero. Qed.

Lemma consumes_ret (a : A) (P : A -> bytes -> Prop) : P a [] -> consumes (mret a) P.
Proof.
  intros HP d a' d' _ [= <- <-]. exists []. by rewrite len_nil, advance_zero.
Qed.

Lemma consumes_bind (m : dec A) (k : A -> dec B) P Q :
  consumes m P ->
  (forall a i, P a i -> consumes (k a) (fun b j => Q b (i ++ j))) ->
  consumes (m ≫= k) Q.
Proof.
  intros Hm Hk d b d' Hd E. unfold mbind, dec_bind in E.
  destruct (m d) as [[a d1]|] eqn:E1; [|done].
  destruct (Hm d a d1 Hd E1) as (i & HP & Hv & ->).
  destruct (Hk a i HP (advance (len i) d) b d' ltac:(eauto with otmp) E) as (j & HQ & Hv' & ->).
  exists (i ++ j). rewrite Hv, Hv', <- app_assoc.
  by rewrite advance_advance, len_app.
Qed.

Lemma consumes_mono (m : dec A) (P Q : A -> bytes -> Prop) :
  (forall a i, P a i -> Q a i) -> consumes m P -> consumes m Q.
Proof.
  intros Himp Hm d a d' Hd E. destruct (Hm d a d' Hd E) as (i & ? & ?). eauto.
Qed.

Lemma consumes_fail e (P : A -> bytes -> Prop) : consumes (dec_fail e) P.
Proof. intros d a d' _ [=]. Qed.

Lemma consumes_lift (m : presult A) (P : A -> bytes -> Prop) :
  (forall a, m = Ok a -> P a []) -> consumes (dec_lift m) P.
Proof.
  intros HP d a d' _ E. unfold dec_lift in E. destruct m; [|done].
  injection E as -> <-. exists []. rewrite len_nil, advance_zero. auto.
Qed.

Lemma consumes_reject b msg (P : unit -> bytes -> Prop) :
  (b = false -> P tt []) -> consumes (dec_reject b msg) P.
Proof.
  intros HP. unfold dec_reject. destruct b; [by intros d a d' _ [=]|].
  intros d a d' _ [= <- <-]. exists []. rewrite len_nil, advance_zero. auto.
Qed.
End reads_rules.

Create HintDb reads discriminated.

(** ** Primitive reads *)

Lemma reads_byte b : reads dec_byte [b] b.
Proof.
  intros d s Hd E. unfold dec_byte, view in *.
  pose proof (f_equal (lookup 0%nat) E) as E0. rewrite lookup_drop, Nat.add_0_r in E0.
  by rewrite E0.
Qed.

Lemma consumes_byte : consumes dec_byte (fun b i => i = [b]).
Proof.
  intros d b d' Hd E. unfold dec_byte in E.
  destruct (d_bytes d !! _) as [b'|] eqn:Eb; [|done]. injection E as -> <-.
  exists [b]. split; [done|]. split; [|done].
  unfold view; cbn. destruct Hd. replace (Z.to_nat (d_offset d + 1))
    with (S (Z.to_nat (d_offset d))) by lia.
  by apply drop_S.
Qed.

Lemma reads_take i : reads (dec_take (len i)) i i.
Proof.
  intros d s Hd E. pose proof (view_len d Hd) as Hl. rewrite E, len_app in Hl.
  destruct Hd as [? ?]. pose proof (len_nonneg i). pose proof (len_nonneg s).
  unfold dec_take, checked_add. rewrite try_uint_id by (unfold is_uint; lia). cbn.
  rewrite (proj2 (slice_some (d_bytes d) i _ _)); [done|].
  split; [lia|]. split; [lia|]. unfold view in E. rewrite E.
  replace (Z.to_nat _) with (length i) by (unfold len; lia). by rewrite take_app_length.
Qed.

Lemma consumes_take n : consumes (dec_take n) (fun b i => i = b /\ len b = n).
Proof.
  intros d b d' Hd E. unfold dec_take in E.
  destruct (checked_add _ _ _) as [stop|] eqn:Ec; [|done].
  apply try_uint_some in Ec as [-> _].
  destruct (slice _ _ _) as [b'|] eqn:Es; [|done]. injection E as -> <-.
  pose proof (slice_len _ _ _ _ Es) as Hl. apply slice_some in Es as (? & ? & ->).
  eexists. split; [split; [done|lia]|]. replace (d_offset d + n - d_offset d) with n in * by lia.
  unfold advance, view; cbn. rewrite Hl. split; [|done].
  replace (Z.to_nat (d_offset d + n)) with (Z.to_nat (d_offset d) + Z.to_nat n)%nat by lia.
  rewrite <- drop_drop. by rewrite take_drop.
Qed.
#[export] Hint Resolve reads_byte reads_take : reads.

(** *** Heads *)

Definition is_major (k : Z) : Prop := 0 <= k < 8.

Lemma forallb_seqZ (P : Z -> bool) n k :
  forallb P (seqZ 0 n) = true -> 0 <= k < n -> P k = true.
Proof.
  intros Hall Hk. rewrite forallb_forall in Hall. apply Hall, list_elem_of_In, elem_of_seqZ. lia.
Qed.

Lemma head_byte k v :
  is_major k -> 0 <= v < 32 ->
  let b := byte_of_Z (Z.lor (Z.land (Z.shiftl k 5) 0xff) v) in
  Z.shiftr (byte_to_Z b) 5 = k /\ Z.land (byte_to_Z b) 0x1f = v.
Proof.
  intros Hk Hv.
  pose (ok := fun k v => let b := byte_of_Z (Z.lor (Z.land (Z.shiftl k 5) 0xff) v) in
    (Z.shiftr (byte_to_Z b) 5 =? k) && (Z.land (byte_to_Z b) 0x1f =? v)).
  assert (forallb (fun k => forallb (ok k) (seqZ 0 32)) (seqZ 0 8) = true) as H
    by (vm_compute; reflexivity).
  apply (forallb_seqZ _ _ k) in H; [|done]. apply (forallb_seqZ _ _ v) in H; [|done].
  unfold ok in H. cbv zeta in *. bool_to_prop. done.
Qed.

Lemma byte_head b :
  byte_of_Z (Z.lor (Z.land (Z.shiftl (Z.shiftr (byte_to_Z b) 5) 5) 0xff)
                   (Z.land (byte_to_Z b) 0x1f)) = b /\
  is_major (Z.shiftr (byte_to_Z b) 5) /\ 0 <= Z.land (byte_to_Z b) 0x1f < 32.
Proof. unfold is_major. by destruct b. Qed.

Lemma reads_wide n limit v :
  limit < v -> 0 <= v < 256 ^ Z.of_nat n -> reads (dec_wide n limit) (be_bytes n v) v.
Proof.
  intros Hlim Hv. unfold dec_wide.
  eapply reads_bind_pure; [rewrite <- (be_bytes_len n v); apply reads_take|].
  rewrite be_val_bytes by done.
  eapply reads_bind_pure; [apply reads_reject; lia|apply reads_ret].
Qed.

Lemma be_bytes_1 v : be_bytes 1 v = [byte_of_Z v].
Proof. unfold be_bytes. change (256 ^ Z.of_nat 0) with 1. by rewrite Z.div_1_r. Qed.

(** The shortest form of every head is read back, and nothing else is accepted. *)
Lemma reads_head k v : is_major k -> is_u64 v -> reads dec_head (major k v) (k, v).
Proof.
  intros Hk Hv. unfold is_uint in Hv. unfold dec_head, major.
  destruct (Z.leb_spec v 23); [|destruct (Z.leb_spec v 0xff); [|destruct (Z.leb_spec v 0xffff);
    [|destruct (Z.leb_spec v 0xffffffff)]]];
  match goal with
    | |- reads _ [byte_of_Z (Z.lor _ ?a)] _ => destruct (head_byte k a Hk ltac:(lia)) as [E1 E2]
    | |- reads _ (byte_of_Z (Z.lor _ ?a) :: _) _ => destruct (head_byte k a Hk ltac:(lia)) as [E1 E2]
    end.
  - eapply reads_bind_pure; [apply reads_byte|]. rewrite E1, E2.
    rewrite (proj2 (Z.leb_le v 23)) by done.
    eapply reads_bind_pure; apply reads_ret.
  - eapply (reads_bind _ _ [_]); [apply reads_byte|]. rewrite E1, E2. cbn [Z.leb Z.eqb].
    eapply reads_bind_pure; [|apply reads_ret].
    rewrite be_bytes_1. eapply reads_bind_pure; [apply reads_byte|].
    rewrite byte_to_of by (unfold is_uint; lia).
    eapply reads_bind_pure; [apply reads_reject; lia|apply reads_ret].
  - eapply (reads_bind _ _ [_]); [apply reads_byte|]. rewrite E1, E2.
    eapply reads_bind_pure; [|apply reads_ret].
    apply (reads_wide 2 0xff v); [lia|cbn; lia].
  - eapply (reads_bind _ _ [_]); [apply reads_byte|]. rewrite E1, E2.
    eapply reads_bind_pure; [|apply reads_ret].
    apply (reads_wide 4 0xffff v); [lia|cbn; lia].
  - eapply (reads_bind _ _ [_]); [apply reads_byte|]. rewrite E1, E2.
    eapply reads_bind_pure; [|apply reads_ret].
    apply (reads_wide 8 0xffffffff v); [lia|cbn; lia].
Qed.

Lemma major_cases k v :
  let p x := byte_of_Z (Z.lor (Z.land (Z.shiftl k 5) 0xff) x) in
  (v <= 23 -> major k v = [p v]) /\
  (23 < v <= 0xff -> major k v = p 24 :: be_bytes 1 v) /\
  (0xff < v <= 0xffff -> major k v = p 25 :: be_bytes 2 v) /\
  (0xffff < v <= 0xffffffff -> major k v = p 26 :: be_bytes 4 v) /\
  (0xffffffff < v -> major k v = p 27 :: be_bytes 8 v).
Proof.
  unfold major. cbv zeta.
  destruct (Z.leb_spec v 23), (Z.leb_spec v 0xff), (Z.leb_spec v 0xffff),
    (Z.leb_spec v 0xffffffff); split_and!; intros; try done; lia.
Qed.

Lemma consumes_wide n limit :
  consumes (dec_wide n limit)
    (fun v i => i = be_bytes n v /\ limit < v /\ 0 <= v < 256 ^ Z.of_nat n).
Proof.
  unfold dec_wide. eapply consumes_bind; [apply consumes_take|].
  intros b i [-> Hl]. assert (length b = n) as Hn by (unfold len in Hl; lia).
  eapply (consumes_bind _ _ (fun _ j => (be_val b <=? limit) = false /\ j = [])).
  { by apply consumes_reject. }
  intros _ j [E ->]. apply consumes_ret. rewrite !app_nil_r.
  pose proof (be_val_range b) as Hr. rewrite Hl in Hr.
  split; [by rewrite <- Hn, be_bytes_val|lia].
Qed.

(** A guard passes only when its condition is false, and reads nothing. *)
Lemma consumes_guard {A} b msg (k : dec A) Q :
  (b = false -> consumes k Q) -> consumes (dec_reject b msg ≫= fun _ => k) Q.
Proof.
  intros Hk. eapply (consumes_bind _ _ (fun _ j => b = false /\ j = [])).
  { by apply consumes_reject. }
  intros _ j [E ->]. by apply Hk.
Qed.

Lemma consumes_head :
  consumes dec_head (fun kv i => i = major kv.1 kv.2 /\ is_major kv.1 /\ is_u64 kv.2).
Proof.
  unfold dec_head. eapply consumes_bind; [apply consumes_byte|]. intros b i ->.
  destruct (byte_head b) as (Hb & Hk & Ha).
  set (k := Z.shiftr (byte_to_Z b) 5) in *. set (a := Z.land (byte_to_Z b) 0x1f) in *.
  clearbody k a.
  destruct (major_cases k a) as (Hm & _).
  eapply (consumes_bind _ _ (fun v j => [b] ++ j = major k v /\ is_u64 v)).
  2:{ intros v j [E Hv]. apply consumes_ret. cbn [fst snd]. rewrite app_nil_r. done. }
  assert (forall n limit, 0 <= limit ->
    (forall v, limit < v < 256 ^ Z.of_nat n -> is_u64 v /\ major k v = b :: be_bytes n v) ->
    consumes (dec_wide n limit) (fun v j => [b] ++ j = major k v /\ is_u64 v)) as Hwide.
  { intros n limit Hlim Hv. eapply consumes_mono; [|apply consumes_wide].
    intros v j (-> & ? & ?). destruct (Hv v) as [? ->]; [lia|done]. }
  unfold is_uint in *.
  destruct (Z.leb_spec a 23).
  { apply consumes_ret. rewrite Hm, Hb by done. split; [done|lia]. }
  clear Hm.
  repeat (match goal with |- context [a =? ?c] => destruct (Z.eqb_spec a c) as [->|] end);
    try apply consumes_fail.
  - eapply consumes_bind; [apply consumes_byte|]. intros c i ->. apply consumes_guard.
    intros Hlt. bool_to_prop. apply consumes_ret. pose proof (byte_to_Z_range c). unfold is_uint in *.
    split; [|lia]. destruct (major_cases k (byte_to_Z c)) as (_ & -> & _); [|lia].
    by rewrite Hb, be_bytes_1, byte_of_to.
  - apply Hwide; [lia|]. cbn. intros v Hv. split; [lia|].
    destruct (major_cases k v) as (_ & _ & -> & _); [by rewrite Hb|lia].
  - apply Hwide; [lia|]. cbn. intros v Hv. split; [lia|].
    destruct (major_cases k v) as (_ & _ & _ & -> & _); [by rewrite Hb|lia].
  - apply Hwide; [lia|]. cbn. intros v Hv. split; [lia|].
    destruct (major_cases k v) as (_ & _ & _ & _ & ->); [by rewrite Hb|lia].
Qed.

(** *** Typed items *)

Lemma is_major_lit k : (0 <=? k) && (k <? 8) = true -> is_major k.
Proof. unfold is_major. lia. Qed.
Ltac major_lit := apply is_major_lit; reflexivity.

Lemma reads_unsigned v : is_u64 v -> reads dec_unsigned (enc_unsigned v) v.
Proof.
  intros Hv. eapply reads_bind_pure; [by apply reads_head; [major_lit|]|].
  by eapply reads_bind_pure; [apply reads_reject|apply reads_ret].
Qed.

Lemma consumes_unsigned : consumes dec_unsigned (fun v i => i = enc_unsigned v /\ is_u64 v).
Proof.
  eapply consumes_bind; [apply consumes_head|]. intros [k v] i (-> & _ & Hv); cbn [fst snd] in *.
  apply consumes_guard. intros E. bool_to_prop. subst k. apply consumes_ret.
  by rewrite app_nil_r.
Qed.

Lemma reads_integer v : is_i64 v -> reads dec_integer (enc_integer v) v.
Proof.
  intros Hv. unfold is_sint in Hv. unfold dec_integer, enc_integer, enc_unsigned.
  destruct (Z.leb_spec 0 v); eapply reads_bind_pure.
  - apply reads_head; [major_lit|unfold is_uint; lia].
  - rewrite Z.abs_eq by done. apply reads_lift. by rewrite try_sint_id by (unfold is_sint; lia).
  - apply reads_head; [major_lit|unfold is_uint; lia].
  - apply reads_lift. rewrite try_sint_id by (unfold is_sint; lia). cbn. f_equal. lia.
Qed.

Lemma consumes_integer : consumes dec_integer (fun v i => i = enc_integer v /\ is_i64 v).
Proof.
  eapply consumes_bind; [apply consumes_head|].
  intros [k v] i (-> & _ & Hv); cbn [fst snd] in *. unfold is_uint in Hv.
  destruct (Z.eqb_spec k 0) as [->|]; [|destruct (Z.eqb_spec k 1) as [->|]; [|apply consumes_fail]];
    apply consumes_lift; intros w E; inv_ok; apply try_sint_some in H as [-> Hs] ||
      apply try_sint_some in E as [-> Hs];
    unfold is_sint, enc_integer in *; rewrite app_nil_r.
  - replace (0 <=? v) with true by lia. rewrite Z.abs_eq by lia. done.
  - replace (0 <=? -1 - v) with false by lia.
    replace (Z.abs (-1 - v) - 1) with v by lia. split; [done|lia].
Qed.

Lemma reads_length k n : is_major k -> is_u64 n -> reads (dec_length k) (major k n) n.
Proof.
  intros Hk Hn. eapply reads_bind_pure; [by apply reads_head|].
  eapply reads_bind_pure; [apply reads_reject; by rewrite Z.eqb_refl|].
  apply reads_lift. by rewrite try_uint_id.
Qed.

Lemma consumes_length k :
  consumes (dec_length k) (fun n i => i = major k n /\ is_u64 n).
Proof.
  eapply consumes_bind; [apply consumes_head|]. intros [k' v] i (-> & _ & Hv); cbn [fst snd] in *.
  apply consumes_guard. intros E. bool_to_prop. subst k'.
  apply consumes_lift. intros w E. inv_ok. apply try_uint_some in E as [-> _].
  by rewrite app_nil_r.
Qed.

(** Slices never exceed [isize::MAX] bytes. *)
Lemma small_u64 {A} (l : list A) : len l < 2 ^ 63 -> is_u64 (len l).
Proof. pose proof (len_nonneg l). unfold is_uint. lia. Qed.

Lemma reads_byte_string b : len b < 2 ^ 63 -> reads dec_byte_string (enc_bytes b) b.
Proof.
  intros Hb. eapply reads_bind; [apply reads_length; [major_lit|by apply small_u64]|].
  apply reads_take.
Qed.

Lemma consumes_byte_string : consumes dec_byte_string (fun b i => i = enc_bytes b).
Proof.
  eapply consumes_bind; [apply consumes_length|]. intros n i [-> _].
  eapply consumes_mono; [|apply consumes_take]. intros b j [-> <-]. done.
Qed.

Lemma reads_text s : is_utf8 s -> str_len s < 2 ^ 63 -> reads dec_text (enc_text s) s.
Proof.
  intros Hu Hs. eapply reads_bind; [apply reads_length; [major_lit|by apply small_u64]|].
  eapply reads_bind_pure; [apply reads_take|].
  eapply reads_bind_pure; [apply reads_reject; by rewrite Hu|].
  pose proof (reads_ret (of_bytes (as_bytes s))) as H. by rewrite of_as_bytes in H at 2.
Qed.

Lemma consumes_text : consumes dec_text (fun s i => i = enc_text s /\ is_utf8 s).
Proof.
  eapply consumes_bind; [apply consumes_length|]. intros n i [-> _].
  eapply consumes_bind; [apply consumes_take|]. intros b j [-> <-].
  apply consumes_guard. intros E. bool_to_prop. apply consumes_ret.
  unfold enc_text, str_len, is_utf8. by rewrite app_nil_r, as_of_bytes.
Qed.
#[export] Hint Resolve reads_unsigned reads_integer reads_length reads_byte_string
  reads_text : reads.

(** Strings read from a bounded input are bounded. *)
Lemma consumes_bounded {A} (m : dec A) P :
  consumes m P -> consumes m (fun a i => P a i /\ len i < 2 ^ 63).
Proof.
  intros Hm d a d' Hd E. destruct (Hm d a d' Hd E) as (i & HP & Hv & ->).
  exists i. split; [|done]. split; [done|].
  pose proof (view_len d Hd) as Hl. rewrite Hv, len_app in Hl. destruct Hd.
  match type of Hl with _ + ?x = _ => assert (0 <= x) by apply len_nonneg end. lia.
Qed.

Lemma bytes_bounded (b : bytes) : len (enc_bytes b) < 2 ^ 63 -> len b < 2 ^ 63.
Proof. unfold enc_bytes. rewrite len_app. pose proof (len_nonneg (major 2 (len b))). lia. Qed.
Lemma text_bounded s : len (enc_text s) < 2 ^ 63 -> str_len s < 2 ^ 63.
Proof.
  unfold enc_text, str_len. rewrite len_app.
  pose proof (len_nonneg (major 3 (len (as_bytes s)))). lia.
Qed.

(** *** Codecs

    What the decoder of one item promises to the decoders built from it: it
    reads back what the encoder writes for a valid value, and accepts nothing
    else. *)

Class Codec {A} (m : dec A) (enc : A -> bytes) (valid : A -> Prop) : Prop := {
  codec_reads a : valid a -> reads m (enc a) a;
  codec_consumes : consumes m (fun a i => i = enc a /\ valid a) }.

#[export] Instance unsigned_codec : Codec dec_unsigned enc_unsigned is_u64.
Proof. split; [apply reads_unsigned|apply consumes_unsigned]. Qed.
#[export] Instance integer_codec : Codec dec_integer enc_integer is_i64.
Proof. split; [apply reads_integer|apply consumes_integer]. Qed.
#[export] Instance byte_string_codec : Codec dec_byte_string enc_bytes (fun b => len b < 2 ^ 63).
Proof.
  split; [apply reads_byte_string|].
  eapply consumes_mono; [|apply consumes_bounded, consumes_byte_string].
  intros b i [-> Hb]. eauto using bytes_bounded.
Qed.
#[export] Instance text_codec :
  Codec dec_text enc_text (fun s => is_utf8 s /\ str_len s < 2 ^ 63).
Proof.
  split; [by intros s [? ?]; apply reads_text|].
  eapply consumes_mono; [|apply consumes_bounded, consumes_text].
  intros s i [[-> ?] Hb]. eauto using text_bounded.
Qed.

Section codec_rules.
Context {A : Type} {m : dec A} {enc : A -> bytes} {valid : A -> Prop}.
Context {HC : Codec m enc valid}.

Lemma reads_codec {B} (k : A -> dec B) j a b :
  valid a -> reads (k a) j b -> reads (m ≫= k) (enc a ++ j) b.
Proof. intros. eapply reads_bind; [by apply codec_reads|done]. Qed.

Lemma reads_codec_last {B} (k : A -> dec B) a b :
  valid a -> reads (k a) [] b -> reads (m ≫= k) (enc a) b.
Proof. intros. eapply reads_bind_pure; [by apply codec_reads|done]. Qed.

Lemma consumes_codec {B} (k : A -> dec B) Q :
  (forall a, valid a -> consumes (k a) (fun b j => Q b (enc a ++ j))) ->
  consumes (m ≫= k) Q.
Proof.
  intros Hk. eapply consumes_bind; [apply codec_consumes|].
  intros a i [-> Ha]. by apply Hk.
Qed.

Definition enc_list (l : list A) : bytes := concat (map enc l).

Lemma enc_list_cons a l : enc_list (a :: l) = enc a ++ enc_list l.
Proof. done. Qed.

#[export] Instance repeat_codec n :
  Codec (dec_repeat n m) enc_list (fun l => length l = n /\ Forall valid l).
Proof.
  split.
  - induction n as [|n IH]; intros [|a l] [Hl Hv]; try done.
    + apply reads_ret.
    + apply Forall_cons in Hv as [Ha Hv]. cbn [dec_repeat]. rewrite enc_list_cons.
      apply reads_codec; [done|]. eapply reads_bind_pure; [|apply reads_ret].
      apply IH. by injection Hl.
  - induction n as [|n IH]; cbn [dec_repeat]; [by apply consumes_ret|].
    apply consumes_codec. intros a Ha.
    eapply consumes_bind; [exact IH|]. intros l i (-> & Hl & Hv). apply consumes_ret.
    rewrite enc_list_cons, app_nil_r. split; [done|]. split; [cbn; lia|by constructor].
Qed.
End codec_rules.
Arguments enc_list {A} enc l.

(** A pure step or a guard whose outcome is known. *)
Lemma consumes_pure {A B} (m : presult A) (k : A -> dec B) Q :
  (forall a, m = Ok a -> consumes (k a) Q) -> consumes (dec_lift m ≫= k) Q.
Proof.
  intros Hk. eapply (consumes_bind _ _ (fun a j => m = Ok a /\ j = [])).
  { by apply consumes_lift. }
  intros a j [E ->]. by apply Hk.
Qed.

#[export] Instance array_len_codec : Codec (dec_length 4) enc_array_len is_u64.
Proof. split; [intros n ?; apply reads_length; [major_lit|done]|apply consumes_length]. Qed.
#[export] Instance map_len_codec : Codec (dec_length 5) enc_map_len is_u64.
Proof. split; [intros n ?; apply reads_length; [major_lit|done]|apply consumes_length]. Qed.

Lemma consumes_ret_bind {A B} a (k : A -> dec B) Q : consumes (k a) Q -> consumes (mret a ≫= k) Q.
Proof. done. Qed.
Lemma consumes_fail_bind {A B} e (k : A -> dec B) Q : consumes (dec_fail e ≫= k) Q.
Proof. intros d a d' _ [=]. Qed.

(** Reads one item of a decoder body by its codec. *)
Ltac reads_item :=
  match goal with
  | |- reads (@mbind _ _ _ _ ?k ?m) _ _ =>
    let c := constr:(_ : Codec m _ _) in
    first [eapply (reads_codec (HC := c)) | eapply (reads_codec_last (HC := c))]
  end.
(** A guard or a pure step that passes. *)
Ltac reads_pure :=
  eapply reads_skip;
  [first [apply reads_reject; first [reflexivity | lia] | apply reads_lift; first [reflexivity | done]]|].

(** Walks down a decoder body, collecting what it consumed. *)
Ltac consumes_step :=
  lazymatch goal with
  | |- consumes (mret _) _ => apply consumes_ret; cbv beta
  | |- consumes (dec_fail _) _ => apply consumes_fail
  | |- consumes (mret _ ≫= _) _ => apply consumes_ret_bind; cbv beta
  | |- consumes (dec_fail _ ≫= _) _ => apply consumes_fail_bind
  | |- consumes (dec_reject _ _ ≫= _) _ => apply consumes_guard; intros ?; bool_to_prop; subst
  | |- consumes (dec_lift _ ≫= _) _ => apply consumes_pure; intros ??; inv_ok
  | |- consumes (@mbind _ _ _ _ ?k ?m) _ =>
    let c := constr:(_ : Codec m _ _) in
    apply (consumes_codec (HC := c)); intros ?? ; cbv beta in *
  end.

Lemma enc_array_nonempty n : 0 < len (enc_array_len n).
Proof.
  unfold enc_array_len, major. repeat case_match; rewrite len_cons;
    match goal with |- 0 < 1 + ?x => assert (0 <= x) by apply len_nonneg end; lia.
Qed.

(** ** Typed scalars *)

Definition encode_typed_scalar (value : scalar) : bytes :=
  enc_array_len 2 ++
  match value with
  | TypedScalar.Null => enc_unsigned 0 ++ [Byte.xf6]
  | TypedScalar.Boolean v => enc_unsigned 1 ++ [if v then Byte.xf5 else Byte.xf4]
  | TypedScalar.Int32 v => enc_unsigned 2 ++ enc_integer v
  | TypedScalar.Int64 v => enc_unsigned 3 ++ enc_integer v
  | TypedScalar.Float32 v => enc_unsigned 4 ++ enc_bytes (be_bytes 4 (canonical_f32 v))
  | TypedScalar.Float64 v => enc_unsigned 5 ++ enc_bytes (be_bytes 8 (canonical_f64 v))
  | TypedScalar.Decimal precision scale unscaled =>
    enc_unsigned 6 ++ enc_array_len 3 ++ enc_unsigned precision ++ enc_unsigned scale
    ++ enc_bytes unscaled
  | TypedScalar.Date v => enc_unsigned 7 ++ enc_integer v
  | TypedScalar.TimeMicros v => enc_unsigned 8 ++ enc_integer v
  | TypedScalar.TimestampMicros v => enc_unsigned 9 ++ enc_integer v
  | TypedScalar.TimestamptzMicros v => enc_unsigned 10 ++ enc_integer v
  | TypedScalar.String v => enc_unsigned 11 ++ enc_text v
  | TypedScalar.Binary v => enc_unsigned 12 ++ enc_bytes v
  | TypedScalar.Fixed v => enc_unsigned 13 ++ enc_bytes v
  | TypedScalar.Uuid v => enc_unsigned 14 ++ enc_bytes (uuid_bytes v)
  end.

(** [bytes.try_into::<[u8; n]>()] *)
Definition try_array (n : nat) (m : string) (b : bytes) : presult bytes :=
  if bool_decide (length b = n) then Ok b else Err (invalid m).

Definition dec_null : dec scalar :=
  b ← dec_byte;
  _ ← dec_reject (negb (byte_eqb b Byte.xf6)) "null scalar payload must be CBOR null";
  mret TypedScalar.Null.

Definition dec_boolean : dec scalar :=
  b ← dec_byte;
  if byte_eqb b Byte.xf4 then mret (TypedScalar.Boolean false)
  else if byte_eqb b Byte.xf5 then mret (TypedScalar.Boolean true)
  else dec_fail (invalid "boolean scalar payload is invalid").

(** [i32::try_from(self.integer()?)] *)
Definition dec_i32 (m : string) : dec Z :=
  v ← dec_integer; dec_lift (ok_or (try_sint 32 v) (invalid m)).

Definition dec_float32 : dec scalar :=
  b ← dec_byte_string;
  b ← dec_lift (try_array 4 "float32 payload must have four bytes" b);
  let bits := be_val b in
  _ ← dec_reject (f32_is_nan bits && negb (bits =? 0x7fc00000)) "float32 NaN is not canonical";
  mret (TypedScalar.Float32 bits).

Definition dec_float64 : dec scalar :=
  b ← dec_byte_string;
  b ← dec_lift (try_array 8 "float64 payload must have eight bytes" b);
  let bits := be_val b in
  _ ← dec_reject (f64_is_nan bits && negb (bits =? 0x7ff8000000000000))
        "float64 NaN is not canonical";
  mret (TypedScalar.Float64 bits).

Definition dec_decimal : dec scalar :=
  n ← dec_length 4;
  _ ← dec_reject (negb (n =? 3)) "decimal payload must be a three-element array";
  p ← dec_unsigned;
  precision ← dec_lift (ok_or (try_uint 32 p) (invalid "decimal precision overflow"));
  s ← dec_unsigned;
  scale ← dec_lift (ok_or (try_uint 32 s) (invalid "decimal scale overflow"));
  unscaled ← dec_byte_string;
  _ ← dec_reject ((precision =? 0) || (precision <? scale)
                  || negb (minimal_twos_complement unscaled)) "invalid decimal payload";
  mret (TypedScalar.Decimal precision scale unscaled).

Definition dec_uuid : dec scalar :=
  b ← dec_byte_string;
  b ← dec_lift (try_array 16 "UUID payload must have 16 bytes" b);
  mret (TypedScalar.Uuid (MkUuid b)).

Definition dec_payload (type_code : Z) : dec scalar :=
  if type_code =? 0 then dec_null
  else if type_code =? 1 then dec_boolean
  else if type_code =? 2 then v ← dec_i32 "int32 scalar is out of range"; mret (TypedScalar.Int32 v)
  else if type_code =? 3 then v ← dec_integer; mret (TypedScalar.Int64 v)
  else if type_code =? 4 then dec_float32
  else if type_code =? 5 then dec_float64
  else if type_code =? 6 then dec_decimal
  else if type_code =? 7 then v ← dec_i32 "date scalar is out of range"; mret (TypedScalar.Date v)
  else if type_code =? 8 then v ← dec_integer; mret (TypedScalar.TimeMicros v)
  else if type_code =? 9 then v ← dec_integer; mret (TypedScalar.TimestampMicros v)
  else if type_code =? 10 then v ← dec_integer; mret (TypedScalar.TimestamptzMicros v)
  else if type_code =? 11 then v ← dec_text; mret (TypedScalar.String v)
  else if type_code =? 12 then v ← dec_byte_string; mret (TypedScalar.Binary v)
  else if type_code =? 13 then v ← dec_byte_string; mret (TypedScalar.Fixed v)
  else if type_code =? 14 then dec_uuid
  else dec_fail (invalid "unknown typed scalar code").

Definition dec_typed_scalar : dec scalar :=
  n ← dec_length 4;
  _ ← dec_reject (negb (n =? 2)) "typed scalar must be a two-element array";
  type_code ← dec_unsigned;
  s ← dec_payload type_code;
  _ ← dec_lift (validate_scalar s);
  mret s.

Definition decode_typed_scalar (b : bytes) : presult scalar := dec_all dec_typed_scalar b.

(** *** Typed scalars are read back, and only canonical bytes are accepted *)

Lemma reads_try_array n m (b : bytes) : length b = n -> reads (dec_lift (try_array n m b)) [] b.
Proof. intros <-. apply reads_lift. unfold try_array. by rewrite bool_decide_true. Qed.

Lemma try_array_ok n m (b c : bytes) : try_array n m b = Ok c -> c = b /\ length b = n.
Proof. unfold try_array. intros E. case_in E; [|done]. inv_ok. by bool_to_prop. Qed.

Lemma consumes_try_array n m (b : bytes) (P : bytes -> bytes -> Prop) :
  (length b = n -> P b []) -> consumes (dec_lift (try_array n m b)) P.
Proof.
  intros HP. apply consumes_lift. intros a [-> ?]%try_array_ok. auto.
Qed.

Lemma f32_canonical_nan v : f32_is_nan (canonical_f32 v) && negb (canonical_f32 v =? 0x7fc00000) = false.
Proof. unfold canonical_f32. destruct (f32_is_nan v) eqn:E; [done|]. by rewrite E. Qed.
Lemma f64_canonical_nan v :
  f64_is_nan (canonical_f64 v) && negb (canonical_f64 v =? 0x7ff8000000000000) = false.
Proof. unfold canonical_f64. destruct (f64_is_nan v) eqn:E; [done|]. by rewrite E. Qed.
Lemma reads_float32 v : is_u32 v ->
  reads dec_float32 (enc_bytes (be_bytes 4 (canonical_f32 v))) (TypedScalar.Float32 (canonical_f32 v)).
Proof.
  intros Hv. pose proof (canonical_f32_range v Hv) as Hc.
  eapply reads_bind_pure; [apply reads_byte_string; by rewrite be_bytes_len|].
  eapply reads_bind_pure; [apply reads_try_array, be_bytes_length|].
  rewrite be_val_bytes by exact Hc.
  eapply reads_bind_pure; [apply reads_reject, f32_canonical_nan|apply reads_ret].
Qed.

Lemma reads_float64 v : is_u64 v ->
  reads dec_float64 (enc_bytes (be_bytes 8 (canonical_f64 v))) (TypedScalar.Float64 (canonical_f64 v)).
Proof.
  intros Hv. pose proof (canonical_f64_range v Hv) as Hc.
  eapply reads_bind_pure; [apply reads_byte_string; by rewrite be_bytes_len|].
  eapply reads_bind_pure; [apply reads_try_array, be_bytes_length|].
  rewrite be_val_bytes by exact Hc.
  eapply reads_bind_pure; [apply reads_reject, f64_canonical_nan|apply reads_ret].
Qed.

Lemma reads_i32 m v : is_i32 v -> reads (dec_i32 m) (enc_integer v) v.
Proof.
  intros Hv. eapply reads_bind_pure;
    [apply reads_integer; unfold is_sint in *; lia|].
  apply reads_lift. by rewrite try_sint_id.
Qed.

Lemma u32_u64 v : is_u32 v -> is_u64 v.
Proof. unfold is_uint. lia. Qed.
#[export] Hint Resolve reads_float32 reads_float64 reads_i32 u32_u64 : reads.

Lemma reads_decimal p s u :
  is_u32 p -> is_u32 s -> len u < 2 ^ 63 ->
  validate_scalar (TypedScalar.Decimal p s u) = Ok tt ->
  reads dec_decimal
    (enc_array_len 3 ++ enc_unsigned p ++ enc_unsigned s ++ enc_bytes u)
    (TypedScalar.Decimal p s u).
Proof.
  intros Hp Hs Hu Hv. cbn in Hv. case_in Hv; [done|].
  eapply reads_bind; [by apply reads_length; [major_lit|]|].
  eapply reads_skip; [by apply reads_reject|].
  eapply reads_bind; [by eauto with reads|].
  eapply reads_skip; [apply reads_lift; by rewrite try_uint_id|].
  eapply reads_bind; [by eauto with reads|].
  eapply reads_skip; [apply reads_lift; by rewrite try_uint_id|].
  eapply reads_bind_pure; [by eauto with reads|].
  eapply reads_bind_pure; [by apply reads_reject|apply reads_ret].
Qed.

Lemma reads_uuid u : wf_uuid u -> reads dec_uuid (enc_bytes (uuid_bytes u)) (TypedScalar.Uuid u).
Proof.
  intros Hu. unfold wf_uuid in Hu. eapply reads_bind_pure.
  { apply reads_byte_string. unfold len. rewrite Hu. lia. }
  eapply reads_bind_pure; [by apply reads_try_array|]. destruct u. apply reads_ret.
Qed.

(** Reads a type code, then the payload. *)
Lemma reads_scalar_body n code payload v :
  n = 2 -> is_u64 code -> validate_scalar v = Ok tt ->
  reads (dec_payload code) payload v ->
  reads dec_typed_scalar (enc_array_len n ++ enc_unsigned code ++ payload) v.
Proof.
  intros -> Hc Hv Hp. unfold dec_typed_scalar.
  eapply reads_bind; [by apply reads_length; [major_lit|]|].
  eapply reads_skip; [by apply reads_reject|].
  eapply reads_bind; [by eauto with reads|].
  eapply reads_bind_pure; [exact Hp|].
  eapply reads_bind_pure; [by apply reads_lift|apply reads_ret].
Qed.

Lemma reads_typed_scalar v :
  wf_scalar v -> validate_scalar v = Ok tt ->
  reads dec_typed_scalar (encode_typed_scalar v) (canonical_nan v).
Proof.
  intros Hw Hv. unfold encode_typed_scalar.
  destruct v; cbn [wf_scalar canonical_nan] in *;
    (eapply reads_scalar_body; [done|by split|by rewrite ?validate_canonical|]);
    unfold dec_payload; cbn [Z.eqb Pos.eqb].
  1: by eapply reads_bind_pure; [apply reads_byte|]; eapply reads_bind_pure;
       [by apply reads_reject|apply reads_ret].
  1: destruct b; (eapply reads_bind_pure; [apply reads_byte|]); apply reads_ret.
  all: try solve [eapply reads_bind_pure; [by eauto with reads|apply reads_ret]].
  - by apply reads_float32.
  - by apply reads_float64.
  - destruct Hw as (? & ? & ?). by apply reads_decimal.
  - destruct Hw. eapply reads_bind_pure; [by apply reads_text|apply reads_ret].
  - by apply reads_uuid.
Qed.

(** A decoded scalar satisfies the field ranges and its checks, has no
    non-canonical NaN, and its payload is the one the encoder writes. *)
Definition scalar_read (s : scalar) : Prop := wf_scalar s /\ canonical_nan s = s.

Lemma consumes_map {A} (m : dec A) (f : A -> scalar) (P : A -> bytes -> Prop) Q :
  consumes m P -> (forall a i, P a i -> Q (f a) i) -> consumes (a ← m; mret (f a)) Q.
Proof.
  intros Hm HQ. eapply consumes_bind; [exact Hm|]. intros a i Ha. apply consumes_ret.
  rewrite app_nil_r. auto.
Qed.

Lemma consumes_i32 m : consumes (dec_i32 m) (fun v i => i = enc_integer v /\ is_i32 v).
Proof.
  eapply consumes_bind; [apply consumes_integer|]. intros v i [-> _].
  apply consumes_lift. intros w E. inv_ok. apply try_sint_some in E as [-> ?].
  by rewrite app_nil_r.
Qed.

Lemma be_val_length n b : length b = n -> 0 <= be_val b < 256 ^ Z.of_nat n.
Proof. intros <-. apply be_val_range. Qed.

Lemma consumes_float32 : consumes dec_float32 (fun s i =>
  exists v, s = TypedScalar.Float32 v /\ i = enc_bytes (be_bytes 4 v) /\ is_u32 v /\ canonical_f32 v = v).
Proof.
  eapply consumes_bind; [apply consumes_byte_string|]. intros b i ->.
  eapply (consumes_bind _ _ (fun b' j => b' = b /\ length b = 4%nat /\ j = [])).
  { by apply consumes_try_array. }
  intros ? j (-> & Hl & ->). apply consumes_guard. intros E. apply consumes_ret.
  exists (be_val b). rewrite !app_nil_r. pose proof (be_val_length _ _ Hl) as Hr.
  split; [done|]. split; [by rewrite <- Hl, be_bytes_val|]. split; [exact Hr|].
  unfold canonical_f32. destruct (f32_is_nan (be_val b)); cbn in E; [|done].
  by bool_to_prop.
Qed.

Lemma consumes_float64 : consumes dec_float64 (fun s i =>
  exists v, s = TypedScalar.Float64 v /\ i = enc_bytes (be_bytes 8 v) /\ is_u64 v /\ canonical_f64 v = v).
Proof.
  eapply consumes_bind; [apply consumes_byte_string|]. intros b i ->.
  eapply (consumes_bind _ _ (fun b' j => b' = b /\ length b = 8%nat /\ j = [])).
  { by apply consumes_try_array. }
  intros ? j (-> & Hl & ->). apply consumes_guard. intros E. apply consumes_ret.
  exists (be_val b). rewrite !app_nil_r. pose proof (be_val_length _ _ Hl) as Hr.
  split; [done|]. split; [by rewrite <- Hl, be_bytes_val|]. split; [exact Hr|].
  unfold canonical_f64. destruct (f64_is_nan (be_val b)); cbn in E; [|done].
  by bool_to_prop.
Qed.

Lemma consumes_u32 m : 
  consumes (v ← dec_unsigned; dec_lift (ok_or (try_uint 32 v) (invalid m)))
    (fun v i => i = enc_unsigned v /\ is_u32 v).
Proof.
  eapply consumes_bind; [apply consumes_unsigned|]. intros v i [-> _].
  apply consumes_lift. intros w E. inv_ok. apply try_uint_some in E as [-> ?].
  by rewrite app_nil_r.
Qed.

Lemma dec_bind_assoc {A B C} (m : dec A) (f : A -> dec B) (g : B -> dec C) d :
  (m ≫= fun a => f a ≫= g) d = ((m ≫= f) ≫= g) d.
Proof. unfold mbind, dec_bind. by destruct (m d) as [[a d']|]. Qed.

Lemma consumes_assoc {A B C} (m : dec A) (f : A -> dec B) (g : B -> dec C) P :
  consumes ((m ≫= f) ≫= g) P -> consumes (m ≫= fun a => f a ≫= g) P.
Proof. intros H d a d'. rewrite dec_bind_assoc. apply H. Qed.

Lemma consumes_decimal : consumes dec_decimal (fun s i =>
  exists p sc u, s = TypedScalar.Decimal p sc u /\ is_u32 p /\ is_u32 sc /\ len u < 2 ^ 63 /\
    i = enc_array_len 3 ++ enc_unsigned p ++ enc_unsigned sc ++ enc_bytes u).
Proof.
  eapply consumes_bind; [apply consumes_length|]. intros n i [-> _].
  apply consumes_guard. intros En. bool_to_prop. subst n.
  apply consumes_assoc. eapply consumes_bind; [apply consumes_u32|]. intros p i [-> Hp].
  apply consumes_assoc. eapply consumes_bind; [apply consumes_u32|]. intros sc i [-> Hs].
  eapply consumes_bind; [apply consumes_bounded, consumes_byte_string|]. intros u i [-> Hb].
  apply consumes_guard. intros E. apply consumes_ret. exists p, sc, u.
  rewrite app_nil_r. eauto 10 using bytes_bounded.
Qed.

Lemma consumes_uuid : consumes dec_uuid (fun s i =>
  exists u, s = TypedScalar.Uuid u /\ wf_uuid u /\ i = enc_bytes (uuid_bytes u)).
Proof.
  eapply consumes_bind; [apply consumes_byte_string|]. intros b i ->.
  eapply (consumes_bind _ _ (fun b' j => b' = b /\ length b = 16%nat /\ j = [])).
  { by apply consumes_try_array. }
  intros ? j (-> & Hl & ->). apply consumes_ret. exists (MkUuid b). by rewrite !app_nil_r.
Qed.

Definition payload_of (c : Z) (s : scalar) (i : bytes) : Prop :=
  scalar_read s /\ encode_typed_scalar s = enc_array_len 2 ++ enc_unsigned c ++ i.

Lemma consumes_payload c : is_u64 c -> consumes (dec_payload c) (payload_of c).
Proof.
  intros _. unfold dec_payload, payload_of, scalar_read.
  repeat (match goal with |- context [c =? ?k] => destruct (Z.eqb_spec c k) as [->|_] end).
  - eapply consumes_bind; [apply consumes_byte|]. intros b i ->. apply consumes_guard.
    intros E. bool_to_prop. apply byte_eqb_eq in E as ->. by apply consumes_ret.
  - eapply consumes_bind; [apply consumes_byte|]. intros b i ->.
    destruct (byte_eqb b Byte.xf4) eqn:E; [|destruct (byte_eqb b Byte.xf5) eqn:E'];
      [apply byte_eqb_eq in E as ->|apply byte_eqb_eq in E' as ->|apply consumes_fail];
      by apply consumes_ret.
  - eapply consumes_map; [apply consumes_i32|]. by intros v i [-> ?].
  - eapply consumes_map; [apply consumes_integer|]. by intros v i [-> ?].
  - eapply consumes_mono; [|apply consumes_float32]. intros s i (v & -> & -> & ? & Hc).
    unfold encode_typed_scalar. cbn [canonical_nan]. by rewrite Hc.
  - eapply consumes_mono; [|apply consumes_float64]. intros s i (v & -> & -> & ? & Hc).
    unfold encode_typed_scalar. cbn [canonical_nan]. by rewrite Hc.
  - eapply consumes_mono; [|apply consumes_decimal]. by intros s i (p & sc & u & -> & ? & ? & ? & ->).
  - eapply consumes_map; [apply consumes_i32|]. by intros v i [-> ?].
  - eapply consumes_map; [apply consumes_integer|]. by intros v i [-> ?].
  - eapply consumes_map; [apply consumes_integer|]. by intros v i [-> ?].
  - eapply consumes_map; [apply consumes_integer|]. by intros v i [-> ?].
  - eapply consumes_map; [apply consumes_bounded, consumes_text|].
    intros v i [[-> ?] ?%text_bounded]. done.
  - eapply consumes_map; [apply consumes_bounded, consumes_byte_string|].
    by intros v i [-> ?%bytes_bounded].
  - eapply consumes_map; [apply consumes_bounded, consumes_byte_string|].
    by intros v i [-> ?%bytes_bounded].
  - eapply consumes_mono; [|apply consumes_uuid]. by intros s i (u & -> & ? & ->).
  - apply consumes_fail.
Qed.

(** What [typed_scalar] accepts is exactly what the encoder writes for a valid
    scalar. *)
Lemma consumes_typed_scalar :
  consumes dec_typed_scalar
    (fun s i => i = encode_typed_scalar s /\ scalar_read s /\ validate_scalar s = Ok tt).
Proof.
  eapply consumes_bind; [apply consumes_length|]. intros n i [-> _].
  apply consumes_guard. intros En. bool_to_prop. subst n.
  eapply consumes_bind; [apply consumes_unsigned|]. intros c i [-> Hc].
  eapply consumes_bind; [by apply consumes_payload|]. intros s i [Hs He].
  eapply (consumes_bind _ _ (fun _ j => validate_scalar s = Ok tt /\ j = [])).
  { apply consumes_lift. by intros [] E. }
  intros _ j [Hv ->]. apply consumes_ret. rewrite !app_nil_r.
  by rewrite He.
Qed.

(** *** Whole inputs *)

Lemma wf_decoder_new b : len b < 2 ^ 63 -> wf_dec (decoder_new b).
Proof. intros. unfold wf_dec; cbn. pose proof (len_nonneg b). lia. Qed.

Lemma dec_all_reads {A} (m : dec A) i a :
  len i < 2 ^ 63 -> reads m i a -> dec_all m i = Ok a.
Proof.
  intros Hl Hm. unfold dec_all.
  rewrite (Hm (decoder_new i) []); [|by apply wf_decoder_new|by rewrite app_nil_r].
  unfold dec_finish, advance; cbn. by rewrite Z.eqb_refl.
Qed.

Lemma dec_all_consumes {A} (m : dec A) P i a :
  len i < 2 ^ 63 -> consumes m P -> dec_all m i = Ok a -> P a i.
Proof.
  intros Hl Hm E. unfold dec_all in E. destruct (m (decoder_new i)) as [[a' d]|] eqn:Em; [|done].
  apply bind_ok in E as (u & Hf & [= ->]).
  destruct (Hm _ _ _ (wf_decoder_new _ Hl) Em) as (j & HP & Hv & ->).
  unfold dec_finish, advance in Hf; cbn in Hf. case_in Hf; [|done]. bool_to_prop.
  enough (j = i) as -> by done.
  unfold view in Hv; cbn [d_bytes d_offset decoder_new advance] in Hv.
  rewrite drop_0, (drop_ge _ (Z.to_nat (0 + len j))), app_nil_r in Hv; [done|].
  unfold len in *. lia.
Qed.

(** ** Partition tuples *)

Definition encode_partition_tuple (values : list (Z * scalar)) : bytes :=
  enc_map_len (len values)
  ++ concat (map (fun '(field_id, value) => enc_unsigned field_id ++ encode_typed_scalar value)
                 values).

Fixpoint dec_partition_fields (count : nat) (previous : option Z)
    (values : list (Z * scalar)) : dec (list (Z * scalar)) :=
  match count with
  | O => mret values
  | S count =>
    raw ← dec_unsigned;
    field_id ← dec_lift (ok_or (try_uint 32 raw) (invalid "partition field ID overflow"));
    _ ← dec_reject ((field_id =? 0)
                    || match previous with Some prior => field_id <=? prior | None => false end)
          "partition field IDs must be positive and sorted";
    value ← dec_typed_scalar;
    dec_partition_fields count (Some field_id) (bt_insert field_id value values)
  end.

Definition dec_partition_tuple : dec (list (Z * scalar)) :=
  count ← dec_length 5;
  dec_partition_fields (Z.to_nat count) None [].

Definition decode_partition_tuple (b : bytes) : presult (list (Z * scalar)) :=
  dec_all dec_partition_tuple b.

Definition partition_entry (kv : Z * scalar) : Prop :=
  0 < kv.1 /\ is_u32 kv.1 /\ wf_scalar kv.2 /\ validate_scalar kv.2 = Ok tt.
(** A partition tuple: a [BTreeMap] from positive field identifiers to valid scalars. *)
Definition partition_wf (l : list (Z * scalar)) : Prop :=
  bt_sorted l /\ Forall partition_entry l.
Definition partition_canonical (l : list (Z * scalar)) : list (Z * scalar) :=
  map (fun '(field_id, value) => (field_id, canonical_nan value)) l.
Definition encode_partition_fields (l : list (Z * scalar)) : bytes :=
  concat (map (fun '(field_id, value) => enc_unsigned field_id ++ encode_typed_scalar value) l).

Lemma encode_fields_cons k v l :
  encode_partition_fields ((k, v) :: l) =
  enc_unsigned k ++ encode_typed_scalar v ++ encode_partition_fields l.
Proof. unfold encode_partition_fields. cbn [map concat]. by rewrite <- app_assoc. Qed.

Definition after (previous : option Z) (l : list (Z * scalar)) : Prop :=
  match previous with Some p => Forall (Z.lt p) l.*1 | None => True end.

Lemma partition_wf_cons k v l :
  partition_wf ((k, v) :: l) <->
  partition_entry (k, v) /\ after (Some k) l /\ partition_wf l.
Proof.
  unfold partition_wf. rewrite bt_sorted_cons. unfold after.
  rewrite Forall_cons. tauto.
Qed.

Lemma keys_below_insert k (v : scalar) acc :
  Forall (fun x => x < k) acc.*1 -> bt_insert k v acc = acc ++ [(k, v)].
Proof. intros H. by apply bt_insert_last. Qed.

Definition before (acc : list (Z * scalar)) (previous : option Z) : Prop :=
  match previous with Some p => Forall (fun x => x <= p) acc.*1 | None => acc = [] end.

Lemma before_step acc previous k (v : scalar) :
  before acc previous -> match previous with Some p => p < k | None => True end ->
  Forall (fun x => x < k) acc.*1 /\ before (acc ++ [(k, v)]) (Some k).
Proof.
  intros Hb Hk. assert (Forall (fun x => x < k) acc.*1) as Ha.
  { destruct previous; cbn in Hb; [|by subst].
    eapply Forall_impl; [exact Hb|]. cbn. lia. }
  split; [done|]. cbn. rewrite fmap_app. apply Forall_app. split.
  - eapply Forall_impl; [exact Ha|]. cbn. lia.
  - constructor; [cbn; lia|constructor].
Qed.

Lemma reads_partition_fields l : forall acc previous,
  partition_wf l -> before acc previous -> after previous l ->
  reads (dec_partition_fields (length l) previous acc) (encode_partition_fields l)
    (acc ++ partition_canonical l).
Proof.
  induction l as [|[k v] l IH]; intros acc previous Hw Hb Ha.
  { rewrite app_nil_r. apply reads_ret. }
  apply partition_wf_cons in Hw as ((Hpos & Hk & Hv & Hc) & Hal & Hw). cbn [fst snd] in *.
  rewrite encode_fields_cons. cbn [dec_partition_fields length].
  assert (match previous with Some p => p < k | None => True end) as Hp.
  { destruct previous; [|done]. by inversion Ha. }
  eapply reads_bind; [by eauto with reads|].
  eapply reads_skip; [apply reads_lift; by rewrite try_uint_id|].
  eapply reads_skip.
  { apply reads_reject. destruct previous; lia. }
  eapply reads_bind; [by apply reads_typed_scalar|].
  destruct (before_step acc previous k (canonical_nan v) Hb Hp) as [Hlt Hb'].
  rewrite keys_below_insert by done.
  replace (acc ++ partition_canonical ((k, v) :: l))
    with ((acc ++ [(k, canonical_nan v)]) ++ partition_canonical l)
    by (by rewrite <- app_assoc).
  by apply IH.
Qed.

Lemma consumes_partition_fields n : forall acc previous,
  before acc previous ->
  consumes (dec_partition_fields n previous acc) (fun r i =>
    exists l, r = acc ++ l /\ length l = n /\ i = encode_partition_fields l /\
      partition_wf l /\ after previous l /\ partition_canonical l = l).
Proof.
  induction n as [|n IH]; intros acc previous Hb; cbn [dec_partition_fields].
  { apply consumes_ret. exists []. rewrite app_nil_r. split_and!; try done.
    - split; [constructor|done].
    - destruct previous; cbn; auto. }
  apply consumes_assoc. eapply consumes_bind; [apply consumes_u32|]. intros k i [-> Hk].
  apply consumes_guard. intros E. bool_to_prop.
  eapply consumes_bind; [apply consumes_typed_scalar|]. intros v i (-> & [Hv Hcn] & Hc).
  assert (match previous with Some p => p < k | None => True end) as Hp.
  { destruct previous; [lia|done]. }
  destruct (before_step acc previous k v Hb Hp) as [Hlt Hb'].
  rewrite keys_below_insert by done.
  eapply consumes_mono; [|by apply IH].
  intros r j (l & -> & Hl & -> & Hw & Hal & Hcl). exists ((k, v) :: l).
  assert (after previous ((k, v) :: l)) as Hpl.
  { destruct previous as [p|]; cbn; [|done]. constructor; [done|].
    eapply Forall_impl; [exact Hal|]. cbn. lia. }
  split_and!; try done.
  - by rewrite <- app_assoc.
  - cbn. by rewrite Hl.
  - by rewrite encode_fields_cons.
  - apply partition_wf_cons. unfold partition_entry, is_uint in *. cbn [fst snd].
    split_and!; try done; lia.
  - cbn. rewrite Hcn. f_equal. exact Hcl.
Qed.

Lemma partition_len l : len l <= len (encode_partition_tuple l).
Proof.
  unfold encode_partition_tuple. rewrite len_app.
  assert (0 <= len (enc_map_len (len l))) by apply len_nonneg.
  enough (len l <= len (encode_partition_fields l)) by (unfold encode_partition_fields in *; lia).
  clear. induction l as [|[k v] l IH]; [done|].
  rewrite encode_fields_cons, len_cons, !len_app. unfold encode_typed_scalar. rewrite len_app.
  pose proof (enc_array_nonempty 2). pose proof (len_nonneg (enc_unsigned k)).
  match goal with |- context [len (enc_array_len 2) + ?x] => assert (0 <= x) by apply len_nonneg end.
  lia.
Qed.

Lemma reads_partition_tuple l :
  partition_wf l -> len l < 2 ^ 63 ->
  reads dec_partition_tuple (encode_partition_tuple l) (partition_canonical l).
Proof.
  intros Hw Hl. unfold dec_partition_tuple, encode_partition_tuple.
  eapply reads_bind; [apply reads_length; [major_lit|by apply small_u64]|].
  replace (Z.to_nat (len l)) with (length l) by (unfold len; lia).
  by apply (reads_partition_fields l [] None).
Qed.

Lemma consumes_partition_tuple :
  consumes dec_partition_tuple (fun l i =>
    i = encode_partition_tuple l /\ partition_wf l /\ partition_canonical l = l).
Proof.
  eapply consumes_bind; [apply consumes_length|]. intros n i [-> Hn].
  eapply consumes_mono; [|by apply consumes_partition_fields].
  intros r j (l & -> & Hl & -> & Hw & _ & Hc). split; [|done].
  unfold encode_partition_tuple, encode_partition_fields, enc_map_len. cbn [app].
  f_equal. f_equal. unfold is_uint, len in *. lia.
Qed.

#[export] Instance typed_scalar_codec :
  Codec dec_typed_scalar encode_typed_scalar
    (fun v => scalar_read v /\ validate_scalar v = Ok tt).
Proof.
  split; [|apply consumes_typed_scalar].
  intros v [[Hw Hc] Hv]. pose proof (reads_typed_scalar v Hw Hv) as H. by rewrite Hc in H.
Qed.

Lemma codec_dec_all {A} (m : dec A) enc valid `{!Codec m enc valid} i a :
  len i < 2 ^ 63 -> dec_all m i = Ok a <-> enc a = i /\ valid a.
Proof.
  intros Hl. split.
  - intros E. by destruct (dec_all_consumes m _ i a Hl codec_consumes E) as [-> ?].
  - intros [<- Hv]. by apply dec_all_reads; [|apply codec_reads].
Qed.

(** ** Properties *)

(** a CBOR input decodes to a typed scalar exactly when the scalar has the
    ranges of its fields, passes [validate], carries no non-canonical NaN, and
    the input is its encoding; so the encoding of a scalar is unique. *)
Theorem typed_scalar_canonical (input : bytes) (v : scalar) (Hlen : len input < 2 ^ 63) :
  decode_typed_scalar input = Ok v <->
  encode_typed_scalar v = input /\ scalar_read v /\ validate_scalar v = Ok tt.
Proof. exact (codec_dec_all dec_typed_scalar _ _ input v Hlen). Qed.

Lemma typed_scalar_canonical_witness :
  decode_typed_scalar [Byte.x82; Byte.x02; Byte.x20] = Ok (TypedScalar.Int32 (-1)).
Proof.
  apply (typed_scalar_canonical [Byte.x82; Byte.x02; Byte.x20] (TypedScalar.Int32 (-1)));
    [reflexivity|]. split; [reflexivity|]. repeat split; vm_compute; congruence.
Defined.

(** Every valid scalar, NaN payloads included, decodes from its encoding,
    NaNs as the canonical quiet NaN. *)
Theorem typed_scalar_roundtrip (v : scalar) (Hwf : wf_scalar v)
    (Hvalid : validate_scalar v = Ok tt) (Hlen : len (encode_typed_scalar v) < 2 ^ 63) :
  decode_typed_scalar (encode_typed_scalar v) = Ok (canonical_nan v).
Proof. apply dec_all_reads; [done|by apply reads_typed_scalar]. Qed.

Lemma typed_scalar_roundtrip_witness :
  decode_typed_scalar (encode_typed_scalar (TypedScalar.Float32 0xffc00001))
  = Ok (TypedScalar.Float32 0x7fc00000).
Proof.
  apply (typed_scalar_roundtrip (TypedScalar.Float32 0xffc00001)); [|reflexivity..].
  split; vm_compute; congruence.
Defined.

(** a CBOR input decodes to a partition tuple exactly when the tuple maps
    positive, strictly increasing field identifiers to valid scalars and the
    input is its encoding. *)
Theorem partition_tuple_canonical (input : bytes) (l : list (Z * scalar))
    (Hlen : len input < 2 ^ 63) :
  decode_partition_tuple input = Ok l <->
  encode_partition_tuple l = input /\ partition_wf l /\ partition_canonical l = l.
Proof.
  split.
  - intros E. by destruct (dec_all_consumes _ _ _ _ Hlen consumes_partition_tuple E) as (-> & ? & ?).
  - intros (<- & Hw & Hc). apply dec_all_reads; [done|].
    rewrite <- Hc at 2. apply reads_partition_tuple; [done|].
    eapply Z.le_lt_trans; [|exact Hlen]. apply partition_len.
Qed.

Lemma partition_tuple_canonical_witness :
  decode_partition_tuple [Byte.xa1; Byte.x07; Byte.x82; Byte.x01; Byte.xf5]
  = Ok [(7, TypedScalar.Boolean true)].
Proof.
  apply (partition_tuple_canonical [Byte.xa1; Byte.x07; Byte.x82; Byte.x01; Byte.xf5]
           [(7, TypedScalar.Boolean true)]); [reflexivity|].
  split; [reflexivity|]. split; [|reflexivity]. split; [repeat constructor|].
  repeat constructor; vm_compute; congruence.
Defined.
