(* ===== verification/PageMap.v ===== *)
(** Page maps (otmp-protocol/src/page_map.rs): object references, the nodes of
    the copy-on-write page tree, their validation and their deterministic CBOR
    form. *)
From S2P Require Import Prelude Bytes Errors Values Scalars Cbor.

Definition PAGE_MAP_MEDIA_TYPE : string := "application/vnd.otmp.page-map+cbor".
Definition PAGE_PACK_MEDIA_TYPE : string := "application/vnd.otmp.page-pack".
Definition MAX_PAGE_MAP_BYTES : Z := 1024 * 1024.

(** ** Data *)

Record PageObjectReference := MkRef {
  ref_uri : RelativeUri; ref_sha256 : Sha256; ref_length : Z }.

Record PageMapRoot := MkRoot {
  root_uri : RelativeUri; root_sha256 : Sha256; root_length : Z; root_height : Z }.

Definition root_reference (r : PageMapRoot) : PageObjectReference :=
  MkRef (root_uri r) (root_sha256 r) (root_length r).

Module PageCodec.
Inductive t := None | Zstd.
#[global] Instance t_eq_dec : EqDecision t.
Proof. intros [] []; (left; reflexivity) || (right; discriminate). Defined.
End PageCodec.

Record PageMapEntry := MkEntry {
  e_page_number : Z; e_pack : PageObjectReference; e_offset : Z; e_stored_length : Z;
  e_raw_length : Z; e_codec : PageCodec.t; e_page_sha256 : Sha256 }.

Record PageMapBranch := MkBranch { b_max_page : Z; b_child : PageObjectReference }.

#[export] Instance ref_eq_dec : EqDecision PageObjectReference.
Proof. solve_decision. Defined.
#[export] Instance root_eq_dec : EqDecision PageMapRoot.
Proof. solve_decision. Defined.
#[export] Instance entry_eq_dec : EqDecision PageMapEntry.
Proof. solve_decision. Defined.
#[export] Instance branch_eq_dec : EqDecision PageMapBranch.
Proof. solve_decision. Defined.

Module PageMapNode.
Inductive t :=
| Leaf (entries : list PageMapEntry)
| Internal (level : Z) (entries : list PageMapBranch).

Definition level (n : t) : Z := match n with Leaf _ => 0 | Internal l _ => l end.

Definition max_page (n : t) : option Z :=
  match n with
  | Leaf entries => e_page_number <$> last entries
  | Internal _ entries => b_max_page <$> last entries
  end.

(** The closure [check] of [validate], which threads [previous]. *)
Definition check (previous page : Z) (reference : PageObjectReference) : presult Z :=
  if (page <=? previous) || (ref_length reference =? 0)
  then Err (invalid "invalid page-map ordering or reference length") else Ok page.

(** The payload range of an entry is refused. *)
Definition bad_range (e : PageMapEntry) : bool :=
  (e_stored_length e =? 0)
  || negb ((512 <=? e_raw_length e) && (e_raw_length e <=? 65536))
  || negb (is_power_of_two (e_raw_length e))
  || match checked_add 64 (e_offset e) (e_stored_length e) with
     | None => true
     | Some stop => ref_length (e_pack e) <? stop
     end
  || bool_decide (e_codec e = PageCodec.None) && negb (e_stored_length e =? e_raw_length e).

Definition validate_entry (previous : Z) (e : PageMapEntry) : presult Z :=
  previous ← check previous (e_page_number e) (e_pack e);
  _ ← reject (bad_range e) (invalid "invalid page-map payload range");
  Ok previous.

Definition validate_branch (previous : Z) (b : PageMapBranch) : presult Z :=
  check previous (b_max_page b) (b_child b).

Definition validate (n : t) : presult unit :=
  match n with
  | Leaf entries =>
    _ ← reject (len entries =? 0) (invalid "empty page-map node");
    _ ← try_fold validate_entry 0 entries;
    Ok tt
  | Internal level entries =>
    _ ← reject ((level =? 0) || (len entries =? 0))
          (invalid "invalid internal page-map level or count");
    _ ← try_fold validate_branch 0 entries;
    Ok tt
  end.
End PageMapNode.
Notation page_node := PageMapNode.t.

(** ** Encoding *)

Definition encode_ref (r : PageObjectReference) : bytes :=
  enc_map_len 3
  ++ enc_text "uri" ++ enc_text (uri_str (ref_uri r))
  ++ enc_text "length" ++ enc_unsigned (ref_length r)
  ++ enc_text "sha256" ++ enc_bytes (sha_bytes (ref_sha256 r)).

Definition codec_name (c : PageCodec.t) : string :=
  match c with PageCodec.None => "none" | PageCodec.Zstd => "zstd" end.

Definition encode_entry (e : PageMapEntry) : bytes :=
  enc_map_len 7
  ++ enc_text "pack" ++ encode_ref (e_pack e)
  ++ enc_text "codec" ++ enc_text (codec_name (e_codec e))
  ++ enc_text "offset" ++ enc_unsigned (e_offset e)
  ++ enc_text "raw_length" ++ enc_unsigned (e_raw_length e)
  ++ enc_text "page_number" ++ enc_unsigned (e_page_number e)
  ++ enc_text "page_sha256" ++ enc_bytes (sha_bytes (e_page_sha256 e))
  ++ enc_text "stored_length" ++ enc_unsigned (e_stored_length e).

Definition encode_branch (b : PageMapBranch) : bytes :=
  enc_map_len 2
  ++ enc_text "child" ++ encode_ref (b_child b)
  ++ enc_text "max_page" ++ enc_unsigned (b_max_page b).

Definition page_map_bytes (n : page_node) : bytes :=
  match n with
  | PageMapNode.Leaf entries =>
    enc_map_len 3
    ++ enc_text "entries" ++ enc_array_len (len entries) ++ enc_list encode_entry entries
    ++ enc_text "version" ++ enc_unsigned 1
    ++ enc_text "node_type" ++ enc_text "leaf"
  | PageMapNode.Internal level entries =>
    enc_map_len 4
    ++ enc_text "level" ++ enc_unsigned level
    ++ enc_text "entries" ++ enc_array_len (len entries) ++ enc_list encode_branch entries
    ++ enc_text "version" ++ enc_unsigned 1
    ++ enc_text "node_type" ++ enc_text "internal"
  end.

Definition encode_page_map (n : page_node) : presult bytes :=
  _ ← PageMapNode.validate n;
  let output := page_map_bytes n in
  _ ← reject (MAX_PAGE_MAP_BYTES <? len output) (invalid "page-map node exceeds 1 MiB");
  Ok output.

(** ** Decoding

    The helpers below are written once per node family in the code; [sub] is
    the name of the family in the error messages. *)

Definition node_key (sub expected : string) : dec unit :=
  s ← dec_text;
  dec_reject (negb (String.eqb s expected)) ("unexpected or noncanonical " +:+ sub +:+ " key").

Definition node_hash (sub : string) : dec Sha256 :=
  b ← dec_byte_string;
  b ← dec_lift (try_array 32 (sub +:+ " hash must be 32 raw bytes") b);
  mret (MkSha256 b).

Definition node_u32 (sub : string) : dec Z :=
  v ← dec_unsigned; dec_lift (ok_or (try_uint 32 v) (invalid (sub +:+ " integer overflow"))).

(** [decoder.text()?.parse()?] *)
Definition dec_uri : dec RelativeUri :=
  s ← dec_text; dec_lift (relative_uri_from_str s).

Definition node_reference (sub : string) : dec PageObjectReference :=
  n ← dec_length 5;
  _ ← dec_reject (negb (n =? 3)) ("invalid " +:+ sub +:+ " reference fields");
  _ ← node_key sub "uri";
  uri ← dec_uri;
  _ ← node_key sub "length";
  length ← dec_unsigned;
  _ ← node_key sub "sha256";
  sha256 ← node_hash sub;
  mret (MkRef uri sha256 length).

Definition key : string -> dec unit := node_key "page-map".
Definition hash : dec Sha256 := node_hash "page-map".
Definition reference : dec PageObjectReference := node_reference "page-map".
Definition uint32 : dec Z := node_u32 "page-map".

Definition dec_codec : dec PageCodec.t :=
  s ← dec_text;
  if String.eqb s "none" then mret PageCodec.None
  else if String.eqb s "zstd" then mret PageCodec.Zstd
  else dec_fail (invalid "unknown page codec").

Definition dec_entry : dec PageMapEntry :=
  n ← dec_length 5;
  _ ← dec_reject (negb (n =? 7)) "invalid page-map leaf fields";
  _ ← key "pack";
  pack ← reference;
  _ ← key "codec";
  codec ← dec_codec;
  _ ← key "offset";
  offset ← dec_unsigned;
  _ ← key "raw_length";
  raw_length ← uint32;
  _ ← key "page_number";
  page_number ← dec_unsigned;
  _ ← key "page_sha256";
  page_sha256 ← hash;
  _ ← key "stored_length";
  stored_length ← uint32;
  mret (MkEntry page_number pack offset stored_length raw_length codec page_sha256).

Definition dec_branch : dec PageMapBranch :=
  n ← dec_length 5;
  _ ← dec_reject (negb (n =? 2)) "invalid page-map branch fields";
  _ ← key "child";
  child ← reference;
  _ ← key "max_page";
  max_page ← dec_unsigned;
  mret (MkBranch max_page child).

(** The version and node type fields. *)
Definition dec_trailer (sub node_type : string) : dec unit :=
  _ ← node_key sub "version";
  version ← dec_unsigned;
  _ ← dec_reject (negb (version =? 1)) ("unsupported " +:+ sub +:+ " version");
  _ ← node_key sub "node_type";
  ty ← dec_text;
  dec_reject (negb (String.eqb ty node_type)) ("invalid " +:+ sub +:+ " node type").

(** [entries] and its count, bounded before any allocation. *)
Definition dec_count (input_len : Z) : dec Z :=
  _ ← key "entries";
  count ← dec_length 4;
  _ ← dec_reject ((count =? 0) || (input_len <? count)) "invalid page-map entry count";
  mret count.

Definition dec_level : dec Z := _ ← key "level"; uint32.

Definition dec_page_node (input_len : Z) : dec page_node :=
  fields ← dec_length 5;
  level ← (if fields =? 4 then dec_level
           else if fields =? 3 then mret 0
           else dec_fail (invalid "invalid page-map node fields"));
  count ← dec_count input_len;
  if fields =? 3 then
    entries ← dec_repeat (Z.to_nat count) dec_entry;
    _ ← dec_trailer "page-map" "leaf";
    mret (PageMapNode.Leaf entries)
  else
    entries ← dec_repeat (Z.to_nat count) dec_branch;
    _ ← dec_trailer "page-map" "internal";
    mret (PageMapNode.Internal level entries).

Definition decode_page_map (input : bytes) : presult page_node :=
  _ ← reject (MAX_PAGE_MAP_BYTES <? len input) (invalid "page-map node exceeds 1 MiB");
  node ← dec_all (dec_page_node (len input)) input;
  _ ← PageMapNode.validate node;
  Ok node.

(** ** The node decoder reads exactly what the encoder writes *)

Definition wf_uri (u : RelativeUri) : Prop :=
  relative_uri_from_str (uri_str u) = Ok u /\ is_utf8 (uri_str u) /\ str_len (uri_str u) < 2 ^ 63.
Definition wf_ref (r : PageObjectReference) : Prop :=
  wf_uri (ref_uri r) /\ wf_sha (ref_sha256 r) /\ is_u64 (ref_length r).
Definition wf_entry (e : PageMapEntry) : Prop :=
  wf_ref (e_pack e) /\ is_u64 (e_page_number e) /\ is_u64 (e_offset e) /\
  is_u32 (e_stored_length e) /\ is_u32 (e_raw_length e) /\ wf_sha (e_page_sha256 e).
Definition wf_branch (b : PageMapBranch) : Prop := wf_ref (b_child b) /\ is_u64 (b_max_page b).
(** The ranges of the Rust field types. *)
Definition wf_node (n : page_node) : Prop :=
  match n with
  | PageMapNode.Leaf entries => Forall wf_entry entries
  | PageMapNode.Internal level entries => is_u32 level /\ Forall wf_branch entries
  end.

Definition literal_ok (k : string) : bool := utf8_valid (as_bytes k) && (str_len k <? 2 ^ 63).

Lemma reads_literal (k : string) : literal_ok k = true -> reads dec_text (enc_text k) k.
Proof. unfold literal_ok. intros H. bool_to_prop. by apply reads_text. Qed.

Lemma reads_key {B} sub k (f : unit -> dec B) j b :
  literal_ok k = true -> reads (f tt) j b -> reads (node_key sub k ≫= f) (enc_text k ++ j) b.
Proof.
  intros Hk Hf. eapply reads_bind; [|exact Hf].
  eapply reads_bind_pure; [by apply reads_literal|]. apply reads_reject.
  by rewrite String.eqb_refl.
Qed.

Lemma consumes_key sub k : consumes (node_key sub k) (fun _ i => i = enc_text k).
Proof.
  unfold node_key. consumes_step. apply consumes_reject. intros E. bool_to_prop.
  apply String.eqb_eq in E as ->. by rewrite app_nil_r.
Qed.

#[export] Instance key_codec sub k (Hk : TCEq (literal_ok k) true) :
  Codec (node_key sub k) (fun _ => enc_text k) (fun _ => True).
Proof.
  split.
  - intros [] _. rewrite <- (app_nil_r (enc_text k)). apply TCEq_eq in Hk.
    eapply reads_bind; [by apply reads_literal|]. apply reads_reject. by rewrite String.eqb_refl.
  - eapply consumes_mono; [|apply consumes_key]. by intros [] i ->.
Qed.

#[export] Instance node_hash_codec sub :
  Codec (node_hash sub) (fun h => enc_bytes (sha_bytes h)) wf_sha.
Proof.
  split.
  - intros [b] Hb. unfold wf_sha in Hb. cbn [sha_bytes] in *.
    unfold node_hash. reads_item; [unfold len; rewrite Hb; reflexivity|]. eapply reads_skip; [by apply reads_try_array|].
    apply reads_ret.
  - unfold node_hash. repeat consumes_step.
    match goal with H : try_array _ _ _ = Ok _ |- _ => apply try_array_ok in H as [-> ?] end.
    by rewrite app_nil_r.
Qed.

#[export] Instance node_u32_codec sub : Codec (node_u32 sub) enc_unsigned is_u32.
Proof.
  split; [|apply consumes_u32]. intros v Hv. unfold node_u32. reads_item; [by apply u32_u64|].
  apply reads_lift. by rewrite try_uint_id.
Qed.

#[export] Instance uri_codec : Codec dec_uri (fun u => enc_text (uri_str u)) wf_uri.
Proof.
  split.
  - intros u (Hu & ? & ?). unfold dec_uri. reads_item; [done|]. by apply reads_lift.
  - unfold dec_uri. consumes_step. apply consumes_lift. intros u Hu.
    apply relative_uri_ok in Hu as Hs. destruct Hs as [Hs _].
    unfold wf_uri. rewrite Hs, app_nil_r. done.
Qed.

#[export] Instance node_reference_codec sub : Codec (node_reference sub) encode_ref wf_ref.
Proof.
  split.
  - intros [u h l] (Hu & Hh & Hl). cbn in Hu, Hh, Hl. unfold encode_ref, node_reference.
    cbn [ref_uri ref_sha256 ref_length].
    repeat first [reads_pure | apply reads_key; [reflexivity|] | reads_item; [done|]].
    apply reads_ret.
  - unfold node_reference. repeat consumes_step. unfold encode_ref, wf_ref. cbn.
    by rewrite app_nil_r.
Qed.

(** Reads a whole body: guards, keys, then items by their codecs. *)
Ltac reads_body :=
  repeat first [reads_pure | apply reads_key; [reflexivity|] | reads_item; [done|]].

#[export] Instance codec_codec : Codec dec_codec (fun c => enc_text (codec_name c)) (fun _ => True).
Proof.
  split.
  - intros c _. unfold dec_codec. destruct c; cbn [codec_name];
      (eapply reads_bind_pure; [by apply reads_literal|]); apply reads_ret.
  - unfold dec_codec. consumes_step.
    destruct (String.eqb_spec a "none") as [->|]; [|destruct (String.eqb_spec a "zstd") as [->|]];
      consumes_step; by rewrite app_nil_r.
Qed.

#[export] Instance dec_entry_codec : Codec dec_entry encode_entry wf_entry.
Proof.
  split.
  - intros e (? & ? & ? & ? & ? & ?). destruct e.
    unfold dec_entry, encode_entry, key, reference, uint32, hash.
    cbn [e_page_number e_pack e_offset e_stored_length e_raw_length e_codec e_page_sha256] in *.
    reads_body. apply reads_ret.
  - unfold dec_entry, key, reference, uint32, hash. repeat consumes_step.
    unfold encode_entry, wf_entry.
    cbn [e_page_number e_pack e_offset e_stored_length e_raw_length e_codec e_page_sha256].
    by rewrite app_nil_r.
Qed.

#[export] Instance dec_branch_codec : Codec dec_branch encode_branch wf_branch.
Proof.
  split.
  - intros b [? ?]. destruct b.
    unfold dec_branch, encode_branch, key, reference. cbn [b_max_page b_child] in *.
    reads_body. apply reads_ret.
  - unfold dec_branch, key, reference. repeat consumes_step.
    unfold encode_branch, wf_branch. cbn [b_max_page b_child]. by rewrite app_nil_r.
Qed.

Definition enc_trailer (ty : string) : bytes :=
  enc_text "version" ++ enc_unsigned 1 ++ enc_text "node_type" ++ enc_text ty.

#[export] Instance trailer_codec sub ty (Hty : TCEq (literal_ok ty) true) :
  Codec (dec_trailer sub ty) (fun _ => enc_trailer ty) (fun _ => True).
Proof.
  apply TCEq_eq in Hty. split.
  - intros [] _. unfold dec_trailer, enc_trailer.
    apply reads_key; [reflexivity|]. reads_item; [by split|]. reads_pure.
    apply reads_key; [reflexivity|]. eapply reads_bind_pure; [by apply reads_literal|].
    apply reads_reject. by rewrite String.eqb_refl.
  - unfold dec_trailer. repeat consumes_step.
    apply consumes_reject. intros E. bool_to_prop. apply String.eqb_eq in E as ->.
    unfold enc_trailer. by rewrite app_nil_r.
Qed.

#[export] Instance level_codec :
  Codec dec_level (fun l => enc_text "level" ++ enc_unsigned l) is_u32.
Proof.
  unfold dec_level, key, uint32. split.
  - intros l Hl. apply reads_key; [reflexivity|]. by apply codec_reads.
  - consumes_step. eapply consumes_mono; [|apply codec_consumes]. by intros l i [-> ?].
Qed.

#[export] Instance count_codec input_len :
  Codec (dec_count input_len) (fun n => enc_text "entries" ++ enc_array_len n)
    (fun n => is_u64 n /\ 0 < n <= input_len).
Proof.
  unfold dec_count, key. split.
  - intros n [Hn ?]. apply reads_key; [reflexivity|]. reads_item; [done|]. reads_pure. apply reads_ret.
  - repeat consumes_step. unfold is_uint in *. rewrite app_nil_r. split; [done|lia].
Qed.

Lemma enc_list_len {A} (enc : A -> bytes) l :
  (forall a, 0 < len (enc a)) -> len l <= len (enc_list enc l).
Proof.
  intros Hpos. induction l as [|a l IH]; [done|].
  rewrite enc_list_cons, len_app, len_cons. specialize (Hpos a). lia.
Qed.

(** The number of entries of a node. *)
Definition node_count (n : page_node) : Z :=
  match n with PageMapNode.Leaf es => len es | PageMapNode.Internal _ es => len es end.

#[export] Instance page_node_codec input_len :
  Codec (dec_page_node input_len) page_map_bytes
    (fun n => wf_node n /\ 0 < node_count n <= input_len /\ is_u64 (node_count n)).
Proof.
  unfold dec_page_node. split.
  - intros [es|l es] (Hw & Hc & Hu); cbn [node_count wf_node page_map_bytes] in *.
    + reads_item; [by split|]. cbn [Z.eqb Pos.eqb]. eapply reads_skip; [apply reads_ret|].
      rewrite (app_assoc (enc_text "entries")).
      reads_item; [by split|]. cbn [Z.eqb Pos.eqb].
      reads_item; [split; [unfold len; lia|done]|].
      eapply (reads_codec_last (HC := trailer_codec "page-map" "leaf" _) _ tt); [done|apply reads_ret].
    + destruct Hw as [Hl Hw]. reads_item; [by split|]. cbn [Z.eqb Pos.eqb].
      rewrite (app_assoc (enc_text "level")). reads_item; [done|].
      rewrite (app_assoc (enc_text "entries")).
      reads_item; [by split|]. reads_item; [split; [unfold len; lia|done]|].
      eapply (reads_codec_last (HC := trailer_codec "page-map" "internal" _) _ tt); [done|apply reads_ret].
  - assert (forall {A} (es : list A) n, is_u64 n -> length es = Z.to_nat n -> len es = n) as Hlen.
    { unfold is_uint, len. lia. }
    consumes_step.
    destruct (Z.eqb_spec a 4) as [->|]; [|destruct (Z.eqb_spec a 3) as [->|]];
      cbn [Z.eqb Pos.eqb]; repeat consumes_step;
      match goal with H : _ /\ Forall _ _ |- _ => destruct H as [Hl ?] end;
      match goal with H : is_u64 _ /\ _ |- _ => destruct H as [Hu ?] end;
      pose proof (Hlen _ _ _ Hu Hl) as He; subst; cbn [page_map_bytes wf_node node_count];
      rewrite app_nil_r; unfold enc_trailer; rewrite <- ?app_assoc; split_and!; (done || lia).
Qed.

(** ** What validation establishes *)

(** Strictly increasing above [previous]. *)
Definition increasing (previous : Z) (l : list Z) : Prop := StronglySorted Z.lt (previous :: l).

Lemma increasing_nil p : increasing p [].
Proof. repeat constructor. Qed.

Lemma increasing_cons p x l : increasing p (x :: l) <-> p < x /\ increasing x l.
Proof.
  unfold increasing. split.
  - intros [H Hf]%StronglySorted_inv. apply Forall_cons in Hf as [? _]. done.
  - intros [? H]. constructor; [done|]. constructor; [done|].
    apply StronglySorted_inv in H as [_ Hf]. eapply Forall_impl; [exact Hf|]. cbn. lia.
Qed.

Lemma increasing_above p l : increasing p l -> Forall (Z.lt p) l.
Proof. unfold increasing. by intros [_ ?]%StronglySorted_inv. Qed.

Definition range_ok (e : PageMapEntry) : Prop :=
  0 < ref_length (e_pack e) /\ PageMapNode.bad_range e = false.

Lemma check_ok p page r q :
  PageMapNode.check p page r = Ok q <-> q = page /\ p < page /\ ref_length r <> 0.
Proof.
  unfold PageMapNode.check. destruct (_ || _) eqn:E.
  - split; [done|]. intros (_ & ? & ?). lia.
  - bool_to_prop. split; [intros [= <-]|intros (-> & _)]; done.
Qed.

Lemma validate_entries_iff es : forall p,
  Forall wf_entry es ->
  is_ok (try_fold PageMapNode.validate_entry p es) = true <->
  increasing p (map e_page_number es) /\ Forall range_ok es.
Proof.
  induction es as [|e es IH]; intros p Hw; cbn [try_fold map].
  { split; [split; [apply increasing_nil|done]|done]. }
  apply Forall_cons in Hw as [[[_ [_ Hr]] _] Hw]. unfold is_uint in Hr.
  rewrite Forall_cons, increasing_cons.
  destruct (PageMapNode.validate_entry p e) as [q|] eqn:E; cbn.
  - unfold PageMapNode.validate_entry in E. inv_ok. apply check_ok in H as (-> & ? & ?).
    rewrite IH by done. unfold range_ok. split; [|naive_solver].
    intros [? ?]. split_and!; try done. lia.
  - split; [done|]. intros ((Hp & _) & (Hpos & Hb) & _). exfalso.
    unfold PageMapNode.validate_entry in E.
    rewrite (proj2 (check_ok p _ (e_pack e) (e_page_number e))) in E by (split_and!; [done|lia..]).
    cbn in E. by rewrite Hb in E.
Qed.

Lemma validate_branches_iff bs : forall p,
  is_ok (try_fold PageMapNode.validate_branch p bs) = true <->
  increasing p (map b_max_page bs) /\ Forall (fun b => ref_length (b_child b) <> 0) bs.
Proof.
  induction bs as [|b bs IH]; intros p; cbn [try_fold map].
  { split; [split; [apply increasing_nil|done]|done]. }
  rewrite Forall_cons, increasing_cons.
  destruct (PageMapNode.validate_branch p b) as [q|] eqn:E; cbn.
  - apply check_ok in E as (-> & ? & ?). rewrite IH. naive_solver.
  - split; [done|]. intros ((Hp & _) & ? & _). exfalso. unfold PageMapNode.validate_branch in E.
    by rewrite (proj2 (check_ok p _ (b_child b) (b_max_page b))) in E.
Qed.

(** The invariant of a page-map node. *)
Definition node_inv (n : page_node) : Prop :=
  match n with
  | PageMapNode.Leaf es => es <> [] /\ increasing 0 (map e_page_number es) /\ Forall range_ok es
  | PageMapNode.Internal l bs =>
    l <> 0 /\ bs <> [] /\ increasing 0 (map b_max_page bs) /\
    Forall (fun b => ref_length (b_child b) <> 0) bs
  end.

Lemma len_eqb_zero {A} (l : list A) : (len l =? 0) = false <-> l <> [].
Proof. destruct l; [done|]. rewrite len_cons. pose proof (len_nonneg l). split; [done|lia]. Qed.

Lemma is_ok_unit (m : presult Z) : (_ ← m; Ok tt) = Ok tt <-> is_ok m = true.
Proof. by destruct m. Qed.

Lemma validate_node_iff n : wf_node n -> PageMapNode.validate n = Ok tt <-> node_inv n.
Proof.
  intros Hw. destruct n as [es|l bs]; cbn [PageMapNode.validate node_inv wf_node] in *.
  - rewrite <- (validate_entries_iff es 0), <- len_eqb_zero by done.
    destruct (len es =? 0); cbn; [naive_solver|]. rewrite is_ok_unit. naive_solver.
  - rewrite <- (validate_branches_iff bs 0), <- len_eqb_zero.
    destruct (Z.eqb_spec l 0), (len bs =? 0); cbn; try naive_solver. rewrite is_ok_unit. naive_solver.
Qed.

Lemma encode_ref_nonempty r : 0 < len (encode_ref r).
Proof.
  unfold encode_ref. rewrite len_app. change (len (enc_map_len 3)) with 1.
  match goal with |- 0 < 1 + ?x => assert (0 <= x) by apply len_nonneg end. lia.
Qed.

Lemma encode_entry_nonempty e : 0 < len (encode_entry e).
Proof.
  unfold encode_entry. rewrite len_app. change (len (enc_map_len 7)) with 1.
  match goal with |- 0 < 1 + ?x => assert (0 <= x) by apply len_nonneg end. lia.
Qed.

Lemma encode_branch_nonempty b : 0 < len (encode_branch b).
Proof.
  unfold encode_branch. rewrite len_app. change (len (enc_map_len 2)) with 1.
  match goal with |- 0 < 1 + ?x => assert (0 <= x) by apply len_nonneg end. lia.
Qed.

Lemma node_count_bound n : node_count n <= len (page_map_bytes n).
Proof.
  destruct n as [es|l bs]; cbn [node_count page_map_bytes]; rewrite !len_app;
    repeat match goal with |- context [len ?x] =>
      lazymatch goal with H : 0 <= len x |- _ => fail | _ => pose proof (len_nonneg x) end end.
  - pose proof (enc_list_len encode_entry es encode_entry_nonempty). lia.
  - pose proof (enc_list_len encode_branch bs encode_branch_nonempty). lia.
Qed.

Lemma encode_page_map_ok n b :
  encode_page_map n = Ok b <->
  PageMapNode.validate n = Ok tt /\ b = page_map_bytes n /\ len b <= MAX_PAGE_MAP_BYTES.
Proof.
  unfold encode_page_map. split.
  - intros E. inv_ok. destruct x. bool_to_prop. done.
  - intros (-> & -> & Hl). cbn [mbind result_bind]. replace (_ <? _) with false by lia. done.
Qed.

Lemma decode_page_map_ok input n :
  decode_page_map input = Ok n <-> wf_node n /\ encode_page_map n = Ok input.
Proof.
  rewrite encode_page_map_ok. unfold decode_page_map. split.
  - intros E. inv_ok. destruct x1. bool_to_prop.
    assert (len input < 2 ^ 63) as Hl by (unfold MAX_PAGE_MAP_BYTES in *; lia).
    by apply (codec_dec_all (dec_page_node (len input)) _ _ _ _ Hl) in H0 as (<- & Hw & _).
  - intros (Hw & Hv & -> & Hl). replace (_ <? _) with false by lia. cbn [mbind result_bind reject].
    rewrite (proj2 (codec_dec_all (dec_page_node _) _ _ (page_map_bytes n) n
      ltac:(unfold MAX_PAGE_MAP_BYTES in *; lia))); [cbn; by rewrite Hv|].
    split; [done|]. split; [done|]. pose proof (node_count_bound n).
    enough (0 < node_count n) by (unfold is_uint, MAX_PAGE_MAP_BYTES in *; lia).
    apply validate_node_iff in Hv; [|done].
    destruct n as [es|l bs]; cbn [node_inv node_count] in *;
      [destruct Hv as [Hne _]|destruct Hv as (_ & Hne & _)];
      match goal with |- 0 < len ?l => destruct l; [done|] end; rewrite len_cons;
      match goal with |- 0 < 1 + ?x => assert (0 <= x) by apply len_nonneg end; lia.
Qed.

(** ** Properties *)

(** C40: a byte string decodes to a page-map node exactly when it is what
    [encode_page_map] writes for that node, so nodes and their bytes (at most 1 MiB) correspond one to one. *)
Theorem page_map_codec (input : bytes) (n : page_node) :
  decode_page_map input = Ok n <-> wf_node n /\ encode_page_map n = Ok input.
Proof. apply decode_page_map_ok. Qed.

(** A decoded page-map node satisfies the node invariant: it is not empty,
    its keys are positive and strictly increasing, every payload range lies in
    its pack, raw lengths are page sizes, an uncompressed page is stored in
    full, an internal node has a positive level, and every reference has a
    positive length. *)
Theorem page_map_node_inv (input : bytes) (n : page_node) (Hdec : decode_page_map input = Ok n) :
  wf_node n /\ node_inv n.
Proof.
  apply decode_page_map_ok in Hdec as [Hw (Hv & _)%encode_page_map_ok].
  by apply validate_node_iff in Hv.
Qed.

Definition example_ref : PageObjectReference :=
  MkRef (MkUri "_otmp/p") (MkSha256 (repeat Byte.x01 32)) 512.
Definition example_leaf : page_node :=
  PageMapNode.Leaf [MkEntry 3 example_ref 0 512 512 PageCodec.None (MkSha256 (repeat Byte.x02 32))].

Lemma page_map_node_inv_witness :
  exists input, decode_page_map input = Ok example_leaf /\ node_inv example_leaf.
Proof.
  eexists. assert (decode_page_map (page_map_bytes example_leaf) = Ok example_leaf) as H
    by (vm_compute; reflexivity).
  split; [exact H|]. apply (page_map_node_inv (page_map_bytes example_leaf) example_leaf H).
Defined.
