(* ===== verification/CheckpointIndex.v ===== *)
(** Checkpoint page indexes (otmp-protocol/src/checkpoint_index.rs): the nodes
    of the authenticated tree over the pages of a checkpoint, their validation
    and their deterministic CBOR form. *)
From S2P Require Import Prelude Bytes Errors Values Scalars Cbor PageMap.

Definition CHECKPOINT_INDEX_CAPACITY : Z := 128.
Definition MAX_CHECKPOINT_INDEX_BYTES : Z := 1024 * 1024.

Record CheckpointIndexChild := MkChild {
  c_first_page : Z; c_page_count : Z; c_child : PageObjectReference }.
#[export] Instance child_eq_dec : EqDecision CheckpointIndexChild.
Proof. solve_decision. Defined.

Module CheckpointIndexNode.
Inductive t :=
| Leaf (first_page : Z) (hashes : list Sha256)
| Internal (level : Z) (entries : list CheckpointIndexChild).

Definition level (n : t) : Z := match n with Leaf _ _ => 0 | Internal l _ => l end.

Definition first_page (n : t) : Z :=
  match n with
  | Leaf p _ => p
  | Internal _ es => match es with [] => 0 | e :: _ => c_first_page e end
  end.

(** The sum does not overflow on a validated node, whose intervals are adjacent. *)
Definition page_count (n : t) : Z :=
  match n with
  | Leaf _ hs => len hs
  | Internal _ es => foldr Z.add 0 (map c_page_count es)
  end.

Definition validate_child (expected : option Z) (e : CheckpointIndexChild) : presult (option Z) :=
  _ ← reject ((c_first_page e =? 0) || (c_page_count e =? 0) || (ref_length (c_child e) =? 0)
              || (MAX_CHECKPOINT_INDEX_BYTES <? ref_length (c_child e))
              || match expected with Some p => negb (p =? c_first_page e) | None => false end)
        (invalid "noncontiguous checkpoint-index interval or reference");
  next ← ok_or (checked_add 64 (c_first_page e) (c_page_count e))
           (invalid "checkpoint-index interval overflow");
  Ok (Some next).

Definition validate (n : t) : presult unit :=
  match n with
  | Leaf first_page hashes =>
    _ ← reject ((first_page =? 0) || (len hashes =? 0) || (CHECKPOINT_INDEX_CAPACITY <? len hashes))
          (invalid "invalid checkpoint-index leaf interval");
    _ ← ok_or (checked_add 64 first_page (len hashes - 1))
          (invalid "checkpoint-index leaf interval overflow");
    Ok tt
  | Internal level entries =>
    _ ← reject ((level =? 0) || (len entries =? 0) || (CHECKPOINT_INDEX_CAPACITY <? len entries))
          (invalid "invalid checkpoint-index internal level or count");
    _ ← try_fold validate_child None entries;
    Ok tt
  end.
End CheckpointIndexNode.
Notation index_node := CheckpointIndexNode.t.

(** ** Encoding *)

Definition encode_hash (h : Sha256) : bytes := enc_bytes (sha_bytes h).

Definition encode_child (e : CheckpointIndexChild) : bytes :=
  enc_map_len 3
  ++ enc_text "child" ++ encode_ref (c_child e)
  ++ enc_text "page_count" ++ enc_unsigned (c_page_count e)
  ++ enc_text "first_page" ++ enc_unsigned (c_first_page e).

Definition checkpoint_index_bytes (n : index_node) : bytes :=
  match n with
  | CheckpointIndexNode.Leaf first_page hashes =>
    enc_map_len 4
    ++ enc_text "hashes" ++ enc_array_len (len hashes) ++ enc_list encode_hash hashes
    ++ enc_text "version" ++ enc_unsigned 1
    ++ enc_text "node_type" ++ enc_text "leaf"
    ++ enc_text "first_page" ++ enc_unsigned first_page
  | CheckpointIndexNode.Internal level entries =>
    enc_map_len 4
    ++ enc_text "level" ++ enc_unsigned level
    ++ enc_text "entries" ++ enc_array_len (len entries) ++ enc_list encode_child entries
    ++ enc_text "version" ++ enc_unsigned 1
    ++ enc_text "node_type" ++ enc_text "internal"
  end.

Definition encode_checkpoint_index (n : index_node) : presult bytes :=
  _ ← CheckpointIndexNode.validate n;
  let output := checkpoint_index_bytes n in
  _ ← reject (MAX_CHECKPOINT_INDEX_BYTES <? len output)
        (invalid "checkpoint-index node exceeds 1 MiB");
  Ok output.

(** ** Decoding *)

Definition ci_key : string -> dec unit := node_key "checkpoint-index".
Definition ci_hash : dec Sha256 := node_hash "checkpoint-index".
Definition ci_reference : dec PageObjectReference := node_reference "checkpoint-index".
Definition ci_u32 : dec Z := node_u32 "checkpoint-index".

Definition ci_count (kind : string) (input_len : Z) : dec Z :=
  count ← dec_length 4;
  _ ← dec_reject ((count =? 0) || (CHECKPOINT_INDEX_CAPACITY <? count) || (input_len <? count))
        ("invalid checkpoint-index " +:+ kind +:+ " count");
  mret count.

Definition dec_child : dec CheckpointIndexChild :=
  n ← dec_length 5;
  _ ← dec_reject (negb (n =? 3)) "invalid checkpoint-index child fields";
  _ ← ci_key "child";
  child ← ci_reference;
  _ ← ci_key "page_count";
  page_count ← dec_unsigned;
  _ ← ci_key "first_page";
  first_page ← dec_unsigned;
  mret (MkChild first_page page_count child).

Definition dec_index_node (input_len : Z) : dec index_node :=
  fields ← dec_length 5;
  _ ← dec_reject (negb (fields =? 4)) "invalid checkpoint-index node fields";
  first_key ← dec_text;
  if String.eqb first_key "hashes" then
    count ← ci_count "leaf" input_len;
    hashes ← dec_repeat (Z.to_nat count) ci_hash;
    _ ← dec_trailer "checkpoint-index" "leaf";
    _ ← ci_key "first_page";
    first_page ← dec_unsigned;
    mret (CheckpointIndexNode.Leaf first_page hashes)
  else if String.eqb first_key "level" then
    level ← ci_u32;
    _ ← ci_key "entries";
    count ← ci_count "internal" input_len;
    entries ← dec_repeat (Z.to_nat count) dec_child;
    _ ← dec_trailer "checkpoint-index" "internal";
    mret (CheckpointIndexNode.Internal level entries)
  else dec_fail (invalid "unexpected or noncanonical checkpoint-index key").

Definition decode_checkpoint_index (input : bytes) : presult index_node :=
  _ ← reject (MAX_CHECKPOINT_INDEX_BYTES <? len input)
        (invalid "checkpoint-index node exceeds 1 MiB");
  node ← dec_all (dec_index_node (len input)) input;
  _ ← CheckpointIndexNode.validate node;
  Ok node.

(** ** The decoder reads exactly what the encoder writes *)

Definition wf_child (e : CheckpointIndexChild) : Prop :=
  wf_ref (c_child e) /\ is_u64 (c_page_count e) /\ is_u64 (c_first_page e).
(** The ranges of the Rust field types. *)
Definition wf_index_node (n : index_node) : Prop :=
  match n with
  | CheckpointIndexNode.Leaf p hs => is_u64 p /\ Forall wf_sha hs
  | CheckpointIndexNode.Internal l es => is_u32 l /\ Forall wf_child es
  end.

#[export] Instance ci_hash_codec : Codec ci_hash encode_hash wf_sha.
Proof. apply node_hash_codec. Qed.
#[export] Instance ci_u32_codec : Codec ci_u32 enc_unsigned is_u32.
Proof. apply node_u32_codec. Qed.

#[export] Instance dec_child_codec : Codec dec_child encode_child wf_child.
Proof.
  split.
  - intros e (? & ? & ?). destruct e. unfold dec_child, encode_child, ci_key, ci_reference.
    cbn [c_child c_page_count c_first_page] in *. reads_body. apply reads_ret.
  - unfold dec_child, ci_key, ci_reference. repeat consumes_step.
    unfold encode_child, wf_child. cbn [c_child c_page_count c_first_page]. by rewrite app_nil_r.
Qed.

#[export] Instance ci_count_codec kind input_len :
  Codec (ci_count kind input_len) enc_array_len
    (fun n => is_u64 n /\ 0 < n <= CHECKPOINT_INDEX_CAPACITY /\ n <= input_len).
Proof.
  unfold ci_count. split.
  - intros n (Hn & ? & ?). reads_item; [done|]. reads_pure. apply reads_ret.
  - repeat consumes_step. unfold is_uint in *. rewrite app_nil_r. split; [done|lia].
Qed.

Definition index_count (n : index_node) : Z :=
  match n with
  | CheckpointIndexNode.Leaf _ hs => len hs
  | CheckpointIndexNode.Internal _ es => len es
  end.

#[export] Instance index_node_codec input_len :
  Codec (dec_index_node input_len) checkpoint_index_bytes
    (fun n => wf_index_node n /\ is_u64 (index_count n) /\
              0 < index_count n <= CHECKPOINT_INDEX_CAPACITY /\ index_count n <= input_len).
Proof.
  unfold dec_index_node, ci_key. split.
  - intros [p hs|l es] ([? ?] & Hc & Hu); cbn [index_count checkpoint_index_bytes] in *.
    + reads_item; [done|]. reads_pure. eapply reads_bind; [by apply reads_literal|].
      cbn [String.eqb Ascii.eqb Bool.eqb].
      reads_item; [done|]. reads_item; [split; [unfold len; lia|done]|].
      rewrite (app_assoc (enc_text "node_type")), (app_assoc (enc_unsigned 1)),
        (app_assoc (enc_text "version")).
      eapply (reads_codec (HC := trailer_codec "checkpoint-index" "leaf" _) _ _ tt); [done|].
      reads_body. apply reads_ret.
    + reads_item; [done|]. reads_pure. eapply reads_bind; [by apply reads_literal|].
      cbn [String.eqb Ascii.eqb Bool.eqb].
      reads_item; [done|]. apply reads_key; [reflexivity|].
      reads_item; [done|]. reads_item; [split; [unfold len; lia|done]|].
      eapply (reads_codec_last (HC := trailer_codec "checkpoint-index" "internal" _) _ tt);
        [done|apply reads_ret].
  - assert (forall {A} (es : list A) n, is_u64 n -> length es = Z.to_nat n -> len es = n) as Hlen.
    { unfold is_uint, len. lia. }
    repeat consumes_step.
    match goal with |- context [String.eqb ?s _] => rename s into k end.
    destruct (String.eqb_spec k "hashes") as [->|]; [|destruct (String.eqb_spec k "level") as [->|]];
      repeat consumes_step;
      match goal with H : _ /\ Forall _ _ |- _ => destruct H as [Hl ?] end;
      match goal with H : is_u64 _ /\ _ /\ _ |- _ => destruct H as [Hu ?] end;
      pose proof (Hlen _ _ _ Hu Hl) as He; subst;
      cbn [checkpoint_index_bytes wf_index_node index_count];
      rewrite app_nil_r; unfold enc_trailer; rewrite <- ?app_assoc; split_and!; (done || lia).
Qed.

(** ** What validation establishes *)

(** The intervals of the entries follow one another from page [p]. *)
Fixpoint adjacent (p : Z) (es : list CheckpointIndexChild) : Prop :=
  match es with
  | [] => True
  | e :: es => c_first_page e = p /\ 0 < c_page_count e /\ adjacent (p + c_page_count e) es
  end.

Definition child_ref_ok (e : CheckpointIndexChild) : Prop :=
  0 < ref_length (c_child e) <= MAX_CHECKPOINT_INDEX_BYTES.

Definition index_node_inv (n : index_node) : Prop :=
  0 < CheckpointIndexNode.first_page n /\
  0 < index_count n <= CHECKPOINT_INDEX_CAPACITY /\
  match n with
  | CheckpointIndexNode.Leaf p hs => p + len hs <= 2 ^ 64
  | CheckpointIndexNode.Internal l es =>
    l <> 0 /\ adjacent (CheckpointIndexNode.first_page n) es /\ Forall child_ref_ok es /\
    CheckpointIndexNode.first_page n + CheckpointIndexNode.page_count n < 2 ^ 64
  end.

Definition page_sum (es : list CheckpointIndexChild) : Z := foldr Z.add 0 (map c_page_count es).

Lemma page_sum_nonneg es : Forall wf_child es -> 0 <= page_sum es.
Proof.
  unfold page_sum. induction 1 as [|e es (? & [? ?] & ?) _ IH]; cbn; lia.
Qed.

Lemma adjacent_start p q es : es <> [] -> adjacent p es -> adjacent q es -> p = q.
Proof. destruct es; [done|]. cbn. naive_solver. Qed.

Lemma validate_child_ok expected e r :
  wf_child e ->
  CheckpointIndexNode.validate_child expected e = Ok r <->
  r = Some (c_first_page e + c_page_count e) /\
  0 < c_first_page e /\ 0 < c_page_count e /\ child_ref_ok e /\
  c_first_page e + c_page_count e < 2 ^ 64 /\
  match expected with Some p => c_first_page e = p | None => True end.
Proof.
  intros ((_ & _ & [Hl _]) & [Hc _] & [Hp _]). unfold CheckpointIndexNode.validate_child, child_ref_ok.
  split.
  - intros E. inv_ok. bool_to_prop. apply try_uint_some in H0 as [-> [? ?]].
    split_and!; try (done || lia). destruct expected; [|done]. by bool_to_prop.
  - intros (-> & ? & ? & [? ?] & ? & He). unfold checked_add.
    rewrite try_uint_id by (unfold is_uint; lia).
    replace (_ || _ || _ || _ || _) with false; [done|].
    symmetry. rewrite !orb_false_iff. split_and!; try lia. destruct expected; [subst; lia|done].
Qed.

Lemma validate_children_iff es : forall expected, Forall wf_child es ->
  is_ok (try_fold CheckpointIndexNode.validate_child expected es) = true <->
  Forall child_ref_ok es /\
  match es with
  | [] => True
  | e :: _ =>
    0 < c_first_page e /\ adjacent (c_first_page e) es /\ c_first_page e + page_sum es < 2 ^ 64 /\
    match expected with Some p => c_first_page e = p | None => True end
  end.
Proof.
  induction es as [|e es IH]; intros expected Hw; cbn [try_fold]; [done|].
  apply Forall_cons in Hw as [He Hw]. pose proof (page_sum_nonneg es Hw) as Hs.
  rewrite Forall_cons. unfold page_sum in *; cbn [map foldr adjacent] in *.
  destruct (CheckpointIndexNode.validate_child expected e) as [r|] eqn:E; cbn.
  - apply validate_child_ok in E as (-> & ? & ? & ? & ? & ?); [|done]. rewrite IH by done.
    destruct es as [|e' es]; cbn [map foldr adjacent] in *.
    + cbn in *. split; [|naive_solver]. intros _. split_and!; try done. lia.
    + split.
      * intros (? & ? & (_ & ? & ?) & ? & Heq). rewrite <- Heq. split_and!; (done || lia).
      * intros ([_ Hr] & _ & (_ & _ & Heq & ? & Ha) & ? & _). rewrite Heq.
        split_and!; try done; try lia.
  - split; [done|]. intros ([Hr _] & ? & (_ & ? & _) & ? & Hx). exfalso.
    rewrite (proj2 (validate_child_ok expected e (Some (c_first_page e + c_page_count e)) He)) in E;
      [done|]. split_and!; try done. lia.
Qed.

Lemma is_ok_unit' {A} (m : presult A) : (_ ← m; Ok tt) = Ok tt <-> is_ok m = true.
Proof. by destruct m. Qed.

Lemma validate_index_iff n :
  wf_index_node n -> CheckpointIndexNode.validate n = Ok tt <-> index_node_inv n.
Proof.
  unfold index_node_inv. destruct n as [p hs|l es]; intros [Hp Hw];
    cbn [CheckpointIndexNode.validate CheckpointIndexNode.first_page index_count].
  - pose proof (len_nonneg hs). unfold is_uint in Hp. split.
    + intros E. inv_ok. bool_to_prop. apply try_uint_some in H1 as [_ [? ?]].
      unfold CHECKPOINT_INDEX_CAPACITY in *. lia.
    + intros (? & [? ?] & ?). unfold checked_add. rewrite try_uint_id by (unfold is_uint; lia).
      unfold CHECKPOINT_INDEX_CAPACITY in *.
      replace (_ || _ || _) with false; [done|]. symmetry. rewrite !orb_false_iff. lia.
  - pose proof (len_nonneg es). pose proof (validate_children_iff es None Hw) as Hv.
    unfold CheckpointIndexNode.page_count. fold (page_sum es) in *.
    destruct ((l =? 0) || (len es =? 0) || (CHECKPOINT_INDEX_CAPACITY <? len es)) eqn:E.
    + split; [done|]. intros (_ & [? ?] & ? & _). rewrite !orb_true_iff in E. lia.
    + bool_to_prop. cbn [reject mbind result_bind]. fold (try_fold CheckpointIndexNode.validate_child).
      change (_ ≫= _) with (_ ← try_fold CheckpointIndexNode.validate_child None es; Ok tt).
      rewrite is_ok_unit', Hv. destruct es as [|e es]; [rewrite len_nil in *; lia|].
      split; [intros (? & ? & ? & ? & _)|intros (? & ? & ? & ? & ? & ?)]; split_and!; (done || lia).
Qed.

(** The bytes hold an item per entry, after a non-empty head. *)
Lemma index_count_bound n : index_count n <= len (checkpoint_index_bytes n).
Proof.
  assert (forall h, 0 < len (encode_hash h)) as Hh.
  { intros h. unfold encode_hash, enc_bytes, major. rewrite len_app.
    pose proof (len_nonneg (sha_bytes h)).
    repeat case_match; rewrite len_cons;
      match goal with |- context [len ?x] => pose proof (len_nonneg x) end; lia. }
  assert (forall c, 0 < len (encode_child c)) as Hc.
  { intros c. unfold encode_child. rewrite len_app. change (len (enc_map_len 3)) with 1.
    match goal with |- 0 < 1 + ?x => assert (0 <= x) by apply len_nonneg end. lia. }
  destruct n as [p hs|l es]; cbn [index_count checkpoint_index_bytes]; rewrite !len_app;
    repeat match goal with |- context [len ?x] =>
      lazymatch goal with H : 0 <= len x |- _ => fail | _ => pose proof (len_nonneg x) end end.
  - pose proof (enc_list_len encode_hash hs Hh). lia.
  - pose proof (enc_list_len encode_child es Hc). lia.
Qed.

Lemma encode_checkpoint_index_ok n b :
  encode_checkpoint_index n = Ok b <->
  CheckpointIndexNode.validate n = Ok tt /\ b = checkpoint_index_bytes n /\
  len b <= MAX_CHECKPOINT_INDEX_BYTES.
Proof.
  unfold encode_checkpoint_index. split.
  - intros E. inv_ok. destruct x. bool_to_prop. done.
  - intros (-> & -> & Hl). cbn [mbind result_bind]. replace (_ <? _) with false by lia. done.
Qed.

Lemma decode_checkpoint_index_ok input n :
  decode_checkpoint_index input = Ok n <-> wf_index_node n /\ encode_checkpoint_index n = Ok input.
Proof.
  rewrite encode_checkpoint_index_ok. unfold decode_checkpoint_index. split.
  - intros E. inv_ok. destruct x1. bool_to_prop.
    assert (len input < 2 ^ 63) as Hl by (unfold MAX_CHECKPOINT_INDEX_BYTES in *; lia).
    by apply (codec_dec_all (dec_index_node (len input)) _ _ _ _ Hl) in H0 as (<- & Hw & _).
  - intros (Hw & Hv & -> & Hl). replace (_ <? _) with false by lia. cbn [mbind result_bind reject].
    rewrite (proj2 (codec_dec_all (dec_index_node _) _ _ (checkpoint_index_bytes n) n
      ltac:(unfold MAX_CHECKPOINT_INDEX_BYTES in *; lia))); [cbn; by rewrite Hv|].
    split; [done|]. split; [done|]. pose proof (index_count_bound n).
    apply validate_index_iff in Hv as (_ & [? ?] & _); [|done].
    unfold is_uint, CHECKPOINT_INDEX_CAPACITY in *. lia.
Qed.

(** ** Properties *)

(** a byte string decodes to a checkpoint-index node exactly when it is
    what [encode_checkpoint_index] writes for that node; the node then has at
    most 128 entries and covers one interval of pages: its children are
    adjacent, and the interval does not exceed the 64-bit page numbers. *)
Theorem checkpoint_index_codec (input : bytes) (n : index_node) :
  decode_checkpoint_index input = Ok n <->
  wf_index_node n /\ index_node_inv n /\ input = checkpoint_index_bytes n /\
  len input <= MAX_CHECKPOINT_INDEX_BYTES.
Proof.
  rewrite decode_checkpoint_index_ok, encode_checkpoint_index_ok.
  split; intros (Hw & H & ? & ?); apply validate_index_iff in H; done.
Qed.
