(* ===== verification/PagePack.v ===== *)
(** Page packs (otmp-protocol/src/page_pack.rs): the header and index of a
    pack, their decoding, and the encoder that writes a whole pack. *)
From S2P Require Import Prelude Bytes Errors Values Scalars Cbor PageMap.

Definition pack_invalid (message : string) : perror := ProtocolError.InvalidObject message.

(** ** Data *)

Record PackIndexEntry := MkPackEntry {
  p_page_number : Z; p_offset : Z; p_stored_length : Z; p_raw_length : Z;
  p_codec : PageCodec.t; p_page_sha256 : Sha256 }.

Record PackIndex := MkPackIndex { pi_page_size : Z; pi_entries : list PackIndexEntry }.

Record PackHeader := MkPackHeader {
  ph_page_size : Z; ph_entry_count : Z; ph_index_offset : Z; ph_payload_offset : Z }.

#[export] Instance pack_entry_eq_dec : EqDecision PackIndexEntry.
Proof. solve_decision. Defined.

(** ** Decoding *)

(** [number::<N>(bytes, start)] *)
Definition number (n : Z) (b : bytes) (start : Z) : presult bytes :=
  stop ← ok_or (checked_add 64 start n) (pack_invalid "pack offset overflow");
  ok_or (slice b start stop) (pack_invalid "truncated pack").

(** [uN::from_be_bytes(number(bytes, start)?)] *)
Definition be_number (n : Z) (b : bytes) (start : Z) : presult Z :=
  x ← number n b start; Ok (be_val x).

(** [b[s..e]] for [e <= b.len()] *)
Definition sub (s e : nat) (b : bytes) : bytes := take (e - s) (drop s b).

Definition pack_magic : bytes := as_bytes "OTMPPGPK".
Definition pack_version : bytes :=
  [Byte.x00; Byte.x01; Byte.x00; Byte.x00; Byte.x00; Byte.x00; Byte.x00; Byte.x00].
Definition nonzero (b : byte) : bool := negb (byte_eqb b Byte.x00).

Definition valid_page_size (page_size : Z) : bool :=
  ((512 <=? page_size) && (page_size <=? 65536)) && is_power_of_two page_size.

Definition decode_pack_header (header : bytes) (full_length : Z) : presult PackHeader :=
  _ ← reject (negb (len header =? 64)
              || negb (bool_decide (sub 0 8 header = pack_magic))
              || negb (bool_decide (sub 8 16 header = pack_version))
              || existsb nonzero (sub 40 64 header))
        (pack_invalid "invalid page-pack header");
  page_size ← be_number 4 header 16;
  _ ← reject (negb (valid_page_size page_size)) (pack_invalid "invalid pack page size");
  entry_count ← be_number 4 header 20;
  index_offset ← be_number 8 header 24;
  payload_offset ← be_number 8 header 32;
  index_bytes ← ok_or (checked_mul 64 entry_count 64) (pack_invalid "pack index overflow");
  index_end ← ok_or (checked_add 64 index_offset index_bytes) (pack_invalid "pack index overflow");
  _ ← reject ((entry_count =? 0) || (index_offset <? 64) || (payload_offset <? index_end)
              || (full_length <? payload_offset))
        (pack_invalid "invalid pack index bounds");
  Ok (MkPackHeader page_size entry_count index_offset payload_offset).

Definition codec_of_byte (b : byte) : presult PageCodec.t :=
  if byte_eqb b Byte.x00 then Ok PageCodec.None
  else if byte_eqb b Byte.x01 then Ok PageCodec.Zstd
  else Err (pack_invalid "unsupported pack codec").

(** One iteration of the entry loop: the state is [previous], [ranges] and
    [entries]. Indexing is in bounds: the index has 64 bytes per entry. *)
Definition pack_state : Type := Z * list (Z * Z) * list PackIndexEntry.
Definition pack_step (header : PackHeader) (index_bytes : bytes) (full_length : Z)
    (st : pack_state) (i : Z) : presult pack_state :=
  let '(previous, ranges, entries) := st in
  let start := i * 64 in
  page_number ← be_number 8 index_bytes start;
  offset ← be_number 8 index_bytes (start + 8);
  stored_length ← be_number 4 index_bytes (start + 16);
  raw_length ← be_number 4 index_bytes (start + 20);
  codec ← codec_of_byte (nth (Z.to_nat (start + 24)) index_bytes Byte.x00);
  _ ← reject ((page_number <=? previous)
              || existsb nonzero (sub (Z.to_nat (start + 25)) (Z.to_nat (start + 32)) index_bytes)
              || negb (raw_length =? ph_page_size header)
              || (stored_length =? 0)
              || (offset <? ph_payload_offset header)
              || match checked_add 64 offset stored_length with
                 | None => true
                 | Some stop => full_length <? stop
                 end
              || bool_decide (codec = PageCodec.None) && negb (stored_length =? raw_length))
        (pack_invalid "invalid pack entry");
  page_sha256 ← number 32 index_bytes (start + 32);
  Ok (page_number, ranges ++ [(offset, offset + stored_length)],
      entries ++ [MkPackEntry page_number offset stored_length raw_length codec
                    (MkSha256 page_sha256)]).

(** The lexicographic order of [(u64, u64)]. *)
Definition range_le (a b : Z * Z) : Prop := a.1 < b.1 \/ a.1 = b.1 /\ a.2 <= b.2.
#[export] Instance range_le_dec : RelDecision range_le.
Proof. intros a b. unfold range_le. apply _. Defined.

(** [windows(2).any(|pair| pair[0].1 > pair[1].0)] *)
Fixpoint overlapping (l : list (Z * Z)) : bool :=
  match l with
  | a :: ((b :: _) as l') => (b.1 <? a.2) || overlapping l'
  | _ => false
  end.

Definition decode_pack_index_parts (header index_bytes : bytes) (full_length : Z)
  : presult PackIndex :=
  header ← decode_pack_header header full_length;
  let count := ph_entry_count header in
  size ← ok_or (checked_mul 64 count 64) (pack_invalid "pack index overflow");
  _ ← reject (negb (len index_bytes =? size)) (pack_invalid "truncated pack index");
  '(_, ranges, entries) ←
    try_fold (pack_step header index_bytes full_length) (0, [], []) (seqZ 0 count);
  _ ← reject (overlapping (merge_sort range_le ranges)) (pack_invalid "overlapping pack payloads");
  Ok (MkPackIndex (ph_page_size header) entries).

Definition decode_pack_index (b : bytes) : presult PackIndex :=
  first ← ok_or (slice b 0 64) (pack_invalid "truncated pack");
  header ← decode_pack_header first (len b);
  start ← ok_or (try_uint 64 (ph_index_offset header)) (pack_invalid "pack index overflow");
  stop ← ok_or (checked_add 64 start (ph_entry_count header * 64)) (pack_invalid "pack index overflow");
  index_bytes ← ok_or (slice b start stop) (pack_invalid "truncated pack index");
  decode_pack_index_parts (sub 0 64 b) index_bytes (len b).

(** ** Encoding *)

(** [b[off..off + data.len()].copy_from_slice(data)] *)
Definition write_at (off : Z) (data b : bytes) : bytes :=
  take (Z.to_nat off) b ++ data ++ drop (Z.to_nat (off + len data)) b.

Section encode.
Context `{Sha2Crate}.

(** The writes of the [i]-th page: its index record and its payload. *)
Definition encode_pack_page (page_size payload : Z) (b : bytes) (ip : Z * (Z * bytes)) : bytes :=
  let '(i, (page_number, page)) := ip in
  let start := 64 + 64 * i in
  let offset := payload + i * page_size in
  let b := write_at start (be_bytes 8 page_number) b in
  let b := write_at (start + 8) (be_bytes 8 offset) b in
  let b := write_at (start + 16) (be_bytes 4 page_size) b in
  let b := write_at (start + 20) (be_bytes 4 page_size) b in
  let b := write_at (start + 32) (sha_bytes (digest page)) b in
  write_at offset page b.

Definition enumerate {A} (l : list A) : list (Z * A) := zip (seqZ 0 (len l)) l.

Definition encode_page_pack (page_size : Z) (pages : list (Z * bytes)) : presult bytes :=
  _ ← reject ((len pages =? 0) || negb (valid_page_size page_size)
              || match pages with (n, _) :: _ => n =? 0 | [] => false end
              || existsb (fun p => negb (len p.2 =? page_size)) pages)
        (pack_invalid "invalid pages for page pack");
  count ← ok_or (try_uint 32 (len pages)) (pack_invalid "too many pack entries");
  payload ← ok_or (n ← checked_mul 64 (len pages) 64; checked_add 64 n 64)
              (pack_invalid "pack size overflow");
  total ← ok_or (n ← checked_mul 64 (len pages) page_size; checked_add 64 n payload)
            (pack_invalid "pack size overflow");
  let b := repeat Byte.x00 (Z.to_nat total) in
  let b := write_at 0 pack_magic b in
  let b := write_at 8 (be_bytes 2 1) b in
  let b := write_at 16 (be_bytes 4 page_size) b in
  let b := write_at 20 (be_bytes 4 count) b in
  let b := write_at 24 (be_bytes 8 64) b in
  let b := write_at 32 (be_bytes 8 payload) b in
  Ok (fold_left (encode_pack_page page_size payload) (enumerate pages) b).
End encode.

(** ** The layout the encoder produces *)

Definition zeros (n : Z) : bytes := repeat Byte.x00 (Z.to_nat n).

Lemma zeros_len n : 0 <= n -> len (zeros n) = n.
Proof. intros. unfold zeros, len. rewrite repeat_length. lia. Qed.

Lemma zeros_add m n : 0 <= m -> 0 <= n -> zeros (m + n) = zeros m ++ zeros n.
Proof. intros. unfold zeros. by rewrite Z2Nat.inj_add, repeat_app by lia. Qed.

Lemma write_here d z c : len z = len d -> write_at 0 d (z ++ c) = d ++ c.
Proof.
  intros E. unfold write_at.
  replace (Z.to_nat (0 + len d)) with (length z) by (unfold len in *; lia).
  by rewrite drop_app_length.
Qed.

Lemma write_after off n k d a b :
  off = n + k -> len a = n -> 0 <= k -> write_at off d (a ++ b) = a ++ write_at k d b.
Proof.
  intros -> <- Hk. unfold write_at, len.
  replace (Z.to_nat (Z.of_nat (length a) + k)) with (length a + Z.to_nat k)%nat by lia.
  replace (Z.to_nat (Z.of_nat (length a) + k + Z.of_nat (length d)))
    with (length a + Z.to_nat (k + Z.of_nat (length d)))%nat by lia.
  by rewrite take_app_add, drop_app_add, <- app_assoc.
Qed.

Lemma number_here n (m c : bytes) : len m = n -> n < 2 ^ 64 -> number n (m ++ c) 0 = Ok m.
Proof.
  intros <- Hn. unfold number, checked_add. pose proof (len_nonneg m).
  rewrite try_uint_id by (unfold is_uint; lia).
  cbn [mbind result_bind ok_or]. by rewrite (slice_app [] m c).
Qed.

Lemma number_last n (m : bytes) : len m = n -> n < 2 ^ 64 -> number n m 0 = Ok m.
Proof. intros. rewrite <- (app_nil_r m) at 1. by apply number_here. Qed.

Lemma slice_after {A} (a b : list A) s e n :
  len a = n -> n <= s -> slice (a ++ b) s e = slice b (s - n) (e - n).
Proof.
  intros <- Hs. unfold slice. rewrite len_app. pose proof (len_nonneg a).
  replace (0 <=? s) with true by lia. replace (0 <=? s - len a) with true by lia.
  replace (s - len a <=? e - len a) with (s <=? e) by lia.
  replace (e - len a <=? len b) with (e <=? len a + len b) by lia.
  destruct (_ && _); [|done]. replace (e - len a - (s - len a)) with (e - s) by lia.
  do 2 f_equal. unfold len in *.
  replace (Z.to_nat s) with (length a + Z.to_nat (s - Z.of_nat (length a)))%nat by lia.
  apply drop_app_add.
Qed.

Lemma number_after off n k m a b :
  off = m + k -> len a = m -> 0 <= k -> 0 <= n -> off + n < 2 ^ 64 ->
  number n (a ++ b) off = number n b k.
Proof.
  intros -> Ha Hk Hn Hlt. unfold number, checked_add. pose proof (len_nonneg a).
  rewrite !try_uint_id by (unfold is_uint; lia). cbn [mbind result_bind ok_or].
  rewrite (slice_after a b _ _ m) by (done || lia). f_equal. f_equal; lia.
Qed.

Section layout.
Context `{Sha2Crate}.

Definition pack_header_bytes (page_size count payload : Z) : bytes :=
  pack_magic ++ be_bytes 2 1 ++ zeros 6 ++ be_bytes 4 page_size ++ be_bytes 4 count
  ++ be_bytes 8 64 ++ be_bytes 8 payload ++ zeros 24.

Definition pack_record (page_size payload i : Z) (p : Z * bytes) : bytes :=
  be_bytes 8 p.1 ++ be_bytes 8 (payload + i * page_size) ++ be_bytes 4 page_size
  ++ be_bytes 4 page_size ++ zeros 8 ++ sha_bytes (digest p.2).

Fixpoint pack_records (page_size payload i : Z) (pages : list (Z * bytes)) : bytes :=
  match pages with
  | [] => []
  | p :: pages => pack_record page_size payload i p ++ pack_records page_size payload (i + 1) pages
  end.

Lemma digest_len b : len (sha_bytes (digest b)) = 32.
Proof. unfold len. by rewrite (wf_digest b). Qed.

Lemma record_len ps pl i p : len (pack_record ps pl i p) = 64.
Proof. unfold pack_record. rewrite !len_app, !be_bytes_len, digest_len. reflexivity. Qed.

Lemma records_len ps pl pages : forall i, len (pack_records ps pl i pages) = 64 * len pages.
Proof.
  induction pages as [|p pages IH]; intros i; cbn [pack_records]; [done|].
  rewrite len_app, record_len, IH, len_cons. lia.
Qed.

Lemma header_len ps c pl : len (pack_header_bytes ps c pl) = 64.
Proof. unfold pack_header_bytes. rewrite !len_app, !be_bytes_len. reflexivity. Qed.

(** Solves [len piece = n] for the pieces of a record. *)
Ltac piece := first [reflexivity | by rewrite be_bytes_len | by rewrite be_bytes_len, zeros_len | lia].

Lemma encode_header ps c pl rest :
  write_at 32 (be_bytes 8 pl) (write_at 24 (be_bytes 8 64) (write_at 20 (be_bytes 4 c)
    (write_at 16 (be_bytes 4 ps) (write_at 8 (be_bytes 2 1) (write_at 0 pack_magic
      (zeros 64 ++ rest)))))) = pack_header_bytes ps c pl ++ rest.
Proof.
  change (zeros 64) with (zeros 8 ++ zeros 2 ++ zeros 6 ++ zeros 4 ++ zeros 4 ++ zeros 8
    ++ zeros 8 ++ zeros 24). unfold pack_header_bytes. rewrite <- !app_assoc.
  rewrite write_here by piece.
  rewrite (write_after 8 8 0), write_here by piece.
  rewrite (write_after 16 8 8), (write_after 8 2 6), (write_after 6 6 0), write_here by piece.
  rewrite (write_after 20 8 12), (write_after 12 2 10), (write_after 10 6 4),
    (write_after 4 4 0), write_here by piece.
  rewrite (write_after 24 8 16), (write_after 16 2 14), (write_after 14 6 8),
    (write_after 8 4 4), (write_after 4 4 0), write_here by piece.
  by rewrite (write_after 32 8 24), (write_after 24 2 22), (write_after 22 6 16),
    (write_after 16 4 12), (write_after 12 4 8), (write_after 8 8 0), write_here by piece.
Qed.

Lemma encode_one ps pl i n page A B C :
  0 <= i -> len A = 64 + 64 * i -> len page = ps -> pl + i * ps = len A + 64 + len B ->
  encode_pack_page ps pl (A ++ zeros 64 ++ B ++ zeros ps ++ C) (i, (n, page))
  = A ++ pack_record ps pl i (n, page) ++ B ++ page ++ C.
Proof.
  intros Hi HA Hp Ho. pose proof (len_nonneg B). pose proof (len_nonneg page).
  unfold encode_pack_page, pack_record. cbn [fst snd].
  change (zeros 64) with (zeros 8 ++ zeros 8 ++ zeros 4 ++ zeros 4 ++ zeros 8 ++ zeros 32).
  rewrite <- !app_assoc.
  rewrite (write_after (64 + 64 * i) (len A) 0), write_here by piece.
  rewrite (write_after (64 + 64 * i + 8) (len A) 8), (write_after 8 8 0), write_here by piece.
  rewrite (write_after (64 + 64 * i + 16) (len A) 16), (write_after 16 8 8), (write_after 8 8 0),
    write_here by piece.
  rewrite (write_after (64 + 64 * i + 20) (len A) 20), (write_after 20 8 12), (write_after 12 8 4),
    (write_after 4 4 0), write_here by piece.
  rewrite (write_after (64 + 64 * i + 32) (len A) 32), (write_after 32 8 24), (write_after 24 8 16),
    (write_after 16 4 12), (write_after 12 4 8), (write_after 8 8 0),
    write_here by first [piece | by rewrite digest_len].
  rewrite (write_after (pl + i * ps) (len A) (64 + len B)), (write_after (64 + len B) 8 (56 + len B)),
    (write_after (56 + len B) 8 (48 + len B)), (write_after (48 + len B) 4 (44 + len B)),
    (write_after (44 + len B) 4 (40 + len B)), (write_after (40 + len B) 8 (32 + len B)),
    (write_after (32 + len B) 32 (len B)), (write_after (len B) (len B) 0), write_here
    by first [piece | apply digest_len | rewrite zeros_len by lia; lia].
  done.
Qed.

Lemma seqZ_step i n : 0 < n -> seqZ i n = i :: seqZ (i + 1) (n - 1).
Proof. intros. rewrite seqZ_cons by lia. by rewrite <- Z.add_1_r, <- Z.sub_1_r. Qed.

Lemma encode_pages ps pl pages : forall i A R D,
  0 <= ps -> 0 <= i -> len A = 64 -> len R = 64 * i -> len D = i * ps ->
  pl = 64 + 64 * (i + len pages) -> Forall (fun p => len p.2 = ps) pages ->
  fold_left (encode_pack_page ps pl) (zip (seqZ i (len pages)) pages)
    (A ++ R ++ zeros (64 * len pages) ++ D ++ zeros (ps * len pages))
  = A ++ R ++ pack_records ps pl i pages ++ D ++ concat (map snd pages).
Proof.
  induction pages as [|[n page] pages IH]; intros i A R D Hps Hi HA HR HD Hpl Hall.
  { rewrite len_nil, !Z.mul_0_r. cbn. done. }
  apply Forall_cons in Hall as [Hp Hall]. cbn [snd] in Hp.
  rewrite len_cons in *. pose proof (len_nonneg pages).
  rewrite (seqZ_step i (1 + len pages)) by lia. replace (1 + len pages - 1) with (len pages) by lia.
  cbn [zip zip_with fold_left].
  replace (64 * (1 + len pages)) with (64 + 64 * len pages) by lia.
  replace (ps * (1 + len pages)) with (ps + ps * len pages) by lia.
  rewrite !zeros_add by nia.
  pose proof (encode_one ps pl i n page (A ++ R) (zeros (64 * len pages) ++ D)
    (zeros (ps * len pages))) as E. rewrite <- !app_assoc in E. rewrite <- !app_assoc.
  rewrite E by (rewrite ?len_app, ?zeros_len; lia). clear E.
  specialize (IH (i + 1) A (R ++ pack_record ps pl i (n, page)) (D ++ page)).
  rewrite <- !app_assoc in IH. rewrite IH by (rewrite ?len_app, ?record_len; (done || lia)).
  cbn [pack_records map concat snd]. by rewrite <- !app_assoc.
Qed.

Definition pack_bytes (ps : Z) (pages : list (Z * bytes)) : bytes :=
  pack_header_bytes ps (len pages) (64 + 64 * len pages)
  ++ pack_records ps (64 + 64 * len pages) 0 pages ++ concat (map snd pages).

(** What [encode_page_pack] accepts. *)
Definition pages_ok (ps : Z) (pages : list (Z * bytes)) : Prop :=
  0 < len pages < 2 ^ 32 /\ valid_page_size ps = true /\
  match pages with (n, _) :: _ => n <> 0 | [] => True end /\
  Forall (fun p => len p.2 = ps) pages.

Lemma valid_page_size_range ps : valid_page_size ps = true -> 512 <= ps <= 65536.
Proof. unfold valid_page_size. intros. bool_to_prop. lia. Qed.

Lemma existsb_false_Forall {A} (f : A -> bool) l :
  existsb f l = false <-> Forall (fun x => f x = false) l.
Proof.
  induction l as [|a l IH]; cbn; [done|]. by rewrite orb_false_iff, Forall_cons, IH.
Qed.

Lemma encode_page_pack_ok ps pages b :
  encode_page_pack ps pages = Ok b <-> pages_ok ps pages /\ b = pack_bytes ps pages.
Proof.
  unfold encode_page_pack. pose proof (len_nonneg pages). unfold pages_ok.
  destruct (_ || _ || _ || _) eqn:E.
  { split; [done|]. intros ((Hl & Hps & Hf & Hall) & _). exfalso.
    rewrite !orb_true_iff in E. destruct E as [[[E|E]|E]|E].
    - lia.
    - by rewrite Hps in E.
    - destruct pages as [|[n p] pages]; [done|]. by apply Z.eqb_eq in E.
    - apply not_false_iff_true in E. apply E. apply existsb_false_Forall.
      eapply Forall_impl; [exact Hall|]. cbn. intros p ->. by rewrite Z.eqb_refl. }
  bool_to_prop. pose proof (valid_page_size_range ps ltac:(done)) as Hr.
  match goal with H : existsb _ _ = false |- _ => apply existsb_false_Forall in H; rename H into Hx end.
  assert (Forall (fun p : Z * bytes => len p.2 = ps) pages) as Hall.
  { eapply Forall_impl; [exact Hx|]. cbn. intros p Hp. by bool_to_prop. }
  assert (match pages with (n, _) :: _ => n <> 0 | [] => True end) as Hfirst.
  { destruct pages as [|[n p] pages]; [done|]. by bool_to_prop. }
  cbn [reject mbind result_bind]. destruct (decide (is_uint 32 (len pages))) as [Hu|Hu].
  2:{ unfold try_uint at 1. rewrite decide_False by done. cbn. unfold is_uint in *.
      split; [done|]. intros ((Hl & _) & _). lia. }
  rewrite try_uint_id by done. unfold checked_mul, checked_add, is_uint in *. cbn [ok_or].
  rewrite (try_uint_id 64 (len pages * 64)) by (unfold is_uint; lia). cbn [mbind option_bind].
  rewrite (try_uint_id 64 (len pages * 64 + 64)) by (unfold is_uint; lia).
  cbn [ok_or mbind result_bind].
  rewrite (try_uint_id 64 (len pages * ps)) by (unfold is_uint; nia). cbn [mbind option_bind].
  rewrite try_uint_id by (unfold is_uint; nia). cbn [ok_or mbind result_bind].
  assert (len pages <> 0) by done.
  match goal with |- Ok ?x = Ok b <-> _ => assert (x = pack_bytes ps pages) as -> end.
  { replace (repeat Byte.x00 _) with (zeros 64 ++ zeros (64 * len pages) ++ zeros (ps * len pages)).
    2:{ rewrite <- !zeros_add by nia. unfold zeros. do 2 f_equal. lia. }
    rewrite encode_header.
    pose proof (encode_pages ps (64 + 64 * len pages) pages 0
      (pack_header_bytes ps (len pages) (64 + 64 * len pages)) [] []) as E. cbn [app] in E.
    replace (len pages * 64 + 64) with (64 + 64 * len pages) by lia.
    unfold enumerate, pack_bytes. apply E; try done; try lia. }
  split; [intros [= <-]|intros [_ ->]]; [|done]. split; [|done]. split_and!; (done || lia).
Qed.

(** *** Decoding that layout *)

Lemma be_number_here (n : nat) v c :
  0 <= v < 256 ^ Z.of_nat n -> Z.of_nat n < 2 ^ 64 -> be_number (Z.of_nat n) (be_bytes n v ++ c) 0 = Ok v.
Proof.
  intros Hv Hn. unfold be_number. rewrite number_here by (done || apply be_bytes_len). cbn.
  by rewrite be_val_bytes.
Qed.

Lemma be_number_after off n k m a b :
  off = m + k -> len a = m -> 0 <= k -> 0 <= n -> off + n < 2 ^ 64 ->
  be_number n (a ++ b) off = be_number n b k.
Proof. intros. unfold be_number. by rewrite (number_after off n k m). Qed.

Lemma sub_here (m c : bytes) n : len m = Z.of_nat n -> sub 0 n (m ++ c) = m.
Proof.
  intros E. unfold sub. rewrite Nat.sub_0_r, drop_0.
  replace n with (length m) by (unfold len in E; lia). by rewrite take_app_length.
Qed.

Lemma sub_after s e k (a b : bytes) :
  len a = Z.of_nat k -> (k <= s)%nat -> sub s e (a ++ b) = sub (s - k) (e - k) b.
Proof.
  intros E Hk. assert (length a = k) as <- by (unfold len in E; lia). unfold sub.
  replace s with (length a + (s - length a))%nat at 2 by lia. rewrite drop_app_add.
  f_equal. lia.
Qed.

Lemma decode_header ps n pl total :
  valid_page_size ps = true -> 0 < n < 2 ^ 32 -> pl = 64 + 64 * n -> pl <= total ->
  decode_pack_header (pack_header_bytes ps n pl) total = Ok (MkPackHeader ps n 64 pl).
Proof.
  intros Hps Hn Hpl Ht. pose proof (valid_page_size_range ps Hps).
  assert (sub 0 8 (pack_header_bytes ps n pl) = pack_magic) as E1 by (by apply sub_here).
  assert (sub 8 16 (pack_header_bytes ps n pl) = pack_version) as E2.
  { unfold pack_header_bytes. rewrite (sub_after 8 16 8) by (reflexivity || lia).
    rewrite (app_assoc (be_bytes 2 1)). by apply (sub_here pack_version _ 8). }
  assert (existsb nonzero (sub 40 64 (pack_header_bytes ps n pl)) = false) as E3.
  { unfold pack_header_bytes. rewrite (sub_after 40 64 8), (sub_after _ _ 2), (sub_after _ _ 6),
      (sub_after _ _ 4), (sub_after _ _ 4), (sub_after _ _ 8), (sub_after _ _ 8)
      by first [reflexivity | by rewrite be_bytes_len | lia]. reflexivity. }
  unfold decode_pack_header.
  rewrite header_len, (bool_decide_eq_true_2 _ E1), (bool_decide_eq_true_2 _ E2), E3.
  change (negb (64 =? 64) || negb true || negb true || false) with false.
  cbn [reject mbind result_bind]. unfold pack_header_bytes.
  rewrite (be_number_after 16 4 8 8), (be_number_after 8 4 6 2), (be_number_after 6 4 0 6) by piece.
  rewrite (be_number_here 4) by (unfold is_uint; lia). cbn [reject mbind result_bind].
  rewrite Hps. cbn [negb reject mbind result_bind].
  rewrite (be_number_after 20 4 12 8), (be_number_after 12 4 10 2), (be_number_after 10 4 4 6),
    (be_number_after 4 4 0 4) by piece.
  rewrite (be_number_here 4) by lia. cbn [mbind result_bind].
  rewrite (be_number_after 24 8 16 8), (be_number_after 16 8 14 2), (be_number_after 14 8 8 6),
    (be_number_after 8 8 4 4), (be_number_after 4 8 0 4) by piece.
  rewrite (be_number_here 8) by lia. cbn [mbind result_bind].
  rewrite (be_number_after 32 8 24 8), (be_number_after 24 8 22 2), (be_number_after 22 8 16 6),
    (be_number_after 16 8 12 4), (be_number_after 12 8 8 4), (be_number_after 8 8 0 8) by piece.
  rewrite (be_number_here 8) by lia. cbn [mbind result_bind].
  unfold checked_mul, checked_add.
  rewrite try_uint_id by (unfold is_uint; lia). cbn [ok_or mbind result_bind].
  rewrite try_uint_id by (unfold is_uint; lia). cbn [ok_or mbind result_bind].
  replace (_ || _ || _ || _) with false; [done|]. symmetry. rewrite !orb_false_iff. lia.
Qed.

Definition pack_entry (ps pl i : Z) (p : Z * bytes) : PackIndexEntry :=
  MkPackEntry p.1 (pl + i * ps) ps ps PageCodec.None (digest p.2).

Fixpoint pack_entries (ps pl i : Z) (pages : list (Z * bytes)) : list PackIndexEntry :=
  match pages with
  | [] => []
  | p :: pages => pack_entry ps pl i p :: pack_entries ps pl (i + 1) pages
  end.

Definition entry_range (e : PackIndexEntry) : Z * Z := (p_offset e, p_offset e + p_stored_length e).

(** One record, anywhere in the index. *)
Lemma decode_record ps count pl total i n page A C previous ranges entries :
  valid_page_size ps = true -> 0 <= i -> len A = 64 * i -> i * 64 + 64 < 2 ^ 64 ->
  previous < n -> is_u64 n -> 0 <= pl -> pl + i * ps + ps <= total -> total < 2 ^ 63 ->
  pack_step (MkPackHeader ps count 64 pl) (A ++ pack_record ps pl i (n, page) ++ C) total
    (previous, ranges, entries) i
  = Ok (n, ranges ++ [entry_range (pack_entry ps pl i (n, page))],
        entries ++ [pack_entry ps pl i (n, page)]).
Proof.
  intros Hps Hi HA Hbig Hprev Hn Hpl Htot Hmax. pose proof (valid_page_size_range ps Hps).
  unfold is_uint in Hn. pose proof (digest_len page) as Hd.
  unfold pack_step, pack_record. cbn [fst snd ph_page_size ph_payload_offset].
  rewrite <- !app_assoc.
  rewrite (be_number_after (i * 64) 8 0 (64 * i)) by lia.
  rewrite (be_number_here 8) by lia. cbn [mbind result_bind].
  rewrite (be_number_after (i * 64 + 8) 8 8 (64 * i)), (be_number_after 8 8 0 8) by piece.
  rewrite (be_number_here 8) by lia. cbn [mbind result_bind].
  rewrite (be_number_after (i * 64 + 16) 4 16 (64 * i)), (be_number_after 16 4 8 8),
    (be_number_after 8 4 0 8) by piece.
  rewrite (be_number_here 4) by lia. cbn [mbind result_bind].
  rewrite (be_number_after (i * 64 + 20) 4 20 (64 * i)), (be_number_after 20 4 12 8),
    (be_number_after 12 4 4 8), (be_number_after 4 4 0 4) by piece.
  rewrite (be_number_here 4) by lia. cbn [mbind result_bind].
  assert (forall k j, (k < 8)%nat ->
    nth (Z.to_nat (i * 64 + 24) + k) (A ++ be_bytes 8 n ++ be_bytes 8 (pl + i * ps) ++ be_bytes 4 ps
      ++ be_bytes 4 ps ++ zeros 8 ++ j) Byte.x00 = Byte.x00) as Hz.
  { intros k j Hk. replace (Z.to_nat (i * 64 + 24) + k)%nat with (length A + (24 + k))%nat
      by (unfold len in HA; lia). rewrite app_nth2_plus.
    rewrite !app_assoc, <- (app_assoc _ (zeros 8)). rewrite app_nth2; rewrite !length_app, !be_bytes_length; [|lia].
    replace (24 + k - _)%nat with k by lia. do 8 (destruct k as [|k]; [done|]). lia. }
  pose proof (Hz 0%nat (sha_bytes (digest page) ++ C) ltac:(lia)) as Hz0. rewrite Nat.add_0_r in Hz0.
  rewrite Hz0. clear Hz Hz0. cbn [mbind result_bind codec_of_byte]. change (codec_of_byte Byte.x00) with (@Ok perror _ PageCodec.None).
  cbn [mbind result_bind].
  assert (Z.to_nat (i * 64 + 25) = (length A + 25)%nat /\ Z.to_nat (i * 64 + 32) = (length A + 32)%nat) as [-> ->]
    by (unfold len in HA; lia).
  rewrite (sub_after _ _ (length A)) by (done || lia).
  replace (length A + 25 - length A)%nat with 25%nat by lia.
  replace (length A + 32 - length A)%nat with 32%nat by lia.
  rewrite (sub_after _ _ 8), (sub_after _ _ 8), (sub_after _ _ 4), (sub_after _ _ 4)
    by (by rewrite be_bytes_len || lia).
  change (25 - 8 - 8 - 4 - 4)%nat with 1%nat. change (32 - 8 - 8 - 4 - 4)%nat with 8%nat.
  change (sub 1 8 (zeros 8 ++ ?x)) with (zeros 7).
  unfold checked_add. rewrite try_uint_id by (unfold is_uint; lia).
  rewrite Z.eqb_refl. change (existsb nonzero (sub 1 8 (zeros 8 ++ sha_bytes (digest page) ++ C))) with false.
  replace (_ || _ || _ || _ || _ || _ || _) with false.
  2:{ symmetry. rewrite !orb_false_iff, andb_false_r. split_and!; (done || lia). }
  cbn [reject mbind result_bind].
  rewrite (number_after (i * 64 + 32) 32 32 (64 * i)), (number_after 32 32 24 8),
    (number_after 24 32 16 8), (number_after 16 32 12 4), (number_after 12 32 8 4),
    (number_after 8 32 0 8) by piece.
  rewrite number_here by done. cbn [mbind result_bind]. reflexivity.
Qed.

Lemma decode_records ps count pl total pages : forall i A previous ranges entries,
  valid_page_size ps = true -> 0 <= i -> len A = 64 * i -> (i + len pages) * 64 < 2 ^ 64 ->
  bt_sorted pages -> Forall (fun p => previous < p.1) pages -> Forall (fun p => is_u64 p.1) pages ->
  0 <= pl -> pl + (i + len pages) * ps <= total -> total < 2 ^ 63 ->
  exists previous',
  try_fold (pack_step (MkPackHeader ps count 64 pl) (A ++ pack_records ps pl i pages) total)
    (previous, ranges, entries) (seqZ i (len pages))
  = Ok (previous', ranges ++ map entry_range (pack_entries ps pl i pages),
        entries ++ pack_entries ps pl i pages).
Proof.
  induction pages as [|[n page] pages IH];
    intros i A previous ranges entries Hps Hi HA Hbig Hsort Hprev Hu Hpl Htot Hmax.
  { exists previous. cbn. by rewrite !app_nil_r. }
  apply bt_sorted_cons in Hsort as [Habove Hsort].
  apply Forall_cons in Hprev as [Hp Hprev]. apply Forall_cons in Hu as [Hn Hu]. cbn [fst] in *.
  rewrite len_cons in *. pose proof (len_nonneg pages). pose proof (valid_page_size_range ps Hps).
  rewrite (seqZ_step i (1 + len pages)) by lia. replace (1 + len pages - 1) with (len pages) by lia.
  cbn [try_fold pack_records]. rewrite decode_record by (done || nia). cbn [mbind result_bind].
  rewrite (app_assoc A).
  destruct (IH (i + 1) (A ++ pack_record ps pl i (n, page)) n
    (ranges ++ [entry_range (pack_entry ps pl i (n, page))])
    (entries ++ [pack_entry ps pl i (n, page)])) as [previous' E].
  - done.
  - lia.
  - rewrite len_app, record_len. lia.
  - lia.
  - done.
  - rewrite Forall_fmap in Habove. eapply Forall_impl; [exact Habove|]. by intros p Hlt%Z.compare_lt_iff.
  - done.
  - done.
  - lia.
  - done.
  - exists previous'. rewrite E. cbn [pack_entries map]. by rewrite <- !app_assoc.
Qed.

(** *** Sorted ranges *)

#[local] Instance range_le_trans : Transitive range_le.
Proof. intros [a b] [c d] [e f]. unfold range_le. cbn. lia. Qed.
#[local] Instance range_le_antisym : AntiSymm (=) range_le.
Proof. intros [a b] [c d]. unfold range_le. cbn. intros. f_equal; lia. Qed.
#[local] Instance range_le_total : Total range_le.
Proof. intros [a b] [c d]. unfold range_le. cbn. lia. Qed.

Lemma merge_sort_sorted l : StronglySorted range_le l -> merge_sort range_le l = l.
Proof.
  intros Hl. apply (StronglySorted_unique range_le); [apply (StronglySorted_merge_sort range_le)|done|].
  apply merge_sort_Permutation.
Qed.

(** Ranges that do not overlap their successor are pairwise ordered. *)
Lemma overlapping_false l :
  Forall (fun r => r.1 <= r.2) l ->
  overlapping l = false <-> StronglySorted (fun a b => a.2 <= b.1) l.
Proof.
  induction l as [|a l IH]; intros Hf; [split; [constructor|done]|].
  apply Forall_cons in Hf as [Ha Hf]. destruct l as [|b l].
  { split; [repeat constructor|done]. }
  cbn [overlapping]. rewrite orb_false_iff, IH by done. apply Forall_cons in Hf as [Hb Hf]. split.
  - intros [E Hs]. bool_to_prop. constructor; [done|]. constructor; [done|].
    apply StronglySorted_inv in Hs as [_ Hs]. eapply Forall_impl; [exact Hs|]. cbn. lia.
  - intros Hs. apply StronglySorted_inv in Hs as [Hs Hall]. apply Forall_cons in Hall as [? _].
    split; [lia|done].
Qed.

Lemma pack_entries_above ps pl i pages :
  0 <= ps -> Forall (fun r => pl + i * ps <= r.1 /\ r.2 = r.1 + ps)
               (map entry_range (pack_entries ps pl i pages)).
Proof.
  intros Hps. revert i; induction pages as [|p pages IH]; intros i; cbn; constructor.
  - unfold entry_range; cbn. lia.
  - eapply Forall_impl; [apply IH|]. cbn. intros r [? ?]. lia.
Qed.

Lemma pack_ranges_sorted ps pl i pages :
  0 < ps ->
  StronglySorted range_le (map entry_range (pack_entries ps pl i pages)) /\
  overlapping (map entry_range (pack_entries ps pl i pages)) = false.
Proof.
  intros Hps.
  assert (StronglySorted (fun a b : Z * Z => a.2 <= b.1) (map entry_range (pack_entries ps pl i pages))) as Hs.
  { revert i; induction pages as [|p pages IH]; intros i; cbn; constructor; [apply IH|].
    eapply Forall_impl; [apply pack_entries_above; lia|]. unfold entry_range; cbn. lia. }
  pose proof (pack_entries_above ps pl i pages ltac:(lia)) as Hr.
  split; [|apply overlapping_false; [|done]; eapply Forall_impl; [exact Hr|]; cbn; lia].
  induction Hs as [|a l Hs IH Ha]; constructor; apply Forall_cons in Hr as [Hr1 Hr].
  - by apply IH.
  - eapply Forall_impl; [exact Ha|]. cbn. intros b Hab. unfold range_le. cbn in *.
    lia.
Qed.

Lemma decode_pack_bytes ps pages :
  pages_ok ps pages -> bt_sorted pages -> Forall (fun p => is_u64 p.1) pages ->
  len (pack_bytes ps pages) < 2 ^ 63 ->
  decode_pack_index (pack_bytes ps pages)
  = Ok (MkPackIndex ps (pack_entries ps (64 + 64 * len pages) 0 pages)).
Proof.
  intros (Hl & Hps & Hfirst & Hall) Hsort Hu Hlen.
  pose proof (valid_page_size_range ps Hps).
  set (n := len pages) in *. set (pl := 64 + 64 * n) in *.
  assert (len (concat (map snd pages)) = n * ps) as Hc.
  { subst n. clear -Hall. induction Hall as [|p pages Hp _ IH]; cbn [map concat]; [done|].
    rewrite len_app, len_cons, IH, Hp. lia. }
  set (total := len (pack_bytes ps pages)) in *.
  assert (total = pl + n * ps) as Ht.
  { unfold total, pack_bytes. rewrite !len_app, header_len, records_len, Hc. lia. }
  pose proof (header_len ps n pl) as Hh.
  assert (decode_pack_header (pack_header_bytes ps n pl) total = Ok (MkPackHeader ps n 64 pl)) as Hdh.
  { apply decode_header; (done || nia). }
  unfold decode_pack_index. fold total.
  assert (slice (pack_bytes ps pages) 0 64 = Some (pack_header_bytes ps n pl)) as ->.
  { by apply (slice_app []). }
  cbn [ok_or mbind result_bind]. rewrite Hdh. cbn [ph_index_offset ph_entry_count mbind result_bind].
  rewrite try_uint_id by done. cbn [ok_or mbind result_bind]. unfold checked_add.
  rewrite try_uint_id by (unfold is_uint; lia). cbn [ok_or mbind result_bind].
  assert (slice (pack_bytes ps pages) 64 (64 + n * 64) = Some (pack_records ps pl 0 pages)) as ->.
  { apply slice_app; fold n pl; [done|]. rewrite records_len, Hh. lia. }
  cbn [ok_or mbind result_bind]. unfold decode_pack_index_parts.
  assert (sub 0 64 (pack_bytes ps pages) = pack_header_bytes ps n pl) as -> by (by apply sub_here).
  rewrite Hdh. cbn [ph_index_offset ph_entry_count ph_page_size mbind result_bind].
  unfold checked_mul. rewrite try_uint_id by (unfold is_uint; lia). cbn [ok_or mbind result_bind].
  rewrite records_len. fold n. replace (64 * n =? n * 64) with true by lia. cbn [negb reject mbind result_bind].
  destruct (decode_records ps n pl total pages 0 [] 0 [] []) as [previous' E]; fold n; try done; try lia.
  { destruct pages as [|[k p] pages]; [done|]. apply bt_sorted_cons in Hsort as [Hab _].
    apply Forall_cons in Hu as [[? ?] _]. cbn [fst] in *. constructor; [cbn [fst]; lia|].
    rewrite Forall_fmap in Hab. eapply Forall_impl; [exact Hab|].
    intros q Hq. change (k < q.1) in Hq. cbv beta. lia. }
  cbn [app] in E. fold n in E. rewrite E. cbn [mbind result_bind].
  destruct (pack_ranges_sorted ps pl 0 pages) as [Hs Ho]; [lia|].
  rewrite merge_sort_sorted by done. by rewrite Ho.
Qed.
End layout.

(** ** What a decoded index establishes *)

Definition pack_entry_ok (page_size full_length : Z) (e : PackIndexEntry) : Prop :=
  0 < p_stored_length e /\ p_raw_length e = page_size /\ 64 <= p_offset e /\
  p_offset e + p_stored_length e <= full_length /\
  (p_codec e = PageCodec.None -> p_stored_length e = p_raw_length e).

Definition disjoint_ranges (a b : Z * Z) : Prop := a.2 <= b.1 \/ b.2 <= a.1.

Definition pack_state_inv (ps total : Z) (st : pack_state) : Prop :=
  let '(previous, ranges, entries) := st in
  ranges = map entry_range entries /\ Forall (pack_entry_ok ps total) entries /\
  StronglySorted Z.lt (map p_page_number entries) /\
  Forall (fun n => 0 < n <= previous) (map p_page_number entries) /\ 0 <= previous.

Lemma pack_step_inv h idx total st i st' :
  64 <= ph_payload_offset h -> pack_state_inv (ph_page_size h) total st ->
  pack_step h idx total st i = Ok st' -> pack_state_inv (ph_page_size h) total st'.
Proof.
  intros Hpo Hinv. destruct st as [[previous ranges] entries]. cbn [pack_state_inv] in Hinv.
  destruct Hinv as (-> & Hok & Hs & Hp & Hprev). unfold pack_step. intros E. inv_ok. bool_to_prop.
  destruct (checked_add 64 x0 x1) as [stop|] eqn:Ea; [|done].
  apply try_uint_some in Ea as [-> _]. bool_to_prop. cbn [pack_state_inv].
  rewrite !map_app. cbn [map p_page_number entry_range p_offset p_stored_length].
  split_and!.
  - done.
  - apply Forall_app. split; [done|]. constructor; [|constructor].
    match goal with H : be_number 4 _ _ = Ok x1 |- _ => rename H into Hx1 end.
    assert (0 <= x1).
    { unfold be_number in Hx1. inv_ok. apply be_val_range. }
    unfold pack_entry_ok; cbn. split_and!; try lia. intros ->.
    match goal with H : (bool_decide _ && _)%bool = false |- _ => rename H into Hc end.
    rewrite bool_decide_eq_true_2 in Hc by done. cbn [andb] in Hc. by bool_to_prop.
  - apply StronglySorted_snoc. split; [done|]. eapply Forall_impl; [exact Hp|]. cbn. lia.
  - apply Forall_app. split; [|constructor; [lia|constructor]].
    eapply Forall_impl; [exact Hp|]. cbn. lia.
  - lia.
Qed.

Lemma sorted_disjoint l :
  StronglySorted (fun a b : Z * Z => a.2 <= b.1) l ->
  forall i j a b, i <> j -> l !! i = Some a -> l !! j = Some b -> disjoint_ranges a b.
Proof.
  intros Hs.
  assert (forall i j a b, (i < j)%nat -> l !! i = Some a -> l !! j = Some b -> a.2 <= b.1) as Hlt.
  { intros i j a b Hij Ha Hb. rewrite <- (take_drop j l) in Hs.
    eapply (StronglySorted_app_1_elem_of _ _ _ a b Hs).
    - apply (list_elem_of_lookup_2 _ i). by rewrite lookup_take_lt by lia.
    - apply (list_elem_of_lookup_2 _ 0%nat). by rewrite lookup_drop, Nat.add_0_r. }
  intros i j a b Hij Ha Hb. destruct (decide (i < j)%nat); [left; apply (Hlt i j)|right; apply (Hlt j i)]; done || lia.
Qed.

Lemma decode_header_ok h total ph :
  decode_pack_header h total = Ok ph ->
  64 <= ph_index_offset ph /\ ph_index_offset ph + 64 * ph_entry_count ph <= ph_payload_offset ph /\
  ph_payload_offset ph <= total /\ 0 < ph_entry_count ph /\ valid_page_size (ph_page_size ph) = true.
Proof.
  unfold decode_pack_header. intros E. inv_ok. bool_to_prop.
  repeat match goal with H : checked_mul _ _ _ = Some _ |- _ => apply try_uint_some in H as [-> [? ?]]
    | H : checked_add _ _ _ = Some _ |- _ => apply try_uint_some in H as [-> [? ?]] end.
  cbn. match goal with H : be_number 4 h 20 = Ok ?x |- _ => assert (0 <= x) end.
  { match goal with H : be_number 4 h 20 = Ok _ |- _ => unfold be_number in H; inv_ok end. apply be_val_range. }
  split_and!; (done || lia).
Qed.

Lemma decode_parts_sound h idx total pi :
  decode_pack_index_parts h idx total = Ok pi ->
  Forall (pack_entry_ok (pi_page_size pi) total) (pi_entries pi) /\
  increasing 0 (map p_page_number (pi_entries pi)) /\
  forall i j a b, i <> j -> pi_entries pi !! i = Some a -> pi_entries pi !! j = Some b ->
    disjoint_ranges (entry_range a) (entry_range b).
Proof.
  unfold decode_pack_index_parts. intros E. inv_ok.
  match goal with st : (_ * list _ * list _)%type |- _ => destruct st as [[previous ranges] entries] end.
  inv_ok. cbn [pi_page_size pi_entries].
  match goal with H : decode_pack_header _ _ = Ok _ |- _ => apply decode_header_ok in H as (? & Hpo & ? & ? & ?) end.
  match goal with H : try_fold _ _ _ = Ok _ |- _ => rename H into Hf end.
  apply (try_fold_inv (pack_state_inv (ph_page_size x) total)) in Hf.
  2:{ cbn. split_and!; try done; constructor. }
  2:{ intros st i st' _. apply pack_step_inv. nia. }
  cbn [pack_state_inv] in Hf. destruct Hf as (-> & Hok & Hs & Hp & _). split; [done|]. split.
  { constructor; [done|]. eapply Forall_impl; [exact Hp|]. cbn. lia. }
  set (rs := map entry_range entries) in *.
  assert (Forall (fun r => r.1 <= r.2) (merge_sort range_le rs)) as Hle.
  { rewrite (merge_sort_Permutation range_le rs). unfold rs. apply Forall_fmap.
    eapply Forall_impl; [exact Hok|]. intros e (? & _). unfold entry_range; cbn. lia. }
  match goal with H : overlapping _ = false |- _ => apply overlapping_false in H as Hover; [|done] end.
  pose proof (merge_sort_Permutation range_le rs) as Hperm. symmetry in Hperm.
  apply Permutation_inj in Hperm as (_ & f & Hinj & Hf).
  intros i j a b Hij Ha Hb.
  apply (sorted_disjoint _ Hover (f i) (f j)); [by intros ?%Hinj| |]; rewrite <- Hf; unfold rs.
  - by rewrite list_lookup_fmap, Ha.
  - by rewrite list_lookup_fmap, Hb.
Qed.

Section payloads.
Context `{Sha2Crate}.

Lemma pack_entries_lookup ps pl pages : forall i j p,
  pages !! j = Some p -> pack_entries ps pl i pages !! j = Some (pack_entry ps pl (i + Z.of_nat j) p).
Proof.
  induction pages as [|q pages IH]; intros i [|j] p Hj; cbn [pack_entries]; [done|..].
  - done.
  - injection Hj as ->. by rewrite Z.add_0_r.
  - change (pack_entries ps pl (i + 1) pages !! j = Some (pack_entry ps pl (i + Z.of_nat (S j)) p)).
    rewrite (IH (i + 1) j p Hj). do 2 f_equal. lia.
Qed.

Lemma pack_entries_length ps pl pages : forall i, length (pack_entries ps pl i pages) = length pages.
Proof. induction pages as [|p pages IH]; intros i; cbn; [done|]. by rewrite IH. Qed.

Lemma concat_pages_len ps (pages : list (Z * bytes)) :
  Forall (fun p => len p.2 = ps) pages -> len (concat (map snd pages)) = len pages * ps.
Proof.
  induction 1 as [|p pages Hp _ IH]; cbn [map concat]; [done|].
  rewrite len_app, len_cons, IH, Hp. lia.
Qed.

(** The payload of a page is the page. *)
Lemma pack_payload ps pages j n page :
  Forall (fun p => len p.2 = ps) pages -> pages !! j = Some (n, page) ->
  let off := 64 + 64 * len pages + Z.of_nat j * ps in
  slice (pack_bytes ps pages) off (off + ps) = Some page.
Proof.
  intros Hall Hj off.
  pose proof (take_drop_middle pages j _ Hj) as Hsplit.
  assert (length (take j pages) = j) as Hlen.
  { apply length_take_le. apply lookup_lt_Some in Hj. lia. }
  rewrite <- Hsplit in Hall. apply Forall_app in Hall as [Hl Hr]. apply Forall_cons in Hr as [Hp _].
  cbn [snd] in Hp. unfold pack_bytes.
  assert (concat (map snd pages) = concat (map snd (take j pages)) ++ page ++
    concat (map snd (drop (S j) pages))) as ->.
  { rewrite <- Hsplit at 1. by rewrite map_app, concat_app. }
  rewrite !app_assoc, <- (app_assoc _ page).
  apply slice_app; rewrite !len_app, header_len, records_len, (concat_pages_len ps) by done;
    unfold len in *; rewrite Hlen; subst off; lia.
Qed.
End payloads.

(** ** Properties *)

(** C39: a pack written by [encode_page_pack] is decoded by [decode_pack_index]
    to one entry per page, in page order, and each entry leads back to its page:
    the payload range of the entry holds exactly the page's bytes and the entry
    carries their digest. *)
Theorem page_pack_roundtrip `{Sha2Crate} (ps : Z) (pages : list (Z * bytes)) (b : bytes)
    (Henc : encode_page_pack ps pages = Ok b)
    (Hsorted : bt_sorted pages) (Hkeys : Forall (fun p => is_u64 p.1) pages)
    (Hlen : len b < 2 ^ 63) :
  exists index, decode_pack_index b = Ok index /\ pi_page_size index = ps /\
    length (pi_entries index) = length pages /\
    forall j n page, pages !! j = Some (n, page) ->
      exists e, pi_entries index !! j = Some e /\ p_page_number e = n /\
        p_codec e = PageCodec.None /\ p_page_sha256 e = digest page /\
        slice b (p_offset e) (p_offset e + p_stored_length e) = Some page.
Proof.
  apply encode_page_pack_ok in Henc as [Hok ->]. eexists. split; [by apply decode_pack_bytes|].
  split; [done|]. cbn [pi_entries]. split; [apply pack_entries_length|].
  intros j n page Hj. eexists. split; [by apply pack_entries_lookup|]. cbn. split_and!; try done.
  apply (pack_payload ps pages j n page); [apply Hok|done].
Qed.

Lemma page_pack_roundtrip_witness :
  let pages := [(1, repeat Byte.x61 512); (7, repeat Byte.x62 512)] in
  exists b index, @encode_page_pack sha2_reference 512 pages = Ok b /\
    decode_pack_index b = Ok index /\ length (pi_entries index) = 2%nat.
Proof.
  intros pages.
  destruct (@page_pack_roundtrip sha2_reference 512 pages (@pack_bytes sha2_reference 512 pages))
    as (index & E & _ & El & _).
  - vm_compute. reflexivity.
  - repeat constructor.
  - repeat constructor; vm_compute; congruence.
  - vm_compute. reflexivity.
  - exists (@pack_bytes sha2_reference 512 pages), index. split; [vm_compute; reflexivity|].
    split; [exact E|exact El].
Defined.

(** a decoded pack index is sound whatever bytes it was read from: page
    numbers are positive and strictly increasing, every entry has the pack's
    page size and a non-empty payload inside the pack, after its header, and no
    two payloads overlap. *)
Theorem pack_index_sound (header index_bytes : bytes) (full_length : Z) (index : PackIndex)
    (Hdec : decode_pack_index_parts header index_bytes full_length = Ok index) :
  Forall (pack_entry_ok (pi_page_size index) full_length) (pi_entries index) /\
  increasing 0 (map p_page_number (pi_entries index)) /\
  forall i j a b, i <> j -> pi_entries index !! i = Some a -> pi_entries index !! j = Some b ->
    disjoint_ranges (entry_range a) (entry_range b).
Proof. by apply decode_parts_sound in Hdec. Qed.

Lemma pack_index_sound_witness :
  let pages := [(1, repeat Byte.x61 512); (7, repeat Byte.x62 512)] in
  let b := @pack_bytes sha2_reference 512 pages in
  Forall (pack_entry_ok 512 (len b)) (@pack_entries sha2_reference 512 192 0 pages).
Proof.
  intros pages b.
  apply (pack_index_sound (sub 0 64 b) (sub 64 192 b) (len b)
    (MkPackIndex 512 (@pack_entries sha2_reference 512 192 0 pages))).
  vm_compute. reflexivity.
Defined.
