(* ===== verification/Hashes.v ===== *)
(** Domain-separated hashes (otmp-protocol/src/hash.rs). *)
From S2P Require Import Prelude Bytes Errors Values.

Section hashes.
Context `{Sha2Crate}.

(** A NUL-terminated domain tag. *)
Definition tag (s : string) : bytes := as_bytes s ++ [Byte.x00].

Definition object_hash (b : bytes) : Sha256 := digest b.

Definition intent_hash (canonical_intent : bytes) : Sha256 :=
  digest (tag "OTMP-INTENT" ++ canonical_intent).

Definition genesis_state_hash (canonical_genesis_body : bytes) : Sha256 :=
  digest (tag "OTMP-GENESIS" ++ canonical_genesis_body).

Definition next_state_hash (previous : Sha256) (canonical_commit_body : bytes) : Sha256 :=
  digest (tag "OTMP-STATE" ++ sha_bytes previous ++ canonical_commit_body).

Definition partition_hash (partition_spec_id : Z) (tuple_cbor : bytes) : Sha256 :=
  digest (tag "OTMP-PARTITION" ++ be_bytes 4 partition_spec_id ++ tuple_cbor).

Definition no_page_map : bytes := repeat Byte.x00 32.

Definition image_root_hash (table_id : Id) (table_version page_size page_count : Z)
    (checkpoint : Sha256) (page_map_root : option Sha256) : Sha256 :=
  let page_map := match page_map_root with Some h => sha_bytes h | None => no_page_map end in
  digest (tag "OTMP-SQLITE-IMAGE" ++ id_bytes table_id ++ be_bytes 8 table_version
          ++ be_bytes 4 page_size ++ be_bytes 8 page_count ++ sha_bytes checkpoint ++ page_map).

(** ** What each hash commits to *)

(** The messages the five domains sign. *)
Inductive message :=
| Intent (body : bytes)
| Genesis (body : bytes)
| State (previous : Sha256) (body : bytes)
| Partition (spec_id : Z) (tuple : bytes)
| Image (table_id : Id) (version page_size page_count : Z) (checkpoint : Sha256)
        (page_map : option Sha256).

Definition message_hash (m : message) : Sha256 :=
  match m with
  | Intent b => intent_hash b
  | Genesis b => genesis_state_hash b
  | State p b => next_state_hash p b
  | Partition i t => partition_hash i t
  | Image t v ps pc c pm => image_root_hash t v ps pc c pm
  end.

(** The field ranges; a page map whose root hash is all zeros would read as no
    page map. *)
Definition wf_message (m : message) : Prop :=
  match m with
  | Intent _ | Genesis _ => True
  | State p _ => wf_sha p
  | Partition i _ => is_u32 i
  | Image t v ps pc c pm =>
    wf_id t /\ is_u64 v /\ is_u32 ps /\ is_u64 pc /\ wf_sha c /\
    match pm with Some h => wf_sha h /\ sha_bytes h <> no_page_map | None => True end
  end.

Definition preimage (m : message) : bytes :=
  match m with
  | Intent b => tag "OTMP-INTENT" ++ b
  | Genesis b => tag "OTMP-GENESIS" ++ b
  | State p b => tag "OTMP-STATE" ++ sha_bytes p ++ b
  | Partition i t => tag "OTMP-PARTITION" ++ be_bytes 4 i ++ t
  | Image t v ps pc c pm =>
    tag "OTMP-SQLITE-IMAGE" ++ id_bytes t ++ be_bytes 8 v ++ be_bytes 4 ps ++ be_bytes 8 pc
    ++ sha_bytes c ++ match pm with Some h => sha_bytes h | None => no_page_map end
  end.

Lemma message_hash_digest m : message_hash m = digest (preimage m).
Proof. by destruct m. Qed.

(** Fields of one width are split uniquely. *)
Lemma app_inj_width (n : nat) (a b c d : bytes) :
  length a = n -> length b = n -> a ++ c = b ++ d -> a = b /\ c = d.
Proof. intros Ha Hb. apply app_inj_1. lia. Qed.

Lemma be_field_inj (n : nat) x y c d :
  0 <= x < 256 ^ Z.of_nat n -> 0 <= y < 256 ^ Z.of_nat n ->
  be_bytes n x ++ c = be_bytes n y ++ d -> x = y /\ c = d.
Proof.
  intros Hx Hy E. apply (app_inj_width n) in E as [E ->]; [|apply be_bytes_length..].
  split; [|done]. by apply (be_bytes_inj n).
Qed.

Lemma sha_field_inj p q (c d : bytes) :
  wf_sha p -> wf_sha q -> sha_bytes p ++ c = sha_bytes q ++ d -> p = q /\ c = d.
Proof.
  intros Hp Hq E. apply (app_inj_width 32) in E as [E ->]; [|done..].
  destruct p, q; cbn in E. by subst.
Qed.

Lemma image_inj t v ps pc c pm t' v' ps' pc' c' pm' :
  wf_message (Image t v ps pc c pm) -> wf_message (Image t' v' ps' pc' c' pm') ->
  preimage (Image t v ps pc c pm) = preimage (Image t' v' ps' pc' c' pm') ->
  Image t v ps pc c pm = Image t' v' ps' pc' c' pm'.
Proof.
  intros (Ht & Hv & Hps & Hpc & Hc & Hm) (Ht' & Hv' & Hps' & Hpc' & Hc' & Hm').
  cbn [preimage]. intros E%app_inv_head.
  apply (app_inj_width 16) in E as [Et E]; [|done..].
  apply be_field_inj in E as [-> E]; [|done..]. apply be_field_inj in E as [-> E]; [|done..].
  apply be_field_inj in E as [-> E]; [|done..]. apply sha_field_inj in E as [-> E]; [|done..].
  destruct t as [t], t' as [t']; cbn in Et; subst.
  destruct pm as [[h]|], pm' as [[h']|]; cbn in *; subst; naive_solver.
Qed.

Lemma preimage_inj m m' : wf_message m -> wf_message m' -> preimage m = preimage m' -> m = m'.
Proof.
  destruct m, m'; try (intros _ _ E; discriminate E); [..|apply image_inj].
  - intros _ _ E. by apply app_inv_head in E as ->.
  - intros _ _ E. by apply app_inv_head in E as ->.
  - intros ?? E%app_inv_head. by apply sha_field_inj in E as [-> ->].
  - intros ?? E%app_inv_head. by apply be_field_inj in E as [-> ->].
Qed.

End hashes.

(** ** Properties *)

(** the five hash domains are separated, and each hash commits to all of
    its fields: every protocol hash is the digest of a byte string from which
    the domain and the fields can be recovered, so two messages share a hash
    only if they are equal or their two byte strings collide under SHA-256. *)
Theorem hash_domains_separated `{Sha2Crate} (m m' : message)
    (Hm : wf_message m) (Hm' : wf_message m') :
  message_hash m = digest (preimage m) /\ message_hash m' = digest (preimage m') /\
  (preimage m = preimage m' <-> m = m') /\
  (message_hash m = message_hash m' -> m = m' \/ collides (preimage m) (preimage m')).
Proof.
  rewrite !message_hash_digest. split_and!; try done.
  - split; [by apply preimage_inj|by intros ->].
  - intros [E|]%digest_inj; [left; by apply preimage_inj|by right].
Qed.

Lemma hash_domains_separated_witness :
  preimage (Intent [Byte.xa0]) = preimage (Genesis [Byte.xa0]) <-> Intent [Byte.xa0] = Genesis [Byte.xa0].
Proof.
  apply (@hash_domains_separated sha2_reference (Intent [Byte.xa0]) (Genesis [Byte.xa0])); exact I.
Defined.
