(* ===== verification/PageTree.v ===== *)
(** The copy-on-write page tree (otmp/src/physical.rs): loading a tree from the
    store, flattening it, and building the next tree from a parent and a set of
    changed pages. *)
From S2P Require Import Prelude Bytes Errors Values Scalars Cbor PageMap PagePack Hashes.

Definition CAPACITY : Z := 128.
Definition PACK_TARGET : Z := 1024 * 1024.
Definition PAGE_SIZE : Z := 4096.

(** ** Data *)

Inductive Tree := MkTree {
  t_reference : PageObjectReference; t_node : page_node; t_children : list Tree;
  t_min : Z; t_max : Z }.

Record Artifact := MkArtifact { a_uri : RelativeUri; a_bytes : bytes }.

(** [BTreeMap<String, Artifact>] *)
Definition Artifacts : Type := list (string * Artifact).

Section tree_ind.
Context (P : Tree -> Prop).
Context (Hrec : forall r n cs mn mx, Forall P cs -> P (MkTree r n cs mn mx)).

Fixpoint tree_ind' (t : Tree) : P t :=
  match t with
  | MkTree r n cs mn mx =>
    Hrec r n cs mn mx
      ((fix go cs : Forall P cs :=
          match cs with
          | [] => @List.Forall_nil _ P
          | c :: cs => @List.Forall_cons _ P c cs (tree_ind' c) (go cs)
          end) cs)
  end.
End tree_ind.

(** ** Operations on a loaded tree *)

(** [flatten], inserting into the map in tree order. *)
Fixpoint flatten (t : Tree) (entries : list (Z * PageMapEntry)) : list (Z * PageMapEntry) :=
  match t with
  | MkTree _ node children _ _ =>
    match node with
    | PageMapNode.Leaf pages =>
      fold_left (fun m e => bt_insert (e_page_number e) e m) pages entries
    | PageMapNode.Internal _ _ => fold_left (fun m c => flatten c m) children entries
    end
  end.

Section tree.
Context `{HexCrate} `{Sha2Crate}.

Definition content_uri (directory extension : string) (sha256 : Sha256) : presult RelativeUri :=
  relative_uri_from_str (directory +:+ hex_encode (sha_bytes sha256) +:+ extension).

Definition map_uri : Sha256 -> presult RelativeUri := content_uri "_otmp/page-maps/" ".cbor".
Definition pack_uri : Sha256 -> presult RelativeUri := content_uri "_otmp/page-packs/" ".otmppg".

Definition create_tree (node : page_node) (children : list Tree) (artifacts : Artifacts)
  : rresult (Tree * Artifacts) :=
  bytes ← of_protocol (encode_page_map node);
  let sha256 := object_hash bytes in
  uri ← of_protocol (map_uri sha256);
  let reference := MkRef uri sha256 (len bytes) in
  (* both lists are nonempty: the node passed validation *)
  let min := match node with
             | PageMapNode.Leaf entries => default 0 (e_page_number <$> head entries)
             | PageMapNode.Internal _ _ => default 0 (t_min <$> head children)
             end in
  let max := default 0 (PageMapNode.max_page node) in
  Ok (MkTree reference node children min max,
      bt_insert (uri_str uri) (MkArtifact uri bytes) artifacts).

(** The shape [leaf_nodes] and [internal_nodes] share: build one node of all
    items, or split the items at the midpoint. [build] gives the node of a
    nonempty list of items, and its children. The fuel is the number of items. *)
Fixpoint split_nodes {A} (build : list A -> page_node * list Tree) (fuel : nat) (items : list A)
    (artifacts : Artifacts) : rresult (list Tree * Artifacts) :=
  if len items =? 0 then Ok ([], artifacts) else
  let '(node, children) := build items in
  _ ← of_protocol (PageMapNode.validate node);
  let whole := if len items <=? CAPACITY then
                 match create_tree node children artifacts with
                 | Ok (t, artifacts) => Some (Ok ([t], artifacts))
                 | Err e => if len items =? 1 then Some (Err e) else None
                 end
               else None in
  match whole, fuel with
  | Some r, _ => r
  | None, O => Err (corrupt "out of fuel")
  | None, S fuel =>
    let half := (length items / 2)%nat in
    '(nodes, artifacts) ← split_nodes build fuel (take half items) artifacts;
    '(more, artifacts) ← split_nodes build fuel (drop half items) artifacts;
    Ok (nodes ++ more, artifacts)
  end.

Definition leaf_nodes (entries : list PageMapEntry) (artifacts : Artifacts)
  : rresult (list Tree * Artifacts) :=
  split_nodes (fun es => (PageMapNode.Leaf es, [])) (length entries) entries artifacts.

Definition branch_of (c : Tree) : PageMapBranch := MkBranch (t_max c) (t_reference c).

Definition internal_nodes (children : list Tree) (level : Z) (artifacts : Artifacts)
  : rresult (list Tree * Artifacts) :=
  split_nodes (fun cs => (PageMapNode.Internal level (map branch_of cs), cs))
    (length children) children artifacts.

(** The leaf case of [update]: old entries up to [eof], overridden by the changes. *)
Definition leaf_pages (entries changes : list PageMapEntry) (eof : Z) : list PageMapEntry :=
  let keep := filter (fun e => e_page_number e <= eof) entries in
  let pages := bt_of_list (map (fun e => (e_page_number e, e)) keep) in
  map snd (fold_left (fun m e => bt_insert (e_page_number e) e m) changes pages).

(** The loop of [update] over the children: each child takes the changes up to
    its maximum, the last one all that remain. *)
Definition update_children
    (update : Tree -> list PageMapEntry -> Artifacts -> rresult (list Tree * Artifacts))
  : list Tree -> list PageMapEntry -> Artifacts -> rresult (list Tree * Artifacts) :=
  fix go cs remaining artifacts :=
    match cs with
    | [] => Ok ([], artifacts)
    | c :: cs' =>
      let count :=
        match cs' with
        | [] => length remaining
        | _ => partition_point (fun e => e_page_number e <=? t_max c) remaining
        end in
      '(new, artifacts) ← update c (take count remaining) artifacts;
      '(more, artifacts) ← go cs' (drop count remaining) artifacts;
      Ok (new ++ more, artifacts)
    end.

Fixpoint update (t : Tree) (changes : list PageMapEntry) (eof : Z) (artifacts : Artifacts)
  : rresult (list Tree * Artifacts) :=
  match t with
  | MkTree _ node children min max =>
    if (len changes =? 0) && (max <=? eof) then Ok ([t], artifacts)
    else if (eof <? min) && (len changes =? 0) then Ok ([], artifacts)
    else
      match node with
      | PageMapNode.Leaf entries => leaf_nodes (leaf_pages entries changes eof) artifacts
      | PageMapNode.Internal level _ =>
        '(children, artifacts) ←
          update_children (fun c here artifacts => update c here eof artifacts)
            children changes artifacts;
        internal_nodes children level artifacts
      end
  end.

(** The closure [add] of [reachable]. *)
Definition add_reference (references : list (string * PageObjectReference))
    (r : PageObjectReference) : rresult (list (string * PageObjectReference)) :=
  let key := uri_str (ref_uri r) in
  _ ← reject match bt_get key references with
             | Some old => negb (bool_decide (old = r))
             | None => false
             end (corrupt "conflicting reachable object references");
  Ok (bt_insert key r references).

Fixpoint reachable (t : Tree) (references : list (string * PageObjectReference))
  : rresult (list (string * PageObjectReference)) :=
  match t with
  | MkTree reference node children _ _ =>
    references ← add_reference references reference;
    match node with
    | PageMapNode.Leaf entries =>
      try_fold (fun refs e => add_reference refs (e_pack e)) references entries
    | PageMapNode.Internal _ _ =>
      (fix go cs refs := match cs with
                         | [] => Ok refs
                         | c :: cs => refs ← reachable c refs; go cs refs
                         end) children references
    end
  end.

(** ** Persisting a changed image *)

Record IncrementalImage := MkIncremental {
  i_root : option PageMapRoot; i_artifacts : list Artifact; i_reachable_bytes : Z }.

Definition pack_capacity : nat := Z.to_nat ((PACK_TARGET - 64) / (64 + PAGE_SIZE)).

Definition mapping_of (pack : PageObjectReference) (e : PackIndexEntry) : PageMapEntry :=
  MkEntry (p_page_number e) pack (p_offset e) (p_stored_length e) (p_raw_length e)
    (p_codec e) (p_page_sha256 e).

(** One pack of changed pages: its mappings and its artifact. *)
Definition persist_chunk (eof : Z) (st : list PageMapEntry * Artifacts) (chunk : list (Z * bytes))
  : rresult (list PageMapEntry * Artifacts) :=
  let '(mappings, artifacts) := st in
  let pages := bt_of_list chunk in
  _ ← reject (existsb (fun p => eof <? p.1) pages) (corrupt "candidate changed page beyond EOF");
  bytes ← of_protocol (encode_page_pack PAGE_SIZE pages);
  let sha256 := object_hash bytes in
  uri ← of_protocol (pack_uri sha256);
  let pack := MkRef uri sha256 (len bytes) in
  index ← of_protocol (decode_pack_index bytes);
  Ok (mappings ++ map (mapping_of pack) (pi_entries index),
      bt_insert (uri_str uri) (MkArtifact uri bytes) artifacts).

(** [while roots.len() > 1]: [None] when the fuel runs out. *)
Fixpoint grow_roots (fuel : nat) (roots : list Tree) (artifacts : Artifacts)
  : option (rresult (list Tree * Artifacts)) :=
  if len roots <=? 1 then Some (Ok (roots, artifacts)) else
  match fuel, head roots with
  | O, _ | _, None => None
  | S fuel, Some first =>
    match internal_nodes roots (PageMapNode.level (t_node first) + 1) artifacts with
    | Ok (roots, artifacts) => grow_roots fuel roots artifacts
    | Err e => Some (Err e)
    end
  end.

(** [while root.children.len() == 1 { root = root.children[0] }] *)
Fixpoint collapse (t : Tree) : Tree :=
  match t with
  | MkTree _ _ children _ _ => match children with [c] => collapse c | _ => t end
  end.

Definition root_of (t : Tree) : PageMapRoot :=
  MkRoot (ref_uri (t_reference t)) (ref_sha256 (t_reference t)) (ref_length (t_reference t))
    (PageMapNode.level (t_node t)).

Definition finish_persist (roots : list Tree) (artifacts : Artifacts) : rresult IncrementalImage :=
  let root := collapse <$> last roots in
  references ← match root with Some t => reachable t [] | None => Ok [] end;
  reachable_bytes ←
    try_fold (fun total r => ok_or (checked_add 64 total (ref_length r))
                               (corrupt "reachable bytes overflow")) 0 references.*2;
  Ok (MkIncremental (root_of <$> root)
        (map snd (filter (fun '(uri, _) => bt_contains uri references = true) artifacts))
        reachable_bytes).

Definition persist_roots (parent : option Tree) (mappings : list PageMapEntry) (eof : Z)
    (artifacts : Artifacts) : rresult (list Tree * Artifacts) :=
  match parent with
  | Some parent => update parent mappings eof artifacts
  | None => leaf_nodes mappings artifacts
  end.

Definition persist (parent : option Tree) (changed : list (Z * bytes)) (eof : Z)
  : option (rresult IncrementalImage) :=
  match ('(mappings, artifacts) ← try_fold (persist_chunk eof) ([], []) (chunks pack_capacity changed);
         persist_roots parent mappings eof artifacts) with
  | Err e => Some (Err e)
  | Ok (roots, artifacts) =>
    match grow_roots (length roots) roots artifacts with
    | None => None
    | Some r => Some ('(roots, artifacts) ← r; finish_persist roots artifacts)
    end
  end.

(** ** Loading a tree from the store *)

Section load.
(** [Table::read_metadata] on a page-map object. *)
Context (read_page_map : PageObjectReference -> rresult bytes).

(** The loop over the entries of an internal node; [load] loads a child. *)
Definition load_children
    (load : PageObjectReference -> Z -> Z -> gset string -> rresult (Tree * gset string))
    (upper : Z) : list PageMapBranch -> Z -> gset string -> rresult (list Tree * gset string) :=
  fix go entries previous seen :=
    match entries with
    | [] => Ok ([], seen)
    | e :: entries =>
      _ ← reject ((b_max_page e <=? previous) || (upper <? b_max_page e))
            (corrupt "invalid page-map subtree boundary");
      '(child, seen) ← load (b_child e) previous (b_max_page e) seen;
      _ ← reject (negb (t_max child =? b_max_page e))
            (corrupt "page-map maximum disagrees with child");
      '(children, seen) ← go entries (b_max_page e) seen;
      Ok (child :: children, seen)
    end.

(** [depth] bounds the recursion: a node above level 64 is refused and every
    child is one level lower, so 65 is enough. *)
Fixpoint load_tree (depth : nat) (reference : PageObjectReference) (level lower upper : Z)
    (seen : gset string) : rresult (Tree * gset string) :=
  match depth with
  | O => Err (corrupt "invalid page-map height, cycle, repeated subtree, or size")
  | S depth =>
    let key := uri_str (ref_uri reference) in
    _ ← reject ((64 <? level) || bool_decide (key ∈ seen)
                || (MAX_PAGE_MAP_BYTES <? ref_length reference))
          (corrupt "invalid page-map height, cycle, repeated subtree, or size");
    let seen := {[ key ]} ∪ seen in
    bytes ← read_page_map reference;
    node ← of_protocol (decode_page_map bytes);
    _ ← reject (negb (PageMapNode.level node =? level)) (corrupt "page-map level mismatch");
    '(children, min, max, seen) ←
      match node with
      | PageMapNode.Leaf entries =>
        Ok ([], default 0 (e_page_number <$> head entries),
            default 0 (e_page_number <$> last entries), seen)
      | PageMapNode.Internal _ entries =>
        '(children, seen) ←
          load_children (fun r lo up s => load_tree depth r (level - 1) lo up s)
            upper entries lower seen;
        Ok (children, default 0 (t_min <$> head children), default 0 (t_max <$> last children), seen)
      end;
    _ ← reject ((min <=? lower) || (upper <? max)) (corrupt "page-map entry outside subtree bounds");
    Ok (MkTree reference node children min max, seen)
  end.
End load.
End tree.

(** ** Entries by page number *)

Definition pages_of (es : list PageMapEntry) : list Z := map e_page_number es.
Definition keyed (es : list PageMapEntry) : list (Z * PageMapEntry) :=
  map (fun e => (e_page_number e, e)) es.
Definition lookup_page (n : Z) (es : list PageMapEntry) : option PageMapEntry := bt_get n (keyed es).
Definition extend (m : list (Z * PageMapEntry)) (es : list PageMapEntry) : list (Z * PageMapEntry) :=
  fold_left (fun m e => bt_insert (e_page_number e) e m) es m.

(** Every key is the page number of its entry. *)
Definition own_keys (m : list (Z * PageMapEntry)) : Prop := Forall (fun kv => kv.1 = e_page_number kv.2) m.

Lemma keyed_fst es : (keyed es).*1 = pages_of es.
Proof. unfold keyed, pages_of. induction es as [|e es IH]; cbn; [done|]. by f_equal. Qed.
Lemma keyed_snd es : map snd (keyed es) = es.
Proof. unfold keyed. induction es as [|e es IH]; cbn; [done|]. by f_equal. Qed.
Lemma own_keyed es : own_keys (keyed es).
Proof. apply Forall_fmap. by apply Forall_true. Qed.
Lemma keyed_own m : own_keys m -> keyed (map snd m) = m.
Proof.
  unfold own_keys, keyed. induction 1 as [|[k e] m Hk _ IH]; cbn in *; [done|]. by rewrite IH, Hk.
Qed.
Lemma pages_of_app es fs : pages_of (es ++ fs) = pages_of es ++ pages_of fs.
Proof. apply map_app. Qed.

Lemma own_insert e m : own_keys m -> own_keys (bt_insert (e_page_number e) e m).
Proof.
  unfold own_keys. induction 1 as [|[k e'] m Hk Hm IH]; cbn [bt_insert].
  - by repeat constructor.
  - destruct (ocmp _ _); repeat constructor; done.
Qed.

Lemma own_extend m es : own_keys m -> own_keys (extend m es).
Proof.
  revert m; induction es as [|e es IH]; intros m Hm; cbn; [done|]. by apply IH, own_insert.
Qed.

Lemma sorted_extend m es : bt_sorted m -> bt_sorted (extend m es).
Proof.
  revert m; induction es as [|e es IH]; intros m Hm; cbn; [done|]. by apply IH, bt_sorted_insert.
Qed.

Lemma extend_keys m es x : x ∈ (extend m es).*1 <-> x ∈ m.*1 \/ x ∈ pages_of es.
Proof.
  revert m; induction es as [|e es IH]; intros m; cbn.
  - unfold pages_of; cbn. set_solver.
  - unfold extend in IH. rewrite IH, bt_keys_insert. unfold pages_of. cbn. set_solver.
Qed.

(** Increasing page numbers make a sorted map, and conversely. *)
Lemma increasing_sorted p es : increasing p (pages_of es) -> bt_sorted (keyed es).
Proof.
  unfold increasing, bt_sorted. intros [H _]%StronglySorted_inv. rewrite keyed_fst. exact H.
Qed.

Lemma sorted_increasing p m :
  own_keys m -> bt_sorted m -> Forall (Z.lt p) m.*1 -> increasing p (pages_of (map snd m)).
Proof.
  intros Hown Hs Hf. rewrite <- keyed_fst, keyed_own by done. constructor; [exact Hs|exact Hf].
Qed.

Lemma increasing_app p l1 l2 :
  increasing p (l1 ++ l2) <->
  increasing p l1 /\ increasing p l2 /\ (forall x y, x ∈ l1 -> y ∈ l2 -> x < y).
Proof.
  revert p; induction l1 as [|a l1 IH]; intros p; cbn.
  - split; [intros H; split_and!; [apply increasing_nil|done|set_solver]|tauto].
  - rewrite !increasing_cons, IH. split.
    + intros (Hp & H1 & H2 & Hx). split_and!; try done.
      * clear -Hp H2. destruct l2 as [|b l2]; [apply increasing_nil|].
        rewrite increasing_cons in *. split; [lia|tauto].
      * intros x y [->|Hin]%elem_of_cons Hy; [|by apply Hx].
        apply increasing_above in H2. rewrite Forall_forall in H2. by apply H2.
    + intros ((Hp & H1) & H2 & Hx). split_and!; try done.
      * destruct l2 as [|b l2]; [apply increasing_nil|]. rewrite increasing_cons in *.
        split; [apply Hx; left|tauto].
      * intros x y ??. apply Hx; [by right|done].
Qed.

Lemma extend_app_split b m1 m2 c1 c2 :
  Forall (fun k => k <= b) m1.*1 -> Forall (fun k => b < k) m2.*1 ->
  Forall (fun k => k <= b) (pages_of c1) -> Forall (fun k => b < k) (pages_of c2) ->
  extend (m1 ++ m2) (c1 ++ c2) = extend m1 c1 ++ extend m2 c2.
Proof.
  intros H1 H2 H3 H4. unfold extend. rewrite fold_left_app.
  assert (forall c m, Forall (fun k => k <= b) (pages_of c) ->
    fold_left (fun m e => bt_insert (e_page_number e) e m) c (m ++ m2)
    = extend m c ++ m2) as Hl.
  { clear -H2. induction c as [|e c IH]; intros m Hc; cbn; [done|].
    apply Forall_cons in Hc as [He Hc]. rewrite bt_insert_app_l; [by apply IH|].
    eapply Forall_impl; [exact H2|]. cbn. intros k Hk. apply Z.compare_lt_iff. cbn in He. lia. }
  rewrite Hl by done.
  assert (forall c m m', Forall (fun k => k <= b) m.*1 -> Forall (fun k => b < k) (pages_of c) ->
    fold_left (fun m e => bt_insert (e_page_number e) e m) c (m ++ m') = m ++ extend m' c) as Hr.
  { clear. induction c as [|e c IH]; intros m m' Hm Hc; cbn; [done|].
    apply Forall_cons in Hc as [He Hc]. rewrite bt_insert_app_r; [by apply IH|].
    eapply Forall_impl; [exact Hm|]. cbn. intros k Hk. apply Z.compare_lt_iff. cbn in He. lia. }
  apply Hr; [|done]. apply Forall_forall. intros k [Hk|Hk]%extend_keys.
  - rewrite Forall_forall in H1. by apply H1.
  - rewrite Forall_forall in H3. by apply H3.
Qed.

Definition kept (eof : Z) (es : list PageMapEntry) : list PageMapEntry :=
  filter (fun e => e_page_number e <= eof) es.

Lemma kept_app eof es fs : kept eof (es ++ fs) = kept eof es ++ kept eof fs.
Proof. apply filter_app. Qed.

Lemma kept_pages eof es x : x ∈ pages_of (kept eof es) <-> x ∈ pages_of es /\ x <= eof.
Proof.
  unfold pages_of, kept. rewrite !list_elem_of_fmap. setoid_rewrite list_elem_of_filter. naive_solver.
Qed.

Lemma kept_cons eof e es :
  kept eof (e :: es) = if decide (e_page_number e <= eof) then e :: kept eof es else kept eof es.
Proof. unfold kept. by rewrite filter_cons. Qed.

Lemma pages_of_cons e es : pages_of (e :: es) = e_page_number e :: pages_of es.
Proof. done. Qed.

Lemma kept_increasing p eof es : increasing p (pages_of es) -> increasing p (pages_of (kept eof es)).
Proof.
  revert p; induction es as [|e es IH]; intros p; [done|].
  rewrite pages_of_cons, increasing_cons, kept_cons. intros [? H]. case_decide.
  - rewrite pages_of_cons, increasing_cons. split; [done|]. by apply IH.
  - apply IH. destruct es as [|f es]; [apply increasing_nil|].
    rewrite pages_of_cons, increasing_cons in *. split; [lia|tauto].
Qed.

Lemma leaf_pages_extend p es ch eof :
  increasing p (pages_of es) -> leaf_pages es ch eof = map snd (extend (keyed (kept eof es)) ch).
Proof.
  intros Hi. unfold leaf_pages.
  change (map snd (extend (bt_of_list (keyed (kept eof es))) ch) = map snd (extend (keyed (kept eof es)) ch)).
  rewrite bt_of_list_sorted; [done|]. by eapply increasing_sorted, kept_increasing.
Qed.

(** The result of a leaf update is sorted again. *)
Lemma leaf_pages_increasing p es ch eof :
  increasing p (pages_of es) -> Forall (Z.lt p) (pages_of ch) ->
  increasing p (pages_of (leaf_pages es ch eof)).
Proof.
  intros Hi Hch. rewrite (leaf_pages_extend p) by done.
  apply sorted_increasing; [apply own_extend, own_keyed|..].
  - apply sorted_extend. by eapply increasing_sorted, kept_increasing.
  - apply Forall_forall. intros k [Hk|Hk]%extend_keys.
    + rewrite keyed_fst, kept_pages in Hk. destruct Hk as [Hk _]. apply increasing_above in Hi.
      rewrite Forall_forall in Hi. by apply Hi.
    + rewrite Forall_forall in Hch. by apply Hch.
Qed.

(** Updates of adjacent page intervals are independent. *)
Lemma leaf_pages_app p b e1 e2 c1 c2 eof :
  increasing p (pages_of (e1 ++ e2)) ->
  Forall (fun k => k <= b) (pages_of e1) -> Forall (fun k => b < k) (pages_of e2) ->
  Forall (fun k => k <= b) (pages_of c1) -> Forall (fun k => b < k) (pages_of c2) ->
  leaf_pages (e1 ++ e2) (c1 ++ c2) eof = leaf_pages e1 c1 eof ++ leaf_pages e2 c2 eof.
Proof.
  intros Hi H1 H2 H3 H4. assert (Hi' := Hi). rewrite pages_of_app in Hi'.
  apply increasing_app in Hi' as (Hi1 & Hi2 & _).
  rewrite (leaf_pages_extend p (e1 ++ e2)), (leaf_pages_extend p e1), (leaf_pages_extend p e2) by done.
  rewrite kept_app. unfold keyed. rewrite map_app. fold (keyed (kept eof e1)) (keyed (kept eof e2)).
  rewrite (extend_app_split b), map_app; try done.
  - rewrite keyed_fst. apply Forall_forall. intros k [Hk _]%kept_pages.
    rewrite Forall_forall in H1. by apply H1.
  - rewrite keyed_fst. apply Forall_forall. intros k [Hk _]%kept_pages.
    rewrite Forall_forall in H2. by apply H2.
Qed.

Lemma kept_all eof es : Forall (fun k => k <= eof) (pages_of es) -> kept eof es = es.
Proof.
  induction es as [|e es IH]; [done|]. rewrite pages_of_cons, Forall_cons, kept_cons.
  intros [? ?]. rewrite decide_True by done. by rewrite IH.
Qed.
Lemma kept_none eof es : Forall (fun k => eof < k) (pages_of es) -> kept eof es = [].
Proof.
  induction es as [|e es IH]; [done|]. rewrite pages_of_cons, Forall_cons, kept_cons.
  intros [? ?]. rewrite decide_False by lia. by apply IH.
Qed.

(** What the overlay holds at each page. *)
Lemma extend_lookup n m es :
  bt_sorted m -> bt_sorted (keyed es) ->
  bt_get n (extend m es) = match lookup_page n es with Some e => Some e | None => bt_get n m end.
Proof.
  revert m; induction es as [|e es IH]; intros m Hm Hes; [done|].
  apply bt_sorted_cons in Hes as [Hab Hes]. cbn [extend fold_left].
  fold (extend (bt_insert (e_page_number e) e m) es). rewrite IH by (try apply bt_sorted_insert; done).
  unfold lookup_page. cbn [keyed map bt_get]. fold (keyed es). rewrite bt_get_insert by done.
  destruct (ocmp n (e_page_number e)) eqn:E; try done.
  apply ocmp_eq in E as ->. by rewrite bt_get_lt.
Qed.

Lemma lookup_kept n eof p es :
  increasing p (pages_of es) ->
  lookup_page n (kept eof es) = if n <=? eof then lookup_page n es else None.
Proof.
  revert p; induction es as [|e es IH]; intros p; cbn [pages_of map].
  { intros _. unfold lookup_page; cbn. by destruct (n <=? eof). }
  rewrite increasing_cons. intros [_ Hi]. rewrite kept_cons.
  specialize (IH _ Hi). unfold lookup_page in *. cbn [keyed map bt_get]. fold (keyed es).
  assert (ocmp n (e_page_number e) = Eq \/ ocmp n (e_page_number e) <> Eq) as [E|E] by (destruct (ocmp n _); naive_solver).
  - apply ocmp_eq in E as ->. case_decide; cbn [keyed map bt_get]; fold (keyed (kept eof es)).
    + rewrite ocmp_refl. by replace (_ <=? _) with true by lia.
    + rewrite IH. by replace (_ <=? _) with false by lia.
  - case_decide; cbn [keyed map bt_get]; fold (keyed (kept eof es)); rewrite IH;
      destruct (ocmp n (e_page_number e)); try done.
Qed.

Lemma leaf_pages_lookup n p es ch eof :
  increasing p (pages_of es) -> increasing p (pages_of ch) ->
  lookup_page n (leaf_pages es ch eof) =
  match lookup_page n ch with
  | Some e => Some e
  | None => if n <=? eof then lookup_page n es else None
  end.
Proof.
  intros Hes Hch. rewrite (leaf_pages_extend p) by done. unfold lookup_page at 1.
  rewrite keyed_own by (apply own_extend, own_keyed).
  rewrite extend_lookup; [|by eapply increasing_sorted, kept_increasing|by eapply increasing_sorted].
  destruct (lookup_page n ch); [done|]. by apply (lookup_kept n eof p).
Qed.

(** ** The tree invariant *)

(** The entries below a tree, in tree order. *)
Fixpoint entries_of (t : Tree) : list PageMapEntry :=
  match t with
  | MkTree _ node children _ _ =>
    match node with
    | PageMapNode.Leaf entries => entries
    | PageMapNode.Internal _ _ => concat (map entries_of children)
    end
  end.

Fixpoint subtrees (t : Tree) : list Tree :=
  match t with MkTree _ _ children _ _ => t :: concat (map subtrees children) end.

(** All leaves are at level 0, every internal node names its children, and the
    bounds of a tree are those of its first and last child or entry. *)
Inductive shape : Z -> Tree -> Prop :=
| shape_leaf r es :
  es <> [] ->
  shape 0 (MkTree r (PageMapNode.Leaf es) [] (default 0 (e_page_number <$> head es))
             (default 0 (e_page_number <$> last es)))
| shape_internal r l cs :
  0 < l -> cs <> [] -> Forall (shape (l - 1)) cs ->
  shape l (MkTree r (PageMapNode.Internal l (map branch_of cs)) cs
             (default 0 (t_min <$> head cs)) (default 0 (t_max <$> last cs))).

Definition tree_inv (l : Z) (t : Tree) : Prop :=
  shape l t /\ increasing 0 (pages_of (entries_of t)).

Lemma last_concat_cons {A} (ls : list (list A)) l :
  l <> [] -> last (concat (ls ++ [l])) = last l.
Proof.
  intros Hl. rewrite concat_app. cbn. rewrite app_nil_r, last_app. by destruct l as [|a l] using rev_ind; [|rewrite last_snoc].
Qed.

Lemma shape_bounds l t : shape l t ->
  entries_of t <> [] /\
  e_page_number <$> head (entries_of t) = Some (t_min t) /\
  e_page_number <$> last (entries_of t) = Some (t_max t).
Proof.
  revert l. induction t as [r n cs mn mx IH] using tree_ind'. intros l Hs.
  inversion Hs as [r' es Hne|r' l' cs' Hl Hne Hcs]; subst; cbn [entries_of t_min t_max].
  - split; [done|]. split.
    + by destruct es.
    + destruct es as [|e es] using rev_ind; [done|]. by rewrite last_snoc.
  - assert (Forall (fun c => entries_of c <> [] /\
      e_page_number <$> head (entries_of c) = Some (t_min c) /\
      e_page_number <$> last (entries_of c) = Some (t_max c)) cs) as Hall.
    { apply Forall_forall. intros c Hc. rewrite Forall_forall in IH, Hcs. by apply (IH c Hc (l - 1)), Hcs. }
    clear IH Hcs Hs. split_and!.
    + destruct cs as [|c cs]; [done|]. apply Forall_cons in Hall as [[Hc _] _]. cbn.
      by intros [? _]%app_nil.
    + destruct cs as [|c cs]; [done|]. apply Forall_cons in Hall as [(Hc & Hh & _) _]. cbn.
      by destruct (entries_of c).
    + destruct cs as [|c cs _] using rev_ind; [done|]. apply Forall_app in Hall as [_ Hall].
      apply Forall_cons in Hall as [(Hc & _ & Hlast) _].
      rewrite map_app. cbn [map]. rewrite last_concat_cons, last_snoc by done. exact Hlast.
Qed.

Lemma shape_level l t : shape l t -> PageMapNode.level (t_node t) = l /\ 0 <= l.
Proof. inversion 1; subst; cbn; lia. Qed.

(** Strictly increasing pages lie between the first and the last. *)
Lemma increasing_last p l x : increasing p l -> last l = Some x -> Forall (fun k => k <= x) l.
Proof.
  intros Hi Hl. destruct l as [|y l _] using rev_ind; [done|]. rewrite last_snoc in Hl. injection Hl as ->.
  apply increasing_app in Hi as (_ & _ & Hlt). apply Forall_app. split; [|repeat constructor; lia].
  apply Forall_forall. intros k Hk. specialize (Hlt k x Hk ltac:(left)). lia.
Qed.

Lemma tree_bounds l t : tree_inv l t ->
  Forall (fun k => t_min t <= k <= t_max t) (pages_of (entries_of t)) /\ 0 < t_min t <= t_max t.
Proof.
  intros [Hs Hi]. destruct (shape_bounds l t Hs) as (Hne & Hh & Hl).
  assert (last (pages_of (entries_of t)) = Some (t_max t)) as Hl' by (unfold pages_of; by rewrite fmap_last).
  pose proof (increasing_last 0 _ _ Hi Hl') as Hup.
  destruct (entries_of t) as [|e es]; [done|]. cbn in Hh. injection Hh as Hh. rewrite <- Hh.
  rewrite pages_of_cons in *. apply increasing_cons in Hi as [Hpos Hi].
  apply Forall_cons in Hup as Hup'. destruct Hup' as [He _].
  apply increasing_above in Hi.
  split; [|lia]. apply Forall_forall. intros k Hk. rewrite Forall_forall in Hup, Hi.
  split; [|by apply Hup]. apply elem_of_cons in Hk as [->|Hk]; [lia|]. specialize (Hi k Hk). lia.
Qed.

(** [flatten] lists the entries of a tree. *)
Lemma flatten_extend t : forall l m, shape l t -> flatten t m = extend m (entries_of t).
Proof.
  induction t as [r n cs mn mx IH] using tree_ind'. intros l m Hs.
  inversion Hs as [r' es Hne|r' l' cs' Hl Hne Hcs]; subst; cbn [flatten entries_of]; [done|].
  clear Hs Hne. revert m. induction cs as [|c cs IHcs]; intros m; cbn [fold_left map concat]; [done|].
  apply Forall_cons in IH as [IHc IH]. apply Forall_cons in Hcs as [Hc Hcs].
  rewrite (IHc (l - 1)) by done. rewrite IHcs by done. unfold extend. by rewrite fold_left_app.
Qed.

Lemma extend_keyed p es : increasing p (pages_of es) -> extend [] es = keyed es.
Proof.
  intros Hi. rewrite <- (bt_of_list_sorted (keyed es)) by (by eapply increasing_sorted).
  unfold bt_of_list, extend, keyed. generalize (@nil (Z * PageMapEntry)). clear Hi.
  induction es as [|e es IH]; intros m; cbn; [done|]. apply IH.
Qed.

Lemma flatten_keyed l t : tree_inv l t -> flatten t [] = keyed (entries_of t).
Proof. intros [Hs Hi]. rewrite (flatten_extend t l) by done. by eapply extend_keyed. Qed.

(** ** Building nodes *)

Section build.
Context `{HexCrate} `{Sha2Crate}.

(** A reference that names its node by content. *)
Definition sealed (t : Tree) : Prop :=
  exists bytes uri, encode_page_map (t_node t) = Ok bytes /\
    map_uri (digest bytes) = Ok uri /\
    t_reference t = MkRef uri (digest bytes) (len bytes).

(** Every artifact is filed under its own, content-addressed name. *)
Definition artifact_ok (ka : string * Artifact) : Prop :=
  ka.1 = uri_str (a_uri ka.2) /\
  (map_uri (digest (a_bytes ka.2)) = Ok (a_uri ka.2) \/
   pack_uri (digest (a_bytes ka.2)) = Ok (a_uri ka.2)).
Definition artifacts_ok (arts : Artifacts) : Prop := bt_sorted arts /\ Forall artifact_ok arts.

Definition stored (arts : Artifacts) (t : Tree) : Prop :=
  is_Some (bt_get (uri_str (ref_uri (t_reference t))) arts).

(** Artifacts only grow. *)
Definition grows (a b : Artifacts) : Prop :=
  artifacts_ok a -> artifacts_ok b /\ forall k, is_Some (bt_get k a) -> is_Some (bt_get k b).

Lemma grows_refl a : grows a a.
Proof. by intros H1. Qed.
Lemma grows_trans a b c : grows a b -> grows b c -> grows a c.
Proof. unfold grows. naive_solver. Qed.

Lemma bt_insert_elem {K V} `{TotalOrd K} k (v : V) m x :
  x ∈ bt_insert k v m -> x = (k, v) \/ x ∈ m.
Proof.
  induction m as [|[k1 v1] m IH]; cbn [bt_insert]; [set_solver|].
  destruct (ocmp k k1); set_solver.
Qed.

Lemma artifacts_insert a arts :
  artifacts_ok arts -> artifact_ok (uri_str (a_uri a), a) ->
  artifacts_ok (bt_insert (uri_str (a_uri a)) a arts) /\
  is_Some (bt_get (uri_str (a_uri a)) (bt_insert (uri_str (a_uri a)) a arts)) /\
  forall k, is_Some (bt_get k arts) -> is_Some (bt_get k (bt_insert (uri_str (a_uri a)) a arts)).
Proof.
  intros [Hs Hall] Ha. split_and!.
  - split; [by apply bt_sorted_insert|].
    apply Forall_forall. intros x [->|Hx]%bt_insert_elem; [done|].
    rewrite Forall_forall in Hall. by apply Hall.
  - rewrite bt_get_insert by done. by rewrite ocmp_refl.
  - intros k Hk. rewrite bt_get_insert by done. destruct (ocmp k _); done.
Qed.

Definition node_min (node : page_node) (children : list Tree) : Z :=
  match node with
  | PageMapNode.Leaf entries => default 0 (e_page_number <$> head entries)
  | PageMapNode.Internal _ _ => default 0 (t_min <$> head children)
  end.

Lemma create_tree_ok node children arts t arts' :
  create_tree node children arts = Ok (t, arts') ->
  t_node t = node /\ t_children t = children /\ t_min t = node_min node children /\
  t_max t = default 0 (PageMapNode.max_page node) /\ sealed t /\
  grows arts arts' /\ (artifacts_ok arts -> stored arts' t).
Proof.
  unfold create_tree. intros E. inv_ok. unfold of_protocol in *. inv_ok.
  cbn [t_node t_children t_min t_max]. split_and!; try done.
  - exists x, x0. done.
  - intros Hok. destruct (artifacts_insert (MkArtifact x0 x) arts Hok) as (? & _ & ?); [|done].
    split; [done|]. by left.
  - intros Hok. destruct (artifacts_insert (MkArtifact x0 x) arts Hok) as (_ & ? & _); [|done].
    split; [done|]. by left.
Qed.

(** What a node built from a chunk of items looks like. *)
Definition built {A} (build : list A -> page_node * list Tree) (arts : Artifacts)
    (t : Tree) (chunk : list A) : Prop :=
  chunk <> [] /\ len chunk <= CAPACITY /\ (t_node t, t_children t) = build chunk /\
  t_min t = node_min (t_node t) (t_children t) /\
  t_max t = default 0 (PageMapNode.max_page (t_node t)) /\ sealed t /\ stored arts t.

Lemma built_grows {A} (build : list A -> page_node * list Tree) a b ts chunks :
  artifacts_ok a -> grows a b -> Forall2 (built build a) ts chunks -> Forall2 (built build b) ts chunks.
Proof.
  intros Ha Hg H2. eapply Forall2_impl; [exact H2|].
  intros t c (? & ? & ? & ? & ? & ? & ?). unfold built. split_and!; try done.
  by apply (Hg Ha).
Qed.

Lemma split_nodes_ok {A} (build : list A -> page_node * list Tree) fuel : forall items arts ts arts',
  artifacts_ok arts -> split_nodes build fuel items arts = Ok (ts, arts') ->
  grows arts arts' /\
  exists chunks, concat chunks = items /\ Forall2 (built build arts') ts chunks.
Proof.
  induction fuel as [|fuel IH]; intros items arts ts arts' Hok; cbn [split_nodes];
    (destruct (len items =? 0) eqn:E0;
     [intros [= <- <-]; split; [apply grows_refl|];
      bool_to_prop; apply len_zero in E0 as ->; exists []; split; [done|constructor]|]);
    destruct (build items) as [node children] eqn:Eb; bool_to_prop;
    intros E; apply bind_ok in E as (u & _ & E);
    (destruct (len items <=? CAPACITY) eqn:Ec;
     [destruct (create_tree node children arts) as [[t a]|e] eqn:Et;
      [injection E as <- <-; apply create_tree_ok in Et as (Hn & Hc & Hmin & Hmax & Hseal & Hg & Hst);
       split; [done|]; exists [items]; split; [apply app_nil_r|];
       constructor; [|constructor]; unfold built; rewrite Hn, Hc, Eb; bool_to_prop; split_and!; try done; [by intros ->|by apply Hst]
      |destruct (len items =? 1); [done|]]|]); try done.
  all: apply bind_ok in E as ([n1 a1] & E1 & E); apply bind_ok in E as ([n2 a2] & E2 & E);
    injection E as <- <-;
    apply IH in E1 as (Hg1 & c1 & Hc1 & Hf1); [|done];
    apply IH in E2 as (Hg2 & c2 & Hc2 & Hf2); [|by apply Hg1];
    (split; [by eapply grows_trans|]); exists (c1 ++ c2);
    (split; [by rewrite concat_app, Hc1, Hc2, take_drop|]);
    apply Forall2_app; [eapply (built_grows _ a1); [by apply Hg1|done|done]|done].
Qed.

(** The fuel is irrelevant once it reaches the number of items. *)
Lemma split_nodes_fuel {A} (build : list A -> page_node * list Tree) f1 : forall f2 items arts,
  (length items <= f1)%nat -> (length items <= f2)%nat ->
  split_nodes build f1 items arts = split_nodes build f2 items arts.
Proof.
  induction f1 as [|f1 IH]; intros [|f2] items arts H1 H2; cbn [split_nodes];
    (destruct items as [|x [|y items]]; [done|..]); try (cbn in *; lia).
  - rewrite len_cons, len_nil. cbn [Z.add Z.eqb Pos.eqb].
    destruct (build [x]) as [node children]. destruct (of_protocol _); [|done]. cbn.
    by destruct (create_tree _ _ _) as [[? ?]|].
  - remember (x :: y :: items) as its eqn:Eits.
    assert (2 <= length its)%nat as Hlen by (subst; cbn; lia).
    pose proof (Nat.div_mod_eq (length its) 2). pose proof (Nat.mod_upper_bound (length its) 2).
    destruct (len its =? 0); [done|]. destruct (build its) as [node children].
    destruct (of_protocol _); [|done]. cbn [mbind result_bind].
    rewrite (IH f2 (take _ _)) by (rewrite length_take; lia).
    destruct (split_nodes build f2 (take _ _) arts) as [[n1 a1]|]; cbn [mbind result_bind];
      rewrite ?(IH f2 (drop _ _)) by (rewrite length_drop; lia); done.
Qed.
End build.

(** ** Updating a tree *)

Section update.
Context `{HexCrate} `{Sha2Crate}.

Definition all_entries (ts : list Tree) : list PageMapEntry := concat (map entries_of ts).
Definition all_subtrees (ts : list Tree) : list Tree := concat (map subtrees ts).

(** A tree written by this build: content-addressed, with its bytes among the
    artifacts. *)
Definition fresh (arts : Artifacts) (t : Tree) : Prop := sealed t /\ stored arts t.

Lemma fresh_grows a b t : artifacts_ok a -> grows a b -> fresh a t -> fresh b t.
Proof. intros Ha Hg [? ?]. split; [done|]. by apply (Hg Ha). Qed.

Lemma all_entries_app ts us : all_entries (ts ++ us) = all_entries ts ++ all_entries us.
Proof. unfold all_entries. by rewrite map_app, concat_app. Qed.
Lemma all_subtrees_app ts us : all_subtrees (ts ++ us) = all_subtrees ts ++ all_subtrees us.
Proof. unfold all_subtrees. by rewrite map_app, concat_app. Qed.

Lemma built_fresh {A} (build : list A -> page_node * list Tree) arts t c :
  built build arts t c -> fresh arts t.
Proof. unfold built, fresh. tauto. Qed.

Lemma built_leaf arts t es :
  built (fun es => (PageMapNode.Leaf es, [])) arts t es ->
  shape 0 t /\ entries_of t = es /\ subtrees t = [t].
Proof.
  intros (Hne & _ & Hb & Hmin & Hmax & _). destruct t as [r n cs mn mx]. cbn in *.
  injection Hb as -> ->. cbn in *. subst. split_and!; try done. by constructor.
Qed.

Lemma built_internal arts t l cs :
  0 < l -> Forall (shape (l - 1)) cs ->
  built (fun cs => (PageMapNode.Internal l (map branch_of cs), cs)) arts t cs ->
  shape l t /\ entries_of t = all_entries cs /\ subtrees t = t :: all_subtrees cs.
Proof.
  intros Hl Hcs (Hne & _ & Hb & Hmin & Hmax & _). destruct t as [r n cs' mn mx]. cbn in *.
  injection Hb as -> ->. cbn in *. subst. split_and!; try done.
  replace (b_max_page <$> last (map branch_of cs)) with (t_max <$> last cs); [by constructor|].
  rewrite fmap_last. by destruct (last cs).
Qed.

Lemma leaf_nodes_ok es arts ts arts' :
  artifacts_ok arts -> leaf_nodes es arts = Ok (ts, arts') ->
  grows arts arts' /\ Forall (shape 0) ts /\ all_entries ts = es /\
  Forall (fresh arts') (all_subtrees ts).
Proof.
  intros Hok E. unfold leaf_nodes in E. apply split_nodes_ok in E as (Hg & chunks & Hc & H2); [|exact Hok]. subst es. split; [done|]. clear Hok Hg.
  unfold all_entries, all_subtrees. induction H2 as [|t c ts chunks Hb _ (IH1 & IH2 & IH3)]; cbn; [done|].
  pose proof (built_leaf _ _ _ Hb) as (Hs & He & Ht). rewrite He, IH2, Ht. split_and!; try done.
  - by constructor.
  - apply Forall_app. split; [|done]. constructor; [|done]. by eapply built_fresh.
Qed.

Lemma internal_nodes_ok l cs arts ts arts' :
  0 < l -> Forall (shape (l - 1)) cs -> artifacts_ok arts ->
  internal_nodes cs l arts = Ok (ts, arts') ->
  grows arts arts' /\ Forall (shape l) ts /\ all_entries ts = all_entries cs /\
  Forall (fun t => fresh arts' t \/ t ∈ all_subtrees cs) (all_subtrees ts).
Proof.
  intros Hl Hcs Hok E. unfold internal_nodes in E. apply split_nodes_ok in E as (Hg & chunks & Hc & H2); [|exact Hok]. subst cs. split; [done|]. clear Hok Hg.
  induction H2 as [|t c ts chunks Hb _ IH]; cbn [concat] in *; [done|].
  apply Forall_app in Hcs as [Hc Hcs]. destruct (IH Hcs) as (IH1 & IH2 & IH3).
  pose proof (built_internal _ _ _ _ Hl Hc Hb) as (Hs & He & Ht).
  change (t :: ts) with ([t] ++ ts). rewrite !all_entries_app, !all_subtrees_app.
  split_and!.
  - by constructor.
  - unfold all_entries at 1; cbn [map concat]. by rewrite app_nil_r, He, IH2.
  - unfold all_subtrees at 3; cbn [map concat]. rewrite app_nil_r, Ht. apply Forall_app. split.
    + constructor; [left; by eapply built_fresh|].
      apply Forall_forall. intros x Hx. right. apply elem_of_app. by left.
    + eapply Forall_impl; [exact IH3|]. intros x [?|?]; [by left|right]. apply elem_of_app. by right.
Qed.

(** The changes of a child, and the ones after it, are split at its maximum. *)
Lemma split_changes m es :
  increasing 0 (pages_of es) ->
  let n := partition_point (fun e => e_page_number e <=? m) es in
  Forall (fun k => k <= m) (pages_of (take n es)) /\ Forall (fun k => m < k) (pages_of (drop n es)).
Proof.
  intros Hi n. destruct (partition_point_spec (fun e => e_page_number e <=? m) es) as (_ & Ht & Hd).
  - intros i j x y Hij Hx Hy Hle. bool_to_prop. apply Z.leb_le.
    unfold increasing in Hi. apply StronglySorted_inv in Hi as [Hi _].
    enough (e_page_number x < e_page_number y) by lia.
    rewrite <- (take_drop j es) in Hi. rewrite pages_of_app in Hi.
    eapply (StronglySorted_app_1_elem_of _ _ _ _ _ Hi); apply list_elem_of_fmap.
    + exists x. split; [done|]. apply (list_elem_of_lookup_2 _ i). by rewrite lookup_take_lt by lia.
    + exists y. split; [done|]. apply (list_elem_of_lookup_2 _ 0%nat). by rewrite lookup_drop, Nat.add_0_r.
  - unfold pages_of. split; apply Forall_fmap; [eapply Forall_impl; [exact Ht|]|eapply Forall_impl; [exact Hd|]];
      intros e He; cbn in *; lia.
Qed.

Lemma increasing_take p n es : increasing p (pages_of es) -> increasing p (pages_of (take n es)).
Proof. rewrite <- (take_drop n es) at 1. rewrite pages_of_app, increasing_app. tauto. Qed.
Lemma increasing_drop p n es : increasing p (pages_of es) -> increasing p (pages_of (drop n es)).
Proof. rewrite <- (take_drop n es) at 1. rewrite pages_of_app, increasing_app. tauto. Qed.

Lemma leaf_pages_nil p es eof :
  increasing p (pages_of es) -> leaf_pages es [] eof = kept eof es.
Proof. intros Hi. rewrite (leaf_pages_extend p) by done. apply keyed_snd. Qed.

(** What [update] guarantees for one tree. *)
Definition update_spec (t : Tree) (l eof : Z) (changes : list PageMapEntry) (arts : Artifacts)
    (r : list Tree * Artifacts) : Prop :=
  grows arts r.2 /\ Forall (shape l) r.1 /\
  all_entries r.1 = leaf_pages (entries_of t) changes eof /\
  Forall (fun x => fresh r.2 x \/ x ∈ subtrees t) (all_subtrees r.1).

Definition updates_well (eof : Z) (t : Tree) : Prop :=
  forall l changes arts r,
    tree_inv l t -> increasing 0 (pages_of changes) -> artifacts_ok arts ->
    update t changes eof arts = Ok r -> update_spec t l eof changes arts r.

Lemma update_children_ok l eof cs : forall changes arts r,
  Forall (updates_well eof) cs -> Forall (shape l) cs ->
  increasing 0 (pages_of (all_entries cs)) -> increasing 0 (pages_of changes) ->
  (cs = [] -> changes = []) -> artifacts_ok arts ->
  update_children (fun c here arts => update c here eof arts) cs changes arts = Ok r ->
  grows arts r.2 /\ Forall (shape l) r.1 /\
  all_entries r.1 = leaf_pages (all_entries cs) changes eof /\
  Forall (fun x => fresh r.2 x \/ x ∈ all_subtrees cs) (all_subtrees r.1).
Proof.
  induction cs as [|c cs IH]; intros changes arts r HIH Hs Hi Hch Hnil Hok E.
  { cbn in E. injection E as <-. rewrite Hnil by done. split; [apply grows_refl|]. by split_and!. }
  cbn [update_children] in E.
  set (n := match cs with [] => length changes | _ => _ end) in *.
  apply Forall_cons in HIH as [Hc HIH]. apply Forall_cons in Hs as [Hsc Hs].
  change (all_entries (c :: cs)) with (entries_of c ++ all_entries cs) in *.
  assert (Hi' := Hi). rewrite pages_of_app in Hi'. apply increasing_app in Hi' as (Hic & Hics & Hlt).
  apply bind_ok in E as ([new a1] & E1 & E). apply bind_ok in E as ([more a2] & E2 & [= <-]).
  destruct (Hc l (take n changes) arts (new, a1)) as (Hg1 & Hs1 & He1 & Hf1);
    [by split|by apply increasing_take|done|done|].
  cbn [fst snd] in *. destruct (Hg1 Hok) as [Hok1 _].
  destruct (IH (drop n changes) a1 (more, a2)) as (Hg2 & Hs2 & He2 & Hf2); try done;
    [by apply increasing_drop| |].
  { intros ->. subst n. apply drop_ge. lia. }
  cbn [fst snd] in *.
  split; [by eapply grows_trans|]. split; [by apply Forall_app|]. split.
  - rewrite all_entries_app, He1, He2. cbn [fst].
    rewrite <- (take_drop n changes) at 3.
    destruct (decide (cs = [])) as [->|Hne].
    { subst n. rewrite firstn_all, drop_ge by lia. cbn. by rewrite !app_nil_r. }
    destruct (tree_bounds l c) as [Hb _]; [by split|].
    assert (n = partition_point (fun e => e_page_number e <=? t_max c) changes) as Hn
      by (subst n; by destruct cs).
    destruct (split_changes (t_max c) changes Hch) as [Ht Hd]. rewrite <- Hn in Ht, Hd.
    symmetry. apply (leaf_pages_app 0 (t_max c)); try done.
    + eapply Forall_impl; [exact Hb|]. cbn. lia.
    + apply Forall_forall. intros k Hk. apply Hlt; [|done].
      destruct (shape_bounds l c Hsc) as (_ & _ & Hl). unfold pages_of. apply list_elem_of_fmap.
      destruct (last (entries_of c)) as [e|] eqn:El; [|done]. cbn in Hl. injection Hl as Hl.
      exists e. split; [done|]. by apply last_Some_elem_of.
  - rewrite all_subtrees_app. change (all_subtrees (c :: cs)) with (subtrees c ++ all_subtrees cs).
    apply Forall_app. split.
    + eapply Forall_impl; [exact Hf1|]. intros x [Hx|Hx].
      * left. by eapply fresh_grows.
      * right. apply elem_of_app. by left.
    + eapply Forall_impl; [exact Hf2|]. intros x [Hx|Hx]; [by left|right]. apply elem_of_app. by right.
Qed.

Lemma tree_inv_children l r n cs mn mx l' bs :
  n = PageMapNode.Internal l' bs -> tree_inv l (MkTree r n cs mn mx) ->
  l' = l /\ 0 < l /\ cs <> [] /\ Forall (shape (l - 1)) cs /\ increasing 0 (pages_of (all_entries cs)).
Proof. intros -> [Hs Hi]. by inversion Hs; subst. Qed.

Lemma update_ok eof t : updates_well eof t.
Proof.
  induction t as [r n cs mn mx IH] using tree_ind'. intros l changes arts res Hinv Hch Hok E.
  pose proof (tree_bounds _ _ Hinv) as [Hb [Hpos Hle]]. destruct Hinv as [Hs Hi].
  cbn [update t_min t_max] in *. unfold update_spec.
  destruct ((len changes =? 0) && (mx <=? eof)) eqn:E1.
  { injection E as <-. cbn [fst snd]. bool_to_prop. apply len_zero in H1 as ->.
    split; [apply grows_refl|]. split; [by repeat constructor|]. split.
    - unfold all_entries; cbn [map concat]. rewrite app_nil_r, (leaf_pages_nil 0) by done.
      rewrite kept_all; [done|]. eapply Forall_impl; [exact Hb|]. cbn. lia.
    - unfold all_subtrees; cbn [map concat]. rewrite app_nil_r. apply Forall_forall. by right. }
  destruct ((eof <? mn) && (len changes =? 0)) eqn:E2.
  { injection E as <-. cbn [fst snd]. bool_to_prop. apply len_zero in H2 as ->.
    split; [apply grows_refl|]. split; [constructor|]. split; [|constructor].
    rewrite (leaf_pages_nil 0) by done. rewrite kept_none; [done|].
    eapply Forall_impl; [exact Hb|]. cbn. lia. }
  destruct n as [es|l' bs].
  - inversion Hs; subst. destruct res as [ts arts']. destruct (leaf_nodes_ok _ _ _ _ Hok E) as (Hg & Hs' & He & Hf).
    split_and!; try done. eapply Forall_impl; [exact Hf|]. by left.
  - destruct (tree_inv_children l _ _ _ _ _ _ _ eq_refl (conj Hs Hi)) as (-> & Hl & Hne & Hcs & Hics).
    apply bind_ok in E as ([new a1] & Ec & E). destruct res as [ts arts'].
    destruct (update_children_ok (l - 1) eof cs changes arts (new, a1)) as (Hg1 & Hs1 & He1 & Hf1);
      try done. cbn [fst snd] in *. destruct (Hg1 Hok) as [Hok1 _].
    destruct (internal_nodes_ok l new a1 ts arts') as (Hg2 & Hs2 & He2 & Hf2); try done.
    split; [by eapply grows_trans|]. split; [done|]. split; [by rewrite He2, He1|].
    eapply Forall_impl; [exact Hf2|]. intros x [Hx|Hx]; [by left|].
    rewrite Forall_forall in Hf1. apply Hf1 in Hx as [Hx|Hx].
    + left. by eapply fresh_grows.
    + right. cbn [subtrees]. by right.
Qed.
End update.

(** ** Properties *)

(** C19: [update] refines the update of a page-indexed map. From a well-formed
    parent and sorted changes, the produced trees have the parent's height and
    list increasing pages; page [n] leads to its change, else to the parent's
    entry when [n] is not past the end of file, else nowhere; and every node is
    either one of the parent's (shared, not rewritten) or content-addressed with
    its bytes among the artifacts. *)
Theorem update_refines `{HexCrate} `{Sha2Crate} (l eof : Z) (t : Tree) (changes : list PageMapEntry)
    (arts : Artifacts) (ts : list Tree) (arts' : Artifacts)
    (Ht : tree_inv l t) (Hch : increasing 0 (pages_of changes)) (Harts : artifacts_ok arts)
    (E : update t changes eof arts = Ok (ts, arts')) :
  Forall (shape l) ts /\ increasing 0 (pages_of (all_entries ts)) /\ artifacts_ok arts' /\
  (forall n, lookup_page n (all_entries ts) =
     match lookup_page n changes with
     | Some e => Some e
     | None => if n <=? eof then lookup_page n (entries_of t) else None
     end) /\
  Forall (fun x => fresh arts' x \/ x ∈ subtrees t) (all_subtrees ts).
Proof.
  destruct (update_ok eof t l changes arts (ts, arts') Ht Hch Harts E) as (Hg & Hs & He & Hf).
  cbn [fst snd] in *. rewrite He. pose proof (proj2 Ht) as Hi. split_and!; try done.
  - apply leaf_pages_increasing; [done|]. by apply increasing_above.
  - by apply (Hg Harts).
  - intros n. by apply (leaf_pages_lookup n 0).
Qed.

Definition example_entry (n : Z) : PageMapEntry :=
  MkEntry n example_ref 0 512 512 PageCodec.None (MkSha256 (repeat Byte.x02 32)).
Definition example_tree : Tree :=
  MkTree example_ref (PageMapNode.Leaf (map example_entry [3; 4; 9])) [] 3 9.

Lemma example_tree_inv : tree_inv 0 example_tree.
Proof. split; [by constructor|]. cbn. rewrite !increasing_cons. split_and!; try lia. apply increasing_nil. Qed.

Definition example_update : list Tree * Artifacts :=
  ok_default ([], [])
    (@update hex_reference sha2_reference example_tree [example_entry 4; example_entry 6] 8 []).

Lemma update_refines_witness :
  (forall n, lookup_page n (all_entries example_update.1) =
     match lookup_page n [example_entry 4; example_entry 6] with
     | Some e => Some e
     | None => if n <=? 8 then lookup_page n (entries_of example_tree) else None
     end) /\ length (all_entries example_update.1) = 3%nat.
Proof.
  split; [|vm_compute; reflexivity].
  apply (@update_refines hex_reference sha2_reference 0 8 example_tree [example_entry 4; example_entry 6]
    [] example_update.1 example_update.2 example_tree_inv).
  - cbn. rewrite !increasing_cons. split_and!; try lia. apply increasing_nil.
  - split; constructor.
  - vm_compute. reflexivity.
Defined.
