(* ===== verification/PagePersist.v ===== *)
(** Persisting a changed image (otmp/src/physical.rs, [persist]): the packs, the
    new root, and what the produced objects hold. *)
From S2P Require Import Prelude Bytes Errors Values Scalars Cbor PageMap PagePack Hashes PageTree.

(** ** Content-addressed names *)

Section names.
Context `{HexCrate} `{Sha2Crate}.

Definition hex_bytes (h : Sha256) : bytes := as_bytes (hex_encode (sha_bytes h)).

Lemma hex_bytes_lower h : forallb is_lower_hex (hex_bytes h) = true.
Proof. apply hex_encode_lower. Qed.

Lemma lower_hex_free c l :
  is_lower_hex c = false -> forallb is_lower_hex l = true -> existsb (byte_eqb c) l = false.
Proof.
  intros Hc Hl. induction l as [|b l IH]; cbn in *; [done|]. bool_to_prop.
  rewrite IH by done. rewrite orb_false_r. apply not_true_iff_false. intros E.
  apply byte_eqb_eq in E as ->. congruence.
Qed.

Lemma split_plain l : existsb (byte_eqb slash) l = false -> split_on slash l = [l].
Proof.
  induction l as [|b l IH]; cbn; [done|]. intros E. bool_to_prop. rewrite IH by done.
  replace (byte_eqb b slash) with (byte_eqb slash b) by apply Z.eqb_sym.
  by replace (byte_eqb slash b) with false.
Qed.

(** A concrete directory, a hexadecimal name and a concrete extension. *)
Lemma content_uri_some directory extension h :
  match as_bytes directory with b :: _ => byte_eqb b slash | [] => true end = false ->
  match last (as_bytes extension) with Some b => byte_eqb b slash | None => true end = false ->
  existsb (byte_eqb Byte.x5c) (as_bytes directory) = false ->
  existsb (byte_eqb Byte.x3a) (as_bytes directory) = false ->
  existsb (byte_eqb Byte.x5c) (as_bytes extension) = false ->
  existsb (byte_eqb Byte.x3a) (as_bytes extension) = false ->
  existsb (byte_eqb slash) (as_bytes extension) = false ->
  (exists segs, (forall x, split_on slash (as_bytes directory ++ x) = segs ++ split_on slash x) /\
    existsb (fun part => bool_decide (part = []) || bool_decide (part = [Byte.x2e])
                         || bool_decide (part = [Byte.x2e; Byte.x2e])) segs = false) ->
  wf_sha h ->
  content_uri directory extension h = Ok (MkUri (directory +:+ hex_encode (sha_bytes h) +:+ extension)).
Proof.
  intros Hf Hl H1 H2 H3 H4 H5 (segs & Hs & Hsegs) Hh. unfold content_uri, relative_uri_from_str.
  rewrite !as_bytes_app. fold (hex_bytes h).
  pose proof (hex_bytes_lower h) as Hhex.
  assert (len (hex_bytes h) = 64) as Hlen.
  { unfold hex_bytes, len. rewrite hex_encode_length. unfold wf_sha in Hh. lia. }
  rewrite last_app. replace (last (hex_bytes h ++ as_bytes extension)) with (last (as_bytes extension)).
  2:{ rewrite last_app. by destruct (last (as_bytes extension)). }
  rewrite !existsb_app, H1, H2, H3, H4, (lower_hex_free Byte.x5c _ eq_refl Hhex),
    (lower_hex_free Byte.x3a _ eq_refl Hhex), Hs.
  rewrite split_plain by (by rewrite existsb_app, H5, (lower_hex_free slash _ eq_refl Hhex)).
  rewrite existsb_app, Hsegs.
  replace (len _ =? 0) with false.
  2:{ rewrite !len_app, Hlen. pose proof (len_nonneg (as_bytes directory)).
      pose proof (len_nonneg (as_bytes extension)). lia. }
  destruct (as_bytes directory) as [|b d]; [done|]. cbn [app]. rewrite Hf.
  destruct (last (as_bytes extension)) as [c|]; [|done]. rewrite Hl. cbn [orb existsb].
  destruct (hex_bytes h) as [|h1 [|h2 [|h3 hs]]];
    [discriminate Hlen|discriminate Hlen|discriminate Hlen|].
  rewrite !bool_decide_eq_false_2 by done. done.
Qed.

Lemma map_uri_some h : wf_sha h ->
  map_uri h = Ok (MkUri ("_otmp/page-maps/" +:+ hex_encode (sha_bytes h) +:+ ".cbor")).
Proof.
  intros Hh. apply content_uri_some; try done.
  exists [as_bytes "_otmp"; as_bytes "page-maps"]. split; [intros x|]; reflexivity.
Qed.

Lemma pack_uri_some h : wf_sha h ->
  pack_uri h = Ok (MkUri ("_otmp/page-packs/" +:+ hex_encode (sha_bytes h) +:+ ".otmppg")).
Proof.
  intros Hh. apply content_uri_some; try done.
  exists [as_bytes "_otmp"; as_bytes "page-packs"]. split; [intros x|]; reflexivity.
Qed.

Lemma hex_name_inj directory extension g h :
  wf_sha g -> wf_sha h ->
  MkUri (directory +:+ hex_encode (sha_bytes g) +:+ extension)
  = MkUri (directory +:+ hex_encode (sha_bytes h) +:+ extension) -> g = h.
Proof.
  intros Hg Hh E. injection E as E. apply (f_equal as_bytes) in E. rewrite !as_bytes_app in E.
  apply app_inv_head in E. apply app_inj_1 in E as [E _].
  - apply as_bytes_inj, hex_encode_inj in E. destruct g, h; cbn in E. by subst.
  - unfold wf_sha in *. rewrite !hex_encode_length. lia.
Qed.

(** Names of maps and packs never coincide. *)
Lemma map_pack_distinct g h u : wf_sha g -> wf_sha h -> map_uri g = Ok u -> pack_uri h = Ok u -> False.
Proof.
  intros Hg Hh. rewrite map_uri_some, pack_uri_some by done. intros [= <-] [= E].
Qed.

(** The bytes filed under a content-addressed name have the named digest. *)
Lemma stored_digest arts k a h :
  artifacts_ok arts -> bt_get k arts = Some a -> wf_sha h ->
  (map_uri h = Ok (MkUri k) \/ pack_uri h = Ok (MkUri k)) -> digest (a_bytes a) = h.
Proof.
  intros [Hs Hall] Hk Hh Hu. apply bt_get_some_elem in Hk.
  rewrite Forall_forall in Hall. destruct (Hall _ Hk) as [Ek Ha]. cbn in Ek, Ha.
  pose proof (wf_digest (a_bytes a)) as Hd. destruct (a_uri a) as [u]. cbn in Ek. subst u.
  destruct Hu as [Hu|Hu], Ha as [Ha|Ha];
    try (destruct (map_pack_distinct _ _ _ Hh Hd Hu Ha));
    try (destruct (map_pack_distinct _ _ _ Hd Hh Ha Hu)).
  - rewrite map_uri_some in Hu, Ha by done.
    symmetry. apply (hex_name_inj "_otmp/page-maps/" ".cbor"); [done..|congruence].
  - rewrite pack_uri_some in Hu, Ha by done.
    symmetry. apply (hex_name_inj "_otmp/page-packs/" ".otmppg"); [done..|congruence].
Qed.
End names.

(** ** Packing the changed pages *)

Section packs.
Context `{HexCrate} `{Sha2Crate}.

(** The changed pages: a map from positive page numbers to pages. *)
Definition changed_ok (changed : list (Z * bytes)) : Prop :=
  bt_sorted changed /\ Forall (fun p => is_u64 p.1) changed.

(** The mapping [e] leads to page [p]: its pack is that of one of the chunks, is
    named by content and among the artifacts, and holds the page in full at the
    mapped range. *)
Definition maps_page (cs : list (list (Z * bytes))) (arts : Artifacts) (e : PageMapEntry)
    (p : Z * bytes) : Prop :=
  e_page_number e = p.1 /\ e_codec e = PageCodec.None /\ e_raw_length e = PAGE_SIZE /\
  e_page_sha256 e = digest p.2 /\
  exists chunk, chunk ∈ cs /\
    let b := pack_bytes PAGE_SIZE chunk in
    pack_uri (digest b) = Ok (ref_uri (e_pack e)) /\ ref_sha256 (e_pack e) = digest b /\
    ref_length (e_pack e) = len b /\
    slice b (e_offset e) (e_offset e + e_stored_length e) = Some p.2 /\
    is_Some (bt_get (uri_str (ref_uri (e_pack e))) arts) /\
    changed_ok chunk /\ pages_ok PAGE_SIZE chunk /\ (length chunk <= pack_capacity)%nat /\
    exists j, chunk !! j = Some p /\ e_stored_length e = PAGE_SIZE /\
      e_offset e = 64 + 64 * len chunk + Z.of_nat j * PAGE_SIZE.

Lemma maps_page_grows cs a b e p :
  artifacts_ok a -> grows a b -> maps_page cs a e p -> maps_page cs b e p.
Proof.
  intros Ha Hg (H1 & H2 & H3 & H4 & x & H5 & H6 & H7 & H8 & H9 & H10 & H11).
  do 4 (split; [done|]). exists x. do 5 (split; [done|]). split; [by apply (Hg Ha)|done].
Qed.

Lemma changed_app a b : changed_ok (a ++ b) -> changed_ok a /\ changed_ok b.
Proof.
  unfold changed_ok, bt_sorted. rewrite fmap_app, Forall_app. intros [Hs [? ?]].
  apply StronglySorted_app in Hs. naive_solver.
Qed.

Lemma pack_bytes_len ps pages :
  Forall (fun p => len p.2 = ps) pages -> len (pack_bytes ps pages) = 64 + (64 + ps) * len pages.
Proof.
  intros Hall. unfold pack_bytes. rewrite !len_app, header_len, records_len, (concat_pages_len ps) by done. lia.
Qed.

(** The first page of a pack is not page zero, so none is. *)
Lemma pages_positive ps (pages : list (Z * bytes)) :
  changed_ok pages -> pages_ok ps pages -> Forall (fun p => 0 < p.1) pages.
Proof.
  intros [Hs Hu] (_ & _ & Hf & _). destruct pages as [|[n page] pages]; [done|].
  apply bt_sorted_cons in Hs as [Ha _]. apply Forall_cons in Hu as [[? ?] _]. cbn [fst] in *.
  constructor; [cbn; lia|]. rewrite Forall_fmap in Ha. eapply Forall_impl; [exact Ha|].
  intros q Hq. change (n < q.1) in Hq. cbv beta. lia.
Qed.

Lemma existsb_gt eof (pages : list (Z * bytes)) :
  existsb (fun p => eof <? p.1) pages = false -> Forall (fun p => p.1 <= eof) pages.
Proof. intros E%existsb_false_Forall. eapply Forall_impl; [exact E|]. cbn. lia. Qed.

Lemma persist_chunk_ok cs eof ms arts chunk ms' arts' :
  chunk ∈ cs -> changed_ok chunk -> (length chunk <= pack_capacity)%nat -> artifacts_ok arts ->
  persist_chunk eof (ms, arts) chunk = Ok (ms', arts') ->
  grows arts arts' /\ Forall (fun p => 0 < p.1 <= eof /\ len p.2 = PAGE_SIZE) chunk /\
  exists new, ms' = ms ++ new /\ Forall2 (maps_page cs arts') new chunk.
Proof.
  intros Hin [Hs Hu] Hlen Hok. unfold persist_chunk. rewrite bt_of_list_sorted by done.
  intros E. inv_ok. unfold of_protocol in *. inv_ok.
  match goal with H : existsb _ _ = false |- _ => apply existsb_gt in H as Heof end.
  match goal with H : encode_page_pack _ _ = Ok ?b |- _ => apply encode_page_pack_ok in H as [Hpages ->] end.
  match goal with H : pack_uri _ = Ok ?u |- _ => rename H into Huri; rename u into uri end.
  match goal with H : decode_pack_index _ = Ok ?i |- _ => rename H into Hdec end.
  assert (Forall (fun p : Z * bytes => len p.2 = PAGE_SIZE) chunk) as Hall by apply Hpages.
  set (b := pack_bytes PAGE_SIZE chunk) in *.
  assert (len b = 64 + (64 + PAGE_SIZE) * len chunk) as Hb by (by apply pack_bytes_len).
  assert (len b < 2 ^ 63) as Hb63.
  { assert (len chunk <= 252) by (unfold len; change pack_capacity with 252%nat in Hlen; lia).
    unfold PAGE_SIZE in *. lia. }
  pose proof (decode_pack_bytes PAGE_SIZE chunk Hpages Hs Hu Hb63) as Hd. fold b in Hd.
  rewrite Hd in Hdec. injection Hdec as <-. clear Hd.
  destruct (artifacts_insert (MkArtifact uri b) arts Hok) as (Hok' & Hst & Hkeep); [split; [done|by right]|].
  cbn [a_uri] in Hok', Hst, Hkeep. split; [done|]. split.
  { pose proof (pages_positive _ _ (conj Hs Hu) Hpages) as Hpos.
    apply Forall_forall. intros p Hp. rewrite Forall_forall in Heof, Hpos, Hall.
    split; [split; [by apply Hpos|by apply Heof]|by apply Hall]. }
  eexists. split; [done|].
  cbn [pi_entries]. apply Forall2_lookup. intros j. rewrite list_lookup_fmap.
  destruct (chunk !! j) as [[n page]|] eqn:Ej.
  - rewrite (pack_entries_lookup _ _ _ 0 j _ Ej). constructor.
    unfold maps_page, mapping_of, pack_entry. cbn. split_and!; try done.
    exists chunk. split; [done|]. split_and!; try done; [apply (pack_payload PAGE_SIZE chunk j n page); done|by exists j].
  - apply lookup_ge_None in Ej. rewrite (proj2 (lookup_ge_None _ _)); [constructor|].
    by rewrite pack_entries_length.
Qed.

Lemma persist_chunks_ok all eof cs : (forall c, c ∈ cs -> c ∈ all) -> forall ms arts ms' arts',
  changed_ok (concat cs) -> Forall (fun c => (length c <= pack_capacity)%nat) cs -> artifacts_ok arts ->
  try_fold (persist_chunk eof) (ms, arts) cs = Ok (ms', arts') ->
  grows arts arts' /\ Forall (fun p => 0 < p.1 <= eof /\ len p.2 = PAGE_SIZE) (concat cs) /\
  exists new, ms' = ms ++ new /\ Forall2 (maps_page all arts') new (concat cs).
Proof.
  induction cs as [|c cs IH]; intros Hin ms arts ms' arts' Hch Hcap Hok E; cbn [try_fold concat] in *.
  { injection E as <- <-. split; [apply grows_refl|]. split; [done|].
    exists []. by rewrite app_nil_r. }
  apply changed_app in Hch as [Hc Hcs]. apply Forall_cons in Hcap as [Hcap1 Hcap].
  apply bind_ok in E as ([ms1 arts1] & E1 & E).
  destruct (persist_chunk_ok all _ _ _ _ _ _ (Hin c ltac:(left)) Hc Hcap1 Hok E1) as (Hg1 & He1 & new1 & -> & Hm1).
  destruct (Hg1 Hok) as [Hok1 _].
  destruct (IH (fun c' Hc' => Hin c' ltac:(by right)) _ _ _ _ Hcs Hcap Hok1 E) as (Hg2 & He2 & new2 & -> & Hm2).
  split; [by eapply grows_trans|]. split; [by apply Forall_app|].
  exists (new1 ++ new2). split; [by rewrite app_assoc|]. apply Forall2_app; [|done].
  eapply Forall2_impl; [exact Hm1|]. intros e p. by apply maps_page_grows.
Qed.

Lemma maps_pages cs arts ms changed :
  Forall2 (maps_page cs arts) ms changed -> pages_of ms = changed.*1.
Proof.
  induction 1 as [|e p ms changed (Hp & _) _ IH]; [done|]. by rewrite pages_of_cons, IH, Hp.
Qed.

Lemma maps_lookup cs arts ms changed n :
  Forall2 (maps_page cs arts) ms changed ->
  match bt_get n changed with
  | Some page => exists e, lookup_page n ms = Some e /\ maps_page cs arts e (n, page)
  | None => lookup_page n ms = None
  end.
Proof.
  induction 1 as [|e [k page] ms changed Hm _ IH]; cbn [bt_get]; [done|].
  unfold lookup_page in *. cbn [keyed map bt_get]. fold (keyed ms).
  assert (e_page_number e = k) as -> by apply Hm.
  destruct (ocmp n k) eqn:E; [|done..]. apply ocmp_eq in E as ->. eauto.
Qed.
End packs.

(** ** Growing one root *)

Section grow.
Context `{HexCrate} `{Sha2Crate}.

Lemma major_len k v : 1 <= len (major k v) <= 9.
Proof. unfold major. repeat case_match; rewrite ?len_cons, ?be_bytes_len, ?len_nil; cbn; lia. Qed.

Lemma enc_text_len s : len (enc_text s) <= 9 + str_len s.
Proof. unfold enc_text, str_len. rewrite len_app. pose proof (major_len 3 (len (as_bytes s))). lia. Qed.

Lemma enc_unsigned_len v : len (enc_unsigned v) <= 9.
Proof. apply (major_len 0 v). Qed.

(** A content-addressed reference is short. *)
Lemma sealed_branch_len t : sealed t -> len (encode_branch (branch_of t)) <= 256.
Proof.
  intros (b & uri & _ & Hu & Hr). pose proof (wf_digest b) as Hd. rewrite map_uri_some in Hu by done.
  assert (MkUri ("_otmp/page-maps/" +:+ hex_encode (sha_bytes (digest b)) +:+ ".cbor") = uri) as Hu'
    by congruence. clear Hu. unfold encode_branch, encode_ref, branch_of. cbn [b_child b_max_page].
  rewrite Hr. cbn [ref_uri ref_sha256 ref_length].
  assert (str_len (uri_str uri) = 85) as Huri.
  { rewrite <- Hu'. cbn [uri_str]. unfold str_len. rewrite !as_bytes_app, !len_app.
    assert (len (as_bytes (hex_encode (sha_bytes (digest b)))) = 64) as ->.
    { unfold len. rewrite hex_encode_length. unfold wf_sha in Hd. lia. }
    reflexivity. }
  unfold enc_bytes. rewrite !len_app. unfold enc_map_len.
  pose proof (enc_text_len (uri_str uri)). pose proof (enc_unsigned_len (len b)).
  pose proof (enc_unsigned_len (t_max t)).
  pose proof (major_len 2 (len (sha_bytes (digest b)))).
  assert (len (sha_bytes (digest b)) = 32) by (unfold len; by rewrite Hd).
  change (len (major 5 2)) with 1. change (len (major 5 3)) with 1.
  change (len (enc_text "child")) with 6. change (len (enc_text "uri")) with 4.
  change (len (enc_text "length")) with 7. change (len (enc_text "sha256")) with 7.
  change (len (enc_text "max_page")) with 9. lia.
Qed.

Lemma enc_list_bound {A} (enc : A -> bytes) k l :
  Forall (fun a => len (enc a) <= k) l -> len (enc_list enc l) <= k * len l.
Proof.
  induction 1 as [|a l Ha _ IH]; [by rewrite Z.mul_0_r|]. rewrite enc_list_cons, len_app, len_cons. lia.
Qed.

(** At most 128 content-addressed children always fit a node. *)
Lemma create_internal_some l cs arts :
  Forall sealed cs -> len cs <= CAPACITY ->
  PageMapNode.validate (PageMapNode.Internal l (map branch_of cs)) = Ok tt ->
  is_ok (create_tree (PageMapNode.Internal l (map branch_of cs)) cs arts) = true.
Proof.
  intros Hs Hc Hv. unfold create_tree. set (node := PageMapNode.Internal l (map branch_of cs)) in *.
  assert (encode_page_map node = Ok (page_map_bytes node)) as ->.
  { apply encode_page_map_ok. split; [done|]. split; [done|].
    unfold node. cbn [page_map_bytes]. rewrite !len_app. unfold enc_array_len, enc_map_len.
    pose proof (major_len 4 (len (map branch_of cs))).
    pose proof (enc_unsigned_len l).
    assert (len (enc_list encode_branch (map branch_of cs)) <= 256 * len (map branch_of cs)) as Hl.
    { apply enc_list_bound, Forall_fmap. eapply Forall_impl; [exact Hs|]. apply sealed_branch_len. }
    rewrite len_map in *. unfold MAX_PAGE_MAP_BYTES, CAPACITY in *.
    change (len (major 5 4)) with 1. change (len (enc_text "level")) with 6.
    change (len (enc_text "entries")) with 8. change (len (enc_text "version")) with 8.
    change (len (enc_unsigned 1)) with 1. change (len (enc_text "node_type")) with 10.
    change (len (enc_text "internal")) with 9. lia. }
  cbn [of_protocol map_err mbind result_bind].
  unfold object_hash. rewrite map_uri_some by apply wf_digest. done.
Qed.

(** Building parents of more than one content-addressed tree gives fewer trees. *)
Lemma internal_shrinks l fuel : forall cs arts ts arts',
  Forall sealed cs -> (length cs <= fuel)%nat ->
  split_nodes (fun cs => (PageMapNode.Internal l (map branch_of cs), cs)) fuel cs arts = Ok (ts, arts') ->
  (length ts <= length cs)%nat /\ ((1 < length cs)%nat -> (length ts < length cs)%nat) /\ Forall sealed ts.
Proof.
  induction fuel as [|fuel IH]; intros cs arts ts arts' Hs Hf E; cbn [split_nodes] in E;
    (destruct (Z.eqb_spec (len cs) 0) as [E0|E0];
     [injection E as <- <-; apply len_zero in E0 as ->; cbn; split_and!; (done || lia)|]).
  { unfold len in E0. lia. }
  apply bind_ok in E as (u & Hv & E). unfold of_protocol in Hv. apply map_err_ok in Hv. destruct u.
  destruct (len cs <=? CAPACITY) eqn:Ec; bool_to_prop.
  - pose proof (create_internal_some l cs arts Hs Ec Hv) as Hc.
    destruct (create_tree _ cs arts) as [[t a]|] eqn:Et; [|done]. injection E as <- <-.
    apply create_tree_ok in Et as (_ & _ & _ & _ & Hseal & _). cbn. unfold len in E0.
    split_and!; [lia|lia|by constructor].
  - apply bind_ok in E as ([n1 a1] & E1 & E). apply bind_ok in E as ([n2 a2] & E2 & [= <- <-]).
    unfold len, CAPACITY in *.
    pose proof (Nat.div_mod_eq (length cs) 2). pose proof (Nat.mod_upper_bound (length cs) 2).
    apply IH in E1 as (? & Hl1 & ?); [|by apply Forall_take|rewrite length_take; lia].
    apply IH in E2 as (? & ? & ?); [|by apply Forall_drop|rewrite length_drop; lia].
    rewrite length_take in *. rewrite length_drop in *. rewrite length_app.
    split_and!; [lia|intros _; lia|by apply Forall_app].
Qed.
End grow.

(** ** The persisted tree *)

Section persist.
Context `{HexCrate} `{Sha2Crate}.

Definition image_entries (root : option Tree) : list PageMapEntry :=
  match root with Some t => entries_of t | None => [] end.

Lemma leaf_nodes_sealed es arts ts arts' :
  artifacts_ok arts -> leaf_nodes es arts = Ok (ts, arts') -> Forall sealed ts.
Proof.
  intros Hok E. unfold leaf_nodes in E. apply split_nodes_ok in E as (_ & cs & _ & H2); [|exact Hok].
  induction H2 as [|t c ts cs Hb _ IH]; constructor; [by apply built_fresh in Hb as [? _]|done].
Qed.

Lemma internal_nodes_sealed l cs arts ts arts' :
  artifacts_ok arts -> internal_nodes cs l arts = Ok (ts, arts') -> Forall sealed ts.
Proof.
  intros Hok E. unfold internal_nodes in E. apply split_nodes_ok in E as (_ & chs & _ & H2); [|exact Hok].
  clear -H2. induction H2 as [|t c ts chs Hb _ IH]; constructor; [by apply built_fresh in Hb as [? _]|done].
Qed.

Lemma update_roots l eof t changes arts ts arts' :
  tree_inv l t -> increasing 0 (pages_of changes) -> artifacts_ok arts ->
  update t changes eof arts = Ok (ts, arts') -> ts = [t] \/ Forall sealed ts.
Proof.
  intros Hinv Hch Hok E. destruct t as [r n cs mn mx]. cbn [update] in E.
  destruct (_ && _); [left; by injection E as <- _|].
  destruct (_ && _); [right; by injection E as <- _|]. right.
  destruct n as [es|l' bs]; [by eapply leaf_nodes_sealed|].
  destruct (tree_inv_children l _ _ _ _ _ _ _ eq_refl Hinv) as (-> & Hl & Hne & Hcs & Hics).
  apply bind_ok in E as ([new a1] & Ec & E).
  destruct (update_children_ok (l - 1) eof cs changes arts (new, a1)) as (Hg & _);
    try done. { apply Forall_forall. intros. apply update_ok. }
  eapply internal_nodes_sealed; [|exact E]. by apply (Hg Hok).
Qed.

Lemma grow_total fuel : forall roots arts,
  (length roots <= fuel)%nat -> (length roots <= 1)%nat \/ Forall sealed roots -> artifacts_ok arts ->
  grow_roots fuel roots arts <> None.
Proof.
  induction fuel as [|fuel IH]; intros roots arts Hf Hs Hok; cbn [grow_roots].
  { destruct roots; [done|cbn in Hf; lia]. }
  destruct (Z.leb_spec (len roots) 1) as [|Hgt]; [done|]. unfold len in Hgt.
  destruct Hs as [|Hs]; [lia|]. destruct roots as [|r roots]; [cbn in Hgt; lia|]. cbn [head].
  destruct (internal_nodes _ _ arts) as [[ts arts']|e] eqn:E; [|done]. unfold internal_nodes in E.
  pose proof (split_nodes_ok _ _ _ _ _ _ Hok E) as [Hg _].
  apply internal_shrinks in E as (_ & Hlt & Hs'); [|done|done].
  apply IH; [lia|by right|by apply (Hg Hok)].
Qed.

Lemma grow_ok fuel : forall l roots arts ts arts',
  Forall (shape l) roots -> artifacts_ok arts ->
  grow_roots fuel roots arts = Some (Ok (ts, arts')) ->
  grows arts arts' /\ (length ts <= 1)%nat /\ (exists l', Forall (shape l') ts) /\
  all_entries ts = all_entries roots /\
  Forall (fun x => fresh arts' x \/ x ∈ all_subtrees roots) (all_subtrees ts).
Proof.
  induction fuel as [|fuel IH]; intros l roots arts ts arts' Hs Hok; cbn [grow_roots];
    (destruct (Z.leb_spec (len roots) 1) as [Hle|Hgt];
     [intros [= <- <-]; unfold len in Hle; split_and!; try done; [lia|eauto|];
      apply Forall_forall; by right|]); [done|].
  destruct roots as [|r roots]; [done|]. cbn [head].
  pose proof Hs as Hs0. apply Forall_cons in Hs0 as [Hr _]. destruct (shape_level l r Hr) as [-> Hl0].
  destruct (internal_nodes _ _ arts) as [[ts1 arts1]|e] eqn:E; [|done]. intros E2.
  destruct (internal_nodes_ok (l + 1) (r :: roots) arts ts1 arts1) as (Hg1 & Hs1 & He1 & Hf1); try done.
  { lia. } { by replace (l + 1 - 1) with l by lia. }
  destruct (Hg1 Hok) as [Hok1 _].
  destruct (IH (l + 1) ts1 arts1 ts arts') as (Hg2 & Hlen & Hs2 & He2 & Hf2); try done.
  split; [by eapply grows_trans|]. split; [done|]. split; [done|]. split; [by rewrite He2|].
  eapply Forall_impl; [exact Hf2|]. intros x [Hx|Hx]; [by left|].
  rewrite Forall_forall in Hf1. apply Hf1 in Hx as [Hx|Hx]; [left|by right]. by eapply fresh_grows.
Qed.

Lemma collapse_ok t : forall l, shape l t ->
  (exists l', shape l' (collapse t)) /\ entries_of (collapse t) = entries_of t /\
  forall x, x ∈ subtrees (collapse t) -> x ∈ subtrees t.
Proof.
  induction t as [r n cs mn mx IH] using tree_ind'. intros l Hs. cbn [collapse].
  destruct cs as [|c [|c2 cs]]; [by eauto| |by eauto].
  inversion Hs; subst. apply Forall_cons in IH as [IH _].
  match goal with H : Forall (shape _) [c] |- _ => apply Forall_cons in H as [Hc _] end.
  destruct (IH _ Hc) as (Hl & He & Hx). split; [done|]. split.
  - rewrite He. cbn [entries_of map concat]. by rewrite app_nil_r.
  - intros x Hin%Hx. cbn [subtrees map concat]. rewrite app_nil_r. by right.
Qed.

(** *** Reachable references *)

Fixpoint references_of (t : Tree) : list PageObjectReference :=
  match t with
  | MkTree reference node children _ _ =>
    reference :: match node with
                 | PageMapNode.Leaf entries => map e_pack entries
                 | PageMapNode.Internal _ _ => concat (map references_of children)
                 end
  end.

Lemma try_fold_map {E S A B} (f : S -> B -> result E S) (g : A -> B) l : forall s,
  try_fold f s (map g l) = try_fold (fun s a => f s (g a)) s l.
Proof. induction l as [|a l IH]; intros s; cbn; [done|]. destruct (f s (g a)); cbn; [apply IH|done]. Qed.

Lemma reachable_fold t : forall refs, reachable t refs = try_fold add_reference refs (references_of t).
Proof.
  induction t as [r n cs mn mx IH] using tree_ind'. intros refs. cbn [reachable references_of try_fold].
  destruct (add_reference refs r) as [refs1|e]; [|done]. cbn [mbind result_bind].
  destruct n as [es|l bs]; [by rewrite try_fold_map|].
  revert refs1. induction cs as [|c cs IHcs]; intros refs1; [done|].
  apply Forall_cons in IH as [IHc IH]. cbn [map concat]. rewrite try_fold_app, <- IHc.
  destruct (reachable c refs1); cbn [mbind result_bind]; [by apply IHcs|done].
Qed.

Lemma add_reference_ok refs r refs' :
  bt_sorted refs -> add_reference refs r = Ok refs' ->
  bt_sorted refs' /\ bt_get (uri_str (ref_uri r)) refs' = Some r /\
  forall k x, bt_get k refs = Some x -> bt_get k refs' = Some x.
Proof.
  intros Hs E. unfold add_reference in E. inv_ok. split_and!.
  - by apply bt_sorted_insert.
  - rewrite bt_get_insert by done. by rewrite ocmp_refl.
  - intros k y Hk. rewrite bt_get_insert by done. destruct (ocmp k _) eqn:Ec; [|done..].
    apply ocmp_eq in Ec as ->. rewrite Hk in H1. by bool_to_prop; subst.
Qed.

Lemma add_references_ok rs : forall refs refs',
  bt_sorted refs -> try_fold add_reference refs rs = Ok refs' ->
  bt_sorted refs' /\ (forall r, r ∈ rs -> bt_get (uri_str (ref_uri r)) refs' = Some r) /\
  forall k x, bt_get k refs = Some x -> bt_get k refs' = Some x.
Proof.
  induction rs as [|r rs IH]; intros refs refs' Hs E; cbn [try_fold] in E.
  { injection E as <-. split; [done|]. split; [intros r Hr; by apply not_elem_of_nil in Hr|done]. }
  apply bind_ok in E as (refs1 & E1 & E). destruct (add_reference_ok _ _ _ Hs E1) as (Hs1 & Hr & Hk1).
  destruct (IH _ _ Hs1 E) as (Hs2 & Hrs & Hk2). split; [done|]. split; [|by eauto].
  intros x [->|Hx]%elem_of_cons; eauto.
Qed.

Lemma references_subtree t x : x ∈ subtrees t -> forall l, shape l t -> t_reference x ∈ references_of t.
Proof.
  induction t as [r n cs mn mx IH] using tree_ind'. intros Hx l Hs. cbn [subtrees references_of] in *.
  apply elem_of_cons in Hx as [->|Hx]; [left|right].
  inversion Hs as [r' es Hne|r' l' cs' Hl Hne Hcs]; subst; [by apply not_elem_of_nil in Hx|].
  rewrite Forall_forall in IH, Hcs. apply elem_of_concat_map in Hx as (c & Hc & Hx).
  apply elem_of_concat_map. exists c. split; [done|].
  by apply (IH c Hc Hx (l - 1)), Hcs.
Qed.
(** *** The stages of [persist] *)

Definition parent_ok (parent : option Tree) : Prop :=
  match parent with Some t => exists l, tree_inv l t | None => True end.
Definition image_subtrees (root : option Tree) : list Tree :=
  match root with Some t => subtrees t | None => [] end.

Lemma artifacts_nil : artifacts_ok [].
Proof. split; constructor. Qed.

Lemma persist_roots_ok parent ms eof arts ts arts' :
  parent_ok parent -> increasing 0 (pages_of ms) -> artifacts_ok arts ->
  persist_roots parent ms eof arts = Ok (ts, arts') ->
  grows arts arts' /\ (exists l, Forall (shape l) ts) /\
  all_entries ts = leaf_pages (image_entries parent) ms eof /\
  Forall (fun x => fresh arts' x \/ x ∈ image_subtrees parent) (all_subtrees ts) /\
  ((length ts <= 1)%nat \/ Forall sealed ts).
Proof.
  intros Hp Hi Hok E. destruct parent as [t|]; cbn [persist_roots image_entries image_subtrees] in *.
  - destruct Hp as [l Ht].
    destruct (update_ok eof t l ms arts (ts, arts') Ht Hi Hok E) as (Hg & Hs & He & Hf).
    split_and!; try done; [by exists l|].
    destruct (update_roots _ _ _ _ _ _ _ Ht Hi Hok E) as [->|?]; [by left|by right].
  - destruct (leaf_nodes_ok _ _ _ _ Hok E) as (Hg & Hs & He & Hf). split_and!; try done.
    + by exists 0.
    + rewrite He, (leaf_pages_extend 0) by apply increasing_nil.
      change (keyed (kept eof [])) with (@nil (Z * PageMapEntry)). by rewrite (extend_keyed 0), keyed_snd.
    + eapply Forall_impl; [exact Hf|]. by left.
    + right. by eapply leaf_nodes_sealed.
Qed.

Lemma capacity_positive : (0 < pack_capacity)%nat.
Proof. change pack_capacity with 252%nat. lia. Qed.

Lemma chunks_maps changed eof ms arts :
  changed_ok changed ->
  try_fold (persist_chunk eof) ([], []) (chunks pack_capacity changed) = Ok (ms, arts) ->
  artifacts_ok arts /\ Forall (fun p => 0 < p.1 <= eof /\ len p.2 = PAGE_SIZE) changed /\
  Forall2 (maps_page (chunks pack_capacity changed) arts) ms changed /\ increasing 0 (pages_of ms).
Proof.
  intros Hch E. assert (concat (chunks pack_capacity changed) = changed) as Hc
    by (apply chunks_concat, capacity_positive).
  destruct (persist_chunks_ok (chunks pack_capacity changed) eof (chunks pack_capacity changed)
    (fun c Hin => Hin) [] [] ms arts) as (Hg & He & new & -> & Hm).
  { by rewrite Hc. }
  { eapply Forall_impl; [apply chunks_bound, capacity_positive|]. by intros c [_ ?]. }
  { apply artifacts_nil. }
  { done. }
  rewrite Hc in He, Hm.
  split; [by apply Hg, artifacts_nil|]. split; [done|]. split; [done|].
  rewrite app_nil_l, (maps_pages _ _ _ _ Hm). destruct Hch as [Hs _]. constructor; [exact Hs|].
  apply Forall_fmap. eapply Forall_impl; [exact He|]. cbn. lia.
Qed.

(** [persist] runs to a result: the loop that adds levels ends. *)
Lemma persist_some parent changed eof :
  parent_ok parent -> changed_ok changed -> persist parent changed eof <> None.
Proof.
  intros Hp Hch. unfold persist.
  destruct (try_fold _ _ _) as [[ms arts]|e] eqn:E; [|done]. cbn [mbind result_bind].
  destruct (persist_roots _ _ _ _) as [[ts arts1]|e] eqn:E1; [|done].
  destruct (chunks_maps _ _ _ _ Hch E) as (Hok & _ & _ & Hi).
  destruct (persist_roots_ok _ _ _ _ _ _ Hp Hi Hok E1) as (Hg & _ & _ & _ & Hroots).
  pose proof (grow_total (length ts) ts arts1 (le_n _) Hroots (proj1 (Hg Hok))) as Hgrow.
  by destruct (grow_roots _ _ _).
Qed.
Definition image_references (root : option Tree) : list PageObjectReference :=
  match root with Some t => references_of t | None => [] end.

Lemma references_entry t e : e ∈ entries_of t -> forall l, shape l t -> e_pack e ∈ references_of t.
Proof.
  induction t as [r n cs mn mx IH] using tree_ind'. intros He l Hs. cbn [entries_of references_of] in *.
  right. inversion Hs as [r' es Hne|r' l' cs' Hl Hne Hcs]; subst.
  { apply list_elem_of_fmap. eauto. }
  rewrite Forall_forall in IH, Hcs. apply elem_of_concat_map in He as (c & Hc & He).
  apply elem_of_concat_map. exists c. split; [done|]. by apply (IH c Hc He (l - 1)), Hcs.
Qed.

Lemma finish_persist_ok l roots arts img :
  (length roots <= 1)%nat -> Forall (shape l) roots -> artifacts_ok arts ->
  finish_persist roots arts = Ok img ->
  let root := collapse <$> last roots in
  i_root img = root_of <$> root /\
    (forall t, root = Some t -> exists l, shape l t) /\ image_entries root = all_entries roots /\
    (forall x, x ∈ image_subtrees root -> x ∈ all_subtrees roots) /\
    forall r a, r ∈ image_references root ->
      bt_get (uri_str (ref_uri r)) arts = Some a -> a ∈ i_artifacts img.
Proof.
  intros Hlen Hs Hok E. unfold finish_persist in E. cbn zeta.
  apply bind_ok in E as (refs & Er & E). apply bind_ok in E as (total & _ & [= <-]). cbn [i_root i_artifacts].
  split; [done|].
  assert (forall r, r ∈ image_references (collapse <$> last roots) ->
    bt_get (uri_str (ref_uri r)) refs = Some r) as Hrefs.
  { intros r Hr. destruct (last roots) as [t|]; cbn in *; [|by apply not_elem_of_nil in Hr].
    rewrite reachable_fold in Er. apply add_references_ok in Er as (_ & Hr' & _); [|constructor]. by apply Hr'. }
  assert (forall r a, r ∈ image_references (collapse <$> last roots) ->
    bt_get (uri_str (ref_uri r)) arts = Some a ->
    a ∈ map snd (filter (fun '(uri, _) => bt_contains uri refs = true) arts)) as Hkeep.
  { intros r a Hr Ha. apply list_elem_of_fmap. exists (uri_str (ref_uri r), a). split; [done|].
    apply list_elem_of_filter. split; [|by apply bt_get_some_elem].
    unfold bt_contains. by rewrite (Hrefs r Hr). }
  destruct roots as [|t [|t2 roots]]; [|clear Er Hrefs|cbn in Hlen; lia]; cbn [last fmap option_fmap option_map] in *.
  { split_and!; try done. }
  apply Forall_cons in Hs as [Ht _]. destruct (collapse_ok t l Ht) as (Hl & He & Hsub).
  cbn [image_entries image_subtrees]. unfold all_entries, all_subtrees. cbn [map concat]. rewrite !app_nil_r.
  split_and!; try done. by intros ? [= <-].
Qed.
(** *** What the produced objects hold *)

(** Entry [e] serves the page: the pack it names is one of the produced
    artifacts, and the mapped range of that pack is the page. Two inputs with one
    digest are the only exception, and the two inputs are named. *)
Definition serves (changed : list (Z * bytes)) (arts : list Artifact) (e : PageMapEntry)
    (page : bytes) : Prop :=
  e_codec e = PageCodec.None /\ e_raw_length e = PAGE_SIZE /\ e_page_sha256 e = digest page /\
  exists a chunk, a ∈ arts /\ chunk ∈ chunks pack_capacity changed /\
    a_uri a = ref_uri (e_pack e) /\ digest (a_bytes a) = ref_sha256 (e_pack e) /\
    ((len (a_bytes a) = ref_length (e_pack e) /\
      slice (a_bytes a) (e_offset e) (e_offset e + e_stored_length e) = Some page) \/
     collides (a_bytes a) (pack_bytes PAGE_SIZE chunk)).

(** Node [x] is written: the artifact it names holds its encoding. *)
Definition written (arts : list Artifact) (x : Tree) : Prop :=
  exists a b, a ∈ arts /\ encode_page_map (t_node x) = Ok b /\
    t_reference x = MkRef (a_uri a) (digest b) (len b) /\ (a_bytes a = b \/ collides (a_bytes a) b).

Lemma artifact_uri arts k a : artifacts_ok arts -> bt_get k arts = Some a -> uri_str (a_uri a) = k.
Proof.
  intros [_ Hall] Hk%bt_get_some_elem. rewrite Forall_forall in Hall. by destruct (Hall _ Hk) as [? _].
Qed.

Lemma fresh_written arts out x :
  artifacts_ok arts ->
  (forall a, bt_get (uri_str (ref_uri (t_reference x))) arts = Some a -> a ∈ out) ->
  fresh arts x -> written out x.
Proof.
  intros Hok Hout [(b & uri & Hb & Hu & Hr) [a Ha]]. exists a, b.
  pose proof (artifact_uri _ _ _ Hok Ha) as Hk. rewrite Hr in *. cbn [ref_uri] in *.
  assert (a_uri a = uri) as Huri by (destruct (a_uri a), uri; cbn in Hk; by subst).
  split; [by apply Hout|]. split; [done|]. split; [by rewrite Huri|].
  apply digest_inj. apply (stored_digest _ _ _ _ Hok Ha (wf_digest b)). left. rewrite Hu. by destruct uri.
Qed.

Lemma maps_serves changed arts out e n page :
  artifacts_ok arts ->
  (forall a, bt_get (uri_str (ref_uri (e_pack e))) arts = Some a -> a ∈ out) ->
  maps_page (chunks pack_capacity changed) arts e (n, page) -> serves changed out e page.
Proof.
  intros Hok Hout (_ & Hc & Hr & Hh & chunk & Hin & Hu & Hsha & Hlen & Hsl & [a Ha] & _). cbn [snd] in *.
  split_and!; try done. exists a, chunk.
  assert (digest (a_bytes a) = digest (pack_bytes PAGE_SIZE chunk)) as Hd.
  { apply (stored_digest _ _ _ _ Hok Ha (wf_digest _)). right. rewrite Hu. by destruct (ref_uri (e_pack e)). }
  pose proof (artifact_uri _ _ _ Hok Ha) as Hk.
  split; [by apply Hout|]. split; [done|].
  split; [destruct (a_uri a), (ref_uri (e_pack e)); cbn in Hk; by subst|]. split; [by rewrite Hd|].
  destruct (digest_inj _ _ Hd) as [E|?]; [left|by right]. by rewrite E.
Qed.

(** The tree whose root [persist] returns: the stages of [persist] but for the last,
    which turns the tree into a reference to its root. *)
Definition persisted_tree (parent : option Tree) (changed : list (Z * bytes)) (eof : Z) : option Tree :=
  match ('(mappings, artifacts) ← try_fold (persist_chunk eof) ([], []) (chunks pack_capacity changed);
         persist_roots parent mappings eof artifacts) with
  | Err _ => None
  | Ok (roots, artifacts) =>
    match grow_roots (length roots) roots artifacts with
    | Some (Ok (roots, _)) => collapse <$> last roots
    | _ => None
    end
  end.

(** The stages of [persist] put together. *)
Lemma persist_stages parent changed eof img :
  parent_ok parent -> changed_ok changed -> persist parent changed eof = Some (Ok img) ->
  let root := persisted_tree parent changed eof in
  exists ms arts,
    i_root img = root_of <$> root /\ parent_ok root /\ artifacts_ok arts /\
    image_entries root = leaf_pages (image_entries parent) ms eof /\ increasing 0 (pages_of ms) /\
    Forall2 (maps_page (chunks pack_capacity changed) arts) ms changed /\
    Forall (fun p => 0 < p.1 <= eof /\ len p.2 = PAGE_SIZE) changed /\
    (forall x, x ∈ image_subtrees root -> fresh arts x \/ x ∈ image_subtrees parent) /\
    forall r a, r ∈ image_references root ->
      bt_get (uri_str (ref_uri r)) arts = Some a -> a ∈ i_artifacts img.
Proof.
  intros Hp Hch E. unfold persist in E. unfold persisted_tree.
  destruct (try_fold _ _ _) as [[ms arts]|e] eqn:Em; [|done]. cbn [mbind result_bind] in *.
  destruct (persist_roots _ _ _ _) as [[ts arts1]|e] eqn:E1; [|done].
  destruct (chunks_maps _ _ _ _ Hch Em) as (Hok & Hpos & Hm & Hi).
  destruct (persist_roots_ok _ _ _ _ _ _ Hp Hi Hok E1) as (Hg1 & [l Hs1] & He1 & Hf1 & _).
  destruct (Hg1 Hok) as [Hok1 _].
  destruct (grow_roots _ _ _) as [[[ts2 arts2]|e]|] eqn:E2; [|done..]. injection E as E.
  destruct (grow_ok _ _ _ _ _ _ Hs1 Hok1 E2) as (Hg2 & Hlen & [l2 Hs2] & He2 & Hf2).
  destruct (Hg2 Hok1) as [Hok2 _]. cbn [mbind result_bind] in E.
  destruct (finish_persist_ok _ _ _ _ Hlen Hs2 Hok2 E) as (Hroot & Hshape & Hent & Hsub & Hkeep). set (root := collapse <$> last ts2) in *. exists ms, arts2.
  rewrite Hent, He2, He1. split_and!; try done.
  - destruct root as [t|]; [|done]. destruct (Hshape t eq_refl) as [lt Ht]. exists lt. split; [done|].
    cbn [image_entries] in Hent. rewrite Hent, He2, He1. apply leaf_pages_increasing.
    + destruct parent as [pt|]; [by destruct Hp as (? & _ & ?)|apply increasing_nil].
    + by apply increasing_above.
  - eapply Forall2_impl; [exact Hm|]. intros e p. apply maps_page_grows; [done|].
    by eapply grows_trans.
  - intros x Hx%Hsub. rewrite Forall_forall in Hf1, Hf2. apply Hf2 in Hx as [Hx|Hx]; [by left|].
    apply Hf1 in Hx as [Hx|Hx]; [left|by right]. exact (fresh_grows _ _ _ Hok1 Hg2 Hx).
Qed.

Lemma parent_increasing parent : parent_ok parent -> increasing 0 (pages_of (image_entries parent)).
Proof. destruct parent as [t|]; [by intros (? & _ & ?)|]. intros _. apply increasing_nil. Qed.

Lemma root_references_entry root e :
  parent_ok root -> e ∈ image_entries root -> e_pack e ∈ image_references root.
Proof.
  destruct root as [t|]; [|by intros _ ?%not_elem_of_nil]. intros [l [Hs _]] He.
  by eapply references_entry.
Qed.

Lemma root_references_subtree root x :
  parent_ok root -> x ∈ image_subtrees root -> t_reference x ∈ image_references root.
Proof.
  destruct root as [t|]; [|by intros _ ?%not_elem_of_nil]. intros [l [Hs _]] Hx.
  by eapply references_subtree.
Qed.

Lemma lookup_elem n es e : lookup_page n es = Some e -> e ∈ es.
Proof.
  intros Hl%bt_get_some_elem. apply list_elem_of_fmap in Hl as (e' & [= _ <-] & He). done.
Qed.

Lemma leaf_pages_elem n es ms eof e :
  increasing 0 (pages_of es) -> increasing 0 (pages_of ms) -> lookup_page n ms = Some e ->
  e ∈ leaf_pages es ms eof.
Proof.
  intros Hes Hms Hl. apply (lookup_elem n). by rewrite (leaf_pages_lookup n 0), Hl.
Qed.
End persist.

(** ** Properties *)

(** [persist] always comes to a result: for any well-formed parent and any
    map of changed pages, the loop that adds levels until one root remains ends
    within as many rounds as there are roots. *)
Theorem persist_terminates `{HexCrate} `{Sha2Crate} (parent : option Tree) (changed : list (Z * bytes)) (eof : Z)
    (Hp : parent_ok parent) (Hch : changed_ok changed) :
  exists r, persist parent changed eof = Some r.
Proof. pose proof (persist_some parent changed eof Hp Hch). destruct (persist _ _ _); [eauto|done]. Qed.

(** C18: a persisted image is the parent image overwritten by the changed pages
    and cut at the end of file. The returned root describes a well-formed tree;
    page [n] leads, when changed, into a pack among the produced artifacts whose
    mapped bytes are that page, and otherwise to the parent's entry if [n] is not
    past the end of file; every node of the tree is the parent's or is among the
    artifacts; and no changed page is zero, past the end, or of another size. *)
Theorem persist_correct `{HexCrate} `{Sha2Crate} (parent : option Tree) (changed : list (Z * bytes)) (eof : Z)
    (img : IncrementalImage)
    (Hp : parent_ok parent) (Hch : changed_ok changed) (E : persist parent changed eof = Some (Ok img)) :
  Forall (fun p => 0 < p.1 <= eof /\ len p.2 = PAGE_SIZE) changed /\
  exists root, i_root img = root_of <$> root /\ parent_ok root /\
    (forall n, match bt_get n changed with
               | Some page => exists e, lookup_page n (image_entries root) = Some e /\
                                serves changed (i_artifacts img) e page
               | None => lookup_page n (image_entries root) =
                           if n <=? eof then lookup_page n (image_entries parent) else None
               end) /\
    forall x, x ∈ image_subtrees root -> x ∈ image_subtrees parent \/ written (i_artifacts img) x.
Proof.
  destruct (persist_stages _ _ _ _ Hp Hch E)
    as (ms & arts & Hroot & Hok & Harts & Hent & Hi & Hm & Hpos & Hf & Hkeep). set (root := persisted_tree parent changed eof) in *.
  split; [done|]. exists root. split; [done|]. split; [done|]. split.
  - intros n. pose proof (maps_lookup _ _ _ _ n Hm) as Hn. rewrite Hent, (leaf_pages_lookup n 0); [|by apply parent_increasing|done].
    destruct (bt_get n changed) as [page|].
    + destruct Hn as (e & He & Hmap). rewrite He. exists e. split; [done|].
      apply (maps_serves _ arts _ _ n); [done| |done]. intros a. apply Hkeep.
      apply root_references_entry; [done|]. rewrite Hent. eapply leaf_pages_elem; [|done..]. by apply parent_increasing.
    + by rewrite Hn.
  - intros x Hx. destruct (Hf x Hx) as [Hfr|?]; [right|by left].
    apply (fresh_written arts); [done| |done]. intros a. apply Hkeep. by apply root_references_subtree.
Qed.

Definition example_changed : list (Z * bytes) := [(2, repeat Byte.x61 4096); (3, repeat Byte.x62 4096)].
Definition example_image : IncrementalImage :=
  ok_default (MkIncremental None [] 0) (default (Err (corrupt "no result"))
    (@persist hex_reference sha2_reference (Some example_tree) example_changed 8)).

Lemma example_changed_ok : changed_ok example_changed.
Proof. split; repeat constructor; vm_compute; congruence. Qed.

Lemma persist_terminates_witness :
  exists r, @persist hex_reference sha2_reference (Some example_tree) example_changed 8 = Some r.
Proof.
  apply (@persist_terminates hex_reference sha2_reference (Some example_tree) example_changed 8).
  - exists 0. exact example_tree_inv.
  - exact example_changed_ok.
Defined.

Lemma persist_correct_witness :
  exists root, i_root example_image = root_of <$> root /\
    lookup_page 4 (image_entries root) = Some (example_entry 4) /\
    lookup_page 9 (image_entries root) = None /\
    exists e, lookup_page 3 (image_entries root) = Some e /\
      @serves sha2_reference example_changed (i_artifacts example_image) e (repeat Byte.x62 4096).
Proof.
  destruct (@persist_correct hex_reference sha2_reference (Some example_tree) example_changed 8 example_image
    (ex_intro _ 0 example_tree_inv) example_changed_ok) as (_ & root & Hr & _ & Hl & _).
  - vm_compute. reflexivity.
  - exists root. split; [exact Hr|]. split; [exact (Hl 4)|]. split; [exact (Hl 9)|exact (Hl 3)].
Defined.
