(* ===== verification/PageLoad.v ===== *)
(** Loading a page tree from the store (otmp/src/physical.rs, [load_tree]): which
    trees are accepted, and that nothing else is. *)
From S2P Require Import Prelude Bytes Errors Values Scalars Cbor PageMap PagePack Hashes PageTree.

Section load_proof.
Context (read_page_map : PageObjectReference -> rresult bytes).

Definition uri_of (t : Tree) : string := uri_str (ref_uri (t_reference t)).
Definition uris_of (t : Tree) : list string := map uri_of (subtrees t).

(** The node of [x] is what the store holds under its reference. *)
Definition reads_back (x : Tree) : Prop :=
  ref_length (t_reference x) <= MAX_PAGE_MAP_BYTES /\
  exists b, read_page_map (t_reference x) = Ok b /\ decode_page_map b = Ok (t_node x).

(** The tree [t] of height [level] covers pages of ([lower], [upper]] only, no
    object occurs twice or has been seen before, and every node reads back. *)
Definition loads (t : Tree) (level lower upper : Z) (seen : gset string) : Prop :=
  level <= 64 /\ shape level t /\ increasing lower (pages_of (entries_of t)) /\
  Forall (fun k => k <= upper) (pages_of (entries_of t)) /\
  NoDup (uris_of t) /\ Forall (fun u => u ∉ seen) (uris_of t) /\
  Forall reads_back (subtrees t).

Definition uris (ts : list Tree) : list string := concat (map uris_of ts).

(** The children of a node: their intervals follow one another. *)
Fixpoint loads_children (cs : list Tree) (level previous upper : Z) (seen : gset string) : Prop :=
  match cs with
  | [] => True
  | c :: cs =>
    previous < t_max c <= upper /\ loads c level previous (t_max c) seen /\
    loads_children cs level (t_max c) upper (seen ∪ list_to_set (uris_of c))
  end.

Lemma load_children_iff load level upper cs : forall es previous seen seen',
  (forall c r lo up s s', load r lo up s = Ok (c, s') <->
     r = t_reference c /\ loads c level lo up s /\ s' = s ∪ list_to_set (uris_of c)) ->
  load_children load upper es previous seen = Ok (cs, seen') <->
  es = map branch_of cs /\ loads_children cs level previous upper seen /\
  seen' = seen ∪ list_to_set (uris cs).
Proof.
  induction cs as [|c cs IH]; intros es previous seen seen' Hload.
  - destruct es as [|e es]; cbn [load_children map loads_children].
    + split; [intros [= <-]|intros (_ & _ & ->)]; cbn; rewrite union_empty_r_L; done.
    + split; [|by intros (? & _)]. intros E. apply bind_ok in E as (u & _ & E). apply bind_ok in E as ([c s1] & _ & E).
      apply bind_ok in E as (u2 & _ & E). by apply bind_ok in E as ([cs s2] & _ & E).
  - destruct es as [|e es]; cbn [load_children map loads_children]; [by split; [|intros (? & _)]|].
    split.
    + intros E. apply bind_ok in E as (u & Hb & E). unfold reject in Hb.
      destruct (_ || _) eqn:Eb; [done|]. bool_to_prop.
      apply bind_ok in E as ([c' s1] & Hc & E). apply bind_ok in E as (u2 & Hm & E).
      unfold reject in Hm. destruct (negb _) eqn:Em; [done|]. bool_to_prop.
      apply bind_ok in E as ([cs' s2] & Hcs & [= -> -> <-]).
      apply Hload in Hc as (Hr & Hl & ->). apply (IH _ _ _ _ Hload) in Hcs as (-> & Hls & ->).
      split; [|split].
      * f_equal. unfold branch_of. rewrite Em, <- Hr. by destruct e.
      * rewrite Em. split; [lia|]. split; done.
      * unfold uris. cbn [map concat]. by rewrite list_to_set_app_L, (assoc_L (∪)).
    + intros ([= -> ->] & (Hb & Hl & Hls) & ->). cbn [branch_of b_max_page b_child].
      unfold reject. replace ((_ <=? _) || (_ <? _)) with false by lia. cbn [mbind result_bind].
      rewrite (proj2 (Hload c (t_reference c) previous (t_max c) seen _) (conj eq_refl (conj Hl eq_refl))).
      cbn [mbind result_bind]. rewrite Z.eqb_refl. cbn [negb mbind result_bind].
      rewrite (proj2 (IH _ _ _ _ Hload) (conj eq_refl (conj Hls eq_refl))). cbn [mbind result_bind].
      unfold uris. cbn [map concat]. by rewrite list_to_set_app_L, (assoc_L (∪)).
Qed.
Lemma increasing_raise p q l : increasing p l -> Forall (Z.lt q) l -> increasing q l.
Proof. unfold increasing. intros [? _]%StronglySorted_inv ?. by constructor. Qed.

Lemma last_page l c : shape l c -> last (pages_of (entries_of c)) = Some (t_max c).
Proof. intros Hs. destruct (shape_bounds l c Hs) as (_ & _ & Hl). unfold pages_of. by rewrite fmap_last. Qed.

Lemma last_page_in l c : shape l c -> t_max c ∈ pages_of (entries_of c).
Proof. intros Hs. by apply last_Some_elem_of, (last_page l). Qed.

Lemma increasing_from_app p q l1 l2 :
  increasing p l1 -> Forall (fun k => k <= q) l1 -> increasing q l2 -> p <= q -> increasing p (l1 ++ l2).
Proof.
  intros H1 Hq H2 Hpq. apply increasing_app. pose proof (increasing_above _ _ H2) as Ha.
  rewrite Forall_forall in Hq, Ha. split; [done|]. split.
  - apply (increasing_raise q); [done|]. apply Forall_forall. intros x Hx. specialize (Ha x Hx). lia.
  - intros x y Hx Hy. specialize (Hq x Hx). specialize (Ha y Hy). lia.
Qed.

(** The children read in turn, each from where the previous one ended, are the
    children of one tree over the whole interval. *)
Lemma loads_children_iff cs level : forall previous upper seen,
  level <= 64 ->
  loads_children cs level previous upper seen <->
  Forall (shape level) cs /\ increasing previous (pages_of (all_entries cs)) /\
  Forall (fun k => k <= upper) (pages_of (all_entries cs)) /\
  NoDup (uris cs) /\ Forall (fun u => u ∉ seen) (uris cs) /\ Forall reads_back (all_subtrees cs).
Proof.
  induction cs as [|c cs IH]; intros previous upper seen Hl.
  { cbn. split; [|done]. intros _. split_and!; try constructor; constructor. }
  cbn [loads_children]. rewrite IH by done. unfold loads.
  change (uris (c :: cs)) with (uris_of c ++ uris cs).
  change (all_entries (c :: cs)) with (entries_of c ++ all_entries cs).
  change (all_subtrees (c :: cs)) with (subtrees c ++ all_subtrees cs).
  rewrite Forall_cons, pages_of_app, !Forall_app, NoDup_app. split.
  - intros (Hm & (_ & Hs & Hi & Hu & Hn & Hseen & Hr) & Hss & His & Hus & Hns & Hseens & Hrs).
    split_and!; try done.
    + apply (increasing_from_app _ (t_max c)); try done. lia.
    + eapply Forall_impl; [exact Hu|]. cbn. lia.
    + intros x Hx Hx'. rewrite Forall_forall in Hseens. apply (Hseens x Hx'). set_solver.
    + eapply Forall_impl; [exact Hseens|]. cbn. set_solver.
  - intros ((Hs & Hss) & Hi & (Hu & Hus) & (Hn & Hdis & Hns) & (Hseen & Hseens) & Hr & Hrs).
    apply increasing_app in Hi as (Hi & His & Hlt). pose proof (last_page_in _ _ Hs) as Hin.
    split_and!; try done.
    + apply increasing_above in Hi. rewrite Forall_forall in Hi. by apply Hi.
    + rewrite Forall_forall in Hu. by apply Hu.
    + by eapply increasing_last; [|eapply last_page].
    + apply (increasing_raise previous); [done|]. apply Forall_forall. intros y Hy. by apply Hlt.
    + apply Forall_forall. intros x Hx. rewrite Forall_forall in Hseens.
      specialize (Hseens x Hx). intros [?|Hx'%elem_of_list_to_set]%elem_of_union; [done|].
      by apply (Hdis x).
Qed.

Lemma decoded_node b n : decode_page_map b = Ok n -> wf_node n /\ node_inv n.
Proof.
  intros E. apply decode_page_map_ok in E as [Hw He]. split; [done|].
  apply encode_page_map_ok in He as [Hv _]. by apply validate_node_iff.
Qed.

(** The bounds [load_tree] computes for a node with these children. *)
Definition bounds_of (node : page_node) (cs : list Tree) : Z * Z :=
  match node with
  | PageMapNode.Leaf es => (default 0 (e_page_number <$> head es), default 0 (e_page_number <$> last es))
  | PageMapNode.Internal _ _ => (default 0 (t_min <$> head cs), default 0 (t_max <$> last cs))
  end.

(** One node: a leaf loads by itself, an internal node with its children. *)
Lemma loads_leaf r es level lower upper seen mn mx :
  node_inv (PageMapNode.Leaf es) ->
  let t := MkTree r (PageMapNode.Leaf es) [] mn mx in
  (mn, mx) = bounds_of (PageMapNode.Leaf es) [] ->
  loads t level lower upper seen <->
  level = 0 /\ lower < mn /\ mx <= upper /\ uri_str (ref_uri r) ∉ seen /\ reads_back t.
Proof.
  intros (Hne & Hi & _) t Hb. injection Hb as -> ->. unfold loads, t. cbn [entries_of subtrees map concat uris_of].
  assert (shape 0 t) as Hs by (by constructor).
  change (map e_page_number es) with (pages_of es) in Hi.
  split.
  - intros (_ & Hsh & Hlow & Hup & _ & Hseen & Hr). inversion Hsh; subst.
    apply Forall_cons in Hr as [Hr _]. apply Forall_cons in Hseen as [Hseen _].
    pose proof (last_page_in _ _ Hs) as Hin. cbn [entries_of t_max t] in Hin.
    split_and!; try done.
    + destruct es as [|e es]; [done|]. apply increasing_above in Hlow. by apply Forall_cons in Hlow as [? _].
    + rewrite Forall_forall in Hup. by apply Hup.
  - intros (-> & Hlow & Hup & Hseen & Hr). split_and!; try done.
    + apply (increasing_raise 0); [done|]. destruct es as [|e es]; [done|].
      cbn [pages_of map] in *. apply increasing_cons in Hi as [_ Hi%increasing_above]. cbn in Hlow.
      constructor; [done|]. eapply Forall_impl; [exact Hi|]. cbn. lia.
    + eapply Forall_impl; [exact (increasing_last _ _ _ Hi (last_page _ _ Hs))|]. cbn. lia.
    + apply NoDup_singleton.
    + by apply Forall_singleton.
    + by apply Forall_singleton.
Qed.
Lemma loads_internal r l cs level lower upper seen mn mx :
  cs <> [] -> l <> 0 ->
  let node := PageMapNode.Internal l (map branch_of cs) in
  let t := MkTree r node cs mn mx in
  (mn, mx) = bounds_of node cs -> 0 <= l <= 64 ->
  loads t level lower upper seen <->
  level = l /\ loads_children cs (l - 1) lower upper ({[ uri_str (ref_uri r) ]} ∪ seen) /\
  uri_str (ref_uri r) ∉ seen /\ reads_back t.
Proof.
  intros Hne Hl node t Hb Hrange. injection Hb as -> ->. rewrite loads_children_iff by lia.
  unfold loads, t, node, uris_of. cbn [entries_of subtrees map concat].
  change (map uri_of (concat (map subtrees cs))) with (map uri_of (all_subtrees cs)).
  assert (map uri_of (all_subtrees cs) = uris cs) as ->.
  { unfold all_subtrees, uris, uris_of. by rewrite concat_map, map_map. }
  change (concat (map entries_of cs)) with (all_entries cs).
  change (concat (map subtrees cs)) with (all_subtrees cs).
  rewrite NoDup_cons, !Forall_cons. change (uri_of (MkTree r _ _ _ _)) with (uri_str (ref_uri r)).
  split.
  - intros (_ & Hs & Hi & Hu & [Hnin Hn] & [Hk Hseen] & Hr & Hrs). inversion Hs; subst.
    split_and!; try done.
    apply Forall_forall. intros x Hx. rewrite Forall_forall in Hseen. specialize (Hseen x Hx).
    intros [->%elem_of_singleton|?]%elem_of_union; done.
  - intros (-> & (Hss & Hi & Hu & Hn & Hseen & Hrs) & Hk & Hr). rewrite Forall_forall in Hseen.
    split_and!; try done; try lia.
    + constructor; [lia|done|done].
    + intros Hx%Hseen. set_solver.
    + apply Forall_forall. intros x Hx%Hseen. set_solver.
Qed.

Lemma bounds_below t level lower upper seen :
  loads t level lower upper seen -> lower < t_min t /\ t_max t <= upper.
Proof.
  intros (_ & Hs & Hi & Hu & _). split.
  - destruct (shape_bounds _ _ Hs) as (_ & Hh & _). apply increasing_above in Hi.
    destruct (entries_of t) as [|e es]; [done|]. cbn in Hh. injection Hh as <-.
    by apply Forall_cons in Hi as [? _].
  - rewrite Forall_forall in Hu. by apply Hu, (last_page_in level).
Qed.

Lemma uris_of_node r n cs mn mx : uris_of (MkTree r n cs mn mx) = uri_str (ref_uri r) :: uris cs.
Proof.
  unfold uris_of, uris. cbn [subtrees map]. f_equal. unfold uris_of. by rewrite concat_map, map_map.
Qed.

(** The children and bounds of a decoded node. *)
Definition load_node depth (node : page_node) level lower upper seen
  : rresult (list Tree * Z * Z * gset string) :=
  match node with
  | PageMapNode.Leaf es => Ok ([], (bounds_of node []).1, (bounds_of node []).2, seen)
  | PageMapNode.Internal _ es =>
    '(cs, seen) ←
      load_children (fun r lo up s => load_tree read_page_map depth r (level - 1) lo up s) upper es lower seen;
    Ok (cs, (bounds_of node cs).1, (bounds_of node cs).2, seen)
  end.

Definition load_iff (depth : nat) : Prop := forall t r level lower upper seen seen',
  level < Z.of_nat depth \/ 64 < level ->
  load_tree read_page_map depth r level lower upper seen = Ok (t, seen') <->
  r = t_reference t /\ loads t level lower upper seen /\ seen' = seen ∪ list_to_set (uris_of t).

Lemma load_node_iff depth node r level lower upper seen cs mn mx seen' :
  load_iff depth -> node_inv node -> wf_node node -> level < Z.of_nat (S depth) -> level <= 64 ->
  PageMapNode.level node = level -> uri_str (ref_uri r) ∉ seen -> lower < mn -> mx <= upper ->
  reads_back (MkTree r node cs mn mx) ->
  load_node depth node level lower upper ({[ uri_str (ref_uri r) ]} ∪ seen) = Ok (cs, mn, mx, seen') <->
  loads (MkTree r node cs mn mx) level lower upper seen /\
  seen' = seen ∪ list_to_set (uris_of (MkTree r node cs mn mx)).
Proof.
  intros IH Hinv Hwf Hd Hl Hlev Hk Hlow Hup Hr. rewrite uris_of_node.
  destruct node as [es|l es]; cbn [load_node PageMapNode.level] in *.
  - split.
    + intros E. injection E as <- Hmn Hmx <-. split; [|set_solver].
      apply (loads_leaf r es level lower upper seen mn mx Hinv); [by rewrite <- Hmn, <- Hmx|]. done.
    + intros [Hloads ->]. pose proof Hloads as (_ & Hs & _). inversion Hs; subst.
      unfold bounds_of. cbn [fst snd]. do 2 f_equal. set_solver.
  - destruct Hinv as (Hl0 & Hne & _). subst l. destruct Hwf as [Hu _]. unfold is_u32, is_uint in Hu.
    assert (forall cs0 seen1,
      load_children (fun r lo up s => load_tree read_page_map depth r (level - 1) lo up s) upper es lower
        ({[ uri_str (ref_uri r) ]} ∪ seen) = Ok (cs0, seen1) <->
      es = map branch_of cs0 /\ loads_children cs0 (level - 1) lower upper ({[ uri_str (ref_uri r) ]} ∪ seen) /\
      seen1 = ({[ uri_str (ref_uri r) ]} ∪ seen) ∪ list_to_set (uris cs0)) as Hiff.
    { intros cs0 seen1. apply load_children_iff. intros. apply IH. lia. }
    split.
    + intros E. apply bind_ok in E as ([cs0 s1] & Hc & E). injection E as <- Hmn Hmx <-.
      apply Hiff in Hc as (-> & Hlc & ->). split; [|set_solver].
      apply loads_internal; try done; [by intros ->|by rewrite <- Hmn, <- Hmx|lia].
    + intros [Hloads ->]. pose proof Hloads as (_ & Hs & _). inversion Hs; subst.
      apply loads_internal in Hloads as (_ & Hlc & _); try done; [|lia].
      rewrite (proj2 (Hiff cs _) (conj eq_refl (conj Hlc eq_refl))). cbn [mbind result_bind bounds_of fst snd].
      do 2 f_equal. set_solver.
Qed.

Lemma load_tree_iff depth : load_iff depth.
Proof.
  induction depth as [|depth IH]; intros t r level lower upper seen seen' Hd; cbn [load_tree].
  { split; [done|]. intros (_ & (? & Hs & _) & _). apply shape_level in Hs. lia. }
  split.
  - intros E. apply bind_ok in E as (u & Hchk & E). unfold reject in Hchk.
    destruct (_ || _) eqn:Eb; [done|]. bool_to_prop.
    apply bind_ok in E as (b & Hb & E). apply bind_ok in E as (node & Hn & E).
    unfold of_protocol in Hn. apply map_err_ok in Hn. destruct (decoded_node _ _ Hn) as [Hwf Hinv].
    apply bind_ok in E as (u2 & Hl & E). unfold reject in Hl. destruct (negb _) eqn:El; [done|]. bool_to_prop.
    apply bind_ok in E as ([[[cs mn] mx] s1] & Hcs & E).
    apply bind_ok in E as (u3 & Hbd & E). unfold reject in Hbd. destruct (_ || _) eqn:Ebd; [done|].
    injection E as <- <-. bool_to_prop.
    assert (reads_back (MkTree r node cs mn mx)) as Hr by (split; [cbn; lia|by exists b]).
    split; [done|]. apply (load_node_iff depth); try done; try lia. by destruct node.
  - intros (-> & Hloads & ->). pose proof (bounds_below _ _ _ _ _ Hloads) as [Hmn Hmx].
    pose proof Hloads as (Hl & Hs & _ & _ & _ & Hseen & Hr). destruct t as [r node cs mn mx].
    cbn [subtrees] in Hr. apply Forall_cons in Hr as [Hr _]. rewrite uris_of_node in Hseen.
    apply Forall_cons in Hseen as [Hk _]. pose proof Hr as [Hsz (b & Hb & Hn)]. cbn [t_reference t_node t_min t_max] in *.
    destruct (decoded_node _ _ Hn) as [Hwf Hinv].
    unfold reject at 1. rewrite bool_decide_eq_false_2 by done.
    replace (64 <? level) with false by lia. replace (MAX_PAGE_MAP_BYTES <? _) with false by lia.
    cbn [orb mbind result_bind]. rewrite Hb. cbn [mbind result_bind]. unfold of_protocol. rewrite Hn.
    cbn [map_err mbind result_bind].
    destruct (shape_level _ _ Hs) as [Hlev _]. cbn [t_node] in Hlev.
    unfold reject at 1. rewrite Hlev, Z.eqb_refl. cbn [negb mbind result_bind].
    pose proof (proj2 (load_node_iff depth node r level lower upper seen cs mn mx _ IH Hinv Hwf
      ltac:(lia) Hl Hlev Hk Hmn Hmx Hr) (conj Hloads eq_refl)) as Hln.
    destruct node; cbn [load_node bounds_of fst snd] in Hln; rewrite Hln; cbn [mbind result_bind]; unfold reject;
      replace (_ || _) with false by lia; done.
Qed.
End load_proof.

(** ** Properties *)

(** C28: [load_tree] accepts exactly the well-formed trees and returns them: the
    height is at most 64 and declared correctly, all leaves are at level 0, page
    numbers increase across the whole tree and stay in the interval, every branch
    names its child's true maximum, no object is visited twice, and every node is
    what the store returns for its reference. The recursion bound 65 is enough. *)
Theorem load_tree_correct (read_page_map : PageObjectReference -> rresult bytes)
    (r : PageObjectReference) (level lower upper : Z) (seen : gset string) (t : Tree) (seen' : gset string) :
  load_tree read_page_map 65 r level lower upper seen = Ok (t, seen') <->
  r = t_reference t /\ loads read_page_map t level lower upper seen /\
  seen' = seen ∪ list_to_set (uris_of t).
Proof. apply load_tree_iff. lia. Qed.
