(* ===== verification/ByteArray.v ===== *)
(** Byte arrays indexed by offsets: reading one byte, slices, and
    [copy_from_slice], with the lemmas that let two arrays be compared byte by
    byte. *)
From S2P Require Import Prelude Bytes.

(** The byte at [i], zero outside the array. *)
Definition ix (b : bytes) (i : Z) : byte :=
  if i <? 0 then Byte.x00 else nth (Z.to_nat i) b Byte.x00.
(** [b[s..e]] for [s <= e <= len b]. *)
Definition range (s e : Z) (b : bytes) : bytes := take (Z.to_nat (e - s)) (drop (Z.to_nat s) b).
(** [b[off..off + data.len()].copy_from_slice(data)] *)
Definition copy_at (off : Z) (data b : bytes) : bytes :=
  take (Z.to_nat off) b ++ data ++ drop (Z.to_nat (off + len data)) b.
(** [vec![0; n]] *)
Definition zero_bytes (n : Z) : bytes := repeat Byte.x00 (Z.to_nat n).

Lemma ix_nat b (i : nat) : ix b (Z.of_nat i) = nth i b Byte.x00.
Proof. unfold ix. destruct (Z.ltb_spec (Z.of_nat i) 0); [lia|]. by rewrite Nat2Z.id. Qed.

Lemma ix_ext a b : len a = len b -> (forall i, 0 <= i < len a -> ix a i = ix b i) -> a = b.
Proof.
  unfold len. intros Hl Hi. apply (nth_ext _ _ Byte.x00 Byte.x00); [by apply Nat2Z.inj|].
  intros n Hn. specialize (Hi (Z.of_nat n)). rewrite !ix_nat in Hi. apply Hi. clear Hi. lia.
Qed.

Lemma ix_out b i : i < 0 \/ len b <= i -> ix b i = Byte.x00.
Proof.
  unfold ix, len. intros Hi. destruct (i <? 0) eqn:E; [done|]. apply nth_overflow. lia.
Qed.

Lemma ix_app a b i : 0 <= i -> ix (a ++ b) i = if i <? len a then ix a i else ix b (i - len a).
Proof.
  intros Hi. unfold ix, len. replace (i <? 0) with false by lia.
  destruct (i <? Z.of_nat (length a)) eqn:E.
  - by rewrite app_nth1 by lia.
  - replace (i - Z.of_nat (length a) <? 0) with false by lia. rewrite app_nth2 by lia. f_equal. lia.
Qed.

Lemma ix_zeros n i : ix (zero_bytes n) i = Byte.x00.
Proof.
  unfold ix, zero_bytes. destruct (i <? 0); [done|]. generalize (Z.to_nat i) as k.
  induction (Z.to_nat n) as [|m IH]; intros [|k]; cbn; done || apply IH.
Qed.

Lemma zero_bytes_len n : 0 <= n -> len (zero_bytes n) = n.
Proof. intros. unfold zero_bytes, len. rewrite repeat_length. lia. Qed.

Lemma len_take {A} (n : nat) (l : list A) : len (take n l) = Z.min (Z.of_nat n) (len l).
Proof. unfold len. rewrite length_take. lia. Qed.
Lemma len_drop {A} (n : nat) (l : list A) : len (drop n l) = Z.max 0 (len l - Z.of_nat n).
Proof. unfold len. rewrite length_drop. lia. Qed.

Lemma ix_take n b i : 0 <= i < n -> ix (take (Z.to_nat n) b) i = ix b i.
Proof.
  intros Hi. unfold ix. replace (i <? 0) with false by lia. rewrite nth_firstn.
  by rewrite (proj2 (Nat.ltb_lt _ _)) by lia.
Qed.

Lemma ix_drop n b i : 0 <= i -> 0 <= n -> ix (drop (Z.to_nat n) b) i = ix b (n + i).
Proof.
  intros Hi Hn. unfold ix. replace (i <? 0) with false by lia. replace (n + i <? 0) with false by lia.
  rewrite nth_skipn. f_equal. lia.
Qed.

Lemma ix_range s e b i : 0 <= s -> 0 <= i < e - s -> ix (range s e b) i = ix b (s + i).
Proof. intros Hs Hi. unfold range. by rewrite ix_take, ix_drop by lia. Qed.

Lemma range_len s e b : 0 <= s <= e -> e <= len b -> len (range s e b) = e - s.
Proof. intros Hs He. unfold range. rewrite len_take, len_drop. lia. Qed.

Lemma copy_at_len off d b : 0 <= off -> off + len d <= len b -> len (copy_at off d b) = len b.
Proof. intros Ho Hd. pose proof (len_nonneg d). unfold copy_at. rewrite !len_app, len_take, len_drop. lia. Qed.

Lemma ix_copy_at off d b i :
  0 <= off -> off + len d <= len b ->
  ix (copy_at off d b) i = if (off <=? i) && (i <? off + len d) then ix d (i - off) else ix b i.
Proof.
  intros Ho Hd. pose proof (len_nonneg d).
  destruct (Z.ltb_spec i 0) as [Hi|Hi].
  { rewrite !ix_out by lia. by replace (off <=? i) with false by lia. }
  unfold copy_at. rewrite ix_app, len_take by lia.
  destruct (Z.ltb_spec i (Z.min (Z.of_nat (Z.to_nat off)) (len b))).
  - rewrite ix_take by lia. by replace (off <=? i) with false by lia.
  - replace (i - Z.min (Z.of_nat (Z.to_nat off)) (len b)) with (i - off) by lia.
    rewrite ix_app by lia. replace (off <=? i) with true by lia. cbn [andb].
    replace (i - off <? len d) with (i <? off + len d) by lia.
    destruct (Z.ltb_spec i (off + len d)); [done|]. rewrite ix_drop by lia. f_equal. lia.
Qed.

(** A stretch of an array, given by its bytes. *)
Lemma range_eq s e b c : 0 <= s <= e -> e <= len b -> len c = e - s ->
  (forall i, s <= i < e -> ix b i = ix c (i - s)) -> range s e b = c.
Proof.
  intros Hs He Hc Hi. apply ix_ext; rewrite range_len by lia; [done|].
  intros i Hrange. rewrite ix_range, Hi by lia. f_equal. lia.
Qed.
