(* ===== verification/Overlay.v ===== *)
(** The candidate overlay (otmp/src/cow_writer.rs): the storage the SQL engine
    writes to, as pages laid over an immutable parent, refined against a flat
    file; and the frozen image it produces. *)
From S2P Require Import Prelude Bytes ByteArray.

Definition PAGE : Z := 4096.

(** The variants of the engine's error type that the overlay constructs. *)
Class TursoCrate := {
  limbo_error : Type;
  IntegerOverflow : limbo_error;
  InvalidArgument : string -> limbo_error;
  InternalError : string -> limbo_error }.

(** ** State *)

Record State := MkState {
  s_length : Z; s_parent_limit : Z; s_pages : list (Z * bytes) }.

Record Overlay := MkOverlay { o_parent : bytes; o_state : State; o_failed : bool }.

Definition overlay_new (parent : bytes) : Overlay :=
  MkOverlay parent (MkState (len parent) (len parent) []) false.

Section overlay.
Context `{TursoCrate}.

(** ** Operations *)

(** The loop of [read_at]: one page of the source per round. *)
Fixpoint read_loop (fuel : nat) (parent : bytes) (st : State) (offset count copied : Z) (buf : bytes) : bytes :=
  if copied <? count then
    match fuel with
    | O => buf
    | S fuel =>
      let pos := offset + copied in
      let chunk := Z.min (PAGE - pos mod PAGE) (count - copied) in
      let buf :=
        match bt_get (pos / PAGE) (s_pages st) with
        | Some page => copy_at copied (range (pos mod PAGE) (pos mod PAGE + chunk) page) buf
        | None =>
          if pos <? s_parent_limit st then
            let from_parent := Z.min chunk (s_parent_limit st - pos) in
            copy_at copied (range pos (pos + from_parent) parent) buf
          else buf
        end in
      read_loop fuel parent st offset count (copied + chunk) buf
    end
  else buf.

(** [read_at] into a buffer of [n] bytes: the number of bytes read, the buffer.
    A round copies at least one byte, so [count] rounds are enough. *)
Definition read_at (parent : bytes) (st : State) (offset n : Z) : Z * bytes :=
  let count := Z.min n (saturating_sub (s_length st) offset) in
  (count, read_loop (Z.to_nat count) parent st offset count 0 (zero_bytes n)).

(** A completed operation: the value passed to [complete], and the buffer of a read. *)
Definition outcome : Type := result limbo_error (Z * bytes).

Definition read (o : Overlay) (offset n : Z) : outcome :=
  let '(count, buf) := read_at (o_parent o) (o_state o) offset n in
  match try_sint 32 count with Some c => Ok (c, buf) | None => Err IntegerOverflow end.

Definition read_header_inner (o : Overlay) (n : Z) : outcome := read o 0 n.

Definition read_page_inner (o : Overlay) (page_idx n : Z) : outcome :=
  match p ← checked_sub 64 page_idx 1; checked_mul 64 p PAGE with
  | Some offset => read o offset n
  | None => Err IntegerOverflow
  end.

Definition write_page_inner (o : Overlay) (page_idx : Z) (buffer : bytes) : Overlay * outcome :=
  if negb (len buffer =? PAGE) || (page_idx =? 0) then (o, Err (InvalidArgument "expected 4 KiB page"))
  else
    match checked_mul 64 page_idx PAGE with
    | None => (o, Err IntegerOverflow)
    | Some stop =>
      let st := o_state o in
      (MkOverlay (o_parent o)
         (MkState (Z.max (s_length st) stop) (s_parent_limit st)
            (bt_insert (page_idx - 1) buffer (s_pages st))) (o_failed o), Ok (4096, []))
    end.

(** A failure is remembered, whatever the engine does with the result. *)
Definition capture (ro : Overlay * outcome) : Overlay * outcome :=
  let '(o, r) := ro in
  match r with
  | Ok _ => (o, r)
  | Err _ => (MkOverlay (o_parent o) (o_state o) true, r)
  end.

Definition write_page (o : Overlay) (page : Z) (buffer : bytes) : Overlay * outcome :=
  capture (write_page_inner o page buffer).

(** The loop of [write_pages_inner] from the [index]-th buffer on. *)
Fixpoint write_buffers (o : Overlay) (first index : Z) (buffers : list bytes) : Overlay * result limbo_error unit :=
  match buffers with
  | [] => (o, Ok tt)
  | buffer :: buffers =>
    match checked_add 64 first index with
    | None => (o, Err IntegerOverflow)
    | Some page =>
      match write_page o page buffer with
      | (o, Ok _) => write_buffers o first (index + 1) buffers
      | (o, Err e) => (o, Err e)
      end
    end
  end.

Definition write_pages_inner (o : Overlay) (first page_size : Z) (buffers : list bytes) : Overlay * outcome :=
  if negb (page_size =? PAGE) then (o, Err (InvalidArgument "expected 4 KiB page")) else
  match checked_mul 64 (len buffers) PAGE with
  | None => (o, Err IntegerOverflow)
  | Some count =>
    match write_buffers o first 0 buffers with
    | (o, Err e) => (o, Err e)
    | (o, Ok _) => (o, match try_sint 32 count with Some c => Ok (c, []) | None => Err IntegerOverflow end)
    end
  end.

Definition div_ceil (a b : Z) : Z := (a + b - 1) / b.

Definition truncate_state (parent : bytes) (st : State) (n : Z) : State :=
  let st' :=
    if n <? s_length st then
      let pages :=
        if negb (n mod PAGE =? 0) then
          let page := (read_at parent st (n / PAGE * PAGE) PAGE).2 in
          let page := copy_at (n mod PAGE) (zero_bytes (PAGE - n mod PAGE)) page in
          bt_insert (n / PAGE) page (s_pages st)
        else s_pages st in
      MkState (s_length st) (Z.min (s_parent_limit st) n)
        (filter (fun kv => kv.1 < div_ceil n PAGE) pages)
    else st in
  MkState n (s_parent_limit st') (s_pages st').

Definition truncate (o : Overlay) (n : Z) : Overlay * outcome :=
  capture (MkOverlay (o_parent o) (truncate_state (o_parent o) (o_state o) n) (o_failed o), Ok (0, [])).

Definition size (o : Overlay) : Z := s_length (o_state o).

(** The calls of the engine. *)
Inductive Op :=
| ReadHeader (n : Z)
| ReadPage (page n : Z)
| WritePage (page : Z) (buffer : bytes)
| WritePages (first page_size : Z) (buffers : list bytes)
| Sync
| Truncate (n : Z).

Definition step (o : Overlay) (op : Op) : Overlay * outcome :=
  match op with
  | ReadHeader n => capture (o, read_header_inner o n)
  | ReadPage page n => capture (o, read_page_inner o page n)
  | WritePage page buffer => write_page o page buffer
  | WritePages first page_size buffers => capture (write_pages_inner o first page_size buffers)
  | Sync => capture (o, Ok (0, []))
  | Truncate n => truncate o n
  end.

Fixpoint steps (o : Overlay) (ops : list Op) : Overlay * list outcome :=
  match ops with
  | [] => (o, [])
  | op :: ops => let '(o, r) := step o op in let '(o, rs) := steps o ops in (o, r :: rs)
  end.

(** ** Freezing *)

Record FrozenImage := MkFrozen {
  f_parent : bytes; f_length : Z; f_changed : list (Z * bytes) }.

(** One round of [materialize]: a changed page laid over the image. *)
Definition lay_page (total : Z) (b : bytes) (kv : Z * bytes) : bytes :=
  let start := (kv.1 - 1) * PAGE in
  copy_at start (range 0 (Z.min PAGE (saturating_sub total start)) kv.2) b.

Definition materialize (f : FrozenImage) : bytes :=
  let copied := Z.min (len (f_parent f)) (f_length f) in
  fold_left (lay_page (f_length f)) (f_changed f)
    (copy_at 0 (range 0 copied (f_parent f)) (zero_bytes (f_length f))).

(** The pages to compare with the parent: those written, and those past it. *)
Definition touched (st : State) : list Z :=
  let first := s_parent_limit st / PAGE in
  (fold_left (fun m k => bt_insert k tt m)
     (seqZ first (div_ceil (s_length st) PAGE - first))
     (map (fun kv => (kv.1, tt)) (s_pages st))).*1.

(** Page [index] of the image, when it is not the parent's. *)
Definition compare_page (parent : bytes) (st : State) (changed : list (Z * bytes)) (index : Z)
  : list (Z * bytes) :=
  if s_length st <=? index * PAGE then changed else
  let page := (read_at parent st (index * PAGE) PAGE).2 in
  if bool_decide (slice parent (index * PAGE) ((index + 1) * PAGE) = Some page) then changed
  else bt_insert (index + 1) page changed.

(** [close_and_freeze], the engine closed. *)
Definition freeze (o : Overlay) : result limbo_error FrozenImage :=
  if o_failed o then Err (InternalError "candidate storage failed before freeze") else
  let st := o_state o in
  if negb (s_length st mod PAGE =? 0) then Err (InvalidArgument "unaligned frozen image") else
  Ok (MkFrozen (o_parent o) (s_length st)
        (fold_left (compare_page (o_parent o) st) (touched st) [])).

(** ** The flat file *)

(** The abstract storage: one byte array. *)

Definition flat_read (f : bytes) (offset n : Z) : outcome :=
  let count := Z.min n (saturating_sub (len f) offset) in
  match try_sint 32 count with
  | Some c => Ok (c, range offset (offset + count) f ++ zero_bytes (n - count))
  | None => Err IntegerOverflow
  end.

Definition flat_resize (f : bytes) (n : Z) : bytes :=
  take (Z.to_nat n) f ++ zero_bytes (n - len f).

Definition flat_write (f : bytes) (off : Z) (data : bytes) : bytes :=
  copy_at off data (flat_resize f (Z.max (len f) (off + len data))).

Definition flat_write_page (f : bytes) (page_idx : Z) (buffer : bytes) : bytes * outcome :=
  if negb (len buffer =? PAGE) || (page_idx =? 0) then (f, Err (InvalidArgument "expected 4 KiB page"))
  else if decide (is_uint 64 (page_idx * PAGE)) then (flat_write f ((page_idx - 1) * PAGE) buffer, Ok (4096, []))
  else (f, Err IntegerOverflow).

Fixpoint flat_write_buffers (f : bytes) (page : Z) (buffers : list bytes) : bytes * result limbo_error unit :=
  match buffers with
  | [] => (f, Ok tt)
  | buffer :: buffers =>
    if decide (is_uint 64 page) then
      match flat_write_page f page buffer with
      | (f, Ok _) => flat_write_buffers f (page + 1) buffers
      | (f, Err e) => (f, Err e)
      end
    else (f, Err IntegerOverflow)
  end.

Definition flat_step (f : bytes) (op : Op) : bytes * outcome :=
  match op with
  | ReadHeader n => (f, flat_read f 0 n)
  | ReadPage page n =>
    (f, if decide (is_uint 64 (page - 1) /\ is_uint 64 ((page - 1) * PAGE))
        then flat_read f ((page - 1) * PAGE) n else Err IntegerOverflow)
  | WritePage page buffer => flat_write_page f page buffer
  | WritePages first page_size buffers =>
    if negb (page_size =? PAGE) then (f, Err (InvalidArgument "expected 4 KiB page"))
    else if decide (is_uint 64 (len buffers * PAGE)) then
      let '(f, r) := flat_write_buffers f first buffers in
      (f, match r with
          | Err e => Err e
          | Ok _ => match try_sint 32 (len buffers * PAGE) with
                    | Some c => Ok (c, []) | None => Err IntegerOverflow end
          end)
    else (f, Err IntegerOverflow)
  | Sync => (f, Ok (0, []))
  | Truncate n => (flat_resize f n, Ok (0, []))
  end.

Fixpoint flat_steps (f : bytes) (ops : list Op) : bytes * list outcome :=
  match ops with
  | [] => (f, [])
  | op :: ops => let '(f, r) := flat_step f op in let '(f, rs) := flat_steps f ops in (f, r :: rs)
  end.
End overlay.

(** ** The overlay holds a flat file *)

Section refine.
Context `{TursoCrate}.

(** The byte the overlay holds at [i]: that of a written page, else the parent's
    below the limit, else zero. *)
Definition byte_at (parent : bytes) (st : State) (i : Z) : byte :=
  match bt_get (i / PAGE) (s_pages st) with
  | Some page => ix page (i mod PAGE)
  | None => if i <? s_parent_limit st then ix parent i else Byte.x00
  end.

Definition page_ok (kv : Z * bytes) : Prop := 0 <= kv.1 /\ len kv.2 = PAGE.

Record state_ok (parent : bytes) (st : State) : Prop := {
  ok_limit : 0 <= s_parent_limit st <= len parent;
  ok_length : s_parent_limit st <= s_length st;
  ok_sorted : bt_sorted (s_pages st);
  ok_pages : Forall page_ok (s_pages st) }.

(** The overlay represents [f]: in particular it reads as zero past the end. *)
Definition represents (parent : bytes) (st : State) (f : bytes) : Prop :=
  len f = s_length st /\ forall i, 0 <= i -> ix f i = byte_at parent st i.

Lemma page_get parent st k page :
  state_ok parent st -> bt_get k (s_pages st) = Some page -> 0 <= k /\ len page = PAGE.
Proof.
  intros Hok Hk%bt_get_some_elem. pose proof (ok_pages _ _ Hok) as Hall.
  rewrite Forall_forall in Hall. apply (Hall _ Hk).
Qed.

Lemma page_split p : 0 <= p mod PAGE < PAGE /\ p = PAGE * (p / PAGE) + p mod PAGE.
Proof. unfold PAGE. split; [apply Z.mod_pos_bound; lia|apply Z.div_mod; lia]. Qed.

Lemma same_page p j : 0 <= j -> p mod PAGE + j < PAGE ->
  (p + j) / PAGE = p / PAGE /\ (p + j) mod PAGE = p mod PAGE + j.
Proof.
  intros Hj Hlt. destruct (page_split p) as [Hm Hp]. unfold PAGE in *.
  assert (p + j = 4096 * (p / 4096) + (p mod 4096 + j)) as E by lia. split.
  - symmetry. apply (Z.div_unique _ _ _ (p mod 4096 + j)); lia.
  - symmetry. apply (Z.mod_unique _ _ (p / 4096)); lia.
Qed.

(** One round copies the bytes of one page of the source. *)
Lemma read_round parent st pos chunk copied buf :
  state_ok parent st -> 0 <= pos -> 0 < chunk -> pos mod PAGE + chunk <= PAGE ->
  0 <= copied -> copied + chunk <= len buf ->
  (forall i, copied <= i -> ix buf i = Byte.x00) ->
  let buf' :=
    match bt_get (pos / PAGE) (s_pages st) with
    | Some page => copy_at copied (range (pos mod PAGE) (pos mod PAGE + chunk) page) buf
    | None =>
      if pos <? s_parent_limit st then
        copy_at copied (range pos (pos + Z.min chunk (s_parent_limit st - pos)) parent) buf
      else buf
    end in
  len buf' = len buf /\
  forall i, ix buf' i = if (copied <=? i) && (i <? copied + chunk)
                        then byte_at parent st (pos + (i - copied)) else ix buf i.
Proof.
  intros Hok Hpos Hchunk Hpage Hcop Hlen Hzero buf'. pose proof (ok_limit _ _ Hok).
  destruct (page_split pos) as [Hm _].
  assert (forall i, copied <= i < copied + chunk -> byte_at parent st (pos + (i - copied)) =
    match bt_get (pos / PAGE) (s_pages st) with
    | Some page => ix page (pos mod PAGE + (i - copied))
    | None => if pos + (i - copied) <? s_parent_limit st then ix parent (pos + (i - copied)) else Byte.x00
    end) as Hbyte.
  { intros i Hi. unfold byte_at. destruct (same_page pos (i - copied)) as [-> ->]; [lia..|done]. }
  subst buf'. destruct (bt_get (pos / PAGE) (s_pages st)) as [page|] eqn:Ep.
  - destruct (page_get _ _ _ _ Hok Ep) as [_ Hp].
    assert (len (range (pos mod PAGE) (pos mod PAGE + chunk) page) = chunk) as Hr by (rewrite range_len; lia).
    rewrite copy_at_len by lia. split; [done|]. intros i. rewrite ix_copy_at, Hr by lia.
    destruct (_ && _) eqn:E; [|done]. bool_to_prop. rewrite Hbyte, ix_range by lia. done.
  - destruct (Z.ltb_spec pos (s_parent_limit st)).
    + set (n := Z.min chunk (s_parent_limit st - pos)) in *.
      assert (len (range pos (pos + n) parent) = n) as Hr by (rewrite range_len; lia).
      rewrite copy_at_len by lia. split; [done|]. intros i. rewrite ix_copy_at, Hr by lia.
      destruct ((copied <=? i) && (i <? copied + chunk)) eqn:E; bool_to_prop.
      * rewrite Hbyte by lia. destruct (Z.ltb_spec (pos + (i - copied)) (s_parent_limit st)).
        -- replace ((copied <=? i) && (i <? copied + n)) with true by lia. by rewrite ix_range by lia.
        -- replace ((copied <=? i) && (i <? copied + n)) with false by lia. apply Hzero. lia.
      * by replace ((copied <=? i) && (i <? copied + n)) with false by lia.
    + split; [done|]. intros i. destruct (_ && _) eqn:E; [|done]. bool_to_prop.
      rewrite Hbyte by lia. replace (_ <? _) with false by lia. apply Hzero. lia.
Qed.

Lemma read_loop_ok fuel parent st offset count : forall copied buf,
  state_ok parent st -> 0 <= offset -> 0 <= copied <= count -> count <= len buf ->
  count - copied <= Z.of_nat fuel -> (forall i, copied <= i -> ix buf i = Byte.x00) ->
  let buf' := read_loop fuel parent st offset count copied buf in
  len buf' = len buf /\
  forall i, ix buf' i = if (copied <=? i) && (i <? count) then byte_at parent st (offset + i) else ix buf i.
Proof.
  induction fuel as [|fuel IH]; intros copied buf Hok Hoff Hcop Hlen Hfuel Hzero; cbn [read_loop].
  { replace (copied <? count) with false by lia. split; [done|]. intros i.
    by replace ((copied <=? i) && (i <? count)) with false by lia. }
  destruct (Z.ltb_spec copied count) as [Hlt|Hge].
  2:{ split; [done|]. intros i. by replace ((copied <=? i) && (i <? count)) with false by lia. }
  set (pos := offset + copied). set (chunk := Z.min (PAGE - pos mod PAGE) (count - copied)).
  destruct (page_split pos) as [Hm _].
  destruct (read_round parent st pos chunk copied buf) as [Hl Hi]; try done; try lia.
  set (buf1 := match bt_get _ _ with Some _ => _ | None => _ end) in *.
  destruct (IH (copied + chunk) buf1) as [Hl' Hi']; try done; try lia.
  { intros i Hic. rewrite Hi. replace ((copied <=? i) && (i <? copied + chunk)) with false by lia.
    apply Hzero. lia. }
  split; [by rewrite Hl', Hl|]. intros i. rewrite Hi', Hi.
  destruct (Z.leb_spec (copied + chunk) i), (Z.ltb_spec i count), (Z.leb_spec copied i),
    (Z.ltb_spec i (copied + chunk)); cbn [andb]; try done; try lia.
  f_equal. lia.
Qed.

Lemma read_at_ok parent st f offset n :
  state_ok parent st -> represents parent st f -> 0 <= offset -> 0 <= n ->
  let count := Z.min n (saturating_sub (len f) offset) in
  read_at parent st offset n = (count, range offset (offset + count) f ++ zero_bytes (n - count)).
Proof.
  intros Hok [Hlen Hf] Hoff Hn count. unfold read_at. rewrite <- Hlen. fold count.
  assert (0 <= count <= n) as Hc by (unfold count, saturating_sub; lia).
  assert (count = 0 \/ offset + count <= len f) as Hc' by (unfold count, saturating_sub; lia).
  destruct (read_loop_ok (Z.to_nat count) parent st offset count 0 (zero_bytes n)) as [Hl Hi]; try done; try lia.
  { rewrite zero_bytes_len by lia. lia. }
  { intros. apply ix_zeros. }
  rewrite zero_bytes_len in Hl by lia. f_equal.
  assert (len (range offset (offset + count) f) = count) as Hr.
  { destruct Hc' as [->|?]; [|by rewrite range_len; lia].
    unfold range. rewrite len_take. pose proof (len_nonneg (drop (Z.to_nat offset) f)). lia. }
  apply ix_ext; rewrite Hl, ?len_app, ?Hr, ?zero_bytes_len by lia; [lia|]. intros i Hrange.
  rewrite Hi, ix_app, Hr by lia. replace (0 <=? i) with true by lia. cbn [andb].
  destruct (Z.ltb_spec i count); [|by rewrite !ix_zeros].
  rewrite ix_range by lia. symmetry. apply Hf. lia.
Qed.

Lemma range_empty s b : range s s b = [].
Proof. unfold range. by rewrite Z.sub_diag. Qed.
Lemma flat_resize_len f n : 0 <= n -> len (flat_resize f n) = n.
Proof.
  intros Hn. unfold flat_resize. pose proof (len_nonneg f). rewrite len_app, len_take.
  destruct (Z.le_gt_cases (len f) n); [rewrite zero_bytes_len by lia; lia|].
  unfold zero_bytes. replace (Z.to_nat (n - len f)) with 0%nat by lia. cbn [repeat]. rewrite len_nil. lia.
Qed.

Lemma ix_resize f n i : 0 <= i -> 0 <= n -> ix (flat_resize f n) i = if i <? n then ix f i else Byte.x00.
Proof.
  intros Hi Hn. unfold flat_resize. pose proof (len_nonneg f). rewrite ix_app, len_take by done.
  destruct (Z.ltb_spec i (Z.min (Z.of_nat (Z.to_nat n)) (len f))).
  - rewrite ix_take by lia. by replace (i <? n) with true by lia.
  - rewrite ix_zeros. destruct (Z.ltb_spec i n); [|done]. by rewrite ix_out by lia.
Qed.

Lemma flat_write_len f off d : 0 <= off -> len (flat_write f off d) = Z.max (len f) (off + len d).
Proof.
  intros Ho. unfold flat_write. pose proof (len_nonneg f). pose proof (len_nonneg d).
  rewrite copy_at_len; rewrite ?flat_resize_len; lia.
Qed.

Lemma ix_flat_write f off d i :
  0 <= off -> 0 <= i ->
  ix (flat_write f off d) i = if (off <=? i) && (i <? off + len d) then ix d (i - off) else ix f i.
Proof.
  intros Ho Hi. unfold flat_write. pose proof (len_nonneg f). pose proof (len_nonneg d).
  rewrite ix_copy_at; rewrite ?flat_resize_len by lia; [|lia|lia]. destruct (_ && _); [done|].
  rewrite ix_resize by lia. destruct (Z.ltb_spec i (Z.max (len f) (off + len d))); [done|]. by rewrite ix_out by lia.
Qed.

Lemma bt_get_filter_lt {V} k b (m : list (Z * V)) :
  bt_get k (filter (fun kv => kv.1 < b) m) = if k <? b then bt_get k m else None.
Proof.
  induction m as [|[k' v] m IH]; [by destruct (k <? b)|]. rewrite filter_cons. cbn [fst].
  case_decide as Hd; cbn [bt_get]; rewrite IH; destruct (ocmp k k') eqn:E; try done;
    apply ocmp_eq in E as ->; destruct (Z.ltb_spec k' b); done || lia.
Qed.

Lemma bt_sorted_filter {V} (P : Z * V -> Prop) `{forall x, Decision (P x)} (m : list (Z * V)) :
  bt_sorted m -> bt_sorted (filter P m).
Proof.
  induction m as [|[k v] m IH]; [done|]. rewrite bt_sorted_cons, filter_cons. intros [Ha Hs].
  case_decide; [|by apply IH]. apply bt_sorted_cons. split; [|by apply IH].
  rewrite Forall_fmap in *. apply Forall_forall. intros x [_ Hx]%list_elem_of_filter.
  rewrite Forall_forall in Ha. by apply Ha.
Qed.

Lemma bt_forall_insert {V} (P : Z * V -> Prop) k v (m : list (Z * V)) :
  P (k, v) -> Forall P m -> Forall P (bt_insert k v m).
Proof.
  intros Hkv. induction 1 as [|[k' v'] m Hp Hm IH]; cbn [bt_insert]; [by repeat constructor|].
  destruct (ocmp k k'); repeat constructor; done.
Qed.

Lemma state_write parent st f k page :
  state_ok parent st -> represents parent st f -> 0 <= k -> len page = PAGE ->
  let st' := MkState (Z.max (s_length st) ((k + 1) * PAGE)) (s_parent_limit st)
               (bt_insert k page (s_pages st)) in
  state_ok parent st' /\ represents parent st' (flat_write f (k * PAGE) page).
Proof.
  intros Hok [Hlen Hf] Hk Hp st'. pose proof (ok_limit _ _ Hok). pose proof (ok_length _ _ Hok).
  split; [constructor; cbn [s_parent_limit s_length s_pages st']; try lia;
          [by apply bt_sorted_insert, Hok|apply bt_forall_insert; [by split|apply Hok]]|].
  split; [rewrite flat_write_len, Hp by (unfold PAGE; lia); cbn [s_length st']; unfold PAGE in *; lia|].
  intros i Hi. rewrite ix_flat_write, Hp by (unfold PAGE; lia). unfold byte_at. cbn [s_pages s_parent_limit st'].
  rewrite bt_get_insert by apply Hok. destruct (page_split i) as [Hm Hi'].
  destruct (ocmp (i / PAGE) k) eqn:E.
  - apply ocmp_eq in E. rewrite <- E.
    replace ((i / PAGE * PAGE <=? i) && (i <? i / PAGE * PAGE + PAGE)) with true by (unfold PAGE in *; lia).
    f_equal. unfold PAGE in *. lia.
  - replace ((k * PAGE <=? i) && (i <? k * PAGE + PAGE)) with false; [by apply Hf|].
    assert (i / PAGE <> k) by (intros Ek; by rewrite Ek, ocmp_refl in E). unfold PAGE in *. lia.
  - replace ((k * PAGE <=? i) && (i <? k * PAGE + PAGE)) with false; [by apply Hf|].
    assert (i / PAGE <> k) by (intros Ek; by rewrite Ek, ocmp_refl in E). unfold PAGE in *. lia.
Qed.

(** The zero-filled last page of a truncation. *)
Definition cut_page (parent : bytes) (st : State) (n : Z) : bytes :=
  copy_at (n mod PAGE) (zero_bytes (PAGE - n mod PAGE)) (read_at parent st (n / PAGE * PAGE) PAGE).2.

Lemma cut_page_ok parent st f n :
  state_ok parent st -> represents parent st f -> 0 <= n < len f ->
  len (cut_page parent st n) = PAGE /\
  forall j, 0 <= j < PAGE ->
    ix (cut_page parent st n) j = if j <? n mod PAGE then ix f (n / PAGE * PAGE + j) else Byte.x00.
Proof.
  intros Hok Hr Hn. destruct (page_split n) as [Hm Hd].
  assert (0 <= n / PAGE) by (apply Z.div_pos; unfold PAGE; lia).
  set (base := n / PAGE * PAGE) in *. assert (0 <= base) by (unfold base, PAGE in *; lia).
  assert (n = base + n mod PAGE) as Hb by (unfold base; lia).
  unfold cut_page. fold base. rewrite (read_at_ok parent st f base PAGE) by (done || unfold PAGE; lia). cbn [snd].
  set (count := Z.min PAGE (saturating_sub (len f) base)).
  assert (n mod PAGE < count <= PAGE /\ base + count <= len f) as Hc by (unfold count, saturating_sub; lia).
  assert (len (range base (base + count) f) = count) as Hl by (rewrite range_len; lia).
  set (page := _ ++ _). assert (len page = PAGE) as Hlp.
  { unfold page. rewrite len_app, Hl, zero_bytes_len by lia. lia. }
  rewrite copy_at_len; rewrite ?zero_bytes_len, ?Hlp by lia; [|lia|lia]. split; [done|]. intros j Hj.
  rewrite ix_copy_at; rewrite ?zero_bytes_len, ?Hlp by lia; [|lia|lia]. rewrite ix_zeros.
  destruct (Z.ltb_spec j (n mod PAGE)).
  - replace (n mod PAGE <=? j) with false by lia. cbn [andb]. unfold page. rewrite ix_app, Hl by lia.
    replace (j <? count) with true by lia. rewrite ix_range by lia. done.
  - by replace ((n mod PAGE <=? j) && (j <? n mod PAGE + (PAGE - n mod PAGE))) with true by lia.
Qed.

Lemma div_ceil_spec i n : 0 <= i -> 0 <= n -> (i / PAGE <? div_ceil n PAGE) = (i / PAGE * PAGE <? n).
Proof.
  intros Hi Hn. unfold div_ceil. destruct (page_split i) as [Hm Hp].
  destruct (page_split (n + PAGE - 1)) as [Hm2 Hp2]. unfold PAGE in *. lia.
Qed.

Lemma state_truncate parent st f n :
  state_ok parent st -> represents parent st f -> 0 <= n ->
  state_ok parent (truncate_state parent st n) /\
  represents parent (truncate_state parent st n) (flat_resize f n).
Proof.
  intros Hok Hr Hn. pose proof (ok_limit _ _ Hok). pose proof (ok_length _ _ Hok). pose proof Hr as [Hlen Hf].
  unfold truncate_state. destruct (Z.ltb_spec n (s_length st)) as [Hlt|Hge].
  2:{ split; [by constructor; cbn; try lia; apply Hok|]. split; [cbn; by rewrite flat_resize_len|].
      intros i Hi. rewrite ix_resize by done.
      replace (byte_at parent (MkState n (s_parent_limit st) (s_pages st)) i) with (byte_at parent st i) by done.
      rewrite <- Hf by done. destruct (Z.ltb_spec i n); [done|]. by rewrite ix_out by lia. }
  fold (cut_page parent st n). cbn [s_parent_limit s_pages].
  destruct (cut_page_ok parent st f n Hok Hr) as [Hcl Hci]; [lia|].
  assert (0 <= n / PAGE) by (apply Z.div_pos; unfold PAGE; lia).
  set (pages := if negb (n mod PAGE =? 0) then _ else _).
  assert (bt_sorted pages /\ Forall page_ok pages) as [Hsp Hpp].
  { unfold pages. destruct (negb _); split; try apply Hok; [by apply bt_sorted_insert, Hok|].
    apply bt_forall_insert; [by split|apply Hok]. }
  split.
  { constructor; cbn [s_parent_limit s_length s_pages]; try lia; [by apply bt_sorted_filter|].
    apply Forall_forall. intros x [_ Hx]%list_elem_of_filter. rewrite Forall_forall in Hpp. by apply Hpp. }
  split; [cbn; by rewrite flat_resize_len|]. intros i Hi. rewrite ix_resize by done. unfold byte_at.
  cbn [s_parent_limit s_length s_pages]. rewrite bt_get_filter_lt, div_ceil_spec by done.
  destruct (page_split i) as [Hm Hp]. destruct (page_split n) as [Hmn Hpn].
  pose proof (Hf i Hi) as Hfi. unfold byte_at in Hfi.
  assert (bt_get (i / PAGE) pages =
    if negb (n mod PAGE =? 0) && (i / PAGE =? n / PAGE) then Some (cut_page parent st n)
    else bt_get (i / PAGE) (s_pages st)) as ->.
  { unfold pages. destruct (negb _); [|done]. rewrite bt_get_insert by apply Hok. cbn [andb].
    destruct (Z.eqb_spec (i / PAGE) (n / PAGE)) as [->|Hne]; [by rewrite ocmp_refl|].
    destruct (ocmp _ _) eqn:E; [|done..]. by apply ocmp_eq in E. }
  destruct (Z.ltb_spec (i / PAGE * PAGE) n).
  - destruct (negb (n mod PAGE =? 0) && (i / PAGE =? n / PAGE)) eqn:Ecut; bool_to_prop.
    + rewrite Hci by lia. replace (i mod PAGE <? n mod PAGE) with (i <? n) by (unfold PAGE in *; lia).
      destruct (i <? n); [|done]. f_equal. unfold PAGE in *. lia.
    + assert (i < n) by (unfold PAGE in *; lia). replace (i <? n) with true by lia. rewrite Hfi.
      destruct (bt_get (i / PAGE) (s_pages st)); [done|].
      by replace (i <? Z.min (s_parent_limit st) n) with (i <? s_parent_limit st) by lia.
  - replace (i <? n) with false by lia. by replace (i <? Z.min (s_parent_limit st) n) with false by lia.
Qed.
(** *** Every engine call *)

Definition holds (o : Overlay) (f : bytes) : Prop :=
  state_ok (o_parent o) (o_state o) /\ represents (o_parent o) (o_state o) f.

(** The arguments are machine words: not negative. *)
Definition op_ok (op : Op) : Prop :=
  match op with
  | ReadHeader n | ReadPage _ n | Truncate n => 0 <= n
  | WritePage page _ => 0 <= page
  | WritePages first _ _ => 0 <= first
  | Sync => True
  end.

Lemma holds_new parent : holds (overlay_new parent) parent.
Proof.
  pose proof (len_nonneg parent). split; [by constructor; cbn; try lia; constructor|].
  split; [done|]. intros i Hi. unfold byte_at. cbn. destruct (Z.ltb_spec i (len parent)); [done|].
  by rewrite ix_out by lia.
Qed.

Lemma read_ok o f offset n :
  holds o f -> 0 <= offset -> 0 <= n -> read o offset n = flat_read f offset n.
Proof. intros [Hok Hr] Ho Hn. unfold read, flat_read. by rewrite (read_at_ok _ _ f). Qed.

Lemma write_page_inner_ok o f page buffer :
  holds o f -> 0 <= page ->
  let '(o', r) := write_page_inner o page buffer in
  flat_write_page f page buffer = ((flat_write_page f page buffer).1, r) /\
  holds o' (flat_write_page f page buffer).1 /\
  o_parent o' = o_parent o /\ o_failed o' = o_failed o.
Proof.
  intros [Hok Hr] Hp. unfold write_page_inner, flat_write_page.
  destruct (negb _ || _) eqn:E; [done|]. bool_to_prop. unfold checked_mul, try_uint.
  destruct (decide (is_uint 64 (page * PAGE))); [|done]. split; [done|]. split; [|done].
  destruct (state_write _ _ _ (page - 1) buffer Hok Hr) as [Hok' Hr']; [lia|done|].
  replace ((page - 1 + 1) * PAGE) with (page * PAGE) in Hok', Hr' by lia. done.
Qed.

Lemma capture_ok o r : let '(o', r') := capture (o, r) in
  r' = r /\ o_parent o' = o_parent o /\ o_state o' = o_state o /\
  o_failed o' = o_failed o || negb (is_ok r).
Proof. destruct r; cbn; by rewrite ?orb_false_r, ?orb_true_r. Qed.

Lemma capture_holds o r f : holds o f -> holds (capture (o, r)).1 f.
Proof. by destruct r. Qed.

Lemma write_buffers_ok buffers first : forall index o f,
  holds o f -> 0 <= first + index ->
  let '(o', r) := write_buffers o first index buffers in
  (flat_write_buffers f (first + index) buffers).2 = r /\
  holds o' (flat_write_buffers f (first + index) buffers).1 /\
  o_parent o' = o_parent o /\ (is_ok r = true -> o_failed o' = o_failed o).
Proof.
  induction buffers as [|b buffers IH]; intros index o f Hh Hi; cbn [write_buffers flat_write_buffers]; [done|].
  unfold checked_add, try_uint. destruct (decide (is_uint 64 (first + index))); [|done].
  pose proof (write_page_inner_ok o f (first + index) b Hh Hi) as Hw. unfold write_page.
  destruct (write_page_inner o (first + index) b) as [o1 r1]. destruct Hw as (Hf & Hh1 & Hp & Hfl).
  rewrite Hf. destruct r1 as [?|e]; cbn [capture].
  - specialize (IH (index + 1) o1 _ Hh1 ltac:(lia)).
    destruct (write_buffers o1 first (index + 1) buffers) as [o2 r2].
    replace (first + index + 1) with (first + (index + 1)) by lia.
    destruct IH as (IH1 & IH2 & IH3 & IH4). split_and!; try done; [congruence|].
    intros Hr. rewrite IH4 by done. done.
  - by split_and!.
Qed.

(** One call: the same answer, the same contents, and a failure remembered. *)
Lemma step_ok o f op :
  holds o f -> op_ok op ->
  let '(o', r) := step o op in
  (flat_step f op).2 = r /\ holds o' (flat_step f op).1 /\ o_parent o' = o_parent o /\
  o_failed o' = o_failed o || negb (is_ok r).
Proof.
  intros Hh Hop. destruct op as [n|page n|page b|first ps bs| |n]; cbn [step flat_step op_ok] in *.
  - unfold read_header_inner. rewrite (read_ok o f) by (done || lia). destruct (flat_read f 0 n); cbn;
      by rewrite ?orb_false_r, ?orb_true_r.
  - assert (read_page_inner o page n =
      if decide (is_uint 64 (page - 1) /\ is_uint 64 ((page - 1) * PAGE))
      then flat_read f ((page - 1) * PAGE) n else Err IntegerOverflow) as ->.
    { unfold read_page_inner, checked_sub, checked_mul, try_uint.
      destruct (decide (is_uint 64 (page - 1))) as [H1|H1]; cbn [mbind option_bind].
      - destruct (decide (is_uint 64 ((page - 1) * PAGE))) as [H2|H2].
        + rewrite decide_True by done. apply read_ok; [done|unfold is_uint in H2; lia|done].
        + rewrite decide_False by (by intros [_ ?]). done.
      - rewrite decide_False by (by intros [? _]). done. }
    case_decide; cbn [fst snd]; [|cbn; by rewrite orb_true_r].
    destruct (flat_read _ _ _); cbn; by rewrite ?orb_false_r, ?orb_true_r.
  - pose proof (write_page_inner_ok o f page b Hh Hop) as Hw. unfold write_page.
    destruct (write_page_inner o page b) as [o1 r1]. destruct Hw as (Hf & Hh1 & Hp & Hfl). rewrite Hf.
    destruct r1; cbn; rewrite ?Hfl, ?orb_false_r, ?orb_true_r; done.
  - unfold write_pages_inner. destruct (negb _); [cbn; by rewrite orb_true_r|].
    unfold checked_mul, try_uint. case_decide; [|cbn; by rewrite orb_true_r].
    pose proof (write_buffers_ok bs first 0 o f Hh ltac:(lia)) as Hw. rewrite Z.add_0_r in Hw.
    destruct (write_buffers o first 0 bs) as [o1 r1]. destruct (flat_write_buffers f first bs) as [f1 r1'].
    cbn [fst snd] in Hw. destruct Hw as (-> & Hh1 & Hp & Hfl).
    destruct r1 as [u|e]; [|cbn; by rewrite orb_true_r]. rewrite <- (Hfl eq_refl).
    destruct (try_sint 32 _); cbn; by rewrite ?orb_false_r, ?orb_true_r.
  - cbn. by rewrite orb_false_r.
  - destruct Hh as [Hok Hr]. destruct (state_truncate _ _ _ n Hok Hr Hop) as [? ?]. cbn. by rewrite orb_false_r.
Qed.

Lemma steps_ok ops : forall o f,
  holds o f -> Forall op_ok ops ->
  let '(o', rs) := steps o ops in
  (flat_steps f ops).2 = rs /\ holds o' (flat_steps f ops).1 /\ o_parent o' = o_parent o /\
  o_failed o' = o_failed o || existsb (fun r => negb (is_ok r)) rs.
Proof.
  induction ops as [|op ops IH]; intros o f Hh Hops; cbn [steps flat_steps existsb].
  { cbn. by rewrite orb_false_r. }
  apply Forall_cons in Hops as [Hop Hops]. pose proof (step_ok o f op Hh Hop) as Hs.
  destruct (step o op) as [o1 r1]. destruct (flat_step f op) as [f1 r1']. cbn [fst snd] in Hs.
  destruct Hs as (-> & Hh1 & Hp1 & Hf1). specialize (IH o1 f1 Hh1 Hops).
  destruct (steps o1 ops) as [o2 rs]. destruct (flat_steps f1 ops) as [f2 rs']. cbn [fst snd] in *.
  destruct IH as (-> & Hh2 & Hp2 & Hf2). split; [done|]. split; [done|]. split; [congruence|].
  cbn [existsb]. by rewrite Hf2, Hf1, orb_assoc.
Qed.
End refine.

(** ** The frozen image *)

(** Arithmetic with pages: division by the page size. *)
Ltac page_lia := unfold PAGE, div_ceil in *; Z.to_euclidean_division_equations; lia.

Section frozen.
Context `{TursoCrate}.

(** Page [n], counted from one, of a file of whole pages. *)
Definition page_of (f : bytes) (n : Z) : bytes := range ((n - 1) * PAGE) (n * PAGE) f.
Definition parent_page (parent : bytes) (n : Z) : option bytes := slice parent ((n - 1) * PAGE) (n * PAGE).

(** The changed pages of [f] over [parent] are those that differ, in order. *)
Definition changed_pages (parent f : bytes) (changed : list (Z * bytes)) : Prop :=
  bt_sorted changed /\
  forall n page, bt_get n changed = Some page <->
    1 <= n /\ n * PAGE <= len f /\ page = page_of f n /\ parent_page parent n <> Some page.

Lemma bt_sorted_nodup {V} (m : list (Z * V)) : bt_sorted m -> NoDup m.*1.
Proof.
  induction m as [|[k v] m IH]; [constructor|]. rewrite bt_sorted_cons. intros [Ha Hs].
  constructor; [|by apply IH]. intros Hin. rewrite Forall_forall in Ha. apply (olt_irrefl k), Ha, Hin.
Qed.

Lemma touched_nodup parent st : state_ok parent st -> NoDup (touched st).
Proof.
  intros Hok. apply bt_sorted_nodup.
  assert (bt_sorted (map (fun kv : Z * bytes => (kv.1, tt)) (s_pages st))) as Hs.
  { pose proof (ok_sorted _ _ Hok) as Hs. unfold bt_sorted in *. rewrite <- list_fmap_compose. exact Hs. }
  revert Hs. generalize (map (fun kv : Z * bytes => (kv.1, tt)) (s_pages st)).
  induction (seqZ _ _) as [|k ks IH]; intros m Hs; cbn [fold_left]; [done|]. by apply IH, bt_sorted_insert.
Qed.

Lemma fold_insert_keys ks : forall (m : list (Z * unit)) x,
  x ∈ (fold_left (fun m k => bt_insert k tt m) ks m).*1 <-> x ∈ m.*1 \/ x ∈ ks.
Proof.
  induction ks as [|k ks IH]; intros m x; cbn [fold_left]; [set_solver|].
  rewrite IH, bt_keys_insert, elem_of_cons. tauto.
Qed.

Lemma touched_elem st x :
  x ∈ touched st <-> x ∈ (s_pages st).*1 \/ s_parent_limit st / PAGE <= x < div_ceil (s_length st) PAGE.
Proof.
  unfold touched. rewrite fold_insert_keys.
  assert ((map (fun kv : Z * bytes => (kv.1, tt)) (s_pages st)).*1 = (s_pages st).*1) as ->.
  { generalize (s_pages st) as m. induction m as [|[k v] m IH]; cbn; [done|]. by f_equal. }
  rewrite elem_of_seqZ. split; intros [?|?]; auto; right; lia.
Qed.

(** What one comparison adds. *)
Definition adds (parent : bytes) (st : State) (k : Z) (page : bytes) : Prop :=
  k * PAGE < s_length st /\ page = (read_at parent st (k * PAGE) PAGE).2 /\
  slice parent (k * PAGE) ((k + 1) * PAGE) <> Some page.

Lemma compare_page_ok parent st changed k :
  bt_sorted changed ->
  bt_sorted (compare_page parent st changed k) /\
  forall n page, bt_get n changed = None \/ n <> k + 1 ->
    bt_get n (compare_page parent st changed k) = Some page <->
    bt_get n changed = Some page \/ n = k + 1 /\ adds parent st k page.
Proof.
  intros Hs. unfold compare_page, adds.
  destruct (Z.leb_spec (s_length st) (k * PAGE)) as [|Hlt].
  { split; [done|]. intros n page _. split; [by left|]. intros [?|(_ & ? & _)]; [done|lia]. }
  destruct (bool_decide _) eqn:E.
  - apply bool_decide_eq_true in E. split; [done|]. intros n page _. split; [by left|].
    intros [?|(-> & _ & -> & ?)]; done.
  - apply bool_decide_eq_false in E. split; [by apply bt_sorted_insert|]. intros n page Hn.
    rewrite bt_get_insert by done. destruct (ocmp n (k + 1)) eqn:Ec.
    + apply ocmp_eq in Ec as ->. destruct Hn as [Hn|]; [|done]. rewrite Hn.
      split; [intros [= <-]; by right|]. by intros [|(_ & _ & -> & _)].
    + split; [by left|]. intros [?|[-> _]]; [done|]. by rewrite ocmp_refl in Ec.
    + split; [by left|]. intros [?|[-> _]]; [done|]. by rewrite ocmp_refl in Ec.
Qed.

Lemma compare_pages_ok parent st ks : forall changed,
  bt_sorted changed -> NoDup ks -> (forall k, k ∈ ks -> bt_get (k + 1) changed = None) ->
  let changed' := fold_left (compare_page parent st) ks changed in
  bt_sorted changed' /\
  forall n page, bt_get n changed' = Some page <->
    bt_get n changed = Some page \/ (n - 1) ∈ ks /\ adds parent st (n - 1) page.
Proof.
  induction ks as [|k ks IH]; intros changed Hs Hnd Hnone; cbn [fold_left].
  { split; [done|]. intros n page. set_solver. }
  apply NoDup_cons in Hnd as [Hk Hnd].
  destruct (compare_page_ok parent st changed k Hs) as [Hs1 Hg1].
  assert (bt_get (k + 1) changed = None) as Hkn by (apply Hnone; left).
  destruct (IH (compare_page parent st changed k) Hs1 Hnd) as [Hs2 Hg2].
  { intros j Hj. destruct (bt_get (j + 1) (compare_page _ _ _ _)) as [p|] eqn:E; [|done].
    apply Hg1 in E; [|left; apply Hnone; by right]. destruct E as [E|[Ej _]].
    - rewrite (Hnone j) in E; [done|by right].
    - assert (j = k) as -> by lia. done. }
  split; [done|]. intros n page. rewrite Hg2, elem_of_cons.
  destruct (decide (n = k + 1)) as [->|Hn].
  - rewrite Hg1 by (by left). replace (k + 1 - 1) with k by lia. rewrite Hkn. naive_solver.
  - rewrite Hg1 by (by right). assert (n - 1 <> k) by lia. naive_solver.
Qed.
(** A page that was not touched is the parent's. *)
Lemma untouched_page parent st f k :
  state_ok parent st -> represents parent st f -> 0 <= k -> (k + 1) * PAGE <= len f ->
  k ∉ touched st -> slice parent (k * PAGE) ((k + 1) * PAGE) = Some (range (k * PAGE) ((k + 1) * PAGE) f).
Proof.
  intros Hok [Hlen Hf] Hk Hle Hnot. rewrite touched_elem in Hnot. pose proof (ok_limit _ _ Hok).
  assert (bt_get k (s_pages st) = None) as Hnone.
  { destruct (bt_get k (s_pages st)) eqn:E; [|done]. apply bt_get_some_elem in E. destruct Hnot. left.
    apply list_elem_of_fmap. by eexists (_, _). }
  assert (k < s_parent_limit st / PAGE) as Hlim.
  { destruct (Z.lt_ge_cases k (s_parent_limit st / PAGE)); [done|]. destruct Hnot. right. split; [done|].
    rewrite <- Hlen. page_lia. }
  assert ((k + 1) * PAGE <= s_parent_limit st) as Hb by (page_lia).
  apply slice_some. unfold PAGE in *. split; [lia|]. split; [lia|].
  change (range (k * 4096) ((k + 1) * 4096) f = range (k * 4096) ((k + 1) * 4096) parent).
  apply range_eq; [lia|lia|rewrite range_len by lia; lia|]. intros i Hi.
  rewrite ix_range by lia. rewrite Hf by lia. unfold byte_at. change PAGE with 4096.
  replace (i / 4096) with k by page_lia. rewrite Hnone.
  replace (i <? s_parent_limit st) with true by lia. f_equal. lia.
Qed.

Lemma aligned_page (f : bytes) k : len f mod PAGE = 0 -> k * PAGE < len f <-> (k + 1) * PAGE <= len f.
Proof. intros Hm. split; page_lia. Qed.

Lemma read_page parent st f k :
  state_ok parent st -> represents parent st f -> 0 <= k -> (k + 1) * PAGE <= len f ->
  (read_at parent st (k * PAGE) PAGE).2 = range (k * PAGE) ((k + 1) * PAGE) f.
Proof.
  intros Hok Hr Hk Hle. rewrite (read_at_ok parent st f) by (done || unfold PAGE; lia). cbn [snd].
  unfold saturating_sub.
  replace (Z.min PAGE (Z.max 0 (len f - k * PAGE))) with PAGE by (page_lia).
  rewrite Z.sub_diag, app_nil_r. f_equal. lia.
Qed.

Lemma freeze_ok o f img :
  holds o f -> freeze o = Ok img ->
  o_failed o = false /\ len f mod PAGE = 0 /\ f_parent img = o_parent o /\ f_length img = len f /\
  changed_pages (o_parent o) f (f_changed img).
Proof.
  intros [Hok Hr]. unfold freeze. destruct (o_failed o); [done|]. pose proof Hr as [Hlen _]. rewrite <- Hlen.
  destruct (negb _) eqn:E; [done|]. intros [= <-]. bool_to_prop. cbn [f_parent f_length f_changed].
  split_and!; try done.
  destruct (compare_pages_ok (o_parent o) (o_state o) (touched (o_state o)) []) as [Hs Hg];
    [constructor|by eapply touched_nodup|done|].
  split; [done|]. intros n page. rewrite Hg. unfold adds, page_of, parent_page. rewrite <- Hlen. split.
  - intros [?|(Hin & Hlt & -> & Hne)]; [done|]. replace (n - 1 + 1) with n in Hne by lia.
    assert (0 <= n - 1) as Hn.
    { apply touched_elem in Hin as [Hin|Hin].
      - pose proof (ok_pages _ _ Hok) as Hall. rewrite Forall_forall in Hall.
        apply list_elem_of_fmap in Hin as (kv & -> & Hkv). by apply Hall.
      - pose proof (ok_limit _ _ Hok). page_lia. }
    apply aligned_page in Hlt; [|done].
    rewrite (read_page _ _ f (n - 1) Hok Hr Hn Hlt) in Hne |- *.
    replace (n - 1 + 1) with n in * by lia. split_and!; done || lia.
  - intros (Hn & Hle & -> & Hne). right.
    assert ((n - 1) * PAGE < len f) as Hlt by (page_lia).
    assert ((n - 1 + 1) * PAGE <= len f) as Hle' by (by replace (n - 1 + 1) with n by lia).
    rewrite (read_page _ _ f (n - 1) Hok Hr ltac:(lia) Hle').
    replace (n - 1 + 1) with n by lia. split_and!; try done.
    destruct (decide ((n - 1) ∈ touched (o_state o))) as [|Hnot]; [done|]. destruct Hne.
    pose proof (untouched_page _ _ f (n - 1) Hok Hr ltac:(lia) Hle' Hnot) as Hu.
    by replace (n - 1 + 1) with n in Hu by lia.
Qed.

(** *** Materializing *)

Lemma lay_pages_ok total l : forall b,
  bt_sorted l -> len b = total ->
  Forall (fun kv => 1 <= kv.1 /\ kv.1 * PAGE <= total /\ len kv.2 = PAGE) l ->
  let b' := fold_left (lay_page total) l b in
  len b' = total /\
  forall i, 0 <= i -> ix b' i = match bt_get (i / PAGE + 1) l with Some p => ix p (i mod PAGE) | None => ix b i end.
Proof.
  induction l as [|[n p] l IH]; intros b Hs Hlen Hall; cbn [fold_left]; [done|].
  apply bt_sorted_cons in Hs as [Hab Hs]. apply Forall_cons in Hall as [(Hn & Hle & Hp) Hall]. cbn [fst snd] in *.
  assert (lay_page total b (n, p) = copy_at ((n - 1) * PAGE) p b) as ->.
  { unfold lay_page, saturating_sub. cbn [fst snd].
    replace (Z.min PAGE (Z.max 0 (total - (n - 1) * PAGE))) with PAGE by (page_lia).
    f_equal. apply range_eq; unfold PAGE in *; try lia. intros. f_equal. lia. }
  destruct (IH (copy_at ((n - 1) * PAGE) p b)) as [Hl Hi]; try done.
  { rewrite copy_at_len; page_lia. }
  split; [done|]. intros i Hi0. rewrite Hi by done. cbn [bt_get].
  assert (bt_get n l = None) as Hn0 by (by apply bt_get_lt). destruct (page_split i) as [Hm Hd].
  destruct (ocmp (i / PAGE + 1) n) eqn:E.
  - apply ocmp_eq in E. rewrite E, Hn0, ix_copy_at by (page_lia).
    replace (((n - 1) * PAGE <=? i) && (i <? (n - 1) * PAGE + len p)) with true by (page_lia).
    f_equal. page_lia.
  - assert (i / PAGE + 1 <> n) by (intros En; by rewrite En, ocmp_refl in E).
    destruct (bt_get _ l); [done|]. rewrite ix_copy_at by (page_lia).
    by replace (((n - 1) * PAGE <=? i) && (i <? (n - 1) * PAGE + len p)) with false by (page_lia).
  - assert (i / PAGE + 1 <> n) by (intros En; by rewrite En, ocmp_refl in E).
    destruct (bt_get _ l); [done|]. rewrite ix_copy_at by (page_lia).
    by replace (((n - 1) * PAGE <=? i) && (i <? (n - 1) * PAGE + len p)) with false by (page_lia).
Qed.

Lemma materialize_ok img f :
  len f mod PAGE = 0 -> f_length img = len f -> changed_pages (f_parent img) f (f_changed img) ->
  materialize img = f.
Proof.
  intros Hmod Hlen [Hs Hg]. pose proof (len_nonneg f). pose proof (len_nonneg (f_parent img)).
  unfold materialize. rewrite Hlen. set (copied := Z.min (len (f_parent img)) (len f)).
  assert (len (range 0 copied (f_parent img)) = copied) as Hr by (rewrite range_len; lia).
  set (base := copy_at 0 _ _).
  assert (len base = len f) as Hb by (unfold base; rewrite copy_at_len; rewrite ?zero_bytes_len, ?Hr; lia).
  destruct (lay_pages_ok (len f) (f_changed img) base Hs Hb) as [Hl Hi].
  { apply Forall_forall. intros [n p] Hin%bt_get_elem; [|done]. apply Hg in Hin as (? & ? & -> & _).
    split_and!; try done. unfold page_of. cbn [fst snd]. rewrite range_len; page_lia. }
  apply ix_ext; [done|]. rewrite Hl. intros i Hrange. rewrite Hi by lia. destruct (page_split i) as [Hm Hd].
  assert ((i / PAGE + 1) * PAGE <= len f) as Hle by (page_lia).
  assert (0 <= i / PAGE) as Hk by (apply Z.div_pos; unfold PAGE; lia).
  destruct (bt_get (i / PAGE + 1) (f_changed img)) as [p|] eqn:E.
  - apply Hg in E as (_ & _ & -> & _). unfold page_of. rewrite ix_range by (page_lia).
    f_equal. page_lia.
  - destruct (decide (parent_page (f_parent img) (i / PAGE + 1) = Some (page_of f (i / PAGE + 1)))) as [Hpp|Hne].
    + unfold parent_page, page_of in Hpp. apply slice_some in Hpp as (? & ? & Hpp).
      change (range ((i / PAGE + 1 - 1) * PAGE) ((i / PAGE + 1) * PAGE) f =
        range ((i / PAGE + 1 - 1) * PAGE) ((i / PAGE + 1) * PAGE) (f_parent img)) in Hpp.
      apply (f_equal (fun b => ix b (i mod PAGE))) in Hpp. rewrite !ix_range in Hpp by (page_lia).
      replace ((i / PAGE + 1 - 1) * PAGE + i mod PAGE) with i in Hpp by (page_lia).
      rewrite Hpp. unfold base. rewrite ix_copy_at; rewrite ?zero_bytes_len, ?Hr by lia; [|lia|lia].
      replace ((0 <=? i) && (i <? 0 + copied)) with true by (page_lia).
      rewrite ix_range by lia. f_equal. lia.
    + assert (bt_get (i / PAGE + 1) (f_changed img) = Some (page_of f (i / PAGE + 1))) as Hc; [|congruence].
      apply Hg. split_and!; done || lia.
Qed.
End frozen.

(** ** Properties *)

(** C4: the overlay refines a flat file. Whatever calls the engine makes -
    reads, page writes, multi-page writes that stop half-way, truncations down
    and up - each call answers what the same call on one byte array initialised
    with the parent answers, reads return that array's bytes, and the size is
    the array's length. *)
Theorem overlay_refines_file `{TursoCrate} (parent : bytes) (ops : list Op) (Hops : Forall op_ok ops) :
  let '(o, rs) := steps (overlay_new parent) ops in
  let '(f, rs') := flat_steps parent ops in
  rs = rs' /\ size o = len f /\
  forall offset n, 0 <= offset -> 0 <= n -> read o offset n = flat_read f offset n.
Proof.
  pose proof (steps_ok ops _ _ (holds_new parent) Hops) as Hs.
  destruct (steps _ ops) as [o rs], (flat_steps parent ops) as [f rs']. cbn [fst snd] in Hs.
  destruct Hs as (-> & Hh & _). split; [done|]. split; [by destruct Hh as [_ [-> _]]|].
  intros. by apply read_ok.
Qed.

(** The crate's error type, for the examples. *)
Definition turso_reference : TursoCrate :=
  {| limbo_error := string; IntegerOverflow := "integer overflow"; InvalidArgument s := s;
     InternalError s := s |}.

Definition example_ops : list Op :=
  [WritePage 2 (repeat Byte.x61 4096); Truncate 5000; ReadPage 2 4096; Truncate 12288; ReadPage 0 16].

Lemma example_ops_ok : Forall op_ok example_ops.
Proof. repeat constructor; cbn; lia. Qed.

Lemma overlay_refines_file_witness :
  (@steps turso_reference (overlay_new (repeat Byte.x62 4096)) example_ops).2
  = (@flat_steps turso_reference (repeat Byte.x62 4096) example_ops).2.
Proof.
  pose proof (@overlay_refines_file turso_reference (repeat Byte.x62 4096) example_ops example_ops_ok) as Hr.
  destruct (steps _ _) as [o rs], (flat_steps _ _) as [f rs']. apply Hr.
Defined.

(** C21: freezing. After any calls, [freeze] succeeds exactly when every call
    succeeded and the file is a whole number of pages; the frozen image then
    materializes to the file, and its changed pages are exactly the pages of the
    file that differ from the parent's page of that number (or have none), in
    increasing order. *)
Theorem freeze_correct `{TursoCrate} (parent : bytes) (ops : list Op) (Hops : Forall op_ok ops) :
  let '(o, rs) := steps (overlay_new parent) ops in
  let f := (flat_steps parent ops).1 in
  is_ok (freeze o) = forallb is_ok rs && (len f mod PAGE =? 0) /\
  forall img, freeze o = Ok img ->
    materialize img = f /\ f_length img = len f /\ changed_pages parent f (f_changed img).
Proof.
  pose proof (steps_ok ops _ _ (holds_new parent) Hops) as Hs.
  destruct (steps _ ops) as [o rs]. destruct Hs as (_ & Hh & Hp & Hf). cbn [o_parent o_failed overlay_new orb] in *.
  set (f := (flat_steps parent ops).1) in *. split.
  - assert (o_failed o = negb (forallb is_ok rs)) as Hfl.
    { rewrite Hf. clear. induction rs as [|r rs IH]; cbn; [done|]. by rewrite IH, negb_andb. }
    unfold freeze. rewrite Hfl. destruct Hh as [_ [<- _]]. destruct (forallb _ _); [|done].
    cbn [negb andb]. by destruct (_ =? 0).
  - intros img Himg. destruct (freeze_ok _ _ _ Hh Himg) as (_ & Hmod & Hpar & Hl & Hc). rewrite Hp in *.
    split_and!; try done. apply materialize_ok; [done|done|]. by rewrite Hpar.
Qed.

Lemma freeze_correct_witness :
  let f := (@flat_steps turso_reference (repeat Byte.x62 4096) (removelast example_ops)).1 in
  exists img, @freeze turso_reference
      (@steps turso_reference (overlay_new (repeat Byte.x62 4096)) (removelast example_ops)).1 = Ok img /\
    materialize img = f /\ changed_pages (repeat Byte.x62 4096) f (f_changed img).
Proof.
  intros f.
  destruct (@freeze turso_reference
    (@steps turso_reference (overlay_new (repeat Byte.x62 4096)) (removelast example_ops)).1) as [img|e] eqn:E.
  2:{ apply (f_equal is_ok) in E. vm_compute in E. discriminate E. }
  exists img. split; [reflexivity|].
  assert (Forall op_ok (removelast example_ops)) as Hops by (repeat constructor; cbn; lia).
  pose proof (@freeze_correct turso_reference (repeat Byte.x62 4096) (removelast example_ops) Hops) as Hf.
  destruct (steps _ _) as [o rs]. destruct Hf as [_ Hf]. destruct (Hf img E) as (Hm & _ & Hc).
  split; [exact Hm|exact Hc].
Defined.
