(* ===== verification/Storage.v ===== *)
(** Object storage (otmp/src/storage.rs): the storage trait with what its
    operations promise, bounded range reads, and the in-memory store, proved to
    keep the promises. *)
From S2P Require Import Prelude Bytes ByteArray Errors Values.

Notation serror := StorageError.t.
Notation sresult := (result StorageError.t).

Definition MAXIMUM_RANGE_LENGTH : Z := 64 * 1024 * 1024.

(** ** Data *)

Record ObjectVersion := MkVersion { version_token : string }.
#[export] Instance version_eq_dec : EqDecision ObjectVersion.
Proof. solve_decision. Defined.

Definition from_opaque (token : string) : ObjectVersion := MkVersion token.
Definition from_sha256 `{HexCrate} (hash : Sha256) : ObjectVersion := MkVersion (sha256_to_string hash).

Record StoredObject := MkStored { so_bytes : bytes; so_version : ObjectVersion }.
Record ObjectMetadata := MkMetadata { om_length : Z; om_version : ObjectVersion }.
#[export] Instance metadata_eq_dec : EqDecision ObjectMetadata.
Proof. solve_decision. Defined.

Record StoredRange := MkStoredRange {
  sr_bytes : bytes; sr_range : Z * Z; sr_metadata : ObjectMetadata }.

Record CreatedObject := MkCreated {
  co_version : ObjectVersion; co_sha256 : Sha256; co_length : Z }.

Inductive ConditionalWriteOutcome :=
| Applied (new_version : ObjectVersion)
| Conflict (current_version : option ObjectVersion)
| Indeterminate (source : serror).

(** ** Bounded ranges *)

(** [usize] has 64 bits. *)
Definition validate_range_request (metadata : ObjectMetadata) (range : Z * Z) : sresult unit :=
  length ← ok_or (checked_sub 64 range.2 range.1)
             (StorageError.VerificationFailed "range end precedes its start");
  _ ← reject ((length =? 0) || (MAXIMUM_RANGE_LENGTH <? length) || (om_length metadata <? range.2))
        (StorageError.VerificationFailed "range is empty, oversized, or outside the object");
  _ ← ok_or (try_uint 64 length)
        (StorageError.VerificationFailed "range cannot fit this platform's memory model");
  Ok tt.

Definition validate_stored_range (r : StoredRange) (expected : ObjectMetadata) (range : Z * Z) : sresult unit :=
  _ ← validate_range_request expected range;
  reject (negb (bool_decide (sr_metadata r = expected)) || negb (bool_decide (sr_range r = range))
          || negb (len (sr_bytes r) =? range.2 - range.1))
    (StorageError.VerificationFailed "range response did not match the requested object revision").

(** ** The trait *)

(** Every operation takes the store and returns it; a reader is its bytes, or
    the I/O failure of reading them. *)
Class ObjectStore (S : Type) := {
  os_read : S -> RelativeUri -> sresult StoredObject * S;
  os_stat : S -> RelativeUri -> sresult ObjectMetadata * S;
  os_read_range : S -> RelativeUri -> Z * Z -> ObjectMetadata -> sresult StoredRange * S;
  os_create_from_reader : S -> RelativeUri -> result string bytes -> option Z -> sresult CreatedObject * S;
  os_create_head : S -> bytes -> ConditionalWriteOutcome * S;
  os_replace_head : S -> ObjectVersion -> bytes -> ConditionalWriteOutcome * S;
  os_delete_if_version : S -> RelativeUri -> ObjectVersion -> sresult bool * S }.

Definition HEAD_KEY : string := "_otmp/HEAD".

Section provided.
Context `{HexCrate} `{Sha2Crate} {S : Type} `{ObjectStore S}.

(** [create_bytes], a provided method. *)
Definition create_bytes (s : S) (key : RelativeUri) (b : bytes) : sresult CreatedObject * S :=
  os_create_from_reader s key (Ok b) (Some (len b)).

(** [confirm_readable], a provided method. *)
Definition confirm_readable (s : S) (key : RelativeUri) (sha256 : Sha256) (length : Z)
  : sresult ObjectVersion * S :=
  match os_read s key with
  | (Err e, s) => (Err e, s)
  | (Ok o, s) =>
    if negb (len (so_bytes o) =? length) || negb (bool_decide (digest (so_bytes o) = sha256))
    then (Err (StorageError.VerificationFailed ("object verification failed for " +:+ uri_str key)), s)
    else (Ok (so_version o), s)
  end.
End provided.

(** ** The in-memory store *)

Inductive InjectedConditional := InjConflict | IndeterminateBefore | IndeterminateAfter.

Record MemoryObject := MkObject { mo_bytes : bytes; mo_revision : Z }.

Record MemoryState := MkMemory {
  ms_objects : list (string * MemoryObject);
  ms_next_revision : Z;
  ms_conditional_outcomes : list InjectedConditional;
  ms_reads : Z }.

Definition memory_default : MemoryState := MkMemory [] 0 [] 0.

Definition inject_conditional (s : MemoryState) (o : InjectedConditional) : MemoryState :=
  MkMemory (ms_objects s) (ms_next_revision s) (ms_conditional_outcomes s ++ [o]) (ms_reads s).

(** Store [b] under [key] with a new revision. *)
Definition insert_object (s : MemoryState) (key : string) (b : bytes) : MemoryState :=
  let revision := ms_next_revision s + 1 in
  MkMemory (bt_insert key (MkObject b revision) (ms_objects s)) revision
    (ms_conditional_outcomes s) (ms_reads s).

Definition replace_object_for_test (s : MemoryState) (key : RelativeUri) (b : bytes) : MemoryState :=
  insert_object s (uri_str key) b.

Section memory.
Context `{HexCrate} `{Sha2Crate}.

Definition version_of (b : bytes) : ObjectVersion := from_sha256 (digest b).

Definition memory_conditional (s : MemoryState) (expected : option ObjectVersion) (b : bytes)
  : ConditionalWriteOutcome * MemoryState :=
  let injected := head (ms_conditional_outcomes s) in
  let s := MkMemory (ms_objects s) (ms_next_revision s) (tail (ms_conditional_outcomes s)) (ms_reads s) in
  let current := (fun o => version_of (mo_bytes o)) <$> bt_get HEAD_KEY (ms_objects s) in
  match injected with
  | Some IndeterminateBefore => (Indeterminate (StorageError.Injected "before conditional write"), s)
  | _ =>
    if negb (bool_decide (current = expected)) then (Conflict current, s) else
    match injected with
    | Some InjConflict => (Conflict current, s)
    | _ =>
      let s := insert_object s HEAD_KEY b in
      match injected with
      | Some IndeterminateAfter => (Indeterminate (StorageError.Injected "after conditional write"), s)
      | _ => (Applied (version_of b), s)
      end
    end
  end.

Definition memory_read (s : MemoryState) (key : RelativeUri) : sresult StoredObject * MemoryState :=
  let s := MkMemory (ms_objects s) (ms_next_revision s) (ms_conditional_outcomes s) (ms_reads s + 1) in
  (match bt_get (uri_str key) (ms_objects s) with
   | Some o => Ok (MkStored (mo_bytes o) (version_of (mo_bytes o)))
   | None => Err (StorageError.NotFound (uri_str key))
   end, s).

Definition memory_metadata (o : MemoryObject) : ObjectMetadata :=
  MkMetadata (len (mo_bytes o)) (from_opaque ("otmp-memory-range-v1:" +:+ u64_to_string (mo_revision o))).

Definition memory_stat (s : MemoryState) (key : RelativeUri) : sresult ObjectMetadata * MemoryState :=
  (match bt_get (uri_str key) (ms_objects s) with
   | Some o => Ok (memory_metadata o)
   | None => Err (StorageError.NotFound (uri_str key))
   end, s).

Definition memory_read_range (s : MemoryState) (key : RelativeUri) (rng : Z * Z) (expected : ObjectMetadata)
  : sresult StoredRange * MemoryState :=
  (_ ← validate_range_request expected rng;
   o ← ok_or (bt_get (uri_str key) (ms_objects s)) (StorageError.NotFound (uri_str key));
   let actual := memory_metadata o in
   _ ← reject (negb (bool_decide (actual = expected)))
         (StorageError.VerificationFailed "in-memory object version changed before range read");
   start ← ok_or (try_uint 64 rng.1)
             (StorageError.VerificationFailed "range cannot fit this platform's memory model");
   stop ← ok_or (try_uint 64 rng.2)
            (StorageError.VerificationFailed "range cannot fit this platform's memory model");
   Ok (MkStoredRange (range start stop (mo_bytes o)) rng actual), s).

(** The two checks for an existing object are one here: the lock is released
    in between, and what others do there is what they may do before the call. *)
Definition memory_create (s : MemoryState) (key : RelativeUri) (reader : result string bytes) (maximum : option Z)
  : sresult CreatedObject * MemoryState :=
  if bt_contains (uri_str key) (ms_objects s) then (Err (StorageError.ImmutableConflict (uri_str key)), s)
  else
    match reader with
    | Err e => (Err (StorageError.Io e), s)
    | Ok b =>
      if match maximum with Some maximum => maximum <? len b | None => false end
      then (Err StorageError.MaximumLengthExceeded, s)
      else
        let hash := digest b in
        (Ok (MkCreated (from_sha256 hash) hash (len b)), insert_object s (uri_str key) b)
    end.

Definition memory_delete (s : MemoryState) (key : RelativeUri) (version : ObjectVersion)
  : sresult bool * MemoryState :=
  let matches := match bt_get (uri_str key) (ms_objects s) with
                 | Some o => bool_decide (version_of (mo_bytes o) = version)
                 | None => false
                 end in
  (Ok matches,
   if matches
   then MkMemory (bt_remove (uri_str key) (ms_objects s)) (ms_next_revision s)
          (ms_conditional_outcomes s) (ms_reads s)
   else s).

Definition memory_store : ObjectStore MemoryState := {|
  os_read := memory_read;
  os_stat := memory_stat;
  os_read_range := memory_read_range;
  os_create_from_reader := memory_create;
  os_create_head s b := memory_conditional s None b;
  os_replace_head s v b := memory_conditional s (Some v) b;
  os_delete_if_version := memory_delete |}.
End memory.
#[export] Existing Instance memory_store.

(** ** What a store promises *)

Section laws.
Context `{HexCrate} `{Sha2Crate}.

(** The effect of an operation on the objects of a store, seen as a function. *)
Definition same_objects (a b : string -> option bytes) : Prop := forall k, b k = a k.
Definition puts (a b : string -> option bytes) (key : string) (v : bytes) : Prop :=
  forall k, b k = if decide (k = key) then Some v else a k.
Definition drops (a b : string -> option bytes) (key : string) : Prop :=
  forall k, b k = if decide (k = key) then None else a k.

Definition conditional_effect (expected : option ObjectVersion) (b : bytes)
    (before after : string -> option bytes) : Prop :=
  version_of <$> before HEAD_KEY = expected /\ puts before after HEAD_KEY b.

(** A conditional write: applied only against the expected version; a conflict
    changes nothing; an indeterminate answer says nothing about which happened. *)
Definition conditional_spec (expected : option ObjectVersion) (b : bytes)
    (before after : string -> option bytes) (r : ConditionalWriteOutcome) : Prop :=
  match r with
  | Applied v => v = version_of b /\ conditional_effect expected b before after
  | Conflict v => v = version_of <$> before HEAD_KEY /\ same_objects before after
  | Indeterminate _ => same_objects before after \/ conditional_effect expected b before after
  end.

Definition read_spec (before after : string -> option bytes) (key : RelativeUri) (r : sresult StoredObject) : Prop :=
  same_objects before after /\
  match r with
  | Ok o => before (uri_str key) = Some (so_bytes o) /\ so_version o = version_of (so_bytes o)
  | Err (StorageError.NotFound _) => before (uri_str key) = None
  | Err _ => True
  end.

(** A creation never touches an existing object. *)
Definition create_spec (before after : string -> option bytes) (key : RelativeUri) (reader : result string bytes)
    (maximum : option Z) (r : sresult CreatedObject) : Prop :=
  (forall k, k <> uri_str key \/ is_Some (before k) -> after k = before k) /\
  match r with
  | Ok c => exists b, reader = Ok b /\ before (uri_str key) = None /\
      puts before after (uri_str key) b /\ (forall m, maximum = Some m -> len b <= m) /\
      c = MkCreated (version_of b) (digest b) (len b)
  | Err (StorageError.ImmutableConflict _) => is_Some (before (uri_str key))
  | Err _ => True
  end.

Definition deleted (before after : string -> option bytes) (key : RelativeUri) (v : ObjectVersion) : Prop :=
  version_of <$> before (uri_str key) = Some v /\ drops before after (uri_str key).

Definition delete_spec (before after : string -> option bytes) (key : RelativeUri) (v : ObjectVersion)
    (r : sresult bool) : Prop :=
  match r with
  | Ok true => deleted before after key v
  | Ok false => same_objects before after
  | Err _ => same_objects before after \/ deleted before after key v
  end.

Class StoreLaws (S : Type) `{ObjectStore S} := {
  os_ok : S -> Prop;
  os_get : S -> string -> option bytes;
  law_read s key : os_ok s -> let '(r, s') := os_read s key in
    os_ok s' /\ read_spec (os_get s) (os_get s') key r;
  law_create s key reader maximum : os_ok s ->
    let '(r, s') := os_create_from_reader s key reader maximum in
    os_ok s' /\ create_spec (os_get s) (os_get s') key reader maximum r;
  law_create_head s b : os_ok s -> let '(r, s') := os_create_head s b in
    os_ok s' /\ conditional_spec None b (os_get s) (os_get s') r;
  law_replace_head s v b : os_ok s -> let '(r, s') := os_replace_head s v b in
    os_ok s' /\ conditional_spec (Some v) b (os_get s) (os_get s') r;
  law_delete s key v : os_ok s -> let '(r, s') := os_delete_if_version s key v in
    os_ok s' /\ delete_spec (os_get s) (os_get s') key v r }.

(** *** The in-memory store keeps them *)

Definition memory_get (s : MemoryState) (key : string) : option bytes := mo_bytes <$> bt_get key (ms_objects s).
Definition memory_ok (s : MemoryState) : Prop := bt_sorted (ms_objects s).

Lemma insert_object_ok s key b : memory_ok s -> memory_ok (insert_object s key b).
Proof. apply bt_sorted_insert. Qed.

Lemma insert_object_puts s key b :
  memory_ok s -> puts (memory_get s) (memory_get (insert_object s key b)) key b.
Proof.
  intros Hs k. unfold memory_get. cbn [insert_object ms_objects]. rewrite bt_get_insert by done.
  destruct (decide (k = key)) as [->|Hne]; [by rewrite ocmp_refl|].
  destruct (ocmp k key) eqn:E; [|done..]. by apply ocmp_eq in E.
Qed.

Lemma memory_conditional_ok s expected b :
  memory_ok s ->
  let '(r, s') := memory_conditional s expected b in
  memory_ok s' /\ conditional_spec expected b (memory_get s) (memory_get s') r.
Proof.
  intros Hs. unfold memory_conditional.
  set (s1 := MkMemory _ _ _ _). assert (memory_ok s1) as Hs1 by done.
  assert (same_objects (memory_get s) (memory_get s1)) as Hsame by done.
  set (current := _ <$> bt_get HEAD_KEY (ms_objects s1)).
  assert (current = version_of <$> memory_get s HEAD_KEY) as Hcur.
  { unfold memory_get. by rewrite <- option_fmap_compose. }
  assert (current = expected ->
    conditional_effect expected b (memory_get s) (memory_get (insert_object s1 HEAD_KEY b))) as Hput.
  { intros <-. split; [done|]. apply (insert_object_puts s1 HEAD_KEY b Hs1). }
  pose proof (insert_object_ok s1 HEAD_KEY b Hs1) as Hok.
  destruct (head _) as [[| |]|]; try (case_bool_decide; cbn [negb]); (split; [done|]); cbn; auto.
Qed.

Lemma memory_read_ok s key :
  memory_ok s ->
  let '(r, s') := memory_read s key in
  memory_ok s' /\ read_spec (memory_get s) (memory_get s') key r.
Proof.
  intros Hs. unfold memory_read. split; [done|]. split; [done|]. unfold memory_get. cbn [ms_objects].
  by destruct (bt_get (uri_str key) (ms_objects s)).
Qed.

Lemma memory_create_ok s key reader maximum :
  memory_ok s ->
  let '(r, s') := memory_create s key reader maximum in
  memory_ok s' /\ create_spec (memory_get s) (memory_get s') key reader maximum r.
Proof.
  intros Hs. unfold memory_create, bt_contains.
  destruct (bt_get (uri_str key) (ms_objects s)) as [o|] eqn:Eo.
  { split; [done|]. split; [done|]. unfold memory_get. rewrite Eo. by eexists. }
  assert (memory_get s (uri_str key) = None) as Hnone by (unfold memory_get; by rewrite Eo).
  destruct reader as [b|e]; [|by split].
  destruct (match maximum with Some _ => _ | None => _ end) eqn:Emax; [by split|].
  pose proof (insert_object_puts s (uri_str key) b Hs) as Hput.
  split; [by apply insert_object_ok|]. split.
  - intros k Hk. rewrite Hput. case_decide as Hd; [|done]. subst k. destruct Hk as [|[? Hk]]; congruence.
  - exists b. split_and!; try done. intros m ->. lia.
Qed.

Lemma memory_delete_ok s key v :
  memory_ok s ->
  let '(r, s') := memory_delete s key v in
  memory_ok s' /\ delete_spec (memory_get s) (memory_get s') key v r.
Proof.
  intros Hs. unfold memory_delete. destruct (bt_get (uri_str key) (ms_objects s)) as [o|] eqn:Eo; [|done].
  case_bool_decide as Hv; [|done]. split; [by apply bt_sorted_remove|]. split.
  - unfold memory_get. rewrite Eo. by rewrite <- Hv.
  - intros k. unfold memory_get. cbn [ms_objects]. rewrite bt_get_remove by done.
    destruct (decide (k = uri_str key)) as [->|Hne]; [by rewrite ocmp_refl|].
    destruct (ocmp k (uri_str key)) eqn:E; [|done..]. by apply ocmp_eq in E.
Qed.

#[export] Instance memory_laws : StoreLaws MemoryState := {|
  os_ok := memory_ok;
  os_get := memory_get;
  law_read := memory_read_ok;
  law_create := memory_create_ok;
  law_create_head s b := memory_conditional_ok s None b;
  law_replace_head s v b := memory_conditional_ok s (Some v) b;
  law_delete := memory_delete_ok |}.
End laws.

(** ** Runs of a store *)

Inductive StoreOp :=
| OpRead (key : RelativeUri)
| OpCreate (key : RelativeUri) (reader : result string bytes) (maximum : option Z)
| OpCreateHead (b : bytes)
| OpReplaceHead (expected : ObjectVersion) (b : bytes)
| OpDelete (key : RelativeUri) (version : ObjectVersion).

Section runs.
Context `{HexCrate} `{Sha2Crate} {S : Type} `{!ObjectStore S}.

Definition store_step (s : S) (op : StoreOp) : S :=
  match op with
  | OpRead key => (os_read s key).2
  | OpCreate key reader maximum => (os_create_from_reader s key reader maximum).2
  | OpCreateHead b => (os_create_head s b).2
  | OpReplaceHead v b => (os_replace_head s v b).2
  | OpDelete key v => (os_delete_if_version s key v).2
  end.

Lemma conditional_other expected b before after r k :
  k <> HEAD_KEY -> conditional_spec expected b before after r -> after k = before k.
Proof.
  intros Hk Hr. assert (forall f, puts before f HEAD_KEY b -> f k = before k) as Hp.
  { intros f Hf. rewrite Hf. by rewrite decide_False. }
  destruct r; cbn in Hr; unfold conditional_effect, same_objects in *; naive_solver.
Qed.

End runs.

(** ** Revisions of the in-memory store *)

Section revisions.
Context `{HexCrate} `{Sha2Crate}.

(** What anyone may do to the in-memory store, its test hooks included. *)
Inductive memory_step : MemoryState -> MemoryState -> Prop :=
| mstep_op s op : memory_step s (store_step s op)
| mstep_inject s o : memory_step s (inject_conditional s o)
| mstep_replace s key b : memory_step s (replace_object_for_test s key b).

Definition revisions_ok (s : MemoryState) : Prop :=
  0 <= ms_next_revision s /\
  forall k o, bt_get k (ms_objects s) = Some o -> 0 <= mo_revision o <= ms_next_revision s.

(** Every object of [s'] was in [s] already, or is newer than all of [s]. *)
Definition later (s s' : MemoryState) : Prop :=
  ms_next_revision s <= ms_next_revision s' /\
  forall k o, bt_get k (ms_objects s') = Some o ->
    bt_get k (ms_objects s) = Some o \/ ms_next_revision s < mo_revision o.

Definition stepped (s s' : MemoryState) : Prop :=
  memory_ok s -> revisions_ok s -> memory_ok s' /\ revisions_ok s' /\ later s s'.

Lemma stepped_same s s' :
  ms_objects s' = ms_objects s -> ms_next_revision s' = ms_next_revision s -> stepped s s'.
Proof.
  intros Ho Hn Hok Hr. unfold memory_ok, revisions_ok, later in *. rewrite Ho, Hn.
  split; [done|]. split; [done|]. split; [lia|]. by left.
Qed.

Lemma stepped_insert s key b : stepped s (insert_object s key b).
Proof.
  intros Hok [Hn Hr]. split; [by apply insert_object_ok|].
  unfold revisions_ok, later, insert_object. cbn [ms_objects ms_next_revision].
  assert (forall k o, bt_get k (bt_insert key (MkObject b (ms_next_revision s + 1)) (ms_objects s)) = Some o ->
    bt_get k (ms_objects s) = Some o \/ o = MkObject b (ms_next_revision s + 1)) as Hins.
  { intros k o. rewrite bt_get_insert by done. destruct (ocmp k key); [|by left..].
    intros E. right. congruence. }
  split; (split; [lia|]); intros k o Hk; apply Hins in Hk as [Hk| ->]; cbn [mo_revision];
    [apply Hr in Hk; lia|lia|by left|right; lia].
Qed.

Lemma stepped_trans a b c : stepped a b -> stepped b c -> stepped a c.
Proof.
  intros H1 H2 Hok Hr. destruct (H1 Hok Hr) as (Hb & Hrb & [Hn1 Hl1]).
  destruct (H2 Hb Hrb) as (Hc & Hrc & [Hn2 Hl2]). split; [done|]. split; [done|]. split; [lia|].
  intros k o Hk. apply Hl2 in Hk as [Hk|Hk]; [by apply Hl1|right; lia].
Qed.

Lemma memory_conditional_stepped s e b : stepped s (memory_conditional s e b).2.
Proof.
  unfold memory_conditional. set (s1 := MkMemory _ _ _ _).
  assert (stepped s s1) as H1 by (by apply stepped_same).
  pose proof (stepped_trans _ _ _ H1 (stepped_insert s1 HEAD_KEY b)) as H2.
  destruct (head _) as [[| |]|]; try destruct (negb _); cbn [snd]; done.
Qed.

Lemma memory_step_stepped s s' : memory_step s s' -> stepped s s'.
Proof.
  intros [s1 op|s1 o|s1 key b]; [|by apply stepped_same|apply stepped_insert].
  destruct op as [key|key reader m|h|v h|key v]; cbn [store_step]; try apply memory_conditional_stepped.
  - by apply stepped_same.
  - cbn. unfold memory_create. destruct (bt_contains _ _); [by apply stepped_same|].
    destruct reader; [|by apply stepped_same]. destruct (match m with Some _ => _ | None => _ end);
      [by apply stepped_same|apply stepped_insert].
  - cbn. unfold memory_delete. destruct (match bt_get _ _ with Some _ => _ | None => _ end); [|by apply stepped_same].
    intros Hok [Hn Hr]. split; [by apply bt_sorted_remove|].
    assert (forall k o, bt_get k (bt_remove (uri_str key) (ms_objects s1)) = Some o ->
      bt_get k (ms_objects s1) = Some o) as Hrem.
    { intros k o. rewrite bt_get_remove by done. by destruct (ocmp k (uri_str key)). }
    split; (split; [cbn; lia|]); intros k o Hk%Hrem; [by apply Hr in Hk|by left].
Qed.

(** A call of a client, or a fault that is prepared for the next conditional write *)
Inductive ClientStep := Call (op : StoreOp) | Fault (o : InjectedConditional).
Definition client_step (s : MemoryState) (c : ClientStep) : MemoryState :=
  match c with Call op => store_step s op | Fault o => inject_conditional s o end.
Definition client_run (s : MemoryState) (calls : list ClientStep) : MemoryState := fold_left client_step calls s.

(** Inserting elsewhere *)
Lemma insert_object_other s key b k : memory_ok s -> k <> key -> bt_get k (ms_objects (insert_object s key b)) = bt_get k (ms_objects s).
Proof. intros Hs Hk. cbn [insert_object ms_objects]. rewrite bt_get_insert by done. destruct (ocmp k key) eqn:E; [|done..]. by apply ocmp_eq in E. Qed.
Lemma memory_conditional_other s e b k : memory_ok s -> k <> HEAD_KEY ->
  memory_ok (memory_conditional s e b).2 /\ bt_get k (ms_objects (memory_conditional s e b).2) = bt_get k (ms_objects s).
Proof.
  intros Hs Hk. unfold memory_conditional. set (s1 := MkMemory _ _ _ _). assert (memory_ok s1) as Hs1 by done.
  pose proof (insert_object_ok s1 HEAD_KEY b Hs1) as Hok. pose proof (insert_object_other s1 HEAD_KEY b k Hs1 Hk) as Ho.
  destruct (head _) as [[| |]|]; try destruct (negb _); cbn [snd]; done.
Qed.
(** What a step leaves of an object that is not the head and not deleted *)
Lemma client_step_kept s c k o : memory_ok s -> k <> HEAD_KEY -> bt_get k (ms_objects s) = Some o ->
  (forall key v, c = Call (OpDelete key v) -> uri_str key = k -> v <> version_of (mo_bytes o)) ->
  memory_ok (client_step s c) /\ bt_get k (ms_objects (client_step s c)) = Some o.
Proof.
  intros Hs Hk Ho Hdel. rewrite <- Ho. destruct c as [[key|key reader m|h|v h|key v]|f]; cbn [client_step store_step]; try by apply memory_conditional_other.
  - done.
  - cbn. unfold memory_create, bt_contains. destruct (bt_get (uri_str key) (ms_objects s)) eqn:Ek; [done|]. destruct reader; [|done].
    destruct (match m with Some _ => _ | None => _ end); [done|]. cbn [snd]. split; [by apply insert_object_ok|]. apply insert_object_other; [done|]. congruence.
  - cbn. unfold memory_delete. destruct (bt_get (uri_str key) (ms_objects s)) as [o'|] eqn:Ek; [|done]. case_bool_decide as Hv; [|done]. cbn [snd].
    split; [by apply bt_sorted_remove|]. cbn [ms_objects]. rewrite bt_get_remove by done. destruct (ocmp k (uri_str key)) eqn:E; [|done..].
    apply ocmp_eq in E. exfalso. apply (Hdel key v eq_refl (eq_sym E)). rewrite <- Hv. by rewrite <- E, Ho in Ek; injection Ek as ->.
  - done.
Qed.

Lemma memory_steps_stepped s s' : rtc memory_step s s' -> stepped s s'.
Proof.
  induction 1 as [s|a b c Hab _ IH]; [by apply stepped_same|].
  eapply stepped_trans; [by apply memory_step_stepped|done].
Qed.

Lemma validate_range_ok md rng :
  validate_range_request md rng = Ok tt ->
  0 < rng.2 - rng.1 /\ rng.2 - rng.1 <= MAXIMUM_RANGE_LENGTH /\ rng.2 <= om_length md.
Proof.
  unfold validate_range_request. intros E. apply bind_ok in E as (l & Hl & E).
  apply ok_or_ok in Hl. unfold checked_sub in Hl. apply try_uint_some in Hl as [-> Hl]. unfold is_uint in Hl.
  apply bind_ok in E as (u & Hb & _). apply reject_ok in Hb. bool_to_prop. lia.
Qed.

Lemma append_inj_l a b c : (a +:+ b)%string = (a +:+ c)%string -> b = c.
Proof. induction a as [|x a IH]; cbn; intros E; [exact E|]. injection E as E. by apply IH. Qed.

Lemma memory_metadata_inj o o' :
  0 <= mo_revision o -> 0 <= mo_revision o' -> memory_metadata o = memory_metadata o' ->
  mo_revision o = mo_revision o'.
Proof.
  unfold memory_metadata, from_opaque. intros Ho Ho' E.
  apply (f_equal (fun m => version_token (om_version m))) in E. cbn [om_version version_token] in E.
  apply append_inj_l in E. by apply u64_to_string_inj.
Qed.
End revisions.

(** ** Properties *)

(** C20: the conditional write of the in-memory store is a compare-and-swap on
    the head: applied exactly when the current version is the expected one and no
    fault was injected, and then the head holds the new bytes; a conflict reports
    the current version and changes nothing; an indeterminate answer is either
    one, but never a partial or foreign write. Other objects keep their bytes. *)
Theorem memory_conditional_cas `{HexCrate} `{Sha2Crate} (s : MemoryState) (expected : option ObjectVersion)
    (b : bytes) (Hs : memory_ok s) :
  let '(r, s') := memory_conditional s expected b in
  conditional_spec expected b (memory_get s) (memory_get s') r /\
  (head (ms_conditional_outcomes s) = None ->
   r = if decide (version_of <$> memory_get s HEAD_KEY = expected)
       then Applied (version_of b) else Conflict (version_of <$> memory_get s HEAD_KEY)) /\
  (forall k, k <> HEAD_KEY -> memory_get s' k = memory_get s k).
Proof.
  pose proof (memory_conditional_ok s expected b Hs) as Hc.
  destruct (memory_conditional s expected b) as [r s'] eqn:E. destruct Hc as [_ Hc]. split; [done|].
  split; [|intros k Hk; by eapply conditional_other]. intros Hnone. unfold memory_conditional in E.
  rewrite Hnone in E. cbn [ms_objects] in E.
  assert ((fun o => version_of (mo_bytes o)) <$> bt_get HEAD_KEY (ms_objects s)
    = version_of <$> memory_get s HEAD_KEY) as Hcur by (unfold memory_get; by rewrite <- option_fmap_compose).
  rewrite Hcur in E. case_decide as Hd.
  - rewrite bool_decide_eq_true_2 in E by done. by injection E as <- _.
  - rewrite bool_decide_eq_false_2 in E by done. by injection E as <- _.
Qed.

Definition uri_a : RelativeUri := MkUri "data/a.parquet".

Lemma memory_conditional_cas_witness :
  let s := insert_object memory_default HEAD_KEY [Byte.x01] in
  (@memory_conditional hex_reference sha2_reference s None [Byte.x02]).1
  = Conflict (Some (@version_of hex_reference sha2_reference [Byte.x01])).
Proof.
  intros s. pose proof (@memory_conditional_cas hex_reference sha2_reference s None [Byte.x02]) as Hc.
  destruct (memory_conditional s None [Byte.x02]) as [r s']. destruct Hc as (_ & Hc & _).
  - apply insert_object_ok. constructor.
  - cbn [fst]. rewrite Hc by reflexivity. reflexivity.
Defined.

(** C38: an object of the in-memory store is immutable. Whatever sequence of reads,
    creations, conditional head writes with or without injected faults, and deletions
    it serves, an object other than the head keeps its bytes and its revision, unless
    a deletion names the version of its very bytes: every later read and stat answers
    with them, and every later creation under its name is refused and changes
    nothing; and the deletion that names the version removes the object. *)
Theorem immutable_objects `{HexCrate} `{Sha2Crate} (calls : list ClientStep) (s : MemoryState) (key : RelativeUri) (o : MemoryObject)
    (Hs : memory_ok s) (Hk : uri_str key <> HEAD_KEY) (Ho : bt_get (uri_str key) (ms_objects s) = Some o)
    (Hdel : forall key' v, Call (OpDelete key' v) ∈ calls -> uri_str key' = uri_str key -> v <> version_of (mo_bytes o)) :
  let s' := client_run s calls in
  (memory_read s' key).1 = Ok (MkStored (mo_bytes o) (version_of (mo_bytes o))) /\
  (memory_stat s' key).1 = Ok (memory_metadata o) /\
  (forall reader maximum, memory_create s' key reader maximum = (Err (StorageError.ImmutableConflict (uri_str key)), s')) /\
  (let '(r, s'') := memory_delete s' key (version_of (mo_bytes o)) in r = Ok true /\ memory_get s'' (uri_str key) = None).
Proof.
  intros s'. assert (memory_ok s' /\ bt_get (uri_str key) (ms_objects s') = Some o) as [Hs' Ho'].
  { subst s'. unfold client_run. revert s Hs Ho. induction calls as [|c calls IH]; intros s Hs Ho; cbn [fold_left]; [done|].
    assert (forall key' v, c = Call (OpDelete key' v) -> uri_str key' = uri_str key -> v <> version_of (mo_bytes o)) as Hc by (intros key' v ->; apply Hdel; left).
    destruct (client_step_kept s c (uri_str key) o Hs Hk Ho Hc) as [Hok Hkept].
    apply IH; [|done|done]. intros key' v Hin. apply Hdel. by right. }
  split_and!.
  - unfold memory_read. cbn [fst ms_objects]. by rewrite Ho'.
  - unfold memory_stat. cbn [fst]. by rewrite Ho'.
  - intros reader maximum. unfold memory_create, bt_contains. by rewrite Ho'.
  - unfold memory_delete. rewrite Ho', bool_decide_eq_true_2 by done. split; [done|]. unfold memory_get. cbn [ms_objects].
    rewrite bt_get_remove by done. by rewrite ocmp_refl.
Qed.

Lemma immutable_objects_witness :
  let s := insert_object memory_default "data/a.parquet" [Byte.x01] in
  let s' := @client_run hex_reference sha2_reference s
    [Call (OpCreate uri_a (Ok [Byte.x02]) None); Fault IndeterminateAfter; Call (OpCreateHead [Byte.x03]);
     Call (OpDelete uri_a (from_opaque "another version"))] in
  (@memory_read hex_reference sha2_reference s' uri_a).1 = Ok (MkStored [Byte.x01] (@version_of hex_reference sha2_reference [Byte.x01])).
Proof.
  intros s s'. refine (proj1 (@immutable_objects hex_reference sha2_reference _ s uri_a (MkObject [Byte.x01] 1) _ _ _ _)).
  - apply insert_object_ok. constructor.
  - discriminate.
  - reflexivity.
  - intros key v Hin _ ->. do 3 (apply elem_of_cons in Hin as [Hin|Hin]; [discriminate Hin|]).
    apply list_elem_of_singleton in Hin. injection Hin as _ E. vm_compute in E. discriminate E.
Defined.

(** a bounded read is pinned to one revision. If the metadata of an object
    was observed in state [s], and a range read carrying that metadata succeeds in
    any later state - after arbitrary writes, deletions and re-creations - then the
    returned bytes are the requested range of the object as it was in [s], and the
    response passes the caller's own validation. *)
Theorem memory_range_pinned `{HexCrate} `{Sha2Crate} (s s' : MemoryState) (key : RelativeUri) (o : MemoryObject)
    (rng : Z * Z) (r : StoredRange)
    (Hs : memory_ok s) (Hr : revisions_ok s) (Ho : bt_get (uri_str key) (ms_objects s) = Some o)
    (Hsteps : rtc memory_step s s')
    (E : (memory_read_range s' key rng (memory_metadata o)).1 = Ok r) :
  slice (mo_bytes o) rng.1 rng.2 = Some (sr_bytes r) /\
  1 <= len (sr_bytes r) <= MAXIMUM_RANGE_LENGTH /\
  validate_stored_range r (memory_metadata o) rng = Ok tt.
Proof.
  destruct (memory_steps_stepped _ _ Hsteps Hs Hr) as (_ & [_ Hr'] & [_ Hlater]).
  unfold memory_read_range in E. cbn [fst] in E.
  apply bind_ok in E as ([] & Hv & E). apply bind_ok in E as (o' & Ho' & E). apply ok_or_ok in Ho'.
  apply bind_ok in E as (u & Hact & E). apply reject_ok, negb_false_iff, bool_decide_eq_true in Hact.
  apply bind_ok in E as (start & Hst & E). apply ok_or_ok, try_uint_some in Hst as [-> Hst].
  apply bind_ok in E as (stop & Hsp & E). apply ok_or_ok, try_uint_some in Hsp as [-> Hsp].
  injection E as <-. rewrite Hact. cbn [sr_bytes sr_range sr_metadata].
  assert (o' = o) as ->.
  { destruct (Hlater _ _ Ho') as [|Hnew]; [congruence|]. exfalso.
    destruct (Hr' _ _ Ho') as [? _]. destruct Hr as [_ Hr]. destruct (Hr _ _ Ho) as [? ?].
    assert (mo_revision o' = mo_revision o) by (by apply memory_metadata_inj). lia. }
  destruct (validate_range_ok _ _ Hv) as (Hlen & Hmax & Hend). cbn [om_length memory_metadata] in Hend.
  unfold is_uint in *.
  assert (len (range rng.1 rng.2 (mo_bytes o)) = rng.2 - rng.1) as Hl by (apply range_len; lia).
  split; [apply slice_some; split; [lia|]; split; [lia|done]|]. rewrite Hl. split; [lia|].
  unfold validate_stored_range. rewrite Hv. cbn [mbind result_bind sr_bytes sr_range sr_metadata].
  rewrite Hl, !bool_decide_eq_true_2, Z.eqb_refl by done. done.
Qed.

Lemma memory_range_pinned_witness :
  let s := insert_object memory_default "data/a.parquet" [Byte.x01; Byte.x02; Byte.x03] in
  let s' := insert_object s "other" [Byte.x09] in
  let o := MkObject [Byte.x01; Byte.x02; Byte.x03] 1 in
  exists r, (memory_read_range s' uri_a (1, 3) (memory_metadata o)).1 = Ok r /\
    slice [Byte.x01; Byte.x02; Byte.x03] 1 3 = Some (sr_bytes r).
Proof.
  intros s s' o. eexists. split; [vm_compute; reflexivity|].
  refine (proj1 (@memory_range_pinned hex_reference sha2_reference s s' uri_a o (1, 3) _ _ _ _ _ _)).
  - apply insert_object_ok. constructor.
  - apply (@stepped_insert memory_default "data/a.parquet" [Byte.x01; Byte.x02; Byte.x03]).
    + constructor.
    + split; [cbn; lia|]. intros k x Hx. discriminate Hx.
  - reflexivity.
  - apply rtc_once. exact (@mstep_replace hex_reference sha2_reference s (MkUri "other") [Byte.x09]).
  - vm_compute. reflexivity.
Defined.

(** [confirm_readable] confirms: on success the store holds, under that key,
    an object of the given length and digest, and the returned version is that of
    the bytes; a failed verification is reported as such and nothing is changed. *)
Theorem confirm_readable_correct `{HexCrate} `{Sha2Crate} {S : Type} `{!ObjectStore S} `{!StoreLaws S} (s : S) (key : RelativeUri)
    (sha256 : Sha256) (length : Z) (Hs : os_ok s) :
  let '(r, s') := confirm_readable s key sha256 length in
  os_ok s' /\ same_objects (os_get s) (os_get s') /\
  match r with
  | Ok v => exists b, os_get s (uri_str key) = Some b /\ digest b = sha256 /\ len b = length /\ v = version_of b
  | Err (StorageError.VerificationFailed _) => True
  | Err (StorageError.NotFound _) => os_get s (uri_str key) = None
  | Err _ => True
  end.
Proof.
  unfold confirm_readable. pose proof (law_read s key Hs) as Hr. destruct (os_read s key) as [[o|e] s'].
  - destruct Hr as (Hok & Hsame & Hget & Hv). destruct (_ || _) eqn:E; [done|].
    apply orb_false_iff in E as [El%negb_false_iff%Z.eqb_eq Ed%negb_false_iff%bool_decide_eq_true].
    split; [done|]. split; [done|]. by exists (so_bytes o).
  - destruct Hr as (Hok & Hsame & He). split; [done|]. split; [done|]. by destruct e.
Qed.

Lemma confirm_readable_correct_witness :
  let s := insert_object memory_default "data/a.parquet" [Byte.x01] in
  exists b, memory_get s "data/a.parquet" = Some b /\
    @Sha256Impl.digest sha2_reference b = @Sha256Impl.digest sha2_reference [Byte.x01] /\ len b = 1.
Proof.
  intros s.
  pose proof (@confirm_readable_correct hex_reference sha2_reference MemoryState
    (@memory_store hex_reference sha2_reference) (@memory_laws hex_reference sha2_reference)
    s uri_a (@Sha256Impl.digest sha2_reference [Byte.x01]) 1
    (insert_object_ok memory_default "data/a.parquet" [Byte.x01] (SSorted_nil _))) as Hc.
  assert ((@confirm_readable sha2_reference MemoryState (@memory_store hex_reference sha2_reference) s uri_a
    (@Sha256Impl.digest sha2_reference [Byte.x01]) 1).1
    = Ok (@version_of hex_reference sha2_reference [Byte.x01])) as E by (vm_compute; reflexivity).
  destruct (confirm_readable s uri_a (@Sha256Impl.digest sha2_reference [Byte.x01]) 1) as [r s'].
  cbn [fst] in E. rewrite E in Hc. destruct Hc as (_ & _ & b & Hb & Hd & Hl & _). exists b.
  split; [exact Hb|]. split; [exact Hd|exact Hl].
Defined.
