(* ===== verification/CanonicalJson.v ===== *)
(** Canonical JSON (otmp-protocol/src/canonical_json.rs): the visitor that builds
    a value from a JSON document, the scan of its number tokens, the canonical
    encoder, and why the encoding identifies the value. *)
From S2P Require Import Prelude Bytes Errors Values.

(** ** The [serde_json] crate *)

(** What [serde_json] presents to a visitor: a document in its own order, cut off
    where reading it fails. [stop] is the failure after the last item. *)
Inductive jdoc :=
| JUnit | JNone | JBool (b : bool) | JI64 (z : Z) | JU64 (z : Z) | JI128 (z : Z) | JU128 (z : Z) | JF64
| JStr (s : string)
| JSeq (items : list jdoc) (stop : option string)
| JMap (entries : list (string * jdoc)) (stop : option string)
| JFail (message : string).

Class SerdeJson := {
  json_document : bytes -> jdoc;
  (** [Deserializer::end]: the failure on trailing characters *)
  json_end : bytes -> option string;
  (** the position appended to the message of an error in a document *)
  json_position : bytes -> string -> string;
  (** the message when a string is expected *)
  json_not_a_string : jdoc -> string;
  (** [serde_json::to_string] of a string *)
  json_string : string -> result string string }.

(** [T: Deserialize] and [T: Serialize] through [serde_json]. *)
Class FromJson (T : Type) := { serde_from_slice : bytes -> result string T }.
Class ToJson (T : Type) := { serde_to_vec : T -> result string bytes }.

Section canonical_json.
Context `{SerdeJson}.

(** ** The visitor *)

Definition duplicate_key : string := "OTMP_DUPLICATE_KEY:".

Fixpoint visit (d : jdoc) : result string cvalue :=
  match d with
  | JUnit | JNone => Ok CanonicalValue.Null
  | JBool b => Ok (CanonicalValue.Bool b)
  | JI64 z | JU64 z | JI128 z => Ok (CanonicalValue.Integer z)
  | JU128 z =>
    match try_sint 128 z with
    | Some z => Ok (CanonicalValue.Integer z)
    | None => Err "OTMP_INTEGER_OUT_OF_RANGE"
    end
  | JF64 => Err "OTMP_FLOATING_POINT_JSON"
  | JStr s => Ok (CanonicalValue.String s)
  | JSeq items stop =>
    vs ← (fix go items := match items with
                          | [] => match stop with Some m => Err m | None => Ok [] end
                          | d :: items => v ← visit d; vs ← go items; Ok (v :: vs)
                          end) items;
    Ok (CanonicalValue.Array vs)
  | JMap entries stop =>
    fields ← (fix go entries values :=
        match entries with
        | [] => match stop with Some m => Err m | None => Ok values end
        | (key, d) :: entries =>
          if bt_contains key values then Err (duplicate_key +:+ key)
          else v ← visit d; go entries (bt_insert key v values)
        end) entries [];
    Ok (CanonicalValue.Object fields)
  | JFail m => Err m
  end.

(** ** Number tokens *)

Definition is_digit (b : byte) : bool := byte_in 0x30 0x39 b.
Definition minus : byte := Byte.x2d.
Definition quote : byte := Byte.x22.
Definition backslash : byte := Byte.x5c.

(** [b'0'..=b'9' | b'.' | b'e' | b'E' | b'+' | b'-'] *)
Definition number_char (b : byte) : bool :=
  is_digit b || byte_eqb b Byte.x2e || byte_eqb b Byte.x65 || byte_eqb b Byte.x45
  || byte_eqb b Byte.x2b || byte_eqb b minus.

Fixpoint span (p : byte -> bool) (l : bytes) : bytes * bytes :=
  match l with
  | b :: l' => if p b then let '(t, r) := span p l' in (b :: t, r) else ([], l)
  | [] => ([], [])
  end.

Definition check_token (token : bytes) : presult unit :=
  _ ← reject (existsb (fun b => byte_eqb b Byte.x2e || byte_eqb b Byte.x65 || byte_eqb b Byte.x45) token)
        ProtocolError.FloatingPointJson;
  let text := of_bytes token in
  let in_range := match token with
                  | b :: _ => if byte_eqb b minus then bool_decide (is_Some (i64_from_str text))
                              else bool_decide (is_Some (u64_from_str text))
                  | [] => bool_decide (is_Some (u64_from_str text))
                  end in
  reject (negb in_range) ProtocolError.IntegerOutOfRange.

(** The scanning loop from a position on. Every round consumes a byte, so the
    length is enough fuel. A token is ASCII, so [from_utf8] accepts it. *)
Fixpoint scan (fuel : nat) (in_string escaped : bool) (l : bytes) : presult unit :=
  match l, fuel with
  | [], _ => Ok tt
  | _, O => Err (ProtocolError.InvalidJson "out of fuel")
  | b :: l, S fuel =>
    if in_string then
      if escaped then scan fuel true false l
      else if byte_eqb b backslash then scan fuel true true l
      else if byte_eqb b quote then scan fuel false false l
      else scan fuel true false l
    else if byte_eqb b quote then scan fuel true false l
    else if byte_eqb b minus || is_digit b then
      let '(token, rest) := span number_char l in
      _ ← check_token (b :: token);
      scan fuel false false rest
    else scan fuel false false l
  end.

Definition validate_number_tokens (input : bytes) : presult unit := scan (length input) false false input.

(** ** Errors *)

Fixpoint prefix_of (p l : bytes) : option bytes :=
  match p, l with
  | [], _ => Some l
  | a :: p, b :: l => if byte_eqb a b then prefix_of p l else None
  | _, [] => None
  end.

(** [haystack.find(needle)], as what comes before it and what follows it. *)
Fixpoint find_sub (needle l : bytes) : option (bytes * bytes) :=
  match prefix_of needle l with
  | Some rest => Some ([], rest)
  | None =>
    match l with
    | [] => None
    | b :: l => '(before, rest) ← find_sub needle l; Some (b :: before, rest)
    end
  end.

Definition contains (message needle : string) : bool :=
  match find_sub (as_bytes needle) (as_bytes message) with Some _ => true | None => false end.

Definition map_json_error (message : string) : perror :=
  match find_sub (as_bytes duplicate_key) (as_bytes message) with
  | Some (_, rest) =>
    let key := match find_sub (as_bytes " at line") rest with Some (key, _) => key | None => rest end in
    ProtocolError.DuplicateJsonKey (of_bytes key)
  | None =>
    if contains message "OTMP_FLOATING_POINT_JSON" then ProtocolError.FloatingPointJson
    else if contains message "OTMP_INTEGER_OUT_OF_RANGE" || contains message "number out of range"
    then ProtocolError.IntegerOutOfRange
    else ProtocolError.InvalidJson message
  end.

Definition json_error (input : bytes) (m : string) : perror := map_json_error (m +:+ json_position input m).

(** ** Reading *)

Definition parse (input : bytes) : presult cvalue :=
  _ ← validate_number_tokens input;
  value ← map_err (json_error input) (visit (json_document input));
  _ ← match json_end input with Some m => Err (json_error input m) | None => Ok tt end;
  Ok value.

(** ** The canonical encoding *)

Definition encode_string (s : string) : presult bytes :=
  t ← map_err ProtocolError.Encoding (json_string s); Ok (as_bytes t).

Definition comma (first : bool) : bytes := if first then [] else [Byte.x2c].

Fixpoint encode_into (v : cvalue) : presult bytes :=
  match v with
  | CanonicalValue.Null => Ok (as_bytes "null")
  | CanonicalValue.Bool true => Ok (as_bytes "true")
  | CanonicalValue.Bool false => Ok (as_bytes "false")
  | CanonicalValue.Integer z => Ok (as_bytes (i64_to_string z))
  | CanonicalValue.String s => encode_string s
  | CanonicalValue.Array vs =>
    items ← (fix go first vs := match vs with
                                | [] => Ok []
                                | v :: vs => b ← encode_into v; r ← go false vs; Ok (comma first ++ b ++ r)
                                end) true vs;
    Ok ([Byte.x5b] ++ items ++ [Byte.x5d])
  | CanonicalValue.Object fields =>
    items ← (fix go first fields :=
        match fields with
        | [] => Ok []
        | (key, v) :: fields =>
          k ← encode_string key; b ← encode_into v; r ← go false fields;
          Ok (comma first ++ k ++ [Byte.x3a] ++ b ++ r)
        end) true fields;
    Ok ([Byte.x7b] ++ items ++ [Byte.x7d])
  end.

Definition encode (v : cvalue) : presult bytes := encode_into v.

Definition parse_canonical (input : bytes) : presult cvalue :=
  value ← parse input;
  b ← encode value;
  _ ← reject (negb (bool_decide (b = input))) ProtocolError.NonCanonicalJson;
  Ok value.

Definition from_slice {T} `{from : FromJson T} (input : bytes) : presult T :=
  _ ← parse input;
  map_err (json_error input) (serde_from_slice input).

Definition from_slice_canonical {T} `{from : FromJson T} (input : bytes) : presult T :=
  _ ← parse_canonical input;
  map_err (json_error input) (serde_from_slice input).

Definition to_value {T} `{ToJson T} (value : T) : presult cvalue :=
  b ← map_err ProtocolError.Encoding (serde_to_vec value);
  parse b.

Definition to_vec {T} `{ToJson T} (value : T) : presult bytes :=
  v ← to_value value; encode v.
End canonical_json.

(** ** JSON strings *)

(** What follows the closing quote of a string, [escaped] after a backslash. *)
Fixpoint string_end (escaped : bool) (l : bytes) : option bytes :=
  match l with
  | [] => None
  | b :: l =>
    if escaped then string_end false l
    else if byte_eqb b backslash then string_end true l
    else if byte_eqb b quote then Some l
    else string_end false l
  end.

(** The JSON grammar of strings: a quoted string ends at its closing quote, and
    different strings are quoted differently. *)
Class SerdeJsonLaws `{SerdeJson} := {
  json_string_quoted s t : json_string s = Ok t ->
    exists body, as_bytes t = quote :: body /\ forall rest, string_end false (body ++ rest) = Some rest;
  json_string_inj s1 s2 t : json_string s1 = Ok t -> json_string s2 = Ok t -> s1 = s2 }.

Section strings.
Context `{SerdeJsonLaws}.

Lemma encode_string_head s b : encode_string s = Ok b -> exists body, b = quote :: body.
Proof.
  unfold encode_string. intros E. apply bind_ok in E as (t & E & [= <-]). apply map_err_ok in E.
  destruct (json_string_quoted _ _ E) as (body & -> & _). by eexists.
Qed.

(** A quoted string is the same however it is continued. *)
Lemma encode_string_prefix s1 s2 b1 b2 x y :
  encode_string s1 = Ok b1 -> encode_string s2 = Ok b2 -> b1 ++ x = b2 ++ y -> s1 = s2 /\ x = y.
Proof.
  unfold encode_string. intros E1 E2 E. apply bind_ok in E1 as (t1 & E1 & [= <-]).
  apply bind_ok in E2 as (t2 & E2 & [= <-]). apply map_err_ok in E1, E2.
  destruct (json_string_quoted _ _ E1) as (c1 & Ec1 & H1), (json_string_quoted _ _ E2) as (c2 & Ec2 & H2).
  rewrite Ec1, Ec2 in E. cbn [app] in E. injection E as E.
  assert (x = y) as ->.
  { pose proof (H1 x) as Hx. rewrite E, H2 in Hx. congruence. }
  split; [|done]. apply app_inv_tail in E as ->. rewrite <- Ec2 in Ec1. apply as_bytes_inj in Ec1 as ->.
  by eapply json_string_inj.
Qed.
End strings.

(** ** The encoding identifies the value *)

Section injective.
Context `{SerdeJsonLaws}.

Fixpoint enc_items (first : bool) (vs : list cvalue) : presult bytes :=
  match vs with
  | [] => Ok []
  | v :: vs => b ← encode_into v; r ← enc_items false vs; Ok (comma first ++ b ++ r)
  end.

Fixpoint enc_fields (first : bool) (fields : list (string * cvalue)) : presult bytes :=
  match fields with
  | [] => Ok []
  | (key, v) :: fields =>
    k ← encode_string key; b ← encode_into v; r ← enc_fields false fields;
    Ok (comma first ++ k ++ [Byte.x3a] ++ b ++ r)
  end.

Lemma encode_array vs : encode_into (CanonicalValue.Array vs) =
  (items ← enc_items true vs; Ok ([Byte.x5b] ++ items ++ [Byte.x5d])).
Proof. reflexivity. Qed.

Lemma encode_object fs : encode_into (CanonicalValue.Object fs) =
  (items ← enc_fields true fs; Ok ([Byte.x7b] ++ items ++ [Byte.x7d])).
Proof. reflexivity. Qed.

Definition numeric (b : byte) : bool := is_digit b || byte_eqb b minus.

Lemma digits_numeric z : forallb numeric (as_bytes (i64_to_string z)) = true.
Proof.
  assert (forall n, forallb numeric (as_bytes (u64_to_string n)) = true) as Hu.
  { intros n. pose proof (u64_to_string_digits n) as Hd. rewrite forallb_forall in *.
    intros b Hb. apply Hd in Hb. unfold numeric, is_digit. by rewrite Hb. }
  unfold i64_to_string. destruct (z <? 0); [|apply Hu].
  change (String "-" (u64_to_string (- z))) with ("-" +:+ u64_to_string (- z)). rewrite as_bytes_app, forallb_app.
  by rewrite Hu.
Qed.

Lemma integer_nonempty z : exists h t, as_bytes (i64_to_string z) = h :: t /\ numeric h = true.
Proof.
  pose proof (digits_numeric z) as Hn. destruct (as_bytes (i64_to_string z)) as [|h t] eqn:E.
  - exfalso. apply (f_equal of_bytes) in E. rewrite of_as_bytes in E. revert E. unfold i64_to_string.
    destruct (z <? 0); [done|]. destruct (u64_to_string_head z) as (c & s & -> & _). done.
  - exists h, t. split; [done|]. cbn in Hn. by apply andb_true_iff in Hn as [? _].
Qed.

Lemma i64_to_string_inj a b : i64_to_string a = i64_to_string b -> a = b.
Proof.
  unfold i64_to_string. destruct (Z.ltb_spec a 0), (Z.ltb_spec b 0); intros E.
  - injection E as E. apply u64_to_string_inj in E; lia.
  - destruct (u64_to_string_head b) as (c & s & Eb & _ & Hc & _). rewrite Eb in E. injection E as E _. by destruct Hc.
  - destruct (u64_to_string_head a) as (c & s & Ea & _ & Hc & _). rewrite Ea in E. injection E as E _. by destruct Hc.
  - by apply u64_to_string_inj in E.
Qed.

(** The byte a value starts with. *)
Definition starts (v : cvalue) (h : byte) : Prop :=
  match v with
  | CanonicalValue.Null => h = Byte.x6e
  | CanonicalValue.Bool true => h = Byte.x74
  | CanonicalValue.Bool false => h = Byte.x66
  | CanonicalValue.Integer _ => numeric h = true
  | CanonicalValue.String _ => h = quote
  | CanonicalValue.Array _ => h = Byte.x5b
  | CanonicalValue.Object _ => h = Byte.x7b
  end.

Lemma encode_starts v b : encode_into v = Ok b -> exists h t, b = h :: t /\ starts v h.
Proof.
  destruct v as [|[]|z|s|vs|fs]; rewrite ?encode_array, ?encode_object; intros E;
    try (injection E as <-; by eexists _, _).
  - injection E as <-. apply integer_nonempty.
  - apply encode_string_head in E as [body ->]. by eexists _, _.
  - apply bind_ok in E as (items & _ & [= <-]). by eexists _, _.
  - apply bind_ok in E as (items & _ & [= <-]). by eexists _, _.
Qed.

(** What may follow a value: nothing, or a byte no number continues with. *)
Definition ended (x : bytes) : Prop := match x with [] => True | b :: _ => numeric b = false end.

Lemma numeric_prefix d1 d2 x y :
  forallb numeric d1 = true -> forallb numeric d2 = true -> ended x -> ended y ->
  d1 ++ x = d2 ++ y -> d1 = d2 /\ x = y.
Proof.
  revert d2. induction d1 as [|b d1 IH]; intros [|c d2] H1 H2 Hx Hy; cbn [app forallb] in *; intros E.
  - done.
  - subst x. cbn in Hx. apply andb_true_iff in H2 as [H2 _]. congruence.
  - subst y. cbn in Hy. apply andb_true_iff in H1 as [H1 _]. congruence.
  - injection E as -> E. apply andb_true_iff in H1 as [_ H1], H2 as [_ H2].
    by destruct (IH d2 H1 H2 Hx Hy E) as [-> ->].
Qed.

Definition identifies (v : cvalue) : Prop := forall w b1 b2 x y,
  encode_into v = Ok b1 -> encode_into w = Ok b2 -> ended x -> ended y -> b1 ++ x = b2 ++ y -> v = w /\ x = y.

Lemma items_identify vs : Forall identifies vs -> forall ws first b1 b2 x y,
  enc_items first vs = Ok b1 -> enc_items first ws = Ok b2 ->
  b1 ++ Byte.x5d :: x = b2 ++ Byte.x5d :: y -> vs = ws /\ x = y.
Proof.
  induction 1 as [|v vs Hv _ IH]; intros [|w ws] first b1 b2 x y E1 E2 E; cbn [enc_items] in E1, E2.
  - injection E1 as <-. injection E2 as <-. cbn in E. injection E as ->. done.
  - injection E1 as <-. apply bind_ok in E2 as (b & Eb & E2). apply bind_ok in E2 as (r & _ & [= <-]).
    apply encode_starts in Eb as (h & t & -> & Hh). exfalso. destruct first; cbn in E; [|done].
    injection E as <- _. by destruct w as [|[]|?|?|?|?].
  - injection E2 as <-. apply bind_ok in E1 as (b & Eb & E1). apply bind_ok in E1 as (r & _ & [= <-]).
    apply encode_starts in Eb as (h & t & -> & Hh). exfalso. destruct first; cbn in E; [|done].
    injection E as -> _. by destruct v as [|[]|?|?|?|?].
  - apply bind_ok in E1 as (c1 & Ec1 & E1). apply bind_ok in E1 as (r1 & Er1 & [= <-]).
    apply bind_ok in E2 as (c2 & Ec2 & E2). apply bind_ok in E2 as (r2 & Er2 & [= <-]).
    rewrite <- !app_assoc in E. apply app_inv_head in E.
    assert (forall us r z, enc_items false us = Ok r -> ended (r ++ Byte.x5d :: z)) as Hend.
    { intros [|u us] r z Er; cbn [enc_items] in Er; [by injection Er as <-|].
      apply bind_ok in Er as (? & _ & Er). by apply bind_ok in Er as (? & _ & [= <-]). }
    destruct (Hv w c1 c2 _ _ Ec1 Ec2 (Hend _ _ _ Er1) (Hend _ _ _ Er2) E) as [-> E'].
    by destruct (IH ws false r1 r2 x y Er1 Er2 E') as [-> ->].
Qed.

Lemma fields_identify fs : Forall (fun kv => identifies kv.2) fs -> forall gs first b1 b2 x y,
  enc_fields first fs = Ok b1 -> enc_fields first gs = Ok b2 ->
  b1 ++ Byte.x7d :: x = b2 ++ Byte.x7d :: y -> fs = gs /\ x = y.
Proof.
  induction 1 as [|[k v] fs Hv _ IH]; intros [|[l w] gs] first b1 b2 x y E1 E2 E; cbn [enc_fields fst snd] in *.
  - injection E1 as <-. injection E2 as <-. cbn in E. injection E as ->. done.
  - injection E1 as <-. apply bind_ok in E2 as (q & Eq & E2). apply bind_ok in E2 as (b & _ & E2).
    apply bind_ok in E2 as (r & _ & [= <-]). apply encode_string_head in Eq as [body ->]. by destruct first.
  - injection E2 as <-. apply bind_ok in E1 as (q & Eq & E1). apply bind_ok in E1 as (b & _ & E1).
    apply bind_ok in E1 as (r & _ & [= <-]). apply encode_string_head in Eq as [body ->]. by destruct first.
  - apply bind_ok in E1 as (q1 & Eq1 & E1). apply bind_ok in E1 as (c1 & Ec1 & E1).
    apply bind_ok in E1 as (r1 & Er1 & [= <-]).
    apply bind_ok in E2 as (q2 & Eq2 & E2). apply bind_ok in E2 as (c2 & Ec2 & E2).
    apply bind_ok in E2 as (r2 & Er2 & [= <-]).
    rewrite <- !app_assoc in E. apply app_inv_head in E.
    destruct (encode_string_prefix _ _ _ _ _ _ Eq1 Eq2 E) as [-> E']. cbn [app] in E'. injection E' as E'.
    rewrite <- !app_assoc in E'.
    assert (forall us r z, enc_fields false us = Ok r -> ended (r ++ Byte.x7d :: z)) as Hend.
    { intros [|[? u] us] r z Er; cbn [enc_fields] in Er; [by injection Er as <-|].
      apply bind_ok in Er as (? & _ & Er). apply bind_ok in Er as (? & _ & Er).
      by apply bind_ok in Er as (? & _ & [= <-]). }
    destruct (Hv w c1 c2 _ _ Ec1 Ec2 (Hend _ _ _ Er1) (Hend _ _ _ Er2) E') as [-> E''].
    by destruct (IH gs false r1 r2 x y Er1 Er2 E'') as [-> ->].
Qed.

Lemma encode_identifies v : identifies v.
Proof.
  induction v as [|b|z|s|vs IH|fs IH] using CanonicalValue.t_ind'; intros w b1 b2 x y E1 E2 Hx Hy E;
    destruct (encode_starts _ _ E1) as (h1 & t1 & Eb1 & Hh1), (encode_starts _ _ E2) as (h2 & t2 & Eb2 & Hh2);
    assert (h1 = h2) as Hh by (rewrite Eb1, Eb2 in E; cbn in E; by injection E).
  all: destruct w as [|b'|z'|s'|ws|gs]; cbn [starts] in Hh1, Hh2; rewrite ?encode_array, ?encode_object in *;
    try (exfalso; clear -Hh Hh1 Hh2; repeat case_match; subst; discriminate || congruence).
  - split; [done|]. injection E1 as <-. injection E2 as <-. by apply app_inv_head in E.
  - destruct b, b'; try (exfalso; clear -Hh Hh1 Hh2; congruence); split; try done;
      injection E1 as <-; injection E2 as <-; by apply app_inv_head in E.
  - injection E1 as <-. injection E2 as <-.
    destruct (numeric_prefix _ _ _ _ (digits_numeric z) (digits_numeric z') Hx Hy E) as [Ez ->].
    apply as_bytes_inj, i64_to_string_inj in Ez as ->. done.
  - by destruct (encode_string_prefix _ _ _ _ _ _ E1 E2 E) as [-> ->].
  - apply bind_ok in E1 as (i1 & Ei1 & [= <-]). apply bind_ok in E2 as (i2 & Ei2 & [= <-]).
    cbn [app] in E. rewrite <- !app_assoc in E. cbn [app] in E. injection E as E.
    by destruct (items_identify vs IH ws true i1 i2 x y Ei1 Ei2 E) as [-> ->].
  - apply bind_ok in E1 as (i1 & Ei1 & [= <-]). apply bind_ok in E2 as (i2 & Ei2 & [= <-]).
    cbn [app] in E. rewrite <- !app_assoc in E. cbn [app] in E. injection E as E.
    by destruct (fields_identify fs IH gs true i1 i2 x y Ei1 Ei2 E) as [-> ->].
Qed.
End injective.

(** ** Number tokens of an encoding *)

Section tokens.
Context `{SerdeJsonLaws}.

(** The integers the token scan lets through: those of an [i64] or a [u64]. *)
Definition int_ok (z : Z) : bool := (- 2 ^ 63 <=? z) && (z <? 2 ^ 64).

Fixpoint ints_ok (v : cvalue) : bool :=
  match v with
  | CanonicalValue.Integer z => int_ok z
  | CanonicalValue.Array vs => forallb ints_ok vs
  | CanonicalValue.Object fs => forallb (fun kv => ints_ok kv.2) fs
  | _ => true
  end.

Definition number_end (x : bytes) : Prop := match x with [] => True | b :: _ => number_char b = false end.

Lemma span_length p l : (length (span p l).2 <= length l)%nat.
Proof.
  induction l as [|b l IH]; cbn; [done|]. destruct (p b); [|done]. destruct (span p l) as [t r]. cbn in *. lia.
Qed.

Lemma scan_fuel n : forall m s e l, (length l <= n)%nat -> (length l <= m)%nat -> scan n s e l = scan m s e l.
Proof.
  induction n as [|n IH]; intros [|m] s e [|b l] Hn Hm; cbn [scan length] in *; try done; try lia.
  pose proof (span_length number_char l).
  repeat case_match; try apply IH; try lia; try done.
  destruct (check_token _); [|done]. cbn in *. apply IH; lia.
Qed.

(** The rest of the input, with exactly the fuel it needs. *)
Definition scan_rest (l : bytes) : presult unit := scan (length l) false false l.

Lemma scan_cons n b l :
  byte_eqb b quote = false -> byte_eqb b minus || is_digit b = false -> (length l < n)%nat ->
  scan n false false (b :: l) = scan_rest l.
Proof.
  intros Hq Hm Hn. destruct n as [|n]; [lia|]. cbn [scan]. rewrite Hq, Hm. apply scan_fuel; lia.
Qed.

Lemma scan_string n : forall e l r,
  string_end e l = Some r -> (length l <= n)%nat -> scan n true e l = scan_rest r.
Proof.
  induction n as [|n IH]; intros e [|b l] r E Hn; cbn [string_end length scan] in *; try done; try lia.
  destruct e; [apply IH; [done|lia]|]. destruct (byte_eqb b backslash); [apply IH; [done|lia]|].
  destruct (byte_eqb b quote); [injection E as ->; apply scan_fuel; lia|]. apply IH; [done|lia].
Qed.

Lemma encode_string_scan s b rest n :
  encode_string s = Ok b -> (length (b ++ rest) <= n)%nat -> scan n false false (b ++ rest) = scan_rest rest.
Proof.
  unfold encode_string. intros E Hn. apply bind_ok in E as (t & E & [= <-]). apply map_err_ok in E.
  destruct (json_string_quoted _ _ E) as (body & Eb & Hend). rewrite Eb in *. cbn [app length] in *.
  destruct n as [|n]; [lia|]. cbn [scan]. change (byte_eqb quote quote) with true. cbv iota.
  apply scan_string; [apply Hend|lia].
Qed.

Lemma span_numeric t rest :
  forallb numeric t = true -> number_end rest -> span number_char (t ++ rest) = (t, rest).
Proof.
  induction t as [|b t IH]; cbn [app forallb span]; intros Ht Hr.
  - destruct rest as [|c rest]; cbn in *; [done|]. by rewrite Hr.
  - apply andb_true_iff in Ht as [Hb Ht]. assert (number_char b = true) as ->.
    { unfold numeric, number_char in *. apply orb_true_iff in Hb as [->| ->]; [done|]. by rewrite !orb_true_r. }
    by rewrite IH.
Qed.

Lemma i64_range z : is_i64 z <-> - 2 ^ 63 <= z < 2 ^ 63.
Proof. unfold is_sint. by replace (64 - 1) with 63 by lia. Qed.

Lemma from_str_integer z :
  (if z <? 0 then bool_decide (is_Some (i64_from_str (i64_to_string z)))
   else bool_decide (is_Some (u64_from_str (i64_to_string z)))) = int_ok z.
Proof.
  unfold int_ok, i64_to_string. destruct (Z.ltb_spec z 0) as [Hz|Hz].
  - assert (i64_from_str (String "-" (u64_to_string (- z))) = try_sint 64 (- - z)) as ->.
    { unfold i64_from_str. rewrite digits_value_to_string by lia. done. }
    replace (- - z) with z by lia. unfold try_sint. case_decide as Hd; rewrite i64_range in Hd.
    + rewrite bool_decide_eq_true_2 by by eexists. lia.
    + rewrite bool_decide_eq_false_2 by by intros [? ?]. lia.
  - assert (u64_from_str (u64_to_string z) = try_uint 64 z) as ->.
    { destruct (u64_to_string_head z) as (c & s & E & Hp & _). unfold u64_from_str. rewrite E.
      destruct c as [[] [] [] [] [] [] [] []]; try (by destruct Hp); rewrite <- E;
        by rewrite digits_value_to_string by lia. }
    unfold try_uint. case_decide as Hd; unfold is_uint in Hd.
    + rewrite bool_decide_eq_true_2 by by eexists. lia.
    + rewrite bool_decide_eq_false_2 by by intros [? ?]. lia.
Qed.

Lemma numeric_plain l : forallb numeric l = true ->
  existsb (fun b => byte_eqb b Byte.x2e || byte_eqb b Byte.x65 || byte_eqb b Byte.x45) l = false.
Proof.
  induction l as [|b l IH]; cbn [forallb existsb]; [done|]. intros [Hb Hl]%andb_true_iff. rewrite IH by done.
  rewrite orb_false_r. by destruct b.
Qed.

Lemma check_integer z :
  check_token (as_bytes (i64_to_string z)) = if int_ok z then Ok tt else Err ProtocolError.IntegerOutOfRange.
Proof.
  unfold check_token. rewrite numeric_plain by apply digits_numeric. cbn [reject mbind result_bind].
  rewrite of_as_bytes, <- from_str_integer.
  assert (match as_bytes (i64_to_string z) with b :: _ => byte_eqb b minus | [] => false end = (z <? 0)) as Hm.
  { unfold i64_to_string. destruct (z <? 0); [done|]. destruct (u64_to_string_head z) as (c & s & -> & _ & Hc & _).
    rewrite as_bytes_cons. apply not_true_iff_false. intros E%byte_eqb_eq. apply Hc.
    by apply (f_equal Ascii.ascii_of_byte) in E; rewrite Ascii.ascii_of_byte_of_ascii in E. }
  destruct (as_bytes (i64_to_string z)) as [|b l] eqn:E.
  - destruct (integer_nonempty z) as (? & ? & E' & _). congruence.
  - rewrite Hm. destruct (z <? 0); by destruct (bool_decide _).
Qed.

Definition scans (v : cvalue) : Prop := forall b rest n,
  encode_into v = Ok b -> number_end rest -> (length (b ++ rest) <= n)%nat ->
  scan n false false (b ++ rest) = if ints_ok v then scan_rest rest else Err ProtocolError.IntegerOutOfRange.

Lemma items_end us r z : enc_items false us = Ok r -> number_end (r ++ Byte.x5d :: z).
Proof.
  destruct us as [|u us]; cbn [enc_items]; [by intros [= <-]|]. intros E.
  apply bind_ok in E as (? & _ & E). by apply bind_ok in E as (? & _ & [= <-]).
Qed.

Lemma fields_end us r z : enc_fields false us = Ok r -> number_end (r ++ Byte.x7d :: z).
Proof.
  destruct us as [|[k u] us]; cbn [enc_fields]; [by intros [= <-]|]. intros E.
  apply bind_ok in E as (? & _ & E). apply bind_ok in E as (? & _ & E). by apply bind_ok in E as (? & _ & [= <-]).
Qed.

Lemma scan_comma first l n : (length (comma first ++ l) <= n)%nat -> scan n false false (comma first ++ l) = scan_rest l.
Proof.
  destruct first; cbn [comma app length]; intros Hn; [by apply scan_fuel|].
  apply scan_cons; [reflexivity..|lia].
Qed.

Lemma items_scan vs : Forall scans vs -> forall first b rest,
  enc_items first vs = Ok b ->
  scan_rest (b ++ Byte.x5d :: rest) =
  if forallb ints_ok vs then scan_rest rest else Err ProtocolError.IntegerOutOfRange.
Proof.
  induction 1 as [|v vs Hv _ IH]; intros first b rest E; cbn [enc_items] in E.
  - injection E as <-. cbn [app forallb]. unfold scan_rest at 1. apply scan_cons; [reflexivity..|cbn [length]; lia].
  - apply bind_ok in E as (c & Ec & E). apply bind_ok in E as (r & Er & [= <-]). cbn [forallb].
    rewrite <- !app_assoc. unfold scan_rest at 1. rewrite scan_comma by done. unfold scan_rest at 1.
    rewrite (Hv c _ _ Ec); [|by eapply items_end|done]. destruct (ints_ok v); [|done]. by apply (IH false).
Qed.

Lemma fields_scan fs : Forall (fun kv => scans kv.2) fs -> forall first b rest,
  enc_fields first fs = Ok b ->
  scan_rest (b ++ Byte.x7d :: rest) =
  if forallb (fun kv => ints_ok kv.2) fs then scan_rest rest else Err ProtocolError.IntegerOutOfRange.
Proof.
  induction 1 as [|[k v] fs Hv _ IH]; intros first b rest E; cbn [enc_fields fst snd] in *.
  - injection E as <-. cbn [app forallb]. unfold scan_rest at 1. apply scan_cons; [reflexivity..|cbn [length]; lia].
  - apply bind_ok in E as (q & Eq & E). apply bind_ok in E as (c & Ec & E). apply bind_ok in E as (r & Er & [= <-]).
    cbn [forallb snd]. rewrite <- !app_assoc. unfold scan_rest at 1. rewrite scan_comma by done. unfold scan_rest at 1.
    rewrite (encode_string_scan k q) by done. cbn [app]. unfold scan_rest at 1.
    rewrite scan_cons by (done || (cbn; lia)). unfold scan_rest at 1.
    rewrite <- app_assoc.
    rewrite (Hv c _ _ Ec); [|by eapply fields_end|done]. destruct (ints_ok v); [|done]. by apply (IH false).
Qed.

Lemma encode_scans v : scans v.
Proof.
  induction v as [|b|z|s|vs IH|fs IH] using CanonicalValue.t_ind'; intros c rest n E Hr Hn;
    rewrite ?encode_array, ?encode_object in E; cbn [ints_ok].
  - injection E as <-. cbn [app as_bytes list_byte_of_string] in *.
    rewrite (scan_fuel n (4 + length rest)) by (cbn in *; lia). reflexivity.
  - destruct b; injection E as <-.
    + rewrite (scan_fuel n (4 + length rest)) by (cbn in *; lia). reflexivity.
    + rewrite (scan_fuel n (5 + length rest)) by (cbn in *; lia). reflexivity.
  - injection E as <-. pose proof (check_integer z) as Hc. pose proof (digits_numeric z) as Hd.
    destruct (integer_nonempty z) as (h & t & Ez & Hh). rewrite Ez in *. cbn [app length forallb] in *.
    apply andb_true_iff in Hd as [_ Hd]. destruct n as [|n]; [lia|]. cbn [scan].
    assert (byte_eqb h quote = false) as -> by (by destruct h).
    unfold numeric in Hh. rewrite orb_comm in Hh. rewrite Hh, span_numeric, Hc by done. rewrite length_app in Hn.
    destruct (int_ok z); cbn [mbind result_bind]; [|done]. apply scan_fuel; [lia|done].
  - by apply (encode_string_scan s).
  - apply bind_ok in E as (items & Ei & [= <-]). cbn [app] in *. rewrite <- app_assoc in *. cbn [app] in *.
    rewrite scan_cons by (reflexivity || (cbn [length] in *; lia)). by apply (items_scan vs IH true).
  - apply bind_ok in E as (items & Ei & [= <-]). cbn [app] in *. rewrite <- app_assoc in *. cbn [app] in *.
    rewrite scan_cons by (reflexivity || (cbn [length] in *; lia)). by apply (fields_scan fs IH true).
Qed.
End tokens.

(** ** Values as documents *)

Section documents.
Context `{SerdeJsonLaws}.

(** The document a reader sees in an encoded value. *)
Fixpoint doc_of (v : cvalue) : jdoc :=
  match v with
  | CanonicalValue.Null => JUnit
  | CanonicalValue.Bool b => JBool b
  | CanonicalValue.Integer z => if z <? 0 then JI64 z else JU64 z
  | CanonicalValue.String s => JStr s
  | CanonicalValue.Array vs => JSeq (map doc_of vs) None
  | CanonicalValue.Object fs => JMap (map (fun kv => (kv.1, doc_of kv.2)) fs) None
  end.

Fixpoint visit_items (items : list jdoc) (stop : option string) : result string (list cvalue) :=
  match items with
  | [] => match stop with Some m => Err m | None => Ok [] end
  | d :: items => v ← visit d; vs ← visit_items items stop; Ok (v :: vs)
  end.

Fixpoint visit_entries (entries : list (string * jdoc)) (stop : option string)
    (values : list (string * cvalue)) : result string (list (string * cvalue)) :=
  match entries with
  | [] => match stop with Some m => Err m | None => Ok values end
  | (key, d) :: entries =>
    if bt_contains key values then Err (duplicate_key +:+ key)
    else v ← visit d; visit_entries entries stop (bt_insert key v values)
  end.

Lemma visit_seq items stop : visit (JSeq items stop) = (vs ← visit_items items stop; Ok (CanonicalValue.Array vs)).
Proof.
  cbn [visit]. f_equal. induction items as [|d items IH]; [done|]. cbn [visit_items]. by rewrite <- IH.
Qed.

Lemma visit_map entries stop :
  visit (JMap entries stop) = (fs ← visit_entries entries stop []; Ok (CanonicalValue.Object fs)).
Proof.
  cbn [visit]. f_equal. generalize (@nil (string * cvalue)).
  induction entries as [|[key d] entries IH]; intros values; [done|]. cbn beta iota zeta. cbn [visit_entries].
  destruct (bt_contains key values); [done|]. destruct (visit d); [|done]. apply IH.
Qed.

Section jdoc_induction.
Context (P : jdoc -> Prop).
Context (HLeaf : forall d, (forall items stop, d <> JSeq items stop) -> (forall es stop, d <> JMap es stop) -> P d)
  (HSeq : forall items stop, Forall P items -> P (JSeq items stop))
  (HMap : forall es stop, Forall (fun kv => P kv.2) es -> P (JMap es stop)).

Fixpoint jdoc_ind' (d : jdoc) : P d.
Proof.
  refine (match d with
  | JSeq items stop =>
    HSeq items stop ((fix go l : Forall P l :=
      match l with [] => List.Forall_nil _ | v :: l => @List.Forall_cons _ _ v l (jdoc_ind' v) (go l) end) items)
  | JMap es stop =>
    HMap es stop ((fix go l : Forall (fun kv => P kv.2) l :=
      match l with [] => List.Forall_nil _ | v :: l => @List.Forall_cons _ _ v l (jdoc_ind' v.2) (go l) end) es)
  | d => HLeaf d _ _
  end); discriminate.
Defined.
End jdoc_induction.

(** What the visitor builds has no duplicate key anywhere. *)
Lemma visit_wf d v : visit d = Ok v -> CanonicalValue.wf v.
Proof.
  revert v. induction d as [d Hs Hm|items stop IH|es stop IH] using jdoc_ind'; intros v E.
  - destruct d; cbn in E; try discriminate; try (injection E as <-; constructor).
    + case_match; [|done]. injection E as <-. constructor.
    + by destruct (Hs items stop).
    + by destruct (Hm entries stop).
  - rewrite visit_seq in E. apply bind_ok in E as (vs & E & [= <-]). constructor.
    revert vs E. induction IH as [|d items Hd _ IH]; cbn [visit_items]; intros vs E.
    + destruct stop; [done|]. injection E as <-. constructor.
    + apply bind_ok in E as (w & Ew & E). apply bind_ok in E as (ws & Ews & [= <-]). constructor; auto.
  - rewrite visit_map in E. apply bind_ok in E as (fs & E & [= <-]).
    enough (forall m, bt_sorted m -> Forall (fun kv => CanonicalValue.wf kv.2) m ->
      visit_entries es stop m = Ok fs -> bt_sorted fs /\ Forall (fun kv => CanonicalValue.wf kv.2) fs) as Hgo.
    { destruct (Hgo []); [constructor..|done|]. by constructor. }
    clear E. induction IH as [|[key d] es Hd _ IH]; cbn [visit_entries]; intros m Hm1 Hm2 E.
    + destruct stop; [done|]. by injection E as <-.
    + destruct (bt_contains key m); [done|]. apply bind_ok in E as (w & Ew & E).
      apply IH in E; [done|by apply bt_sorted_insert|]. apply Forall_forall. intros [k x] Hin.
      assert (bt_sorted (bt_insert key w m)) as Hs by by apply bt_sorted_insert.
      apply (bt_get_elem _ _ _ Hs) in Hin. rewrite bt_get_insert in Hin by done.
      destruct (ocmp k key).
      * injection Hin as <-. by apply Hd.
      * apply bt_get_some_elem in Hin. by apply (proj1 (Forall_forall _ _) Hm2 (k, x)).
      * apply bt_get_some_elem in Hin. by apply (proj1 (Forall_forall _ _) Hm2 (k, x)).
Qed.

Lemma visit_doc_of v : CanonicalValue.wf v -> visit (doc_of v) = Ok v.
Proof.
  induction v as [|b|z|s|vs IH|fs IH] using CanonicalValue.t_ind'; intros Hwf; try done.
  - cbn. by destruct (z <? 0).
  - cbn [doc_of]. rewrite visit_seq. inversion Hwf as [| | | |? Hvs|]; subst.
    enough (visit_items (map doc_of vs) None = Ok vs) as -> by done.
    clear Hwf. induction IH as [|v vs Hv _ IH]; [done|]. cbn [map visit_items]. inversion Hvs; subst.
    rewrite Hv by done. cbn. by rewrite IH.
  - cbn [doc_of]. rewrite visit_map. inversion Hwf as [| | | | |? Hs Hfs]; subst.
    enough (forall m, bt_sorted (m ++ fs) ->
      visit_entries (map (fun kv => (kv.1, doc_of kv.2)) fs) None m = Ok (m ++ fs)) as Hgo by by rewrite (Hgo []).
    clear Hwf Hs. induction IH as [|[k v] fs Hv _ IH]; intros m Hm; cbn [map visit_entries fst snd].
    + by rewrite app_nil_r.
    + inversion Hfs as [|? ? ? Hrest]; subst. cbn [snd] in *.
      assert (Forall (fun k' => olt k' k) m.*1) as Hlt.
      { apply Forall_forall. intros x Hx. unfold bt_sorted in Hm. rewrite fmap_app in Hm.
        eapply StronglySorted_app_1_elem_of; [exact Hm|done|]. cbn. left. }
      rewrite Hv by done.
      assert (bt_contains k m = false) as ->.
      { unfold bt_contains. destruct (bt_get k m) as [x|] eqn:Eg; [|done]. exfalso.
        apply bt_get_some_elem in Eg. apply (olt_irrefl k).
        apply (proj1 (Forall_forall _ _) Hlt). apply list_elem_of_fmap. by exists (k, x). }
      cbn [mbind result_bind]. rewrite bt_insert_last by done. specialize (IH Hrest (m ++ [(k, v)])).
      rewrite <- app_assoc in IH. by apply IH.
Qed.

Lemma number_tokens_encode v b :
  encode v = Ok b -> validate_number_tokens b = if ints_ok v then Ok tt else Err ProtocolError.IntegerOutOfRange.
Proof.
  intros E. unfold validate_number_tokens. pose proof (encode_scans v b [] (length b) E I) as Hs.
  rewrite app_nil_r in Hs. by rewrite Hs.
Qed.
End documents.

(** ** A reference for strings *)

(** Quoting with a backslash before quotes and backslashes, and a reader of one
    given document: enough of JSON to exhibit the laws. *)
Definition esc (l : bytes) : bytes :=
  concat (map (fun b => if byte_eqb b quote || byte_eqb b backslash then [backslash; b] else [b]) l).

Lemma esc_cons b l :
  esc (b :: l) = (if byte_eqb b quote || byte_eqb b backslash then [backslash; b] else [b]) ++ esc l.
Proof. reflexivity. Qed.

Lemma esc_end l rest : string_end false (esc l ++ quote :: rest) = Some rest.
Proof.
  induction l as [|b l IH]; [done|]. rewrite esc_cons, <- app_assoc.
  destruct (byte_eqb b quote) eqn:Eq; [|destruct (byte_eqb b backslash) eqn:Eb].
  - exact IH.
  - exact IH.
  - cbn [orb app string_end]. rewrite Eb, Eq. exact IH.
Qed.

Lemma esc_inj l : forall m, esc l = esc m -> l = m.
Proof.
  induction l as [|a l IH]; intros [|b m]; rewrite ?esc_cons; intros E.
  - done.
  - exfalso. by destruct (byte_eqb b quote || _).
  - exfalso. by destruct (byte_eqb a quote || _).
  - destruct (byte_eqb a quote || byte_eqb a backslash) eqn:Ea,
      (byte_eqb b quote || byte_eqb b backslash) eqn:Eb; cbn [app] in E.
    + injection E as -> E. f_equal. by apply IH.
    + injection E as <- _. done.
    + injection E as -> _. done.
    + injection E as -> E. f_equal. by apply IH.
Qed.

Definition quoted (s : string) : string := of_bytes (quote :: esc (as_bytes s) ++ [quote]).

Definition json_reference (document : bytes) (value : jdoc) : SerdeJson :=
  {| json_document b := if decide (b = document) then value else JFail "expected value";
     json_end _ := None;
     json_position _ _ := " at line 1 column 1";
     json_not_a_string _ := "invalid type: expected a string";
     json_string s := Ok (quoted s) |}.

Lemma json_reference_laws document value : @SerdeJsonLaws (json_reference document value).
Proof.
  constructor.
  - intros s t [= <-]. exists (esc (as_bytes s) ++ [quote]). unfold quoted. rewrite as_of_bytes. split; [done|].
    intros rest. rewrite <- app_assoc. apply esc_end.
  - intros s1 s2 t E1 E2. assert (quoted s1 = quoted s2) as E by (cbn in *; congruence).
    unfold quoted in E. apply (f_equal as_bytes) in E. rewrite !as_of_bytes in E.
    injection E as E. by apply app_inv_tail, esc_inj, as_bytes_inj in E.
Qed.

Definition example_value : cvalue :=
  CanonicalValue.Object [("a", CanonicalValue.Array [CanonicalValue.Integer (-1); CanonicalValue.Null]);
                         ("b", CanonicalValue.String "x")].
Definition example_text : bytes :=
  as_bytes ("{" +:+ quoted "a" +:+ ":[-1,null]," +:+ quoted "b" +:+ ":" +:+ quoted "x" +:+ "}").
#[local] Instance example_json : SerdeJson := json_reference example_text (doc_of example_value).
#[local] Instance example_json_laws : SerdeJsonLaws := json_reference_laws _ _.

(** ** Properties *)

(** a canonical encoding identifies its value: two values with one encoding
    are equal, so a hash of the bytes is a hash of the value. *)
Theorem canonical_json_injective `{SerdeJsonLaws} (v w : cvalue) (b : bytes)
    (Hv : encode v = Ok b) (Hw : encode w = Ok b) : v = w.
Proof. by destruct (encode_identifies v w b b [] [] Hv Hw I I eq_refl). Qed.

Lemma canonical_json_injective_witness : example_value = example_value.
Proof. apply (canonical_json_injective _ _ example_text); vm_compute; reflexivity. Defined.

(** C23: what [parse_canonical] accepts is the encoding of a value without
    duplicate keys whose integers fit 64 bits, and a second text of that value
    is rejected. *)
Theorem parse_canonical_exact `{SerdeJsonLaws} (input : bytes) (v : cvalue)
    (Hp : parse_canonical input = Ok v) :
  CanonicalValue.wf v /\ ints_ok v = true /\ encode v = Ok input /\
  forall other, parse_canonical other = Ok v -> other = input.
Proof.
  assert (forall i w, parse_canonical i = Ok w ->
    CanonicalValue.wf w /\ validate_number_tokens i = Ok tt /\ encode w = Ok i) as Hall.
  { clear. unfold parse_canonical, parse. intros i w E. apply bind_ok in E as (u & E & Ec).
    apply bind_ok in E as ([] & Ht & E). apply bind_ok in E as (x & Ev & E). apply bind_ok in E as (? & _ & [= <-]).
    apply bind_ok in Ec as (b & Eb & Ec). apply bind_ok in Ec as (? & Er & [= <-]). apply reject_ok in Er.
    bool_to_prop. subst. apply map_err_ok, visit_wf in Ev. done. }
  destruct (Hall _ _ Hp) as (Hwf & Ht & He). split; [done|]. split.
  - rewrite (number_tokens_encode _ _ He) in Ht. by destruct (ints_ok v).
  - split; [done|]. intros other Ho. destruct (Hall _ _ Ho) as (_ & _ & He'). congruence.
Qed.

Lemma parse_canonical_exact_witness :
  CanonicalValue.wf example_value /\ ints_ok example_value = true /\ encode example_value = Ok example_text /\
  forall other, parse_canonical other = Ok example_value -> other = example_text.
Proof. apply (parse_canonical_exact example_text example_value). vm_compute. reflexivity. Defined.

(** C29: canonical JSON reads back: the encoding of a value without duplicate keys
    and with 64-bit integers passes the number scan, the visitor and the canonical
    comparison, given a reader that presents that document; with any other
    integer the encoding is refused for it. *)
Theorem canonical_json_roundtrip `{SerdeJsonLaws} (v : cvalue) (b : bytes)
    (Hwf : CanonicalValue.wf v) (Henc : encode v = Ok b)
    (Hdoc : json_document b = doc_of v) (Hend : json_end b = None) :
  parse_canonical b = if ints_ok v then Ok v else Err ProtocolError.IntegerOutOfRange.
Proof.
  unfold parse_canonical, parse. rewrite (number_tokens_encode _ _ Henc). destruct (ints_ok v); [|done].
  rewrite Hdoc, visit_doc_of, Hend by done. cbn [mbind result_bind map_err]. rewrite Henc. cbn [mbind result_bind].
  by rewrite bool_decide_eq_true_2.
Qed.

Lemma canonical_json_roundtrip_witness :
  parse_canonical example_text = if ints_ok example_value then Ok example_value else Err ProtocolError.IntegerOutOfRange.
Proof.
  apply canonical_json_roundtrip; try (vm_compute; reflexivity).
  repeat constructor.
Defined.
