(* ===== verification/Schema.v ===== *)
(** Logical schemas (otmp-protocol/src/types.rs): nested column types, and the
    validation of their identifiers, names, defaults and nesting depth. *)
From S2P Require Import Prelude Bytes Errors Values Scalars.

(** ** Data *)

(** The enum [LogicalType] and the struct [Field], which mention each other. *)
Inductive LogicalType :=
| TBoolean | TInt32 | TInt64 | TFloat32 | TFloat64
| TDecimal (precision scale : Z)
| TDate | TTimeMicros | TTimestampMicros | TTimestamptzMicros | TString | TBinary
| TFixed (length : Z)
| TUuid
| TStruct (fields : list Field)
| TList (element : Field)
| TMap (key value : Field)
with Field :=
| MkField (field_id : Z) (name : string) (required : bool) (field_type : LogicalType) (doc : option string)
    (initial_default write_default : option scalar).

Definition field_id (f : Field) : Z := let '(MkField id _ _ _ _ _ _) := f in id.
Definition field_name (f : Field) : string := let '(MkField _ name _ _ _ _ _) := f in name.
Definition field_required (f : Field) : bool := let '(MkField _ _ required _ _ _ _) := f in required.
Definition field_type (f : Field) : LogicalType := let '(MkField _ _ _ ty _ _ _) := f in ty.
Definition field_doc (f : Field) : option string := let '(MkField _ _ _ _ doc _ _) := f in doc.
Definition initial_default (f : Field) : option scalar := let '(MkField _ _ _ _ _ d _) := f in d.
Definition write_default (f : Field) : option scalar := let '(MkField _ _ _ _ _ _ d) := f in d.

Record Schema := {
  schema_id : Z;
  parent_schema_id : option Z;
  schema_fields : list Field;
  identifier_field_ids : list Z;
  schema_doc : option string }.

(** ** Operations *)

Definition invalid_schema (message : string) : perror := ProtocolError.InvalidSchema message.

Definition is_identifier_primitive (t : LogicalType) : bool :=
  match t with
  | TBoolean | TInt32 | TInt64 | TDecimal _ _ | TDate | TTimeMicros | TTimestampMicros | TTimestamptzMicros
  | TString | TBinary | TFixed _ | TUuid => true
  | _ => false
  end.

Definition accepts (t : LogicalType) (value : scalar) : bool :=
  match t, value with
  | _, TypedScalar.Null => true
  | TBoolean, TypedScalar.Boolean _ | TInt32, TypedScalar.Int32 _ | TInt64, TypedScalar.Int64 _
  | TFloat32, TypedScalar.Float32 _ | TFloat64, TypedScalar.Float64 _ | TDate, TypedScalar.Date _
  | TTimeMicros, TypedScalar.TimeMicros _ | TTimestampMicros, TypedScalar.TimestampMicros _
  | TTimestamptzMicros, TypedScalar.TimestamptzMicros _ | TString, TypedScalar.String _
  | TBinary, TypedScalar.Binary _ | TUuid, TypedScalar.Uuid _ => true
  | TDecimal precision scale, TypedScalar.Decimal p s _ => (precision =? p) && (scale =? s)
  | TFixed length, TypedScalar.Fixed b => length =? len b
  | _, _ => false
  end.

Definition is_float (t : LogicalType) : bool := match t with TFloat32 | TFloat64 => true | _ => false end.

Definition is_primitive (t : LogicalType) : bool :=
  match t with TStruct _ | TList _ | TMap _ _ => false | _ => true end.

Definition validate_type (t : LogicalType) : presult unit :=
  match t with
  | TDecimal precision scale =>
    reject ((precision =? 0) || (precision <? scale))
      (invalid_schema "decimal requires precision > 0 and scale <= precision")
  | TFixed length => reject (length =? 0) (invalid_schema "fixed length must be positive")
  | _ => Ok tt
  end.

(** One of the two defaults of a field. *)
Definition validate_default (f : Field) (value : scalar) : presult unit :=
  _ ← validate_scalar value;
  reject (negb (accepts (field_type f) value) || (field_required f && bool_decide (value = TypedScalar.Null)))
    (invalid_schema "field default is not type compatible").

(** [[&field.initial_default, &field.write_default].into_iter().flatten()] *)
Definition defaults (f : Field) : list scalar :=
  option_list (initial_default f) ++ option_list (write_default f).

(** [ids] and [paths], which a whole validation shares. *)
Definition Paths : Type := gset Z * gmap Z (Field * bool).

(** The body of the loop over siblings; [nested] validates the fields inside. *)
Definition validate_field (nested : list Field -> bool -> Paths -> presult Paths) (under_optional : bool)
    (st : gset string * Paths) (f : Field) : presult (gset string * Paths) :=
  let '(names, (ids, paths)) := st in
  _ ← reject ((field_id f =? 0) || bool_decide (field_id f ∈ ids))
        (invalid_schema "field IDs must be unique and positive");
  let ids := {[field_id f]} ∪ ids in
  _ ← reject ((str_len (field_name f) =? 0) || bool_decide (field_name f ∈ names))
        (invalid_schema "sibling field names must be unique and nonempty");
  let names := {[field_name f]} ∪ names in
  _ ← validate_type (field_type f);
  _ ← try_fold (fun _ value => validate_default f value) tt (defaults f);
  let paths := <[field_id f := (f, under_optional)]> paths in
  let nested_optional := under_optional || negb (field_required f) in
  st ← match field_type f with
       | TStruct fields => nested fields nested_optional (ids, paths)
       | TList element => nested [element] nested_optional (ids, paths)
       | TMap key value =>
         _ ← reject (negb (field_required key) || negb (is_primitive (field_type key)))
               (invalid_schema "map keys must be required primitives");
         st ← nested [key] nested_optional (ids, paths);
         nested [value] nested_optional st
       | _ => Ok (ids, paths)
       end;
  Ok (names, st).

(** Beyond depth 64 the check rejects, so [65 - depth] levels are enough fuel. *)
Fixpoint validate_siblings (fuel : nat) (depth : Z) (fields : list Field) (under_optional : bool)
    (st : Paths) : presult Paths :=
  _ ← reject (64 <? depth) (invalid_schema "maximum nesting depth is 64");
  match fuel with
  | O => Err (invalid_schema "out of fuel")
  | S fuel =>
    '(_, st) ← try_fold (validate_field (validate_siblings fuel (depth + 1)) under_optional) (∅, st) fields;
    Ok st
  end.

Definition validate_identifier (paths : gmap Z (Field * bool)) (seen : gset Z) (id : Z) : presult (gset Z) :=
  _ ← reject (bool_decide (id ∈ seen)) (invalid_schema "duplicate identifier field ID");
  match paths !! id with
  | None => Err (invalid_schema "identifier field does not exist")
  | Some (f, under_optional) =>
    _ ← reject (negb (field_required f) || under_optional || negb (is_identifier_primitive (field_type f)))
          (invalid_schema "identifier fields must be required non-floating primitives outside optional containers");
    Ok ({[id]} ∪ seen)
  end.

Definition validate_schema (s : Schema) : presult unit :=
  _ ← reject (schema_id s =? 0) (invalid_schema "schema_id must be positive");
  '(_, paths) ← validate_siblings 64 1 (schema_fields s) false (∅, ∅);
  _ ← try_fold (validate_identifier paths) ∅ (identifier_field_ids s);
  Ok tt.

(** ** What a valid schema is *)

(** Every field below, each with whether a container above it is optional. *)
Fixpoint field_nodes (under_optional : bool) (f : Field) : list (Field * bool) :=
  match f with
  | MkField _ _ required ty _ _ _ =>
    let nested := under_optional || negb required in
    (f, under_optional) ::
    match ty with
    | TStruct fields => concat (map (field_nodes nested) fields)
    | TList element => field_nodes nested element
    | TMap key value => field_nodes nested key ++ field_nodes nested value
    | _ => []
    end
  end.
Definition nodes (under_optional : bool) (fields : list Field) : list (Field * bool) :=
  concat (map (field_nodes under_optional) fields).
Definition node_ids (ns : list (Field * bool)) : list Z := map (fun n => field_id n.1) ns.

Definition valid_type (t : LogicalType) : Prop :=
  match t with
  | TDecimal precision scale => precision <> 0 /\ scale <= precision
  | TFixed length => length <> 0
  | _ => True
  end.

(** A default is a scalar of the field's type, and not null for a required field. *)
Definition valid_default (f : Field) (value : scalar) : Prop :=
  validate_scalar value = Ok tt /\ accepts (field_type f) value = true /\
  (field_required f = true -> value <> TypedScalar.Null).

Inductive valid_siblings : Z -> list Field -> Prop :=
| valid_siblings_intro depth fields :
  depth <= 64 -> NoDup (field_name <$> fields) ->
  (forall f, f ∈ fields -> valid_field depth f) -> valid_siblings depth fields
with valid_field : Z -> Field -> Prop :=
| valid_field_intro depth f :
  field_id f <> 0 -> field_name f <> EmptyString -> valid_type (field_type f) ->
  (forall value, value ∈ defaults f -> valid_default f value) ->
  valid_nested (depth + 1) (field_type f) -> valid_field depth f
with valid_nested : Z -> LogicalType -> Prop :=
| valid_struct depth fields : valid_siblings depth fields -> valid_nested depth (TStruct fields)
| valid_list depth element : valid_siblings depth [element] -> valid_nested depth (TList element)
| valid_map depth key value :
  field_required key = true -> is_primitive (field_type key) = true ->
  valid_siblings depth [key] -> valid_siblings depth [value] -> valid_nested depth (TMap key value)
| valid_primitive depth t : is_primitive t = true -> valid_nested depth t.

Definition valid_identifier (s : Schema) (id : Z) : Prop :=
  exists f, (f, false) ∈ nodes false (schema_fields s) /\ field_id f = id /\ field_required f = true /\
            is_identifier_primitive (field_type f) = true.

Record valid_schema (s : Schema) : Prop := {
  vs_id : schema_id s <> 0;
  vs_fields : valid_siblings 1 (schema_fields s);
  vs_unique : NoDup (node_ids (nodes false (schema_fields s)));
  vs_identifiers : NoDup (identifier_field_ids s) /\
                   forall id, id ∈ identifier_field_ids s -> valid_identifier s id }.

(** ** The validation decides it *)

Definition add_node (st : Paths) (n : Field * bool) : Paths :=
  ({[field_id n.1]} ∪ st.1, <[field_id n.1 := n]> st.2).
Definition add_nodes (st : Paths) (ns : list (Field * bool)) : Paths := fold_left add_node ns st.

(** The identifiers of [ns] are distinct and not yet taken. *)
Definition fresh (st : Paths) (ns : list (Field * bool)) : Prop :=
  NoDup (node_ids ns) /\ forall id, id ∈ node_ids ns -> id ∉ st.1.

Lemma add_nodes_app st a b : add_nodes st (a ++ b) = add_nodes (add_nodes st a) b.
Proof. apply fold_left_app. Qed.

Lemma add_nodes_ids st ns id : id ∈ (add_nodes st ns).1 <-> id ∈ st.1 \/ id ∈ node_ids ns.
Proof.
  revert st. induction ns as [|n ns IH]; intros st; cbn [add_nodes fold_left node_ids map].
  - rewrite elem_of_nil. tauto.
  - fold (add_nodes (add_node st n) ns). rewrite IH. unfold add_node. cbn [fst snd]. unfold node_ids. set_solver.
Qed.

Lemma fresh_app st a b : fresh st (a ++ b) <-> fresh st a /\ fresh (add_nodes st a) b.
Proof.
  unfold fresh. setoid_rewrite add_nodes_ids. unfold node_ids. rewrite map_app, NoDup_app.
  setoid_rewrite elem_of_app. naive_solver.
Qed.

Lemma fresh_cons st n ns : fresh st (n :: ns) <-> field_id n.1 ∉ st.1 /\ fresh (add_node st n) ns.
Proof.
  change (n :: ns) with ([n] ++ ns). rewrite fresh_app. unfold fresh at 1. cbn.
  setoid_rewrite list_elem_of_singleton. split; [intros [[_ H] H']|intros [H H']]; split_and!; auto using NoDup_singleton.
  by intros ? ->.
Qed.

Lemma fresh_nil st : fresh st [].
Proof. split; [constructor|]. intros id. by rewrite elem_of_nil. Qed.

Lemma nodes_singleton u f : nodes u [f] = field_nodes u f.
Proof. unfold nodes. cbn. by rewrite app_nil_r. Qed.

Definition nested_nodes (u : bool) (t : LogicalType) : list (Field * bool) :=
  match t with
  | TStruct fields => nodes u fields
  | TList element => nodes u [element]
  | TMap key value => nodes u [key] ++ nodes u [value]
  | _ => []
  end.

Lemma field_nodes_eq u f :
  field_nodes u f = (f, u) :: nested_nodes (u || negb (field_required f)) (field_type f).
Proof.
  destruct f as [id nm req ty doc d1 d2]. cbn [field_nodes field_required field_type]. f_equal.
  destruct ty; try done; cbn [nested_nodes]; by rewrite ?nodes_singleton.
Qed.

Lemma validate_type_ok t : validate_type t = Ok tt <-> valid_type t.
Proof.
  destruct t; cbn [validate_type valid_type]; try (by split); rewrite reject_ok.
  - rewrite orb_false_iff, Z.eqb_neq, Z.ltb_ge. done.
  - apply Z.eqb_neq.
Qed.

Lemma validate_default_ok f value : validate_default f value = Ok tt <-> valid_default f value.
Proof.
  unfold validate_default, valid_default. rewrite bind_unit, reject_ok, orb_false_iff, negb_false_iff, andb_false_iff,
    bool_decide_eq_false. destruct (field_required f); naive_solver.
Qed.

Lemma str_len_zero s : (str_len s =? 0) = false <-> s <> EmptyString.
Proof.
  unfold str_len, len. rewrite as_bytes_length. destruct s; cbn [String.length].
  - naive_solver.
  - split; [done|]. intros _. apply Z.eqb_neq. lia.
Qed.

(** What a validation of siblings at [depth] establishes. *)
Definition validates (depth : Z) (v : list Field -> bool -> Paths -> presult Paths) : Prop :=
  forall fields u st st', v fields u st = Ok st' <->
    valid_siblings depth fields /\ fresh st (nodes u fields) /\ st' = add_nodes st (nodes u fields).

Definition nested_call (nested : list Field -> bool -> Paths -> presult Paths) (t : LogicalType) (u : bool)
    (st : Paths) : presult Paths :=
  match t with
  | TStruct fields => nested fields u st
  | TList element => nested [element] u st
  | TMap key value =>
    _ ← reject (negb (field_required key) || negb (is_primitive (field_type key)))
          (invalid_schema "map keys must be required primitives");
    st ← nested [key] u st; nested [value] u st
  | _ => Ok st
  end.

Lemma nested_call_ok depth v t u st st' : validates depth v ->
  nested_call v t u st = Ok st' <->
  valid_nested depth t /\ fresh st (nested_nodes u t) /\ st' = add_nodes st (nested_nodes u t).
Proof.
  intros Hv. destruct t; cbn [nested_call nested_nodes]; rewrite ?(Hv _ _ _ _).
  all: try (split; [intros [= <-]; split_and!; [by constructor|apply fresh_nil|done]|intros (_ & _ & ->); done]; fail).
  - split; intros (H & H1 & H2); split_and!; try done; [by constructor|by inversion H].
  - split; intros (H & H1 & H2); split_and!; try done; [by constructor|by inversion H].
  - rewrite bind_reject, bind_ok, orb_false_iff, !negb_false_iff. setoid_rewrite (Hv _ _ _ _).
    rewrite fresh_app, add_nodes_app. split.
    + intros ([Hr Hp] & s1 & (H1 & F1 & ->) & H2 & F2 & ->). split_and!; try done. by constructor.
    + intros (H & (F1 & F2) & ->). inversion H; [|done]. subst. split; [done|]. by eexists.
Qed.

Lemma field_ok depth v u names st f names' st' : validates (depth + 1) v ->
  validate_field v u (names, st) f = Ok (names', st') <->
  valid_field depth f /\ field_name f ∉ names /\ fresh st (field_nodes u f) /\
  names' = {[field_name f]} ∪ names /\ st' = add_nodes st (field_nodes u f).
Proof.
  intros Hv. destruct st as [ids paths]. unfold validate_field. rewrite field_nodes_eq, fresh_cons.
  cbn [add_nodes fold_left fst snd].
  fold (nested_call v (field_type f) (u || negb (field_required f))
          (({[field_id f]} ∪ ids, <[field_id f := (f, u)]> paths) : Paths)).
  change ({[field_id f]} ∪ ids, <[field_id f := (f, u)]> paths) with (add_node (ids, paths) (f, u)).
  rewrite !bind_reject, !bind_unit, !orb_false_iff, !bool_decide_eq_false, str_len_zero, Z.eqb_neq, validate_type_ok,
    check_all, bind_ok. setoid_rewrite validate_default_ok. setoid_rewrite (nested_call_ok _ _ _ _ _ _ Hv).
  split.
  - intros ([H1 H2] & [H3 H4] & H5 & H6 & s & (H7 & H8 & ->) & [= <- <-]). split_and!; try done; by constructor.
  - intros (H & H4 & [H2 H8] & -> & ->). inversion H; subst. split_and!; try done. by eexists.
Qed.

Lemma fields_ok depth v u fields : validates (depth + 1) v -> forall names st r,
  try_fold (validate_field v u) (names, st) fields = Ok r <->
  NoDup (field_name <$> fields) /\ (forall f, f ∈ fields -> field_name f ∉ names /\ valid_field depth f) /\
  fresh st (nodes u fields) /\
  r = (fold_left (fun names f => {[field_name f]} ∪ names) fields names, add_nodes st (nodes u fields)).
Proof.
  intros Hv. induction fields as [|f fields IH]; intros names st r; cbn [try_fold fold_left fmap list_fmap].
  - change (nodes u []) with (@nil (Field * bool)). split.
    + intros [= <-]. split_and!; [constructor| |apply fresh_nil|done]. intros f. by rewrite elem_of_nil.
    + by intros (_ & _ & _ & ->).
  - change (nodes u (f :: fields)) with (field_nodes u f ++ nodes u fields).
    rewrite bind_ok, fresh_app, add_nodes_app, NoDup_cons, list_elem_of_fmap. setoid_rewrite elem_of_cons. split.
    + intros ([names' st'] & (H1 & H2 & H3 & -> & ->)%(field_ok _ _ _ _ _ _ _ _ Hv) & H4).
      apply IH in H4 as (H5 & H6 & H7 & ->). split_and!; try done.
      * intros (g & E & Hg). destruct (H6 g Hg) as [Hn _]. set_solver.
      * intros g [->|Hg]; [done|]. destruct (H6 g Hg). split; [|done]. set_solver.
    + intros ([H1 H2] & H3 & [H4 H5] & ->). eexists (_, _). split.
      * apply (field_ok depth _ _ _ _ _ _ _ Hv). destruct (H3 f) as [? ?]; [by left|]. split_and!; done.
      * apply IH. split_and!; try done. intros g Hg. destruct (H3 g) as [Hn Hg']; [by right|]. split; [|done].
        rewrite elem_of_union, elem_of_singleton. intros [E|?]; [|done]. apply H1. by exists g.
Qed.

Lemma siblings_validates fuel : forall depth, 65 <= Z.of_nat fuel + depth -> validates depth (validate_siblings fuel depth).
Proof.
  induction fuel as [|fuel IH]; intros depth Hd fields u st st'; cbn [validate_siblings]; rewrite bind_reject.
  - split; [intros [H _]; lia|]. intros (H & _). inversion H. lia.
  - assert (validates (depth + 1) (validate_siblings fuel (depth + 1))) as Hv by (apply IH; lia).
    rewrite bind_ok. setoid_rewrite (fields_ok depth _ _ _ Hv). split.
    + intros (Hle & [names r] & (H1 & H2 & H3 & [= -> ->]) & [= <-]). split_and!; try done.
      constructor; [lia|done|]. intros f Hf. by apply H2.
    + intros (H & Hf & ->). inversion H; subst. split; [lia|]. eexists (_, _). split; [|reflexivity].
      split_and!; try done. intros f Hin. split; [set_solver|auto].
Qed.

Lemma add_nodes_lookup st ns id n : NoDup (node_ids ns) -> (forall id, id ∈ node_ids ns -> st.2 !! id = None) ->
  (add_nodes st ns).2 !! id = Some n <-> st.2 !! id = Some n \/ n ∈ ns /\ field_id n.1 = id.
Proof.
  revert st. induction ns as [|m ns IH]; intros st Hnd Hst; cbn [add_nodes fold_left].
  - rewrite elem_of_nil. tauto.
  - cbn [node_ids map] in *. apply NoDup_cons in Hnd as [Hm Hnd]. fold (add_nodes (add_node st m) ns).
    rewrite IH; [|done|].
    + unfold add_node. cbn [snd]. rewrite lookup_insert_Some, elem_of_cons. specialize (Hst (field_id m.1)).
      rewrite elem_of_cons in Hst. specialize (Hst (or_introl eq_refl)). split.
      * intros [[[<- ->]|[_ H]]|[H H']]; auto.
      * intros [H|[[->|H] <-]]; [|by left; left|by right]. left. right. split; [|done]. intros E. congruence.
    + intros i Hi. unfold add_node. cbn [snd]. rewrite lookup_insert_ne by (intros <-; done). apply Hst. by right.
Qed.

Lemma validate_identifiers_ok paths seen ids r :
  try_fold (validate_identifier paths) seen ids = Ok r <->
  NoDup ids /\ r = fold_left (fun s i => {[i]} ∪ s) ids seen /\
  forall id, id ∈ ids -> id ∉ seen /\ exists f, paths !! id = Some (f, false) /\ field_required f = true /\
    is_identifier_primitive (field_type f) = true.
Proof.
  revert seen. induction ids as [|id ids IH]; intros seen; cbn [try_fold fold_left].
  - split; [intros [= <-]|by intros (_ & -> & _)]. split_and!; [constructor|done|]. intros id. by rewrite elem_of_nil.
  - rewrite bind_ok. setoid_rewrite IH. rewrite NoDup_cons. setoid_rewrite elem_of_cons.
    unfold validate_identifier. setoid_rewrite bind_reject. setoid_rewrite bool_decide_eq_false. split.
    + intros (s & [Hs Hp] & Hnd & -> & Hall). destruct (paths !! id) as [[f u]|] eqn:Ef; [|done].
      apply bind_reject in Hp as [Hf [= <-]]. bool_to_prop. subst. split_and!; [|done..|].
      * intros Hid. destruct (Hall id Hid). set_solver.
      * intros i [->|Hi]; [split; [done|]; by exists f|]. destruct (Hall i Hi) as [Hn He]. split; [|done]. set_solver.
    + intros ([Hn Hnd] & -> & Hall). destruct (Hall id) as (Hs & f & Ef & Hr & Hp); [by left|].
      exists ({[id]} ∪ seen). rewrite Ef, Hr, Hp. cbn [negb orb reject mbind result_bind]. split_and!; try done.
      intros i Hi. destruct (Hall i) as [Hs' He]; [by right|]. split; [|done].
      rewrite elem_of_union, elem_of_singleton. intros [->|?]; done.
Qed.

(** ** Properties *)

(** C32: schema validation accepts exactly the valid schemas: a positive schema
    identifier, field identifiers that are positive and unique over the whole
    tree, nonempty names unique among siblings, well-formed types and defaults,
    map keys that are required primitives, at most 64 levels of nesting, and
    distinct identifier columns that are required primitives outside optional
    containers. *)
Theorem validate_schema_iff (s : Schema) : validate_schema s = Ok tt <-> valid_schema s.
Proof.
  unfold validate_schema. rewrite bind_reject, Z.eqb_neq, bind_ok.
  pose proof (siblings_validates 64 1 ltac:(lia)) as Hv. setoid_rewrite (Hv _ _ _ _).
  assert (forall ns id n, NoDup (node_ids ns) ->
    (add_nodes (∅, ∅) ns).2 !! id = Some n <-> n ∈ ns /\ field_id n.1 = id) as Hl.
  { intros ns id n Hnd. rewrite add_nodes_lookup by done. cbn [snd]. rewrite lookup_empty. naive_solver. }
  split.
  - intros (Hid & [ids paths] & (Hs & [Hnd _] & E) & H). apply bind_ok in H as (seen & H & _).
    replace paths with (add_nodes (∅, ∅) (nodes false (schema_fields s))).2 in H by by rewrite <- E.
    apply validate_identifiers_ok in H as (Hi & _ & Hall). constructor; try done. split; [done|].
    intros id Hin. destruct (Hall id Hin) as (_ & f & Ef & Hr & Hp). apply Hl in Ef as [Hf <-]; [|done]. by exists f.
  - intros [Hid Hs Hnd [Hi Hall]]. split; [done|].
    exists (add_nodes (∅, ∅) (nodes false (schema_fields s))). split_and!; [done| |done|].
    + split; [done|]. intros id _. cbn [fst]. apply not_elem_of_empty.
    + destruct (add_nodes (∅, ∅) (nodes false (schema_fields s))) as [ids paths] eqn:E. rewrite bind_ok.
      eexists. split; [|done]. apply validate_identifiers_ok. split_and!; [done..|]. intros id Hin.
      split; [apply not_elem_of_empty|]. destruct (Hall id Hin) as (f & Hf & Hid' & Hr & Hp). exists f.
      split_and!; [|done..]. change paths with ((ids, paths) : Paths).2. rewrite <- E. by apply Hl.
Qed.
