(* ===== verification/Objects.v ===== *)
(** Protocol objects (otmp-protocol/src/objects.rs): the head, semantic commits,
    generations and their image descriptions, with the validation of every
    operation and requirement a commit may carry. *)
From S2P Require Import Prelude Bytes Errors Values Scalars CanonicalJson PageMap CheckpointIndex Schema.

(** ** Data *)

Record ObjectReference := {
  or_uri : RelativeUri;
  or_sha256 : Sha256;
  or_length : option Z;
  or_media_type : option string }.
#[export] Instance object_reference_eq_dec : EqDecision ObjectReference.
Proof. solve_decision. Defined.

Record Head := {
  h_protocol : string;
  h_protocol_version : string;
  h_table_id : Id;
  h_table_version : Z;
  h_root_revision : Z;
  h_semantic_state_sha256 : Sha256;
  h_semantic_commit : ObjectReference;
  h_metadata_generation : ObjectReference;
  h_required_reader_features : FeatureSet;
  h_required_writer_features : FeatureSet }.

Record IntentRecord := {
  ir_key : string;
  ir_intent_sha256 : Sha256;
  ir_operation_ids : list string;
  ir_result : cvalue }.

Record SemanticCommit := {
  sc_kind : string;
  sc_format_version : Z;
  sc_table_id : Id;
  sc_table_version : Z;
  sc_parent_table_version : option Z;
  sc_commit_id : Id;
  sc_parent_commit : option ObjectReference;
  sc_created_at_ms : Z;
  sc_intents : list IntentRecord;
  sc_requirements : list cvalue;
  sc_operations : list cvalue;
  sc_required_reader_features_after_commit : FeatureSet;
  sc_required_writer_features_after_commit : FeatureSet;
  sc_previous_semantic_state_sha256 : option Sha256;
  sc_semantic_state_sha256 : Sha256;
  sc_metadata : cvalue }.

Record Checkpoint := {
  ck_table_version : Z;
  ck_uri : RelativeUri;
  ck_sha256 : Sha256;
  ck_length : Z }.

Record CheckpointPageIndex := {
  ci_checkpoint_sha256 : Sha256;
  ci_checkpoint_length : Z;
  ci_page_size : Z;
  ci_page_count : Z;
  ci_root : PageMapRoot }.

Record MetadataImage := {
  mi_codec : string;
  mi_page_size : Z;
  mi_page_count : Z;
  mi_checkpoint : Checkpoint;
  mi_page_map : option PageMapRoot;
  mi_checkpoint_page_index : option CheckpointPageIndex;
  mi_image_root_sha256 : Sha256 }.

Record Generation := {
  g_kind : string;
  g_format_version : Z;
  g_table_id : Id;
  g_table_version : Z;
  g_generation_id : Id;
  g_created_at_ms : Z;
  g_semantic_state_sha256 : Sha256;
  g_semantic_commit : ObjectReference;
  g_physical_parent : option ObjectReference;
  g_metadata_image : MetadataImage;
  g_scan_projection : option cvalue;
  g_metadata : list (string * cvalue) }.

Definition COMMIT_MEDIA_TYPE : string := "application/vnd.otmp.commit+json".
Definition GENERATION_MEDIA_TYPE : string := "application/vnd.otmp.generation+json".
Definition PROTOCOL : string := "otmp".
Definition PROTOCOL_VERSION : string := "0.0.2-alpha".

(** ** Faults *)

(** A validation fails with a protocol error; [Panicked] is an [unreachable!] or
    an index of a missing map key. *)
Inductive fault := Failed (e : perror) | Panicked.
Notation vresult := (result fault).
Definition lift {A} (m : presult A) : vresult A := map_err Failed m.
Definition invalid_object (message : string) : perror := ProtocolError.InvalidObject message.
Definition refuse {A} (message : string) : vresult A := Err (Failed (invalid_object message)).
Definition refuse_if (b : bool) (message : string) : vresult unit := reject b (Failed (invalid_object message)).

(** ** Reading fields *)

Notation fields := (list (string * cvalue)).

Definition one_of (l : list string) (s : string) : bool := existsb (String.eqb s) l.
Definition dotted (s : string) : bool := existsb (byte_eqb Byte.x2e) (as_bytes s).

Definition is_null (v : option cvalue) : bool := match v with Some CanonicalValue.Null => true | _ => false end.
Definition is_object (v : option cvalue) : bool := match v with Some (CanonicalValue.Object _) => true | _ => false end.

Definition require_fields (object : fields) (required optional : list string) (context : string) : presult unit :=
  reject (existsb (fun field => negb (bt_contains field object)) required
          || existsb (fun field => negb (one_of required field) && negb (one_of optional field)) object.*1)
    (invalid_object (context +:+ " has missing or unknown fields")).

Definition require_exact_fields (object : fields) (required : list string) (context : string) : presult unit :=
  require_fields object required [] context.

Definition require_nonempty_string (object : fields) (field context : string) : presult string :=
  match bt_get field object with
  | Some (CanonicalValue.String value) =>
    if negb (str_len value =? 0) then Ok value
    else Err (invalid_object (context +:+ " " +:+ field +:+ " must be a nonempty string"))
  | _ => Err (invalid_object (context +:+ " " +:+ field +:+ " must be a nonempty string"))
  end.

Definition require_decimal_u64 (object : fields) (field context : string) : presult Z :=
  value ← require_nonempty_string object field context;
  parsed ← ok_or (u64_from_str value) (ProtocolError.InvalidIntegerString value);
  _ ← reject (negb (String.eqb (u64_to_string parsed) value)) (ProtocolError.InvalidIntegerString value);
  Ok parsed.

Definition require_sqlite_i64 (object : fields) (field context : string) : presult Z :=
  value ← require_decimal_u64 object field context;
  _ ← reject (2 ^ 63 - 1 <? value) (invalid_object (context +:+ " " +:+ field
        +:+ " exceeds the local/full-image profile SQLite INTEGER range"));
  Ok value.

Definition require_u32 (object : fields) (field context : string) : presult Z :=
  value ← require_decimal_u64 object field context;
  ok_or (try_uint 32 value) (invalid_object (context +:+ " " +:+ field +:+ " is outside the u32 range")).

Definition require_positive_u32 (object : fields) (field context : string) : presult Z :=
  value ← require_u32 object field context;
  _ ← reject (value =? 0) (invalid_object (context +:+ " " +:+ field +:+ " must be positive"));
  Ok value.

(** [format!("{s:?}")]; code points above ASCII are shown as they are. *)
Definition debug_byte (b : byte) : bytes :=
  let z := byte_to_Z b in
  if z =? 0 then as_bytes "\0" else if z =? 9 then as_bytes "\t" else if z =? 10 then as_bytes "\n"
  else if z =? 13 then as_bytes "\r"
  else if byte_eqb b quote || byte_eqb b backslash then [backslash; b]
  else if (z <? 16) then as_bytes "\u{" ++ [HexReference.digit z] ++ as_bytes "}"
  else if (z <? 32) || (z =? 127) then as_bytes "\u{" ++ HexReference.encode [b] ++ as_bytes "}"
  else [b].
Definition debug_str (s : string) : string := of_bytes (quote :: concat (map debug_byte (as_bytes s)) ++ [quote]).

Section objects.
Context `{HexCrate, SerdeJson}.

Definition parse_id (object : fields) (field context : string) : presult Id :=
  s ← require_nonempty_string object field context; id_from_str s.

(** *** Values inside values: [T::deserialize] of a scalar and of an integer *)

Definition scalar_from_json : FromJson scalar :=
  {| serde_from_slice input :=
       v ← visit (json_document input);
       s ← deserialize_scalar v;
       match json_end input with Some m => Err m | None => Ok s end |}.

Definition json_u64_from_json : FromJson Z :=
  {| serde_from_slice input :=
       match json_document input with
       | JStr s =>
         n ← map_err ProtocolError.display (parse_decimal s);
         match json_end input with Some m => Err m | None => Ok n end
       | d => Err (json_not_a_string d)
       end |}.

Context `{ToJson cvalue, FromJson Schema}.

(** ** Snapshots *)

Definition validate_added_file (file : fields) : presult Id :=
  file_id ← parse_id file "file_id" "commit_snapshot added file";
  _ ← require_nonempty_string file "uri" "commit_snapshot added file";
  _ ← reject (match bt_get "metadata" file with
              | Some (CanonicalValue.Object _) | None => false
              | Some _ => true
              end) (invalid_object "commit_snapshot added file metadata must be an object");
  Ok file_id.

(** The loop bodies over [added_files] and [removed_file_ids]; sets of
    identifiers are lists, in which membership is all the code asks. *)
Definition add_file (added : list Id) (file : cvalue) : presult (list Id) :=
  match file with
  | CanonicalValue.Object file =>
    file_id ← validate_added_file file;
    _ ← reject (bool_decide (file_id ∈ added)) (invalid_object "commit_snapshot added file IDs must be unique");
    Ok (file_id :: added)
  | _ => Err (invalid_object "commit_snapshot added_files entries must be objects")
  end.

Definition remove_file (added removed : list Id) (file_id : cvalue) : presult (list Id) :=
  match file_id with
  | CanonicalValue.String file_id =>
    file_id ← id_from_str file_id;
    _ ← reject (bool_decide (file_id ∈ removed) || bool_decide (file_id ∈ added))
          (invalid_object "commit_snapshot file changes must be unique and disjoint");
    Ok (file_id :: removed)
  | _ => Err (invalid_object "commit_snapshot removed_file_ids entries must be IDs")
  end.

Definition validate_snapshot_file_changes (operation : fields) : presult unit :=
  match bt_get "added_files" operation with
  | Some (CanonicalValue.Array added_files) =>
    added ← try_fold add_file [] added_files;
    match bt_get "removed_file_ids" operation with
    | Some (CanonicalValue.Array removed_file_ids) =>
      _ ← try_fold (remove_file added) [] removed_file_ids; Ok tt
    | _ => Err (invalid_object "commit_snapshot removed_file_ids must be an array")
    end
  | _ => Err (invalid_object "commit_snapshot added_files must be an array")
  end.

Definition validate_snapshot (snapshot : fields) : presult Id :=
  let context := "commit_snapshot snapshot" in
  _ ← require_exact_fields snapshot
        ["snapshot_id"; "parent_snapshot_id"; "sequence_number"; "schema_id"; "partition_spec_id";
         "sort_order_id"; "operation"; "summary"; "metadata"] context;
  snapshot_id ← parse_id snapshot "snapshot_id" context;
  _ ← match bt_get "parent_snapshot_id" snapshot with
      | Some CanonicalValue.Null => Ok tt
      | Some (CanonicalValue.String value) => _ ← id_from_str value; Ok tt
      | _ => Err (invalid_object "commit_snapshot parent_snapshot_id must be null or an ID")
      end;
  sequence_number ← require_decimal_u64 snapshot "sequence_number" context;
  _ ← reject (sequence_number =? 0) (invalid_object "commit_snapshot sequence_number must be positive");
  _ ← require_positive_u32 snapshot "schema_id" context;
  _ ← require_u32 snapshot "partition_spec_id" context;
  _ ← require_u32 snapshot "sort_order_id" context;
  label ← require_nonempty_string snapshot "operation" context;
  _ ← reject (negb (one_of ["append"; "overwrite"; "rewrite"; "delete"; "update"; "merge"; "optimize"; "metadata"] label))
        (invalid_object "commit_snapshot has an unknown snapshot operation label");
  _ ← try_fold (fun _ field =>
        reject (negb (is_object (bt_get field snapshot)))
          (invalid_object ("commit_snapshot snapshot " +:+ field +:+ " must be an object"))) tt ["summary"; "metadata"];
  Ok snapshot_id.

Definition validate_commit_snapshot (operation : fields) : presult Id :=
  _ ← require_exact_fields operation
        ["operation_id"; "type"; "target_ref"; "snapshot"; "added_files"; "removed_file_ids";
         "scan_projection"; "rebase_mode"] "commit_snapshot";
  _ ← require_nonempty_string operation "target_ref" "commit_snapshot";
  _ ← require_nonempty_string operation "rebase_mode" "commit_snapshot";
  match bt_get "snapshot" operation with
  | Some (CanonicalValue.Object snapshot) =>
    snapshot_id ← validate_snapshot snapshot;
    _ ← validate_snapshot_file_changes operation;
    _ ← reject (negb (is_null (bt_get "scan_projection" operation) || is_object (bt_get "scan_projection" operation)))
          (invalid_object "commit_snapshot scan_projection must be null or an object");
    Ok snapshot_id
  | _ => Err (invalid_object "commit_snapshot snapshot must be an object")
  end.

(** ** Operations *)

Definition validate_initialize_table (operation : fields) (table_id : Id) : presult unit :=
  let context := "initialize_table" in
  _ ← require_exact_fields operation
        ["operation_id"; "type"; "table_id"; "schema"; "partition_spec_id"; "sort_order_id"; "target_ref"] context;
  id ← parse_id operation "table_id" context;
  _ ← reject (negb (bool_decide (id = table_id)))
        (invalid_object "initialize_table table ID differs from the semantic commit");
  schema_value ← ok_or (bt_get "schema" operation) (invalid_object "initialize_table has no schema");
  b ← to_vec schema_value;
  schema ← from_slice (T := Schema) b;
  _ ← validate_schema schema;
  let bad := invalid_object "initialize_table must create partition spec 0, sort order 0, and main" in
  spec ← require_decimal_u64 operation "partition_spec_id" context;
  _ ← reject (negb (spec =? 0)) bad;
  order ← require_decimal_u64 operation "sort_order_id" context;
  _ ← reject (negb (order =? 0)) bad;
  target ← require_nonempty_string operation "target_ref" context;
  reject (negb (String.eqb target "main")) bad.

Definition metadata_operation_keys (kind : string) : vresult (list string) :=
  if String.eqb kind "set_properties" then Ok ["type"; "operation_id"; "updates"; "removals"]
  else if String.eqb kind "create_ref" then Ok ["type"; "operation_id"; "ref"; "ref_type"; "snapshot_id"]
  else if String.eqb kind "replace_ref" then Ok ["type"; "operation_id"; "ref"; "snapshot_id"]
  else if String.eqb kind "drop_ref" then Ok ["type"; "operation_id"; "ref"]
  else if String.eqb kind "add_schema" then Ok ["type"; "operation_id"; "schema"]
  else if String.eqb kind "set_current_schema" then Ok ["type"; "operation_id"; "schema_id"]
  else Err Panicked.

Definition is_string (v : cvalue) : bool := match v with CanonicalValue.String _ => true | _ => false end.

(** [&fields[key]] *)
Definition index (object : fields) (key : string) : vresult cvalue := ok_or (bt_get key object) Panicked.

Definition validate_metadata_operation (object : fields) (kind : string) : vresult unit :=
  keys ← metadata_operation_keys kind;
  _ ← lift (require_exact_fields object keys kind);
  if String.eqb kind "set_properties" then
    refuse_if (negb (is_object (bt_get "updates" object))
               || negb (match bt_get "removals" object with
                        | Some (CanonicalValue.Array values) => forallb is_string values
                        | _ => false
                        end)) "invalid properties shape"
  else if one_of ["create_ref"; "replace_ref"; "drop_ref"] kind then
    _ ← lift (require_nonempty_string object "ref" kind);
    _ ← (if String.eqb kind "create_ref" then
           t ← lift (require_nonempty_string object "ref_type" kind);
           refuse_if (negb (one_of ["branch"; "tag"] t)) "invalid ref type"
         else Ok tt);
    _ ← (if negb (String.eqb kind "drop_ref") && negb (is_null (bt_get "snapshot_id" object)) then
           _ ← lift (parse_id object "snapshot_id" kind); Ok tt
         else Ok tt);
    refuse_if (String.eqb kind "replace_ref" && is_null (bt_get "snapshot_id" object)) "replacement requires snapshot"
  else if String.eqb kind "add_schema" then
    value ← index object "schema";
    b ← lift (to_vec value);
    schema ← lift (from_slice_canonical (T := Schema) b);
    lift (validate_schema schema)
  else if String.eqb kind "set_current_schema" then
    _ ← lift (require_u32 object "schema_id" kind); Ok tt
  else Err Panicked.

(** [operation_ids] and [committed_snapshot_ids], and the loop body over the
    operations. *)
Definition validate_operation (genesis : bool) (table_id : Id) (st : gset string * list Id) (operation : cvalue)
    : vresult (gset string * list Id) :=
  let '(operation_ids, snapshots) := st in
  match operation with
  | CanonicalValue.Object object =>
    match bt_get "operation_id" object with
    | Some (CanonicalValue.String operation_id) =>
      _ ← refuse_if ((str_len operation_id =? 0) || bool_decide (operation_id ∈ operation_ids))
            "semantic operation IDs must be nonempty and unique";
      let operation_ids := {[operation_id]} ∪ operation_ids in
      match bt_get "type" object with
      | Some (CanonicalValue.String kind) =>
        if String.eqb kind "initialize_table" then
          if genesis then _ ← lift (validate_initialize_table object table_id); Ok (operation_ids, snapshots)
          else refuse "initialize_table is only valid at genesis"
        else if String.eqb kind "commit_snapshot" then
          snapshot_id ← lift (validate_commit_snapshot object);
          _ ← refuse_if (bool_decide (snapshot_id ∈ snapshots)) "commit_snapshot snapshot IDs must be unique";
          Ok (operation_ids, snapshot_id :: snapshots)
        else if one_of ["set_properties"; "create_ref"; "replace_ref"; "drop_ref"; "add_schema"; "set_current_schema"] kind then
          _ ← validate_metadata_operation object kind; Ok (operation_ids, snapshots)
        else if one_of ["upgrade_features"; "add_partition_spec"; "set_default_partition_spec"; "add_sort_order";
                        "set_default_sort_order"] kind || dotted kind then Ok (operation_ids, snapshots)
        else refuse ("unsupported semantic operation type " +:+ debug_str kind)
      | _ => refuse "semantic operation has no string type"
      end
    | _ => refuse "semantic operation has no operation_id"
    end
  | _ => refuse "semantic operation must be an object"
  end.

Definition validate_operations (operations : list cvalue) (genesis : bool) (table_id : Id) : vresult (gset string) :=
  '(operation_ids, _) ← try_fold (validate_operation genesis table_id) (∅, []) operations; Ok operation_ids.

(** ** Requirements *)

(** The keys of a requirement, or [None] for an extension, which is accepted as it is. *)
Definition requirement_keys (kind : string) : vresult (option (list string)) :=
  if String.eqb kind "property_is" then Ok (Some ["type"; "key"; "value"])
  else if String.eqb kind "ref_absent" then Ok (Some ["type"; "ref"])
  else if String.eqb kind "ref_exists" then Ok (Some ["type"; "ref"; "ref_type"])
  else if String.eqb kind "ref_snapshot_is" then Ok (Some ["type"; "ref"; "snapshot_id"])
  else if String.eqb kind "snapshot_exists" then Ok (Some ["type"; "snapshot_id"])
  else if one_of ["current_schema_is"; "schema_id_absent"] kind then Ok (Some ["type"; "schema_id"])
  else if String.eqb kind "field_ids_absent" then Ok (Some ["type"; "field_ids"])
  else if String.eqb kind "default_partition_spec_is" then Ok (Some ["type"; "partition_spec_id"])
  else if String.eqb kind "default_sort_order_is" then Ok (Some ["type"; "sort_order_id"])
  else if String.eqb kind "table_version_is" then Ok (Some ["type"; "table_version"])
  else if String.eqb kind "semantic_state_is" then Ok (Some ["type"; "sha256"])
  else if dotted kind then Ok None
  else refuse "unknown requirement".

Definition validate_field_id (seen : gset Z) (id : cvalue) : vresult (gset Z) :=
  b ← lift (to_vec id);
  n ← lift (from_slice_canonical (from := json_u64_from_json) b);
  _ ← refuse_if ((n =? 0) || (2 ^ 32 - 1 <? n) || bool_decide (n ∈ seen)) "invalid field IDs";
  Ok ({[n]} ∪ seen).

(** The loop body over the keys. *)
Definition validate_requirement_key (object : fields) (kind key : string) : vresult unit :=
  if one_of ["ref"; "key"] key then
    _ ← lift (require_nonempty_string object key "requirement"); Ok tt
  else if String.eqb key "ref_type" then
    t ← lift (require_nonempty_string object key "requirement");
    refuse_if (negb (one_of ["branch"; "tag"] t)) "invalid ref type"
  else if String.eqb key "snapshot_id"
          && (String.eqb kind "snapshot_exists" || negb (is_null (bt_get key object))) then
    _ ← lift (parse_id object key "requirement"); Ok tt
  else if one_of ["schema_id"; "partition_spec_id"; "sort_order_id"] key then
    _ ← lift (require_u32 object key "requirement"); Ok tt
  else if String.eqb key "table_version" then
    _ ← lift (require_decimal_u64 object key "requirement"); Ok tt
  else if String.eqb key "field_ids" then
    ids ← index object key;
    match ids with
    | CanonicalValue.Array ids => _ ← try_fold validate_field_id ∅ ids; Ok tt
    | _ => refuse "field IDs must be array"
    end
  else Ok tt.

Definition validate_requirement (value : cvalue) : vresult unit :=
  match value with
  | CanonicalValue.Object object =>
    kind ← lift (require_nonempty_string object "type" "requirement");
    keys ← requirement_keys kind;
    match keys with
    | None => Ok tt
    | Some keys =>
      _ ← lift (require_exact_fields object keys "requirement");
      try_fold (fun _ key => validate_requirement_key object kind key) tt keys
    end
  | _ => refuse "requirement must be an object"
  end.

(** ** [SemanticCommit::validate] *)

(** [iter().any(|intent| !keys.insert(&intent.key))] *)
Fixpoint any_duplicate (seen : gset string) (keys : list string) : bool :=
  match keys with
  | [] => false
  | key :: keys => bool_decide (key ∈ seen) || any_duplicate ({[key]} ∪ seen) keys
  end.

Definition validate_reference (operation_ids referenced : gset string) (id : string) : vresult (gset string) :=
  _ ← refuse_if (negb (bool_decide (id ∈ operation_ids))) "intent references an unknown operation";
  Ok ({[id]} ∪ referenced).

Definition validate_intent (operation_ids referenced : gset string) (intent : IntentRecord) : vresult (gset string) :=
  _ ← refuse_if ((str_len (ir_key intent) =? 0) || bool_decide (ir_operation_ids intent = []))
        "intent key and operation IDs must be nonempty";
  try_fold (validate_reference operation_ids) referenced (ir_operation_ids intent).

Definition media_type_is (r : ObjectReference) (media : string) : bool :=
  bool_decide (or_media_type r = Some media).

Definition validate_commit (c : SemanticCommit) : vresult unit :=
  _ ← refuse_if (negb (String.eqb (sc_kind c) "otmp.semantic-commit") || negb (sc_format_version c =? 1))
        "invalid semantic commit kind";
  let genesis := sc_table_version c =? 0 in
  let no_parent := bool_decide (sc_parent_table_version c = None) && bool_decide (sc_parent_commit c = None)
                   && bool_decide (sc_previous_semantic_state_sha256 c = None) in
  _ ← refuse_if (negb (Bool.eqb genesis no_parent)) "invalid semantic parent shape";
  _ ← refuse_if (negb genesis
        && negb (bool_decide ((v ← sc_parent_table_version c; checked_add 64 v 1) = Some (sc_table_version c))))
        "nonconsecutive table version";
  _ ← refuse_if (match sc_parent_commit c with
                 | Some parent => negb (media_type_is parent COMMIT_MEDIA_TYPE)
                 | None => false
                 end) "incorrect parent commit media type";
  _ ← refuse_if (bool_decide (length (sc_intents c) = 0%nat) || bool_decide (length (sc_operations c) = 0%nat))
        "empty semantic commit";
  _ ← refuse_if (negb (is_object (Some (sc_metadata c)))) "semantic commit metadata must be an object";
  _ ← refuse_if (any_duplicate ∅ (map ir_key (sc_intents c))) "duplicate idempotency key";
  _ ← try_fold (fun _ requirement => validate_requirement requirement) tt (sc_requirements c);
  operation_ids ← validate_operations (sc_operations c) genesis (sc_table_id c);
  referenced ← try_fold (validate_intent operation_ids) ∅ (sc_intents c);
  _ ← refuse_if (negb (bool_decide (referenced = operation_ids))) "every operation must be referenced by an intent";
  if genesis then
    refuse_if (negb (match sc_operations c with
                     | [CanonicalValue.Object object] =>
                       bool_decide (bt_get "type" object = Some (CanonicalValue.String "initialize_table"))
                     | _ => false
                     end)) "genesis must contain exactly one initialize_table operation"
  else Ok tt.

(** ** The runtime profile *)

Definition PROFILE_FILE : string := "local/full-image profile added file".
Definition PROFILE_METRIC : string := "local/full-image profile metric".

Definition validate_metric_bound (metric : fields) (field : string) : presult unit :=
  match bt_get field metric with
  | Some CanonicalValue.Null => Ok tt
  | Some (CanonicalValue.Object _ as value) =>
    b ← to_vec value;
    s ← from_slice (from := scalar_from_json) b;
    validate_scalar s
  | _ => Err (invalid_object (PROFILE_METRIC +:+ " " +:+ field +:+ " must be null or a typed scalar"))
  end.

Definition validate_metric (field_ids : gset Z) (metric : cvalue) : presult (gset Z) :=
  match metric with
  | CanonicalValue.Object metric =>
    _ ← require_exact_fields metric
          ["field_id"; "column_size_bytes"; "value_count"; "null_count"; "nan_count"; "distinct_count";
           "lower_bound"; "upper_bound"; "metadata"] PROFILE_METRIC;
    field_id ← require_positive_u32 metric "field_id" PROFILE_METRIC;
    _ ← reject (bool_decide (field_id ∈ field_ids))
          (invalid_object "local/full-image profile metric field IDs must be unique");
    _ ← try_fold (fun _ field =>
          if negb (is_null (bt_get field metric)) then
            _ ← require_sqlite_i64 metric field PROFILE_METRIC; Ok tt
          else Ok tt) tt ["column_size_bytes"; "value_count"; "null_count"; "nan_count"; "distinct_count"];
    _ ← try_fold (fun _ field => validate_metric_bound metric field) tt ["lower_bound"; "upper_bound"];
    _ ← reject (negb (is_object (bt_get "metadata" metric)))
          (invalid_object "local/full-image profile metric metadata must be an object");
    Ok ({[field_id]} ∪ field_ids)
  | _ => Err (invalid_object "local/full-image profile metrics entries must be objects")
  end.

Definition validate_runtime_profile_metrics (file : fields) : presult unit :=
  match bt_get "metrics" file with
  | Some (CanonicalValue.Array metrics) => _ ← try_fold validate_metric ∅ metrics; Ok tt
  | _ => Err (invalid_object "local/full-image profile file metrics must be an array")
  end.

Definition validate_runtime_profile_added_file (file : fields) (snapshot_schema_id : Z) : presult unit :=
  _ ← require_exact_fields file
        ["file_id"; "uri"; "object_identity"; "file_format"; "file_size_bytes"; "record_count"; "schema_id";
         "partition_spec_id"; "sort_order_id"; "content_sha256"; "partition_values"; "metrics"; "metadata"] PROFILE_FILE;
  uri ← require_nonempty_string file "uri" PROFILE_FILE;
  _ ← relative_uri_from_str uri;
  let bad := invalid_object "local/full-image profile file descriptor is outside the Parquet append profile" in
  _ ← reject (negb (is_null (bt_get "object_identity" file))) bad;
  format ← require_nonempty_string file "file_format" PROFILE_FILE;
  _ ← reject (negb (String.eqb format "parquet")) bad;
  schema_id ← require_positive_u32 file "schema_id" PROFILE_FILE;
  _ ← reject (negb (schema_id =? snapshot_schema_id)) bad;
  spec ← require_u32 file "partition_spec_id" PROFILE_FILE;
  _ ← reject (negb (spec =? 0)) bad;
  order ← require_u32 file "sort_order_id" PROFILE_FILE;
  _ ← reject (negb (order =? 0)) bad;
  _ ← reject (negb (bool_decide (bt_get "partition_values" file = Some (CanonicalValue.Object [])))) bad;
  _ ← reject (negb (is_object (bt_get "metadata" file))) bad;
  _ ← require_sqlite_i64 file "file_size_bytes" PROFILE_FILE;
  _ ← require_sqlite_i64 file "record_count" PROFILE_FILE;
  content ← require_nonempty_string file "content_sha256" PROFILE_FILE;
  _ ← sha256_from_str content;
  validate_runtime_profile_metrics file.

Definition validate_append_profile (operation : fields) : vresult unit :=
  _ ← lift (require_nonempty_string operation "target_ref" "commit_snapshot");
  let bad := "local/full-image profile commit_snapshot must append safely to main without a scan projection" in
  mode ← lift (require_nonempty_string operation "rebase_mode" "commit_snapshot");
  _ ← refuse_if (negb (String.eqb mode "append-safe")) bad;
  _ ← refuse_if (negb (is_null (bt_get "scan_projection" operation))) bad;
  match bt_get "snapshot" operation with
  | Some (CanonicalValue.Object snapshot) =>
    let context := "commit_snapshot snapshot" in
    let bad := "local/full-image profile snapshot must be an unpartitioned, unsorted append" in
    label ← lift (require_nonempty_string snapshot "operation" context);
    _ ← refuse_if (negb (String.eqb label "append")) bad;
    spec ← lift (require_u32 snapshot "partition_spec_id" context);
    _ ← refuse_if (negb (spec =? 0)) bad;
    order ← lift (require_u32 snapshot "sort_order_id" context);
    _ ← refuse_if (negb (order =? 0)) bad;
    snapshot_schema_id ← lift (require_positive_u32 snapshot "schema_id" context);
    _ ← lift (require_sqlite_i64 snapshot "sequence_number" context);
    match bt_get "added_files" operation with
    | Some (CanonicalValue.Array added_files) =>
      _ ← try_fold (fun _ file =>
            match file with
            | CanonicalValue.Object file => lift (validate_runtime_profile_added_file file snapshot_schema_id)
            | _ => Err Panicked
            end) tt added_files;
      refuse_if (negb (bool_decide (bt_get "removed_file_ids" operation = Some (CanonicalValue.Array []))))
        "local/full-image profile append cannot remove files"
    | _ => Err Panicked
    end
  | _ => Err Panicked
  end.

(** [let Object(fields) = value else unreachable!(); let String(kind) = fields.get("type") else unreachable!()] *)
Definition kind_of (value : cvalue) : vresult (fields * string) :=
  match value with
  | CanonicalValue.Object object =>
    match bt_get "type" object with
    | Some (CanonicalValue.String kind) => Ok (object, kind)
    | _ => Err Panicked
    end
  | _ => Err Panicked
  end.

Definition profile_operation (snapshots : Z) (value : cvalue) : vresult Z :=
  '(object, kind) ← kind_of value;
  if String.eqb kind "commit_snapshot" then
    _ ← validate_append_profile object; Ok (snapshots + 1)
  else if one_of ["initialize_table"; "set_properties"; "create_ref"; "replace_ref"; "drop_ref"; "add_schema";
                  "set_current_schema"] kind then Ok snapshots
  else refuse "unsupported runtime operation".

Definition profile_requirement (value : cvalue) : vresult unit :=
  '(_, kind) ← kind_of value;
  refuse_if (negb (one_of ["property_is"; "ref_absent"; "ref_exists"; "ref_snapshot_is"; "snapshot_exists";
                           "current_schema_is"; "schema_id_absent"; "field_ids_absent"; "default_partition_spec_is";
                           "default_sort_order_is"] kind)) "unsupported runtime requirement".

Definition validate_runtime_profile (c : SemanticCommit) : vresult unit :=
  _ ← validate_commit c;
  snapshots ← try_fold profile_operation 0 (sc_operations c);
  _ ← refuse_if ((1 <? snapshots) || (snapshots =? 1) && negb (len (sc_operations c) =? 1))
        "runtime supports metadata transactions or one append";
  try_fold (fun _ requirement => profile_requirement requirement) tt (sc_requirements c).
End objects.

(** ** Heads and generations *)

Definition validate_head (h : Head) (supported : gset string) : presult unit :=
  _ ← reject (negb (String.eqb (h_protocol h) PROTOCOL) || negb (String.eqb (h_protocol_version h) PROTOCOL_VERSION))
        (invalid_object "unsupported protocol or protocol version");
  _ ← require_supported (h_required_reader_features h) supported;
  reject (negb (media_type_is (h_semantic_commit h) COMMIT_MEDIA_TYPE)
          || negb (media_type_is (h_metadata_generation h) GENERATION_MEDIA_TYPE))
    (invalid_object "incorrect object media type").

Definition validate_page_index (index : CheckpointPageIndex) (checkpoint : Checkpoint) (page_size : Z) : presult unit :=
  expected_length ← ok_or (checked_mul 64 (ci_page_count index) (ci_page_size index))
                      (invalid_object "checkpoint page-index length overflow");
  reject (negb (bool_decide (ci_checkpoint_sha256 index = ck_sha256 checkpoint))
          || negb (ci_checkpoint_length index =? ck_length checkpoint)
          || negb (ci_page_size index =? page_size) || (ci_page_size index =? 0) || (ci_page_count index =? 0)
          || negb (expected_length =? ck_length checkpoint) || (root_length (ci_root index) =? 0)
          || (MAX_CHECKPOINT_INDEX_BYTES <? root_length (ci_root index)) || (64 <? root_height (ci_root index)))
    (invalid_object "checkpoint page-index does not bind checkpoint geometry").

Definition validate_generation (g : Generation) : presult unit :=
  let image := g_metadata_image g in
  _ ← reject (negb (String.eqb (g_kind g) "otmp.metadata-generation") || negb (g_format_version g =? 1)
              || negb (String.eqb (mi_codec image) "otmp.metadata.sqlite3-cow.v1") || negb (mi_page_size image =? 4096)
              || bool_decide (is_Some (g_scan_projection g))
              || (g_table_version g <? ck_table_version (mi_checkpoint image))
              || negb (bool_decide (is_Some (mi_page_map image)))
                 && negb (ck_table_version (mi_checkpoint image) =? g_table_version g))
        (invalid_object "generation is outside the runtime metadata-image profile");
  match mi_checkpoint_page_index image with
  | Some index => validate_page_index index (mi_checkpoint image) (mi_page_size image)
  | None => Ok tt
  end.

(** ** No validation panics *)

Definition calm {A} (m : vresult A) : Prop := m <> Err Panicked.

Lemma calm_lift {A} (m : presult A) : calm (lift m).
Proof. by destruct m. Qed.
Lemma calm_ok {A} (a : A) : calm (Ok a).
Proof. done. Qed.
Lemma calm_refuse {A} s : calm (@refuse A s).
Proof. done. Qed.
Lemma calm_refuse_if b s : calm (refuse_if b s).
Proof. by destruct b. Qed.
Lemma calm_bind {A B} (m : vresult A) (f : A -> vresult B) :
  calm m -> (forall a, m = Ok a -> calm (f a)) -> calm (m ≫= f).
Proof. intros Hm Hf. destruct m as [a|e]; [by apply Hf|]. cbn. unfold calm in *. congruence. Qed.
Lemma calm_fold {S A} (f : S -> A -> vresult S) l : (forall s a, a ∈ l -> calm (f s a)) -> forall s, calm (try_fold f s l).
Proof.
  induction l as [|a l IH]; intros Hf s; [done|]. cbn [try_fold]. apply calm_bind; [apply Hf; by left|].
  intros s' _. apply IH. intros. apply Hf. by right.
Qed.
#[export] Hint Resolve calm_lift calm_ok calm_refuse calm_refuse_if : otmp.

(** Walks through a validation, guard by guard. *)
Ltac calmly :=
  repeat match goal with
  | |- calm (_ ≫= _) => apply calm_bind; [solve [auto with otmp]|intros ? ?]
  | |- calm (if ?b then _ else _) => destruct b eqn:?
  | |- calm (let '(_, _) := ?x in _) => destruct x
  | |- calm _ => solve [auto with otmp]
  end.

Lemma require_fields_ok object required optional context :
  require_fields object required optional context = Ok tt <->
  (forall f, f ∈ required -> bt_contains f object = true) /\
  (forall f, f ∈ object.*1 -> f ∈ required \/ f ∈ optional).
Proof.
  unfold require_fields. rewrite reject_ok, orb_false_iff, <- !not_true_iff_false, !existsb_exists.
  assert (forall l s, one_of l s = true <-> s ∈ l) as Hone.
  { intros l s. unfold one_of. rewrite existsb_exists. setoid_rewrite String.eqb_eq. rewrite list_elem_of_In. naive_solver. }
  split.
  - intros [H1 H2]. split; intros f Hf.
    + apply not_false_iff_true. intros E. apply H1. exists f. rewrite <- list_elem_of_In, E. done.
    + destruct (decide (f ∈ required)); [by left|]. destruct (decide (f ∈ optional)); [by right|]. exfalso. apply H2.
      exists f. rewrite <- list_elem_of_In, andb_true_iff, !negb_true_iff, <- !not_true_iff_false, !Hone. done.
  - intros [H1 H2]. split.
    + intros (f & Hf & E). rewrite <- list_elem_of_In in Hf. apply H1 in Hf. by rewrite Hf in E.
    + intros (f & Hf & E). rewrite <- list_elem_of_In in Hf. apply H2 in Hf.
      rewrite andb_true_iff, !negb_true_iff, <- !not_true_iff_false, !Hone in E. tauto.
Qed.

Lemma exact_fields_get object required context f u :
  require_exact_fields object required context = Ok u -> f ∈ required -> exists v, bt_get f object = Some v.
Proof.
  unfold require_exact_fields. destruct u. rewrite require_fields_ok. intros [H _] Hf. specialize (H f Hf).
  unfold bt_contains in H. destruct (bt_get f object) as [v|]; [by exists v|done].
Qed.

Section calm.
Context `{HexCrate, SerdeJson, ToJson cvalue, FromJson Schema}.

Lemma calm_index object keys context u f : lift (require_exact_fields object keys context) = Ok u -> f ∈ keys ->
  calm (index object f).
Proof.
  intros E%map_err_ok Hf. destruct (exact_fields_get _ _ _ _ _ E Hf) as [v Ev]. unfold index. by rewrite Ev.
Qed.

Lemma metadata_operation_calm object kind :
  one_of ["set_properties"; "create_ref"; "replace_ref"; "drop_ref"; "add_schema"; "set_current_schema"] kind = true ->
  calm (validate_metadata_operation object kind).
Proof.
  unfold one_of. cbn [existsb]. rewrite orb_false_r, !orb_true_iff, !String.eqb_eq. intros Hk.
  unfold validate_metadata_operation. repeat destruct Hk as [->|Hk]; try subst kind;
    cbn [metadata_operation_keys String.eqb Ascii.eqb Bool.eqb one_of existsb orb andb negb mbind result_bind].
  5: { apply calm_bind; [auto with otmp|]. intros u E. apply calm_bind; [|intros; calmly].
       eapply calm_index; [exact E|]. by apply list_elem_of_In; cbn; auto. }
  all: repeat (calmly; try (apply calm_bind; [|intros ? ?])).
Qed.

Lemma requirement_key_calm object kind keys u key :
  lift (require_exact_fields object keys "requirement") = Ok u -> key ∈ keys ->
  calm (validate_requirement_key object kind key).
Proof.
  intros Hx Hk. unfold validate_requirement_key. calmly.
  apply calm_bind; [by eapply calm_index|]. intros ids _. destruct ids; auto with otmp. calmly.
  apply calm_bind; [|intros; calmly]. apply calm_fold. intros s a _. unfold validate_field_id. calmly.
Qed.

Lemma requirement_calm value : calm (validate_requirement value).
Proof.
  destruct value as [| | | | |object]; try apply calm_refuse. cbn [validate_requirement].
  apply calm_bind; [auto with otmp|]. intros kind _. apply calm_bind.
  { unfold requirement_keys. calmly. }
  intros [keys|] _; [|done]. apply calm_bind; [auto with otmp|]. intros u E. apply calm_fold. intros [] key Hkey.
  by eapply requirement_key_calm.
Qed.

Lemma operation_calm genesis table_id st operation : calm (validate_operation genesis table_id st operation).
Proof.
  unfold validate_operation. destruct st as [ids snapshots]. destruct operation as [| | | | |object]; auto with otmp.
  destruct (bt_get "operation_id" object) as [[]|]; auto with otmp. apply calm_bind; [auto with otmp|]. intros _ _.
  cbn zeta. destruct (bt_get "type" object) as [[]|]; auto with otmp.
  destruct (String.eqb _ "initialize_table"); [calmly|]. destruct (String.eqb _ "commit_snapshot"); [calmly|].
  destruct (one_of _ _) eqn:Ek; [|intros; calmly]. apply calm_bind; [by apply metadata_operation_calm|intros; calmly].
Qed.

Lemma operations_calm operations genesis table_id : calm (validate_operations operations genesis table_id).
Proof.
  unfold validate_operations. apply calm_bind.
  - apply calm_fold. intros. apply operation_calm.
  - by intros [] _.
Qed.

Lemma commit_calm c : calm (validate_commit c).
Proof.
  unfold validate_commit. calmly.
  apply calm_bind; [apply calm_fold; intros; apply requirement_calm|]. intros _ _.
  apply calm_bind; [apply operations_calm|]. intros ids _. apply calm_bind; [|intros; calmly].
  apply calm_fold. intros st i _. unfold validate_intent. calmly. apply calm_fold. intros st1 j _.
  unfold validate_reference. calmly.
Qed.

(** *** What an accepted operation looks like *)

(** The parts of an operation that later code matches on. *)
Definition shaped (operation : cvalue) : Prop :=
  exists object kind, kind_of operation = Ok (object, kind) /\
    (kind = "commit_snapshot" -> exists snapshot added,
      bt_get "snapshot" object = Some (CanonicalValue.Object snapshot) /\
      bt_get "added_files" object = Some (CanonicalValue.Array added) /\
      forall file, file ∈ added -> exists f, file = CanonicalValue.Object f).

Lemma commit_snapshot_shape object id : validate_commit_snapshot object = Ok id ->
  exists snapshot added,
    bt_get "snapshot" object = Some (CanonicalValue.Object snapshot) /\
    bt_get "added_files" object = Some (CanonicalValue.Array added) /\
    forall file, file ∈ added -> exists f, file = CanonicalValue.Object f.
Proof.
  unfold validate_commit_snapshot. intros E. apply bind_ok in E as (? & _ & E). apply bind_ok in E as (? & _ & E).
  apply bind_ok in E as (? & _ & E). destruct (bt_get "snapshot" object) as [[| | | | |snapshot]|] eqn:Es; try done.
  apply bind_ok in E as (? & _ & E). apply bind_ok in E as (? & E & _). unfold validate_snapshot_file_changes in E.
  destruct (bt_get "added_files" object) as [[| | | |added|]|] eqn:Ea; try done.
  apply bind_ok in E as (ids & E & _). exists snapshot, added. split_and!; [done..|]. clear Es Ea.
  revert E. generalize (@nil Id). induction added as [|file added IH]; intros ids0 E f Hf.
  - by apply not_elem_of_nil in Hf.
  - cbn [try_fold] in E. apply bind_ok in E as (ids1 & Efile & E). apply elem_of_cons in Hf as [->|Hf]; [|by eapply IH].
    unfold add_file in Efile. destruct file; try done. by eexists.
Qed.

Lemma operation_shaped genesis table_id st st' operation :
  validate_operation genesis table_id st operation = Ok st' -> shaped operation.
Proof.
  unfold validate_operation, shaped. destruct st as [ids snapshots]. destruct operation as [| | | | |object]; try done.
  destruct (bt_get "operation_id" object) as [[]|]; try done. intros E. apply bind_ok in E as (? & _ & E). cbn [kind_of] in *.
  destruct (bt_get "type" object) as [[| | |kind| |]|]; try done. exists object, kind. split; [done|].
  intros ->. cbn in E. apply bind_ok in E as (id & E & _). apply map_err_ok in E. by eapply commit_snapshot_shape.
Qed.

Lemma fold_each {F S A} (P : A -> Prop) (f : S -> A -> result F S) l : forall s s',
  (forall s a s', f s a = Ok s' -> P a) -> try_fold f s l = Ok s' -> forall a, a ∈ l -> P a.
Proof.
  induction l as [|b l IH]; intros s s' Hf E a Ha; [by apply not_elem_of_nil in Ha|].
  cbn [try_fold] in E. apply bind_ok in E as (s1 & E1 & E). apply elem_of_cons in Ha as [->|Ha]; [by eapply Hf|by eapply IH].
Qed.

Lemma requirement_shaped value : validate_requirement value = Ok tt -> exists x, kind_of value = Ok x.
Proof.
  destruct value as [| | | | |object]; try done. cbn [validate_requirement kind_of]. intros E.
  apply bind_ok in E as (kind & E & _). apply map_err_ok in E. unfold require_nonempty_string in E.
  destruct (bt_get "type" object) as [[]|]; try done. by eexists.
Qed.

Lemma append_profile_calm object snapshot added :
  bt_get "snapshot" object = Some (CanonicalValue.Object snapshot) ->
  bt_get "added_files" object = Some (CanonicalValue.Array added) ->
  (forall file, file ∈ added -> exists f, file = CanonicalValue.Object f) ->
  calm (validate_append_profile object).
Proof.
  intros Es Ea Hf. unfold validate_append_profile. rewrite Es, Ea. calmly.
  apply calm_bind; [|intros; calmly]. apply calm_fold. intros [] file Hin. destruct (Hf _ Hin) as [f ->]. auto with otmp.
Qed.

Lemma commit_parts c : validate_commit c = Ok tt ->
  (forall r, r ∈ sc_requirements c -> validate_requirement r = Ok tt) /\
  exists ids, validate_operations (sc_operations c) (sc_table_version c =? 0) (sc_table_id c) = Ok ids.
Proof.
  unfold validate_commit. intros E. do 7 apply bind_ok in E as (? & _ & E).
  apply bind_ok in E as ([] & Er & E). apply bind_ok in E as (ids & Eo & _). split; [|by exists ids].
  by eapply check_all.
Qed.

Lemma operations_each operations genesis table_id ids operation :
  validate_operations operations genesis table_id = Ok ids -> operation ∈ operations -> shaped operation.
Proof.
  unfold validate_operations. intros E. apply bind_ok in E as ([] & E & _). intros Hin.
  refine (fold_each shaped _ _ _ _ _ E _ Hin). intros s a s'. apply operation_shaped.
Qed.

Lemma runtime_profile_calm c : calm (validate_runtime_profile c).
Proof.
  unfold validate_runtime_profile. apply calm_bind; [apply commit_calm|]. intros [] E.
  apply commit_parts in E as (Hr & ids & Ho). apply calm_bind.
  - apply calm_fold. intros n operation Hop.
    destruct (operations_each _ _ _ _ _ Ho Hop) as (object & kind & Ek & Hs).
    unfold profile_operation. rewrite Ek. cbn [mbind result_bind]. destruct (String.eqb_spec kind "commit_snapshot") as [->|].
    + destruct (Hs eq_refl) as (snapshot & added & H3 & H4 & H5). apply calm_bind; [by eapply append_profile_calm|done].
    + calmly.
  - intros n _. apply calm_bind; [auto with otmp|]. intros _ _. apply calm_fold. intros [] r Hin.
    destruct (requirement_shaped _ (Hr _ Hin)) as [[object kind] Ek]. unfold profile_requirement. rewrite Ek.
    cbn [mbind result_bind]. auto with otmp.
Qed.
End calm.

(** ** What an accepted commit guarantees *)

Lemma require_string_ok object field context s : require_nonempty_string object field context = Ok s <->
  bt_get field object = Some (CanonicalValue.String s) /\ s <> EmptyString.
Proof.
  unfold require_nonempty_string. destruct (bt_get field object) as [[| | |x| |]|]; try naive_solver.
  destruct (str_len x =? 0) eqn:E; cbn [negb].
  - split; [done|]. intros [[= ->] Hs]. apply str_len_zero in Hs. congruence.
  - apply str_len_zero in E. naive_solver.
Qed.

Lemma u64_from_str_range s n : u64_from_str s = Some n -> is_u64 n.
Proof.
  unfold u64_from_str. intros E.
  assert (forall t, (v ← digits_value t; try_uint 64 v) = Some n -> is_u64 n) as Hgo.
  { intros t Ht. apply bind_Some in Ht as (v & _ & Hv). by apply try_uint_some in Hv as [-> ?]. }
  repeat case_match; try done; by eapply Hgo.
Qed.

(** Decimal fields hold the one text of their value. *)
Lemma require_decimal_ok object field context n : require_decimal_u64 object field context = Ok n <->
  is_u64 n /\ bt_get field object = Some (CanonicalValue.String (u64_to_string n)).
Proof.
  unfold require_decimal_u64. rewrite bind_ok. setoid_rewrite require_string_ok. split.
  - intros (s & [Hs _] & E). inv_ok. bool_to_prop. apply String.eqb_eq in H0. subst. split; [|done].
    by eapply u64_from_str_range.
  - intros [Hn Hs]. exists (u64_to_string n). split.
    + split; [done|]. destruct (u64_to_string_head n) as (c & s & -> & _). done.
    + rewrite u64_from_to_string by done. cbn [ok_or mbind result_bind]. by rewrite String.eqb_refl.
Qed.

Lemma require_sqlite_ok object field context n : require_sqlite_i64 object field context = Ok n <->
  0 <= n < 2 ^ 63 /\ bt_get field object = Some (CanonicalValue.String (u64_to_string n)).
Proof.
  unfold require_sqlite_i64. rewrite bind_ok. setoid_rewrite require_decimal_ok. unfold is_uint. split.
  - intros (m & [Hm Hs] & E). inv_ok. bool_to_prop. split; [lia|done].
  - intros [Hn Hs]. exists n. split; [split; [lia|done]|].
    replace (2 ^ 63 - 1 <? n) with false by lia. done.
Qed.

Lemma require_u32_ok object field context n : require_u32 object field context = Ok n <->
  is_u32 n /\ bt_get field object = Some (CanonicalValue.String (u64_to_string n)).
Proof.
  unfold require_u32. rewrite bind_ok. setoid_rewrite require_decimal_ok. setoid_rewrite ok_or_ok.
  setoid_rewrite try_uint_some. unfold is_uint. split.
  - intros (m & [Hm Hs] & -> & H). done.
  - intros [Hn Hs]. exists n. split_and!; (done || lia).
Qed.

Lemma require_positive_ok object field context n : require_positive_u32 object field context = Ok n <->
  0 < n < 2 ^ 32 /\ bt_get field object = Some (CanonicalValue.String (u64_to_string n)).
Proof.
  unfold require_positive_u32. rewrite bind_ok. setoid_rewrite require_u32_ok. unfold is_uint. split.
  - intros (m & [Hm Hs] & E). inv_ok. bool_to_prop. split; [lia|done].
  - intros [Hn Hs]. exists n. split; [split; [lia|done]|]. replace (n =? 0) with false by lia. done.
Qed.

Lemma any_duplicate_iff seen keys : any_duplicate seen keys = false <-> NoDup keys /\ forall k, k ∈ keys -> k ∉ seen.
Proof.
  revert seen. induction keys as [|k keys IH]; intros seen; cbn [any_duplicate].
  - split; [|done]. intros _. split; [constructor|]. intros k Hk. by apply not_elem_of_nil in Hk.
  - rewrite orb_false_iff, bool_decide_eq_false, IH, NoDup_cons. setoid_rewrite elem_of_cons. split.
    + intros (H1 & H2 & H3). split_and!; [|done|].
      * intros Hk. apply (H3 k Hk). set_solver.
      * intros x [->|Hx]; [done|]. intros Hs. apply (H3 x Hx). set_solver.
    + intros ([H1 H2] & H3). split_and!; [by apply H3; left|done|]. intros x Hx.
      rewrite elem_of_union, elem_of_singleton. intros [->|Hs]; [done|]. apply (H3 x); [by right|done].
Qed.

Definition operation_id_of (operation : cvalue) : option string :=
  match operation with
  | CanonicalValue.Object object =>
    match bt_get "operation_id" object with Some (CanonicalValue.String id) => Some id | _ => None end
  | _ => None
  end.

Definition initializes `{HexCrate, SerdeJson, ToJson cvalue, FromJson Schema} (operation : cvalue) (table : Id) : Prop :=
  exists object value b schema,
    operation = CanonicalValue.Object object /\
    bt_get "type" object = Some (CanonicalValue.String "initialize_table") /\
    bt_get "table_id" object = Some (CanonicalValue.String (id_to_string table)) /\
    bt_get "target_ref" object = Some (CanonicalValue.String "main") /\
    bt_get "schema" object = Some value /\ to_vec value = Ok b /\ from_slice b = Ok schema /\ valid_schema schema.

(** A decimal string field below [2 ^ 63]. *)
Definition sqlite_field (object : fields) (field : string) : Prop :=
  exists n, 0 <= n < 2 ^ 63 /\ bt_get field object = Some (CanonicalValue.String (u64_to_string n)).

(** A file an append may add: a table-relative path, Parquet, unpartitioned, with
    the snapshot's schema and an authenticated content hash. *)
Definition profile_file `{HexCrate} (schema_id : Z) (file : cvalue) : Prop :=
  exists f uri u h,
    file = CanonicalValue.Object f /\
    bt_get "uri" f = Some (CanonicalValue.String uri) /\ relative_uri_from_str uri = Ok u /\
    bt_get "content_sha256" f = Some (CanonicalValue.String (sha256_to_string h)) /\ wf_sha h /\
    bt_get "file_format" f = Some (CanonicalValue.String "parquet") /\
    bt_get "schema_id" f = Some (CanonicalValue.String (u64_to_string schema_id)) /\
    bt_get "partition_values" f = Some (CanonicalValue.Object []) /\
    sqlite_field f "file_size_bytes" /\ sqlite_field f "record_count".

Definition append_only `{HexCrate} (operation : cvalue) : Prop :=
  exists object snapshot schema_id added,
    operation = CanonicalValue.Object object /\
    bt_get "snapshot" object = Some (CanonicalValue.Object snapshot) /\
    0 < schema_id < 2 ^ 32 /\ bt_get "schema_id" snapshot = Some (CanonicalValue.String (u64_to_string schema_id)) /\
    sqlite_field snapshot "sequence_number" /\
    bt_get "added_files" object = Some (CanonicalValue.Array added) /\
    (forall file, file ∈ added -> profile_file schema_id file) /\
    bt_get "removed_file_ids" object = Some (CanonicalValue.Array []).

Section accepted.
Context `{HexCrate, SerdeJson, ToJson cvalue, FromJson Schema}.

Lemma operation_ok genesis table_id st st' operation : validate_operation genesis table_id st operation = Ok st' ->
  exists id, operation_id_of operation = Some id /\ id <> EmptyString /\ id ∉ st.1 /\ st'.1 = {[id]} ∪ st.1 /\
    (forall object, operation = CanonicalValue.Object object ->
      bt_get "type" object = Some (CanonicalValue.String "initialize_table") ->
      genesis = true /\ validate_initialize_table object table_id = Ok tt).
Proof.
  unfold validate_operation. destruct st as [ids snapshots]. destruct operation as [| | | | |object]; try done.
  cbn [operation_id_of]. destruct (bt_get "operation_id" object) as [[| | |id| |]|]; try done. intros E.
  apply bind_reject in E as [Hid E]. apply orb_false_iff in Hid as [Hid1 Hid2]. apply str_len_zero in Hid1.
  apply bool_decide_eq_false in Hid2. exists id. split_and!; [done..| |].
  - destruct (bt_get "type" object) as [[]|]; try done. repeat case_match; inv_ok; done.
  - intros o [= <-] Et. rewrite Et in E. cbn in E. destruct genesis; [|done]. split; [done|].
    apply bind_unit in E as [E _]. by apply map_err_ok in E.
Qed.

Lemma operations_ok operations genesis table_id ids : validate_operations operations genesis table_id = Ok ids ->
  exists l, map operation_id_of operations = map Some l /\ NoDup l /\ (forall id, id ∈ ids <-> id ∈ l).
Proof.
  unfold validate_operations. intros E. apply bind_ok in E as ([ids' s] & E & [= <-]).
  enough (forall st st', try_fold (validate_operation genesis table_id) st operations = Ok st' ->
    exists l, map operation_id_of operations = map Some l /\ NoDup l /\ (forall id, id ∈ l -> id ∉ st.1) /\
      (forall id, id ∈ st'.1 <-> id ∈ st.1 \/ id ∈ l)) as Hgo.
  { apply Hgo in E as (l & H3 & H4 & _ & H5). exists l. split_and!; try done. intros id. rewrite (H5 id). cbn [fst].
    set_solver. }
  clear E. induction operations as [|o operations IH]; cbn [try_fold]; intros st st' E.
  - injection E as <-. exists []. split_and!; [done|constructor|set_solver..].
  - apply bind_ok in E as (st1 & E1 & E). apply operation_ok in E1 as (id & Hid & _ & Hn & Hst & _).
    apply IH in E as (l & H3 & H4 & H5 & H6). exists (id :: l). cbn [map]. rewrite Hid, H3.
    split_and!; [done| | |].
    + constructor; [|done]. intros Hin. specialize (H5 id Hin). rewrite Hst in H5. set_solver.
    + intros x Hx. apply elem_of_cons in Hx as [->|Hx]; [done|]. specialize (H5 x Hx). rewrite Hst in H5. set_solver.
    + intros x. rewrite (H6 x), Hst. set_solver.
Qed.

Lemma references_ok ids intents : forall r r', try_fold (validate_intent ids) r intents = Ok r' ->
  forall id, id ∈ r' <-> id ∈ r \/ exists i, i ∈ intents /\ id ∈ ir_operation_ids i.
Proof.
  assert (forall l r r', try_fold (validate_reference ids) r l = Ok r' -> forall id, id ∈ r' <-> id ∈ r \/ id ∈ l) as Hl.
  { induction l as [|x l IH]; cbn [try_fold]; intros r r' E id.
    - injection E as <-. set_solver.
    - apply bind_ok in E as (r1 & E1 & E). unfold validate_reference in E1. inv_ok. rewrite (IH _ _ E). set_solver. }
  induction intents as [|i intents IH]; cbn [try_fold]; intros r r' E id.
  - injection E as <-. set_solver.
  - apply bind_ok in E as (r1 & E1 & E). unfold validate_intent in E1. apply bind_reject in E1 as [_ E1].
    rewrite (IH _ _ E), (Hl _ _ _ E1). set_solver.
Qed.

Lemma initialize_ok object table : validate_initialize_table object table = Ok tt ->
  bt_get "type" object = Some (CanonicalValue.String "initialize_table") ->
  initializes (CanonicalValue.Object object) table.
Proof.
  unfold validate_initialize_table. intros E Ht. apply bind_ok in E as (? & _ & E). apply bind_ok in E as (id & Eid & E).
  apply bind_reject in E as [Hid E]. bool_to_prop. subst id. apply bind_ok in E as (value & Ev & E).
  apply bind_ok in E as (b & Eb & E). apply bind_ok in E as (schema & Es & E). apply bind_unit in E as [Hs E].
  apply bind_ok in E as (? & _ & E). apply bind_reject in E as [_ E]. apply bind_ok in E as (? & _ & E).
  apply bind_reject in E as [_ E]. apply bind_ok in E as (target & Etarget & E). apply reject_ok, negb_false_iff, String.eqb_eq in E.
  subst target. apply require_string_ok in Etarget as [Etarget _]. apply ok_or_ok in Ev.
  unfold parse_id in Eid. apply bind_ok in Eid as (s & Es' & Eid). apply require_string_ok in Es' as [Es' _].
  apply id_text_iff in Eid as [_ <-]. exists object, value, b, schema. split_and!; try done. by apply validate_schema_iff.
Qed.
End accepted.

Section accepted_append.
Context `{HexCrate, SerdeJson, ToJson cvalue, FromJson Schema}.

Lemma sqlite_field_ok object field context n : require_sqlite_i64 object field context = Ok n -> sqlite_field object field.
Proof. intros [Hn Hs]%require_sqlite_ok. by exists n. Qed.

Lemma profile_file_ok f schema_id : validate_runtime_profile_added_file f schema_id = Ok tt ->
  profile_file schema_id (CanonicalValue.Object f).
Proof.
  unfold validate_runtime_profile_added_file. intros E. apply bind_ok in E as (? & _ & E).
  apply bind_ok in E as (uri & Euri & E). apply bind_ok in E as (u & Eu & E). cbn zeta in E.
  apply bind_reject in E as [_ E]. apply bind_ok in E as (format & Ef & E). apply bind_reject in E as [Hf E].
  apply bind_ok in E as (sid & Esid & E). apply bind_reject in E as [Hsid E].
  apply bind_ok in E as (? & _ & E). apply bind_reject in E as [_ E]. apply bind_ok in E as (? & _ & E).
  apply bind_reject in E as [_ E]. apply bind_reject in E as [Hp E]. apply bind_reject in E as [_ E].
  apply bind_ok in E as (size & Esize & E). apply bind_ok in E as (records & Erecords & E).
  apply bind_ok in E as (content & Econtent & E). apply bind_ok in E as (h & Eh & _).
  apply require_string_ok in Euri as [Euri _]. apply require_string_ok in Ef as [Ef _].
  apply require_string_ok in Econtent as [Econtent _]. apply sha_text_iff in Eh as [Hw Eh].
  apply negb_false_iff, String.eqb_eq in Hf. bool_to_prop. subst. apply require_positive_ok in Esid as [_ Esid].
  exists f, uri, u, h. split_and!; try done; by eapply sqlite_field_ok.
Qed.

Lemma append_profile_ok object : validate_append_profile object = Ok tt -> append_only (CanonicalValue.Object object).
Proof.
  unfold validate_append_profile. intros E. apply bind_ok in E as (? & _ & E). cbn zeta in E.
  apply bind_ok in E as (? & _ & E). apply bind_reject in E as [_ E]. apply bind_reject in E as [_ E].
  destruct (bt_get "snapshot" object) as [[| | | | |snapshot]|] eqn:Es; try done.
  apply bind_ok in E as (? & _ & E). apply bind_reject in E as [_ E]. apply bind_ok in E as (? & _ & E).
  apply bind_reject in E as [_ E]. apply bind_ok in E as (? & _ & E). apply bind_reject in E as [_ E].
  apply bind_ok in E as (sid & Esid & E). apply bind_ok in E as (seq & Eseq & E).
  destruct (bt_get "added_files" object) as [[| | | |added|]|] eqn:Ea; try done.
  apply bind_unit in E as [Ef E]. apply reject_ok in E. bool_to_prop.
  apply map_err_ok, require_positive_ok in Esid as [[Hsid1 Hsid2] Esid]. apply map_err_ok, sqlite_field_ok in Eseq.
  exists object, snapshot, sid, added. split_and!; try done. intros file Hin.
  pose proof (proj1 (check_all (fun file => match file with
    | CanonicalValue.Object file => lift (validate_runtime_profile_added_file file sid) | _ => Err Panicked end) added tt) Ef file Hin)
    as Hfile. destruct file; try done. apply map_err_ok in Hfile. by apply profile_file_ok.
Qed.

Lemma snapshots_count operations : forall n m, try_fold profile_operation n operations = Ok m ->
  n <= m /\ forall o object, o ∈ operations -> kind_of o = Ok (object, "commit_snapshot") ->
    n < m /\ validate_append_profile object = Ok tt.
Proof.
  induction operations as [|o operations IH]; cbn [try_fold]; intros n m E.
  - injection E as <-. split; [lia|]. intros o object Ho. by apply not_elem_of_nil in Ho.
  - apply bind_ok in E as (k & Ek & E). apply IH in E as [Hle Hall]. unfold profile_operation in Ek.
    apply bind_ok in Ek as ([object kind] & Eo & Ek). cbn beta iota in Ek.
    destruct (String.eqb_spec kind "commit_snapshot") as [->|Hk].
    + apply bind_unit in Ek as [Ea [= <-]]. split; [lia|]. intros o' object' [->|Hin]%elem_of_cons Ho'.
      * rewrite Eo in Ho'. injection Ho' as ->. split; [lia|done].
      * destruct (Hall _ _ Hin Ho'). split; [lia|done].
    + destruct (one_of _ kind); [|done]. injection Ek as <-. split; [lia|]. intros o' object' [->|Hin]%elem_of_cons Ho'.
      * rewrite Eo in Ho'. injection Ho' as -> ->. done.
      * by apply (Hall o').
Qed.
End accepted_append.

(** ** Examples *)

Definition example_id : string := "01a08e1b-5160-7b43-9d92-27659b3b9e73".
Definition example_sha : string := "sha256:0000000000000000000000000000000000000000000000000000000000000007".
Definition str (s : string) : cvalue := CanonicalValue.String s.
Definition obj (l : list (string * cvalue)) : cvalue := CanonicalValue.Object (bt_of_list l).

#[local] Instance example_hex : HexCrate := hex_reference.
#[local] Instance example_serde : SerdeJson := json_reference [] JUnit.
#[local] Instance example_to_json : ToJson cvalue := {| serde_to_vec _ := Err "not serialized" |}.
#[local] Instance example_from_json : FromJson Schema := {| serde_from_slice _ := Err "not parsed" |}.

Definition example_reference : ObjectReference :=
  {| or_uri := MkUri "_otmp/commits/0/a.json"; or_sha256 := MkSha256 []; or_length := None;
     or_media_type := Some COMMIT_MEDIA_TYPE |}.

(** The second commit of a table, with one operation and an intent for it. *)
Definition example_commit (operation : cvalue) : SemanticCommit :=
  {| sc_kind := "otmp.semantic-commit"; sc_format_version := 1; sc_table_id := MkId []; sc_table_version := 1;
     sc_parent_table_version := Some 0; sc_commit_id := MkId []; sc_parent_commit := Some example_reference;
     sc_created_at_ms := 0;
     sc_intents := [{| ir_key := "k"; ir_intent_sha256 := MkSha256 []; ir_operation_ids := ["op"];
                       ir_result := CanonicalValue.Null |}];
     sc_requirements := [obj [("type", str "ref_absent"); ("ref", str "b")]];
     sc_operations := [operation];
     sc_required_reader_features_after_commit := MkFeatures []; sc_required_writer_features_after_commit := MkFeatures [];
     sc_previous_semantic_state_sha256 := None; sc_semantic_state_sha256 := MkSha256 [];
     sc_metadata := CanonicalValue.Object [] |}.

Definition example_file : cvalue :=
  obj [("file_id", str example_id); ("uri", str "data/f.parquet"); ("object_identity", CanonicalValue.Null);
       ("file_format", str "parquet"); ("file_size_bytes", str "1024"); ("record_count", str "10");
       ("schema_id", str "1"); ("partition_spec_id", str "0"); ("sort_order_id", str "0");
       ("content_sha256", str example_sha); ("partition_values", obj []); ("metrics", CanonicalValue.Array []);
       ("metadata", obj [])].

Definition example_append : cvalue :=
  obj [("operation_id", str "op"); ("type", str "commit_snapshot"); ("target_ref", str "main");
       ("snapshot", obj [("snapshot_id", str example_id); ("parent_snapshot_id", CanonicalValue.Null);
          ("sequence_number", str "1"); ("schema_id", str "1"); ("partition_spec_id", str "0");
          ("sort_order_id", str "0"); ("operation", str "append"); ("summary", obj []); ("metadata", obj [])]);
       ("added_files", CanonicalValue.Array [example_file]); ("removed_file_ids", CanonicalValue.Array []);
       ("scan_projection", CanonicalValue.Null); ("rebase_mode", str "append-safe")].

Definition example_drop : cvalue := obj [("operation_id", str "op"); ("type", str "drop_ref"); ("ref", str "b")].

(** A commit that names no parent commit and no previous state hash is accepted
    at a version above 0, as long as it names a parent version. *)
Lemma orphan_commit_accepted :
  validate_commit {|
    sc_kind := "otmp.semantic-commit"; sc_format_version := 1; sc_table_id := MkId []; sc_table_version := 5;
    sc_parent_table_version := Some 4; sc_commit_id := MkId []; sc_parent_commit := None; sc_created_at_ms := 0;
    sc_intents := sc_intents (example_commit example_drop); sc_requirements := []; sc_operations := [example_drop];
    sc_required_reader_features_after_commit := MkFeatures []; sc_required_writer_features_after_commit := MkFeatures [];
    sc_previous_semantic_state_sha256 := None; sc_semantic_state_sha256 := MkSha256 [];
    sc_metadata := CanonicalValue.Object [] |} = Ok tt.
Proof. vm_compute. reflexivity. Qed.

(** ** Properties *)

(** C25: an accepted commit carries a well-formed transaction: distinct idempotency
    keys, distinct operation identifiers that are exactly those its intents
    reference; at version 0 no parent and one operation, which initializes this
    table with a valid schema and branch main; above, a parent of the version
    before. *)
Theorem validate_commit_sound `{HexCrate, SerdeJson, ToJson cvalue, FromJson Schema} (c : SemanticCommit)
    (Hv : validate_commit c = Ok tt) :
  NoDup (map ir_key (sc_intents c)) /\
  (exists ids, map operation_id_of (sc_operations c) = map Some ids /\ NoDup ids /\
    forall id, id ∈ ids <-> exists i, i ∈ sc_intents c /\ id ∈ ir_operation_ids i) /\
  (sc_table_version c = 0 ->
    sc_parent_table_version c = None /\ sc_parent_commit c = None /\ sc_previous_semantic_state_sha256 c = None /\
    exists operation, sc_operations c = [operation] /\ initializes operation (sc_table_id c)) /\
  (sc_table_version c <> 0 -> sc_parent_table_version c = Some (sc_table_version c - 1)).
Proof.
  unfold validate_commit in Hv. apply bind_reject in Hv as [_ Hv]. cbn zeta in Hv.
  apply bind_reject in Hv as [Hp Hv]. apply bind_reject in Hv as [Hn Hv]. apply bind_reject in Hv as [_ Hv].
  apply bind_reject in Hv as [_ Hv]. apply bind_reject in Hv as [_ Hv]. apply bind_reject in Hv as [Hk Hv].
  apply bind_ok in Hv as (? & _ & Hv). apply bind_ok in Hv as (ids & Ho & Hv). apply bind_ok in Hv as (r & Hr & Hv).
  apply bind_reject in Hv as [Heq Hv]. apply any_duplicate_iff in Hk as [Hk _]. split; [done|].
  pose proof (references_ok _ _ _ _ Hr) as Href. apply negb_false_iff, bool_decide_eq_true in Heq. subst r.
  split; [|split].
  - apply operations_ok in Ho as (l & H3 & H4 & H5). exists l. split_and!; try done. intros id.
    rewrite <- (H5 id), Href. set_solver.
  - intros Hz. rewrite Hz in *. cbn [Z.eqb] in *. apply negb_false_iff, eqb_prop in Hp. symmetry in Hp. bool_to_prop.
    split_and!; try done. apply reject_ok, negb_false_iff in Hv.
    destruct (sc_operations c) as [|[| | | | |object] [|]] eqn:Eo; try done. apply bool_decide_eq_true in Hv.
    exists (CanonicalValue.Object object). split; [done|]. unfold validate_operations in Ho. cbn [try_fold] in Ho.
    apply bind_ok in Ho as (st & Ho & _). apply bind_ok in Ho as (st1 & Ho & _).
    apply operation_ok in Ho as (_ & _ & _ & _ & _ & Hi). destruct (Hi _ eq_refl Hv) as [_ Hi']. by apply initialize_ok.
  - intros Hz. replace (sc_table_version c =? 0) with false in * by lia. cbn [negb andb] in Hn.
    apply negb_false_iff, bool_decide_eq_true in Hn. destruct (sc_parent_table_version c) as [v|]; [|done].
    cbn in Hn. apply try_uint_some in Hn as [-> _]. f_equal. lia.
Qed.

Lemma validate_commit_sound_witness :
  let c := example_commit example_drop in
  NoDup (map ir_key (sc_intents c)) /\
  (exists ids, map operation_id_of (sc_operations c) = map Some ids /\ NoDup ids /\
    forall id, id ∈ ids <-> exists i, i ∈ sc_intents c /\ id ∈ ir_operation_ids i) /\
  (sc_table_version c = 0 ->
    sc_parent_table_version c = None /\ sc_parent_commit c = None /\ sc_previous_semantic_state_sha256 c = None /\
    exists operation, sc_operations c = [operation] /\ initializes operation (sc_table_id c)) /\
  (sc_table_version c <> 0 -> sc_parent_table_version c = Some (sc_table_version c - 1)).
Proof. apply (validate_commit_sound (example_commit example_drop)). vm_compute. reflexivity. Defined.

(** the runtime profile admits one append or none: a commit it accepts that
    has a snapshot operation has nothing else; that operation removes no file and
    adds only Parquet files at relative paths, with the snapshot's schema, an
    authenticated content hash and sizes that fit a signed 64-bit column. *)
Theorem runtime_profile_append `{HexCrate, SerdeJson, ToJson cvalue, FromJson Schema} (c : SemanticCommit)
    (operation : cvalue) (object : list (string * cvalue))
    (Hv : validate_runtime_profile c = Ok tt) (Hin : operation ∈ sc_operations c)
    (Hk : kind_of operation = Ok (object, "commit_snapshot")) :
  sc_operations c = [operation] /\ append_only operation.
Proof.
  unfold validate_runtime_profile in Hv. apply bind_ok in Hv as (? & _ & Hv). apply bind_ok in Hv as (n & Hn & Hv).
  apply bind_reject in Hv as [Hc _]. apply snapshots_count in Hn as [_ Hall]. destruct (Hall _ _ Hin Hk) as [Hn Ha].
  apply orb_false_iff in Hc as [H3 H4]. apply Z.ltb_ge in H3. replace (n =? 1) with true in H4 by lia.
  cbn [andb] in H4. apply negb_false_iff, Z.eqb_eq in H4. unfold len in H4.
  destruct (sc_operations c) as [|o [|]]; cbn [length] in H4; try lia. apply list_elem_of_singleton in Hin as ->.
  split; [done|]. destruct o as [| | | | |fs]; try done. cbn [kind_of] in Hk. destruct (bt_get "type" fs) as [[]|]; try done.
  injection Hk as -> ->. by apply append_profile_ok.
Qed.

Lemma runtime_profile_append_witness :
  sc_operations (example_commit example_append) = [example_append] /\ append_only example_append.
Proof.
  assert (exists object, kind_of example_append = Ok (object, "commit_snapshot")) as [object Hk] by by eexists.
  apply (runtime_profile_append (example_commit example_append) example_append object);
    [vm_compute; reflexivity|apply list_elem_of_singleton; reflexivity|exact Hk].
Defined.

(** C37: validating a commit, or its runtime profile, returns a result on every
    input: no indexing of a missing key and no case taken for unreachable is
    reached. *)
Theorem validation_never_panics `{HexCrate, SerdeJson, ToJson cvalue, FromJson Schema} (c : SemanticCommit) :
  validate_commit c <> Err Panicked /\ validate_runtime_profile c <> Err Panicked.
Proof. split; [apply commit_calm|apply runtime_profile_calm]. Qed.

(** C36: a generation accepted with a page index binds the checkpoint's geometry:
    the image has 4096-byte pages, the index's pages are exactly those that lie
    in the checkpoint's bytes, and the checkpoint is not newer than the
    generation. *)
Theorem checkpoint_index_geometry (g : Generation) (index : CheckpointPageIndex)
    (Hg : validate_generation g = Ok tt) (Hi : mi_checkpoint_page_index (g_metadata_image g) = Some index) :
  let checkpoint := mi_checkpoint (g_metadata_image g) in
  mi_page_size (g_metadata_image g) = 4096 /\ ck_table_version checkpoint <= g_table_version g /\
  ci_checkpoint_sha256 index = ck_sha256 checkpoint /\
  ck_length checkpoint < 2 ^ 64 /\ ci_page_count index * 4096 = ck_length checkpoint /\
  forall page, 0 <= page -> (page < ci_page_count index <-> (page + 1) * 4096 <= ck_length checkpoint).
Proof.
  unfold validate_generation in Hg. cbn zeta in *. apply bind_reject in Hg as [Hc Hg]. rewrite Hi in Hg.
  unfold validate_page_index in Hg. apply bind_ok in Hg as (l & Hl & Hg). apply ok_or_ok, try_uint_some in Hl as [-> Hl].
  unfold is_uint in Hl. apply reject_ok in Hg. bool_to_prop.
  split_and!; try (done || lia).
Qed.

Definition example_generation (index : CheckpointPageIndex) : Generation :=
  {| g_kind := "otmp.metadata-generation"; g_format_version := 1; g_table_id := MkId []; g_table_version := 3;
     g_generation_id := MkId []; g_created_at_ms := 0; g_semantic_state_sha256 := MkSha256 [];
     g_semantic_commit := example_reference; g_physical_parent := None;
     g_metadata_image :=
       {| mi_codec := "otmp.metadata.sqlite3-cow.v1"; mi_page_size := 4096; mi_page_count := 2;
          mi_checkpoint := {| ck_table_version := 3; ck_uri := MkUri "c"; ck_sha256 := MkSha256 []; ck_length := 8192 |};
          mi_page_map := None; mi_checkpoint_page_index := Some index; mi_image_root_sha256 := MkSha256 [] |};
     g_scan_projection := None; g_metadata := [] |}.
Definition example_index : CheckpointPageIndex :=
  {| ci_checkpoint_sha256 := MkSha256 []; ci_checkpoint_length := 8192; ci_page_size := 4096; ci_page_count := 2;
     ci_root := MkRoot (MkUri "i") (MkSha256 []) 100 0 |}.

Lemma checkpoint_index_geometry_witness :
  4096 = 4096 /\ 3 <= 3 /\ MkSha256 [] = MkSha256 [] /\ 8192 < 2 ^ 64 /\ 2 * 4096 = 8192 /\
  forall page, 0 <= page -> (page < 2 <-> (page + 1) * 4096 <= 8192).
Proof. apply (checkpoint_index_geometry (example_generation example_index) example_index); vm_compute; reflexivity. Defined.
