(* ===== verification/CheckpointBuild.v ===== *)
(** The page index of a checkpoint: building it (otmp/src/checkpoint_index.rs) and
    verifying it against the checkpoint (otmp/src/physical.rs,
    [verify_checkpoint_index]). *)
From S2P Require Import Prelude Bytes Errors Values Scalars Cbor PageMap CheckpointIndex PagePack Hashes PageTree PagePersist Objects.

Definition CHECKPOINT_PAGE_INDEX_MEDIA_TYPE : string := "application/vnd.otmp.checkpoint-page-index+cbor".

(** ** Building *)

Section build.
Context `{HexCrate, Sha2Crate}.

Definition index_uri : Sha256 -> presult RelativeUri := content_uri "_otmp/checkpoint-page-index/" ".cbor".

Definition reference (b : bytes) : rresult (PageObjectReference * Artifact) :=
  let sha256 := object_hash b in
  uri ← of_protocol (index_uri sha256);
  Ok (MkRef uri sha256 (len b), MkArtifact uri b).

(** An element of [current]: first page, page count and reference of a subtree. *)
Record Indexed := MkIndexed { x_first_page : Z; x_page_count : Z; x_reference : PageObjectReference }.

(** The end of both loop bodies: encode the node and push it. *)
Definition push_node (st : list Indexed * list Artifact) (node : index_node) : rresult (list Indexed * list Artifact) :=
  encoded ← of_protocol (encode_checkpoint_index node);
  '(r, artifact) ← reference encoded;
  Ok (st.1 ++ [MkIndexed (CheckpointIndexNode.first_page node) (CheckpointIndexNode.page_count node) r], st.2 ++ [artifact]).

Definition leaf_of (page_size : Z) (chunk : Z * bytes) : index_node :=
  CheckpointIndexNode.Leaf (chunk.1 * CHECKPOINT_INDEX_CAPACITY + 1) (map digest (chunks (Z.to_nat page_size) chunk.2)).

Definition child_of (x : Indexed) : CheckpointIndexChild := MkChild (x_first_page x) (x_page_count x) (x_reference x).
Definition parent_of (height : Z) (group : list Indexed) : index_node :=
  CheckpointIndexNode.Internal height (map child_of group).

(** [while current.len() > 1]; the fuel is the number of leaves. *)
Fixpoint grow_index (fuel : nat) (current : list Indexed) (height : Z) (artifacts : list Artifact)
  : rresult (list Indexed * Z * list Artifact) :=
  if len current <=? 1 then Ok (current, height, artifacts) else
  match fuel with
  | O => Err (corrupt "out of fuel")
  | S fuel =>
    let height := height + 1 in
    '(next, artifacts) ←
      try_fold push_node ([], artifacts) (map (parent_of height) (chunks (Z.to_nat CHECKPOINT_INDEX_CAPACITY) current));
    grow_index fuel next height artifacts
  end.

Definition build_index (checkpoint : Checkpoint) (page_size : Z) (b : bytes)
  : rresult (CheckpointPageIndex * list Artifact) :=
  _ ← reject ((page_size =? 0) || (len b =? 0) || negb (len b mod page_size =? 0)
              || negb (bool_decide (object_hash b = ck_sha256 checkpoint)) || negb (len b =? ck_length checkpoint))
        (corrupt "invalid checkpoint bytes for page index");
  let page_count := len b / page_size in
  leaf_bytes ← ok_or (checked_mul 64 page_size CHECKPOINT_INDEX_CAPACITY) (corrupt "checkpoint index leaf size overflow");
  '(current, artifacts) ←
    try_fold push_node ([], []) (map (leaf_of page_size) (enumerate (chunks (Z.to_nat leaf_bytes) b)));
  '(current, height, artifacts) ← grow_index (length current) current 0 artifacts;
  root ← ok_or (last current) (corrupt "empty checkpoint page index");
  _ ← reject (negb (x_page_count root =? page_count)) (corrupt "checkpoint page index coverage mismatch");
  let r := x_reference root in
  let index := {| ci_checkpoint_sha256 := ck_sha256 checkpoint; ci_checkpoint_length := ck_length checkpoint;
                  ci_page_size := page_size; ci_page_count := page_count;
                  ci_root := MkRoot (ref_uri r) (ref_sha256 r) (ref_length r) height |} in
  _ ← of_protocol (validate_page_index index checkpoint page_size);
  Ok (index, artifacts).
End build.

(** ** Verifying *)

Definition object (r : PageObjectReference) (media_type : string) : ObjectReference :=
  {| or_uri := ref_uri r; or_sha256 := ref_sha256 r; or_length := Some (ref_length r); or_media_type := Some media_type |}.

Section verify.
Context `{Sha2Crate}.
(** [Table::read_metadata]: the bytes of the object. *)
Context (read_metadata : ObjectReference -> rresult bytes).
Context (page_size : Z) (checkpoint : bytes).

Definition verify_page (first_page : Z) (indexed : Z * Sha256) : rresult unit :=
  let '(offset, hash) := indexed in
  page ← ok_or (checked_add 64 first_page offset) (corrupt "checkpoint-index page overflow");
  start ← ok_or (checked_mul 64 (page - 1) page_size) (corrupt "checkpoint-index byte offset overflow");
  stop ← ok_or (checked_add 64 start page_size) (corrupt "checkpoint-index byte range overflow");
  reject (match slice checkpoint start stop with
          | Some b => negb (bool_decide (digest b = hash))
          | None => true
          end) (corrupt "checkpoint page disagrees with authenticated index").

(** The loop over the children, in order. *)
Definition verify_children (verify : PageObjectReference -> Z -> Z -> gset string -> rresult (gset string))
  : list CheckpointIndexChild -> gset string -> rresult (gset string) :=
  fix go entries seen :=
    match entries with
    | [] => Ok seen
    | e :: entries => seen ← verify (c_child e) (c_first_page e) (c_page_count e) seen; go entries seen
    end.

(** [depth] bounds the recursion: a level above 64 is refused and each child is one
    level lower, so 65 is enough. *)
Fixpoint verify_checkpoint_index_node (depth : nat) (r : PageObjectReference) (level first_page page_count : Z)
    (seen : gset string) : rresult (gset string) :=
  match depth with
  | O => Err (corrupt "invalid checkpoint-index height, cycle, repeated subtree, or size")
  | S depth =>
    let key := uri_str (ref_uri r) in
    _ ← reject ((64 <? level) || bool_decide (key ∈ seen) || (MAX_CHECKPOINT_INDEX_BYTES <? ref_length r))
          (corrupt "invalid checkpoint-index height, cycle, repeated subtree, or size");
    let seen := {[ key ]} ∪ seen in
    raw ← read_metadata (object r CHECKPOINT_PAGE_INDEX_MEDIA_TYPE);
    node ← of_protocol (decode_checkpoint_index raw);
    _ ← reject (negb (CheckpointIndexNode.level node =? level) || negb (CheckpointIndexNode.first_page node =? first_page)
                || negb (CheckpointIndexNode.page_count node =? page_count))
          (corrupt "checkpoint-index node does not match declared interval");
    match node with
    | CheckpointIndexNode.Leaf first_page hashes =>
      _ ← try_fold (fun _ => verify_page first_page) tt (enumerate hashes); Ok seen
    | CheckpointIndexNode.Internal _ entries =>
      verify_children (fun r first count seen => verify_checkpoint_index_node depth r (level - 1) first count seen) entries seen
    end
  end.
End verify.

Definition verify_checkpoint_index `{Sha2Crate} (read_metadata : ObjectReference -> rresult bytes)
    (image : MetadataImage) (checkpoint : bytes) : rresult unit :=
  match mi_checkpoint_page_index image with
  | None => Ok tt
  | Some index =>
    _ ← of_protocol (validate_page_index index (mi_checkpoint image) (mi_page_size image));
    _ ← verify_checkpoint_index_node read_metadata (mi_page_size image) checkpoint 65
          (root_reference (ci_root index)) (root_height (ci_root index)) 1 (ci_page_count index) ∅;
    Ok tt
  end.

(** ** An accepted index authenticates every page *)

Lemma enumerate_lookup {A} (l : list A) j : enumerate l !! j = (fun a => (Z.of_nat j, a)) <$> l !! j.
Proof.
  unfold enumerate. rewrite lookup_zip_with. destruct (l !! j) as [a|] eqn:E.
  - rewrite lookup_seqZ_lt; [cbn; do 2 f_equal; lia|]. apply lookup_lt_Some in E. unfold len. lia.
  - cbn. by destruct (seqZ 0 (len l) !! j).
Qed.

Lemma decoded_index raw n : decode_checkpoint_index raw = Ok n -> wf_index_node n /\ index_node_inv n.
Proof.
  intros [Hw (Hv & _)%encode_checkpoint_index_ok]%decode_checkpoint_index_ok. split; [done|]. by apply validate_index_iff.
Qed.

Section authentic.
Context `{Sha2Crate} (page_size : Z) (b : bytes).

(** Page [p] of the checkpoint, from 1 on. *)
Definition page_at (p : Z) : option bytes := slice b ((p - 1) * page_size) (p * page_size).

(** The hashes are those of the pages from [first] on. *)
Definition authenticates (first : Z) (hashes : list Sha256) : Prop :=
  forall j h, hashes !! j = Some h -> exists page, page_at (first + Z.of_nat j) = Some page /\ digest page = h.

Lemma verify_page_ok first offset h :
  verify_page page_size b first (offset, h) = Ok tt ->
  exists page, page_at (first + offset) = Some page /\ digest page = h.
Proof.
  unfold verify_page. intros E. apply bind_ok in E as (p & Hp & E). apply ok_or_ok, try_uint_some in Hp as [-> _].
  apply bind_ok in E as (s & Hs & E). apply ok_or_ok, try_uint_some in Hs as [-> _].
  apply bind_ok in E as (e & He & E). apply ok_or_ok, try_uint_some in He as [-> _].
  apply reject_ok in E. unfold page_at. replace ((first + offset) * page_size) with ((first + offset - 1) * page_size + page_size) by lia.
  destruct (slice b _ _) as [page|]; [|done]. bool_to_prop. by exists page.
Qed.

Context (read_metadata : ObjectReference -> rresult bytes).

(** What the store holds under a reference is a tree of index nodes over an interval
    of pages, with these page hashes in its leaves. *)
Inductive covers : PageObjectReference -> Z -> Z -> Z -> list Sha256 -> Prop :=
| covers_leaf r raw first hashes :
    read_metadata (object r CHECKPOINT_PAGE_INDEX_MEDIA_TYPE) = Ok raw ->
    decode_checkpoint_index raw = Ok (CheckpointIndexNode.Leaf first hashes) ->
    covers r 0 first (len hashes) hashes
| covers_internal r raw level entries parts :
    read_metadata (object r CHECKPOINT_PAGE_INDEX_MEDIA_TYPE) = Ok raw ->
    decode_checkpoint_index raw = Ok (CheckpointIndexNode.Internal level entries) ->
    Forall2 (fun e hs => covers (c_child e) (level - 1) (c_first_page e) (c_page_count e) hs) entries parts ->
    covers r level (CheckpointIndexNode.first_page (CheckpointIndexNode.Internal level entries)) (page_sum entries)
      (concat parts).

Lemma authenticates_app first hs1 hs2 :
  authenticates first hs1 -> authenticates (first + len hs1) hs2 -> authenticates first (hs1 ++ hs2).
Proof.
  intros H1 H2 j h Hj. apply lookup_app_Some in Hj as [Hj|[Hl Hj]]; [by apply H1|].
  destruct (H2 _ _ Hj) as (page & Hp & Hd). exists page. split; [|done]. rewrite <- Hp. f_equal. unfold len. lia.
Qed.

Lemma verify_children_sound verify level entries : forall first seen seen',
  (forall r first count seen seen', verify r first count seen = Ok seen' ->
     exists hs, covers r level first count hs /\ len hs = count /\ authenticates first hs) ->
  adjacent first entries -> verify_children verify entries seen = Ok seen' ->
  exists parts, Forall2 (fun e hs => covers (c_child e) level (c_first_page e) (c_page_count e) hs) entries parts /\
    len (concat parts) = page_sum entries /\ authenticates first (concat parts).
Proof.
  induction entries as [|e entries IH]; intros first seen seen' Hv Ha E; cbn [verify_children adjacent] in *.
  - exists []. split; [constructor|]. split; [done|]. intros j h Hj. done.
  - destruct Ha as (<- & Hpos & Ha). apply bind_ok in E as (s1 & E1 & E). apply Hv in E1 as (hs & Hc & Hl & Hau).
    destruct (IH _ _ _ Hv Ha E) as (parts & Hf & Hlp & Hap). exists (hs :: parts). split; [by constructor|].
    cbn [concat]. rewrite len_app, Hlp, Hl. split; [done|]. apply authenticates_app; [done|]. by rewrite Hl.
Qed.

Lemma verify_node_sound depth : forall r level first count seen seen',
  verify_checkpoint_index_node read_metadata page_size b depth r level first count seen = Ok seen' ->
  exists hs, covers r level first count hs /\ len hs = count /\ authenticates first hs.
Proof.
  induction depth as [|depth IH]; intros r level first count seen seen' E; cbn [verify_checkpoint_index_node] in E; [done|].
  apply bind_reject in E as [_ E]. apply bind_ok in E as (raw & Hraw & E). apply bind_ok in E as (node & Hn & E).
  unfold of_protocol in Hn. apply map_err_ok in Hn. apply bind_reject in E as [Hm E]. bool_to_prop. subst.
  destruct node as [p hs|l es]; cbn [CheckpointIndexNode.level CheckpointIndexNode.first_page CheckpointIndexNode.page_count] in *.
  - apply bind_ok in E as ([] & Hp & _). exists hs. split; [by eapply covers_leaf|]. split; [done|].
    intros j h Hj. apply verify_page_ok. apply (proj1 (check_all (verify_page page_size b p) _ tt) Hp).
    apply (list_elem_of_lookup_2 _ j). by rewrite enumerate_lookup, Hj.
  - destruct (decoded_index _ _ Hn) as (_ & _ & _ & _ & Ha & _ & _). cbn [CheckpointIndexNode.first_page] in Ha.
    destruct (verify_children_sound _ (l - 1) es _ _ _ (fun r f c s s' Hv => IH r (l - 1) f c s s' Hv) Ha E) as (parts & Hf & Hl & Hau).
    exists (concat parts). split; [|done]. by eapply (covers_internal r raw l es parts).
Qed.
End authentic.

(** ** Building succeeds *)

Section naming.
Context `{HexCrate, Sha2Crate}.

Lemma index_uri_some h : wf_sha h ->
  index_uri h = Ok (MkUri ("_otmp/checkpoint-page-index/" +:+ hex_encode (sha_bytes h) +:+ ".cbor")).
Proof.
  intros Hh. apply content_uri_some; try done.
  exists [as_bytes "_otmp"; as_bytes "checkpoint-page-index"]. split; [intros x|]; reflexivity.
Qed.

(** The reference and the artifact of a node. *)
Definition index_reference (n : index_node) : PageObjectReference :=
  let b := checkpoint_index_bytes n in
  MkRef (MkUri ("_otmp/checkpoint-page-index/" +:+ hex_encode (sha_bytes (digest b)) +:+ ".cbor")) (digest b) (len b).
Definition node_artifact (n : index_node) : Artifact := MkArtifact (ref_uri (index_reference n)) (checkpoint_index_bytes n).
Definition indexed (n : index_node) : Indexed :=
  MkIndexed (CheckpointIndexNode.first_page n) (CheckpointIndexNode.page_count n) (index_reference n).

(** A node that has an encoding. *)
Definition encodable (n : index_node) : Prop :=
  wf_index_node n /\ index_node_inv n /\ len (checkpoint_index_bytes n) <= MAX_CHECKPOINT_INDEX_BYTES.

Lemma encodable_decode n : encodable n -> decode_checkpoint_index (checkpoint_index_bytes n) = Ok n.
Proof.
  intros (Hw & Hi & Hl). apply decode_checkpoint_index_ok. split; [done|]. apply encode_checkpoint_index_ok.
  split; [by apply validate_index_iff|done].
Qed.

Lemma push_node_ok st n : encodable n -> push_node st n = Ok (st.1 ++ [indexed n], st.2 ++ [node_artifact n]).
Proof.
  intros (Hw & Hi & Hl). unfold push_node.
  assert (encode_checkpoint_index n = Ok (checkpoint_index_bytes n)) as ->.
  { apply encode_checkpoint_index_ok. split; [by apply validate_index_iff|done]. }
  cbn [of_protocol map_err mbind result_bind]. unfold reference, object_hash. by rewrite index_uri_some by apply wf_digest.
Qed.

Lemma push_nodes ns : forall current artifacts, Forall encodable ns ->
  try_fold push_node (current, artifacts) ns = Ok (current ++ map indexed ns, artifacts ++ map node_artifact ns).
Proof.
  induction ns as [|n ns IH]; intros current artifacts Hn; cbn [try_fold map]; [by rewrite !app_nil_r|].
  apply Forall_cons in Hn as [Hn Hns]. rewrite push_node_ok by done. cbn [mbind result_bind fst snd].
  rewrite IH by done. by rewrite <- !app_assoc.
Qed.

Lemma node_uri_len n : str_len (uri_str (ref_uri (index_reference n))) = 97.
Proof.
  cbn [index_reference ref_uri uri_str]. unfold str_len. rewrite !as_bytes_app, !len_app.
  pose proof (wf_digest (checkpoint_index_bytes n)) as Hd. unfold wf_sha in Hd.
  assert (len (as_bytes (hex_encode (sha_bytes (digest (checkpoint_index_bytes n))))) = 64) as ->.
  { unfold len. rewrite hex_encode_length. lia. }
  reflexivity.
Qed.

Lemma hex_ascii l : forallb is_lower_hex l = true -> forallb (byte_in 0 0x7F) l = true.
Proof.
  rewrite !forallb_forall. intros Hl b Hb%Hl. unfold is_lower_hex, byte_in in *. lia.
Qed.

Lemma index_reference_wf n : encodable n -> wf_ref (index_reference n).
Proof.
  intros (_ & _ & Hl). pose proof (node_uri_len n) as Hu. pose proof (wf_digest (checkpoint_index_bytes n)) as Hd.
  pose proof (index_uri_some _ Hd) as E. split; [|split; [done|]].
  - unfold index_uri, content_uri in E. split; [|split; [|lia]].
    + cbn [index_reference ref_uri uri_str]. exact E.
    + cbn [index_reference ref_uri uri_str]. unfold is_utf8. apply utf8_all_ascii. rewrite !as_bytes_app, !forallb_app.
      pose proof (hex_ascii _ (hex_bytes_lower (digest (checkpoint_index_bytes n)))) as Hx. unfold hex_bytes in Hx.
      rewrite Hx. reflexivity.
  - cbn [index_reference ref_length]. pose proof (len_nonneg (checkpoint_index_bytes n)). unfold MAX_CHECKPOINT_INDEX_BYTES in *.
    unfold is_uint. lia.
Qed.

Lemma hash_len h : wf_sha h -> len (encode_hash h) <= 41.
Proof.
  intros Hh. unfold encode_hash, enc_bytes. rewrite len_app. pose proof (major_len 2 (len (sha_bytes h))).
  assert (len (sha_bytes h) = 32) by (unfold len; by rewrite Hh). lia.
Qed.

Lemma child_len n : len (encode_child (child_of (indexed n))) <= 256.
Proof.
  unfold encode_child, encode_ref, child_of, indexed. cbn [c_child c_page_count c_first_page x_reference x_first_page x_page_count].
  pose proof (node_uri_len n) as Hu. pose proof (enc_text_len (uri_str (ref_uri (index_reference n)))).
  pose proof (wf_digest (checkpoint_index_bytes n)) as Hd.
  pose proof (enc_unsigned_len (CheckpointIndexNode.first_page n)). pose proof (enc_unsigned_len (CheckpointIndexNode.page_count n)).
  pose proof (enc_unsigned_len (ref_length (index_reference n))).
  assert (len (enc_bytes (sha_bytes (ref_sha256 (index_reference n)))) <= 41) as Hs by exact (hash_len _ Hd).
  unfold enc_map_len. rewrite !len_app.
  repeat match goal with |- context [len (major 5 ?k)] => change (len (major 5 k)) with 1 end.
  change (len (enc_text "child")) with 6. change (len (enc_text "uri")) with 4.
  change (len (enc_text "length")) with 7. change (len (enc_text "sha256")) with 7.
  change (len (enc_text "page_count")) with 11. change (len (enc_text "first_page")) with 11. lia.
Qed.

Lemma leaf_encodable p hs : 0 < p -> p + len hs <= 2 ^ 64 -> 0 < len hs <= CHECKPOINT_INDEX_CAPACITY -> Forall wf_sha hs ->
  encodable (CheckpointIndexNode.Leaf p hs).
Proof.
  intros Hp Hh Hc Hw. split; [split; [unfold is_uint; lia|done]|]. split; [done|].
  assert (len (enc_list encode_hash hs) <= 41 * len hs) as Hb.
  { apply enc_list_bound. eapply Forall_impl; [exact Hw|]. apply hash_len. }
  cbn [checkpoint_index_bytes]. rewrite !len_app. unfold enc_array_len, enc_map_len.
  pose proof (major_len 4 (len hs)). pose proof (enc_unsigned_len p). unfold MAX_CHECKPOINT_INDEX_BYTES, CHECKPOINT_INDEX_CAPACITY in *.
  repeat match goal with |- context [len (major 5 ?k)] => change (len (major 5 k)) with 1 end.
  change (len (enc_text "hashes")) with 7. change (len (enc_text "version")) with 8. change (len (enc_unsigned 1)) with 1.
  change (len (enc_text "node_type")) with 10. change (len (enc_text "leaf")) with 5.
  change (len (enc_text "first_page")) with 11. lia.
Qed.

Lemma internal_encodable l ns : 0 < l < 2 ^ 32 -> Forall encodable ns -> 0 < len ns <= CHECKPOINT_INDEX_CAPACITY ->
  Forall (fun n => is_u64 (CheckpointIndexNode.first_page n) /\ is_u64 (CheckpointIndexNode.page_count n)) ns ->
  let node := parent_of l (map indexed ns) in
  0 < CheckpointIndexNode.first_page node ->
  adjacent (CheckpointIndexNode.first_page node) (map child_of (map indexed ns)) ->
  CheckpointIndexNode.first_page node + CheckpointIndexNode.page_count node < 2 ^ 64 ->
  encodable node.
Proof.
  intros Hl He Hc Hu node Hf Ha Hp. split; [|split].
  - split; [unfold is_uint; lia|]. apply Forall_fmap, Forall_fmap, Forall_forall. intros n Hn.
    rewrite Forall_forall in He, Hu. destruct (Hu n Hn). split; [by apply index_reference_wf, He|done].
  - split; [done|]. split; [cbn; rewrite !len_map; lia|]. split; [lia|]. split; [done|]. split; [|done].
    apply Forall_fmap, Forall_fmap, Forall_forall. intros n Hn. rewrite Forall_forall in He. destruct (He n Hn) as (_ & Hi & Hb).
    unfold child_ref_ok, child_of, indexed, index_reference. cbn [c_child x_reference ref_length].
    pose proof (index_count_bound n). destruct Hi as (_ & [? _] & _). cbn. lia.
  - unfold node, parent_of. cbn [checkpoint_index_bytes]. rewrite !len_app. unfold enc_array_len, enc_map_len.
    assert (len (enc_list encode_child (map child_of (map indexed ns))) <= 256 * len (map child_of (map indexed ns))) as Hb.
    { apply enc_list_bound, Forall_fmap, Forall_fmap, Forall_forall. intros n _. apply child_len. }
    rewrite !len_map in *. pose proof (major_len 4 (len ns)). pose proof (enc_unsigned_len l).
    unfold MAX_CHECKPOINT_INDEX_BYTES, CHECKPOINT_INDEX_CAPACITY in *.
    repeat match goal with |- context [len (major 5 ?k)] => change (len (major 5 k)) with 1 end.
    change (len (enc_text "level")) with 6. change (len (enc_text "entries")) with 8.
    change (len (enc_text "version")) with 8. change (len (enc_unsigned 1)) with 1.
    change (len (enc_text "node_type")) with 10. change (len (enc_text "internal")) with 9. lia.
Qed.
End naming.

(** *** The tree that is built *)

Inductive index_tree := INode (n : index_node) (children : list index_tree).
Definition tree_node (t : index_tree) : index_node := match t with INode n _ => n end.
Fixpoint index_nodes (t : index_tree) : list index_node :=
  match t with INode n cs => n :: concat (map index_nodes cs) end.

Section index_tree_ind.
Context (P : index_tree -> Prop).
Context (Hrec : forall n cs, Forall P cs -> P (INode n cs)).

Fixpoint index_tree_ind' (t : index_tree) : P t :=
  match t with
  | INode n cs =>
    Hrec n cs ((fix go cs : Forall P cs :=
                  match cs with
                  | [] => @List.Forall_nil _ P
                  | c :: cs => @List.Forall_cons _ P c cs (index_tree_ind' c) (go cs)
                  end) cs)
  end.
End index_tree_ind.

Lemma adjacent_nonneg p es : adjacent p es -> 0 <= page_sum es.
Proof.
  revert p. unfold page_sum. induction es as [|e es IH]; intros p Ha; cbn in *; [lia|].
  destruct Ha as (_ & ? & Ha). specialize (IH _ Ha). lia.
Qed.
Lemma adjacent_positive p es : adjacent p es -> es <> [] -> 0 < page_sum es.
Proof.
  destruct es as [|e es]; [done|]. intros (_ & ? & Ha) _. pose proof (adjacent_nonneg _ _ Ha). unfold page_sum in *. cbn. lia.
Qed.

Section tree.
Context `{HexCrate, Sha2Crate} (page_size : Z) (b : bytes).

Definition item (t : index_tree) : Indexed := indexed (tree_node t).

(** A tree as [build] makes it: its leaves hold the hashes of their pages. *)
Inductive sound_tree : Z -> index_tree -> Prop :=
| sound_leaf first hashes :
    encodable (CheckpointIndexNode.Leaf first hashes) -> authenticates page_size b first hashes ->
    sound_tree 0 (INode (CheckpointIndexNode.Leaf first hashes) [])
| sound_internal l cs :
    encodable (parent_of l (map item cs)) -> Forall (sound_tree (l - 1)) cs ->
    sound_tree l (INode (parent_of l (map item cs)) cs).

Definition node_key (n : index_node) : Z * Z := (CheckpointIndexNode.level n, CheckpointIndexNode.first_page n).
Definition uri_of_node (n : index_node) : string := uri_str (ref_uri (index_reference n)).
Definition forest_nodes (cs : list index_tree) : list index_node := concat (map index_nodes cs).

Lemma sound_level l t : sound_tree l t -> CheckpointIndexNode.level (tree_node t) = l /\ encodable (tree_node t) /\ 0 <= l.
Proof.
  intros Hs. inversion Hs as [? ? He|? ? He]; subst; cbn; split_and!; try done.
  destruct He as ([[? _] _] & _). done.
Qed.

(** The nodes of a tree lie in its interval and at its level or below. *)
Definition within (l lo hi : Z) (n : index_node) : Prop :=
  CheckpointIndexNode.level n <= l /\ lo <= CheckpointIndexNode.first_page n < hi.

Definition interval_ok (l : Z) (t : index_tree) : Prop := sound_tree l t ->
  Forall (within l (x_first_page (item t)) (x_first_page (item t) + x_page_count (item t))) (index_nodes t) /\
  NoDup (map node_key (index_nodes t)).

Lemma forest_intervals l cs : forall p, Forall (interval_ok l) cs -> Forall (sound_tree l) cs ->
  adjacent p (map child_of (map item cs)) ->
  Forall (within l p (p + page_sum (map child_of (map item cs)))) (forest_nodes cs) /\
  NoDup (map node_key (forest_nodes cs)).
Proof.
  induction cs as [|c cs IH]; intros p Hi Hs Ha; [split; constructor|].
  apply Forall_cons in Hi as [Hc Hi]. apply Forall_cons in Hs as [Hsc Hs].
  cbn [map adjacent child_of c_first_page c_page_count] in Ha. destruct Ha as (<- & Hpos & Ha).
  destruct (Hc Hsc) as [Hw Hn]. destruct (IH _ Hi Hs Ha) as [Hws Hns].
  unfold forest_nodes in *. cbn [map concat]. unfold page_sum in *. cbn [map foldr child_of c_page_count].
  pose proof (adjacent_nonneg _ _ Ha) as Hsum. unfold page_sum in Hsum.
  split.
  - apply Forall_app. split; [eapply Forall_impl; [exact Hw|]|eapply Forall_impl; [exact Hws|]]; intros n; unfold within; lia.
  - rewrite map_app, NoDup_app. split; [done|]. split; [|done]. intros k Hk Hk'.
    apply list_elem_of_fmap in Hk as (n & -> & Hk). apply list_elem_of_fmap in Hk' as (n' & E & Hk').
    rewrite Forall_forall in Hw, Hws. specialize (Hw _ Hk). specialize (Hws _ Hk'). injection E as _ E.
    unfold within in *. lia.
Qed.

Lemma tree_intervals t : forall l, interval_ok l t.
Proof.
  induction t as [n cs IH] using index_tree_ind'. intros l Hs. inversion Hs as [p hs He Ha|? ? He Hc]; subst.
  - destruct He as ([_ _] & (Hp & Hc & _) & _). cbn in *. split; [|apply NoDup_singleton]. constructor; [|constructor].
    unfold within. cbn. lia.
  - destruct He as (_ & (Hp & Hc0 & Hl & Ha & _) & _).
    assert (Forall (interval_ok (l - 1)) cs) as Hi by (eapply Forall_impl; [exact IH|]; intros t Ht; apply Ht).
    destruct (forest_intervals (l - 1) cs _ Hi Hc Ha) as [Hw Hn]. cbn [index_nodes tree_node item].
    fold (forest_nodes cs). change (x_first_page (item _)) with (CheckpointIndexNode.first_page (parent_of l (map item cs))).
    change (x_page_count (item _)) with (page_sum (map child_of (map item cs))).
    set (p := CheckpointIndexNode.first_page _) in *.
    split.
    + constructor.
      * unfold within. cbn [CheckpointIndexNode.level parent_of]. fold p. pose proof (adjacent_positive _ _ Ha) as Hpos.
        destruct cs; [by destruct Hc0 as [Hc0 _]; vm_compute in Hc0|]. specialize (Hpos ltac:(done)). lia.
      * eapply Forall_impl; [exact Hw|]. unfold within. intros n. lia.
    + cbn [map]. constructor; [|done]. intros (n & E & Hin)%list_elem_of_fmap. rewrite Forall_forall in Hw.
      specialize (Hw _ Hin). injection E as E _. unfold within in Hw. cbn in E. lia.
Qed.
End tree.

(** *** What is built is accepted *)

Section accepted.
Context `{HexCrate, Sha2Crate} (page_size : Z) (b : bytes).

Lemma nodes_encodable t : forall l, sound_tree page_size b l t -> Forall encodable (index_nodes t).
Proof.
  induction t as [n cs IH] using index_tree_ind'. intros l Hs. inversion Hs as [? ? He|? ? He Hc]; subst; cbn [index_nodes].
  - by apply Forall_singleton.
  - constructor; [done|]. apply Forall_concat, Forall_fmap. rewrite Forall_forall in IH, Hc.
    apply Forall_forall. intros c Hin. by eapply IH, Hc.
Qed.

(** The objects of the nodes have distinct digests. *)
Definition no_collision (ns : list index_node) : Prop :=
  forall n m, n ∈ ns -> m ∈ ns -> digest (checkpoint_index_bytes n) = digest (checkpoint_index_bytes m) ->
    checkpoint_index_bytes n = checkpoint_index_bytes m.

Lemma node_uri_inj n m : uri_of_node n = uri_of_node m -> digest (checkpoint_index_bytes n) = digest (checkpoint_index_bytes m).
Proof.
  intros E. apply (hex_name_inj "_otmp/checkpoint-page-index/" ".cbor"); [apply wf_digest..|].
  unfold uri_of_node in E. cbn [index_reference ref_uri uri_str] in E. by rewrite E.
Qed.

Lemma uris_distinct l t : sound_tree page_size b l t -> no_collision (index_nodes t) ->
  NoDup (map uri_of_node (index_nodes t)).
Proof.
  intros Hs Hc. pose proof (nodes_encodable t l Hs) as He. rewrite Forall_forall in He.
  destruct (tree_intervals page_size b t l Hs) as [_ Hn]. apply NoDup_fmap_1 in Hn.
  apply NoDup_fmap_2_strong; [|done]. intros n m Hin Him E.
  pose proof (Hc n m Hin Him (node_uri_inj _ _ E)) as Eb.
  pose proof (encodable_decode n (He _ Hin)) as En. rewrite Eb, (encodable_decode m (He _ Him)) in En. congruence.
Qed.

Context (read_metadata : ObjectReference -> rresult bytes).
Definition serves_node (n : index_node) : Prop :=
  read_metadata (object (index_reference n) CHECKPOINT_PAGE_INDEX_MEDIA_TYPE) = Ok (checkpoint_index_bytes n).

Context (Hsize : 0 < page_size) (Hlen : len b < 2 ^ 64).

Lemma verify_page_accepts first j h hashes : encodable (CheckpointIndexNode.Leaf first hashes) ->
  authenticates page_size b first hashes -> hashes !! j = Some h ->
  verify_page page_size b first (Z.of_nat j, h) = Ok tt.
Proof.
  intros ([[Hf _] _] & (Hp & Hc & Hb) & _) Ha Hj. destruct (Ha _ _ Hj) as (page & Hpage & Hd).
  cbn [CheckpointIndexNode.first_page index_count] in *. pose proof (lookup_lt_Some _ _ _ Hj) as Hlt.
  unfold page_at in Hpage. pose proof Hpage as (Hs & He & _)%slice_some. unfold verify_page, checked_add, checked_mul, len in *.
  rewrite (try_uint_id 64 (first + Z.of_nat j)) by (unfold is_uint; lia). cbn [ok_or mbind result_bind].
  rewrite (try_uint_id 64 ((first + Z.of_nat j - 1) * page_size)) by (unfold is_uint; nia). cbn [ok_or mbind result_bind].
  replace ((first + Z.of_nat j - 1) * page_size + page_size) with ((first + Z.of_nat j) * page_size) by lia.
  rewrite (try_uint_id 64 ((first + Z.of_nat j) * page_size)) by (unfold is_uint; nia). cbn [ok_or mbind result_bind].
  rewrite Hpage. by rewrite bool_decide_eq_true_2.
Qed.

Definition node_verifies (depth : nat) (l : Z) (t : index_tree) : Prop := forall seen,
  sound_tree page_size b l t -> l < Z.of_nat depth -> l <= 64 -> Forall serves_node (index_nodes t) ->
  NoDup (map uri_of_node (index_nodes t)) -> Forall (fun n => uri_of_node n ∉ seen) (index_nodes t) ->
  verify_checkpoint_index_node read_metadata page_size b depth (index_reference (tree_node t)) l
    (CheckpointIndexNode.first_page (tree_node t)) (CheckpointIndexNode.page_count (tree_node t)) seen
  = Ok (seen ∪ list_to_set (map uri_of_node (index_nodes t))).

Lemma children_verify depth l cs : forall seen, Forall (node_verifies depth l) cs ->
  Forall (sound_tree page_size b l) cs -> l < Z.of_nat depth -> l <= 64 -> Forall serves_node (forest_nodes cs) ->
  NoDup (map uri_of_node (forest_nodes cs)) -> Forall (fun n => uri_of_node n ∉ seen) (forest_nodes cs) ->
  verify_children (fun r first count seen => verify_checkpoint_index_node read_metadata page_size b depth r l first count seen)
    (map child_of (map item cs)) seen = Ok (seen ∪ list_to_set (map uri_of_node (forest_nodes cs))).
Proof.
  unfold forest_nodes. induction cs as [|c cs IH]; intros seen Hv Hs Hl Hl' Hserve Hn Hd; cbn [map verify_children concat].
  { f_equal. set_solver. }
  apply Forall_cons in Hv as [Hv Hvs]. apply Forall_cons in Hs as [Hs Hss]. cbn [map concat] in *.
  apply Forall_app in Hserve as [Hc Hcs]. apply Forall_app in Hd as [Hd Hds]. rewrite map_app, NoDup_app in Hn.
  destruct Hn as (Hn & Hdis & Hns). cbn [child_of item indexed c_child c_first_page c_page_count x_reference x_first_page x_page_count].
  rewrite Hv by done. cbn [mbind result_bind]. rewrite IH; try done.
  - f_equal. rewrite map_app, list_to_set_app_L. set_solver.
  - rewrite Forall_forall in *. intros n Hin. specialize (Hds n Hin).
    intros [?|Hx%elem_of_list_to_set]%elem_of_union; [done|]. apply (Hdis _ Hx). by apply list_elem_of_fmap_2.
Qed.

Lemma tree_verifies depth : forall l t, node_verifies depth l t.
Proof.
  induction depth as [|depth IH]; intros l t seen Hs Hd Hl Hserve Hn Hdis.
  { pose proof (sound_level _ _ _ _ Hs). lia. }
  destruct (sound_level _ _ _ _ Hs) as (El & He & Hpos). cbn [verify_checkpoint_index_node].
  assert (uri_of_node (tree_node t) ∉ seen /\ serves_node (tree_node t)) as [Hk Hraw].
  { destruct t. apply Forall_cons in Hdis as [? _]. by apply Forall_cons in Hserve as [? _]. }
  change (uri_str (ref_uri (index_reference (tree_node t)))) with (uri_of_node (tree_node t)).
  rewrite bool_decide_eq_false_2 by done. pose proof He as (_ & _ & Hmax).
  replace (64 <? l) with false by lia. cbn [index_reference ref_length].
  replace (MAX_CHECKPOINT_INDEX_BYTES <? _) with false by lia. cbn [orb reject mbind result_bind].
  fold (index_reference (tree_node t)). rewrite Hraw. cbn [mbind result_bind]. rewrite (encodable_decode _ He).
  cbn [of_protocol map_err mbind result_bind]. rewrite El, !Z.eqb_refl. cbn [negb orb reject mbind result_bind].
  clear El. inversion Hs as [first hashes He' Ha|l' cs He' Hc]; subst; cbn [tree_node index_nodes] in *.
  - unfold try_fold at 1. fold (try_fold (fun _ : () => verify_page page_size b first)).
    rewrite (proj2 (check_all (verify_page page_size b first) (enumerate hashes) tt)).
    + cbn [mbind result_bind map list_to_set]. f_equal. set_solver.
    + intros [z h] Hin. apply list_elem_of_lookup in Hin as [j Hj]. rewrite enumerate_lookup in Hj.
      destruct (hashes !! j) as [h'|] eqn:Ej; [|done]. injection Hj as <- <-. by eapply verify_page_accepts.
  - unfold parent_of at 1. cbn [map] in Hn. apply NoDup_cons in Hn as [Hnin Hn]. apply Forall_cons in Hdis as [_ Hdis].
    apply Forall_cons in Hserve as [_ Hserve]. fold (forest_nodes cs) in *.
    rewrite (children_verify depth (l - 1) cs); try done; try lia.
    + cbn [map list_to_set]. f_equal. fold (forest_nodes cs). set_solver.
    + apply Forall_forall. intros c _. apply IH.
    + rewrite Forall_forall in *. intros n Hin. specialize (Hdis n Hin).
      intros [E%elem_of_singleton|?]%elem_of_union; [|done]. apply Hnin. rewrite <- E. by apply list_elem_of_fmap_2.
Qed.
End accepted.

(** *** The build *)

Lemma page_sum_app es fs : page_sum (es ++ fs) = page_sum es + page_sum fs.
Proof. unfold page_sum. rewrite map_app. induction es as [|e es IH]; cbn in *; lia. Qed.

Lemma adjacent_app p es fs : adjacent p (es ++ fs) <-> adjacent p es /\ adjacent (p + page_sum es) fs.
Proof.
  revert p. induction es as [|e es IH]; intros p; cbn [app adjacent].
  - change (page_sum []) with 0. rewrite Z.add_0_r. naive_solver.
  - change (e :: es) with ([e] ++ es). rewrite IH, page_sum_app.
    replace (p + (page_sum [e] + page_sum es)) with (p + c_page_count e + page_sum es) by (unfold page_sum; cbn; lia).
    naive_solver.
Qed.

Lemma adjacent_bounds p es : adjacent p es ->
  Forall (fun e => p <= c_first_page e /\ 0 < c_page_count e /\ c_first_page e + c_page_count e <= p + page_sum es) es.
Proof.
  revert p. induction es as [|e es IH]; intros p Ha; [constructor|]. destruct Ha as (<- & Hpos & Ha).
  pose proof (adjacent_nonneg _ _ Ha). change (e :: es) with ([e] ++ es). rewrite page_sum_app.
  change (page_sum [e]) with (c_page_count e + 0). constructor; [lia|]. eapply Forall_impl; [exact (IH _ Ha)|].
  intros e' He'. cbn in *. lia.
Qed.

(** The interval of a run of entries. *)
Definition first_of (es : list CheckpointIndexChild) : Z := default 0 (c_first_page <$> head es).

(** Entries grouped into parents cover the same interval. *)
Lemma adjacent_groups (f : list CheckpointIndexChild -> PageObjectReference) groups : forall p,
  Forall (fun g => g <> []) groups -> adjacent p (concat groups) ->
  let parents := map (fun g => MkChild (first_of g) (page_sum g) (f g)) groups in
  adjacent p parents /\ page_sum parents = page_sum (concat groups) /\
  Forall (fun g => exists q, p <= q /\ q + page_sum g <= p + page_sum (concat groups) /\ first_of g = q /\ adjacent q g) groups.
Proof.
  induction groups as [|g gs IH]; intros p Hne Ha; cbn [map concat adjacent c_first_page c_page_count] in *.
  { split; [done|]. split; [done|constructor]. }
  apply Forall_cons in Hne as [Hg Hne]. apply adjacent_app in Ha as [Hag Ha].
  destruct (IH _ Hne Ha) as (Hp & Hsum & Hgs). pose proof (adjacent_positive _ _ Hag Hg) as Hpos.
  pose proof (adjacent_nonneg _ _ Ha) as Hnn. rewrite page_sum_app.
  assert (first_of g = p) as Hf by (destruct g; [done|]; cbn in *; naive_solver).
  split; [by rewrite Hf|]. split.
  - change (MkChild (first_of g) (page_sum g) (f g) :: ?l) with ([MkChild (first_of g) (page_sum g) (f g)] ++ l).
    rewrite page_sum_app, Hsum. unfold page_sum at 1. cbn. lia.
  - constructor; [exists p; split_and!; (done || lia)|]. eapply Forall_impl; [exact Hgs|].
    intros g' (q & ? & ? & ? & ?). exists q. split_and!; (done || lia).
Qed.

(** Entries of 128 pages each, but for the last one. *)
Lemma adjacent_uniform es : forall p n, 0 <= n -> n <= 128 * len es -> 128 * len es < n + 128 ->
  (forall i e, es !! i = Some e -> c_first_page e = p + 128 * Z.of_nat i /\ c_page_count e = Z.min 128 (n - 128 * Z.of_nat i)) ->
  adjacent p es /\ page_sum es = n.
Proof.
  induction es as [|e es IH]; intros p n Hn Hl Hu He.
  { unfold len in *. cbn in *. split; [done|]. unfold page_sum. cbn. lia. }
  rewrite !len_cons in *. pose proof (len_nonneg es). destruct (He 0%nat e eq_refl) as [Hf Hc]. cbn [adjacent].
  destruct (IH (p + c_page_count e) (n - c_page_count e)) as [Ha Hs]; [lia|lia|lia| |].
  - intros i e' Hi. pose proof (lookup_lt_Some _ _ _ Hi) as Hlt. destruct (He (S i) e' Hi) as [Hf' Hc']. unfold len in *. lia.
  - split; [split_and!; [lia|lia|done]|]. unfold page_sum in *. cbn. lia.
Qed.

Section building.
Context `{HexCrate, Sha2Crate} (page_size : Z) (b : bytes).

Definition children_of (ts : list index_tree) : list CheckpointIndexChild := map child_of (map item ts).
Definition parent_tree (height : Z) (group : list index_tree) : index_tree := INode (parent_of height (map item group)) group.

Lemma first_of_children height g : first_of (children_of g) = CheckpointIndexNode.first_page (parent_of height (map item g)).
Proof. by destruct g. Qed.

(** One round: the trees of the next level, and the interval they cover. *)
Lemma group_trees h ts : 0 <= h < 64 -> Forall (sound_tree page_size b h) ts -> adjacent 1 (children_of ts) ->
  1 + page_sum (children_of ts) < 2 ^ 64 ->
  let parents := map (parent_tree (h + 1)) (chunks 128 ts) in
  Forall (sound_tree page_size b (h + 1)) parents /\ adjacent 1 (children_of parents) /\
  page_sum (children_of parents) = page_sum (children_of ts).
Proof.
  intros Hh Hs Ha Hlt parents. set (groups := chunks 128 ts).
  assert (concat groups = ts) as Hcat by (apply chunks_concat; lia).
  pose proof (chunks_bound 128 ts ltac:(lia)) as Hb. fold groups in Hb.
  assert (children_of ts = concat (map children_of groups)) as Hch.
  { unfold children_of. rewrite <- Hcat. by rewrite !concat_map, !map_map. }
  assert (Forall (fun g => g <> []) (map children_of groups)) as Hne.
  { apply Forall_fmap. eapply Forall_impl; [exact Hb|]. intros [|t g] [Hg _]; done. }
  rewrite Hch in Ha, Hlt.
  destruct (adjacent_groups (fun g => index_reference (CheckpointIndexNode.Internal (h + 1) g)) _ 1 Hne Ha) as (Hap & Hsum & Hg).
  assert (children_of parents = map (fun g => MkChild (first_of g) (page_sum g)
    (index_reference (CheckpointIndexNode.Internal (h + 1) g))) (map children_of groups)) as ->.
  { unfold parents, children_of at 1. rewrite !map_map. apply map_ext. intros g. rewrite (first_of_children (h + 1) g). reflexivity. }
  split; [|by rewrite Hch]. unfold parents. apply Forall_fmap, Forall_forall. intros g Hin. cbn.
  assert (Forall (sound_tree page_size b h) g) as Hsg.
  { rewrite <- Hcat in Hs. rewrite Forall_forall in *. intros t Ht. apply Hs. apply list_elem_of_In, in_concat. exists g.
    split; by apply list_elem_of_In. }
  rewrite Forall_forall in Hg. destruct (Hg _ (list_elem_of_fmap_2 children_of _ _ Hin)) as (q & Hq & Hqs & Hf & Hag).
  rewrite Forall_forall in Hb. destruct (Hb _ Hin) as [Hgne Hlen].
  pose proof (adjacent_positive _ _ Hag) as Hpos. pose proof (adjacent_nonneg _ _ Ha) as Hnn.
  apply sound_internal; [|by replace (h + 1 - 1) with h by lia].
  assert (Hlast : CheckpointIndexNode.first_page (parent_of (h + 1) (map item g)) = q) by (by rewrite <- first_of_children).
  assert (CheckpointIndexNode.page_count (parent_of (h + 1) (map item g)) = page_sum (children_of g)) as Hcount by done.
  assert (map item g = map indexed (map tree_node g)) as Eg by (by rewrite map_map).
  rewrite Eg in Hlast, Hcount |- *. pose proof (adjacent_bounds _ _ Hag) as Hbd. unfold children_of in Hbd, Hag.
  rewrite Eg in Hbd, Hag.
  apply internal_encodable; rewrite ?Hlast, ?Hcount, ?len_map; try lia; try done.
  - apply Forall_fmap. rewrite Forall_forall in Hsg. apply Forall_forall. intros t Ht. by apply (sound_level _ _ h t (Hsg t Ht)).
  - unfold len. destruct g; [done|]. cbn in *. unfold CHECKPOINT_INDEX_CAPACITY. lia.
  - apply Forall_forall. intros n Hn. rewrite Forall_forall in Hbd.
    specialize (Hbd (child_of (indexed n)) ltac:(by do 2 apply list_elem_of_fmap_2)).
    unfold children_of in Hqs, Hlt. rewrite Eg in Hqs. cbn [child_of indexed c_first_page c_page_count x_first_page x_page_count] in Hbd.
    unfold is_uint. lia.
Qed.

Lemma parents_nodes h ts : map (parent_of h) (chunks 128 (map item ts)) = map tree_node (map (parent_tree h) (chunks 128 ts)).
Proof. by rewrite chunks_map, !map_map. Qed.

Lemma parents_forest h groups n : n ∈ forest_nodes (map (parent_tree h) groups) ->
  n ∈ map tree_node (map (parent_tree h) groups) \/ n ∈ forest_nodes (concat groups).
Proof.
  unfold forest_nodes. induction groups as [|g gs IH]; cbn [map concat app index_nodes parent_tree tree_node]; [by intros ?%not_elem_of_nil|].
  intros [Hn|Hn]%elem_of_cons; [left; rewrite Hn; left|]. apply elem_of_app in Hn as [Hn|Hn].
  - right. rewrite map_app, concat_app. by apply elem_of_app; left.
  - apply IH in Hn as [Hn|Hn]; [left; by right|right]. rewrite map_app, concat_app. by apply elem_of_app; right.
Qed.

Lemma grow_builds fuel : forall h ts artifacts,
  0 <= h <= 64 -> ts <> [] -> (length ts <= S fuel)%nat -> (length ts <= 2 ^ Z.to_nat (64 - h))%nat ->
  Forall (sound_tree page_size b h) ts -> adjacent 1 (children_of ts) -> 1 + page_sum (children_of ts) < 2 ^ 64 ->
  (forall n, n ∈ forest_nodes ts -> node_artifact n ∈ artifacts) ->
  exists t h' artifacts', grow_index fuel (map item ts) h artifacts = Ok ([item t], h', artifacts') /\
    sound_tree page_size b h' t /\ h' <= 64 /\ x_first_page (item t) = 1 /\
    x_page_count (item t) = page_sum (children_of ts) /\ forall n, n ∈ index_nodes t -> node_artifact n ∈ artifacts'.
Proof.
  induction fuel as [|fuel IH]; intros h ts artifacts Hh Hne Hf Hpow Hs Ha Hlt Hst;
    (destruct ts as [|t [|t2 ts]]; [done| |]).
  1, 3: exists t, h, artifacts; apply Forall_cons in Hs as [Hs _]; cbn [map grow_index]; split; [done|];
    cbn [children_of map adjacent] in Ha; destruct Ha as (Ha & _); split_and!; try done; try lia;
    [unfold page_sum, children_of; cbn [map foldr child_of c_page_count]; lia|intros n Hn; apply Hst; unfold forest_nodes; cbn; by rewrite app_nil_r].
  { cbn in Hf. lia. }
  cbn [grow_index]. rewrite len_map. replace (len (t :: t2 :: ts) <=? 1) with false by (symmetry; apply Z.leb_gt; unfold len; cbn [length]; lia).
  remember (t :: t2 :: ts) as us eqn:Eus. assert (2 <= length us)%nat as Hlen by (subst; cbn; lia). clear Eus t t2 ts.
  assert (h < 64) as Hh'.
  { destruct (Z.eq_dec h 64) as [->|]; [|lia]. change (2 ^ Z.to_nat (64 - 64))%nat with 1%nat in Hpow. lia. }
  destruct (group_trees h us ltac:(lia) Hs Ha Hlt) as (Hs' & Ha' & Hsum). set (parents := map _ _) in *.
  change (Z.to_nat CHECKPOINT_INDEX_CAPACITY) with 128%nat. rewrite parents_nodes. fold parents.
  rewrite push_nodes.
  2:{ apply Forall_fmap. eapply Forall_impl; [exact Hs'|]. intros t Ht. by apply (sound_level _ _ _ _ Ht). }
  cbn [mbind result_bind app]. rewrite map_map. fold item. change (fun x => indexed (tree_node x)) with item.
  destruct (IH (h + 1) parents (artifacts ++ map node_artifact (map tree_node parents)))
    as (t & h' & arts & E & Hst' & Hh2 & Hf1 & Hc & Hin); try done; try lia.
  - unfold parents. pose proof (chunks_bound 128 us ltac:(lia)) as Hb.
    pose proof (chunks_concat 128 us ltac:(lia)) as Hcat. destruct (chunks 128 us); [|done]. cbn in Hcat. by subst.
  - unfold parents. rewrite length_map. pose proof (chunks_shrink 128 us ltac:(lia) Hlen). lia.
  - unfold parents. rewrite length_map. apply chunks_half; [lia|]. by replace (S (Z.to_nat (64 - (h + 1)))) with (Z.to_nat (64 - h)) by lia.
  - intros n Hn. apply elem_of_app. apply parents_forest in Hn as [Hn|Hn]; [right; by apply list_elem_of_fmap_2|left].
    apply Hst. by rewrite <- (chunks_concat 128 us ltac:(lia)).
  - exists t, h', arts. rewrite E. by rewrite <- Hsum.
Qed.

(** *** The leaves *)

Lemma take_drop_take {A} (p i j m : nat) (l : list A) : (j + p <= m)%nat ->
  take p (drop j (take m (drop i l))) = take p (drop (i + j) l).
Proof.
  intros Hm. change (@drop A) with (@skipn A). change (@take A) with (@firstn A).
  rewrite skipn_firstn_comm, firstn_firstn, skipn_skipn. f_equal; [lia|]. f_equal. lia.
Qed.

Context (n : Z) (Hsize : 0 < page_size) (Hpages : len b = n * page_size) (Hn : 0 < n) (Hlen : len b < 2 ^ 63).

Definition leaf_length : nat := Z.to_nat (page_size * CHECKPOINT_INDEX_CAPACITY).
Definition leaves : list index_node := map (leaf_of page_size) (enumerate (chunks leaf_length b)).
Definition leaf_trees : list index_tree := map (fun node => INode node []) leaves.

Lemma leaf_lookup i node : leaves !! i = Some node ->
  exists hashes, node = CheckpointIndexNode.Leaf (Z.of_nat i * 128 + 1) hashes /\
    128 * Z.of_nat i < n /\ len hashes = Z.min 128 (n - 128 * Z.of_nat i) /\ Forall wf_sha hashes /\
    authenticates page_size b (Z.of_nat i * 128 + 1) hashes.
Proof.
  unfold leaves. intros Hi. apply list_lookup_fmap_Some in Hi as ([z c] & -> & Hi). rewrite enumerate_lookup in Hi.
  destruct (chunks leaf_length b !! i) as [c'|] eqn:Ec; [|done]. injection Hi as <- ->.
  apply chunks_lookup in Ec as [Hlt Hc]; [|unfold leaf_length, CHECKPOINT_INDEX_CAPACITY; lia].
  set (p := Z.to_nat page_size). assert (leaf_length = 128 * p)%nat as El by (unfold leaf_length, CHECKPOINT_INDEX_CAPACITY; lia).
  set (N := Z.to_nat n). assert (length b = N * p)%nat as Eb by (unfold len in Hpages; nia).
  rewrite El in Hlt, Hc. set (k := (128 `min` (N - 128 * i))%nat).
  assert (length c = k * p)%nat as Hcl by (rewrite Hc, length_take, length_drop, Eb; nia).
  assert (0 < p)%nat as Hp by lia. assert (0 < k)%nat as Hk by nia.
  exists (map digest (chunks p c)). unfold leaf_of. cbn [fst snd]. fold p.
  assert (length (chunks p c) = k) as Hcount by (apply chunks_count; lia).
  split; [done|]. split; [nia|]. split; [rewrite len_map; unfold len; lia|]. split.
  { apply Forall_fmap, Forall_true. intros d. apply wf_digest. }
  intros j h Hj. apply list_lookup_fmap_Some in Hj as (d & -> & Hj). pose proof (lookup_lt_Some _ _ _ Hj) as Hjk.
  apply chunks_lookup in Hj as [_ Hd]; [|done]. exists d. split; [|done]. unfold page_at. apply slice_some.
  assert (j * p + p <= k * p)%nat as Hjp by nia.
  assert (k * p <= length b - i * (128 * p))%nat as Hkb by nia.
  split; [nia|]. split; [unfold len; nia|]. rewrite Hd, Hc, take_drop_take by nia.
  replace (Z.to_nat ((Z.of_nat i * 128 + 1 + Z.of_nat j) * page_size - (Z.of_nat i * 128 + 1 + Z.of_nat j - 1) * page_size)) with p
    by (unfold p; f_equal; lia).
  do 2 f_equal. unfold p. nia.
Qed.

Lemma leaves_ok : Forall (sound_tree page_size b 0) leaf_trees /\ adjacent 1 (children_of leaf_trees) /\
  page_sum (children_of leaf_trees) = n /\ leaf_trees <> [] /\ len leaf_trees <= n.
Proof.
  assert (length (chunks leaf_length b) = Z.to_nat ((n + 127) / 128)) as Hcount.
  { pose proof (Z.div_mod (n + 127) 128 ltac:(lia)). pose proof (Z.mod_pos_bound (n + 127) 128 ltac:(lia)).
    set (q := (n + 127) / 128) in *. assert (n * page_size <= q * (page_size * 128) < n * page_size + page_size * 128) by nia.
    unfold leaf_length, CHECKPOINT_INDEX_CAPACITY, len in *. apply chunks_count; [lia|apply Nat2Z.inj_le|apply Nat2Z.inj_lt];
      rewrite ?Nat2Z.inj_add, Nat2Z.inj_mul, !Z2Nat.id by nia; lia. }
  assert (len leaf_trees = (n + 127) / 128) as Hl.
  { unfold leaf_trees, leaves. rewrite !len_map. unfold len, enumerate. rewrite length_zip_with, length_seqZ. unfold len.
    pose proof (Z.div_pos (n + 127) 128 ltac:(lia) ltac:(lia)). lia. }
  split; [|cut ((adjacent 1 (children_of leaf_trees) /\ page_sum (children_of leaf_trees) = n) /\ leaf_trees <> [] /\ len leaf_trees <= n);
    [naive_solver|split; [|split]]].
  - apply Forall_fmap, Forall_lookup. intros i node Hi. destruct (leaf_lookup i node Hi) as (hs & -> & Hlt & Hh & Hw & Ha).
    apply sound_leaf; [|done]. apply leaf_encodable; unfold CHECKPOINT_INDEX_CAPACITY; try done; try nia.
  - pose proof (Z.div_mod (n + 127) 128 ltac:(lia)). pose proof (Z.mod_pos_bound (n + 127) 128 ltac:(lia)).
    apply (adjacent_uniform _ 1 n); unfold children_of; rewrite ?len_map; try lia. intros i e Hi.
    apply list_lookup_fmap_Some in Hi as (x & -> & Hi). apply list_lookup_fmap_Some in Hi as (t & -> & Hi).
    apply list_lookup_fmap_Some in Hi as (node & -> & Hi). destruct (leaf_lookup i node Hi) as (hs & -> & _ & Hh & _).
    cbn. split; [lia|exact Hh].
  - intros E. rewrite E in Hl. unfold len in Hl. cbn [length] in Hl.
    pose proof (Z.div_str_pos (n + 127) 128 ltac:(lia)). lia.
  - rewrite Hl. apply Z.div_le_upper_bound; lia.
Qed.
End building.

(** ** Properties *)

Section properties.
Context `{HexCrate, Sha2Crate}.

Lemma pow_64 k : (Z.of_nat k <= 2 ^ 64)%Z -> (k <= 2 ^ Z.to_nat (64 - 0))%nat.
Proof. intros Hk. apply Nat2Z.inj_le. rewrite Nat2Z.inj_pow. exact Hk. Qed.

(** The artifacts, as the store returns them. *)
Definition holds_artifacts (read_metadata : ObjectReference -> rresult bytes) (artifacts : list Artifact) : Prop :=
  forall a, a ∈ artifacts ->
    read_metadata (object (MkRef (a_uri a) (digest (a_bytes a)) (len (a_bytes a))) CHECKPOINT_PAGE_INDEX_MEDIA_TYPE) = Ok (a_bytes a).

Definition distinct_digests (artifacts : list Artifact) : Prop :=
  forall a a', a ∈ artifacts -> a' ∈ artifacts -> digest (a_bytes a) = digest (a_bytes a') -> a_bytes a = a_bytes a'.

(** The index [build_index] describes a tree with. *)
Definition index_of (checkpoint : Checkpoint) (page_size n : Z) (t : index_tree) (h : Z) : CheckpointPageIndex :=
  {| ci_checkpoint_sha256 := ck_sha256 checkpoint; ci_checkpoint_length := ck_length checkpoint;
     ci_page_size := page_size; ci_page_count := n;
     ci_root := MkRoot (ref_uri (x_reference (item t))) (ref_sha256 (x_reference (item t))) (ref_length (x_reference (item t))) h |}.

(** A tree over the [n] pages of [b], whose nodes are among the artifacts. *)
Definition indexes (page_size : Z) (b : bytes) (n : Z) (t : index_tree) (h : Z) (arts : list Artifact) : Prop :=
  sound_tree page_size b h t /\ h <= 64 /\ x_first_page (item t) = 1 /\ x_page_count (item t) = n /\
  forall x, x ∈ index_nodes t -> node_artifact x ∈ arts.

Lemma index_valid checkpoint page_size b n t h arts : indexes page_size b n t h arts -> 0 < n -> 0 < page_size < 2 ^ 32 ->
  len b = n * page_size -> len b < 2 ^ 63 -> len b = ck_length checkpoint ->
  validate_page_index (index_of checkpoint page_size n t h) checkpoint page_size = Ok tt.
Proof.
  intros (Ht & Hh & _ & _ & _) Hn Hsize Hpages Hlen Hck. destruct (sound_level _ _ _ _ Ht) as (_ & (_ & Hinv & Hmax) & Hh0).
  unfold validate_page_index, index_of. cbn [ci_page_count ci_page_size ci_checkpoint_sha256 ci_checkpoint_length ci_root].
  unfold checked_mul. rewrite try_uint_id by (unfold is_uint; lia). cbn [ok_or mbind result_bind].
  rewrite bool_decide_eq_true_2 by done. cbn [root_length root_height item indexed x_reference index_reference ref_length].
  pose proof (index_count_bound (tree_node t)) as Hb. destruct Hinv as (_ & [Hb0 _] & _).
  apply reject_ok. cbn [negb orb]. rewrite !orb_false_iff. split_and!; lia.
Qed.

Lemma build_indexes (checkpoint : Checkpoint) (page_size n : Z) (b : bytes) : 0 < page_size < 2 ^ 32 -> 0 < n ->
  len b = n * page_size -> len b < 2 ^ 63 -> object_hash b = ck_sha256 checkpoint -> len b = ck_length checkpoint ->
  exists t h arts, indexes page_size b n t h arts /\
    build_index checkpoint page_size b = Ok (index_of checkpoint page_size n t h, arts).
Proof.
  intros Hsize Hn Hpages Hlen Hsha Hck. destruct (leaves_ok page_size b n ltac:(lia) Hpages Hn Hlen) as (Hs & Ha & Hsum & Hlne & Hll).
  assert (n < 2 ^ 63) as Hn63 by nia.
  destruct (grow_builds page_size b (length (leaf_trees page_size b)) 0 (leaf_trees page_size b)
    (map node_artifact (leaves page_size b))) as (t & h & arts & Eg & Ht & Hh & Hf & Hc & Hin);
    [lia|done|lia|apply pow_64; unfold len in Hll; lia|done|done|lia| |].
  { intros x Hx. apply list_elem_of_fmap_2. unfold forest_nodes, leaf_trees in Hx. rewrite map_map in Hx. cbn in Hx.
    revert Hx. induction (leaves page_size b) as [|y l IH]; cbn; [by intros ?%not_elem_of_nil|].
    intros [->|Hx]%elem_of_cons; [left|right; by apply IH]. }
  assert (indexes page_size b n t h arts) as Hidx by (split_and!; try done; by rewrite Hc).
  exists t, h, arts. split; [done|]. unfold build_index. rewrite bool_decide_eq_true_2 by done.
  assert (len b mod page_size = 0 /\ len b / page_size = n) as [Hmod Hdiv].
  { rewrite Hpages. split; [apply Z_mod_mult|apply Z_div_mult; lia]. }
  rewrite Hmod, Hdiv. replace (page_size =? 0) with false by lia. replace (len b =? 0) with false by nia.
  rewrite Hck, !Z.eqb_refl. cbn [negb orb reject mbind result_bind]. unfold checked_mul.
  rewrite try_uint_id by (unfold is_uint, CHECKPOINT_INDEX_CAPACITY; lia). cbn [ok_or mbind result_bind].
  change (map (leaf_of page_size) (enumerate (chunks (Z.to_nat (page_size * CHECKPOINT_INDEX_CAPACITY)) b)))
    with (leaves page_size b).
  rewrite push_nodes.
  2:{ apply Forall_forall. intros x Hx. rewrite Forall_forall in Hs.
      by apply (sound_level page_size b 0 (INode x []) (Hs _ (list_elem_of_fmap_2 _ _ _ Hx))). }
  cbn [mbind result_bind app].
  assert (map indexed (leaves page_size b) = map item (leaf_trees page_size b)) as -> by (unfold leaf_trees; rewrite map_map; by apply map_ext).
  rewrite length_map, Eg. cbn [mbind result_bind last ok_or]. rewrite Hc, Hsum, Z.eqb_refl.
  cbn [negb reject mbind result_bind]. fold (index_of checkpoint page_size n t h).
  by rewrite (index_valid checkpoint page_size b n t h arts).
Qed.

Lemma indexes_verify checkpoint page_size b n t h arts read image : indexes page_size b n t h arts -> 0 < n -> 0 < page_size < 2 ^ 32 ->
  len b = n * page_size -> len b < 2 ^ 63 -> len b = ck_length checkpoint ->
  holds_artifacts read arts -> distinct_digests arts -> mi_checkpoint_page_index image = Some (index_of checkpoint page_size n t h) ->
  mi_checkpoint image = checkpoint -> mi_page_size image = page_size -> verify_checkpoint_index read image b = Ok tt.
Proof.
  intros Hidx Hn Hsize Hpages Hlen Hck Hread Hdist Hi Hcp Hps. unfold verify_checkpoint_index.
  rewrite Hi, Hcp, Hps, (index_valid checkpoint page_size b n t h arts) by done. destruct Hidx as (Ht & Hh & Hf & Hc & Hin).
  cbn [of_protocol map_err mbind result_bind index_of ci_root root_height ci_page_count].
  change (root_reference _) with (index_reference (tree_node t)).
  assert (Forall (serves_node read) (index_nodes t)) as Hserve.
  { apply Forall_forall. intros x Hx. exact (Hread _ (Hin x Hx)). }
  assert (no_collision (index_nodes t)) as Hno.
  { intros x y Hx Hy. exact (Hdist _ _ (Hin x Hx) (Hin y Hy)). }
  change (x_first_page (item t)) with (CheckpointIndexNode.first_page (tree_node t)) in Hf.
  change (x_page_count (item t)) with (CheckpointIndexNode.page_count (tree_node t)) in Hc.
  destruct (sound_level _ _ _ _ Ht) as (_ & _ & Hh0). rewrite <- Hf at 1. rewrite <- Hc.
  rewrite (tree_verifies page_size b read ltac:(lia) ltac:(lia) 65 h t ∅); try done; try lia.
  - by eapply uris_distinct.
  - apply Forall_forall. intros x _. apply not_elem_of_empty.
Qed.

(** C31: a checkpoint that passed the verification of its page index is described
    by it page by page: the tree under the root reference has one hash for every
    page, in order, and each is the hash of that page of the checkpoint. *)
Theorem checkpoint_index_authentic (read_metadata : ObjectReference -> rresult bytes) (image : MetadataImage)
    (checkpoint : bytes) (index : CheckpointPageIndex)
    (Hi : mi_checkpoint_page_index image = Some index)
    (E : verify_checkpoint_index read_metadata image checkpoint = Ok tt) :
  exists hashes, covers read_metadata (root_reference (ci_root index)) (root_height (ci_root index)) 1 (ci_page_count index) hashes /\
    len hashes = ci_page_count index /\ ci_page_count index * mi_page_size image = ck_length (mi_checkpoint image) /\
    forall p, 1 <= p <= ci_page_count index -> exists page,
      page_at (mi_page_size image) checkpoint p = Some page /\ hashes !! Z.to_nat (p - 1) = Some (digest page).
Proof.
  unfold verify_checkpoint_index in E. rewrite Hi in E. apply bind_unit in E as [Hv E].
  apply bind_ok in E as (seen & E & _). apply verify_node_sound in E as (hashes & Hc & Hl & Ha).
  exists hashes. split; [done|]. split; [done|]. split.
  { unfold of_protocol in Hv. apply map_err_ok in Hv. unfold validate_page_index in Hv. inv_ok. bool_to_prop.
    match goal with Hx : checked_mul _ _ _ = Some _ |- _ => apply try_uint_some in Hx as [-> _] end. congruence. }
  intros p Hp. unfold len in Hl. destruct (lookup_lt_is_Some_2 hashes (Z.to_nat (p - 1)) ltac:(lia)) as [h Hh].
  destruct (Ha _ _ Hh) as (page & Hpage & Hd). exists page. rewrite Hh. split; [|by rewrite Hd].
  rewrite <- Hpage. f_equal. lia.
Qed.

(** C30: building the page index of a checkpoint succeeds on every nonempty run of
    whole pages, and what it builds is accepted: with its artifacts in the store,
    the generation's verification of the index passes. *)
Theorem checkpoint_index_built (checkpoint : Checkpoint) (page_size : Z) (b : bytes)
    (Hsize : 0 < page_size < 2 ^ 32) (Hne : b <> []) (Hmod : len b mod page_size = 0) (Hlen : len b < 2 ^ 63)
    (Hsha : object_hash b = ck_sha256 checkpoint) (Hck : len b = ck_length checkpoint) :
  exists index artifacts, build_index checkpoint page_size b = Ok (index, artifacts) /\
    forall read_metadata image, holds_artifacts read_metadata artifacts -> distinct_digests artifacts ->
      mi_checkpoint_page_index image = Some index -> mi_checkpoint image = checkpoint -> mi_page_size image = page_size ->
      verify_checkpoint_index read_metadata image b = Ok tt.
Proof.
  pose proof (Z.div_mod (len b) page_size ltac:(lia)) as Hdiv. set (n := len b / page_size) in *.
  assert (0 < len b) as Hpos by (pose proof (len_nonneg b); pose proof (@len_zero _ b); destruct (Z.eq_dec (len b) 0); [naive_solver|lia]).
  assert (len b = n * page_size) as Hpages by lia. assert (0 < n) as Hn by nia.
  destruct (build_indexes checkpoint page_size n b) as (t & h & arts & Hidx & E); try done.
  eexists _, arts. split; [exact E|]. intros read image Hread Hdist Hi Hcp Hps. by eapply indexes_verify.
Qed.
End properties.

(** ** Examples *)

#[local] Instance example_hex : HexCrate := hex_reference.
#[local] Instance example_sha2 : Sha2Crate := sha2_reference.

(** 130 pages of two bytes: two leaves under one root. *)
Definition example_bytes : bytes := concat (map (fun i => [byte_of_Z i; Byte.x00]) (seqZ 1 130)).
Definition example_checkpoint : Checkpoint :=
  {| ck_table_version := 0; ck_uri := MkUri "c"; ck_sha256 := digest example_bytes; ck_length := 260 |}.
Definition example_built : CheckpointPageIndex * list Artifact :=
  ok_default (example_index, []) (build_index example_checkpoint 2 example_bytes).
Definition example_read (r : ObjectReference) : rresult bytes :=
  ok_or (a_bytes <$> find (fun a => bool_decide (a_uri a = or_uri r)) (snd example_built)) (corrupt "absent").
Definition example_image (index : CheckpointPageIndex) : MetadataImage :=
  {| mi_codec := "otmp.metadata.sqlite3-cow.v1"; mi_page_size := 2; mi_page_count := 130; mi_checkpoint := example_checkpoint;
     mi_page_map := None; mi_checkpoint_page_index := Some index; mi_image_root_sha256 := MkSha256 [] |}.

Lemma checkpoint_index_authentic_witness :
  let index := fst example_built in
  exists hashes, covers example_read (root_reference (ci_root index)) (root_height (ci_root index)) 1 (ci_page_count index) hashes /\
    len hashes = ci_page_count index /\ ci_page_count index * 2 = 260 /\
    forall p, 1 <= p <= ci_page_count index -> exists page,
      page_at 2 example_bytes p = Some page /\ hashes !! Z.to_nat (p - 1) = Some (digest page).
Proof.
  apply (checkpoint_index_authentic example_read (example_image (fst example_built)) example_bytes (fst example_built));
    vm_compute; reflexivity.
Defined.

Lemma checkpoint_index_built_witness :
  exists index artifacts, build_index example_checkpoint 2 example_bytes = Ok (index, artifacts) /\
    forall read_metadata image, holds_artifacts read_metadata artifacts -> distinct_digests artifacts ->
      mi_checkpoint_page_index image = Some index -> mi_checkpoint image = example_checkpoint -> mi_page_size image = 2 ->
      verify_checkpoint_index read_metadata image example_bytes = Ok tt.
Proof. apply (checkpoint_index_built example_checkpoint 2 example_bytes); vm_compute; (done || (split; done)). Defined.

(** A flipped byte is noticed. *)
Definition three_pages : bytes := take 6 example_bytes.
Definition three_checkpoint : Checkpoint := {| ck_table_version := 0; ck_uri := MkUri "c"; ck_sha256 := digest three_pages; ck_length := 6 |}.
Definition three_built : CheckpointPageIndex * list Artifact := ok_default (example_index, []) (build_index three_checkpoint 2 three_pages).
Definition three_verified (b : bytes) : bool :=
  is_ok (verify_checkpoint_index
    (fun r => ok_or (a_bytes <$> find (fun a => bool_decide (a_uri a = or_uri r)) (snd three_built)) (corrupt "absent"))
    {| mi_codec := "otmp.metadata.sqlite3-cow.v1"; mi_page_size := 2; mi_page_count := 3; mi_checkpoint := three_checkpoint;
       mi_page_map := None; mi_checkpoint_page_index := Some (fst three_built); mi_image_root_sha256 := MkSha256 [] |} b).
Lemma example_tampered : three_verified three_pages = true /\ three_verified (take 5 three_pages ++ [Byte.x01]) = false.
Proof. vm_compute. done. Qed.
