(* ===== verification/Resolve.v ===== *)
(** Resolving a generation into the bytes of its metadata image
    (otmp/src/physical.rs, [resolve_generation]): the checkpoint, the page map over
    it and the packs the map points into. *)
From S2P Require Import Prelude Bytes Errors Values Scalars Cbor PageMap CheckpointIndex PagePack Hashes PageTree PagePersist.
From S2P Require Import PageLoad ByteArray Objects CheckpointBuild.

Definition CHECKPOINT_MEDIA_TYPE : string := "application/vnd.sqlite3".
Definition SQLITE_MAGIC : bytes := as_bytes "SQLite format 3" ++ [Byte.x00].

(** SQLite on an image, and zstd. *)
Class ImageCrates := {
  (** SELECT table_id, table_version FROM otmp_meta *)
  sql_meta : bytes -> result string (bytes * Z);
  (** PRAGMA page_size, PRAGMA page_count *)
  sql_page_size : bytes -> result string Z;
  sql_page_count : bytes -> result string Z;
  (** [zstd::bulk::decompress(source, capacity)] *)
  zstd_decompress : bytes -> Z -> result string bytes }.

(** A refusal, or a panic of the slicing and division operations. *)
Inductive resolve_fault := Refused (e : rerror) | Panic.
Notation fresult := (result resolve_fault).
Definition refuse {A} (m : rresult A) : fresult A := map_err Refused m.
Definition refuse_if (b : bool) (message : string) : fresult unit := reject b (Refused (corrupt message)).
(** [&l[s..e]] *)
Definition slice_or_panic {A} (l : list A) (s e : Z) : fresult (list A) := ok_or (slice l s e) Panic.
(** [l[s..e].copy_from_slice(d)] *)
Definition copy_into (l : bytes) (s : Z) (d : bytes) : fresult bytes :=
  _ ← slice_or_panic l s (s + len d); Ok (copy_at s d l).

Record ResolvedGeneration := { rg_checkpoint : bytes; rg_bytes : bytes; rg_tree : option Tree }.

Section resolve.
Context `{HexCrate, Sha2Crate, ImageCrates}.
(** [Table::read_metadata]: the bytes of the object, verified against the reference. *)
Context (read_metadata : ObjectReference -> rresult bytes).

Definition checkpoint_object (c : Checkpoint) : ObjectReference :=
  {| or_uri := ck_uri c; or_sha256 := ck_sha256 c; or_length := Some (ck_length c);
     or_media_type := Some CHECKPOINT_MEDIA_TYPE |}.

(** The checks on the checkpoint by itself. *)
Definition check_layout (page_size : Z) (checkpoint : bytes) : fresult unit :=
  short ← (if len checkpoint <? page_size then Ok true
           else _ ← reject (page_size =? 0) Panic;
                if negb (len checkpoint mod page_size =? 0) then Ok true
                else head ← slice_or_panic checkpoint 0 16; Ok (negb (bool_decide (head = SQLITE_MAGIC))));
  refuse_if short "invalid base checkpoint layout".

Definition check_base (g : Generation) (checkpoint : bytes) : fresult unit :=
  let image := g_metadata_image g in
  '(table, version) ← refuse (map_err RuntimeError.Sqlite (sql_meta checkpoint));
  base_page_size ← refuse (map_err RuntimeError.Sqlite (sql_page_size checkpoint));
  base_pages ← refuse (map_err RuntimeError.Sqlite (sql_page_count checkpoint));
  refuse_if (negb (bool_decide (table = id_bytes (g_table_id g))) || negb (version =? ck_table_version (mi_checkpoint image))
             || negb (base_page_size =? mi_page_size image) || negb (base_pages =? len checkpoint / mi_page_size image))
    "base checkpoint identity mismatch".

Definition load_image_tree (image : MetadataImage) : rresult (option Tree) :=
  match mi_page_map image with
  | Some root =>
    '(tree, _) ← load_tree (fun r => read_metadata (object r PAGE_MAP_MEDIA_TYPE)) 65
                   (root_reference root) (root_height root) 0 (mi_page_count image) ∅;
    Ok (Some tree)
  | None => Ok None
  end.

(** A pack that has been read: its reference, bytes and index. *)
Definition Packs : Type := list (string * (PageObjectReference * bytes * PackIndex)).

Definition open_pack (page_size : Z) (packs : Packs) (pack : PageObjectReference) : fresult Packs :=
  match bt_get (uri_str (ref_uri pack)) packs with
  | Some (reference, _, _) => _ ← refuse_if (negb (bool_decide (reference = pack))) "conflicting pack references"; Ok packs
  | None =>
    raw ← refuse (read_metadata (object pack PAGE_PACK_MEDIA_TYPE));
    index ← refuse (of_protocol (decode_pack_index raw));
    _ ← refuse_if (negb (pi_page_size index =? page_size)) "pack page size mismatch";
    Ok (bt_insert (uri_str (ref_uri pack)) (pack, raw, index) packs)
  end.

Definition find_indexed (index : PackIndex) (page_number : Z) : option PackIndexEntry :=
  match binary_search_by (fun e => p_page_number e ?= page_number) (pi_entries index) with
  | Ok position => pi_entries index !! position
  | Err _ => None
  end.

(** The page an entry of the map stands for. *)
Definition read_page (page_size : Z) (raw : bytes) (index : PackIndex) (e : PageMapEntry) : fresult bytes :=
  indexed ← ok_or (find_indexed index (e_page_number e)) (Refused (corrupt "mapped page absent from pack index"));
  _ ← refuse_if (negb (p_offset indexed =? e_offset e) || negb (bool_decide (p_codec indexed = e_codec e))
                 || negb (p_raw_length indexed =? e_raw_length e) || negb (p_stored_length indexed =? e_stored_length e)
                 || negb (bool_decide (p_page_sha256 indexed = e_page_sha256 e)))
        "map disagrees with pack index";
  stored ← slice_or_panic raw (e_offset e) (e_offset e + e_stored_length e);
  page ← match e_codec e with
         | PageCodec.None => Ok stored
         | PageCodec.Zstd => refuse (map_err RuntimeError.Io (zstd_decompress stored page_size))
         end;
  _ ← refuse_if (negb (len page =? page_size) || negb (bool_decide (digest page = e_page_sha256 e)))
        "invalid decompressed page length or hash";
  Ok page.

(** One round of the loop over the entries. *)
Definition apply_entry (page_size : Z) (st : bytes * Packs) (e : PageMapEntry) : fresult (bytes * Packs) :=
  let '(image, packs) := st in
  _ ← refuse_if (negb (e_raw_length e =? page_size)) "page-map raw length mismatch";
  packs ← open_pack page_size packs (e_pack e);
  '(_, raw, index) ← ok_or (bt_get (uri_str (ref_uri (e_pack e))) packs) Panic;
  page ← read_page page_size raw index e;
  image ← copy_into image ((e_page_number e - 1) * page_size) page;
  Ok (image, packs).

Definition resolve_generation (g : Generation) : fresult ResolvedGeneration :=
  let image := g_metadata_image g in
  let page_size := mi_page_size image in
  checkpoint ← refuse (read_metadata (checkpoint_object (mi_checkpoint image)));
  _ ← check_layout page_size checkpoint;
  _ ← refuse (verify_checkpoint_index read_metadata image checkpoint);
  _ ← check_base g checkpoint;
  _ ← refuse_if (negb (bool_decide (image_root_hash (g_table_id g) (g_table_version g) page_size (mi_page_count image)
                                      (ck_sha256 (mi_checkpoint image)) (root_sha256 <$> mi_page_map image)
                                    = mi_image_root_sha256 image)))
        "metadata image root mismatch";
  length ← ok_or (checked_mul 64 (mi_page_count image) page_size) (Refused (corrupt "image length overflow"));
  _ ← refuse_if (length =? 0) "empty metadata image";
  tree ← refuse (load_image_tree image);
  _ ← refuse_if (negb (bool_decide (is_Some tree)) && negb (length =? len checkpoint)) "incomplete null-map checkpoint";
  let entries := match tree with Some t => flatten t [] | None => [] end in
  let base_pages := len checkpoint / page_size in
  _ ← refuse_if (negb (len (filter (fun kv => base_pages + 1 <= kv.1) entries)
                       =? saturating_sub (mi_page_count image) base_pages))
        "missing extended image page";
  let copied := Z.min length (len checkpoint) in
  let start := copy_at 0 (range 0 copied checkpoint) (zero_bytes length) in
  '(bytes, _) ← try_fold (apply_entry page_size) (start, []) (map snd entries);
  header ← slice_or_panic bytes 28 32;
  _ ← refuse_if (negb (be_val header =? mi_page_count image)) "resolved header page count mismatch";
  Ok {| rg_checkpoint := checkpoint; rg_bytes := bytes; rg_tree := tree |}.
End resolve.

(** ** Pages *)

Lemma slice_range l s e : 0 <= s <= e -> e <= len l -> slice l s e = Some (range s e l).
Proof. intros Hs He. by apply slice_some. Qed.

Section pages.
Context (page_size : Z) (Hsize : 0 < page_size).

Lemma page_at_range b n : 1 <= n -> n * page_size <= len b ->
  page_at page_size b n = Some (range ((n - 1) * page_size) (n * page_size) b).
Proof. intros Hn Hb. unfold page_at. apply slice_range; nia. Qed.

Lemma page_at_some b n page : page_at page_size b n = Some page ->
  1 <= n /\ n * page_size <= len b /\ len page = page_size /\ page = range ((n - 1) * page_size) (n * page_size) b.
Proof.
  unfold page_at. intros Hp. pose proof (slice_len _ _ _ _ Hp). apply slice_some in Hp as (? & ? & ->).
  split_and!; try done; nia.
Qed.

(** Arrays of whole pages with the same pages are equal. *)
Lemma pages_ext count a b : len a = count * page_size -> len b = count * page_size ->
  (forall n, 1 <= n <= count -> page_at page_size a n = page_at page_size b n) -> a = b.
Proof.
  intros Ha Hb Hp. apply ix_ext; [lia|]. intros i Hi. set (n := i / page_size + 1).
  pose proof (Z.div_mod i page_size ltac:(lia)) as Hd. pose proof (Z.mod_pos_bound i page_size Hsize) as Hm.
  assert (1 <= n <= count) as Hn by (unfold n; nia). specialize (Hp n Hn).
  rewrite !page_at_range in Hp by nia. injection Hp as Hp. apply (f_equal (fun r => ix r (i mod page_size))) in Hp.
  rewrite !ix_range in Hp by (unfold n in *; nia).
  replace ((n - 1) * page_size + i mod page_size) with i in Hp by (unfold n; nia). done.
Qed.

Lemma page_at_copy b n page m : 1 <= n -> n * page_size <= len b -> len page = page_size -> 1 <= m ->
  page_at page_size (copy_at ((n - 1) * page_size) page b) m = if m =? n then Some page else page_at page_size b m.
Proof.
  intros Hn Hb Hp Hm. assert (len (copy_at ((n - 1) * page_size) page b) = len b) as Hl by (apply copy_at_len; nia).
  destruct (Z.le_gt_cases (m * page_size) (len b)) as [Hle|Hgt].
  - rewrite !page_at_range by lia. destruct (Z.eqb_spec m n) as [->|Hne].
    + f_equal. apply range_eq; rewrite ?Hl; try nia. intros i Hi. rewrite ix_copy_at by nia.
      replace (_ && _) with true by nia. done.
    + f_equal. apply range_eq; rewrite ?Hl; try nia; [rewrite range_len; nia|]. intros i Hi.
      rewrite ix_copy_at by nia. rewrite ix_range by nia. replace (_ && _) with false by nia. f_equal. lia.
  - destruct (Z.eqb_spec m n) as [->|]; [lia|]. unfold page_at, slice. rewrite Hl.
    replace (m * page_size <=? len b) with false by lia. by rewrite !andb_false_r.
Qed.
End pages.

(** ** The loop over the entries *)

Lemma lookup_page_cons p n e es : increasing p (pages_of (e :: es)) ->
  lookup_page n (e :: es) = if n =? e_page_number e then Some e else lookup_page n es.
Proof.
  intros Hi. unfold lookup_page. cbn [keyed map bt_get]. fold (keyed es).
  destruct (Z.eqb_spec n (e_page_number e)) as [->|Hne]; [by rewrite ocmp_refl|].
  destruct (ocmp n (e_page_number e)) eqn:E; [by apply ocmp_eq in E| |done].
  symmetry. change (n ?= e_page_number e = Lt) in E. rewrite Z.compare_lt_iff in E.
  destruct (bt_get n (keyed es)) as [e'|] eqn:Eg; [|done]. exfalso.
  apply bt_get_some_elem, list_elem_of_fmap in Eg as (e2 & [= -> ->] & Hin).
  apply increasing_cons in Hi as [_ Hi%increasing_above]. rewrite Forall_forall in Hi.
  specialize (Hi (e_page_number e2) (list_elem_of_fmap_2 _ _ _ Hin)). lia.
Qed.

Section loop.
Context `{HexCrate, Sha2Crate, ImageCrates} (read_metadata : ObjectReference -> rresult bytes) (page_size : Z) (Hsize : 0 < page_size).

(** The pack named by a reference, opened. *)
Definition opens (pack : PageObjectReference) (raw : bytes) (index : PackIndex) : Prop :=
  read_metadata (object pack PAGE_PACK_MEDIA_TYPE) = Ok raw /\ decode_pack_index raw = Ok index /\ pi_page_size index = page_size.

(** The page an entry stands for. *)
Definition mapped (e : PageMapEntry) (page : bytes) : Prop :=
  e_raw_length e = page_size /\
  exists raw index, opens (e_pack e) raw index /\ read_page page_size raw index e = Ok page.

Lemma mapped_functional e p q : mapped e p -> mapped e q -> p = q.
Proof. intros (_ & r & i & (? & ? & ?) & ?) (_ & r' & i' & (? & ? & ?) & ?). congruence. Qed.

Lemma read_page_ok raw index e page : read_page page_size raw index e = Ok page ->
  len page = page_size /\ digest page = e_page_sha256 e.
Proof.
  unfold read_page. intros E. apply bind_ok in E as (i & _ & E). apply bind_reject in E as [_ E].
  apply bind_ok in E as (st & _ & E). apply bind_ok in E as (p & _ & E). apply bind_reject in E as [Hc [= <-]].
  bool_to_prop. done.
Qed.

Lemma mapped_page e page : mapped e page -> len page = page_size /\ digest page = e_page_sha256 e.
Proof. intros (_ & r & i & _ & E). by eapply read_page_ok. Qed.

(** The packs read so far are those of the references met so far. *)
Definition packs_ok (known : list PageObjectReference) (packs : Packs) : Prop :=
  bt_sorted packs /\
  (forall k r raw index, bt_get k packs = Some (r, raw, index) -> k = uri_str (ref_uri r) /\ r ∈ known /\ opens r raw index) /\
  forall r, r ∈ known -> exists raw index, bt_get (uri_str (ref_uri r)) packs = Some (r, raw, index).

(** References with one name are one reference. *)
Definition uri_unique (refs : list PageObjectReference) : Prop :=
  forall r r', r ∈ refs -> r' ∈ refs -> uri_str (ref_uri r) = uri_str (ref_uri r') -> r = r'.

Lemma packs_unique known packs : packs_ok known packs -> uri_unique known.
Proof.
  intros (_ & _ & Hk) r r' Hr Hr' E. destruct (Hk r Hr) as (? & ? & Hg). destruct (Hk r' Hr') as (? & ? & Hg'). congruence.
Qed.

Lemma open_pack_ok known packs pack packs' : packs_ok known packs -> open_pack read_metadata page_size packs pack = Ok packs' ->
  packs_ok (pack :: known) packs'.
Proof.
  intros (Hs & Hp & Hk) E. unfold open_pack in E. destruct (bt_get _ packs) as [[[r raw] index]|] eqn:Eg.
  - apply bind_reject in E as [Hr [= <-]]. bool_to_prop. subst. split; [done|]. split.
    + intros k r raw' index' Hg. destruct (Hp _ _ _ _ Hg) as (? & ? & ?). split; [done|]. split; [by right|done].
    + intros r [->|Hr]%elem_of_cons; [by exists raw, index|by apply Hk].
  - apply bind_ok in E as (raw & Hraw & E). apply bind_ok in E as (index & Hi & E). apply bind_reject in E as [Hps [= <-]].
    unfold refuse, of_protocol in *. apply map_err_ok in Hraw, Hi. apply map_err_ok in Hi. bool_to_prop.
    split; [by apply bt_sorted_insert|]. split.
    + intros k r raw' index'. rewrite bt_get_insert by done. destruct (ocmp k _) eqn:Ec.
      * apply ocmp_eq in Ec as ->. intros [= <- <- <-]. split; [done|]. split; [by left|done].
      * intros Hg. destruct (Hp _ _ _ _ Hg) as (? & ? & ?). split; [done|]. split; [by right|done].
      * intros Hg. destruct (Hp _ _ _ _ Hg) as (? & ? & ?). split; [done|]. split; [by right|done].
    + intros r Hr. rewrite bt_get_insert by done. destruct (ocmp _ _) eqn:Ec.
      * apply ocmp_eq in Ec. apply elem_of_cons in Hr as [->|Hr]; [by exists raw, index|].
        destruct (Hk r Hr) as (? & ? & Hg). congruence.
      * apply elem_of_cons in Hr as [->|Hr]; [by rewrite ocmp_refl in Ec|by apply Hk].
      * apply elem_of_cons in Hr as [->|Hr]; [by rewrite ocmp_refl in Ec|by apply Hk].
Qed.

Lemma open_pack_succeeds known packs pack raw index : packs_ok known packs -> uri_unique (pack :: known) -> opens pack raw index ->
  exists packs', open_pack read_metadata page_size packs pack = Ok packs'.
Proof.
  intros (Hs & Hp & Hk) Hu (Hr & Hd & Hz). unfold open_pack. destruct (bt_get _ packs) as [[[r raw'] index']|] eqn:Eg.
  - destruct (Hp _ _ _ _ Eg) as (Ek & Hin & _). exists packs.
    rewrite (Hu r pack); [by rewrite bool_decide_eq_true_2|by right|by left|by rewrite Ek].
  - eexists. rewrite Hr. cbn [refuse map_err mbind result_bind]. rewrite Hd. cbn [of_protocol refuse map_err mbind result_bind].
    rewrite Hz, Z.eqb_refl. reflexivity.
Qed.

Lemma apply_entry_ok known img packs e img' packs' : packs_ok known packs ->
  apply_entry read_metadata page_size (img, packs) e = Ok (img', packs') ->
  packs_ok (e_pack e :: known) packs' /\
  exists page, mapped e page /\ 1 <= e_page_number e /\ e_page_number e * page_size <= len img /\
    img' = copy_at ((e_page_number e - 1) * page_size) page img.
Proof.
  intros Hp E. unfold apply_entry in E. apply bind_reject in E as [Hl E]. bool_to_prop.
  apply bind_ok in E as (packs1 & Ho & E). pose proof (open_pack_ok _ _ _ _ Hp Ho) as Hp1.
  apply bind_ok in E as ([[r raw] index] & Hg & E). apply ok_or_ok in Hg.
  apply bind_ok in E as (page & Hr & E). apply bind_ok in E as (img1 & Hc & [= <- <-]).
  split; [done|]. destruct (read_page_ok _ _ _ _ Hr) as [Hlp _]. pose proof Hp1 as (_ & Hp2 & Hk2).
  destruct (Hp2 _ _ _ _ Hg) as (_ & _ & Hopen). destruct (Hk2 (e_pack e) ltac:(left)) as (raw' & index' & Hg').
  assert (r = e_pack e) as -> by congruence. exists page. split; [split; [done|]; by exists raw, index|].
  unfold copy_into in Hc. apply bind_ok in Hc as (u & Hs & [= <-]). apply ok_or_ok, slice_some in Hs as (? & ? & _).
  split_and!; try done; nia.
Qed.

Lemma apply_entry_succeeds known img packs e page : packs_ok known packs -> uri_unique (e_pack e :: known) -> mapped e page ->
  1 <= e_page_number e -> e_page_number e * page_size <= len img ->
  exists st, apply_entry read_metadata page_size (img, packs) e = Ok st.
Proof.
  intros Hp Hu (Hl & raw & index & Ho & Hr) Hn Hb. destruct (open_pack_succeeds _ _ _ _ _ Hp Hu Ho) as [packs' E].
  pose proof (open_pack_ok _ _ _ _ Hp E) as (_ & Hp2 & Hk2). destruct (Hk2 (e_pack e) ltac:(left)) as (raw' & index' & Hg).
  destruct (Hp2 _ _ _ _ Hg) as (_ & _ & (Ho1 & Ho2 & Ho3)). destruct Ho as (Ho4 & Ho5 & _).
  assert (raw' = raw) as -> by congruence. assert (index' = index) as -> by congruence.
  destruct (read_page_ok _ _ _ _ Hr) as [Hlp _].
  unfold apply_entry. rewrite Hl, Z.eqb_refl. cbn [negb refuse_if reject mbind result_bind]. rewrite E. cbn [mbind result_bind].
  rewrite Hg. cbn [ok_or mbind result_bind]. rewrite Hr. cbn [mbind result_bind]. unfold copy_into, slice_or_panic.
  rewrite slice_range by nia. cbn. eauto.
Qed.

(** What the loop leaves: the mapped pages of the entries, the others as before. *)
Lemma entries_applied es : forall known p img packs img' packs', packs_ok known packs -> 0 <= p -> increasing p (pages_of es) ->
  try_fold (apply_entry read_metadata page_size) (img, packs) es = Ok (img', packs') ->
  len img' = len img /\ packs_ok (rev (map e_pack es) ++ known) packs' /\
  Forall (fun e => exists page, mapped e page) es /\
  forall m, 1 <= m -> match lookup_page m es with
    | Some e => exists page, mapped e page /\ page_at page_size img' m = Some page
    | None => page_at page_size img' m = page_at page_size img m
    end.
Proof.
  induction es as [|e es IH]; intros known p img packs img' packs' Hp Hpos Hi E; cbn [try_fold] in E.
  { injection E as <- <-. split_and!; try done. }
  apply bind_ok in E as ([img1 packs1] & E1 & E). destruct (apply_entry_ok _ _ _ _ _ _ Hp E1) as (Hp1 & page & Hm & Hn & Hb & ->).
  destruct (mapped_page _ _ Hm) as [Hlp _]. pose proof Hi as Hi0. cbn [pages_of map] in Hi. apply increasing_cons in Hi as [Hlt Hi].
  destruct (IH _ (e_page_number e) _ _ _ _ Hp1 ltac:(lia) Hi E) as (Hl & Hp' & Hall & Hpages). rewrite copy_at_len in Hl by nia.
  split; [done|]. split; [cbn [map rev]; by rewrite <- app_assoc|]. split; [constructor; [by exists page|done]|].
  intros m Hm1. specialize (Hpages m Hm1). rewrite (lookup_page_cons p) by done.
  rewrite (page_at_copy page_size Hsize) in Hpages by done. destruct (Z.eqb_spec m (e_page_number e)) as [Em|Hne].
  - destruct (lookup_page _ es) as [e'|] eqn:El; [|exists page; done]. exfalso. rewrite Em in El.
    apply bt_get_some_elem, list_elem_of_fmap in El as (e2 & [= E2 <-] & Hin). apply increasing_above in Hi.
    rewrite Forall_forall in Hi. specialize (Hi _ (list_elem_of_fmap_2 e_page_number _ _ Hin)). lia.
  - done.
Qed.

Lemma entries_succeed es : forall known p img packs, packs_ok known packs -> 0 <= p -> increasing p (pages_of es) ->
  uri_unique (map e_pack es ++ known) ->
  Forall (fun e => (exists page, mapped e page) /\ e_page_number e * page_size <= len img) es ->
  exists st, try_fold (apply_entry read_metadata page_size) (img, packs) es = Ok st.
Proof.
  induction es as [|e es IH]; intros known p img packs Hp Hpos Hi Hu Hall; cbn [try_fold]; [eauto|].
  apply Forall_cons in Hall as [[[page Hm] Hb] Hall]. cbn [pages_of map] in Hi. apply increasing_cons in Hi as [Hlt Hi].
  destruct (apply_entry_succeeds known img packs e page Hp) as [[img1 packs1] E]; [|done|lia|done|].
  { intros r r' Hr Hr'. apply Hu; cbn [map app]; [apply elem_of_cons in Hr as [->|Hr]|apply elem_of_cons in Hr' as [->|Hr']];
      try (by left); right; apply elem_of_app; by right. }
  rewrite E. cbn [mbind result_bind]. destruct (apply_entry_ok _ _ _ _ _ _ Hp E) as (Hp1 & page' & Hm' & _ & _ & ->).
  destruct (mapped_page _ _ Hm') as [Hlp _].
  apply (IH (e_pack e :: known) (e_page_number e)); [done|lia|done| |].
  - intros r r' Hr Hr'. apply Hu; cbn [map app]; [revert Hr|revert Hr']; rewrite !elem_of_cons, !elem_of_app, !elem_of_cons; tauto.
  - eapply Forall_impl; [exact Hall|]. intros e' [? ?]. rewrite copy_at_len by nia. done.
Qed.
End loop.

(** ** What resolution establishes *)

Lemma increasing_nodup p l : increasing p l -> NoDup l.
Proof.
  unfold increasing. intros [Hs _]%StronglySorted_inv. induction Hs as [|x l Hs IH Hx]; [constructor|].
  constructor; [|done]. intros Hin. rewrite Forall_forall in Hx. specialize (Hx x Hin). lia.
Qed.

Lemma lookup_page_is_some p n es : increasing p (pages_of es) -> is_Some (lookup_page n es) <-> n ∈ pages_of es.
Proof.
  revert p. induction es as [|e es IH]; intros p Hi.
  - split; [by intros [? ?]|by intros ?%not_elem_of_nil].
  - rewrite (lookup_page_cons p) by done. cbn [pages_of map] in *. apply increasing_cons in Hi as [_ Hi].
    rewrite elem_of_cons, <- (IH _ Hi). destruct (Z.eqb_spec n (e_page_number e)); [|naive_solver].
    split; [by left|by eexists].
Qed.

(** Counting the entries past the checkpoint tells whether any page is missing. *)
Lemma extended_count es base count : increasing 0 (pages_of es) -> Forall (fun n => n <= count) (pages_of es) -> 0 <= base ->
  len (filter (fun kv : Z * PageMapEntry => base + 1 <= kv.1) (keyed es)) = saturating_sub count base <->
  forall n, base < n <= count -> is_Some (lookup_page n es).
Proof.
  intros Hi Hc Hb. set (l := filter (fun n => base + 1 <= n) (pages_of es)).
  assert (len (filter (fun kv : Z * PageMapEntry => base + 1 <= kv.1) (keyed es)) = len l) as ->.
  { unfold l, len. clear. induction es as [|e es IH]; [done|]. cbn [keyed map pages_of]. rewrite !filter_cons. cbn [fst].
    destruct (decide _); cbn [length]; unfold keyed, pages_of in IH; lia. }
  assert (NoDup l) as Hn by (apply NoDup_filter; by eapply increasing_nodup).
  assert (forall x, x ∈ l <-> base < x <= count /\ x ∈ pages_of es) as Hl.
  { intros x. unfold l. rewrite list_elem_of_filter. rewrite Forall_forall in Hc. split; [|naive_solver lia].
    intros [? Hx]. specialize (Hc x Hx). naive_solver lia. }
  assert (length (seqZ (base + 1) (count - base)) = Z.to_nat (saturating_sub count base)) as Hlen.
  { rewrite length_seqZ. unfold saturating_sub. lia. }
  split.
  - intros E n Hx. apply (lookup_page_is_some 0); [done|].
    assert (l ≡ₚ seqZ (base + 1) (count - base)) as Hp.
    { apply submseteq_length_Permutation; [|unfold len in E; lia]. apply NoDup_submseteq; [done|].
      intros x [? _]%Hl. apply elem_of_seqZ. lia. }
    apply (Hl n). rewrite Hp. apply elem_of_seqZ. lia.
  - intros Hall. assert (l ≡ₚ seqZ (base + 1) (count - base)) as Hp.
    { apply NoDup_Permutation; [done|apply NoDup_seqZ|]. intros x. rewrite Hl, elem_of_seqZ.
      split; [lia|]. intros Hx. split; [lia|]. apply (lookup_page_is_some 0); [done|]. apply Hall. lia. }
    apply Permutation_length in Hp. unfold len. rewrite Hp, Hlen. unfold saturating_sub. lia.
Qed.

Section resolves.
Context `{HexCrate, Sha2Crate, ImageCrates} (read_metadata : ObjectReference -> rresult bytes).

(** The map's tree is in the store, and its entries lie within the image. *)
Definition tree_resolves (image : MetadataImage) (tree : option Tree) : Prop :=
  match mi_page_map image with
  | Some root => exists t, tree = Some t /\ root_reference root = t_reference t /\
      loads (fun r => read_metadata (object r PAGE_MAP_MEDIA_TYPE)) t (root_height root) 0 (mi_page_count image) ∅
  | None => tree = None
  end.

Definition base_matches (g : Generation) (checkpoint : bytes) : Prop :=
  sql_meta checkpoint = Ok (id_bytes (g_table_id g), ck_table_version (mi_checkpoint (g_metadata_image g))) /\
  sql_page_size checkpoint = Ok (mi_page_size (g_metadata_image g)) /\
  sql_page_count checkpoint = Ok (len checkpoint / mi_page_size (g_metadata_image g)).

(** The image of a generation, page by page: the mapped page where the map has an
    entry, the checkpoint's page elsewhere. *)
Record resolves (g : Generation) (r : ResolvedGeneration) : Prop := {
  rs_checkpoint : read_metadata (checkpoint_object (mi_checkpoint (g_metadata_image g))) = Ok (rg_checkpoint r);
  rs_layout : 0 < mi_page_size (g_metadata_image g) <= len (rg_checkpoint r) /\
    len (rg_checkpoint r) mod mi_page_size (g_metadata_image g) = 0 /\ slice (rg_checkpoint r) 0 16 = Some SQLITE_MAGIC;
  rs_index : verify_checkpoint_index read_metadata (g_metadata_image g) (rg_checkpoint r) = Ok tt;
  rs_base : base_matches g (rg_checkpoint r);
  rs_root : image_root_hash (g_table_id g) (g_table_version g) (mi_page_size (g_metadata_image g))
      (mi_page_count (g_metadata_image g)) (ck_sha256 (mi_checkpoint (g_metadata_image g)))
      (root_sha256 <$> mi_page_map (g_metadata_image g)) = mi_image_root_sha256 (g_metadata_image g);
  rs_count : 0 < mi_page_count (g_metadata_image g);
  rs_length : len (rg_bytes r) = mi_page_count (g_metadata_image g) * mi_page_size (g_metadata_image g) /\ len (rg_bytes r) < 2 ^ 64;
  rs_tree : tree_resolves (g_metadata_image g) (rg_tree r);
  rs_whole : rg_tree r = None -> len (rg_bytes r) = len (rg_checkpoint r);
  rs_packs : uri_unique (map e_pack (image_entries (rg_tree r)));
  rs_pages n : 1 <= n <= mi_page_count (g_metadata_image g) ->
    match lookup_page n (image_entries (rg_tree r)) with
    | Some e => exists page, mapped read_metadata (mi_page_size (g_metadata_image g)) e page /\
        page_at (mi_page_size (g_metadata_image g)) (rg_bytes r) n = Some page
    | None => page_at (mi_page_size (g_metadata_image g)) (rg_bytes r) n =
              page_at (mi_page_size (g_metadata_image g)) (rg_checkpoint r) n
    end;
  rs_header : exists header, slice (rg_bytes r) 28 32 = Some header /\ be_val header = mi_page_count (g_metadata_image g) }.
End resolves.

Section iff.
Context `{HexCrate, Sha2Crate, ImageCrates} (read_metadata : ObjectReference -> rresult bytes).

Lemma check_layout_ok page_size b : 0 <= page_size ->
  check_layout page_size b = Ok tt <-> 0 < page_size <= len b /\ len b mod page_size = 0 /\ slice b 0 16 = Some SQLITE_MAGIC.
Proof.
  intros Hp. unfold check_layout, refuse_if. destruct (Z.ltb_spec (len b) page_size) as [|Hl]; cbn [mbind result_bind].
  { split; [done|]. intros [? _]. lia. }
  destruct (Z.eqb_spec page_size 0) as [->|Hn]; cbn [reject mbind result_bind]; [split; [done|lia]|].
  destruct (Z.eqb_spec (len b mod page_size) 0) as [E|E]; cbn [negb mbind result_bind].
  2:{ split; [done|naive_solver]. }
  unfold slice_or_panic. destruct (slice b 0 16) as [h|]; cbn [ok_or mbind result_bind]; [|split; [done|naive_solver]].
  destruct (decide (h = SQLITE_MAGIC)) as [->|Hne].
  - rewrite bool_decide_eq_true_2 by done. cbn. split; [|done]. intros _. split_and!; (done || lia).
  - rewrite bool_decide_eq_false_2 by done. cbn. split; [done|]. intros (_ & _ & [= E2]). done.
Qed.

Lemma check_base_ok g b : check_base g b = Ok tt <-> base_matches g b.
Proof.
  unfold check_base, base_matches, refuse, refuse_if.
  destruct (sql_meta b) as [[table version]|]; cbn [map_err mbind result_bind]; [|split; [done|by intros (? & _)]].
  destruct (sql_page_size b) as [ps|]; cbn [map_err mbind result_bind]; [|split; [done|by intros (_ & ? & _)]].
  destruct (sql_page_count b) as [pc|]; cbn [map_err mbind result_bind]; [|split; [done|by intros (_ & _ & ?)]].
  rewrite reject_ok. split.
  - intros E. bool_to_prop. subst. done.
  - intros ([= -> ->] & [= ->] & [= ->]). rewrite bool_decide_eq_true_2 by done. by rewrite !Z.eqb_refl.
Qed.

Lemma load_image_tree_ok image tree : load_image_tree read_metadata image = Ok tree <-> tree_resolves read_metadata image tree.
Proof.
  unfold load_image_tree, tree_resolves. destruct (mi_page_map image) as [root|]; [|split; [by intros [= <-]|by intros ->]].
  set (rd := fun r => read_metadata (object r PAGE_MAP_MEDIA_TYPE)). split.
  - intros E. apply bind_ok in E as ([t seen] & Hl & [= <-]). apply load_tree_iff in Hl as (? & ? & _); [|lia]. by exists t.
  - intros (t & -> & Hr & Hl). rewrite (proj2 (load_tree_iff rd 65 t (root_reference root) (root_height root) 0
      (mi_page_count image) ∅ _ ltac:(lia)) (conj Hr (conj Hl eq_refl))). done.
Qed.

(** The entries of a loaded tree: in order, within the image. *)
Lemma tree_entries image tree : 0 <= mi_page_count image -> tree_resolves read_metadata image tree ->
  match tree with Some t => flatten t [] | None => [] end = keyed (image_entries tree) /\
  increasing 0 (pages_of (image_entries tree)) /\ Forall (fun n => n <= mi_page_count image) (pages_of (image_entries tree)).
Proof.
  intros Hc. unfold tree_resolves. destruct (mi_page_map image) as [root|].
  - intros (t & -> & _ & (_ & Hs & Hi & Hu & _)). cbn [image_entries]. split; [|done].
    by apply (flatten_keyed (root_height root)).
  - intros ->. cbn. split; [done|]. split; [apply increasing_nil|constructor].
Qed.

Lemma start_pages page_size (b : bytes) length n : 0 < page_size -> len b mod page_size = 0 -> length mod page_size = 0 ->
  0 <= length -> 1 <= n -> n * page_size <= length ->
  let start := copy_at 0 (range 0 (Z.min length (len b)) b) (zero_bytes length) in
  len start = length /\ (n <= len b / page_size -> page_at page_size start n = page_at page_size b n).
Proof.
  intros Hp Hb Hl Hpos Hn Hnl start. pose proof (len_nonneg b) as Hlb.
  assert (len (range 0 (Z.min length (len b)) b) = Z.min length (len b)) as Hr by (rewrite range_len; lia).
  assert (len start = length) as Hs by (unfold start; rewrite copy_at_len; rewrite ?zero_bytes_len, ?Hr; lia).
  split; [done|]. intros Hle. assert (n * page_size <= len b) as Hnb by (pose proof (Z.div_mod (len b) page_size ltac:(lia)); nia).
  rewrite !page_at_range by lia. f_equal. apply range_eq; rewrite ?Hs; try nia; [rewrite range_len; nia|].
  intros i Hi. unfold start. rewrite ix_copy_at by (rewrite ?zero_bytes_len, ?Hr; lia). rewrite Hr.
  replace (_ && _) with true by nia. rewrite !ix_range by nia. f_equal. lia.
Qed.

Lemma packs_ok_nil ps : packs_ok read_metadata ps [] [].
Proof. split; [constructor|]. split; [done|]. intros r ?%not_elem_of_nil. done. Qed.

Lemma resolve_sound g r : is_u32 (mi_page_size (g_metadata_image g)) -> is_u64 (mi_page_count (g_metadata_image g)) ->
  resolve_generation read_metadata g = Ok r -> resolves read_metadata g r.
Proof.
  intros [Hps _] [Hpc _] E. unfold resolve_generation in E. set (image := g_metadata_image g) in *. set (ps := mi_page_size image) in *.
  apply bind_ok in E as (c & Hc & E). apply map_err_ok in Hc. apply bind_unit in E as [Hlay E]. apply check_layout_ok in Hlay; [|done].
  apply bind_unit in E as [Hidx E]. apply map_err_ok in Hidx. apply bind_unit in E as [Hbase E]. apply check_base_ok in Hbase.
  apply bind_reject in E as [Hroot E]. apply bind_ok in E as (l & Hl & E). apply ok_or_ok, try_uint_some in Hl as [-> Hl].
  apply bind_reject in E as [Hz E]. apply bind_ok in E as (tree & Ht & E). apply map_err_ok, load_image_tree_ok in Ht.
  apply bind_reject in E as [Hw E]. destruct (tree_entries image tree Hpc Ht) as (Hflat & Hi & Hu). rewrite Hflat in E.
  rewrite keyed_snd in E. apply bind_reject in E as [Hext E]. apply bind_ok in E as ([img packs] & Hf & E).
  apply bind_ok in E as (header & Hh & E). apply ok_or_ok in Hh. apply bind_reject in E as [Hhd [= <-]]. bool_to_prop.
  destruct Hlay as ([Hps0 Hle] & Hmod & Hmagic). unfold is_uint in Hl. fold ps in Hext.
  pose proof (Z.div_pos (len c) ps ltac:(lia) Hps0) as Hbase0.
  pose proof (proj1 (extended_count _ _ _ Hi Hu Hbase0) Hext) as Hmiss.
  assert (0 < mi_page_count image) as Hcount by nia.
  destruct (entries_applied read_metadata ps Hps0 _ [] 0 _ _ _ _ (packs_ok_nil ps) ltac:(lia) Hi Hf) as (Hlen & Hpk & Hall & Hpages).
  destruct (start_pages ps c (mi_page_count image * ps) 1 Hps0 Hmod ltac:(apply Z_mod_mult) ltac:(lia) ltac:(lia) ltac:(nia)) as [Hsl _].
  constructor; cbn [rg_checkpoint rg_bytes rg_tree]; fold image ps; try done.
  - rewrite Hlen, Hsl. lia.
  - intros ->. rewrite bool_decide_eq_false_2 in Hw by (by intros [? ?]). cbn [negb andb] in Hw. bool_to_prop. lia.
  - intros x y Hx Hy. apply (packs_unique _ _ _ _ Hpk); rewrite elem_of_app; left; by apply list_elem_of_In, (proj1 (in_rev _ _)), list_elem_of_In.
  - intros n Hn. specialize (Hpages n ltac:(lia)). destruct (lookup_page n (image_entries tree)) as [e|] eqn:El; [done|].
    rewrite Hpages. apply (start_pages ps c (mi_page_count image * ps) n Hps0 Hmod ltac:(apply Z_mod_mult) ltac:(lia) ltac:(lia) ltac:(nia)).
    destruct (Z.le_gt_cases n (len c / ps)); [done|]. destruct (Hmiss n ltac:(lia)) as [? Hx]. congruence.
  - by exists header.
Qed.

Lemma resolve_complete g r : is_u32 (mi_page_size (g_metadata_image g)) -> is_u64 (mi_page_count (g_metadata_image g)) ->
  resolves read_metadata g r -> resolve_generation read_metadata g = Ok r.
Proof.
  intros [Hps _] [Hpc _] Hr. destruct r as [c img tree]. destruct Hr. cbn [rg_checkpoint rg_bytes rg_tree] in *.
  unfold resolve_generation. set (image := g_metadata_image g) in *. set (ps := mi_page_size image) in *.
  rewrite rs_checkpoint0. cbn [refuse map_err mbind result_bind].
  rewrite (proj2 (check_layout_ok ps c Hps) rs_layout0). cbn [mbind result_bind]. rewrite rs_index0. cbn [refuse map_err mbind result_bind].
  rewrite (proj2 (check_base_ok g c) rs_base0). cbn [mbind result_bind]. rewrite bool_decide_eq_true_2 by done.
  cbn [negb refuse_if reject mbind result_bind]. destruct rs_length0 as [Hl Hl64]. unfold checked_mul.
  rewrite try_uint_id by (unfold is_uint; lia). cbn [ok_or mbind result_bind].
  destruct rs_layout0 as ([Hps0 Hle] & Hmod & _).
  replace (mi_page_count image * ps =? 0) with false by nia. cbn [mbind result_bind].
  rewrite (proj2 (load_image_tree_ok image tree) rs_tree0). cbn [refuse map_err mbind result_bind].
  destruct (tree_entries image tree Hpc rs_tree0) as (Hflat & Hi & Hu). rewrite Hflat, keyed_snd.
  assert (negb (bool_decide (is_Some tree)) && negb (mi_page_count image * ps =? len c) = false) as ->.
  { destruct tree; [by rewrite bool_decide_eq_true_2|]. rewrite <- Hl, rs_whole0 by done. rewrite Z.eqb_refl. by rewrite andb_false_r. }
  cbn [mbind result_bind reject]. pose proof (Z.div_pos (len c) ps ltac:(lia) Hps0) as Hbase0.
  rewrite (proj2 (extended_count _ (len c / ps) (mi_page_count image) Hi Hu Hbase0)), Z.eqb_refl.
  2:{ intros n Hn. specialize (rs_pages0 n ltac:(lia)). destruct (lookup_page n _); [by eexists|]. exfalso.
      rewrite page_at_range in rs_pages0 by nia. symmetry in rs_pages0. apply page_at_some in rs_pages0 as (_ & ? & _); [|done].
      pose proof (Z.div_le_lower_bound (len c) ps n ltac:(lia) ltac:(lia)). lia. }
  cbn [negb mbind result_bind reject].
  destruct (start_pages ps c (mi_page_count image * ps) 1 Hps0 Hmod ltac:(apply Z_mod_mult) ltac:(lia) ltac:(lia) ltac:(nia)) as [Hsl _].
  assert (forall e, e ∈ image_entries tree -> 1 <= e_page_number e <= mi_page_count image /\
    lookup_page (e_page_number e) (image_entries tree) = Some e) as He.
  { intros e Hin. pose proof (list_elem_of_fmap_2 e_page_number _ _ Hin) as Hn. pose proof (increasing_above _ _ Hi) as Ha.
    rewrite Forall_forall in Hu, Ha. specialize (Hu _ Hn). specialize (Ha _ Hn). split; [lia|].
    unfold lookup_page. apply bt_get_elem; [by apply (increasing_sorted 0)|]. by apply (list_elem_of_fmap_2 (fun e => (e_page_number e, e))). }
  destruct (entries_succeed read_metadata ps Hps0 (image_entries tree) [] 0
    (copy_at 0 (range 0 (Z.min (mi_page_count image * ps) (len c)) c) (zero_bytes (mi_page_count image * ps))) []
    (packs_ok_nil ps) ltac:(lia) Hi) as [[img' packs] Ef].
  { by rewrite app_nil_r. }
  { apply Forall_forall. intros e Hin. destruct (He e Hin) as [Hn El]. specialize (rs_pages0 _ Hn). rewrite El in rs_pages0.
    destruct rs_pages0 as (page & Hm & _). split; [by exists page|]. rewrite Hsl. nia. }
  cbn [refuse_if reject mbind result_bind].
  lazymatch goal with |- context [try_fold ?f ?st ?l] => replace (try_fold f st l) with (Ok (E := resolve_fault) (img', packs))
    by (symmetry; exact Ef) end.
  cbn [mbind result_bind].
  destruct (entries_applied read_metadata ps Hps0 _ [] 0 _ _ _ _ (packs_ok_nil ps) ltac:(lia) Hi Ef) as (Hlen & _ & _ & Hpages).
  assert (img' = img) as ->.
  { apply (pages_ext ps Hps0 (mi_page_count image)); [lia|done|]. intros n Hn. specialize (Hpages n ltac:(lia)).
    specialize (rs_pages0 n Hn). destruct (lookup_page n _) as [e|].
    - destruct Hpages as (p & Hm & ->). destruct rs_pages0 as (p' & Hm' & ->). f_equal. by eapply mapped_functional.
    - rewrite Hpages, rs_pages0. 
      apply (start_pages ps c (mi_page_count image * ps) n Hps0 Hmod ltac:(apply Z_mod_mult) ltac:(lia) ltac:(lia) ltac:(nia)).
      rewrite page_at_range in rs_pages0 by nia. symmetry in rs_pages0. apply page_at_some in rs_pages0 as (_ & ? & _); [|done].
      apply Z.div_le_lower_bound; lia. }
  destruct rs_header0 as (header & Hh & Hv). unfold slice_or_panic. rewrite Hh. cbn [ok_or mbind result_bind].
  by rewrite Hv, Z.eqb_refl.
Qed.
End iff.

(** ** No panic *)

Section tame.
Context `{HexCrate, Sha2Crate, ImageCrates} (read_metadata : ObjectReference -> rresult bytes).

Definition tame {A} (m : fresult A) : Prop := m <> Err Panic.

Lemma tame_bind {A B} (m : fresult A) (f : A -> fresult B) :
  tame m -> (forall a, m = Ok a -> tame (f a)) -> tame (m ≫= f).
Proof. unfold tame. destruct m as [a|e]; cbn; [intros _ Hf; by apply Hf|intros He _ [= ->]; done]. Qed.
Lemma tame_refuse {A} (m : rresult A) : tame (refuse m).
Proof. by destruct m. Qed.
Lemma tame_refuse_if b message : tame (refuse_if b message).
Proof. by destruct b. Qed.
Lemma tame_slice {A} (l : list A) s e : 0 <= s <= e -> e <= len l -> tame (slice_or_panic l s e).
Proof. intros. unfold slice_or_panic, slice. replace (_ && _) with true; [done|]. symmetry. rewrite !andb_true_iff. lia. Qed.

Lemma find_indexed_elem index n e : find_indexed index n = Some e -> e ∈ pi_entries index.
Proof. unfold find_indexed. destruct (binary_search_by _ _); [|done]. apply list_elem_of_lookup_2. Qed.

Lemma decode_pack_entries raw index : decode_pack_index raw = Ok index ->
  Forall (pack_entry_ok (pi_page_size index) (len raw)) (pi_entries index).
Proof.
  unfold decode_pack_index. intros E. apply bind_ok in E as (h & _ & E). apply bind_ok in E as (hd & _ & E).
  apply bind_ok in E as (s & _ & E). apply bind_ok in E as (e & _ & E). apply bind_ok in E as (b & _ & E).
  by apply decode_parts_sound in E as [? _].
Qed.

Lemma read_page_tame ps raw index e : decode_pack_index raw = Ok index -> tame (read_page ps raw index e).
Proof.
  intros Hd. apply decode_pack_entries in Hd. unfold read_page. apply tame_bind.
  { by destruct (find_indexed _ _). }
  intros i Hi. apply ok_or_ok, find_indexed_elem in Hi. rewrite Forall_forall in Hd. destruct (Hd i Hi) as (? & _ & ? & ? & _).
  apply tame_bind; [apply tame_refuse_if|]. intros u Hc. apply reject_ok in Hc. bool_to_prop.
  apply tame_bind; [apply tame_slice; lia|]. intros st _. apply tame_bind.
  { destruct (e_codec e); [done|apply tame_refuse]. }
  intros p _. apply tame_bind; [apply tame_refuse_if|done].
Qed.

Lemma apply_entry_tame ps known img packs e : 0 < ps -> packs_ok read_metadata ps known packs ->
  1 <= e_page_number e -> e_page_number e * ps <= len img -> tame (apply_entry read_metadata ps (img, packs) e).
Proof.
  intros Hps Hp Hn Hb. unfold apply_entry. apply tame_bind; [apply tame_refuse_if|]. intros u _. apply tame_bind.
  { unfold open_pack. destruct (bt_get _ _) as [[[r raw] index]|].
    - apply tame_bind; [apply tame_refuse_if|done].
    - apply tame_bind; [apply tame_refuse|]. intros raw _. apply tame_bind; [apply tame_refuse|]. intros index _.
      apply tame_bind; [apply tame_refuse_if|done]. }
  intros packs1 Ho. pose proof (open_pack_ok read_metadata ps _ _ _ _ Hp Ho) as (_ & Hp2 & Hk2).
  destruct (Hk2 (e_pack e) ltac:(left)) as (raw & index & Hg). rewrite Hg. cbn [ok_or].
  destruct (Hp2 _ _ _ _ Hg) as (_ & _ & (_ & Hd & _)). apply tame_bind; [done|]. intros [[r' raw'] index'] [= <- <- <-].
  apply tame_bind; [by apply read_page_tame|]. intros page Hr. destruct (read_page_ok _ _ _ _ _ Hr) as [Hl _].
  apply tame_bind; [|done]. unfold copy_into. apply tame_bind; [apply tame_slice; nia|done].
Qed.

Lemma entries_tame ps es : forall known img packs, 0 < ps -> packs_ok read_metadata ps known packs ->
  Forall (fun e => 1 <= e_page_number e /\ e_page_number e * ps <= len img) es ->
  tame (try_fold (apply_entry read_metadata ps) (img, packs) es).
Proof.
  induction es as [|e es IH]; intros known img packs Hps Hp Hall; cbn [try_fold]; [done|].
  apply Forall_cons in Hall as [[Hn Hb] Hall]. apply tame_bind; [by eapply apply_entry_tame|].
  intros [img1 packs1] E. destruct (apply_entry_ok read_metadata ps Hps _ _ _ _ _ _ Hp E) as (Hp1 & page & Hm & _ & _ & ->).
  destruct (mapped_page _ _ _ _ Hm) as [Hl _]. eapply IH; [done|exact Hp1|]. eapply Forall_impl; [exact Hall|].
  intros e' [? ?]. rewrite copy_at_len by nia. done.
Qed.

Lemma resolve_tame g : mi_page_size (g_metadata_image g) = PAGE_SIZE -> is_u64 (mi_page_count (g_metadata_image g)) ->
  tame (resolve_generation read_metadata g).
Proof.
  intros Hps [Hpc _]. unfold resolve_generation. rewrite Hps. set (image := g_metadata_image g) in *.
  apply tame_bind; [apply tame_refuse|]. intros c _. apply tame_bind.
  { unfold check_layout. apply tame_bind; [|intros; apply tame_refuse_if]. destruct (Z.ltb_spec (len c) PAGE_SIZE); [done|].
    cbn [reject]. apply tame_bind; [done|]. intros _ _. destruct (negb _); [done|].
    apply tame_bind; [|done]. apply tame_slice; unfold PAGE_SIZE in *; lia. }
  intros u Hlay. destruct u. apply check_layout_ok in Hlay as (Hc & Hmod & _); [|unfold PAGE_SIZE; lia].
  apply tame_bind; [apply tame_refuse|]. intros _ _. apply tame_bind.
  { unfold check_base. apply tame_bind; [apply tame_refuse|]. intros [? ?] _. do 2 (apply tame_bind; [apply tame_refuse|]; intros ? _).
    apply tame_refuse_if. }
  intros _ _. apply tame_bind; [apply tame_refuse_if|]. intros _ _. apply tame_bind; [by destruct (checked_mul _ _ _)|].
  intros l Hl. apply ok_or_ok, try_uint_some in Hl as [-> _]. apply tame_bind; [apply tame_refuse_if|].
  intros u Hz. apply reject_ok in Hz. bool_to_prop. apply tame_bind; [apply tame_refuse|]. intros tree Ht.
  apply map_err_ok, load_image_tree_ok in Ht. destruct (tree_entries read_metadata image tree Hpc Ht) as (Hflat & Hi & Hu).
  rewrite Hflat, keyed_snd. apply tame_bind; [apply tame_refuse_if|]. intros _ _. apply tame_bind; [apply tame_refuse_if|]. intros _ _.
  assert (0 < PAGE_SIZE) as Hp0 by (unfold PAGE_SIZE; lia). assert (0 < mi_page_count image) as Hcount by nia.
  destruct (start_pages PAGE_SIZE c (mi_page_count image * PAGE_SIZE) 1 Hp0 Hmod ltac:(apply Z_mod_mult) ltac:(lia) ltac:(lia) ltac:(nia)) as [Hsl _].
  apply tame_bind.
  - apply (entries_tame PAGE_SIZE _ []); [done|apply packs_ok_nil|]. apply Forall_forall. intros e He.
    pose proof (increasing_above _ _ Hi) as Ha. pose proof (list_elem_of_fmap_2 e_page_number _ _ He) as Hn.
    rewrite Forall_forall in Hu, Ha. specialize (Hu _ Hn). specialize (Ha _ Hn). rewrite Hsl. nia.
  - intros [img packs] Ef.
    destruct (entries_applied read_metadata PAGE_SIZE Hp0 _ [] 0 _ _ _ _ (packs_ok_nil _ _) ltac:(lia) Hi Ef) as (Hlen & _).
    apply tame_bind; [apply tame_slice; rewrite ?Hlen, ?Hsl; unfold PAGE_SIZE in *; lia|]. intros h _.
    apply tame_bind; [apply tame_refuse_if|done].
Qed.
End tame.

(** ** The image root names one image *)

Section authentic.
Context `{HexCrate, Sha2Crate, ImageCrates} (known : bytes -> Prop).
(** The byte strings that are hashed have distinct digests, none of them zero. *)
Context (Hno : forall a b, known a -> known b -> digest a = digest b -> a = b).

Definition faithful (read : ObjectReference -> rresult bytes) : Prop :=
  forall r b, read r = Ok b -> digest b = or_sha256 r /\ known b.

Lemma node_of_hash read read' x y : faithful read -> faithful read' ->
  reads_back (fun r => read (object r PAGE_MAP_MEDIA_TYPE)) x -> reads_back (fun r => read' (object r PAGE_MAP_MEDIA_TYPE)) y ->
  ref_sha256 (t_reference x) = ref_sha256 (t_reference y) -> t_node x = t_node y.
Proof.
  intros Hr Hr' (_ & b & Hb & Hd) (_ & b' & Hb' & Hd') E. apply Hr in Hb as [Hs Hk]. apply Hr' in Hb' as [Hs' Hk'].
  cbn in Hs, Hs'. assert (b = b') as -> by (apply Hno; congruence). congruence.
Qed.

Lemma entries_of_hash read read' x : faithful read -> faithful read' -> forall y l l', shape l x -> shape l' y ->
  Forall (reads_back (fun r => read (object r PAGE_MAP_MEDIA_TYPE))) (subtrees x) ->
  Forall (reads_back (fun r => read' (object r PAGE_MAP_MEDIA_TYPE))) (subtrees y) ->
  ref_sha256 (t_reference x) = ref_sha256 (t_reference y) -> entries_of x = entries_of y.
Proof.
  intros Hr Hr'. induction x as [r n cs mn mx IH] using tree_ind'. intros [r' n' cs' mn' mx'] l l' Hs Hs' Hx Hy E.
  cbn [subtrees] in Hx, Hy. apply Forall_cons in Hx as [Hx Hxs]. apply Forall_cons in Hy as [Hy Hys].
  pose proof (node_of_hash _ _ _ _ Hr Hr' Hx Hy E) as En. cbn [t_node] in En. subst n'.
  cbn [entries_of]. destruct n as [es|k bs]; [done|]. f_equal.
  assert (Forall (shape (k - 1)) cs /\ bs = map branch_of cs) as [Hcs Ebs] by (by inversion Hs).
  assert (Forall (shape (k - 1)) cs' /\ bs = map branch_of cs') as [Hcs' Ebr] by (by inversion Hs').
  rewrite Ebs in Ebr. generalize dependent (k - 1). intros k' Hcs Hcs'.
  clear Hs Hs' Hx Hy E Hr Hr' Ebs. revert cs' Ebr Hcs' Hys. induction cs as [|c cs IHc]; intros [|c' cs'] Ebr Hcs' Hys; try done.
  cbn [map] in *. injection Ebr as Em Ec Ebr. apply Forall_cons in IH as [IHx IH]. apply Forall_cons in Hcs as [Hc Hcs].
  apply Forall_cons in Hcs' as [Hc' Hcs']. cbn [concat] in *. apply Forall_app in Hxs as [Hx Hxs]. apply Forall_app in Hys as [Hy Hys].
  f_equal; [eapply IHx; [done..|by rewrite Ec]|by apply IHc].
Qed.
End authentic.

(** ** Properties *)

(** The message the image root is the hash of, and the ranges of its fields. *)
Definition image_message (g : Generation) : message :=
  Image (g_table_id g) (g_table_version g) (mi_page_size (g_metadata_image g)) (mi_page_count (g_metadata_image g))
    (ck_sha256 (mi_checkpoint (g_metadata_image g))) (root_sha256 <$> mi_page_map (g_metadata_image g)).
Definition runtime_generation (g : Generation) : Prop :=
  mi_page_size (g_metadata_image g) = PAGE_SIZE /\ is_u64 (mi_page_count (g_metadata_image g)) /\
  wf_id (g_table_id g) /\ is_u64 (g_table_version g).

(** C14: resolving a generation never panics, and succeeds exactly when all its
    parts agree; the image then consists, page by page, of the page the map leads
    to, decompressed and hashed, or of the checkpoint's page where the map has no
    entry, no page being made up. *)
Theorem resolve_generation_iff `{HexCrate, Sha2Crate, ImageCrates} (read_metadata : ObjectReference -> rresult bytes)
    (g : Generation) (Hg : runtime_generation g) :
  resolve_generation read_metadata g <> Err Panic /\
  forall r, resolve_generation read_metadata g = Ok r <-> resolves read_metadata g r.
Proof.
  destruct Hg as (Hps & Hpc & _). split; [by apply resolve_tame|].
  assert (is_u32 (mi_page_size (g_metadata_image g))) as Hu by (rewrite Hps; vm_compute; split; done).
  intros r. split; [by apply resolve_sound|by apply resolve_complete].
Qed.

Section root.
Context `{HexCrate, Sha2Crate, ImageCrates} (known : bytes -> Prop) (read_metadata : ObjectReference -> rresult bytes) (g : Generation).
Context (Hz : forall a, known a -> sha_bytes (digest a) <> no_page_map) (Hr : faithful known read_metadata) (Hg : runtime_generation g).

Lemma image_message_wf r : resolves read_metadata g r -> wf_message (image_message g).
Proof.
  intros [Hc _ _ _ _ _ _ Ht _ _ _ _]. destruct Hg as (Hps & Hpc & Hid & Hv). apply Hr in Hc as [Hc _]. cbn in Hc.
  unfold image_message. split_and!; try done; [rewrite Hps; vm_compute; split; done|rewrite <- Hc; apply wf_digest|].
  unfold tree_resolves in Ht. destruct (mi_page_map (g_metadata_image g)) as [root|]; [|done]. cbn.
  destruct Ht as (t & _ & Et & (_ & _ & _ & _ & _ & _ & Hb)). destruct t as [rt n cs mn mx]. cbn [subtrees] in Hb.
  apply Forall_cons in Hb as [(_ & b & Hb & _) _]. cbn [t_reference] in Hb, Et. apply Hr in Hb as [Hb Hk].
  rewrite <- Et in Hb. cbn in Hb. rewrite <- Hb. split; [apply wf_digest|by apply Hz].
Qed.
End root.

(** C22: the image root hash names one image: two generations with the same image
    root, resolved from any two stores, have the same table, version and image, as
    long as the byte strings that are hashed have distinct digests. *)
Theorem image_root_authentic `{HexCrate, Sha2Crate, ImageCrates} (known : bytes -> Prop)
    (read read' : ObjectReference -> rresult bytes) (g g' : Generation) (r r' : ResolvedGeneration)
    (Hno : forall a b, known a -> known b -> digest a = digest b -> a = b)
    (Hz : forall a, known a -> sha_bytes (digest a) <> no_page_map)
    (Hr : faithful known read) (Hr' : faithful known read') (Hg : runtime_generation g) (Hg' : runtime_generation g')
    (Hm : known (preimage (image_message g))) (Hm' : known (preimage (image_message g')))
    (E : resolve_generation read g = Ok r) (E' : resolve_generation read' g' = Ok r')
    (Hp : forall n page, page_at PAGE_SIZE (rg_bytes r) n = Some page -> known page)
    (Hp' : forall n page, page_at PAGE_SIZE (rg_bytes r') n = Some page -> known page)
    (Hroot : mi_image_root_sha256 (g_metadata_image g) = mi_image_root_sha256 (g_metadata_image g')) :
  rg_bytes r = rg_bytes r' /\ g_table_id g = g_table_id g' /\ g_table_version g = g_table_version g'.
Proof.
  assert (is_u32 PAGE_SIZE) as Hu by (vm_compute; split; done).
  apply resolve_sound in E; [|rewrite (proj1 Hg); done|apply Hg]. apply resolve_sound in E'; [|rewrite (proj1 Hg'); done|apply Hg'].
  pose proof (image_message_wf _ _ _ Hz Hr Hg r E) as Hw. pose proof (image_message_wf _ _ _ Hz Hr' Hg' r' E') as Hw'.
  pose proof (rs_root _ _ _ E) as Q1. pose proof (rs_root _ _ _ E') as Q2. rewrite Hroot, <- Q2 in Q1.
  change (message_hash (image_message g) = message_hash (image_message g')) in Q1. rewrite !message_hash_digest in Q1.
  apply Hno in Q1; [|done..]. apply preimage_inj in Q1; [|done..]. injection Q1 as Hid Hv Hps Hpc Hsha Hmap.
  split; [|done]. pose proof (proj1 Hg) as Eps. pose proof (proj1 Hg') as Eps'.
  assert (rg_checkpoint r = rg_checkpoint r') as Ec.
  { pose proof (rs_checkpoint _ _ _ E) as C1. pose proof (rs_checkpoint _ _ _ E') as C2. apply Hr in C1 as [C1 ?]. apply Hr' in C2 as [C2 ?].
    cbn in C1, C2. apply Hno; congruence. }
  assert (image_entries (rg_tree r) = image_entries (rg_tree r')) as Ee.
  { pose proof (rs_tree _ _ _ E) as T1. pose proof (rs_tree _ _ _ E') as T2. unfold tree_resolves in *.
    destruct (mi_page_map (g_metadata_image g)) as [root|], (mi_page_map (g_metadata_image g')) as [root'|]; cbn in Hmap; try done.
    - destruct T1 as (t & -> & R1 & (_ & S1 & _ & _ & _ & _ & B1)). destruct T2 as (t' & -> & R2 & (_ & S2 & _ & _ & _ & _ & B2)).
      cbn [image_entries]. apply (entries_of_hash known Hno _ _ t Hr Hr' t' _ _ S1 S2 B1 B2). rewrite <- R1, <- R2. by injection Hmap.
    - by rewrite T1, T2. }
  destruct (rs_length _ _ _ E) as [L1 _], (rs_length _ _ _ E') as [L2 _]. rewrite Eps in L1. rewrite Eps' in L2.
  apply (pages_ext PAGE_SIZE ltac:(unfold PAGE_SIZE; lia) (mi_page_count (g_metadata_image g))); [done|by rewrite Hpc|].
  intros n Hn. pose proof (rs_pages _ _ _ E n Hn) as P1. pose proof (rs_pages _ _ _ E' n ltac:(by rewrite <- Hpc)) as P2.
  rewrite Eps in P1. rewrite Eps', <- Ee in P2. destruct (lookup_page n (image_entries (rg_tree r))) as [e|].
  - destruct P1 as (p1 & M1 & A1), P2 as (p2 & M2 & A2). apply mapped_page in M1 as [_ D1]. apply mapped_page in M2 as [_ D2].
    rewrite A1, A2. f_equal. apply Hno; [by eapply Hp|by eapply Hp'|congruence].
  - by rewrite P1, P2, Ec.
Qed.

(** ** Examples *)

(** A store by name that verifies what it returns. *)
Definition store_read `{Sha2Crate} (store : list (string * bytes)) (r : ObjectReference) : rresult bytes :=
  raw ← ok_or (snd <$> find (fun o => bool_decide (o.1 = uri_str (or_uri r))) store) (corrupt "absent");
  _ ← reject (negb (bool_decide (digest raw = or_sha256 r))
              || match or_length r with Some n => negb (n =? len raw) | None => false end) (corrupt "mismatch");
  Ok raw.

Lemma store_read_faithful `{Sha2Crate} store (l : list bytes) : Forall (fun b => b ∈ l) (map snd store) -> faithful (fun b => b ∈ l) (store_read store).
Proof.
  intros Hl r b E. unfold store_read in E. apply bind_ok in E as (raw & Hf & E). apply ok_or_ok in Hf.
  apply bind_reject in E as [Hc [= <-]]. bool_to_prop. split; [done|]. rewrite Forall_forall in Hl. apply Hl.
  destruct (find _ store) as [[k v]|] eqn:Ef; [|done]. injection Hf as <-. apply find_some in Ef as [Hin _].
  apply list_elem_of_In in Hin. exact (list_elem_of_fmap_2 snd _ _ Hin).
Qed.

#[local] Instance example_hex : HexCrate := hex_reference.
#[local] Instance example_sha2 : Sha2Crate := sha2_reference.
#[local] Instance example_crates : ImageCrates :=
  {| sql_meta _ := Ok (repeat Byte.x01 16, 1); sql_page_size _ := Ok PAGE_SIZE; sql_page_count b := Ok (len b / PAGE_SIZE);
     zstd_decompress b _ := Ok b |}.

(** A checkpoint of one page, and an image of two pages over it: the first page, an
    interior page over the second, holds the new page count, the second is new. *)
Definition small_page (count : Z) : bytes :=
  SQLITE_MAGIC ++ [Byte.x10; Byte.x00; Byte.x01; Byte.x01; Byte.x00; Byte.x40; Byte.x20; Byte.x20] ++ repeat Byte.x00 4 ++ be_bytes 4 count
  ++ repeat Byte.x00 68 ++ [Byte.x05] ++ repeat Byte.x00 7 ++ be_bytes 4 2 ++ repeat Byte.x00 3984.
Definition small_bytes : bytes := small_page 2 ++ repeat Byte.x62 4096.
Definition small_changed : list (Z * bytes) := [(1, small_page 2); (2, repeat Byte.x62 4096)].
Definition small_image : IncrementalImage :=
  ok_default (MkIncremental None [] 0) (default (Err (corrupt "no result")) (persist None small_changed 2)).
Definition small_checkpoint : Checkpoint :=
  {| ck_table_version := 1; ck_uri := MkUri "c"; ck_sha256 := digest (small_page 1); ck_length := 4096 |}.
Definition small_table : Id := MkId (repeat Byte.x01 16).

(** A generation over the checkpoint. *)
Definition small_generation (version : Z) (map : option PageMapRoot) (count : Z) : Generation :=
  {| g_kind := "otmp.metadata-generation"; g_format_version := 1; g_table_id := small_table; g_table_version := version; g_generation_id := small_table;
     g_created_at_ms := 0; g_semantic_state_sha256 := digest []; g_physical_parent := None;
     g_semantic_commit := {| or_uri := MkUri "s"; or_sha256 := digest []; or_length := None; or_media_type := None |};
     g_metadata_image := {| mi_codec := "otmp.metadata.sqlite3-cow.v1"; mi_page_size := PAGE_SIZE; mi_page_count := count;
       mi_checkpoint := small_checkpoint; mi_page_map := map; mi_checkpoint_page_index := None;
       mi_image_root_sha256 := image_root_hash small_table version PAGE_SIZE count (ck_sha256 small_checkpoint) (root_sha256 <$> map) |};
     g_scan_projection := None; g_metadata := [] |}.
Definition small_store : list (string * bytes) :=
  ("c", small_page 1) :: map (fun a => (uri_str (a_uri a), a_bytes a)) (i_artifacts small_image).
Definition small_new : Generation := small_generation 2 (i_root small_image) 2.
Definition small_resolved : ResolvedGeneration :=
  ok_default {| rg_checkpoint := []; rg_bytes := []; rg_tree := None |} (resolve_generation (store_read small_store) small_new).

Lemma small_runtime version map count : is_u64 version -> is_u64 count -> runtime_generation (small_generation version map count).
Proof. done. Qed.

Lemma small_resolves : resolve_generation (store_read small_store) small_new = Ok small_resolved.
Proof. vm_compute. reflexivity. Qed.
Lemma small_resolved_bytes : rg_bytes small_resolved = small_bytes.
Proof. vm_compute. reflexivity. Qed.

Lemma resolve_generation_iff_witness :
  resolve_generation (store_read small_store) small_new = Ok small_resolved /\ rg_bytes small_resolved = small_bytes /\
  resolves (store_read small_store) small_new small_resolved.
Proof.
  split; [exact small_resolves|]. split; [exact small_resolved_bytes|].
  apply (resolve_generation_iff (store_read small_store) small_new); [|exact small_resolves]. apply small_runtime; vm_compute; split; done.
Defined.

(** The same image in a generation made later, read from a larger store. *)
Definition at_time (g : Generation) (created_at_ms : Z) : Generation :=
  {| g_kind := g_kind g; g_format_version := g_format_version g; g_table_id := g_table_id g; g_table_version := g_table_version g;
     g_generation_id := g_generation_id g; g_created_at_ms := created_at_ms; g_semantic_state_sha256 := g_semantic_state_sha256 g;
     g_semantic_commit := g_semantic_commit g; g_physical_parent := g_physical_parent g; g_metadata_image := g_metadata_image g;
     g_scan_projection := g_scan_projection g; g_metadata := g_metadata g |}.
Definition small_later : Generation := at_time small_new 7.
Definition small_larger : list (string * bytes) := small_store ++ [("other", [Byte.x07])].
Definition small_known : list bytes :=
  [Byte.x07] :: preimage (image_message small_new) :: repeat Byte.x62 4096 :: small_page 2 :: map snd small_store.

Lemma distinct_digests_inj `{Sha2Crate} (l : list bytes) : NoDup (map digest l) ->
  forall a b, a ∈ l -> b ∈ l -> digest a = digest b -> a = b.
Proof.
  intros Hl a b [i Ha]%list_elem_of_lookup [j Hb]%list_elem_of_lookup E.
  assert (i = j) as ->; [|congruence]. apply (NoDup_lookup _ i j (digest a) Hl); rewrite list_lookup_fmap; [by rewrite Ha|by rewrite Hb, E].
Qed.

Lemma small_distinct : forall a b, a ∈ small_known -> b ∈ small_known -> digest a = digest b -> a = b.
Proof. apply distinct_digests_inj. apply (bool_decide_eq_true_1 _). vm_compute. reflexivity. Qed.

Lemma small_pages n page : page_at PAGE_SIZE small_bytes n = Some page -> page ∈ small_known.
Proof.
  intros (? & Hl & _ & ->)%page_at_some; [|done]. change (len small_bytes) with 8192 in Hl. unfold PAGE_SIZE in Hl.
  assert (n = 1 \/ n = 2) as [-> | ->] by lia; apply (bool_decide_eq_true_1 _); vm_compute; reflexivity.
Qed.

Lemma small_later_resolves : resolve_generation (store_read small_larger) small_later = Ok small_resolved.
Proof. vm_compute. reflexivity. Qed.
Lemma small_nonzero : Forall (fun b => sha_bytes (digest b) <> no_page_map) small_known.
Proof. apply (bool_decide_eq_true_1 _). vm_compute. reflexivity. Qed.

Lemma image_root_authentic_witness :
  resolve_generation (store_read small_larger) small_later = Ok small_resolved /\ rg_bytes small_resolved = small_bytes.
Proof.
  split; [exact small_later_resolves|]. rewrite <- small_resolved_bytes.
  refine (proj1 (image_root_authentic (fun b => b ∈ small_known) (store_read small_larger) (store_read small_store) small_later small_new
    small_resolved small_resolved small_distinct _ _ _ _ _ _ _ small_later_resolves small_resolves _ _ _)).
  - intros a Ha. exact (proj1 (Forall_forall _ _) small_nonzero a Ha).
  - apply store_read_faithful, (bool_decide_eq_true_1 _). vm_compute. reflexivity.
  - apply store_read_faithful, (bool_decide_eq_true_1 _). vm_compute. reflexivity.
  - apply small_runtime; vm_compute; split; done.
  - apply small_runtime; vm_compute; split; done.
  - right. left.
  - right. left.
  - rewrite small_resolved_bytes. apply small_pages.
  - rewrite small_resolved_bytes. apply small_pages.
  - reflexivity.
Defined.
