(* ===== verification/ImageRoundtrip.v ===== *)
(** Persisting a frozen image and resolving it again (otmp/src/physical.rs,
    [persist] and [resolve_generation]): the composition of the overlay, the page
    tree, the packs and resolution. No code is modelled here. *)
From S2P Require Import Prelude Bytes Errors Values Scalars Cbor PageMap PagePack Hashes PageTree PagePersist PageLoad.
From S2P Require Import ByteArray Overlay Objects CheckpointBuild Resolve.

(** ** Finding a page in a pack *)

Lemma increasing_probe p es n : increasing p (map p_page_number es) ->
  probe_sorted (fun e => p_page_number e ?= n) es.
Proof.
  intros Hi i j x y Hij Hx Hy. assert (p_page_number x < p_page_number y) as Hlt.
  { unfold increasing in Hi. apply StronglySorted_inv in Hi as [Hs _]. rewrite <- (take_drop j es), map_app in Hs.
    eapply (StronglySorted_app_1_elem_of _ _ _ (p_page_number x) (p_page_number y) Hs); apply list_elem_of_fmap_2.
    - apply (list_elem_of_lookup_2 _ i). by rewrite lookup_take_lt by lia.
    - apply (list_elem_of_lookup_2 _ 0%nat). by rewrite lookup_drop, Nat.add_0_r. }
  rewrite !Z.compare_gt_iff, !Z.compare_lt_iff. lia.
Qed.

Lemma find_indexed_found ps es e : increasing 0 (map p_page_number es) -> e ∈ es ->
  find_indexed (MkPackIndex ps es) (p_page_number e) = Some e.
Proof.
  intros Hi He. unfold find_indexed. cbn [pi_entries]. pose proof (increasing_probe 0 es (p_page_number e) Hi) as Hp.
  destruct (binary_search_by _ es) as [i|i] eqn:E.
  - apply binary_search_by_ok in E as (x & Hx & Ex). rewrite Hx. f_equal. apply Z.compare_eq in Ex.
    apply list_elem_of_lookup in He as [j Hj]. assert (i = j) as ->; [|congruence].
    apply increasing_nodup in Hi. eapply (NoDup_lookup _ i j (p_page_number e) Hi); rewrite list_lookup_fmap.
    + by rewrite Hx, <- Ex.
    + by rewrite Hj.
  - exfalso. assert (is_ok (binary_search_by (fun x => p_page_number x ?= p_page_number e) es) = true) as Hf.
    { apply binary_search_by_found; [done|]. exists e. split; [done|]. apply Z.compare_refl. }
    by rewrite E in Hf.
Qed.

Section packs.
Context `{HexCrate, Sha2Crate, ImageCrates}.

Lemma changed_increasing chunk : changed_ok chunk -> pages_ok PAGE_SIZE chunk -> increasing 0 chunk.*1.
Proof.
  intros Hc Hp. pose proof (pages_positive _ _ Hc Hp) as Hpos. destruct Hc as [Hs _]. constructor; [|by apply Forall_fmap].
  exact Hs.
Qed.

Lemma pack_entries_pages ps pl pages : forall i, map p_page_number (pack_entries ps pl i pages) = pages.*1.
Proof. induction pages as [|p pages IH]; intros i; cbn; [done|]. by rewrite IH. Qed.

(** An entry of a pack that was written leads to its page. *)
Lemma written_page raw e n page (chunk : list (Z * bytes)) j :
  raw = pack_bytes PAGE_SIZE chunk -> changed_ok chunk -> pages_ok PAGE_SIZE chunk -> (length chunk <= pack_capacity)%nat ->
  chunk !! j = Some (n, page) -> e_page_number e = n -> e_codec e = PageCodec.None -> e_raw_length e = PAGE_SIZE ->
  e_page_sha256 e = digest page -> e_stored_length e = PAGE_SIZE -> e_offset e = 64 + 64 * len chunk + Z.of_nat j * PAGE_SIZE ->
  slice raw (e_offset e) (e_offset e + e_stored_length e) = Some page ->
  exists index, decode_pack_index raw = Ok index /\ pi_page_size index = PAGE_SIZE /\ read_page PAGE_SIZE raw index e = Ok page.
Proof.
  intros -> Hc Hp Hlen Hj En Ecd Er Es Est Eo Hsl. pose proof Hp as (_ & _ & _ & Hall).
  assert (len (pack_bytes PAGE_SIZE chunk) < 2 ^ 63) as Hl63.
  { rewrite pack_bytes_len by done. change pack_capacity with 252%nat in Hlen. unfold len, PAGE_SIZE. lia. }
  pose proof Hc as [Hsort Hu]. pose proof (decode_pack_bytes PAGE_SIZE chunk Hp Hsort Hu Hl63) as Hd.
  eexists. split; [exact Hd|]. split; [done|]. unfold read_page.
  pose proof (pack_entries_lookup PAGE_SIZE (64 + 64 * len chunk) chunk 0 j (n, page) Hj) as Hlk.
  pose proof (find_indexed_found PAGE_SIZE (pack_entries PAGE_SIZE (64 + 64 * len chunk) 0 chunk) _
    ltac:(rewrite pack_entries_pages; by apply changed_increasing) (list_elem_of_lookup_2 _ _ _ Hlk)) as Hf.
  cbn [pack_entry p_page_number fst] in Hf. rewrite En, Hf. cbn [ok_or mbind result_bind pack_entry p_offset p_codec p_raw_length p_stored_length p_page_sha256 snd].
  rewrite Eo, Est, Er, Ecd, Es. rewrite !bool_decide_eq_true_2 by done.
  replace (0 + Z.of_nat j) with (Z.of_nat j) by lia. rewrite !Z.eqb_refl. cbn [negb orb refuse_if reject mbind result_bind].
  rewrite Eo, Est in Hsl. unfold slice_or_panic. rewrite Hsl. cbn [ok_or mbind result_bind].
  assert (len page = PAGE_SIZE) as Hlp by (rewrite Forall_forall in Hall; by apply (Hall _ (list_elem_of_lookup_2 _ _ _ Hj))).
  rewrite Hlp, Z.eqb_refl. by rewrite bool_decide_eq_true_2.
Qed.
End packs.

(** ** The subtrees of a tree *)

Lemma subtree_shape t : forall x l, x ∈ subtrees t -> shape l t ->
  exists l', 0 <= l' <= l /\ shape l' x /\ (forall e, e ∈ entries_of x -> e ∈ entries_of t) /\
    forall c, c ∈ t_children x -> c ∈ subtrees t.
Proof.
  induction t as [r n cs mn mx IH] using tree_ind'. intros x l Hx Hs. cbn [subtrees] in *. apply elem_of_cons in Hx as [->|Hx].
  - exists l. pose proof (shape_level _ _ Hs) as [_ Hl]. split; [lia|]. split; [done|]. split; [done|].
    intros c Hc. right. apply elem_of_concat_map. exists c. split; [done|]. destruct c. by left.
  - apply elem_of_concat_map in Hx as (c & Hc & Hx). inversion Hs as [|? ? ? Hl Hne Hcs]; subst; [by apply not_elem_of_nil in Hc|].
    rewrite Forall_forall in IH, Hcs. destruct (IH c Hc x (l - 1) Hx (Hcs c Hc)) as (l' & Hl' & Hsx & He & Hch).
    exists l'. split; [lia|]. split; [done|]. split.
    + intros e Hin. cbn [entries_of]. apply elem_of_concat_map. exists c. split; [done|by apply He].
    + intros d Hd. right. apply elem_of_concat_map. exists c. split; [done|by apply Hch].
Qed.

Definition node_key (x : Tree) : Z * option Z := (PageMapNode.level (t_node x), PageMapNode.max_page (t_node x)).

Lemma shape_max_page l x : shape l x -> exists m, PageMapNode.max_page (t_node x) = Some m /\ m ∈ pages_of (entries_of x).
Proof.
  intros Hs. pose proof (last_page l x Hs) as Hl. exists (t_max x). split; [|by apply last_Some_elem_of].
  inversion Hs as [r es Hne|r k cs Hk Hne Hcs]; subst; cbn [t_node PageMapNode.max_page t_max].
  - rewrite <- fmap_last in Hl |- *. destruct (last es) eqn:E; [done|]. by apply last_None in E.
  - rewrite !fmap_last. destruct (last cs) eqn:E; [done|]. by apply last_None in E.
Qed.

(** Two places of a tree hold different nodes. *)
Lemma node_keys t : forall l p, shape l t -> increasing p (pages_of (entries_of t)) -> NoDup (map node_key (subtrees t)).
Proof.
  induction t as [r n cs mn mx IH] using tree_ind'. intros l p Hs Hi.
  inversion Hs as [|? ? ? Hl Hne Hcs]; subst; cbn [subtrees map concat]; [apply NoDup_singleton|].
  cbn [entries_of] in Hi. constructor.
  - intros (x & E & Hx)%list_elem_of_fmap. apply elem_of_concat_map in Hx as (c & Hc & Hx). rewrite Forall_forall in Hcs.
    destruct (subtree_shape c x (l - 1) Hx (Hcs c Hc)) as (l' & Hl' & Hsx & _). apply shape_level in Hsx as [Hlev _].
    injection E as E _. cbn in E. lia.
  - clear Hs Hne. revert p Hi. induction cs as [|c cs IHc]; intros p Hi; cbn [map concat]; [constructor|].
    apply Forall_cons in IH as [IHx IH]. apply Forall_cons in Hcs as [Hc Hcs]. cbn [map concat] in Hi.
    rewrite pages_of_app in Hi. pose proof Hi as Hi2. apply increasing_app in Hi as (Hi1 & Hi' & Hlt).
    rewrite map_app, NoDup_app. split; [by eapply IHx|]. split; [|by apply (IHc IH Hcs p)].
    intros k (x & -> & Hx)%list_elem_of_fmap (y & E & Hy)%list_elem_of_fmap. injection E as _ E.
    destruct (subtree_shape c x (l - 1) Hx Hc) as (lx & _ & Hsx & Hex & _). destruct (shape_max_page _ _ Hsx) as (m & Em & Hm).
    apply elem_of_concat_map in Hy as (c' & Hc' & Hy). rewrite Forall_forall in Hcs.
    destruct (subtree_shape c' y (l - 1) Hy (Hcs c' Hc')) as (ly & _ & Hsy & Hey & _).
    destruct (shape_max_page _ _ Hsy) as (m' & Em' & Hm'). assert (m = m') as <- by congruence.
    apply list_elem_of_fmap in Hm as (e & -> & He). apply list_elem_of_fmap in Hm' as (e' & Ee & He').
    assert (e_page_number e < e_page_number e') as Hcontra; [|lia]. apply Hlt.
    + by apply list_elem_of_fmap_2, Hex.
    + apply list_elem_of_fmap_2, elem_of_concat_map. exists c'. split; [done|by apply Hey].
Qed.

(** ** Field ranges *)

Section ranges.
Context `{HexCrate, Sha2Crate}.

Lemma content_uri_wf directory extension h : wf_sha h ->
  content_uri directory extension h = Ok (MkUri (directory +:+ hex_encode (sha_bytes h) +:+ extension)) ->
  forallb (byte_in 0 0x7F) (as_bytes directory) = true -> forallb (byte_in 0 0x7F) (as_bytes extension) = true ->
  str_len directory + str_len extension < 1000 ->
  wf_uri (MkUri (directory +:+ hex_encode (sha_bytes h) +:+ extension)).
Proof.
  intros Hh E Hd He Hl. unfold content_uri in E. split; [exact E|]. cbn [uri_str]. split.
  - unfold is_utf8. apply utf8_all_ascii. rewrite !as_bytes_app, !forallb_app, Hd, He.
    pose proof (hex_ascii _ (hex_bytes_lower h)) as Hx. unfold hex_bytes in Hx. by rewrite Hx.
  - unfold str_len in *. rewrite !as_bytes_app, !len_app.
    assert (len (as_bytes (hex_encode (sha_bytes h))) = 64) as ->; [|lia].
    unfold len. rewrite hex_encode_length. unfold wf_sha in Hh. lia.
Qed.

Lemma map_uri_wf h u : wf_sha h -> map_uri h = Ok u -> wf_uri u.
Proof.
  intros Hh. pose proof (map_uri_some h Hh) as E. rewrite E. intros [= <-]. by apply content_uri_wf.
Qed.
Lemma pack_uri_wf h u : wf_sha h -> pack_uri h = Ok u -> wf_uri u.
Proof.
  intros Hh. pose proof (pack_uri_some h Hh) as E. rewrite E. intros [= <-]. by apply content_uri_wf.
Qed.

Lemma sealed_wf t : sealed t -> wf_ref (t_reference t) /\ 0 <= ref_length (t_reference t) <= MAX_PAGE_MAP_BYTES.
Proof.
  intros (b & uri & Hb & Hu & ->). apply encode_page_map_ok in Hb as (Hv & Eb & Hl). subst b.
  pose proof (len_nonneg (page_map_bytes (t_node t))) as Hpos.
  split; [|done]. split; [by eapply map_uri_wf; [apply wf_digest|]|]. split; [apply wf_digest|].
  cbn [ref_length]. unfold MAX_PAGE_MAP_BYTES in Hl. unfold is_uint. lia.
Qed.
End ranges.

(** ** A store that has received the artifacts *)

Section grown.
Context `{HexCrate, Sha2Crate, ImageCrates} (read read' : ObjectReference -> rresult bytes).

(** The later store has the objects of the earlier one, one object per name, and
    is read with verification. *)
Record extends : Prop := {
  ex_keep o b : read o = Ok b -> read' o = Ok b;
  ex_verified o b : read' o = Ok b -> digest b = or_sha256 o /\ forall n, or_length o = Some n -> n = len b;
  ex_one o o' b b' : read' o = Ok b -> read' o' = Ok b' -> uri_str (or_uri o) = uri_str (or_uri o') -> b = b' }.
Context (Hext : extends).

Lemma reference_unique r r' m m' b b' : read' (object r m) = Ok b -> read' (object r' m') = Ok b' ->
  uri_str (ref_uri r) = uri_str (ref_uri r') -> r = r' /\ b = b'.
Proof.
  intros Hr Hr' E. pose proof (ex_one Hext _ _ _ _ Hr Hr' E) as <-. split; [|done].
  destruct (ex_verified Hext _ _ Hr) as [Hs Hl], (ex_verified Hext _ _ Hr') as [Hs' Hl']. specialize (Hl _ eq_refl). specialize (Hl' _ eq_refl).
  cbn in Hs, Hs'. destruct r as [[u] s l], r' as [[u'] s' l']. cbn in *. congruence.
Qed.

Lemma mapped_grows ps e page : mapped read ps e page -> mapped read' ps e page.
Proof.
  intros (Hl & raw & index & (Hr & Hd & Hz) & Hp). split; [done|]. exists raw, index. split; [|done].
  split; [by apply (ex_keep Hext)|done].
Qed.

Lemma reads_back_grows x : reads_back (fun r => read (object r PAGE_MAP_MEDIA_TYPE)) x ->
  reads_back (fun r => read' (object r PAGE_MAP_MEDIA_TYPE)) x.
Proof. intros (Hl & b & Hb & Hd). split; [done|]. exists b. split; [by apply (ex_keep Hext)|done]. Qed.

Lemma verify_children_grows v v' entries : forall seen seen',
  (forall r f c s s', v r f c s = Ok s' -> v' r f c s = Ok s') ->
  verify_children v entries seen = Ok seen' -> verify_children v' entries seen = Ok seen'.
Proof.
  induction entries as [|e entries IH]; intros seen seen' Hv E; cbn [verify_children] in *; [done|].
  apply bind_ok in E as (s1 & E1 & E). rewrite (Hv _ _ _ _ _ E1). cbn [mbind result_bind]. by apply IH.
Qed.

Lemma verify_node_grows ps b depth : forall r l f c seen seen',
  verify_checkpoint_index_node read ps b depth r l f c seen = Ok seen' ->
  verify_checkpoint_index_node read' ps b depth r l f c seen = Ok seen'.
Proof.
  induction depth as [|depth IH]; intros r l f c seen seen' E; cbn [verify_checkpoint_index_node] in *; [done|].
  apply bind_reject in E as [-> E]. cbn [reject mbind result_bind]. apply bind_ok in E as (raw & Hraw & E).
  rewrite (ex_keep Hext _ _ Hraw). cbn [mbind result_bind]. apply bind_ok in E as (node & Hn & E). rewrite Hn. cbn [mbind result_bind].
  apply bind_reject in E as [-> E]. cbn [reject mbind result_bind]. destruct node as [p hs|lv es]; [done|].
  revert E. apply verify_children_grows. intros. by apply IH.
Qed.

Lemma verify_index_grows image image' b : verify_checkpoint_index read image b = Ok tt ->
  mi_checkpoint_page_index image' = mi_checkpoint_page_index image -> mi_checkpoint image' = mi_checkpoint image ->
  mi_page_size image' = mi_page_size image -> verify_checkpoint_index read' image' b = Ok tt.
Proof.
  unfold verify_checkpoint_index. intros E -> -> ->. destruct (mi_checkpoint_page_index image) as [index|]; [|done].
  apply bind_unit in E as [Hv E]. rewrite Hv. cbn [mbind result_bind]. apply bind_ok in E as (s & Hs & _).
  by rewrite (verify_node_grows _ _ _ _ _ _ _ _ _ Hs).
Qed.

(** Every artifact is in the store. *)
Definition holds (artifacts : list Artifact) : Prop := forall a m, a ∈ artifacts ->
  read' (object (MkRef (a_uri a) (digest (a_bytes a)) (len (a_bytes a))) m) = Ok (a_bytes a).

Lemma parent_wf rd t : forall l, shape l t -> Forall (reads_back rd) (subtrees t) -> wf_ref (t_reference t) ->
  Forall (fun x => wf_ref (t_reference x)) (subtrees t) /\ Forall wf_entry (entries_of t).
Proof.
  induction t as [r n cs mn mx IH] using tree_ind'. intros l Hs Hb Hr. cbn [subtrees entries_of] in *.
  apply Forall_cons in Hb as [(_ & b & _ & Hd) Hb]. apply decoded_node in Hd as [Hw _]. cbn [t_node] in Hw.
  inversion Hs as [|? ? ? Hl Hne Hcs]; subst; cbn [wf_node] in Hw.
  - split; [by apply Forall_singleton|done].
  - destruct Hw as [_ Hw].
    assert (Forall (fun c => Forall (fun x => wf_ref (t_reference x)) (subtrees c) /\ Forall wf_entry (entries_of c)) cs) as Hall.
    { apply Forall_forall. intros c Hc. rewrite Forall_forall in IH, Hb, Hcs. apply (IH c Hc (l - 1)); [by apply Hcs| |].
      - apply Forall_forall. intros x Hx. apply Hb, elem_of_concat_map. by exists c.
      - rewrite Forall_fmap, Forall_forall in Hw. by apply (Hw c). }
    rewrite Forall_forall in Hall. split; [constructor; [done|]|]; apply Forall_forall; intros x (c & Hc & Hx)%elem_of_concat_map;
      destruct (Hall c Hc) as [Hc1 Hc2]; [exact (proj1 (Forall_forall _ _) Hc1 x Hx)|exact (proj1 (Forall_forall _ _) Hc2 x Hx)].
Qed.

(** A node whose entries and children's references are in range. *)
Lemma node_wf l x : shape l x -> l <= 64 -> Forall wf_entry (entries_of x) ->
  Forall (fun n => is_u64 n) (pages_of (entries_of x)) -> Forall (fun c => wf_ref (t_reference c)) (t_children x) -> wf_node (t_node x).
Proof.
  intros Hs Hl He Hp Hc. inversion Hs as [|r k cs Hk Hne Hcs]; subst; cbn [t_node t_children wf_node entries_of] in *; [done|].
  split; [unfold is_uint; lia|]. apply Forall_fmap. rewrite Forall_forall in *. intros c Hin. split; [by apply Hc|].
  cbn [branch_of b_max_page]. apply (proj1 (Forall_forall _ _) Hp). unfold pages_of. apply list_elem_of_fmap.
  pose proof (last_page_in _ _ (Hcs c Hin)) as Hm. apply list_elem_of_fmap in Hm as (e & -> & Hm). exists e. split; [done|].
  apply elem_of_concat_map. by exists c.
Qed.
End grown.

Lemma changed_pages_ok parent f changed : changed_pages parent f changed -> len f < 2 ^ 64 -> changed_ok changed.
Proof.
  intros [Hs Hg] Hf. split; [done|]. apply Forall_forall. intros [n page] Hin%bt_get_elem; [|done].
  apply Hg in Hin as (? & ? & _). unfold PAGE, is_uint in *. cbn [fst]. lia.
Qed.

(** Entries of a parent that was resolved stand for its pages. *)
Lemma parent_entry `{HexCrate, Sha2Crate, ImageCrates} read gp rp e : runtime_generation gp -> resolves read gp rp ->
  e ∈ image_entries (rg_tree rp) -> exists page, mapped read PAGE_SIZE e page /\ page_at PAGE_SIZE (rg_bytes rp) (e_page_number e) = Some page.
Proof.
  intros (Hps & [Hpc _] & _) [_ _ _ _ _ _ _ Ht _ _ Hp _] He.
  destruct (tree_entries read _ _ Hpc Ht) as (_ & Hi & Hu). rewrite Hps in Hp.
  pose proof (list_elem_of_fmap_2 e_page_number _ _ He) as Hn. pose proof (increasing_above _ _ Hi) as Ha. rewrite Forall_forall in Hu, Ha.
  specialize (Hp (e_page_number e)). assert (lookup_page (e_page_number e) (image_entries (rg_tree rp)) = Some e) as Hl.
  { apply bt_get_elem; [by apply (increasing_sorted 0)|]. by apply (list_elem_of_fmap_2 (fun e => (e_page_number e, e))). }
  rewrite Hl in Hp. apply Hp. specialize (Ha _ Hn). specialize (Hu _ Hn). lia.
Qed.

(** A parent that was resolved is a well-formed tree of references and entries in range. *)
Lemma resolved_tree `{HexCrate, Sha2Crate, ImageCrates} read gp rp : runtime_generation gp -> resolves read gp rp ->
  (forall r, mi_page_map (g_metadata_image gp) = Some r -> wf_ref (root_reference r)) ->
  parent_ok (rg_tree rp) /\
  Forall (reads_back (fun r => read (object r PAGE_MAP_MEDIA_TYPE))) (image_subtrees (rg_tree rp)) /\
  Forall (fun x => wf_ref (t_reference x)) (image_subtrees (rg_tree rp)) /\ Forall wf_entry (image_entries (rg_tree rp)).
Proof.
  intros _ [_ _ _ _ _ _ _ Ht _ _ _ _] Hmap. unfold tree_resolves in Ht.
  destruct (mi_page_map (g_metadata_image gp)) as [root|].
  - destruct Ht as (t & -> & Hr & (_ & Hs & Hi & _ & _ & _ & Hb)). cbn [parent_ok image_subtrees image_entries].
    split; [by eexists|]. split; [done|]. eapply parent_wf; [done..|]. rewrite <- Hr. by apply Hmap.
  - rewrite Ht. split; [done|]. split_and!; constructor.
Qed.

(** The pages of the new image. *)
Lemma page_carries parent f changed n : changed_pages parent f changed -> 1 <= n -> n * PAGE_SIZE <= len f ->
  page_at PAGE_SIZE f n = match bt_get n changed with Some page => Some page | None => page_at PAGE_SIZE parent n end.
Proof.
  intros [_ Hg] Hn Hf. change PAGE_SIZE with PAGE in *. rewrite (page_at_range PAGE) by (done || unfold PAGE; lia).
  destruct (bt_get n changed) as [page|] eqn:E; [by apply Hg in E as (_ & _ & -> & _)|].
  destruct (decide (parent_page parent n = Some (page_of f n))) as [Hp|Hp]; [by symmetry|].
  assert (bt_get n changed = Some (page_of f n)) as Hs by (by apply Hg). congruence.
Qed.

(** ** The new tree reads back *)

Lemma NoDup_map_by {A B C} (k : A -> B) (u : A -> C) (l : list A) : NoDup (map k l) ->
  (forall x y, x ∈ l -> y ∈ l -> u x = u y -> k x = k y) -> NoDup (map u l).
Proof.
  induction l as [|a l IH]; intros Hk Hu; cbn [map] in *; [constructor|]. apply NoDup_cons in Hk as [Ha Hk]. constructor.
  - intros (y & E & Hy)%list_elem_of_fmap. apply Ha. rewrite (Hu a y); [by apply list_elem_of_fmap_2|by left|by right|done].
  - apply IH; [done|]. intros x y Hx Hy. apply Hu; by right.
Qed.

Section composed.
Context `{HexCrate, Sha2Crate, ImageCrates} (known : bytes -> Prop).
Context (Hno : forall a b, known a -> known b -> digest a = digest b -> a = b).
Context (read read' : ObjectReference -> rresult bytes) (Hext : extends read read').
Context (parent : option Tree) (root : Tree) (l : Z) (ms : list PageMapEntry) (changed : list (Z * bytes)) (eof : Z).
Context (arts : Artifacts) (out : list Artifact).
Context (Hok : artifacts_ok arts) (Hheld : holds read' out) (Hout : forall a, a ∈ out -> known (a_bytes a)).
Context (Hkeep : forall r a, r ∈ references_of root -> bt_get (uri_str (ref_uri r)) arts = Some a -> a ∈ out).

(** A reference of the new tree to known bytes, named by their content, is read. *)
Lemma artifact_reads r m b : r ∈ references_of root -> is_Some (bt_get (uri_str (ref_uri r)) arts) -> known b ->
  (map_uri (digest b) = Ok (ref_uri r) \/ pack_uri (digest b) = Ok (ref_uri r)) ->
  ref_sha256 r = digest b -> ref_length r = len b -> read' (object r m) = Ok b.
Proof.
  intros Hr [a Ha] Hb Hu Hs Hl. pose proof (Hkeep r a Hr Ha) as Hin. pose proof (artifact_uri _ _ _ Hok Ha) as Hk.
  assert (a_bytes a = b) as Eb.
  { apply Hno; [by apply Hout|done|]. apply (stored_digest _ _ _ _ Hok Ha (wf_digest b)). by destruct (ref_uri r). }
  pose proof (Hheld a m Hin) as Hread. rewrite Eb in Hread. destruct r as [[u] s len0], (a_uri a) as [u']. cbn in *. congruence.
Qed.

Context (Hroot : tree_inv l root) (Hl : l <= 64).
Context (Hent : entries_of root = leaf_pages (image_entries parent) ms eof).
Context (Hpi : increasing 0 (pages_of (image_entries parent))) (Hmi : increasing 0 (pages_of ms)).
Context (Hms : Forall2 (maps_page (chunks pack_capacity changed) arts) ms changed).
Context (Hpos : Forall (fun p => 0 < p.1 <= eof /\ len p.2 = PAGE_SIZE) changed) (Heof : is_u64 eof).
Context (Hfresh : forall x, x ∈ subtrees root -> fresh arts x \/ x ∈ image_subtrees parent).
Context (Hpb : Forall (reads_back (fun r => read (object r PAGE_MAP_MEDIA_TYPE))) (image_subtrees parent)).
Context (Hpr : Forall (fun x => wf_ref (t_reference x)) (image_subtrees parent)) (Hpe : Forall wf_entry (image_entries parent)).
Context (Hpack : forall chunk, chunk ∈ chunks pack_capacity changed -> known (pack_bytes PAGE_SIZE chunk)).
Context (Hnode : forall x b, x ∈ subtrees root -> encode_page_map (t_node x) = Ok b -> known b).

(** Where an entry of the new tree comes from. *)
Lemma entry_origin n : match bt_get n changed with
  | Some page => exists e, lookup_page n (entries_of root) = Some e /\ maps_page (chunks pack_capacity changed) arts e (n, page)
  | None => lookup_page n (entries_of root) = if n <=? eof then lookup_page n (image_entries parent) else None
  end.
Proof.
  pose proof (maps_lookup _ _ _ _ n Hms) as Hn. rewrite Hent, (leaf_pages_lookup n 0) by done.
  destruct (bt_get n changed) as [page|]; [|by rewrite Hn]. destruct Hn as (e & -> & Hm). eauto.
Qed.

Lemma root_lookup e : e ∈ entries_of root -> lookup_page (e_page_number e) (entries_of root) = Some e.
Proof.
  intros He. destruct Hroot as [_ Hi]. apply bt_get_elem; [by apply (increasing_sorted 0)|].
  by apply (list_elem_of_fmap_2 (fun e => (e_page_number e, e))).
Qed.

Lemma changed_page n page : bt_get n changed = Some page -> 0 < n <= eof /\ len page = PAGE_SIZE.
Proof. intros Hg%bt_get_some_elem. rewrite Forall_forall in Hpos. by apply (Hpos (n, page)). Qed.

Lemma entry_bound e : e ∈ entries_of root -> 0 < e_page_number e <= eof.
Proof.
  intros He. pose proof (root_lookup e He) as Hlk. pose proof (entry_origin (e_page_number e)) as Ho.
  destruct (bt_get _ changed) as [page|] eqn:Eg; [by apply changed_page in Eg as [? _]|]. rewrite Ho in Hlk.
  destruct (Z.leb_spec (e_page_number e) eof); [|done]. split; [|done]. destruct Hroot as [_ Hi%increasing_above].
  rewrite Forall_forall in Hi. apply (Hi (e_page_number e)). by apply list_elem_of_fmap_2.
Qed.

Lemma root_pages_u64 : Forall (fun n => is_u64 n) (pages_of (entries_of root)).
Proof.
  apply Forall_forall. intros n (e & -> & He)%list_elem_of_fmap. pose proof (entry_bound e He). unfold is_uint in *. lia.
Qed.

Lemma maps_page_wf e p : maps_page (chunks pack_capacity changed) arts e p -> is_u64 p.1 -> wf_entry e.
Proof.
  intros (En & _ & Er & Eh & chunk & _ & Hu & Hs & Hlen & Hsl & _ & Hc & Hp & Hcap & j & Hj & Est & Eo) Hu64.
  apply lookup_lt_Some in Hj. change pack_capacity with 252%nat in Hcap. pose proof Hp as (_ & _ & _ & Hall).
  assert (len (pack_bytes PAGE_SIZE chunk) < 2 ^ 63) as Hl63.
  { rewrite pack_bytes_len by done. unfold len, PAGE_SIZE. lia. }
  pose proof (len_nonneg (pack_bytes PAGE_SIZE chunk)).
  split; [split; [|split]|]; [by eapply pack_uri_wf; [apply wf_digest|]|rewrite Hs; apply wf_digest|rewrite Hlen; unfold is_uint; lia|].
  rewrite En, Er, Eh, Est, Eo. split; [done|]. unfold is_uint, PAGE_SIZE, len. split_and!; try lia. apply wf_digest.
Qed.

Lemma root_entries_wf : Forall wf_entry (entries_of root).
Proof.
  apply Forall_forall. intros e He. pose proof (entry_bound e He) as Hb. pose proof (root_lookup e He) as Hlk.
  pose proof (entry_origin (e_page_number e)) as Ho. destruct (bt_get _ changed) as [page|] eqn:Eg.
  - destruct Ho as (e' & Ho & Hm). assert (e' = e) as -> by congruence. apply (maps_page_wf _ _ Hm). cbn. unfold is_uint in *. lia.
  - rewrite Ho in Hlk. destruct (_ <=? eof); [|done]. rewrite Forall_forall in Hpe. by apply Hpe, (lookup_elem (e_page_number e)).
Qed.

Lemma root_reads_back : Forall (reads_back (fun r => read' (object r PAGE_MAP_MEDIA_TYPE))) (subtrees root).
Proof.
  apply Forall_forall. intros x Hx. pose proof (Hfresh x Hx) as Hx0. rewrite Forall_forall in Hpb, Hpr. destruct Hx0 as [Hx0|Hx0].
  2:{ apply (reads_back_grows read read' Hext). by apply Hpb. }
  pose proof Hroot as [Hs _]. destruct (subtree_shape root x l Hx Hs) as (lx & Hlx & Hsx & Hex & Hchildren).
  pose proof Hx0 as [(b & uri & Hb & Hu & Hr) Hst]. pose proof (Hnode x b Hx Hb) as Hkb.
  pose proof (sealed_wf x (proj1 Hx0)) as [_ Hlen]. split; [lia|]. exists b. split.
  - apply artifact_reads; [by eapply references_subtree|exact Hst|done|left|..]; by rewrite Hr.
  - apply decode_page_map_ok. split; [|done]. apply (node_wf lx); [done|lia|..].
    + apply Forall_forall. intros e He. apply (proj1 (Forall_forall _ _) root_entries_wf). by apply Hex.
    + apply Forall_forall. intros n (e & -> & He)%list_elem_of_fmap. apply (proj1 (Forall_forall _ _) root_pages_u64).
      by apply list_elem_of_fmap_2, Hex.
    + apply Forall_forall. intros c Hc. apply Hchildren in Hc. destruct (Hfresh c Hc) as [[Hc1 _]|Hc1]; [by apply sealed_wf|by apply Hpr].
Qed.

Lemma root_uris : NoDup (uris_of root).
Proof.
  pose proof Hroot as [Hs Hi]. apply (NoDup_map_by node_key); [by eapply node_keys|]. intros x y Hx Hy E.
  pose proof (proj1 (Forall_forall _ _) root_reads_back) as Hb. destruct (Hb x Hx) as (_ & b & Hbx & Hdx), (Hb y Hy) as (_ & b' & Hby & Hdy).
  destruct (reference_unique read read' Hext _ _ _ _ _ _ Hbx Hby E) as [_ <-]. unfold node_key. congruence.
Qed.

Lemma root_loads : loads (fun r => read' (object r PAGE_MAP_MEDIA_TYPE)) root l 0 eof ∅.
Proof.
  pose proof Hroot as [Hs Hi]. split_and!; try done; [|apply root_uris|by apply Forall_forall|apply root_reads_back].
  apply Forall_forall. intros n (e & -> & He)%list_elem_of_fmap. pose proof (entry_bound e He). lia.
Qed.

(** The page an entry stands for: the changed page, or the page of the parent. *)
Lemma entry_mapped e : e ∈ entries_of root ->
  (forall e' , e' ∈ image_entries parent -> exists page, mapped read PAGE_SIZE e' page) ->
  exists page, mapped read' PAGE_SIZE e page /\
    match bt_get (e_page_number e) changed with Some p => page = p | None => e ∈ image_entries parent /\ mapped read PAGE_SIZE e page end.
Proof.
  intros He Hparent. pose proof (root_lookup e He) as Hlk. pose proof (entry_origin (e_page_number e)) as Ho.
  destruct (bt_get _ changed) as [page|] eqn:Eg.
  - destruct Ho as (e' & Ho & Hm). assert (e' = e) as -> by congruence. exists page. split; [|done].
    destruct Hm as (En & Ec & Er & Eh & chunk & Hin & Hu & Hs & Hlen & Hsl & Hst & Hc & Hp & Hcap & j & Hj & Est & Eo).
    destruct (written_page _ e (e_page_number e) page chunk j eq_refl Hc Hp Hcap Hj eq_refl Ec Er Eh Est Eo Hsl)
      as (index & Hd & Hps & Hrd).
    split; [done|]. exists (pack_bytes PAGE_SIZE chunk), index. split; [|done]. split; [|done].
    apply artifact_reads; [by eapply references_entry; [|apply Hroot]|done|by apply Hpack|by right|done..].
  - rewrite Ho in Hlk. destruct (_ <=? eof); [|done]. apply lookup_elem in Hlk. destruct (Hparent e Hlk) as [page Hm].
    exists page. split; [by apply (mapped_grows read)|done].
Qed.

Lemma lookup_number n es e : lookup_page n es = Some e -> e_page_number e = n.
Proof. intros Hin%bt_get_some_elem. by apply list_elem_of_fmap in Hin as (e' & [= -> ->] & _). Qed.

(** The new image, page by page. *)
Lemma new_pages gp rp f n : parent = rg_tree rp -> runtime_generation gp -> resolves read gp rp ->
  changed_pages (rg_bytes rp) f changed -> len f = eof * PAGE_SIZE -> 1 <= n <= eof ->
  match lookup_page n (entries_of root) with
  | Some e => exists page, mapped read' PAGE_SIZE e page /\ page_at PAGE_SIZE f n = Some page
  | None => page_at PAGE_SIZE f n = page_at PAGE_SIZE (rg_checkpoint rp) n
  end.
Proof.
  intros Ep Hrun Hparent Hch Hf Hn. assert (n * PAGE_SIZE <= len f) as Hnf by (rewrite Hf; unfold PAGE_SIZE; lia).
  pose proof (page_carries _ _ _ n Hch (proj1 Hn) Hnf) as Hpage. pose proof (entry_origin n) as Ho.
  assert (forall e', e' ∈ image_entries parent -> exists page, mapped read PAGE_SIZE e' page) as Hpm.
  { rewrite Ep. intros e' He'. destruct (parent_entry read gp rp e' Hrun Hparent He') as (page & Hm & _). eauto. }
  destruct (lookup_page n (entries_of root)) as [e|] eqn:El.
  - pose proof (lookup_number _ _ _ El) as En. pose proof (lookup_elem _ _ _ El) as He.
    destruct (entry_mapped e He Hpm) as (page & Hm & Hcase). exists page. split; [done|]. rewrite En in Hcase. rewrite Hpage.
    destruct (bt_get n changed); [by subst|]. destruct Hcase as [Hin Hold]. rewrite Ep in Hin.
    destruct (parent_entry read gp rp e Hrun Hparent Hin) as (page' & Hm' & Hat). rewrite En in Hat. rewrite Hat.
    f_equal. by eapply mapped_functional.
  - destruct (bt_get n changed); [by destruct Ho as (? & ? & _)|]. replace (n <=? eof) with true in Ho by lia.
    rewrite Hpage. assert (n * PAGE_SIZE <= len (rg_bytes rp)) as Hle.
    { rewrite (page_at_range PAGE_SIZE) in Hpage by (done || lia). symmetry in Hpage.
      by apply page_at_some in Hpage as (_ & ? & _). }
    destruct Hrun as (Hps & _). pose proof (rs_length _ _ _ Hparent) as [Hlen _]. pose proof (rs_pages _ _ _ Hparent n) as Hrs.
    rewrite Hps in *. rewrite <- Ep, <- Ho in Hrs. apply Hrs. unfold PAGE_SIZE in *. lia.
Qed.

(** No two packs of the new tree share a name. *)
Lemma new_packs : (forall e' , e' ∈ image_entries parent -> exists page, mapped read PAGE_SIZE e' page) ->
  uri_unique (map e_pack (entries_of root)).
Proof.
  intros Hpm x y (e & -> & He)%list_elem_of_fmap (e' & -> & He')%list_elem_of_fmap E.
  destruct (entry_mapped e He Hpm) as (p & (_ & raw & i & (Hr & _) & _) & _).
  destruct (entry_mapped e' He' Hpm) as (p' & (_ & raw' & i' & (Hr' & _) & _) & _).
  by destruct (reference_unique read read' Hext _ _ _ _ _ _ Hr Hr' E).
Qed.
End composed.

(** ** Properties *)

(** The generation [finish_candidate] builds over an incremental image: the
    parent's checkpoint under the new map. *)
Definition follows `{Sha2Crate} (gp g : Generation) (img : IncrementalImage) (eof : Z) : Prop :=
  let image := g_metadata_image g in
  let parent := g_metadata_image gp in
  g_table_id g = g_table_id gp /\ mi_checkpoint image = mi_checkpoint parent /\
  mi_checkpoint_page_index image = mi_checkpoint_page_index parent /\ mi_page_size image = PAGE_SIZE /\
  mi_page_map image = i_root img /\ mi_page_count image = eof /\
  mi_image_root_sha256 image = image_root_hash (g_table_id g) (g_table_version g) PAGE_SIZE eof
    (ck_sha256 (mi_checkpoint image)) (root_sha256 <$> i_root img).


(** What [persist] writes resolves to the frozen image: given a parent that
    resolves, the changed pages of a new image, a store that has received the
    artifacts, and a generation over the parent's checkpoint that names the new
    root, [resolve_generation] returns exactly the new image's bytes, as long as
    the byte strings that are stored have distinct digests. *)
Lemma persist_resolves `{HexCrate, Sha2Crate, ImageCrates} (known : bytes -> Prop)
    (read read' : ObjectReference -> rresult bytes) (gp g : Generation) (rp : ResolvedGeneration)
    (f header : bytes) (changed : list (Z * bytes)) (img : IncrementalImage)
    (Hno : forall a b, known a -> known b -> digest a = digest b -> a = b)
    (Hrun : runtime_generation gp) (Hparent : resolve_generation read gp = Ok rp)
    (Hmap : forall r, mi_page_map (g_metadata_image gp) = Some r -> wf_ref (root_reference r))
    (Hch : changed_pages (rg_bytes rp) f changed) (Hmod : len f mod PAGE_SIZE = 0) (Hlen : 0 < len f < 2 ^ 64)
    (E : persist (rg_tree rp) changed (len f / PAGE_SIZE) = Some (Ok img)) (Hsome : is_Some (i_root img))
    (Hext : extends read read') (Hheld : holds read' (i_artifacts img))
    (Hout : forall a, a ∈ i_artifacts img -> known (a_bytes a))
    (Hpack : forall chunk, chunk ∈ chunks pack_capacity changed -> known (pack_bytes PAGE_SIZE chunk))
    (Hfol : follows gp g img (len f / PAGE_SIZE))
    (Hheight : forall r, i_root img = Some r -> root_height r <= 64)
    (Hnode : forall x b, x ∈ image_subtrees (persisted_tree (rg_tree rp) changed (len f / PAGE_SIZE)) -> encode_page_map (t_node x) = Ok b -> known b)
    (Hh : slice f 28 32 = Some header) (Hv : be_val header = len f / PAGE_SIZE) :
  let tree := persisted_tree (rg_tree rp) changed (len f / PAGE_SIZE) in
  i_root img = root_of <$> tree /\
  resolve_generation read' g = Ok {| rg_checkpoint := rg_checkpoint rp; rg_bytes := f; rg_tree := tree |}.
Proof.
  pose proof Hrun as (Hps & Hpc & _). assert (is_u32 PAGE_SIZE) as Hu32 by (vm_compute; split; done).
  apply resolve_sound in Hparent; [|by rewrite Hps|done].
  destruct (resolved_tree read gp rp Hrun Hparent Hmap) as (Hpok & Hpb & Hpr & Hpe).
  destruct (persist_stages _ _ _ _ Hpok (changed_pages_ok _ _ _ Hch ltac:(lia)) E)
    as (ms & arts & Hroot & Hrok & Hok & Hent & Hmi & Hms & Hpos & Hfresh & Hkeep). cbn zeta.
  split; [done|]. destruct (persisted_tree _ _ _) as [root|]; [|by rewrite Hroot in Hsome; destruct Hsome].
  cbn [fmap option_fmap option_map image_subtrees] in Hroot, Hnode. destruct Hrok as [l Hrok].
  set (eof := len f / PAGE_SIZE) in *. assert (len f = eof * PAGE_SIZE) as Hf.
  { pose proof (Z.div_mod (len f) PAGE_SIZE ltac:(done)). unfold eof. lia. }
  assert (is_u64 eof) as Heof by (unfold is_uint, PAGE_SIZE in *; lia).
  pose proof (parent_increasing _ Hpok) as Hpi. specialize (Hheight _ Hroot). cbn [root_of root_height] in Hheight.
  destruct (shape_level _ _ (proj1 Hrok)) as [Hlevel _].
  assert (forall e', e' ∈ image_entries (rg_tree rp) -> exists page, mapped read PAGE_SIZE e' page) as Hpm.
  { intros e' He'. destruct (parent_entry read gp rp e' Hrun Hparent He') as (page & Hm & _). eauto. }
  destruct Hfol as (Etable & Eck & Eidx & Eps & Emap & Epc & Ehash). pose proof Hparent as [Hck Hlay Hidx Hbase _ _ _ _ _ _ _ _].
  apply resolve_complete; [by rewrite Eps|by rewrite Epc|].
  constructor; cbn [rg_checkpoint rg_bytes rg_tree image_entries]; rewrite ?Eps, ?Epc, ?Eck.
  - by apply (ex_keep _ _ Hext).
  - by rewrite <- Hps.
  - eapply (verify_index_grows read read' Hext); [exact Hidx|done..|by rewrite Eps, Hps].
  - unfold base_matches in *. by rewrite Etable, Eck, Eps, <- Hps.
  - by rewrite Emap, Ehash, Eck.
  - lia.
  - lia.
  - unfold tree_resolves. rewrite Emap, Hroot, Epc. exists root. split; [done|]. cbn [root_of root_height].
    split; [by destruct root as [[] ? ? ? ?]|]. rewrite Hlevel.
    eapply (root_loads known Hno read read' Hext (rg_tree rp)); try eassumption. lia.
  - done.
  - eapply (new_packs known Hno read read' Hext (rg_tree rp)); eassumption.
  - intros n Hn. eapply (new_pages known Hno read read' Hext (rg_tree rp)); try eassumption. done.
  - by exists header.
Qed.

(** ** Example *)

Lemma find_app_left {A} (p : A -> bool) l more x : find p l = Some x -> find p (l ++ more) = Some x.
Proof. induction l as [|a l IH]; cbn; [done|]. by destruct (p a). Qed.

Lemma store_read_extends `{Sha2Crate} store more store' : store' = store ++ more ->
  extends (store_read store) (store_read store').
Proof.
  intros ->. unfold store_read. constructor.
  - intros o b E. apply bind_ok in E as (raw & Hf & E). apply ok_or_ok in Hf. destruct (find _ store) as [kv|] eqn:Ef; [|done].
    rewrite (find_app_left _ _ _ _ Ef). cbn in Hf |- *. by injection Hf as <-.
  - intros o b E. apply bind_ok in E as (raw & _ & E). apply bind_reject in E as [Hc [= <-]]. bool_to_prop.
    split; [done|]. intros n Hn. rewrite Hn in *. bool_to_prop. done.
  - intros o o' b b' E E' Eu. apply bind_ok in E as (raw & Hf & E). apply bind_ok in E' as (raw' & Hf' & E').
    apply bind_reject in E as [_ [= <-]]. apply bind_reject in E' as [_ [= <-]]. rewrite Eu in Hf. congruence.
Qed.

(** Reading back what was stored, whatever the media type. *)
Definition stored_as `{Sha2Crate} (store : list (string * bytes)) (a : Artifact) : bool :=
  match store_read store {| or_uri := a_uri a; or_sha256 := digest (a_bytes a); or_length := Some (len (a_bytes a)); or_media_type := None |} with
  | Ok b => bool_decide (b = a_bytes a)
  | Err _ => false
  end.
Lemma store_holds `{HexCrate, Sha2Crate} store arts : forallb (stored_as store) arts = true -> holds (store_read store) arts.
Proof.
  intros Hall a m Ha%list_elem_of_In. rewrite forallb_forall in Hall. specialize (Hall a Ha). unfold stored_as, store_read in *.
  cbn [or_uri or_sha256 or_length object ref_uri ref_sha256 ref_length] in *.
  destruct (ok_or _ _) as [b|]; cbn [mbind result_bind] in *; [|done].
  destruct (reject _ _); cbn [mbind result_bind] in *; [|done]. bool_to_prop. by subst.
Qed.
#[local] Instance example_hex : HexCrate := hex_reference.
#[local] Instance example_sha2 : Sha2Crate := sha2_reference.
#[local] Instance example_crates : ImageCrates :=
  {| sql_meta _ := Ok (repeat Byte.x01 16, 1); sql_page_size _ := Ok PAGE_SIZE; sql_page_count b := Ok (len b / PAGE_SIZE);
     zstd_decompress b _ := Ok b |}.

Definition small_parent : Generation := small_generation 1 None 1.
Definition small_before : list (string * bytes) := [("c", small_page 1)].

Lemma small_parent_resolves : resolve_generation (store_read small_before) small_parent =
  Ok {| rg_checkpoint := small_page 1; rg_bytes := small_page 1; rg_tree := None |}.
Proof. vm_compute. reflexivity. Qed.

Lemma small_changed_pages : changed_pages (small_page 1) small_bytes small_changed.
Proof.
  split; [repeat constructor|]. intros n page. split.
  - intros Hin%bt_get_some_elem. repeat (apply elem_of_cons in Hin as [Hin|Hin]); [..|by apply not_elem_of_nil in Hin];
      injection Hin as -> ->; (split; [done|]); (split; [by vm_compute|]); (split; [by vm_compute|]);
      apply (bool_decide_eq_true_1 _); vm_compute; reflexivity.
  - intros (? & Hl & -> & _). change (len small_bytes) with 8192 in Hl. unfold PAGE in Hl.
    assert (n = 1 \/ n = 2) as [-> | ->] by lia; vm_compute; reflexivity.
Qed.

Lemma small_holds : holds (store_read small_store) (i_artifacts small_image).
Proof. apply store_holds. vm_compute. reflexivity. Qed.

Lemma small_packs_known : Forall (fun chunk => pack_bytes PAGE_SIZE chunk ∈ small_known) (chunks pack_capacity small_changed).
Proof. apply (bool_decide_eq_true_1 _). vm_compute. reflexivity. Qed.

Lemma small_artifacts_known : Forall (fun a => a_bytes a ∈ small_known) (i_artifacts small_image).
Proof. apply (bool_decide_eq_true_1 _). vm_compute. reflexivity. Qed.

Lemma small_follows version version' map map' count count' img : i_root img = map' ->
  follows (small_generation version map count) (small_generation version' map' count') img count'.
Proof. by intros <-. Qed.

(** The tree that was persisted, and the bytes of its nodes *)
Definition small_tree : option Tree := persisted_tree None small_changed 2.
Definition node_bytes (root : option Tree) : list bytes := omap (fun x => ok (encode_page_map (t_node x))) (image_subtrees root).
Lemma nodes_known_ok (root : option Tree) (known : list bytes) : Forall (fun b => b ∈ known) (node_bytes root) ->
  forall x b, x ∈ image_subtrees root -> encode_page_map (t_node x) = Ok b -> b ∈ known.
Proof. intros Hall x b Hx E. rewrite Forall_forall in Hall. apply Hall, list_elem_of_omap. exists x. by rewrite E. Qed.
Lemma small_nodes_known : Forall (fun b => b ∈ small_known) (node_bytes small_tree).
Proof. apply (bool_decide_eq_true_1 _). vm_compute. reflexivity. Qed.

(** The new page and the changed one resolve. *)
Lemma small_persisted :
  i_root small_image = root_of <$> small_tree /\
  resolve_generation (store_read small_store) small_new =
    Ok {| rg_checkpoint := small_page 1; rg_bytes := small_bytes; rg_tree := small_tree |}.
Proof.
  refine (persist_resolves (fun b => b ∈ small_known) (store_read small_before) (store_read small_store) small_parent small_new
    _ small_bytes (be_bytes 4 2) small_changed small_image small_distinct _ small_parent_resolves _ small_changed_pages _ _ _ _ _ small_holds _ _ _ _ _ _ _).
  - apply small_runtime; vm_compute; split; done.
  - by intros r ?.
  - reflexivity.
  - vm_compute. split; reflexivity.
  - vm_compute. reflexivity.
  - vm_compute. eauto.
  - exact (store_read_extends small_before _ small_store eq_refl).
  - intros a Ha. exact (proj1 (Forall_forall _ _) small_artifacts_known a Ha).
  - intros chunk Hc. exact (proj1 (Forall_forall _ _) small_packs_known chunk Hc).
  - replace (len small_bytes / PAGE_SIZE) with 2 by (vm_compute; reflexivity). by apply small_follows.
  - intros r Hr. assert (from_option root_height 0 (i_root small_image) = 0) as Hz by (vm_compute; reflexivity). rewrite Hr in Hz. cbn in Hz. lia.
  - exact (nodes_known_ok _ _ small_nodes_known).
  - vm_compute. reflexivity.
  - vm_compute. reflexivity.
Qed.
