(* ===== verification/Publication.v ===== *)
(** Publishing a transaction (otmp/src/runtime.rs): immutable uploads, the
    conditional replacement of the head with its reconciliation and rebase loops,
    and the creation of a table's first head, all among other clients of the
    store. *)
From S2P Require Import Prelude Bytes Errors Values CanonicalJson PageTree Storage Objects.

(** ** A store with other clients *)

(** [w_writes] is not part of the program: it records, for each conditional write
    of this client, the head before and after it. *)
Record World (S : Type) := MkWorld {
  w_store : S;
  w_clock : nat;
  w_writes : list (option bytes * option bytes) }.
Arguments MkWorld {S}. Arguments w_store {S}. Arguments w_clock {S}. Arguments w_writes {S}.

(** An operation on the world that may fail: [async fn .. -> Result<A, RuntimeError>]. *)
Definition M (S A : Type) : Type := World S -> rresult A * World S.
#[export] Instance m_ret S : MRet (M S) := fun A a w => (Ok a, w).
#[export] Instance m_bind S : MBind (M S) := fun A B f m w =>
  match m w with (Ok a, w) => f a w | (Err e, w) => (Err e, w) end.
Definition fail {S A} (e : rerror) : M S A := fun w => (Err e, w).
Definition of_result {S A} (r : rresult A) : M S A := fun w => (r, w).
(** The result as a value, for a caller that matches on it. *)
Definition attempt {S A} (m : M S A) : M S (rresult A) := fun w => let '(r, w) := m w in (Ok r, w).

(** ** Data *)

(** [MaterializedImage] is a scratch file holding the bytes of [resolved], and the
    checkpoint object is only kept alive; a query
    on the file is a function of its bytes. *)
Record PinnedTable := {
  raw_head : bytes;
  head_version : ObjectVersion;
  pt_head : Head;
  pt_commit : SemanticCommit;
  pt_generation : Generation;
  current_main : option Id;
  page_tree : option Tree;
  resolved : bytes }.

Record Candidate (R : Type) := MkCandidate {
  c_semantic_state : Sha256;
  c_commit_uri : RelativeUri;
  c_commit_bytes : bytes;
  c_image_artifacts : list Artifact;
  c_generation_uri : RelativeUri;
  c_generation_bytes : bytes;
  c_head_bytes : bytes;
  c_result : R }.
Arguments MkCandidate {R}. Arguments c_semantic_state {R}. Arguments c_commit_uri {R}. Arguments c_commit_bytes {R}.
Arguments c_image_artifacts {R}. Arguments c_generation_uri {R}. Arguments c_generation_bytes {R}.
Arguments c_head_bytes {R}. Arguments c_result {R}.

Record TransactionRetryPolicy := {
  maximum_rebases : Z;
  maximum_indeterminate_reconciliations : Z }.
Definition default_retry_policy : TransactionRetryPolicy :=
  {| maximum_rebases := 8; maximum_indeterminate_reconciliations := 3 |}.

Inductive FileFormat := Parquet.
Record SourceFingerprint := { fp_sha256 : Sha256; fp_length : Z }.

Record VerifiedStagedFile := {
  vs_table_id : Id;
  vs_ordinal : nat;
  vs_file_id : Id;
  vs_uri : RelativeUri;
  vs_version : ObjectVersion;
  vs_sha256 : Sha256;
  vs_length : Z;
  vs_format : FileFormat;
  vs_object_identity : option string }.

(** SQLite, through the queries the code issues on an image. *)
Class Sqlite := {
  (** SELECT intent_sha256, result_json FROM otmp_idempotency WHERE idempotency_key *)
  sql_idempotency : bytes -> string -> result string (option (bytes * string));
  (** SELECT semantic_state_sha256 of the commit the key is recorded with *)
  sql_commit_state : bytes -> string -> result string bytes }.

(** Another client's actions before each call of this one. *)
Class Interference (S : Type) := { interfere : nat -> S -> S }.

Section publication.
Context `{HexCrate, Sha2Crate, SerdeJson, Sqlite} {S : Type} `{!ObjectStore S, !StoreLaws S, !Interference S}.

Definition call {A} (op : S -> A * S) : World S -> A * World S := fun w =>
  let '(a, s) := op (interfere (w_clock w) (w_store w)) in (a, MkWorld s (1 + w_clock w) (w_writes w)).

Definition storage {A} (op : S -> sresult A * S) : M S A := fun w =>
  let '(r, w) := call op w in (of_storage r, w).

(** A conditional write of the head, with its effect recorded. *)
Definition head_call (op : S -> ConditionalWriteOutcome * S) : M S ConditionalWriteOutcome := fun w =>
  let before := interfere (w_clock w) (w_store w) in
  let '(outcome, after) := op before in
  (Ok outcome, MkWorld after (1 + w_clock w) (w_writes w ++ [(os_get before HEAD_KEY, os_get after HEAD_KEY)])).

Definition head_key : RelativeUri := MkUri HEAD_KEY.

(** ** Immutable objects *)

Definition put_immutable (key : RelativeUri) (b : bytes) : M S unit :=
  r ← (fun w => let '(r, w) := call (fun s => create_bytes s key b) w in (Ok r, w));
  match r with
  | Ok created =>
    _ ← storage (fun s => confirm_readable s key (co_sha256 created) (co_length created)); mret tt
  | Err (StorageError.ImmutableConflict _) =>
    _ ← storage (fun s => confirm_readable s key (digest b) (len b)); mret tt
  | Err e => fail (RuntimeError.Storage e)
  end.

Fixpoint put_artifacts (artifacts : list Artifact) : M S unit :=
  match artifacts with
  | [] => mret tt
  | a :: artifacts => _ ← put_immutable (a_uri a) (a_bytes a); put_artifacts artifacts
  end.

(** ** Staging a data file *)

(** [map_err] of a failed confirmation *)
Definition confirmation_error (e : serror) : rerror :=
  match e with StorageError.VerificationFailed _ => RuntimeError.FingerprintMismatch | e => RuntimeError.Storage e end.

(** [delete_if_version(..)], its answer ignored *)
Definition discard (key : RelativeUri) (version : ObjectVersion) : M S unit := fun w =>
  let '(_, w) := call (fun s => os_delete_if_version s key version) w in (Ok tt, w).

Fixpoint cleanup (staged : list VerifiedStagedFile) : M S unit :=
  match staged with
  | [] => mret tt
  | f :: staged => _ ← discard (vs_uri f) (vs_version f); cleanup staged
  end.


(** [source] is what reading the opened file gives; [file_id] is the identifier drawn. *)
Definition stage_file (table_id file_id : Id) (ordinal : nat) (source : result string bytes) (fingerprint : SourceFingerprint)
    (format : FileFormat) : M S VerifiedStagedFile :=
  uri ← of_result (of_protocol (relative_uri_from_str ("data/" +:+ id_to_string file_id +:+ ".parquet")));
  created ← (fun w =>
    let '(r, w) := call (fun s => os_create_from_reader s uri source (Some (fp_length fingerprint))) w in
    (map_err (fun e => match e with StorageError.MaximumLengthExceeded => RuntimeError.FingerprintMismatch
                                  | e => RuntimeError.Storage e end) r, w));
  if negb (co_length created =? fp_length fingerprint) || negb (bool_decide (co_sha256 created = fp_sha256 fingerprint)) then
    _ ← discard uri (co_version created); fail RuntimeError.FingerprintMismatch
  else
    readback ← (fun w =>
      let '(r, w) := call (fun s => confirm_readable s uri (fp_sha256 fingerprint) (fp_length fingerprint)) w in (Ok r, w));
    match readback with
    | Err e => _ ← discard uri (co_version created); fail (confirmation_error e)
    | Ok readback_version =>
      if negb (bool_decide (readback_version = co_version created)) then
        _ ← discard uri (co_version created); fail RuntimeError.FingerprintMismatch
      else
        mret {| vs_table_id := table_id; vs_ordinal := ordinal; vs_file_id := file_id; vs_uri := uri;
                vs_version := co_version created; vs_sha256 := co_sha256 created; vs_length := co_length created; vs_format := format; vs_object_identity := None |}
    end.

(** ** Uploads *)

Fixpoint confirm_staged (staged : list VerifiedStagedFile) : M S unit :=
  match staged with
  | [] => mret tt
  | f :: staged =>
    version ← (fun w => let '(r, w) := call (fun s => confirm_readable s (vs_uri f) (vs_sha256 f) (vs_length f)) w in
                        (map_err confirmation_error r, w));
    _ ← of_result (reject (negb (bool_decide (version = vs_version f))) RuntimeError.FingerprintMismatch);
    confirm_staged staged
  end.

Definition upload {R} (staged : list VerifiedStagedFile) (c : Candidate R) : M S unit :=
  _ ← confirm_staged staged;
  _ ← put_immutable (c_commit_uri c) (c_commit_bytes c);
  _ ← put_artifacts (c_image_artifacts c);
  put_immutable (c_generation_uri c) (c_generation_bytes c).

(** ** Creating the first head *)

Definition read_head : M S StoredObject := storage (fun s => os_read s head_key).

(** The loop of [initialize] around [create_head]; each round but the last adds a
    reconciliation, which the policy bounds. *)
Fixpoint create_loop (policy : TransactionRetryPolicy) (fuel : nat) (head_bytes : bytes) (reconciliations : Z) : M S unit :=
  match fuel with
  | O => fail (corrupt "out of fuel")
  | Datatypes.S fuel =>
    outcome ← head_call (fun s => os_create_head s head_bytes);
    match outcome with
    | Applied _ => mret tt
    | Conflict _ =>
      answer ← attempt read_head;
      current ← of_result (map_err (fun e => if 0 <? reconciliations then RuntimeError.PublicationIndeterminate else e) answer);
      if bool_decide (so_bytes current = head_bytes) then mret tt else fail RuntimeError.AlreadyExists
    | Indeterminate _ =>
      let reconciliations := reconciliations + 1 in
      answer ← attempt read_head;
      match answer with
      | Ok current => if bool_decide (so_bytes current = head_bytes) then mret tt else fail RuntimeError.AlreadyExists
      | Err _ =>
        if reconciliations <=? maximum_indeterminate_reconciliations policy
        then create_loop policy fuel head_bytes reconciliations
        else fail RuntimeError.PublicationIndeterminate
      end
    end
  end.

(** ** Replaying a recorded intent *)

Definition blob32 (b : bytes) (message : string) : rresult Sha256 :=
  if bool_decide (length b = 32%nat) then Ok (MkSha256 b) else Err (corrupt message).

Definition idempotency (image : bytes) (key : string) : rresult (option (Sha256 * string)) :=
  row ← map_err RuntimeError.Sqlite (sql_idempotency image key);
  match row with
  | None => Ok None
  | Some (h, r) => sha ← blob32 h "invalid idempotency hash"; Ok (Some (sha, r))
  end.

Definition replay {R} `{FromJson R} (pinned : PinnedTable) (key : string) (intent : Sha256)
  : rresult (option (R * Sha256)) :=
  recorded ← idempotency (resolved pinned) key;
  match recorded with
  | None => Ok None
  | Some (stored_hash, result) =>
    _ ← reject (negb (bool_decide (stored_hash = intent))) RuntimeError.IdempotencyConflict;
    h ← map_err RuntimeError.Sqlite (sql_commit_state (resolved pinned) key);
    r ← of_protocol (from_slice_canonical (T := R) (as_bytes result));
    sha ← blob32 h "invalid SHA-256 blob";
    Ok (Some (r, sha))
  end.

(** ** The publication loops *)

(** How the inner loop ends: the transaction is published, or another client's
    head must be looked at. *)
Inductive cas_exit (R : Type) :=
| Published (r : R * Sha256)
| Contended (indeterminate : Z).
Arguments Published {R}. Arguments Contended {R}.

Context (policy : TransactionRetryPolicy).
(** [Table::pin], reading and validating the current head: its calls of the store
    are among those of the other clients. *)
Context (pin : M S PinnedTable).

Section transaction.
Context {R : Type} `{FromJson R} (table_id : Id) (key : string) (intent : Sha256).

(** The conditional write and its reconciliation, from the round on in which
    [indeterminate] answers are behind. Each round but the last adds one, and the
    policy bounds them, so [cas_fuel] rounds are enough. *)
Fixpoint cas_loop (fuel : nat) (parent : PinnedTable) (c : Candidate R) (indeterminate : Z) : M S (cas_exit R) :=
  match fuel with
  | O => fail (corrupt "out of fuel")
  | Datatypes.S fuel =>
    outcome ← head_call (fun s => os_replace_head s (head_version parent) (c_head_bytes c));
    match outcome with
    | Applied _ => mret (Published (c_result c, c_semantic_state c))
    | Conflict _ => mret (Contended indeterminate)
    | Indeterminate _ =>
      let indeterminate := indeterminate + 1 in
      current ← attempt pin;
      match current with
      | Ok current =>
        _ ← of_result (reject (negb (bool_decide (h_table_id (pt_head current) = table_id)))
              (RuntimeError.SemanticConflict "table identity changed during reconciliation"));
        replayed ← of_result (replay (R := R) current key intent);
        match replayed with
        | Some r => mret (Published r)
        | None =>
          if bool_decide (head_version current = head_version parent)
             && bool_decide (raw_head current = raw_head parent)
          then if indeterminate <=? maximum_indeterminate_reconciliations policy
               then cas_loop fuel parent c indeterminate
               else fail RuntimeError.PublicationIndeterminate
          else mret (Contended indeterminate)
        end
      | Err _ =>
        if indeterminate <=? maximum_indeterminate_reconciliations policy
        then cas_loop fuel parent c indeterminate
        else fail RuntimeError.PublicationIndeterminate
      end
    end
  end.

Definition cas_fuel : nat := 1 + Z.to_nat (maximum_indeterminate_reconciliations policy).

(** [map_err] of the pin after a conflict *)
Definition winner_error (indeterminate : Z) (r : rresult PinnedTable) : rresult PinnedTable :=
  map_err (fun e => if 0 <? indeterminate then RuntimeError.PublicationIndeterminate else e) r.

(** The transaction is rebuilt on every new parent: [build n] is the call made in
    round [n], with the identifiers and times drawn in it. *)
Context (staged : list VerifiedStagedFile) (build : nat -> PinnedTable -> rresult (Candidate R)).

Fixpoint publish_loop (fuel : nat) (rebases : Z) (parent : PinnedTable) : M S (R * Sha256) :=
  match fuel with
  | O => fail (corrupt "out of fuel")
  | Datatypes.S fuel =>
    _ ← of_result (reject (negb (bool_decide (h_table_id (pt_head parent) = table_id)))
          (RuntimeError.SemanticConflict "table identity changed during publication"));
    replayed ← of_result (replay (R := R) parent key intent);
    match replayed with
    | Some r => mret r
    | None =>
      candidate ← of_result (build (Z.to_nat rebases) parent);
      _ ← upload staged candidate;
      exit ← cas_loop cas_fuel parent candidate 0;
      match exit with
      | Published r => mret r
      | Contended indeterminate =>
        answer ← attempt pin;
        winner ← of_result (winner_error indeterminate answer);
        _ ← of_result (reject (negb (bool_decide (h_table_id (pt_head winner) = table_id)))
              (RuntimeError.SemanticConflict "table identity changed after conflict"));
        replayed ← of_result (replay (R := R) winner key intent);
        match replayed with
        | Some r => mret r
        | None =>
          let rebases := rebases + 1 in
          if maximum_rebases policy <? rebases then fail RuntimeError.RebaseExhausted
          else publish_loop fuel rebases winner
        end
      end
    end
  end.

Definition publish_fuel : nat := 1 + Z.to_nat (maximum_rebases policy).
End transaction.

(** The end of [initialize], after its uploads. *)
Definition create_genesis_head (head_bytes : bytes) : M S unit := create_loop policy cas_fuel head_bytes 0.

Definition publish_transaction_from_parent {R} `{FromJson R} (parent : PinnedTable) (key : string) (logical_hash : Sha256)
    (staged : list VerifiedStagedFile) (build : nat -> PinnedTable -> rresult (Candidate R)) : M S (R * Sha256) :=
  publish_loop (h_table_id (pt_head parent)) key logical_hash staged build publish_fuel 0 parent.

Definition publish_transaction {R} `{FromJson R} (key : string) (logical_hash : Sha256)
    (staged : list VerifiedStagedFile) (build : nat -> PinnedTable -> rresult (Candidate R)) : M S (R * Sha256) :=
  parent ← pin;
  publish_transaction_from_parent parent key logical_hash staged build.
End publication.
Arguments Published {R}. Arguments Contended {R}.

(** ** Weakest preconditions *)

Section wp.
Context {S : Type}.

Definition wp {A} (m : M S A) (Q : rresult A -> World S -> Prop) (w : World S) : Prop :=
  Q (fst (m w)) (snd (m w)).

Lemma wp_mono {A} (m : M S A) (P Q : rresult A -> World S -> Prop) w :
  wp m P w -> (forall r w', P r w' -> Q r w') -> wp m Q w.
Proof. unfold wp. auto. Qed.

Lemma wp_bind {A B} (m : M S A) (f : A -> M S B) Q w :
  wp m (fun r w => match r with Ok a => wp (f a) Q w | Err e => Q (Err e) w end) w -> wp (m ≫= f) Q w.
Proof. unfold wp, mbind, m_bind. destruct (m w) as [[a|e] w']; done. Qed.

Lemma wp_ret {A} (a : A) (Q : rresult A -> World S -> Prop) w : Q (Ok a) w -> wp (mret a) Q w.
Proof. done. Qed.
Lemma wp_fail {A} e (Q : rresult A -> World S -> Prop) w : Q (Err e) w -> wp (fail e) Q w.
Proof. done. Qed.
Lemma wp_of_result {A} (r : rresult A) (Q : rresult A -> World S -> Prop) w : Q r w -> wp (of_result r) Q w.
Proof. done. Qed.
Lemma wp_attempt {A} (m : M S A) (Q : rresult (rresult A) -> World S -> Prop) w :
  wp m (fun r w => Q (Ok r) w) w -> wp (attempt m) Q w.
Proof. unfold wp, attempt. by destruct (m w). Qed.

(** The common prefix [_ ← m; k] of a sequence that stops at the first error. *)
Lemma wp_seq {A B} (m : M S A) (f : A -> M S B) (I : World S -> Prop) Q w :
  wp m (fun _ => I) w ->
  (forall a w', I w' -> wp (f a) Q w') -> (forall e w', I w' -> Q (Err e) w') -> wp (m ≫= f) Q w.
Proof.
  intros Hm Hf He. apply wp_bind. eapply wp_mono; [exact Hm|]. intros [a|e] w' Hw; auto.
Qed.
End wp.

(** ** At most one publication *)

Definition changed (write : option bytes * option bytes) : bool := negb (bool_decide (write.1 = write.2)).
(** The conditional writes of this client that took effect. *)
Definition effective {S} (w : World S) : list (option bytes * option bytes) := List.filter changed (w_writes w).

Section once.
Context `{HexCrate, Sha2Crate, SerdeJson, Sqlite} {S : Type} `{!ObjectStore S, !StoreLaws S, !Interference S}.
Context {R : Type} `{FromJson R} (policy : TransactionRetryPolicy) (pin : M S PinnedTable).
Context (table_id : Id) (key : string) (intent : Sha256) (staged : list VerifiedStagedFile)
  (build : nat -> PinnedTable -> rresult (Candidate R)).

Definition head_of (w : World S) : option bytes := os_get (w_store w) HEAD_KEY.

(** [heads] are the heads that occur; [carries b]: the table that [b] publishes
    holds the intent under the key. *)
Context (heads carries : bytes -> Prop).
Definition carried (h : option bytes) : Prop := match h with Some b => carries b | None => False end.
Definition known (h : option bytes) : Prop := match h with Some b => heads b | None => True end.

Definition answers (p : PinnedTable) : Prop :=
  heads (raw_head p) /\ head_version p = version_of (raw_head p) /\
  ((exists r, replay (R := R) p key intent = Ok (Some r)) <-> carries (raw_head p)) /\
  (carries (raw_head p) -> h_table_id (pt_head p) = table_id).

Definition sound_candidate (c : Candidate R) : Prop :=
  carries (c_head_bytes c) /\ heads (c_head_bytes c) /\
  uri_str (c_commit_uri c) <> HEAD_KEY /\ uri_str (c_generation_uri c) <> HEAD_KEY /\
  Forall (fun a => uri_str (a_uri a) <> HEAD_KEY) (c_image_artifacts c).

Definition Inv (w : World S) : Prop := os_ok (w_store w) /\ known (head_of w).
(** A step that neither writes the head nor loses a carried one. *)
Definition quiet (w w' : World S) : Prop :=
  Inv w' /\ w_writes w' = w_writes w /\ (carried (head_of w) -> carried (head_of w')).

(** Other clients keep the store well-formed, publish heads of [heads], and once
    the intent is in the table's history it stays there. *)
Record clients : Prop := {
  env_ok n s : os_ok s -> os_ok (interfere n s);
  env_known n s : os_ok s -> known (os_get s HEAD_KEY) -> known (os_get (interfere n s) HEAD_KEY);
  env_carried n s : os_ok s -> carried (os_get s HEAD_KEY) -> carried (os_get (interfere n s) HEAD_KEY) }.

(** What the rest of the program does. *)
Record environment : Prop := {
  (** the heads that occur have distinct hashes *)
  env_distinct a b : heads a -> heads b -> version_of a = version_of b -> a = b;
  (** pinning is quiet, and answers for a head that was there meanwhile *)
  env_pin w : Inv w -> wp pin (fun r w' => quiet w w' /\
    forall p, r = Ok p -> answers p /\
      (carried (head_of w) -> carries (raw_head p)) /\ (carries (raw_head p) -> carried (head_of w'))) w;
  (** a candidate records the intent *)
  env_build n p c : build n p = Ok c -> sound_candidate c }.

(** [wrote]: one of this client's writes took effect, and its transaction stands. *)
Definition Wrote (wrote : bool) (w : World S) : Prop :=
  if wrote then length (effective w) = 1%nat /\ carried (head_of w) else effective w = [].

Context (Hclients : clients).

Lemma quiet_refl w : Inv w -> quiet w w.
Proof. done. Qed.
Lemma quiet_trans w1 w2 w3 : quiet w1 w2 -> quiet w2 w3 -> quiet w1 w3.
Proof. intros (? & E1 & ?) (? & E2 & ?). split_and!; [done|congruence|auto]. Qed.
Lemma quiet_wrote b w w' : quiet w w' -> Wrote b w -> Wrote b w'.
Proof. intros (_ & E & Hc). unfold Wrote, effective. rewrite E. destruct b; naive_solver. Qed.

Lemma interfere_quiet w : Inv w ->
  os_ok (interfere (w_clock w) (w_store w)) /\ known (os_get (interfere (w_clock w) (w_store w)) HEAD_KEY) /\
  (carried (head_of w) -> carried (os_get (interfere (w_clock w) (w_store w)) HEAD_KEY)).
Proof.
  intros [Hok Hk]. split_and!; [by apply (env_ok Hclients)|by apply (env_known Hclients)|by apply (env_carried Hclients)].
Qed.

(** An operation that leaves the head alone. *)
Lemma call_quiet {A} (op : S -> A * S) w : Inv w ->
  (forall s, os_ok s -> let '(_, s') := op s in os_ok s' /\ os_get s' HEAD_KEY = os_get s HEAD_KEY) ->
  quiet w (snd (call op w)).
Proof.
  intros Hw Hop. destruct (interfere_quiet w Hw) as (Hok & Hk & Hc). specialize (Hop _ Hok). unfold call, quiet, Inv, head_of.
  destruct (op _) as [a s']. destruct Hop as [Hok' E]. cbn. rewrite E. done.
Qed.

Lemma confirm_head (key' : RelativeUri) sha length s : os_ok s ->
  let '(_, s') := confirm_readable s key' sha length in os_ok s' /\ os_get s' HEAD_KEY = os_get s HEAD_KEY.
Proof.
  intros Hok. unfold confirm_readable. pose proof (law_read s key' Hok) as Hl.
  destruct (os_read s key') as [[o|e] s']; [|by destruct Hl as (? & ? & _)].
  destruct Hl as (? & Hs & _). by destruct (_ || _).
Qed.

Lemma create_head_kept (key' : RelativeUri) b s : uri_str key' <> HEAD_KEY -> os_ok s ->
  let '(_, s') := create_bytes s key' b in os_ok s' /\ os_get s' HEAD_KEY = os_get s HEAD_KEY.
Proof.
  intros Hk Hok. unfold create_bytes. pose proof (law_create s key' (Ok b) (Some (len b)) Hok) as Hl.
  destruct (os_create_from_reader _ _ _ _) as [r s']. destruct Hl as (? & Hs & _). split; [done|]. apply Hs. by left.
Qed.

Lemma storage_quiet {A} (op : S -> sresult A * S) w : Inv w ->
  (forall s, os_ok s -> let '(_, s') := op s in os_ok s' /\ os_get s' HEAD_KEY = os_get s HEAD_KEY) ->
  wp (storage op) (fun _ w' => quiet w w') w.
Proof.
  intros Hw Hop. unfold wp, storage. pose proof (call_quiet op w Hw Hop) as Hq. by destruct (call op w).
Qed.

Lemma put_immutable_quiet key' b w : uri_str key' <> HEAD_KEY -> Inv w -> wp (put_immutable key' b) (fun _ w' => quiet w w') w.
Proof.
  intros Hk Hw. unfold put_immutable. apply (wp_seq _ _ (quiet w)).
  - unfold wp. pose proof (call_quiet (fun s => create_bytes s key' b) w Hw (fun s => create_head_kept key' b s Hk)) as Hq.
    by destruct (call _ w).
  - intros r w1 Hq. pose proof Hq as (Hi & _). destruct r as [o|[]]; try (by apply wp_fail).
    + apply (wp_seq _ _ (quiet w)); [|done..]. eapply wp_mono; [by apply storage_quiet; [|intros; apply confirm_head]|].
      intros ? w2 Hq2. by eapply quiet_trans.
    + apply (wp_seq _ _ (quiet w)); [|done..]. eapply wp_mono; [by apply storage_quiet; [|intros; apply confirm_head]|].
      intros ? w2 Hq2. by eapply quiet_trans.
  - done.
Qed.

(** Sequencing quiet steps. *)
Lemma wp_quiet {A B} (m : M S A) (f : A -> M S B) w0 w : quiet w0 w ->
  (Inv w -> wp m (fun _ w' => quiet w w') w) ->
  (forall a w', quiet w0 w' -> wp (f a) (fun _ w' => quiet w0 w') w') -> wp (m ≫= f) (fun _ w' => quiet w0 w') w.
Proof.
  intros Hq Hm Hf. apply (wp_seq _ _ (quiet w0)); [|done..]. eapply wp_mono; [apply Hm, Hq|].
  intros r w' Hq'. by eapply quiet_trans.
Qed.

Lemma confirm_staged_quiet l w0 w : quiet w0 w -> wp (confirm_staged l) (fun _ w' => quiet w0 w') w.
Proof.
  revert w. induction l as [|f fs IH]; intros w Hq; [done|]. cbn [confirm_staged].
  apply wp_quiet; [done| |].
  - intros Hw. unfold wp. pose proof (call_quiet (fun s => confirm_readable s (vs_uri f) (vs_sha256 f) (vs_length f)) w Hw
      ltac:(intros; by apply confirm_head)) as Hq'. by destruct (call _ w).
  - intros v w1 Hq1. apply wp_quiet; [done| |]; [|auto]. intros Hw. apply wp_of_result. by apply quiet_refl.
Qed.

Lemma put_artifacts_quiet l w0 w : Forall (fun a => uri_str (a_uri a) <> HEAD_KEY) l -> quiet w0 w ->
  wp (put_artifacts l) (fun _ w' => quiet w0 w') w.
Proof.
  intros Hl. revert w. induction Hl as [|a l Ha _ IH]; intros w Hq; [done|]. cbn [put_artifacts].
  apply wp_quiet; [done|intros; by apply put_immutable_quiet|auto].
Qed.

Lemma upload_quiet c w : sound_candidate c -> Inv w -> wp (upload staged c) (fun _ w' => quiet w w') w.
Proof.
  intros (_ & _ & Hc & Hg & Ha) Hw. unfold upload.
  apply wp_quiet; [done|intros ?; by apply confirm_staged_quiet, quiet_refl|]. intros _ w1 Hq1.
  apply wp_quiet; [done|intros ?; by apply put_immutable_quiet|]. intros _ w2 Hq2.
  apply wp_quiet; [done|intros ?; by apply put_artifacts_quiet, quiet_refl|]. intros _ w3 Hq3. pose proof Hq3 as (Hi & _).
  eapply wp_mono; [by apply put_immutable_quiet|]. intros ? w4 Hq4. by eapply quiet_trans.
Qed.

(** Reading the head. *)
Lemma read_head_quiet w : Inv w -> wp read_head (fun r w' => quiet w w' /\
  forall o, r = Ok o -> so_version o = version_of (so_bytes o) /\ heads (so_bytes o) /\
    (carried (head_of w) -> carries (so_bytes o)) /\ (carries (so_bytes o) -> carried (head_of w'))) w.
Proof.
  intros Hw. destruct (interfere_quiet w Hw) as (Hok & Hk & Hc). unfold wp, read_head, storage, call.
  pose proof (law_read _ head_key Hok) as Hl. destruct (os_read _ head_key) as [r s']. destruct Hl as (Hok' & Hs & Hr).
  specialize (Hs HEAD_KEY). change (uri_str head_key) with HEAD_KEY in Hr. unfold quiet, Inv, head_of. cbn. rewrite Hs.
  split; [done|]. intros o Eo. destruct r as [o'|]; [|done]. injection Eo as ->. destruct Hr as [Hr Hv].
  rewrite Hr in *. done.
Qed.

Context (Henv : environment).

(** A pin whose image does not hold the intent. *)
Definition unrecorded (p : PinnedTable) : Prop :=
  answers p /\ ~ carries (raw_head p).

Lemma replay_none p : answers p -> replay (R := R) p key intent = Ok None -> unrecorded p.
Proof. intros Ha E. split; [done|]. destruct Ha as (_ & _ & Hr & _). intros Hc. apply Hr in Hc as [r Er]. congruence. Qed.

Lemma wrote_carried b w : Wrote b w -> b = true -> carried (head_of w).
Proof. intros Hw ->. by destruct Hw. Qed.

(** A conditional write against a parent without the intent takes effect at most once. *)
Lemma replace_once parent c b w : Inv w -> Wrote b w -> unrecorded parent -> sound_candidate c ->
  wp (head_call (fun s => os_replace_head s (head_version parent) (c_head_bytes c)))
    (fun r w' => Inv w' /\ exists b', Wrote b' w' /\ (b = true -> b' = true) /\
       match r with
       | Ok (Applied _) => b' = true
       | Ok (Conflict _) => b' = b
       | Ok (Indeterminate _) => True
       | Err _ => False
       end) w.
Proof.
  intros Hw Hb [(Hh & Hv & _) Hnc] (Hcc & Hch & _). destruct (interfere_quiet w Hw) as (Hok & Hk & Hc).
  unfold wp, head_call. set (s0 := interfere _ _) in *.
  pose proof (law_replace_head s0 (head_version parent) (c_head_bytes c) Hok) as Hl.
  destruct (os_replace_head s0 _ _) as [outcome s1]. destruct Hl as [Hok1 Hl]. cbn [fst snd].
  assert (forall d, Wrote d w -> os_get s1 HEAD_KEY = os_get s0 HEAD_KEY ->
    Inv (MkWorld s1 (1 + w_clock w) (w_writes w ++ [(os_get s0 HEAD_KEY, os_get s1 HEAD_KEY)])) /\
    Wrote d (MkWorld s1 (1 + w_clock w) (w_writes w ++ [(os_get s0 HEAD_KEY, os_get s1 HEAD_KEY)]))) as Hsame.
  { intros d Hd E. unfold Inv, Wrote, effective, head_of. cbn [w_store w_writes]. rewrite E, List.filter_app. cbn [List.filter].
    unfold changed at 2 4. cbn [fst snd]. rewrite bool_decide_eq_true_2 by done. cbn [negb]. rewrite app_nil_r.
    split; [done|]. destruct d; [|done]. destruct Hd. auto. }
  assert (conditional_effect (Some (head_version parent)) (c_head_bytes c) (os_get s0) (os_get s1) ->
    b = false /\ Inv (MkWorld s1 (1 + w_clock w) (w_writes w ++ [(os_get s0 HEAD_KEY, os_get s1 HEAD_KEY)])) /\
    Wrote true (MkWorld s1 (1 + w_clock w) (w_writes w ++ [(os_get s0 HEAD_KEY, os_get s1 HEAD_KEY)]))) as Heffect.
  { intros [Hexp Hput]. destruct (os_get s0 HEAD_KEY) as [x|] eqn:Ex; [|done]. cbn in Hexp, Hk. injection Hexp as Hexp.
    assert (x = raw_head parent) as ->.
    { apply (env_distinct Henv); [done..|]. congruence. }
    assert (os_get s1 HEAD_KEY = Some (c_head_bytes c)) as E1 by by rewrite Hput, decide_True.
    assert (b = false) as ->. { destruct b; [|done]. destruct Hb as [_ Hb]. by apply Hc in Hb. }
    split; [done|]. unfold Inv, Wrote, effective, head_of. cbn [w_store w_writes]. rewrite E1, List.filter_app.
    unfold Wrote, effective in Hb. rewrite Hb. cbn [List.filter app]. unfold changed. cbn [fst snd].
    rewrite bool_decide_eq_false_2; [done|]. intros [= E]. by rewrite E in Hnc. }
  destruct outcome as [v|v|src]; cbn in Hl.
  - destruct Hl as [_ Hl]. destruct (Heffect Hl) as (-> & Hi & Hwr). split; [done|]. exists true. done.
  - destruct Hl as [_ Hl]. destruct (Hsame b Hb (Hl HEAD_KEY)) as [Hi Hwr]. split; [done|]. by exists b.
  - destruct Hl as [Hl|Hl].
    + destruct (Hsame b Hb (Hl HEAD_KEY)) as [Hi Hwr]. split; [done|]. by exists b.
    + destruct (Heffect Hl) as (-> & Hi & Hwr). split; [done|]. by exists true.
Qed.

(** What a run leaves behind: at most one effective write; an error other than
    [PublicationIndeterminate] means none, a success that the intent is recorded. *)
Definition settled {A} (ok : A -> World S -> bool -> Prop) (r : rresult A) (w : World S) : Prop :=
  Inv w /\ exists wrote, Wrote wrote w /\
    match r with
    | Ok a => ok a w wrote
    | Err RuntimeError.PublicationIndeterminate => True
    | Err _ => wrote = false
    end.

Lemma settled_err {A} (ok : A -> World S -> bool -> Prop) e w : Inv w -> Wrote false w -> settled ok (Err e) w.
Proof. intros Hi Hw. split; [done|]. exists false. split; [done|]. by destruct e. Qed.

Lemma settled_indeterminate {A} (ok : A -> World S -> bool -> Prop) b w :
  Inv w -> Wrote b w -> settled ok (Err RuntimeError.PublicationIndeterminate) w.
Proof. intros Hi Hw. split; [done|]. by exists b. Qed.

(** [p] was read between [w] and [w']. *)
Definition observed (p : PinnedTable) (w w' : World S) : Prop :=
  answers p /\ (carried (head_of w) -> carries (raw_head p)) /\ (carries (raw_head p) -> carried (head_of w')).

Lemma recorded_replay p w b : answers p -> (carried (head_of w) -> carries (raw_head p)) -> Wrote b w -> b = true ->
  h_table_id (pt_head p) = table_id /\ exists r, replay (R := R) p key intent = Ok (Some r).
Proof.
  intros Ha Eh Hb E. pose proof (Eh (wrote_carried _ _ Hb E)) as Hc. destruct Ha as (_ & _ & Hr & Ht).
  split; [by apply Ht|by apply Hr].
Qed.

(** Looking a pinned head over for the intent: the checks after every pin. *)
Lemma look_over {A} (ok : A -> World S -> bool -> Prop) message p b w0 w (k : option (R * Sha256) -> M S A) :
  Inv w -> Wrote b w0 -> Wrote b w -> observed p w0 w ->
  (forall r, carried (head_of w) -> wp (k (Some r)) (settled ok) w) ->
  (Wrote false w -> unrecorded p -> wp (k None) (settled ok) w) ->
  wp (_ ← of_result (reject (negb (bool_decide (h_table_id (pt_head p) = table_id)))
             (RuntimeError.SemanticConflict message));
      replayed ← of_result (replay (R := R) p key intent); k replayed) (settled ok) w.
Proof.
  intros Hi Hb0 Hb (Ha & Eh & Eh') Hsome Hnone. destruct b.
  - destruct (recorded_replay p w0 true Ha Eh Hb0 eq_refl) as [Ht [r Er]].
    apply wp_bind, wp_of_result. rewrite bool_decide_eq_true_2 by done. cbn [negb reject].
    apply wp_bind, wp_of_result. rewrite Er. apply Hsome. by destruct Hb.
  - apply wp_bind, wp_of_result. destruct (reject _ _) as [[]|e]; [|by apply settled_err].
    apply wp_bind, wp_of_result. destruct (replay p key intent) as [[r|]|e] eqn:Er; [| |by apply settled_err].
    + apply Hsome. destruct Ha as (_ & _ & Hr & _). apply Eh', Hr. by exists r.
    + apply Hnone; [done|by apply replay_none].
Qed.

Definition cas_settled (exit : cas_exit R) (w : World S) (wrote : bool) : Prop :=
  match exit with
  | Published _ => carried (head_of w)
  | Contended indeterminate => wrote = true -> 0 < indeterminate
  end.

Lemma cas_loop_once fuel : forall parent c indeterminate b w,
  Inv w -> Wrote b w -> unrecorded parent -> sound_candidate c ->
  0 <= indeterminate -> (b = true -> 0 < indeterminate) ->
  maximum_indeterminate_reconciliations policy < indeterminate + Z.of_nat fuel ->
  (0 < fuel)%nat ->
  wp (cas_loop policy pin table_id key intent fuel parent c indeterminate) (settled cas_settled) w.
Proof.
  induction fuel as [|fuel IH]; intros parent c ind b w Hi Hb Hp Hc Hpos Hbi Hf Hf0; [lia|]. cbn [cas_loop].
  apply wp_bind. eapply wp_mono; [by eapply replace_once|]. intros [outcome|e] w1 (Hi1 & b1 & Hb1 & Hbb & Ho); [|done].
  destruct outcome as [v|v|src].
  - apply wp_ret. split; [done|]. exists b1. split; [done|]. cbn. by eapply wrote_carried.
  - apply wp_ret. split; [done|]. exists b1. split; [done|]. cbn. by subst.
  - apply wp_bind, wp_attempt. eapply wp_mono; [by apply (env_pin Henv)|]. intros r w2 [Hq Hr].
    pose proof (quiet_wrote _ _ _ Hq Hb1) as Hb2. pose proof Hq as (Hi2 & _).
    assert (wp (if ind + 1 <=? maximum_indeterminate_reconciliations policy
                then cas_loop policy pin table_id key intent fuel parent c (ind + 1)
                else fail RuntimeError.PublicationIndeterminate) (settled cas_settled) w2) as Hagain.
    { destruct (Z.leb_spec (ind + 1) (maximum_indeterminate_reconciliations policy)).
      - eapply (IH _ _ _ b1); [done..|lia|lia|lia|lia].
      - apply wp_fail. by eapply settled_indeterminate. }
    destruct r as [p|e]; [|exact Hagain].
    apply (look_over _ _ _ b1 w1); [done..|by apply Hr| |].
    + intros res Hcar. apply wp_ret. split; [done|]. by exists b1.
    + intros Hb0 _. destruct (_ && _); [exact Hagain|]. apply wp_ret. split; [done|]. by exists false.
Qed.

Definition run_settled (r : R * Sha256) (w : World S) (wrote : bool) : Prop := carried (head_of w).

Lemma publish_loop_once fuel : forall rebases parent w,
  Inv w -> Wrote false w -> answers parent -> (carries (raw_head parent) -> carried (head_of w)) ->
  0 <= maximum_indeterminate_reconciliations policy ->
  0 <= rebases -> maximum_rebases policy < rebases + Z.of_nat fuel -> (0 < fuel)%nat ->
  wp (publish_loop policy pin table_id key intent staged build fuel rebases parent) (settled run_settled) w.
Proof.
  induction fuel as [|fuel IH]; intros rebases parent w Hi Hb Ha Hlater Hmax Hpos Hf Hf0; [lia|]. cbn [publish_loop].
  apply wp_bind, wp_of_result. destruct (reject _ _) as [[]|e]; [|by apply settled_err].
  apply wp_bind, wp_of_result. destruct (replay parent key intent) as [[r|]|e] eqn:Er; [| |by apply settled_err].
  { apply wp_ret. split; [done|]. exists false. split; [done|]. apply Hlater. destruct Ha as (_ & _ & Hr & _). apply Hr.
    by exists r. }
  pose proof (replay_none _ Ha Er) as Hun. apply wp_bind, wp_of_result.
  destruct (build (Z.to_nat rebases) parent) as [c|e] eqn:Ec; [|by apply settled_err].
  pose proof (env_build Henv _ _ _ Ec) as Hc. apply wp_bind. eapply wp_mono; [by apply upload_quiet|].
  intros [[]|e] w1 Hq1; pose proof (quiet_wrote _ _ _ Hq1 Hb) as Hb1; pose proof Hq1 as (Hi1 & _); [|by apply settled_err].
  apply wp_bind. eapply wp_mono.
  { apply (cas_loop_once (cas_fuel policy) parent c 0 false w1); try done; unfold cas_fuel; lia. }
  intros [exit|e] w2 (Hi2 & b2 & Hb2 & Hr2); [|by (split; [done|]; exists b2)].
  destruct exit as [r|ind]; [apply wp_ret; split; [done|]; by exists b2|].
  apply wp_bind, wp_attempt. eapply wp_mono; [by apply (env_pin Henv)|]. intros answer w3 [Hq3 Hr3].
  pose proof (quiet_wrote _ _ _ Hq3 Hb2) as Hb3. pose proof Hq3 as (Hi3 & _).
  apply wp_bind, wp_of_result. destruct answer as [winner|e].
  - pose proof (Hr3 winner eq_refl) as Ho. cbn [winner_error map_err].
    apply (look_over _ _ _ b2 w2); [done..| |].
    + intros r Hcar. apply wp_ret. split; [done|]. by exists b2.
    + intros Hb0 _. destruct (Z.ltb_spec (maximum_rebases policy) (rebases + 1)); [apply wp_fail; by apply settled_err|].
      apply IH; try done; try lia; apply Ho.
  - unfold winner_error. cbn [map_err]. cbn in Hr2. destruct (Z.ltb_spec 0 ind); [by eapply settled_indeterminate|].
    destruct b2; [specialize (Hr2 eq_refl); lia|]. by apply settled_err.
Qed.
End once.

(** ** The loops end *)

Section bounded.
Context `{HexCrate, Sha2Crate, SerdeJson, Sqlite} {S : Type} `{!ObjectStore S, !StoreLaws S, !Interference S}.
Context {R : Type} `{FromJson R} (policy : TransactionRetryPolicy) (pin : M S PinnedTable).
Context (table_id : Id) (key : string) (intent : Sha256) (staged : list VerifiedStagedFile)
  (build : nat -> PinnedTable -> rresult (Candidate R)).

Definition writes (w : World S) : nat := length (w_writes w).

Lemma call_writes {A} (op : S -> A * S) w : writes (snd (call op w)) = writes w.
Proof. unfold call. by destruct (op _). Qed.

(** [m] makes at most [n] conditional writes. *)
Definition at_most {A} (n : nat) (m : M S A) : Prop := forall w, (writes (snd (m w)) <= writes w + n)%nat.

Lemma at_most_bind {A B} n k (m : M S A) (f : A -> M S B) :
  at_most n m -> (forall a, at_most k (f a)) -> at_most (n + k) (m ≫= f).
Proof.
  intros Hm Hf w. unfold mbind, m_bind. specialize (Hm w). destruct (m w) as [[a|e] w']; cbn [fst snd] in *; [|lia].
  specialize (Hf a w'). lia.
Qed.
Lemma at_most_pure {A} n (r : rresult A) : at_most n (of_result r).
Proof. intros w. cbn. lia. Qed.
Lemma at_most_call {A B} n (op : S -> A * S) (f : A -> rresult B) :
  at_most n (fun w => let '(r, w) := call op w in (f r, w)).
Proof. intros w. pose proof (call_writes op w) as Hc. destruct (call op w). cbn in *. lia. Qed.
Lemma at_most_attempt {A} n (m : M S A) : at_most n m -> at_most n (attempt m).
Proof. intros Hm w. unfold attempt. specialize (Hm w). by destruct (m w). Qed.

Lemma put_immutable_at_most key' b : at_most 0 (put_immutable key' b).
Proof.
  unfold put_immutable. apply (at_most_bind 0 0); [apply (at_most_call 0 _ Ok)|]. intros [o|[]];
    try apply (at_most_pure 0 (Err _)); apply (at_most_bind 0 0); try apply at_most_call; intros; apply (at_most_pure 0 (Ok tt)).
Qed.

Lemma upload_at_most (c : Candidate R) : at_most 0 (upload staged c).
Proof.
  unfold upload. apply (at_most_bind 0 0).
  { clear. induction staged as [|f fs IH]; [apply (at_most_pure 0 (Ok tt))|]. cbn [confirm_staged].
    apply (at_most_bind 0 0); [apply at_most_call|]. intros v. apply (at_most_bind 0 0); [apply at_most_pure|]. intros _. apply IH. }
  intros _. apply (at_most_bind 0 0); [apply put_immutable_at_most|]. intros _.
  apply (at_most_bind 0 0); [|intros _; apply put_immutable_at_most].
  induction (c_image_artifacts c) as [|a l IH]; [apply (at_most_pure 0 (Ok tt))|]. cbn [put_artifacts].
  apply (at_most_bind 0 0); [apply put_immutable_at_most|]. by intros _.
Qed.

Context (Hpin : at_most 0 pin).

Lemma cas_loop_at_most fuel : forall parent c ind,
  at_most fuel (cas_loop (R := R) policy pin table_id key intent fuel parent c ind).
Proof.
  induction fuel as [|fuel IH]; intros parent c ind; cbn [cas_loop]; [apply (at_most_pure 0 (Err _))|].
  apply (at_most_bind 1 fuel).
  - intros w. unfold head_call, writes. destruct (os_replace_head _ _ _). cbn. rewrite length_app. cbn. lia.
  - assert (forall b, at_most fuel (if b : bool then cas_loop (R := R) policy pin table_id key intent fuel parent c (ind + 1)
                                    else fail RuntimeError.PublicationIndeterminate)) as Hagain.
    { intros []; [apply IH|apply (at_most_pure fuel (Err _))]. }
    intros [v|v|src]; [apply (at_most_pure fuel (Ok _))..|]. apply (at_most_bind 0 fuel).
    { by apply at_most_attempt. }
    intros [p|e]; [|apply Hagain]. apply (at_most_bind 0 fuel); [apply at_most_pure|]. intros _.
    apply (at_most_bind 0 fuel); [apply at_most_pure|]. intros [r|]; [apply (at_most_pure fuel (Ok _))|].
    destruct (_ && _); [apply Hagain|apply (at_most_pure fuel (Ok _))].
Qed.

Lemma publish_loop_at_most fuel : forall rebases parent,
  at_most (fuel * cas_fuel policy) (publish_loop (R := R) policy pin table_id key intent staged build fuel rebases parent).
Proof.
  induction fuel as [|fuel IH]; intros rebases parent; cbn [publish_loop]; [apply (at_most_pure 0 (Err _))|].
  set (n := (_ * _)%nat). apply (at_most_bind 0 n); [apply at_most_pure|]. intros _.
  apply (at_most_bind 0 n); [apply at_most_pure|]. intros [r|]; [apply (at_most_pure n (Ok _))|].
  apply (at_most_bind 0 n); [apply at_most_pure|]. intros c. apply (at_most_bind 0 n); [apply upload_at_most|]. intros _.
  apply (at_most_bind (cas_fuel policy) (fuel * cas_fuel policy)); [apply cas_loop_at_most|].
  intros [r|ind]; [apply (at_most_pure _ (Ok _))|]. apply (at_most_bind 0 _); [by apply at_most_attempt|].
  intros answer. apply (at_most_bind 0 _); [apply at_most_pure|]. intros winner.
  apply (at_most_bind 0 _); [apply at_most_pure|]. intros _. apply (at_most_bind 0 _); [apply at_most_pure|].
  intros [r|]; [apply (at_most_pure _ (Ok _))|]. destruct (_ <? _); [apply (at_most_pure _ (Err _))|apply IH].
Qed.

Lemma bind_ext {A B} (m : M S A) (f g : A -> M S B) w : (forall a w, f a w = g a w) -> (m ≫= f) w = (m ≫= g) w.
Proof. intros Hfg. unfold mbind, m_bind. by destruct (m w) as [[a|e] w']. Qed.

Lemma cas_loop_fuel fuel : forall fuel' parent c ind w,
  maximum_indeterminate_reconciliations policy < ind + Z.of_nat fuel ->
  maximum_indeterminate_reconciliations policy < ind + Z.of_nat fuel' -> (0 < fuel)%nat -> (0 < fuel')%nat ->
  cas_loop (R := R) policy pin table_id key intent fuel parent c ind w =
  cas_loop policy pin table_id key intent fuel' parent c ind w.
Proof.
  induction fuel as [|fuel IH]; intros [|fuel'] parent c ind w Hf Hf' Hn Hn'; try lia. cbn [cas_loop].
  apply bind_ext. intros [v|v|src] w1; [done..|].
  assert (forall w, (if ind + 1 <=? maximum_indeterminate_reconciliations policy
    then cas_loop (R := R) policy pin table_id key intent fuel parent c (ind + 1)
    else fail RuntimeError.PublicationIndeterminate) w =
    (if ind + 1 <=? maximum_indeterminate_reconciliations policy
    then cas_loop policy pin table_id key intent fuel' parent c (ind + 1)
    else fail RuntimeError.PublicationIndeterminate) w) as Hagain.
  { intros w2. destruct (Z.leb_spec (ind + 1) (maximum_indeterminate_reconciliations policy)); [|done]. apply IH; lia. }
  apply bind_ext. intros [p|e] w2; [|apply Hagain]. apply bind_ext. intros _ w3. apply bind_ext. intros [r|] w4; [done|].
  destruct (_ && _); [apply Hagain|done].
Qed.

Lemma publish_loop_fuel fuel : forall fuel' rebases parent w,
  maximum_rebases policy < rebases + Z.of_nat fuel -> maximum_rebases policy < rebases + Z.of_nat fuel' ->
  (0 < fuel)%nat -> (0 < fuel')%nat ->
  publish_loop (R := R) policy pin table_id key intent staged build fuel rebases parent w =
  publish_loop policy pin table_id key intent staged build fuel' rebases parent w.
Proof.
  induction fuel as [|fuel IH]; intros [|fuel'] rebases parent w Hf Hf' Hn Hn'; try lia. cbn [publish_loop].
  apply bind_ext. intros _ w1. apply bind_ext. intros [r|] w2; [done|]. apply bind_ext. intros c w3.
  apply bind_ext. intros _ w4. apply bind_ext. intros [r|ind] w5; [done|]. apply bind_ext. intros answer w6.
  apply bind_ext. intros winner w7. apply bind_ext. intros _ w8. apply bind_ext. intros [r|] w9; [done|].
  destruct (Z.ltb_spec (maximum_rebases policy) (rebases + 1)); [done|]. apply IH; lia.
Qed.
End bounded.

(** ** Creating the first head *)

Section genesis.
Context `{HexCrate, Sha2Crate, SerdeJson, Sqlite} {S : Type} `{!ObjectStore S, !StoreLaws S, !Interference S}.
Context (policy : TransactionRetryPolicy) (head_bytes : bytes).

(** Other clients keep the store well-formed and never remove a head. *)
Record keeps_head : Prop := {
  kh_ok n s : os_ok s -> os_ok (interfere n s);
  kh_present n s : os_ok s -> is_Some (os_get s HEAD_KEY) -> is_Some (os_get (interfere n s) HEAD_KEY) }.
Context (Henv : keeps_head).

Definition Created (created : bool) (w : World S) : Prop :=
  os_ok (w_store w) /\
  if created then length (effective w) = 1%nat /\ is_Some (head_of w) else effective w = [].

Lemma create_head_once b w : Created b w ->
  wp (head_call (fun s => os_create_head s head_bytes))
    (fun r w' => exists b', Created b' w' /\ (b = true -> b' = true) /\
       match r with
       | Ok (Applied _) => b' = true
       | Ok (Conflict _) => b' = b
       | Ok (Indeterminate _) => True
       | Err _ => False
       end) w.
Proof.
  intros [Hok Hb]. unfold wp, head_call. pose proof (kh_ok Henv (w_clock w) _ Hok) as Hok0.
  pose proof (kh_present Henv (w_clock w) _ Hok) as Hpres.
  set (s0 := interfere _ _) in *. pose proof (law_create_head s0 head_bytes Hok0) as Hl.
  destruct (os_create_head s0 _) as [outcome s1]. destruct Hl as [Hok1 Hl]. cbn [fst snd].
  assert (os_get s1 HEAD_KEY = os_get s0 HEAD_KEY ->
    Created b (MkWorld s1 (1 + w_clock w) (w_writes w ++ [(os_get s0 HEAD_KEY, os_get s1 HEAD_KEY)]))) as Hsame.
  { intros E. unfold Created, effective, head_of. cbn [w_store w_writes]. rewrite E, List.filter_app. cbn [List.filter].
    unfold changed at 2 4. cbn [fst snd]. rewrite bool_decide_eq_true_2 by done. cbn [negb]. rewrite app_nil_r.
    split; [done|]. destruct b; [|done]. destruct Hb. auto. }
  assert (conditional_effect None head_bytes (os_get s0) (os_get s1) ->
    b = false /\ Created true (MkWorld s1 (1 + w_clock w) (w_writes w ++ [(os_get s0 HEAD_KEY, os_get s1 HEAD_KEY)]))) as Heffect.
  { intros [Hexp Hput]. destruct (os_get s0 HEAD_KEY) as [x|] eqn:Ex; [done|].
    assert (os_get s1 HEAD_KEY = Some head_bytes) as E1 by by rewrite Hput, decide_True.
    assert (b = false) as ->. { destruct b; [|done]. destruct Hb as [_ Hb]. apply Hpres in Hb as [? ?]. congruence. }
    split; [done|]. unfold Created, effective, head_of. cbn [w_store w_writes]. rewrite E1, List.filter_app.
    unfold effective in Hb. rewrite Hb. cbn [List.filter app]. unfold changed. cbn [fst snd].
    rewrite bool_decide_eq_false_2 by done. split; [done|]. split; [done|]. by eexists. }
  destruct outcome as [v|v|src]; cbn in Hl.
  - destruct Hl as [_ Hl]. destruct (Heffect Hl) as [-> Hc]. by exists true.
  - destruct Hl as [_ Hl]. exists b. split; [by apply Hsame, (Hl HEAD_KEY)|done].
  - destruct Hl as [Hl|Hl].
    + exists b. split; [by apply Hsame, (Hl HEAD_KEY)|done].
    + destruct (Heffect Hl) as [-> Hc]. by exists true.
Qed.

Lemma read_head_created b w : Created b w ->
  wp read_head (fun r w' => Created b w' /\ match r with
    | Ok o => head_of w' = Some (so_bytes o)
    | Err e => exists cause, e = RuntimeError.Storage cause
    end) w.
Proof.
  intros [Hok Hb]. unfold wp, read_head, storage, call. pose proof (kh_ok Henv (w_clock w) _ Hok) as Hok0.
  pose proof (kh_present Henv (w_clock w) _ Hok) as Hpres. set (s0 := interfere _ _) in *.
  pose proof (law_read s0 head_key Hok0) as Hl. destruct (os_read s0 head_key) as [r s1].
  destruct Hl as (Hok1 & Hs & Hr). unfold Created, head_of, effective. cbn [fst snd w_store w_writes].
  change (uri_str head_key) with HEAD_KEY in Hr. specialize (Hs HEAD_KEY). rewrite Hs. split.
  - split; [done|]. destruct b; [|done]. destruct Hb. auto.
  - destruct r as [o|e]; cbn; [by destruct Hr|by eexists].
Qed.

(** How a run of the loop leaves the world. *)
Definition genesis_settled (r : rresult unit) (w : World S) : Prop :=
  exists created, Created created w /\
    match r with
    | Ok _ => created = true \/ head_of w = Some head_bytes
    | Err RuntimeError.PublicationIndeterminate => True
    | Err RuntimeError.AlreadyExists => exists other, head_of w = Some other /\ other <> head_bytes
    | Err _ => created = false
    end.

Lemma create_loop_once fuel : forall reconciliations b w, Created b w ->
  0 <= reconciliations -> (b = true -> 0 < reconciliations) ->
  maximum_indeterminate_reconciliations policy < reconciliations + Z.of_nat fuel -> (0 < fuel)%nat ->
  wp (create_loop policy fuel head_bytes reconciliations) genesis_settled w.
Proof.
  induction fuel as [|fuel IH]; intros n b w Hb Hpos Hbn Hf Hf0; [lia|]. cbn [create_loop].
  apply wp_bind. eapply wp_mono; [by apply (create_head_once b)|]. intros [outcome|e] w1 (b1 & Hb1 & Hbb & Ho); [|done].
  assert (forall o w2, Created b1 w2 -> head_of w2 = Some (so_bytes o) ->
    wp (if bool_decide (so_bytes o = head_bytes) then mret tt else fail RuntimeError.AlreadyExists) genesis_settled w2) as Hcmp.
  { intros o w2 Hc Eh. case_bool_decide as Eo.
    - apply wp_ret. exists b1. split; [done|]. right. by rewrite Eh, Eo.
    - apply wp_fail. exists b1. split; [done|]. by exists (so_bytes o). }
  destruct outcome as [v|v|src].
  - apply wp_ret. exists b1. subst. auto.
  - apply wp_bind, wp_attempt. eapply wp_mono; [by apply read_head_created|]. intros r w2 [Hc Hr].
    apply wp_bind, wp_of_result. destruct r as [o|e]; cbn [map_err]; [by apply Hcmp|].
    exists b1. split; [done|]. destruct (Z.ltb_spec 0 n); [done|]. subst b1. destruct Hr as [cause ->].
    destruct b; [specialize (Hbn eq_refl); lia|done].
  - apply wp_bind, wp_attempt. eapply wp_mono; [by apply read_head_created|]. intros r w2 [Hc Hr].
    destruct r as [o|e]; [by apply Hcmp|].
    destruct (Z.leb_spec (n + 1) (maximum_indeterminate_reconciliations policy)).
    + apply (IH _ b1); (done || lia).
    + apply wp_fail. by exists b1.
Qed.
End genesis.

(** ** Staging *)

Section staging.
Context `{HexCrate, Sha2Crate, SerdeJson, Sqlite} {S : Type} `{!ObjectStore S, !StoreLaws S, !Interference S}.
Context (uri : string).

(** Other clients keep the store well-formed and leave the fresh name alone. *)
Record leaves_alone : Prop := {
  la_ok n s : os_ok s -> os_ok (interfere n s);
  la_kept n s : os_ok s -> os_get (interfere n s) uri = os_get s uri }.
Context (Henv : leaves_alone).

Definition object_of (w : World S) : option bytes := os_get (w_store w) uri.

Lemma call_spec {A} (op : S -> A * S) (P : (string -> option bytes) -> (string -> option bytes) -> A -> Prop) w :
  os_ok (w_store w) -> (forall s, os_ok s -> let '(r, s') := op s in os_ok s' /\ P (os_get s) (os_get s') r) ->
  exists before, before uri = object_of w /\ os_ok (w_store (snd (call op w))) /\
    P before (os_get (w_store (snd (call op w)))) (fst (call op w)).
Proof.
  intros Hok Hop. unfold call. specialize (Hop _ (la_ok Henv (w_clock w) _ Hok)).
  exists (os_get (interfere (w_clock w) (w_store w))). destruct (op _) as [r s']. destruct Hop.
  split; [by apply (la_kept Henv)|done].
Qed.

Lemma confirm_same (key : RelativeUri) sha length s : os_ok s ->
  let '(_, s') := confirm_readable s key sha length in os_ok s' /\ same_objects (os_get s) (os_get s').
Proof.
  intros Hok. unfold confirm_readable. pose proof (law_read s key Hok) as Hl.
  destruct (os_read s key) as [[o|e] s']; [|by destruct Hl as (? & ? & _)].
  destruct Hl as (? & Hs & _). by destruct (_ || _).
Qed.
End staging.

Section properties.
Context `{HexCrate, Sha2Crate, SerdeJson, Sqlite} {S : Type} `{!ObjectStore S, !StoreLaws S, !Interference S}.

Lemma wp_run {A} (m : M S A) (Q : rresult A -> World S -> Prop) w : wp m Q w -> let '(r, w') := m w in Q r w'.
Proof. unfold wp. by destruct (m w). Qed.

(** C34: staging a data file creates its object or reports an error: a staged file
    names a new object that holds the source's bytes, with the length and digest
    the caller declared; an error leaves an object that was there untouched. *)
Theorem stage_file_correct (table_id file_id : Id) (ordinal : nat) (source : result string bytes)
    (fingerprint : SourceFingerprint) (format : FileFormat) (u : RelativeUri) (w : World S)
    (Hu : relative_uri_from_str ("data/" +:+ id_to_string file_id +:+ ".parquet") = Ok u)
    (Henv : leaves_alone (uri_str u)) (Hok : os_ok (w_store w)) :
  let '(r, w') := stage_file table_id file_id ordinal source fingerprint format w in
  match r with
  | Ok f => object_of (uri_str u) w = None /\ exists b, source = Ok b /\ object_of (uri_str u) w' = Some b /\
      len b = fp_length fingerprint /\ digest b = fp_sha256 fingerprint /\
      f = {| vs_table_id := table_id; vs_ordinal := ordinal; vs_file_id := file_id; vs_uri := u;
             vs_version := version_of b; vs_sha256 := digest b; vs_length := len b; vs_format := format; vs_object_identity := None |}
  | Err _ => forall b, object_of (uri_str u) w = Some b -> object_of (uri_str u) w' = Some b
  end.
Proof.
  refine (wp_run _ (fun r w' => match r with Ok _ => _ | Err _ => _ end) w _).
  unfold stage_file. apply wp_bind, wp_of_result. rewrite Hu. cbn [of_protocol map_err].
  apply wp_bind. unfold wp at 1.
  destruct (call_spec (uri_str u) Henv (fun s => os_create_from_reader s u source (Some (fp_length fingerprint)))
    (fun a b r => create_spec a b u source (Some (fp_length fingerprint)) r) w Hok (fun s Hs => law_create s u source _ Hs))
    as (before & Eb & Hok1 & Hkept & Hr).
  destruct (call _ w) as [[created|e] w1]; cbn [fst snd map_err] in *.
  2:{ assert (forall b, object_of (uri_str u) w = Some b -> object_of (uri_str u) w1 = Some b) as Hsame.
      { intros b Hb. unfold object_of in *. rewrite Hkept; [congruence|]. right. rewrite Eb, Hb. by eexists. }
      by destruct e. }
  destruct Hr as (b & -> & Hnone & Hput & _ & ->). rewrite Eb in Hnone. cbn [co_length co_sha256 co_version].
  assert (object_of (uri_str u) w1 = Some b) as Hw1 by (unfold object_of; by rewrite Hput, decide_True).
  assert (forall e w2 (Q : VerifiedStagedFile -> World S -> Prop), wp (_ ← discard u (version_of b); fail e) (fun r w' => match r with
    | Ok f => Q f w'
    | Err _ => forall b, object_of (uri_str u) w = Some b -> object_of (uri_str u) w' = Some b end) w2) as Hdiscard.
  { intros e w2 Q. apply wp_bind. unfold wp at 1, discard. destruct (call _ w2). cbn [fst snd]. apply wp_fail. congruence. }
  destruct (_ || _) eqn:Ef; [apply Hdiscard|]. bool_to_prop. apply wp_bind. unfold wp at 1.
  destruct (call_spec (uri_str u) Henv (fun s => confirm_readable s u (fp_sha256 fingerprint) (fp_length fingerprint))
    (fun a b _ => same_objects a b) w1 Hok1 (fun s Hs => confirm_same u _ _ s Hs)) as (before2 & Eb2 & Hok2 & Hsame).
  destruct (call _ w1) as [[v|e] w2]; cbn [fst snd] in *; [|apply Hdiscard].
  destruct (negb _) eqn:Ev; [apply Hdiscard|]. apply wp_ret. split; [done|]. exists b.
  unfold object_of in *. rewrite Hsame, Eb2. done.
Qed.

(** C1: a transaction is published at most once, whatever the store's answers and
    the other clients' writes: of all the conditional writes of a run at most one
    takes effect; a run that succeeds leaves the intent recorded in the table; a
    run that fails has written nothing, unless it says that it does not know. *)
Theorem publish_once {R} `{FromJson R} (policy : TransactionRetryPolicy) (pin : M S PinnedTable)
    (parent : PinnedTable) (key : string) (intent : Sha256) (staged : list VerifiedStagedFile)
    (build : nat -> PinnedTable -> rresult (Candidate R)) (heads carries : bytes -> Prop) (w : World S)
    (Hclients : clients heads carries) (Henv : environment pin (h_table_id (pt_head parent)) key intent build heads carries)
    (Hpolicy : 0 <= maximum_indeterminate_reconciliations policy)
    (Hpin : answers (R := R) (h_table_id (pt_head parent)) key intent heads carries parent)
    (Hok : os_ok (w_store w)) (Hknown : known heads (head_of w)) (Hnone : effective w = [])
    (Hlater : carries (raw_head parent) -> carried carries (head_of w)) :
  let '(r, w') := publish_transaction_from_parent policy pin parent key intent staged build w in
  (length (effective w') <= 1)%nat /\
  match r with
  | Ok _ => carried carries (head_of w')
  | Err RuntimeError.PublicationIndeterminate => True
  | Err _ => effective w' = []
  end.
Proof.
  apply wp_run. unfold publish_transaction_from_parent, publish_fuel. eapply wp_mono.
  - apply (publish_loop_once policy pin _ key intent staged build heads carries Hclients Henv); try done; lia.
  - intros r w' (_ & b & Hb & Hr). split.
    + destruct b; [destruct Hb as [-> _]; lia|]. unfold Wrote in Hb. rewrite Hb. cbn. lia.
    + destruct r as [a|e]; [exact Hr|]. destruct e; try (subst b; exact Hb). done.
Qed.

(** C27: publication ends: neither loop runs out of the rounds its policy allows,
    and a run makes at most (rebases + 1) * (reconciliations + 1) conditional
    writes. *)
Theorem publish_ends {R} `{FromJson R} (policy : TransactionRetryPolicy) (pin : M S PinnedTable)
    (parent : PinnedTable) (key : string) (intent : Sha256) (staged : list VerifiedStagedFile)
    (build : nat -> PinnedTable -> rresult (Candidate R)) (w : World S) (extra : nat)
    (Hpin : at_most 0 pin) (Hp1 : 0 <= maximum_rebases policy) (Hp2 : 0 <= maximum_indeterminate_reconciliations policy) :
  publish_loop policy pin (h_table_id (pt_head parent)) key intent staged build (publish_fuel policy + extra) 0 parent w =
  publish_transaction_from_parent policy pin parent key intent staged build w /\
  (forall c, cas_loop (R := R) policy pin (h_table_id (pt_head parent)) key intent (cas_fuel policy + extra) parent c 0 w =
             cas_loop policy pin (h_table_id (pt_head parent)) key intent (cas_fuel policy) parent c 0 w) /\
  Z.of_nat (writes (snd (publish_transaction_from_parent policy pin parent key intent staged build w))) <=
  Z.of_nat (writes w) + (maximum_rebases policy + 1) * (maximum_indeterminate_reconciliations policy + 1).
Proof.
  split; [|split].
  - apply publish_loop_fuel; unfold publish_fuel; lia.
  - intros c. apply cas_loop_fuel; unfold cas_fuel; lia.
  - pose proof (publish_loop_at_most policy pin (h_table_id (pt_head parent)) key intent staged build Hpin (publish_fuel policy) 0 parent w)
      as Hn. unfold publish_transaction_from_parent. unfold publish_fuel, cas_fuel in *. nia.
Qed.

(** C33: a table's first head is created at most once; success means this client's
    head was installed; [AlreadyExists] that another one is in its place; any
    other error, unless it says it does not know, that nothing was written. *)
Theorem genesis_once (policy : TransactionRetryPolicy) (head_bytes : bytes) (w : World S)
    (Henv : keeps_head) (Hpolicy : 0 <= maximum_indeterminate_reconciliations policy)
    (Hok : os_ok (w_store w)) (Hnone : effective w = []) :
  let '(r, w') := create_genesis_head policy head_bytes w in
  (length (effective w') <= 1)%nat /\
  match r with
  | Ok _ => length (effective w') = 1%nat \/ head_of w' = Some head_bytes
  | Err RuntimeError.PublicationIndeterminate => True
  | Err RuntimeError.AlreadyExists => exists other, head_of w' = Some other /\ other <> head_bytes
  | Err _ => effective w' = []
  end.
Proof.
  apply wp_run. unfold create_genesis_head, cas_fuel. eapply wp_mono.
  - apply (create_loop_once policy head_bytes Henv _ 0 false); [done|lia|done|lia..].
  - intros r w' (b & [_ Hb] & Hr). split.
    + destruct b; [destruct Hb as [-> _]; lia|]. rewrite Hb. cbn. lia.
    + destruct r as [a|e].
      * destruct Hr as [->|Hr]; [left; by destruct Hb|by right].
      * destruct e; try (subst b; exact Hb); done.
Qed.
End properties.

(** ** Examples *)

(** A table in memory: heads are short texts, [h1] holds the intent. *)
#[local] Instance example_hex : HexCrate := hex_reference.
#[local] Instance example_sha2 : Sha2Crate := sha2_reference.
#[local] Instance example_serde : SerdeJson := json_reference (as_bytes "null") JUnit.
#[local] Instance example_unit : FromJson unit := {| serde_from_slice _ := Ok tt |}.

Definition h0 : bytes := as_bytes "h0".
Definition h1 : bytes := as_bytes "h1".
Definition h2 : bytes := as_bytes "h2".
Definition example_heads (b : bytes) : Prop := b = h0 \/ b = h1 \/ b = h2.
Definition example_carries (b : bytes) : Prop := b = h1.
Definition example_intent : Sha256 := digest (as_bytes "intent").

#[local] Instance example_sqlite : Sqlite := {|
  sql_idempotency image key :=
    Ok (if bool_decide (image = h1) then Some (sha_bytes example_intent, "null") else None);
  sql_commit_state image key := Ok (sha_bytes example_intent) |}.

(** Another client replaces [h0] by [h2] just before this client's fifth call. *)
#[local] Instance example_interference : Interference MemoryState := {|
  interfere n s := if bool_decide (n = 4%nat) && bool_decide (memory_get s HEAD_KEY = Some h0)
                   then insert_object s HEAD_KEY h2 else s |}.

Definition example_ref : ObjectReference :=
  {| or_uri := MkUri "o"; or_sha256 := MkSha256 []; or_length := None; or_media_type := None |}.
Definition example_head : Head :=
  {| h_protocol := PROTOCOL; h_protocol_version := PROTOCOL_VERSION; h_table_id := MkId []; h_table_version := 0;
     h_root_revision := 0; h_semantic_state_sha256 := MkSha256 []; h_semantic_commit := example_ref;
     h_metadata_generation := example_ref; h_required_reader_features := MkFeatures [];
     h_required_writer_features := MkFeatures [] |}.
Definition example_table (b : bytes) : PinnedTable :=
  {| raw_head := b; head_version := version_of b; pt_head := example_head;
     pt_commit := example_commit example_drop; pt_generation := example_generation example_index;
     current_main := None; page_tree := None; resolved := b |}.
Definition example_pin : M MemoryState PinnedTable := o ← read_head; mret (example_table (so_bytes o)).
Definition example_candidate : Candidate unit :=
  MkCandidate example_intent (MkUri "_otmp/commits/1/a.json") (as_bytes "commit") []
    (MkUri "_otmp/generations/1/a.json") (as_bytes "generation") h1 tt.
Definition example_build (n : nat) (p : PinnedTable) : rresult (Candidate unit) := Ok example_candidate.

(** The head [h0], and a conditional write whose answer is lost after it took effect. *)
Definition example_world (outcomes : list InjectedConditional) (h : option bytes) : World MemoryState :=
  MkWorld (fold_left inject_conditional outcomes
    (match h with Some h => insert_object memory_default HEAD_KEY h | None => memory_default end)) 0 [].

Definition example_run :=
  publish_transaction_from_parent default_retry_policy example_pin (example_table h0) "k" example_intent [] example_build
    (example_world [InjConflict; IndeterminateAfter] (Some h0)).

(** The first write meets a conflict, the transaction is rebuilt on [h2], and the
    second write takes effect with its answer lost: the run recognises its own
    commit and succeeds with one write. *)
Lemma example_run_result : fst example_run = Ok (tt, example_intent) /\
  effective (snd example_run) = [(Some h2, Some h1)] /\ length (w_writes (snd example_run)) = 2%nat.
Proof. vm_compute. done. Qed.

Lemma example_distinct a b : example_heads a -> example_heads b -> version_of a = version_of b -> a = b.
Proof.
  intros [->|[->| ->]] [->|[->| ->]] E; first [reflexivity|exfalso; vm_compute in E; discriminate E].
Qed.

Lemma example_answers b : example_heads b ->
  answers (R := unit) (MkId []) "k" example_intent example_heads example_carries (example_table b).
Proof.
  intros Hb. split; [done|]. split; [done|]. split; [|done]. unfold example_carries. cbn [raw_head example_table].
  destruct Hb as [->|[->| ->]].
  - split; [|done]. intros [r E]. vm_compute in E. discriminate.
  - split; [done|]. intros _. eexists. vm_compute. reflexivity.
  - split; [|done]. intros [r E]. vm_compute in E. discriminate.
Qed.

Lemma example_clients : clients (S := MemoryState) example_heads example_carries.
Proof.
  assert (forall n s, interfere n s = s \/ interfere n s = insert_object s HEAD_KEY h2 /\ memory_get s HEAD_KEY = Some h0) as Hi.
  { intros n s. cbn [interfere example_interference]. destruct (bool_decide (n = 4%nat)); [|by left].
    cbn [andb]. case_bool_decide; [by right|by left]. }
  constructor.
  - intros n s Hs. destruct (Hi n s) as [->|[-> _]]; [done|by apply insert_object_ok].
  - intros n s Hs Hk. destruct (Hi n s) as [->|[-> _]]; [done|]. cbn [os_get memory_laws].
    rewrite (insert_object_puts s HEAD_KEY h2 Hs), decide_True by done. by right; right.
  - intros n s Hs Hc. destruct (Hi n s) as [->|[-> E]]; [done|]. cbn [os_get memory_laws] in *. rewrite E in Hc. done.
Qed.

Lemma example_environment :
  environment example_pin (MkId []) "k" example_intent example_build example_heads example_carries.
Proof.
  constructor.
  - apply example_distinct.
  - intros w Hw. unfold example_pin. apply wp_bind.
    eapply wp_mono; [by apply (read_head_quiet _ _ example_clients)|]. intros [o|e] w' [Hq Ho]; [|done].
    apply wp_ret. split; [done|]. intros p [= <-]. destruct (Ho o eq_refl) as (_ & Hh & Hc). split; [|done].
    by apply example_answers.
  - intros n p c [= <-]. split_and!; [done|by right; left|done|done|constructor].
Qed.

Lemma publish_once_witness :
  let '(r, w') := example_run in
  (length (effective w') <= 1)%nat /\
  match r with
  | Ok _ => carried example_carries (head_of w')
  | Err RuntimeError.PublicationIndeterminate => True
  | Err _ => effective w' = []
  end.
Proof.
  apply (publish_once default_retry_policy example_pin (example_table h0) "k" example_intent [] example_build
    example_heads example_carries (example_world [InjConflict; IndeterminateAfter] (Some h0)));
    [exact example_clients|exact example_environment|vm_compute; discriminate|apply example_answers; by left
    |apply insert_object_ok; constructor|by left|reflexivity|discriminate].
Defined.

Lemma example_pin_at_most : at_most 0 example_pin.
Proof. apply (at_most_bind 0 0); [apply at_most_call|]. intros o. apply (at_most_pure 0 (Ok _)). Qed.

Lemma publish_ends_witness :
  let w := example_world [InjConflict; IndeterminateAfter] (Some h0) in
  publish_loop default_retry_policy example_pin (MkId []) "k" example_intent [] example_build
    (publish_fuel default_retry_policy + 1) 0 (example_table h0) w = example_run /\
  (forall c, cas_loop (R := unit) default_retry_policy example_pin (MkId []) "k" example_intent
               (cas_fuel default_retry_policy + 1) (example_table h0) c 0 w =
             cas_loop default_retry_policy example_pin (MkId []) "k" example_intent (cas_fuel default_retry_policy)
               (example_table h0) c 0 w) /\
  Z.of_nat (writes (snd example_run)) <= Z.of_nat (writes w) + (8 + 1) * (3 + 1).
Proof.
  apply (publish_ends default_retry_policy example_pin (example_table h0) "k" example_intent [] example_build
    (example_world [InjConflict; IndeterminateAfter] (Some h0)) 1);
    [exact example_pin_at_most|vm_compute; discriminate..].
Defined.

Lemma example_keeps_head : keeps_head (S := MemoryState).
Proof.
  assert (forall n s, interfere n s = s \/ interfere n s = insert_object s HEAD_KEY h2) as Hi.
  { intros n s. cbn [interfere example_interference]. destruct (_ && _); auto. }
  constructor.
  - intros n s Hs. destruct (Hi n s) as [->| ->]; [done|by apply insert_object_ok].
  - intros n s Hs Hp. destruct (Hi n s) as [->| ->]; [done|]. cbn [os_get memory_laws].
    rewrite (insert_object_puts s HEAD_KEY h2 Hs), decide_True by done. by eexists.
Qed.

Lemma genesis_once_witness :
  let '(r, w') := create_genesis_head default_retry_policy h1 (example_world [IndeterminateAfter] None) in
  (length (effective w') <= 1)%nat /\
  match r with
  | Ok _ => length (effective w') = 1%nat \/ head_of w' = Some h1
  | Err RuntimeError.PublicationIndeterminate => True
  | Err RuntimeError.AlreadyExists => exists other, head_of w' = Some other /\ other <> h1
  | Err _ => effective w' = []
  end.
Proof.
  apply (genesis_once default_retry_policy h1 (example_world [IndeterminateAfter] None));
    [exact example_keeps_head|vm_compute; discriminate|constructor|reflexivity].
Defined.

Definition example_file_id : Id := ok_default (MkId []) (id_from_str "01a08e1b-5160-7b43-9d92-27659b3b9e73").
Definition example_source : bytes := as_bytes "PAR1".
Definition example_fingerprint : SourceFingerprint := {| fp_length := 4; fp_sha256 := digest example_source |}.
Definition example_uri : RelativeUri := MkUri ("data/" +:+ id_to_string example_file_id +:+ ".parquet").

Lemma example_leaves_alone : leaves_alone (S := MemoryState) (uri_str example_uri).
Proof.
  assert (forall n s, interfere n s = s \/ interfere n s = insert_object s HEAD_KEY h2) as Hi.
  { intros n s. cbn [interfere example_interference]. destruct (_ && _); auto. }
  constructor; intros n s Hs; destruct (Hi n s) as [->| ->]; try done; [by apply insert_object_ok|].
  cbn [os_get memory_laws]. rewrite (insert_object_puts s HEAD_KEY h2 Hs). rewrite decide_False; [done|].
  intros E. vm_compute in E. discriminate E.
Qed.

Lemma stage_file_correct_witness :
  let w := example_world [] (Some h0) in
  let '(r, w') := stage_file (MkId []) example_file_id 0 (Ok example_source) example_fingerprint Parquet w in
  match r with
  | Ok f => object_of (uri_str example_uri) w = None /\ exists b, Ok (E := string) example_source = Ok b /\
      object_of (uri_str example_uri) w' = Some b /\
      len b = 4 /\ digest b = digest example_source /\
      f = {| vs_table_id := MkId []; vs_ordinal := 0; vs_file_id := example_file_id; vs_uri := example_uri;
             vs_version := version_of b; vs_sha256 := digest b; vs_length := len b; vs_format := Parquet; vs_object_identity := None |}
  | Err _ => forall b, object_of (uri_str example_uri) w = Some b -> object_of (uri_str example_uri) w' = Some b
  end.
Proof.
  apply (stage_file_correct (MkId []) example_file_id 0 (Ok example_source) example_fingerprint Parquet example_uri
    (example_world [] (Some h0))); [vm_compute; reflexivity|exact example_leaves_alone|apply insert_object_ok; constructor].
Defined.

(** Another client commits on top of this client's genesis before the lost answer
    of [create_head] is looked into. *)
Definition commit_on_top : Interference MemoryState := {|
  interfere n s := if bool_decide (memory_get s HEAD_KEY = Some h1) then insert_object s HEAD_KEY h2 else s |}.

(** The client that created the table is then told that it already exists. *)
Lemma genesis_misreported :
  let '(r, w') := @create_genesis_head _ _ _ _ _ commit_on_top default_retry_policy h1 (example_world [IndeterminateAfter] None) in
  r = Err RuntimeError.AlreadyExists /\ effective w' = [(None, Some h1)].
Proof. vm_compute. done. Qed.
