(* ===== verification/Candidate.v ===== *)
(** The end of building a transaction (otmp/src/runtime.rs, [finish_candidate];
    otmp/src/image.rs, [finish_turso] and the head of [validate]): the objects of
    the new table version, from the frozen metadata image to the head. *)
From S2P Require Import Prelude Bytes Errors Values Scalars Cbor PageMap CheckpointIndex PagePack Hashes PageTree PagePersist.
From S2P Require Import PageLoad ByteArray Overlay Storage CanonicalJson Objects CheckpointBuild Resolve ImageRoundtrip Publication.

Definition APPLICATION_ID : Z := 0x4f544d50.
Definition USER_VERSION : Z := 2.
Definition SQLITE_COW_FEATURE : string := "otmp.metadata.sqlite3-cow.v1".

(** The frozen image; its scratch file holds the same bytes. *)
Record CheckpointImage := { cp_bytes : bytes; cp_page_count : Z; cp_changed_pages : list (Z * bytes) }.

(** [finish_turso], after the engine has closed. *)
Definition finish_turso (frozen : FrozenImage) : CheckpointImage :=
  let b := materialize frozen in
  {| cp_bytes := b; cp_page_count := len b / PAGE_SIZE; cp_changed_pages := f_changed frozen |}.

Record ExpectedImage := {
  ei_table_id : Id;
  ei_table_version : Z;
  ei_semantic_state : Sha256;
  ei_commit_id : Id;
  ei_commit_hash : Sha256;
  ei_commit_uri : string;
  ei_reader_features_json : string;
  ei_writer_features_json : string;
  ei_previous_semantic_state : option Sha256 }.

(** The row of [otmp_meta]. *)
Record MetaRow := {
  mr_protocol : string;
  mr_protocol_version : string;
  mr_table_id : bytes;
  mr_table_version : Z;
  mr_semantic_state : bytes;
  mr_last_commit_id : bytes;
  mr_last_commit_hash : bytes;
  mr_last_sequence_number : Z;
  mr_current_schema_id : Z;
  mr_default_partition_spec_id : Z;
  mr_default_sort_order_id : Z;
  mr_reader_features_json : string;
  mr_writer_features_json : string }.

(** SQLite, through the queries the code issues on an image. *)
Class ImageSql := {
  sql_integrity_check : bytes -> result string string;
  sql_foreign_key_errors : bytes -> result string Z;
  sql_pragma : bytes -> string -> result string Z;
  sql_otmp_meta : bytes -> result string MetaRow;
  (** SELECT semantic_state_sha256 FROM otmp_commits WHERE commit_id *)
  sql_state_of_commit : bytes -> bytes -> result string bytes }.

Definition sql {A} (m : result string A) : rresult A := map_err RuntimeError.Sqlite m.

Section candidate.
Context `{HexCrate, Sha2Crate, SerdeJson, ImageSql} `{ToJson cvalue, FromJson Schema.Schema, ToJson FeatureSet, ToJson Generation, ToJson Head}.
(** The rest of [image::validate], from the defaults on, and
    [image::validate_commit_projection]: queries on the history of the table. *)
Context (validate_history : bytes -> MetaRow -> ExpectedImage -> rresult unit).
Context (validate_commit_projection : bytes -> SemanticCommit -> rresult unit).

Definition check_pragma (b : bytes) (expected : string * Z) : rresult unit :=
  value ← sql (sql_pragma b expected.1);
  reject (negb (value =? expected.2)) (corrupt ("invalid SQLite " +:+ expected.1)).

Definition meta_matches (meta : MetaRow) (expected : ExpectedImage) : bool :=
  String.eqb (mr_protocol meta) "otmp" && String.eqb (mr_protocol_version meta) "0.0.2-alpha"
  && bool_decide (mr_table_id meta = id_bytes (ei_table_id expected))
  && (mr_table_version meta =? ei_table_version expected)
  && bool_decide (mr_semantic_state meta = sha_bytes (ei_semantic_state expected))
  && bool_decide (mr_last_commit_id meta = id_bytes (ei_commit_id expected))
  && bool_decide (mr_last_commit_hash meta = sha_bytes (ei_commit_hash expected))
  && String.eqb (mr_reader_features_json meta) (ei_reader_features_json expected)
  && String.eqb (mr_writer_features_json meta) (ei_writer_features_json expected).

Definition validate_image (b : bytes) (expected : ExpectedImage) : rresult unit :=
  integrity ← sql (sql_integrity_check b);
  _ ← reject (negb (String.eqb integrity "ok")) (corrupt ("integrity_check: " +:+ integrity));
  errors ← sql (sql_foreign_key_errors b);
  _ ← reject (negb (errors =? 0)) (corrupt "foreign_key_check failed");
  _ ← try_fold (fun _ => check_pragma b) tt
        [("application_id", APPLICATION_ID); ("user_version", USER_VERSION); ("page_size", PAGE_SIZE)];
  meta ← sql (sql_otmp_meta b);
  _ ← reject (negb (meta_matches meta expected)) (corrupt "otmp_meta does not match HEAD");
  validate_history b meta expected.

(** The message of a UTF-8 error is not modelled. *)
Definition canonical_text {T} `{ToJson T} (value : T) : rresult string :=
  b ← of_protocol (to_vec value);
  _ ← reject (negb (utf8_valid b)) (corrupt "invalid utf-8 sequence");
  Ok (string_of_list_byte b).

Definition object_reference (uri : RelativeUri) (sha256 : Sha256) (length : Z) (media_type : string) : ObjectReference :=
  {| or_uri := uri; or_sha256 := sha256; or_length := Some length; or_media_type := Some media_type |}.

(** A name made of a directory, the version, an identifier and an extension. *)
Definition version_uri (directory : string) (version : Z) (id : Id) (extension : string) : presult RelativeUri :=
  relative_uri_from_str (directory +:+ u64_to_string version +:+ "/" +:+ id_to_string id +:+ extension).

Record ImageParts := {
  ip_checkpoint : Checkpoint;
  ip_page_map : option PageMapRoot;
  ip_page_index : option CheckpointPageIndex;
  ip_artifacts : list Artifact }.

(** The new image as a checkpoint of its own. *)
Definition full_image (version : Z) (checkpoint_id : Id) (b : bytes) : rresult ImageParts :=
  let hash := object_hash b in
  uri ← of_protocol (version_uri "_otmp/checkpoints/" version checkpoint_id ".sqlite3");
  let base := {| ck_table_version := version; ck_uri := uri; ck_sha256 := hash; ck_length := len b |} in
  '(index, artifacts) ← build_index base PAGE_SIZE b;
  Ok {| ip_checkpoint := base; ip_page_map := None; ip_page_index := Some index;
        ip_artifacts := artifacts ++ [MkArtifact uri b] |}.

Definition choose_image (parent : MetadataImage) (version : Z) (checkpoint_id : Id) (b : bytes) (incremental : IncrementalImage)
  : rresult ImageParts :=
  if bool_decide (i_root incremental = None) || (len b <=? i_reachable_bytes incremental) then
    full_image version checkpoint_id b
  else Ok {| ip_checkpoint := mi_checkpoint parent; ip_page_map := i_root incremental;
             ip_page_index := mi_checkpoint_page_index parent; ip_artifacts := i_artifacts incremental |}.

Definition new_generation (parent : PinnedTable) (commit : SemanticCommit) (commit_uri : RelativeUri) (commit_bytes : bytes)
    (generation_id : Id) (page_count : Z) (parts : ImageParts) : Generation :=
  {| g_kind := "otmp.metadata-generation"; g_format_version := 1; g_table_id := h_table_id (pt_head parent);
     g_table_version := sc_table_version commit; g_generation_id := generation_id; g_created_at_ms := sc_created_at_ms commit;
     g_semantic_state_sha256 := sc_semantic_state_sha256 commit;
     g_semantic_commit := object_reference commit_uri (object_hash commit_bytes) (len commit_bytes) COMMIT_MEDIA_TYPE;
     g_physical_parent := Some (h_metadata_generation (pt_head parent));
     g_metadata_image := {| mi_codec := SQLITE_COW_FEATURE; mi_page_size := PAGE_SIZE; mi_page_count := page_count;
       mi_checkpoint := ip_checkpoint parts; mi_page_map := ip_page_map parts;
       mi_checkpoint_page_index := ip_page_index parts;
       mi_image_root_sha256 := image_root_hash (h_table_id (pt_head parent)) (sc_table_version commit) PAGE_SIZE page_count
         (ck_sha256 (ip_checkpoint parts)) (root_sha256 <$> ip_page_map parts) |};
     g_scan_projection := None; g_metadata := [] |}.

Definition new_head (parent : PinnedTable) (commit : SemanticCommit) (generation : Generation) (root_revision : Z)
    (generation_uri : RelativeUri) (generation_bytes : bytes) : Head :=
  {| h_protocol := "otmp"; h_protocol_version := "0.0.2-alpha"; h_table_id := h_table_id (pt_head parent);
     h_table_version := sc_table_version commit; h_root_revision := root_revision;
     h_semantic_state_sha256 := sc_semantic_state_sha256 commit; h_semantic_commit := g_semantic_commit generation;
     h_metadata_generation := object_reference generation_uri (object_hash generation_bytes) (len generation_bytes) GENERATION_MEDIA_TYPE;
     h_required_reader_features := h_required_reader_features (pt_head parent);
     h_required_writer_features := h_required_writer_features (pt_head parent) |}.

(** A validation of the protocol, within the runtime. *)
Definition of_validation {A} (m : vresult A) : fresult A :=
  map_err (fun e => match e with Failed e => Refused (RuntimeError.Protocol e) | Panicked => Panic end) m.

(** The part up to [persist]: the commit and the image agree. *)
Definition check_candidate (parent : PinnedTable) (commit : SemanticCommit) (commit_uri : RelativeUri) (commit_bytes b : bytes)
  : fresult unit :=
  _ ← of_validation (validate_runtime_profile commit);
  reader ← refuse (canonical_text (h_required_reader_features (pt_head parent)));
  writer ← refuse (canonical_text (h_required_writer_features (pt_head parent)));
  refuse (validate_image b
    {| ei_table_id := h_table_id (pt_head parent); ei_table_version := sc_table_version commit;
       ei_semantic_state := sc_semantic_state_sha256 commit; ei_commit_id := sc_commit_id commit;
       ei_commit_hash := object_hash commit_bytes; ei_commit_uri := uri_str commit_uri; ei_reader_features_json := reader;
       ei_writer_features_json := writer; ei_previous_semantic_state := sc_previous_semantic_state_sha256 commit |}).

(** [checkpoint_id] and [generation_id] are the identifiers drawn. *)
Definition finish_candidate {R} (checkpoint_id generation_id : Id) (parent : PinnedTable) (commit : SemanticCommit)
    (commit_uri : RelativeUri) (commit_bytes : bytes) (checkpoint : CheckpointImage) (result : R) : fresult (Candidate R) :=
  _ ← check_candidate parent commit commit_uri commit_bytes (cp_bytes checkpoint);
  incremental ← refuse (default (Err (corrupt "out of fuel"))
    (persist (page_tree parent) (cp_changed_pages checkpoint) (cp_page_count checkpoint)));
  parts ← refuse (choose_image (g_metadata_image (pt_generation parent)) (sc_table_version commit) checkpoint_id
                    (cp_bytes checkpoint) incremental);
  generation_uri ← refuse (of_protocol (version_uri "_otmp/generations/" (sc_table_version commit) generation_id ".json"));
  let generation := new_generation parent commit commit_uri commit_bytes generation_id (cp_page_count checkpoint) parts in
  generation_bytes ← refuse (of_protocol (to_vec generation));
  root_revision ← refuse (ok_or (checked_add 64 (h_root_revision (pt_head parent)) 1)
                           (RuntimeError.InvalidAppend "root revision exhausted"));
  let head := new_head parent commit generation root_revision generation_uri generation_bytes in
  _ ← refuse (validate_commit_projection (cp_bytes checkpoint) commit);
  state ← refuse (sql (sql_state_of_commit (cp_bytes checkpoint) (id_bytes (sc_commit_id commit))));
  state ← refuse (blob32 state "invalid SHA-256 blob");
  head_bytes ← refuse (of_protocol (to_vec head));
  Ok (MkCandidate state commit_uri commit_bytes (ip_artifacts parts) generation_uri generation_bytes head_bytes result).
End candidate.

(** ** The frozen image *)

Section frozen.
Context `{TursoCrate}.

(** What the engine wrote is what the candidate is built from. *)
Lemma finish_turso_ok parent ops frozen : Forall op_ok ops -> freeze (steps (overlay_new parent) ops).1 = Ok frozen ->
  let f := (flat_steps parent ops).1 in
  len f mod PAGE_SIZE = 0 /\ cp_bytes (finish_turso frozen) = f /\ cp_page_count (finish_turso frozen) = len f / PAGE_SIZE /\
  changed_pages parent f (cp_changed_pages (finish_turso frozen)).
Proof.
  intros Hops Hf f. pose proof (steps_ok ops _ _ (holds_new parent) Hops) as Hs. destruct (steps _ ops) as [o rs].
  destruct Hs as (_ & Hh & Hp & _). cbn [fst o_parent overlay_new] in *. fold f in Hh.
  destruct (freeze_ok _ _ _ Hh Hf) as (_ & Hmod & Hpar & Hl & Hc). rewrite Hp in Hc, Hpar.
  assert (materialize frozen = f) as Hm by (apply materialize_ok; [done|done|by rewrite Hpar]).
  split; [done|]. unfold finish_turso. cbn [cp_bytes cp_page_count cp_changed_pages]. rewrite Hm. done.
Qed.
End frozen.

(** ** The candidate's parts *)

Section parts.
Context `{HexCrate, Sha2Crate, SerdeJson, ImageSql} `{ToJson cvalue, FromJson Schema.Schema, ToJson FeatureSet, ToJson Generation, ToJson Head}.
Context (validate_history : bytes -> MetaRow -> ExpectedImage -> rresult unit).
Context (validate_commit_projection : bytes -> SemanticCommit -> rresult unit).

(** An accepted image names the table and version that are published. *)
Lemma validate_image_meta b expected : validate_image validate_history b expected = Ok tt ->
  sql_pragma b "page_size" = Ok PAGE_SIZE /\
  exists meta, sql_otmp_meta b = Ok meta /\ mr_table_id meta = id_bytes (ei_table_id expected) /\
    mr_table_version meta = ei_table_version expected.
Proof.
  unfold validate_image, sql. intros E. apply bind_ok in E as (i & _ & E). apply bind_reject in E as [_ E].
  apply bind_ok in E as (n & _ & E). apply bind_reject in E as [_ E]. apply bind_unit in E as [Hp E].
  apply bind_ok in E as (meta & Hm & E). apply bind_reject in E as [Hmm _]. apply map_err_ok in Hm.
  cbn [try_fold] in Hp. apply bind_ok in Hp as (u1 & _ & Hp). apply bind_ok in Hp as (u2 & _ & Hp). apply bind_ok in Hp as (u3 & Hp & _).
  unfold check_pragma, sql in Hp. apply bind_ok in Hp as (v & Hv & Hp). apply map_err_ok in Hv. apply reject_ok in Hp.
  cbn [fst snd] in *. apply negb_false_iff in Hp, Hmm. apply Z.eqb_eq in Hp as ->. split; [done|].
  unfold meta_matches in Hmm. bool_to_prop. exists meta. done.
Qed.

(** What a candidate is made of. *)
Record made_of {R} (checkpoint_id generation_id : Id) (parent : PinnedTable) (commit : SemanticCommit) (commit_uri : RelativeUri)
    (commit_bytes : bytes) (checkpoint : CheckpointImage) (c : Candidate R) (incremental : IncrementalImage) (parts : ImageParts)
    (root_revision : Z) : Prop := {
  mo_image : sql_pragma (cp_bytes checkpoint) "page_size" = Ok PAGE_SIZE /\
    exists meta, sql_otmp_meta (cp_bytes checkpoint) = Ok meta /\ mr_table_id meta = id_bytes (h_table_id (pt_head parent)) /\
      mr_table_version meta = sc_table_version commit;
  mo_incremental : persist (page_tree parent) (cp_changed_pages checkpoint) (cp_page_count checkpoint) = Some (Ok incremental);
  mo_parts : choose_image (g_metadata_image (pt_generation parent)) (sc_table_version commit) checkpoint_id
    (cp_bytes checkpoint) incremental = Ok parts;
  mo_artifacts : c_image_artifacts c = ip_artifacts parts;
  mo_generation : to_vec (new_generation parent commit commit_uri commit_bytes generation_id (cp_page_count checkpoint) parts)
    = Ok (c_generation_bytes c);
  mo_revision : h_root_revision (pt_head parent) + 1 = root_revision;
  mo_head : to_vec (new_head parent commit (new_generation parent commit commit_uri commit_bytes generation_id
      (cp_page_count checkpoint) parts) root_revision (c_generation_uri c) (c_generation_bytes c)) = Ok (c_head_bytes c) }.

Lemma finish_candidate_ok {R} checkpoint_id generation_id parent commit commit_uri commit_bytes checkpoint (result : R) c :
  finish_candidate validate_history validate_commit_projection checkpoint_id generation_id parent commit commit_uri commit_bytes
    checkpoint result = Ok c ->
  exists incremental parts root_revision,
    made_of checkpoint_id generation_id parent commit commit_uri commit_bytes checkpoint c incremental parts root_revision.
Proof.
  unfold finish_candidate, refuse, of_protocol. intros E. apply bind_unit in E as [Hc E].
  apply bind_ok in E as (incremental & Hi & E). apply bind_ok in E as (parts & Hp & E). apply bind_ok in E as (uri & Hu & E).
  apply bind_ok in E as (gb & Hg & E). apply bind_ok in E as (rev & Hr & E). apply bind_unit in E as [_ E].
  apply bind_ok in E as (s1 & _ & E). apply bind_ok in E as (s2 & _ & E). apply bind_ok in E as (hb & Hh & [= <-]).
  apply map_err_ok in Hi, Hp, Hg, Hr, Hh. apply map_err_ok in Hg, Hh. apply ok_or_ok, try_uint_some in Hr as [-> _].
  destruct (persist _ _ _) as [r|] eqn:Er; [|done]. cbn [default] in Hi.
  exists incremental, parts, (h_root_revision (pt_head parent) + 1). constructor; cbn; try done; [|by rewrite <- Hi].
  unfold check_candidate, refuse in Hc. apply bind_ok in Hc as (u & _ & Hc). apply bind_ok in Hc as (rd & _ & Hc).
  apply bind_ok in Hc as (wr & _ & Hc). apply map_err_ok, validate_image_meta in Hc. done.
Qed.
End parts.

(** ** The candidate's image resolves *)

Section resolves.
Context `{HexCrate, Sha2Crate, ImageCrates, ImageSql} (known : bytes -> Prop).
Context (Hno : forall a b, known a -> known b -> digest a = digest b -> a = b).
Context (read read' : ObjectReference -> rresult bytes) (Hext : extends read read').
Context (parent : PinnedTable) (rp : ResolvedGeneration) (commit : SemanticCommit) (f : bytes).
Notation gp := (pt_generation parent).

(** The parent is a table as [pin] returns it: its generation is of the runtime
    profile and resolves to its bytes and tree. *)
Record pinned : Prop := {
  pn_runtime : runtime_generation gp;
  pn_valid : validate_generation gp = Ok tt;
  pn_resolves : resolve_generation read gp = Ok rp;
  pn_tree : page_tree parent = rg_tree rp;
  pn_bytes : resolved parent = rg_bytes rp;
  pn_table : g_table_id gp = h_table_id (pt_head parent);
  pn_version : g_table_version gp < sc_table_version commit;
  pn_version_u64 : is_u64 (sc_table_version commit);
  pn_map : forall r, mi_page_map (g_metadata_image gp) = Some r -> wf_ref (root_reference r) }.

(** The image is a SQLite file of whole pages, whose header counts them, and the
    queries of [resolve_generation] and of [validate] agree on it. *)
Record sqlite_file : Prop := {
  sf_magic : slice f 0 16 = Some SQLITE_MAGIC;
  sf_length : 0 < len f < 2 ^ 63;
  sf_header : exists header, slice f 28 32 = Some header /\ be_val header = len f / PAGE_SIZE;
  sf_count : sql_page_count f = Ok (len f / PAGE_SIZE);
  sf_page_size : forall n, sql_pragma f "page_size" = Ok n -> sql_page_size f = Ok n;
  sf_meta : forall meta, sql_otmp_meta f = Ok meta -> sql_meta f = Ok (mr_table_id meta, mr_table_version meta) }.

Context (Hpin : pinned) (Hfile : sqlite_file) (Hmod : len f mod PAGE_SIZE = 0).

Lemma whole_pages : len f = len f / PAGE_SIZE * PAGE_SIZE /\ 0 < len f / PAGE_SIZE /\ is_u64 (len f / PAGE_SIZE).
Proof.
  pose proof (sf_length Hfile). pose proof (Z.div_mod (len f) PAGE_SIZE ltac:(done)). unfold is_uint, PAGE_SIZE in *. lia.
Qed.

(** A generation over a checkpoint of its own. *)
Lemma full_resolves checkpoint_id commit_uri commit_bytes generation_id parts meta :
  full_image (sc_table_version commit) checkpoint_id f = Ok parts ->
  sql_pragma f "page_size" = Ok PAGE_SIZE -> sql_otmp_meta f = Ok meta ->
  mr_table_id meta = id_bytes (h_table_id (pt_head parent)) -> mr_table_version meta = sc_table_version commit ->
  holds read' (ip_artifacts parts) -> (forall a, a ∈ ip_artifacts parts -> known (a_bytes a)) ->
  let g := new_generation parent commit commit_uri commit_bytes generation_id (len f / PAGE_SIZE) parts in
  validate_generation g = Ok tt /\
  resolve_generation read' g = Ok {| rg_checkpoint := f; rg_bytes := f; rg_tree := None |}.
Proof.
  intros E Hps Hmeta Hid Hver Hheld Hknown g. destruct whole_pages as (Hf & Hn & Hn64). destruct (sf_length Hfile) as [Hpos Hlt].
  unfold full_image in E. apply bind_ok in E as (uri & _ & E). apply bind_ok in E as ([index arts] & Hb & [= <-]).
  cbn [ip_artifacts ip_checkpoint ip_page_map ip_page_index] in *. set (base := Build_Checkpoint _ _ _ _) in *.
  destruct (build_indexes base PAGE_SIZE (len f / PAGE_SIZE) f) as (t & h & arts' & Hidx & Hb'); try done.
  rewrite Hb in Hb'. injection Hb' as -> <-.
  assert (validate_page_index (index_of base PAGE_SIZE (len f / PAGE_SIZE) t h) base PAGE_SIZE = Ok tt) as Hvalid
    by (by eapply index_valid).
  assert (MkArtifact uri f ∈ arts ++ [MkArtifact uri f]) as Hlast by (apply elem_of_app; right; by left).
  split.
  { unfold validate_generation.
    replace (g_table_version g <? ck_table_version (mi_checkpoint (g_metadata_image g))) with false by (symmetry; apply Z.ltb_irrefl).
    replace (ck_table_version (mi_checkpoint (g_metadata_image g)) =? g_table_version g) with true by (symmetry; apply Z.eqb_refl).
    etransitivity; [|exact Hvalid]. reflexivity. }
  apply resolve_complete; [vm_compute; split; done|done|]. constructor; cbn [g new_generation g_metadata_image mi_checkpoint
    mi_page_size mi_page_count mi_page_map ip_checkpoint ip_page_map rg_checkpoint rg_bytes rg_tree g_table_id g_table_version
    mi_image_root_sha256 image_entries].
  - exact (Hheld _ CHECKPOINT_MEDIA_TYPE Hlast).
  - split; [unfold PAGE_SIZE in *; lia|]. split; [done|apply (sf_magic Hfile)].
  - eapply (indexes_verify base PAGE_SIZE f (len f / PAGE_SIZE) t h arts); try done.
    + intros a Ha. apply Hheld, elem_of_app. by left.
    + intros a a' Ha Ha'. apply Hno; apply Hknown, elem_of_app; by left.
  - split; [|split].
    + cbn. rewrite (sf_meta Hfile _ Hmeta), Hid, Hver. done.
    + by apply (sf_page_size Hfile).
    + apply (sf_count Hfile).
  - done.
  - done.
  - split; [done|]. lia.
  - done.
  - done.
  - by intros x y Hx%not_elem_of_nil.
  - done.
  - apply (sf_header Hfile).
Qed.

(** A generation that keeps the parent's checkpoint under a new map. *)
Lemma incremental_resolves commit_uri commit_bytes generation_id changed img :
  changed_pages (resolved parent) f changed -> persist (page_tree parent) changed (len f / PAGE_SIZE) = Some (Ok img) ->
  is_Some (i_root img) -> holds read' (i_artifacts img) -> (forall a, a ∈ i_artifacts img -> known (a_bytes a)) ->
  (forall chunk, chunk ∈ chunks pack_capacity changed -> known (pack_bytes PAGE_SIZE chunk)) ->
  (forall r, i_root img = Some r -> root_height r <= 64) ->
  (forall x b, x ∈ image_subtrees (persisted_tree (page_tree parent) changed (len f / PAGE_SIZE)) -> encode_page_map (t_node x) = Ok b -> known b) ->
  let parts := {| ip_checkpoint := mi_checkpoint (g_metadata_image gp); ip_page_map := i_root img;
                  ip_page_index := mi_checkpoint_page_index (g_metadata_image gp); ip_artifacts := i_artifacts img |} in
  let g := new_generation parent commit commit_uri commit_bytes generation_id (len f / PAGE_SIZE) parts in
  validate_generation g = Ok tt /\
  resolve_generation read' g =
    Ok {| rg_checkpoint := rg_checkpoint rp; rg_bytes := f; rg_tree := persisted_tree (page_tree parent) changed (len f / PAGE_SIZE) |}.
Proof.
  intros Hch E Hsome Hheld Hknown Hpack Hheight Hnodes parts g. destruct (sf_length Hfile) as [Hpos Hlt].
  destruct (sf_header Hfile) as (header & Hh & Hv). pose proof (pn_runtime Hpin) as (Hps & _). split.
  { pose proof (pn_valid Hpin) as Hvalid. unfold validate_generation in Hvalid. apply bind_reject in Hvalid as [Hc Hvalid].
    bool_to_prop. pose proof (pn_version Hpin). destruct Hsome as [root Hroot].
    unfold validate_generation.
    replace (g_table_version g <? ck_table_version (mi_checkpoint (g_metadata_image g))) with false by (symmetry; cbn; lia).
    replace (mi_page_map (g_metadata_image g)) with (Some root) by (symmetry; exact Hroot).
    rewrite Hps in Hvalid. etransitivity; [|exact Hvalid]. reflexivity. }
  rewrite (pn_tree Hpin) in *. eapply (persist_resolves known read read' gp g rp f header changed img); try done.
  - apply (pn_runtime Hpin).
  - apply (pn_resolves Hpin).
  - apply (pn_map Hpin).
  - by rewrite <- (pn_bytes Hpin).
  - lia.
  - split_and!; try done. by rewrite (pn_table Hpin).
Qed.
End resolves.

(** ** Properties *)

(** C8: a candidate publishes exactly the image the engine wrote. Whatever sequence
    of storage calls the engine made over the parent's image, when
    [finish_candidate] succeeds and its artifacts are stored next to the parent's
    objects, and no two of the byte strings involved - the artifacts, the packs and
    the nodes of the tree that is persisted - have the same digest, the generation it
    encodes is valid and resolves to the file those calls leave, whether the image
    became a checkpoint of its own or the persisted page tree over the parent's
    checkpoint; and the head it encodes names that generation by the digest of its
    bytes, one revision after the parent's. *)
Theorem candidate_resolves `{HexCrate, Sha2Crate, ImageCrates, SerdeJson, ImageSql, TursoCrate}
    `{ToJson cvalue, FromJson Schema.Schema, ToJson FeatureSet, ToJson Generation, ToJson Head} {R : Type}
    (validate_history : bytes -> MetaRow -> ExpectedImage -> rresult unit)
    (validate_commit_projection : bytes -> SemanticCommit -> rresult unit)
    (known : bytes -> Prop) (read read' : ObjectReference -> rresult bytes) (checkpoint_id generation_id : Id)
    (parent : PinnedTable) (rp : ResolvedGeneration) (commit : SemanticCommit) (commit_uri : RelativeUri) (commit_bytes : bytes)
    (ops : list Op) (frozen : FrozenImage) (result : R) (c : Candidate R) :
  let f := (flat_steps (resolved parent) ops).1 in
  let checkpoint := finish_turso frozen in
  forall (Hops : Forall op_ok ops) (Hfrozen : freeze (steps (overlay_new (resolved parent)) ops).1 = Ok frozen)
    (E : finish_candidate validate_history validate_commit_projection checkpoint_id generation_id parent commit commit_uri
           commit_bytes checkpoint result = Ok c)
    (Hno : forall a b, known a -> known b -> digest a = digest b -> a = b)
    (Hpin : pinned read parent rp commit) (Hfile : sqlite_file f) (Hext : extends read read')
    (Hheld : holds read' (c_image_artifacts c)) (Hknown : forall a, a ∈ c_image_artifacts c -> known (a_bytes a))
    (Hpack : forall chunk, chunk ∈ chunks pack_capacity (cp_changed_pages checkpoint) -> known (pack_bytes PAGE_SIZE chunk))
    (Hheight : forall img r, persist (page_tree parent) (cp_changed_pages checkpoint) (cp_page_count checkpoint) = Some (Ok img) ->
       i_root img = Some r -> root_height r <= 64)
    (Hnodes : forall x b, x ∈ image_subtrees (persisted_tree (page_tree parent) (cp_changed_pages checkpoint) (cp_page_count checkpoint)) ->
       encode_page_map (t_node x) = Ok b -> known b),
  exists g head, to_vec g = Ok (c_generation_bytes c) /\ validate_generation g = Ok tt /\
    to_vec head = Ok (c_head_bytes c) /\ or_sha256 (h_metadata_generation head) = digest (c_generation_bytes c) /\
    h_table_version head = sc_table_version commit /\ h_root_revision head = h_root_revision (pt_head parent) + 1 /\
    exists base tree, resolve_generation read' g = Ok {| rg_checkpoint := base; rg_bytes := f; rg_tree := tree |} /\
      (base = f /\ tree = None \/
       base = rg_checkpoint rp /\ tree = persisted_tree (page_tree parent) (cp_changed_pages checkpoint) (cp_page_count checkpoint)).
Proof.
  intros f checkpoint Hops Hfrozen E Hno Hpin Hfile Hext Hheld Hknown Hpack Hheight Hnodes.
  destruct (finish_turso_ok _ _ _ Hops Hfrozen) as (Hmod & Hb & Hcount & Hch). fold checkpoint f in Hb, Hcount, Hch, Hmod.
  apply finish_candidate_ok in E as (img & parts & rev & [(Hps & meta & Hmeta & Hid & Hver) Hper Hparts Harts Hg Hrev Hh]).
  rewrite Hb in *. rewrite Hcount in *. rewrite Harts in *.
  set (g := new_generation parent commit commit_uri commit_bytes generation_id (len f / PAGE_SIZE) parts) in *.
  assert (validate_generation g = Ok tt /\ exists base tree,
    resolve_generation read' g = Ok {| rg_checkpoint := base; rg_bytes := f; rg_tree := tree |} /\
    (base = f /\ tree = None \/
     base = rg_checkpoint rp /\ tree = persisted_tree (page_tree parent) (cp_changed_pages checkpoint) (len f / PAGE_SIZE))) as [Hvalid Hres].
  { unfold choose_image in Hparts. destruct (bool_decide (i_root img = None) || _) eqn:Echoice.
    - destruct (full_resolves known Hno read' parent commit f Hfile Hmod checkpoint_id commit_uri commit_bytes
        generation_id parts meta) as [Hv Hr]; try done. split; [exact Hv|]. exists f, None. split; [exact Hr|by left].
    - injection Hparts as <-. cbn [ip_artifacts] in *. apply orb_false_iff in Echoice as [Hsome _]. apply bool_decide_eq_false_1 in Hsome.
      destruct (incremental_resolves known Hno read read' Hext parent rp commit f Hpin Hfile Hmod commit_uri commit_bytes
        generation_id (cp_changed_pages checkpoint) img) as (Hv & Hr); try done.
      + by destruct (i_root img).
      + intros r. by apply Hheight.
      + split; [exact Hv|]. do 2 eexists. split; [exact Hr|by right]. }
  eexists g, _. split; [exact Hg|]. split; [done|]. split; [exact Hh|]. done.
Qed.

(** ** Example *)

#[local] Instance example_hex : HexCrate := hex_reference.
#[local] Instance example_sha2 : Sha2Crate := sha2_reference.
#[local] Instance example_turso : TursoCrate := turso_reference.
#[local] Instance example_serde : SerdeJson := json_reference (as_bytes "null") JUnit.
#[local] Instance example_from_json : FromJson Schema.Schema := {| serde_from_slice _ := Err "not parsed" |}.
#[local] Instance example_to_json T : ToJson T := {| serde_to_vec _ := Ok (as_bytes "null") |}.

(** The table version of an example image is its page count. *)
Definition example_version (b : bytes) : Z := be_val (range 28 32 b).
#[local] Instance example_crates : ImageCrates :=
  {| sql_meta b := Ok (id_bytes small_table, example_version b); sql_page_size _ := Ok PAGE_SIZE;
     sql_page_count b := Ok (len b / PAGE_SIZE); zstd_decompress b _ := Ok b |}.
#[local] Instance example_sql : ImageSql :=
  {| sql_integrity_check _ := Ok "ok"; sql_foreign_key_errors _ := Ok 0;
     sql_pragma _ name := Ok (if String.eqb name "application_id" then APPLICATION_ID
                              else if String.eqb name "user_version" then USER_VERSION else PAGE_SIZE);
     sql_otmp_meta b := Ok {| mr_protocol := "otmp"; mr_protocol_version := "0.0.2-alpha"; mr_table_id := id_bytes small_table;
       mr_table_version := example_version b; mr_semantic_state := []; mr_last_commit_id := [];
       mr_last_commit_hash := sha_bytes (digest (as_bytes "commit")); mr_last_sequence_number := 0; mr_current_schema_id := 1;
       mr_default_partition_spec_id := 0; mr_default_sort_order_id := 0; mr_reader_features_json := "null";
       mr_writer_features_json := "null" |};
     sql_state_of_commit _ _ := Ok (repeat Byte.x00 32) |}.

Definition small_commit : SemanticCommit :=
  let c := example_commit example_drop in
  {| sc_kind := sc_kind c; sc_format_version := 1; sc_table_id := small_table; sc_table_version := 2;
     sc_parent_table_version := Some 1; sc_commit_id := sc_commit_id c; sc_parent_commit := sc_parent_commit c;
     sc_created_at_ms := 0; sc_intents := sc_intents c; sc_requirements := sc_requirements c; sc_operations := sc_operations c;
     sc_required_reader_features_after_commit := MkFeatures []; sc_required_writer_features_after_commit := MkFeatures [];
     sc_previous_semantic_state_sha256 := None; sc_semantic_state_sha256 := sc_semantic_state_sha256 c; sc_metadata := sc_metadata c |}.
Definition small_table_pinned : PinnedTable :=
  let h := example_head in
  {| raw_head := []; head_version := version_of [];
     pt_head := {| h_protocol := PROTOCOL; h_protocol_version := PROTOCOL_VERSION; h_table_id := small_table; h_table_version := 1;
       h_root_revision := 4; h_semantic_state_sha256 := h_semantic_state_sha256 h; h_semantic_commit := h_semantic_commit h;
       h_metadata_generation := h_metadata_generation h; h_required_reader_features := MkFeatures [];
       h_required_writer_features := MkFeatures [] |};
     pt_commit := example_commit example_drop; pt_generation := small_generation 1 None 1; current_main := None; page_tree := None;
     resolved := small_page 1 |}.

(** The engine rewrites the first page and appends a second. *)
Definition small_ops : list Op := [WritePage 1 (small_page 2); WritePage 2 (repeat Byte.x62 4096)].
Definition small_frozen : FrozenImage :=
  ok_default (MkFrozen [] 0 []) (freeze (steps (overlay_new (small_page 1)) small_ops).1).
Definition small_finish : fresult (Candidate unit) :=
  finish_candidate (fun _ _ _ => Ok tt) (fun _ _ => Ok tt) small_table small_table small_table_pinned small_commit
    (MkUri "_otmp/commits/2/a.json") (as_bytes "commit") (finish_turso small_frozen) tt.
Definition small_candidate : Candidate unit :=
  ok_default (MkCandidate (MkSha256 []) (MkUri "") [] [] (MkUri "") [] [] tt) small_finish.
Definition candidate_store : list (string * bytes) :=
  small_before ++ map (fun a => (uri_str (a_uri a), a_bytes a)) (c_image_artifacts small_candidate).
#[local] Notation candidate_tree :=
  (persisted_tree (page_tree small_table_pinned) (cp_changed_pages (finish_turso small_frozen)) (cp_page_count (finish_turso small_frozen))).
Definition candidate_known : list bytes :=
  map (fun chunk => pack_bytes PAGE_SIZE chunk) (chunks pack_capacity (cp_changed_pages (finish_turso small_frozen)))
  ++ map a_bytes (c_image_artifacts small_candidate) ++ node_bytes candidate_tree.

Lemma small_finished : small_finish = Ok small_candidate.
Proof. vm_compute. reflexivity. Qed.
Lemma small_frozen_ok : freeze (steps (overlay_new (small_page 1)) small_ops).1 = Ok small_frozen.
Proof. vm_compute. reflexivity. Qed.
Lemma small_ops_ok : Forall op_ok small_ops.
Proof. repeat constructor; cbn; lia. Qed.
Lemma small_file : (flat_steps (small_page 1) small_ops).1 = small_bytes.
Proof. vm_compute. reflexivity. Qed.
Lemma candidate_distinct : forall a b, a ∈ candidate_known -> b ∈ candidate_known -> digest a = digest b -> a = b.
Proof. apply distinct_digests_inj. apply (bool_decide_eq_true_1 _). vm_compute. reflexivity. Qed.
Lemma candidate_nodes_known : Forall (fun b => b ∈ candidate_known) (node_bytes candidate_tree).
Proof. apply Forall_forall. intros b Hb. apply elem_of_app. right. apply elem_of_app. right. exact Hb. Qed.
Lemma candidate_holds : holds (store_read candidate_store) (c_image_artifacts small_candidate).
Proof. apply store_holds. vm_compute. reflexivity. Qed.

Lemma small_pinned : pinned (store_read small_before) small_table_pinned
  {| rg_checkpoint := small_page 1; rg_bytes := small_page 1; rg_tree := None |} small_commit.
Proof.
  constructor.
  - apply small_runtime; vm_compute; split; done.
  - vm_compute. reflexivity.
  - vm_compute. reflexivity.
  - done.
  - done.
  - done.
  - done.
  - vm_compute. split; done.
  - by intros r ?.
Qed.

Lemma small_sqlite_file : sqlite_file small_bytes.
Proof.
  constructor.
  - vm_compute. reflexivity.
  - vm_compute. done.
  - exists (be_bytes 4 2). split; vm_compute; reflexivity.
  - reflexivity.
  - done.
  - intros meta [= <-]. done.
Qed.

Lemma candidate_resolves_witness :
  exists g head, to_vec g = Ok (c_generation_bytes small_candidate) /\ validate_generation g = Ok tt /\
    to_vec head = Ok (c_head_bytes small_candidate) /\
    or_sha256 (h_metadata_generation head) = digest (c_generation_bytes small_candidate) /\
    h_table_version head = 2 /\ h_root_revision head = 5 /\
    exists base tree, resolve_generation (store_read candidate_store) g = Ok {| rg_checkpoint := base; rg_bytes := small_bytes; rg_tree := tree |} /\
      (base = small_bytes /\ tree = None \/ base = small_page 1 /\ tree = candidate_tree).
Proof.
  rewrite <- small_file.
  refine (candidate_resolves (fun _ _ _ => Ok tt) (fun _ _ => Ok tt) (fun b => b ∈ candidate_known) (store_read small_before)
    (store_read candidate_store) small_table small_table small_table_pinned
    {| rg_checkpoint := small_page 1; rg_bytes := small_page 1; rg_tree := None |} small_commit (MkUri "_otmp/commits/2/a.json")
    (as_bytes "commit") small_ops small_frozen tt small_candidate small_ops_ok small_frozen_ok small_finished candidate_distinct
    small_pinned _ _ candidate_holds _ _ _ _).
  - change (sqlite_file (flat_steps (small_page 1) small_ops).1). rewrite small_file. exact small_sqlite_file.
  - exact (store_read_extends small_before _ candidate_store eq_refl).
  - intros a Ha. apply elem_of_app. right. apply elem_of_app. left. by apply list_elem_of_fmap_2.
  - intros chunk Hc. apply elem_of_app. left. by apply (list_elem_of_fmap_2 (fun chunk => pack_bytes PAGE_SIZE chunk)).
  - intros img r Hp Hr. assert (from_option (from_option root_height 0) 0 (i_root <$> (m ← persist None
      (cp_changed_pages (finish_turso small_frozen)) (cp_page_count (finish_turso small_frozen));
      match m with Ok i => Some i | Err _ => None end)) = 0) as Hz by (vm_compute; reflexivity).
    change (page_tree small_table_pinned) with (@None Tree) in Hp. rewrite Hp in Hz. cbn in Hz. rewrite Hr in Hz. cbn in Hz. lia.
  - exact (nodes_known_ok _ _ candidate_nodes_known).
Defined.
