(* ===== verification/FooterBounds.v ===== *)
(** Bounds of the containers of a Parquet footer
    (otmp-datafusion/src/footer_bounds.rs): the walk over compact Thrift that
    runs before the native decoder, and the grammar it accepts. *)
From S2P Require Import Prelude Bytes.

(** [ParquetError::General]: the one refusal; or a panic of the arithmetic. *)
Inductive bounds_fault := Invalid | BoundsPanic.
Notation bresult := (result bounds_fault).

Record Input := MkInput { in_bytes : bytes; in_at : Z }.

Definition input_byte (i : Input) : bresult (Z * Input) :=
  value ← ok_or (in_bytes i !! Z.to_nat (in_at i)) Invalid;
  next ← ok_or (checked_add 64 (in_at i) 1) BoundsPanic;
  Ok (byte_to_Z value, MkInput (in_bytes i) next).

Definition skip (count : Z) (i : Input) : bresult Input :=
  next ← ok_or (checked_add 64 (in_at i) count) Invalid;
  _ ← reject (negb (next <=? len (in_bytes i))) Invalid;
  Ok (MkInput (in_bytes i) next).

(** The rounds of [for shift in (0..70).step_by(7)] from [shift] on. *)
Fixpoint integer_loop (rounds : nat) (shift value : Z) (i : Input) : bresult (Z * Input) :=
  match rounds with
  | O => Err Invalid
  | S rounds =>
    '(byte, i) ← input_byte i;
    _ ← reject ((shift =? 63) && (1 <? byte)) Invalid;
    let value := Z.lor value (Z.shiftl (Z.land byte 127) shift) in
    if byte <? 128 then Ok (value, i) else integer_loop rounds (shift + 7) value i
  end.
Definition integer (i : Input) : bresult (Z * Input) := integer_loop 10 0 0 i.

Definition count (n : Z) (i : Input) : bresult Z :=
  n ← ok_or (try_uint 64 n) Invalid;
  room ← ok_or (checked_sub 64 (len (in_bytes i)) (in_at i)) BoundsPanic;
  _ ← reject (room <? n) Invalid;
  Ok n.

(** [for _ in 0..n { f()?; }] *)
Fixpoint times (n : nat) (f : Input -> bresult Input) (i : Input) : bresult Input :=
  match n with
  | O => Ok i
  | S n => i ← f i; times n f i
  end.

(** The loop over the fields of a struct; a round reads a byte, so the bytes that
    are left bound the rounds. *)
Fixpoint fields (fuel : nat) (f : Z -> Input -> bresult Input) (i : Input) : bresult Input :=
  match fuel with
  | O => Err Invalid
  | S fuel =>
    '(header, i) ← input_byte i;
    if header =? 0 then Ok i else
    i ← (if Z.shiftr header 4 =? 0 then '(_, i) ← integer i; Ok i else Ok i);
    i ← f (Z.land header 15) i;
    fields fuel f i
  end.

Definition bytes_left (i : Input) : nat := Z.to_nat (len (in_bytes i) - in_at i).

(** [room] is 65 less the depth: no room, too deep. *)
Fixpoint value (room : nat) (kind : Z) (field : bool) (i : Input) : bresult Input :=
  match room with
  | O => Err Invalid
  | S room =>
    match kind with
    | 1 | 2 =>
      if field then Ok i else
      '(b, i) ← input_byte i;
      _ ← reject (negb ((b =? 1) || (b =? 2))) Invalid;
      Ok i
    | 3 => skip 1 i
    | 4 | 5 | 6 => '(_, i) ← integer i; Ok i
    | 7 => skip 8 i
    | 8 => '(length, i) ← integer i; length ← count length i; skip length i
    | 9 | 10 =>
      '(header, i) ← input_byte i;
      '(n, i) ← (if Z.shiftr header 4 =? 15 then integer i else Ok (Z.shiftr header 4, i));
      n ← count n i;
      times (Z.to_nat n) (value room (Z.land header 15) false) i
    | 11 =>
      '(n, i) ← integer i;
      if n =? 0 then Ok i else
      '(kinds, i) ← input_byte i;
      twice ← ok_or (checked_mul 64 n 2) Invalid;
      n ← count twice i;
      times (Z.to_nat (n / 2)) (fun i => i ← value room (Z.shiftr kinds 4) false i; value room (Z.land kinds 15) false i) i
    | 12 => fields (S (bytes_left i)) (fun kind => value room kind true) i
    | 13 => skip 16 i
    | _ => Err Invalid
    end
  end.

Definition validate (b : bytes) : bresult unit :=
  i ← value 65 12 true (MkInput b 0);
  reject (negb (in_at i =? len b)) Invalid.

(** ** The grammar *)

(** A number: seven bits a byte, low bits first, the last byte below 128; of ten
    bytes the last is at most 1. *)
Definition number_value (b : bytes) : Z :=
  foldr (fun x v => Z.land (byte_to_Z x) 127 + 128 * v) 0 b.
Definition number (b : bytes) (n : Z) : Prop :=
  exists more last, b = more ++ [last] /\ Forall (fun x => 128 <= byte_to_Z x) more /\ byte_to_Z last < 128 /\
    (len b <= 9 \/ len b = 10 /\ byte_to_Z last <= 1) /\ n = number_value b.

(** [encoded room kind field b]: [b] is a value of the type [kind] whose nesting
    is less than [room], as a field of a struct or as an element. *)
Inductive encoded : nat -> Z -> bool -> bytes -> Prop :=
| enc_inline room kind : kind = 1 \/ kind = 2 -> encoded (S room) kind true []
| enc_bool room kind x : kind = 1 \/ kind = 2 -> byte_to_Z x = 1 \/ byte_to_Z x = 2 -> encoded (S room) kind false [x]
| enc_byte room field x : encoded (S room) 3 field [x]
| enc_number room kind field b n : 4 <= kind <= 6 -> number b n -> encoded (S room) kind field b
| enc_double room field b : len b = 8 -> encoded (S room) 7 field b
| enc_binary room field l b : number l (len b) -> encoded (S room) 8 field (l ++ b)
| enc_list room kind field x b : kind = 9 \/ kind = 10 -> Z.shiftr (byte_to_Z x) 4 <> 15 ->
    elements room (repeat (Z.land (byte_to_Z x) 15) (Z.to_nat (Z.shiftr (byte_to_Z x) 4))) b ->
    encoded (S room) kind field (x :: b)
| enc_long_list room kind field x l n b : kind = 9 \/ kind = 10 -> Z.shiftr (byte_to_Z x) 4 = 15 -> number l n ->
    elements room (repeat (Z.land (byte_to_Z x) 15) (Z.to_nat n)) b ->
    encoded (S room) kind field (x :: l ++ b)
| enc_empty_map room field l : number l 0 -> encoded (S room) 11 field l
| enc_map room field l n x b : number l n -> n <> 0 ->
    elements room (concat (repeat [Z.shiftr (byte_to_Z x) 4; Z.land (byte_to_Z x) 15] (Z.to_nat n))) b ->
    encoded (S room) 11 field (l ++ x :: b)
| enc_struct room field b : members room b -> encoded (S room) 12 field b
| enc_uuid room field b : len b = 16 -> encoded (S room) 13 field b
with elements : nat -> list Z -> bytes -> Prop :=
| els_nil room : elements room [] []
| els_cons room kind kinds b c : encoded room kind false b -> elements room kinds c -> elements room (kind :: kinds) (b ++ c)
with members : nat -> bytes -> Prop :=
| mem_stop room : members room [Byte.x00]
| mem_short room x b c : byte_to_Z x <> 0 -> Z.shiftr (byte_to_Z x) 4 <> 0 -> encoded room (Z.land (byte_to_Z x) 15) true b ->
    members room c -> members room (x :: b ++ c)
| mem_long room x l n b c : byte_to_Z x <> 0 -> Z.shiftr (byte_to_Z x) 4 = 0 -> number l n ->
    encoded room (Z.land (byte_to_Z x) 15) true b -> members room c -> members room (x :: l ++ b ++ c).

Scheme encoded_mind := Induction for encoded Sort Prop
with elements_mind := Induction for elements Sort Prop
with members_mind := Induction for members Sort Prop.
Combined Scheme grammar_ind from encoded_mind, elements_mind, members_mind.

(** ** Reading a prefix *)

Definition at_ (p s : bytes) : Input := MkInput (p ++ s) (len p).

(** [f] reads exactly what [G] describes, and never panics. *)
Definition reads {A} (f : Input -> bresult (A * Input)) (G : bytes -> A -> Prop) : Prop :=
  forall p s, is_usize (len (p ++ s)) -> f (at_ p s) <> Err BoundsPanic /\
  forall a i, f (at_ p s) = Ok (a, i) <-> exists b s', s = b ++ s' /\ G b a /\ i = at_ (p ++ b) s'.
Definition passes (f : Input -> bresult Input) (G : bytes -> Prop) : Prop :=
  forall p s, is_usize (len (p ++ s)) -> f (at_ p s) <> Err BoundsPanic /\
  forall i, f (at_ p s) = Ok i <-> exists b s', s = b ++ s' /\ G b /\ i = at_ (p ++ b) s'.

Lemma fits_app (p b s : bytes) : is_usize (len (p ++ b ++ s)) -> is_usize (len ((p ++ b) ++ s)).
Proof. by rewrite app_assoc. Qed.

Lemma passes_iff f (G G' : bytes -> Prop) : passes f G -> (forall b, G b <-> G' b) -> passes f G'.
Proof. intros Hf HG p s Hl. destruct (Hf p s Hl) as [Hn Hi]. split; [done|]. intros i. rewrite Hi. naive_solver. Qed.

Lemma passes_none (G : bytes -> Prop) : (forall b, ~ G b) -> passes (fun _ => Err Invalid) G.
Proof. intros HG p s Hl. split; [done|]. naive_solver. Qed.

Lemma passes_done : passes Ok (fun b => b = []).
Proof.
  intros p s Hl. split; [done|]. intros i. split.
  - intros [= <-]. exists [], s. by rewrite app_nil_r.
  - intros (b & s' & -> & -> & ->). by rewrite app_nil_r.
Qed.

Lemma reads_then {A} f (G : bytes -> A -> Prop) g (K : A -> bytes -> Prop) : reads f G -> (forall a b, G b a -> passes (g a) (K a)) ->
  passes (fun i => '(a, i) ← f i; g a i) (fun b => exists b1 b2 a, b = b1 ++ b2 /\ G b1 a /\ K a b2).
Proof.
  intros Hf Hg p s Hl. destruct (Hf p s Hl) as [Hn Hi]. destruct (f (at_ p s)) as [[a i1]|e] eqn:Ef; cbn [mbind result_bind].
  - destruct (proj1 (Hi a i1) eq_refl) as (b1 & s1 & -> & HG & ->). destruct (Hg a b1 HG (p ++ b1) s1) as [Hn' Hi']; [by apply fits_app|].
    split; [done|]. intros i. rewrite Hi'. split.
    + intros (b2 & s' & -> & HK & ->). exists (b1 ++ b2), s'. rewrite !app_assoc. naive_solver.
    + intros (b & s' & Es & (c1 & c2 & a' & -> & HG' & HK) & ->). rewrite <- app_assoc in Es.
      assert (Ok (a, at_ (p ++ b1) s1) = Ok (a', at_ (p ++ c1) (c2 ++ s')) :> bresult (A * Input)) as [= <- E1 E2].
      { apply Hi. exists c1, (c2 ++ s'). done. }
      assert (length b1 = length c1) as El by (rewrite !len_app in E2; unfold len in E2; lia).
      apply app_inj_1 in Es as [-> ->]; [|done]. exists c2, s'. by rewrite app_assoc.
  - split; [by intros [= ->]|]. intros i. split; [done|]. intros (b & s' & -> & (c1 & c2 & a' & -> & HG' & HK) & ->).
    rewrite <- app_assoc in Hi. discriminate (proj2 (Hi a' (at_ (p ++ c1) (c2 ++ s')))). naive_solver.
Qed.

Lemma passes_then f (G : bytes -> Prop) g (K : bytes -> Prop) : passes f G -> passes g K ->
  passes (fun i => i ← f i; g i) (fun b => exists b1 b2, b = b1 ++ b2 /\ G b1 /\ K b2).
Proof.
  intros Hf Hg. assert (reads (fun i => i ← f i; Ok (tt, i)) (fun b _ => G b)) as Hr.
  { intros p s Hl. destruct (Hf p s Hl) as [Hn Hi]. split; [by destruct (f _); cbn; [|intros [= ->]]|]. intros [] i. rewrite <- Hi.
    destruct (f _); cbn; naive_solver. }
  pose proof (reads_then _ _ (fun _ => g) (fun _ => K) Hr (fun _ _ _ => Hg)) as Ht. intros p s Hl. destruct (Ht p s Hl) as [Hn Hi].
  cbn beta in Hn, Hi. assert ((('(_, i) ← (i ← f (at_ p s); Ok (tt, i)); g i) : bresult Input) = (i ← f (at_ p s); g i)) as E.
  { by destruct (f _). }
  rewrite E in Hn, Hi. split; [done|]. intros i. rewrite Hi. naive_solver.
Qed.

Lemma byte_reads : reads input_byte (fun b v => exists x, b = [x] /\ v = byte_to_Z x).
Proof.
  intros p s Hl. unfold input_byte, at_. cbn [in_bytes in_at].
  replace (Z.to_nat (len p)) with (length p) by (unfold len; lia). destruct s as [|x s].
  - rewrite app_nil_r, lookup_ge_None_2 by lia. split; [done|]. intros a i. split; [done|].
    intros (b & s' & E & (x & -> & _) & _). discriminate E.
  - rewrite list_lookup_middle by done. cbn [ok_or mbind result_bind]. rewrite len_app, len_cons in Hl. unfold is_uint in Hl.
    pose proof (len_nonneg s). pose proof (len_nonneg p). unfold checked_add. rewrite try_uint_id by (unfold is_uint, len in *; lia).
    cbn [ok_or mbind result_bind]. assert (MkInput (p ++ x :: s) (len p + 1) = at_ (p ++ [x]) s) as ->.
    { unfold at_. f_equal; [by rewrite <- app_assoc|]. rewrite len_app. done. }
    split; [done|]. intros a i. split; [intros [= <- <-]; exists [x], s; naive_solver|].
    by intros (b & s' & E & (y & -> & ->) & ->); injection E as <- <-.
Qed.

Lemma skip_passes n : 0 <= n -> passes (skip n) (fun b => len b = n).
Proof.
  intros Hn p s Hl. unfold skip, at_. cbn [in_bytes in_at]. split.
  { destruct (checked_add _ _ _); cbn; [|done]. by destruct (negb _). }
  unfold is_uint in Hl. pose proof (len_nonneg p). intros i. split.
  - intros E. apply bind_ok in E as (z & Hz & E). apply ok_or_ok, try_uint_some in Hz as [-> Hz].
    apply bind_reject in E as [Hle [= <-]]. bool_to_prop. rewrite len_app in *.
    exists (take (Z.to_nat n) s), (drop (Z.to_nat n) s). rewrite <- app_assoc, take_drop. split; [done|].
    rewrite len_app. unfold len in *. rewrite length_take, Nat.min_l by lia. rewrite Z2Nat.id by lia. done.
  - intros (b & s' & -> & <- & ->). rewrite !len_app in Hl. pose proof (len_nonneg s'). pose proof (len_nonneg b).
    unfold checked_add. rewrite try_uint_id by (unfold is_uint; lia).
    cbn [ok_or mbind result_bind]. rewrite !len_app. replace (_ <=? _) with true by lia. cbn.
    by rewrite app_assoc.
Qed.

(** [count]: the number must not exceed the bytes that are left. *)
Lemma count_then n (f : Z -> Input -> bresult Input) (G : bytes -> Prop) : is_u64 n -> passes (f n) G ->
  (forall b, G b -> n <= len b) -> passes (fun i => n ← count n i; f n i) G.
Proof.
  intros Hn Hf HG p s Hl. destruct (Hf p s Hl) as [Hp Hi]. unfold count, at_. cbn [in_bytes in_at].
  rewrite try_uint_id by done. cbn [ok_or mbind result_bind]. rewrite len_app in *. unfold is_uint in *.
  pose proof (len_nonneg p). pose proof (len_nonneg s). unfold checked_sub. rewrite try_uint_id by (unfold is_uint; lia).
  cbn [ok_or mbind result_bind]. destruct (Z.ltb_spec (len p + len s - len p) n) as [Hlt|Hge]; cbn [reject mbind result_bind].
  - split; [done|]. intros i. split; [done|]. intros (b & s' & -> & Hb & _). apply HG in Hb. rewrite len_app in Hlt.
    pose proof (len_nonneg s'). lia.
  - done.
Qed.

(** ** Numbers *)

(** The bytes that [rounds] rounds of the loop accept. *)
Definition digits (rounds : nat) (b : bytes) : Prop :=
  exists more last, b = more ++ [last] /\ Forall (fun x => 128 <= byte_to_Z x) more /\ byte_to_Z last < 128 /\
    len b <= Z.of_nat rounds /\ (len b = Z.of_nat rounds -> byte_to_Z last <= 1).

Lemma digits_cons rounds x b : digits (S rounds) (x :: b) <->
  (byte_to_Z x < 128 /\ b = [] /\ (rounds = O -> byte_to_Z x <= 1)) \/ (128 <= byte_to_Z x /\ digits rounds b).
Proof.
  unfold digits. split.
  - intros (more & last & E & Hm & Hl & Hn & H1). destruct more as [|y more].
    + injection E as -> ->. left. split_and!; try done. intros ->. by apply H1.
    + injection E as <- ->. apply Forall_cons in Hm as [Hy Hm]. right. split; [done|]. exists more, last. rewrite len_cons in *.
      split_and!; try done; [lia|]. intros. apply H1. lia.
  - intros [(Hx & -> & H1)|(Hx & more & last & -> & Hm & Hl & Hn & H1)].
    + exists [], x. split_and!; try done; rewrite len_cons, len_nil; [lia|]. intros. apply H1. lia.
    + exists (x :: more), last. rewrite len_cons. split_and!; try done; [by constructor|lia|]. intros. apply H1. lia.
Qed.

Lemma digits_nonempty rounds b : digits rounds b -> 1 <= len b.
Proof. intros (more & last & -> & _). rewrite len_app, len_cons, len_nil. pose proof (len_nonneg more). lia. Qed.

Lemma land_127 z : Z.land z 127 = z mod 128.
Proof. apply (Z.land_ones z 7). lia. Qed.

Lemma integer_loop_reads rounds : forall shift v, (rounds <= 10)%nat -> shift = 70 - 7 * Z.of_nat rounds -> 0 <= v < 2 ^ shift ->
  reads (integer_loop rounds shift v) (fun b n => digits rounds b /\ n = v + 2 ^ shift * number_value b).
Proof.
  induction rounds as [|rounds IH]; intros shift v Hr Hs Hv p s Hl; cbn [integer_loop].
  { split; [done|]. intros a i. split; [done|]. intros (b & s' & _ & [Hd _] & _). pose proof (digits_nonempty _ _ Hd).
    destruct Hd as (? & ? & _ & _ & _ & ? & _). lia. }
  destruct (byte_reads p s Hl) as [Hp Hb]. destruct s as [|x s].
  { assert (input_byte (at_ p []) = Err Invalid) as ->.
    { destruct (input_byte _) as [[a i]|[]] eqn:E; try done. destruct (proj1 (Hb a i) eq_refl) as (b & s' & E' & (y & -> & _) & _). done. }
    split; [done|]. intros a i. split; [done|]. intros (b & s' & E & [Hd _] & _). symmetry in E. apply app_eq_nil in E as [-> _].
    by apply digits_nonempty in Hd. }
  rewrite (proj2 (Hb (byte_to_Z x) (at_ (p ++ [x]) s))) by (exists [x], s; eauto). cbn [mbind result_bind].
  pose proof (byte_to_Z_range x) as Hx. unfold is_uint in Hx. rewrite lor_shift by lia. rewrite land_127.
  destruct ((shift =? 63) && (1 <? byte_to_Z x)) eqn:Erej; cbn [reject mbind result_bind].
  { bool_to_prop. assert (rounds = O) as -> by lia. split; [done|]. intros a i. split; [done|].
    intros (b & s' & E & [Hd _] & _). destruct b as [|y b]; [by apply digits_nonempty in Hd|]. injection E as -> ->.
    apply digits_cons in Hd as [(_ & _ & H1)|(_ & Hd)]; [specialize (H1 eq_refl); lia|]. pose proof (digits_nonempty _ _ Hd).
    destruct Hd as (? & ? & _ & _ & _ & ? & _). lia. }
  assert (rounds = O -> byte_to_Z x <= 1) as H1 by (intros ->; apply andb_false_iff in Erej as [?|?]; lia).
  destruct (Z.ltb_spec (byte_to_Z x) 128) as [Hlt|Hge].
  - rewrite Z.mod_small by lia. split; [done|]. intros a i. split.
    + intros [= <- <-]. exists [x], s. split; [done|]. split; [|done]. split; [apply digits_cons; naive_solver|].
      cbn [number_value foldr]. rewrite land_127, Z.mod_small by lia. lia.
    + intros (b & s' & E & [Hd ->] & ->). destruct b as [|y b]; [by apply digits_nonempty in Hd|]. injection E as <- ->.
      apply digits_cons in Hd as [(_ & -> & _)|(? & _)]; [|lia]. cbn [number_value foldr]. rewrite land_127, Z.mod_small by lia.
      repeat f_equal; lia.
  - destruct (IH (shift + 7) (v + 2 ^ shift * (byte_to_Z x mod 128)) ltac:(lia) ltac:(lia)) with (p := p ++ [x]) (s := s) as [Hp' Hi'].
    { rewrite Z.pow_add_r by lia. pose proof (Z.mod_pos_bound (byte_to_Z x) 128 ltac:(lia)). nia. }
    { by rewrite <- app_assoc. }
    split; [done|]. intros a i. rewrite Hi'. assert (forall c, v + 2 ^ shift * (byte_to_Z x mod 128) + 2 ^ (shift + 7) * number_value c
      = v + 2 ^ shift * number_value (x :: c)) as Hval.
    { intros c. rewrite Z.pow_add_r by lia. cbn [number_value foldr]. fold (number_value c). rewrite land_127. lia. }
    split.
    + intros (b & s' & -> & [Hd ->] & ->). exists (x :: b), s'. split; [done|]. split; [|by rewrite <- app_assoc].
      split; [apply digits_cons; naive_solver|by rewrite Hval].
    + intros (b & s' & E & [Hd ->] & ->). destruct b as [|y b]; [by apply digits_nonempty in Hd|]. injection E as <- ->.
      apply digits_cons in Hd as [(? & _ & _)|(_ & Hd)]; [lia|]. exists b, s'. rewrite Hval. rewrite <- app_assoc. done.
Qed.

Lemma digits_number b n : digits 10 b /\ n = 0 + 2 ^ 0 * number_value b <-> number b n.
Proof.
  unfold digits, number. rewrite Z.pow_0_r, Z.mul_1_l, Z.add_0_l. split.
  - intros [(more & last & E & Hm & Hl & Hn & H1) ->]. exists more, last. split_and!; try done.
    destruct (Z.eq_dec (len b) 10); [right; auto|left; lia].
  - intros (more & last & E & Hm & Hl & Hn & ->). split; [|done]. exists more, last. split_and!; try done; intros; destruct Hn; lia.
Qed.

Lemma integer_reads : reads integer number.
Proof.
  intros p s Hl. destruct (integer_loop_reads 10 0 0 ltac:(lia) ltac:(lia) ltac:(lia) p s Hl) as [Hn Hi]. split; [done|].
  intros a i. unfold integer. rewrite Hi. split; intros (b & s' & -> & Hd & ->); exists b, s'; [by rewrite <- digits_number|by rewrite digits_number].
Qed.

Lemma number_value_bound b : 0 <= number_value b < 2 ^ (7 * len b).
Proof.
  induction b as [|x b IH]; [done|]. cbn [number_value foldr]. fold (number_value b). rewrite len_cons, land_127.
  replace (7 * (1 + len b)) with (7 + 7 * len b) by lia. rewrite Z.pow_add_r by (pose proof (len_nonneg b); lia).
  pose proof (Z.mod_pos_bound (byte_to_Z x) 128 ltac:(lia)). change (2 ^ 7) with 128. lia.
Qed.

Lemma number_value_snoc more last : number_value (more ++ [last]) = number_value more + 2 ^ (7 * len more) * (byte_to_Z last mod 128).
Proof.
  induction more as [|x more IH]; cbn [app number_value foldr].
  - rewrite land_127, (@len_nil byte), Z.mul_0_r, Z.pow_0_r. lia.
  - fold (number_value (more ++ [last])). fold (number_value more). rewrite IH, len_cons.
    replace (7 * (1 + len more)) with (7 + 7 * len more) by lia. rewrite Z.pow_add_r by (pose proof (len_nonneg more); lia).
    change (2 ^ 7) with 128. lia.
Qed.

Lemma number_u64 b n : number b n -> is_u64 n.
Proof.
  intros (more & last & -> & _ & Hl & Hn & ->). rewrite number_value_snoc. pose proof (number_value_bound more) as Hb.
  pose proof (byte_to_Z_range last) as Hx. unfold is_uint in *. rewrite Z.mod_small by lia. rewrite len_app, len_cons, len_nil in Hn.
  pose proof (len_nonneg more). destruct Hn as [Hn|[Hn H1]].
  - assert (2 ^ (7 * len more) <= 2 ^ 56) by (apply Z.pow_le_mono_r; lia). nia.
  - replace (7 * len more) with 63 in * by lia. nia.
Qed.

Lemma number_nonempty b n : number b n -> 1 <= len b.
Proof. intros [Hd _]%digits_number. by eapply digits_nonempty. Qed.

(** ** Values *)

Lemma members_nonempty room b : members room b -> 1 <= len b.
Proof. inversion 1; rewrite len_cons; match goal with |- context [len ?l] => pose proof (len_nonneg l); lia end. Qed.

Lemma encoded_nonempty room kind b : encoded room kind false b -> 1 <= len b.
Proof.
  inversion 1; subst; rewrite ?len_app, ?len_cons;
    repeat match goal with
    | H : number ?l _ |- _ => apply number_nonempty in H
    | H : members _ _ |- _ => apply members_nonempty in H
    | |- context [len ?l] => lazymatch goal with H : 0 <= len l |- _ => fail | _ => pose proof (len_nonneg l) end
    end; lia.
Qed.

Lemma elements_length room kinds b : elements room kinds b -> len kinds <= len b.
Proof.
  revert b. induction kinds as [|kind kinds IH]; intros b Hb; inversion Hb as [|? ? ? c d Hc Hd]; subst; [done|].
  apply encoded_nonempty in Hc. apply IH in Hd. rewrite len_app, len_cons. lia.
Qed.

Lemma elements_app room ks1 ks2 b :
  elements room (ks1 ++ ks2) b <-> exists b1 b2, b = b1 ++ b2 /\ elements room ks1 b1 /\ elements room ks2 b2.
Proof.
  revert b. induction ks1 as [|k ks1 IH]; intros b; cbn [app].
  - split; [intros Hb; exists [], b; split_and!; try done; constructor|]. intros (b1 & b2 & -> & Hb1 & Hb2). by inversion Hb1.
  - split.
    + intros Hb. inversion Hb as [|? ? ? c d Hc Hd]; subst. apply IH in Hd as (b1 & b2 & -> & Hb1 & Hb2).
      exists (c ++ b1), b2. rewrite app_assoc. split_and!; try done. by constructor.
    + intros (b1 & b2 & -> & Hb1 & Hb2). inversion Hb1 as [|? ? ? c d Hc Hd]; subst. rewrite <- app_assoc. constructor; [done|].
      apply IH. eauto.
Qed.

Lemma elements_one room kind b : elements room [kind] b <-> encoded room kind false b.
Proof.
  split.
  - intros Hb. inversion Hb as [|? ? ? c d Hc Hd]; subst. inversion Hd. by rewrite app_nil_r.
  - intros Hb. rewrite <- (app_nil_r b). repeat constructor. done.
Qed.

Lemma times_passes room kinds f n : passes f (elements room kinds) ->
  passes (times n f) (elements room (concat (repeat kinds n))).
Proof.
  intros Hf. induction n as [|n IH]; cbn [times repeat concat].
  - eapply passes_iff; [apply passes_done|]. intros b. split; [intros ->; constructor|]. by inversion 1.
  - eapply passes_iff; [by apply passes_then|]. intros b. by rewrite elements_app.
Qed.

Lemma concat_singles {A} (x : A) n : concat (repeat [x] n) = repeat x n.
Proof. induction n as [|n IH]; [done|]. cbn. by rewrite IH. Qed.

Section fields.
Context (room : nat) (f : Z -> Input -> bresult Input) (Hf : forall kind, passes (f kind) (encoded room kind true)).

(** What a field is after its header. *)
Definition member_body (x : byte) (b : bytes) : Prop :=
  (Z.shiftr (byte_to_Z x) 4 <> 0 /\ encoded room (Z.land (byte_to_Z x) 15) true b) \/
  (Z.shiftr (byte_to_Z x) 4 = 0 /\ exists l n c, b = l ++ c /\ number l n /\ encoded room (Z.land (byte_to_Z x) 15) true c).

Lemma member_passes x :
  passes (fun i => i ← (if Z.shiftr (byte_to_Z x) 4 =? 0 then '(_, i) ← integer i; Ok i else Ok i);
                   f (Z.land (byte_to_Z x) 15) i) (member_body x).
Proof.
  unfold member_body. destruct (Z.eqb_spec (Z.shiftr (byte_to_Z x) 4) 0) as [E|E].
  - pose proof (reads_then _ _ (fun _ => Ok) (fun _ b => b = []) integer_reads (fun _ _ _ => passes_done)) as Hi.
    eapply passes_iff; [exact (passes_then _ _ _ _ Hi (Hf _))|]. intros b. split.
    + intros (b1 & b2 & -> & (l & e & n & -> & Hl & ->) & Hb). right. split; [done|]. exists l, n, b2. by rewrite app_nil_r.
    + intros [[? _]|(_ & l & n & c & -> & Hl & Hc)]; [done|]. exists l, c. split_and!; try done. exists l, [], n. by rewrite app_nil_r.
  - eapply passes_iff; [exact (passes_then _ _ _ _ passes_done (Hf _))|]. intros b. split.
    + intros (b1 & b2 & -> & -> & Hb). by left.
    + intros [[_ Hb]|[? _]]; [|done]. by exists [], b.
Qed.

Lemma members_cons x b : members room (x :: b) <->
  (byte_to_Z x = 0 /\ b = []) \/ (byte_to_Z x <> 0 /\ exists c d, b = c ++ d /\ member_body x c /\ members room d).
Proof.
  split.
  - inversion 1 as [|? ? c d Hx Hs Hc Hd|? ? l n c d Hx Hs Hl Hc Hd]; subst; [by left|right..]; (split; [done|]).
    + exists c, d. split_and!; try done. by left.
    + exists (l ++ c), d. rewrite app_assoc. split_and!; try done. right. eauto 7.
  - intros [[Hx ->]|(Hx & c & d & -> & [[Hs Hc]|(Hs & l & n & e & -> & Hl & He)] & Hd)].
    + replace x with Byte.x00; [constructor|]. by apply byte_to_Z_inj.
    + by constructor.
    + rewrite <- app_assoc. eapply mem_long; done.
Qed.

Lemma members_split x s (P : bytes -> bytes -> Prop) : (exists b s', x :: s = b ++ s' /\ members room b /\ P b s') <->
  (byte_to_Z x = 0 /\ P [x] s) \/
  (byte_to_Z x <> 0 /\ exists c d s', s = c ++ d ++ s' /\ member_body x c /\ members room d /\ P (x :: c ++ d) s').
Proof.
  split.
  - intros (b & s' & Es & Hm & HP). destruct b as [|y b]; [by inversion Hm|]. injection Es as <- ->.
    apply members_cons in Hm as [[Hx ->]|(Hx & c & d & -> & Hc & Hd)]; [by left|right]. split; [done|].
    exists c, d, s'. by rewrite app_assoc.
  - intros [[Hx HP]|(Hx & c & d & s' & -> & Hc & Hd & HP)].
    + exists [x], s. split_and!; try done. apply members_cons. by left.
    + exists (x :: c ++ d), s'. cbn [app]. rewrite <- app_assoc. split_and!; try done. apply members_cons. right. eauto 7.
Qed.

Lemma passes_unique g (G : bytes -> Prop) p c c' s s' : passes g G -> is_usize (len (p ++ c ++ s)) -> c ++ s = c' ++ s' -> G c -> G c' ->
  c = c' /\ s = s'.
Proof.
  intros Hg Hl Es Hc Hc'. destruct (Hg p (c ++ s) Hl) as [_ Hi].
  assert (Ok (at_ (p ++ c) s) = Ok (at_ (p ++ c') s') :> bresult Input) as [= E1 E2].
  { rewrite <- (proj2 (Hi (at_ (p ++ c) s))) by eauto. apply Hi. rewrite Es. eauto. }
  assert (length c = length c') as El by (rewrite !len_app in E2; unfold len in E2; lia).
  by apply app_inj_1 in Es.
Qed.

Lemma fields_passes fuel : forall p s, is_usize (len (p ++ s)) -> (length s < fuel)%nat ->
  fields fuel f (at_ p s) <> Err BoundsPanic /\
  forall i, fields fuel f (at_ p s) = Ok i <-> exists b s', s = b ++ s' /\ members room b /\ i = at_ (p ++ b) s'.
Proof.
  induction fuel as [|fuel IH]; intros p s Hl Hs; [lia|]. cbn [fields]. destruct (byte_reads p s Hl) as [Hp Hb].
  destruct (input_byte (at_ p s)) as [[v i1]|e] eqn:E; cbn [mbind result_bind].
  2:{ split; [by intros [= ->]|]. intros i. split; [done|]. intros (b & s' & -> & Hm & _). pose proof (members_nonempty _ _ Hm).
      destruct b as [|x b]; [done|]. discriminate (proj2 (Hb (byte_to_Z x) (at_ (p ++ [x]) (b ++ s')))). exists [x], (b ++ s'). eauto. }
  destruct (proj1 (Hb v i1) eq_refl) as (b1 & s1 & -> & (x & -> & ->) & ->). clear Hb E. cbn [app length] in Hs.
  setoid_rewrite (members_split x s1 (fun b s' => _ = at_ (p ++ b) s')). destruct (Z.eqb_spec (byte_to_Z x) 0) as [Hx|Hx].
  { split; [done|]. intros i. split; [intros [= <-]; by left|]. intros [[_ ->]|[? _]]; done. }
  assert (is_usize (len ((p ++ [x]) ++ s1))) as Hl1 by (by rewrite <- app_assoc).
  pose proof (member_passes x) as Hm. destruct (Hm (p ++ [x]) s1 Hl1) as [Hp2 Hb2].
  match type of Hp2 with ?m <> _ => assert (forall K, (i ← (if Z.shiftr (byte_to_Z x) 4 =? 0 then '(_, i) ← integer (at_ (p ++ [x]) s1); Ok i
     else Ok (at_ (p ++ [x]) s1)); i ← f (Z.land (byte_to_Z x) 15) i; K i) = (i ← m; K i) :> bresult Input) as -> end.
  { intros K. destruct (if _ : bool then _ else _); done. }
  destruct (mbind _ _) as [i1|e] eqn:Eb; cbn [mbind result_bind].
  - destruct (proj1 (Hb2 i1) eq_refl) as (c & s2 & -> & Hc & ->). destruct (IH ((p ++ [x]) ++ c) s2) as [Hp3 Hb3].
    { by rewrite <- !app_assoc in *. } { rewrite length_app in Hs. lia. }
    split; [done|]. intros i. rewrite Hb3. split.
    + intros (d & s' & -> & Hd & ->). right. split; [done|]. exists c, d, s'. split_and!; try done. by rewrite <- !app_assoc.
    + intros [[? _]|(_ & c' & d & s' & Es & Hc' & Hd & ->)]; [done|].
      destruct (passes_unique _ _ _ _ _ _ _ Hm Hl1 Es Hc Hc') as [<- ->]. exists d, s'. split_and!; try done. by rewrite <- !app_assoc.
  - split; [by intros [= ->]|]. intros i. split; [done|]. intros [[? _]|(_ & c & d & s' & -> & Hc & _ & _)]; [done|].
    discriminate (proj2 (Hb2 (at_ ((p ++ [x]) ++ c) (d ++ s')))). eauto.
Qed.
End fields.

Lemma list_passes room kind (f : Input -> bresult Input) n : passes f (encoded room kind false) -> is_u64 n ->
  passes (fun i => n ← count n i; times (Z.to_nat n) f i) (elements room (repeat kind (Z.to_nat n))).
Proof.
  intros Hf Hn. apply (count_then n (fun n => times (Z.to_nat n) f)); [done| |].
  - rewrite <- concat_singles. apply times_passes. eapply passes_iff; [exact Hf|]. intros b. by rewrite elements_one.
  - intros b Hb%elements_length. unfold len, is_uint in *. rewrite repeat_length in Hb. lia.
Qed.

Lemma length_pairs {A} (x y : A) n : length (concat (repeat [x; y] n)) = (2 * n)%nat.
Proof. induction n as [|n IH]; [done|]. cbn [repeat concat app length]. rewrite IH. lia. Qed.

Lemma map_passes room k v (f g : Input -> bresult Input) n :
  passes f (encoded room k false) -> passes g (encoded room v false) -> is_u64 n ->
  passes (fun i => twice ← ok_or (checked_mul 64 n 2) Invalid; n ← count twice i; times (Z.to_nat (n / 2)) (fun i => i ← f i; g i) i)
    (elements room (concat (repeat [k; v] (Z.to_nat n)))).
Proof.
  intros Hf Hg Hn. assert (forall b, elements room (concat (repeat [k; v] (Z.to_nat n))) b -> n * 2 <= len b) as Hlong.
  { intros b Hb%elements_length. unfold len, is_uint in *. rewrite length_pairs in Hb. lia. }
  unfold checked_mul. destruct (try_uint 64 (n * 2)) as [t|] eqn:Et; cbn [ok_or mbind result_bind].
  - apply try_uint_some in Et as [-> Ht]. apply (count_then (n * 2) (fun n => times (Z.to_nat (n / 2)) _)); [done| |done].
    rewrite Z.div_mul by done. apply times_passes. eapply passes_iff; [by apply passes_then|]. intros b.
    change [k; v] with ([k] ++ [v]). rewrite elements_app. setoid_rewrite elements_one. done.
  - apply try_uint_none in Et. intros p s Hl. split; [done|]. intros i. split; [done|]. intros (b & s' & -> & Hb & _).
    apply Hlong in Hb. rewrite !len_app in Hl. pose proof (len_nonneg p). pose proof (len_nonneg s'). unfold is_uint in *. lia.
Qed.

Lemma passes_guard c g (K : bytes -> Prop) : passes g K -> passes (fun i => _ ← reject c Invalid; g i) (fun b => c = false /\ K b).
Proof.
  intros Hg. destruct c; cbn [reject mbind result_bind]; [apply passes_none; naive_solver|].
  eapply passes_iff; [exact Hg|]. naive_solver.
Qed.

(** One level of nesting, by the kind of the value. *)
Section level.
Context (room : nat) (IH : forall kind field, passes (value room kind field) (encoded room kind field)).

Lemma bool_passes kind field : kind = 1 \/ kind = 2 -> passes (value (S room) kind field) (encoded (S room) kind field).
Proof.
  intros Hk. assert (value (S room) kind field = value (S room) 1 field) as -> by (by destruct Hk as [->| ->]). destruct field; cbn [value].
  - eapply passes_iff; [apply passes_done|]. intros b. split; [intros ->; by constructor|]. inversion 1; subst; try lia. done.
  - eapply passes_iff.
    + apply (reads_then _ _ (fun b i => _ ← reject (negb ((b =? 1) || (b =? 2))) Invalid; Ok i)
        (fun b l => negb ((b =? 1) || (b =? 2)) = false /\ l = []) byte_reads).
      intros v ? _. apply passes_guard, passes_done.
    + intros b. split.
      * intros (b1 & b2 & v & -> & (x & -> & ->) & Hx & ->). bool_to_prop. apply orb_true_iff in Hx. constructor; [done|]. lia.
      * inversion 1; subst; try lia. exists [x], [], (byte_to_Z x). split_and!; try done; [by eexists|]. apply negb_false_iff, orb_true_iff. lia.
Qed.

Lemma fixed_passes kind field n : kind = 3 /\ n = 1 \/ kind = 7 /\ n = 8 \/ kind = 13 /\ n = 16 ->
  passes (value (S room) kind field) (encoded (S room) kind field).
Proof.
  intros Hk. assert (value (S room) kind field = skip n) as -> by (by destruct Hk as [[-> ->]|[[-> ->]|[-> ->]]]).
  eapply passes_iff; [apply skip_passes; lia|]. intros b. split.
  - intros Hb. destruct Hk as [[-> ->]|[[-> ->]|[-> ->]]]; [|by constructor..].
    destruct b as [|x [|y b]]; [done|constructor|]. rewrite !len_cons in Hb. pose proof (len_nonneg b). lia.
  - inversion 1; subst; try lia. by destruct Hk as [[_ ->]|[[? _]|[? _]]].
Qed.

Lemma number_passes kind field : 4 <= kind <= 6 -> passes (value (S room) kind field) (encoded (S room) kind field).
Proof.
  intros Hk. assert (value (S room) kind field = value (S room) 4 field) as ->.
  { assert (kind = 4 \/ kind = 5 \/ kind = 6) as [->|[->| ->]] by lia; done. }
  cbn [value]. eapply passes_iff; [apply (reads_then _ _ (fun _ => Ok) (fun _ b => b = []) integer_reads (fun _ _ _ => passes_done))|]. intros b. split.
  - intros (b1 & b2 & n & -> & Hn & ->). rewrite app_nil_r. by econstructor.
  - inversion 1; subst; try lia. exists b, [], n. by rewrite app_nil_r.
Qed.

Lemma binary_passes field : passes (value (S room) 8 field) (encoded (S room) 8 field).
Proof.
  cbn [value]. eapply passes_iff.
  - apply (reads_then _ _ (fun n i => n ← count n i; skip n i) (fun n b => len b = n) integer_reads).
    intros n l Hn%number_u64. apply (count_then n skip); [done| |lia]. apply skip_passes. unfold is_uint in Hn. lia.
  - intros b. split; [intros (l & d & n & -> & Hl & <-); by constructor|]. inversion 1; subst; try lia. eauto 6.
Qed.

(** A list is its header, its length when the header has no room for it, and its elements. *)
Lemma listed_passes kind n : is_u64 n -> passes (fun i => n ← count n i; times (Z.to_nat n) (value room kind false) i)
  (elements room (repeat kind (Z.to_nat n))).
Proof. intros Hn. by apply list_passes. Qed.

Lemma header_bound x : 0 <= Z.shiftr (byte_to_Z x) 4 <= 15.
Proof.
  pose proof (byte_to_Z_range x) as Hx. unfold is_uint in Hx. rewrite Z.shiftr_div_pow2 by lia. change (2 ^ 4) with 16.
  pose proof (Z.div_mod (byte_to_Z x) 16 ltac:(lia)). pose proof (Z.mod_pos_bound (byte_to_Z x) 16 ltac:(lia)). lia.
Qed.

Lemma lists_pass kind field : kind = 9 \/ kind = 10 -> passes (value (S room) kind field) (encoded (S room) kind field).
Proof.
  intros Hk. assert (value (S room) kind field = value (S room) 9 field) as -> by (by destruct Hk as [->| ->]). cbn [value].
  set (listed := fun header n b => elements room (repeat (Z.land header 15) (Z.to_nat n)) b).
  set (short := fun (h : Z) (b : bytes) n => b = [] /\ n = Z.shiftr h 4).
  eapply passes_iff.
  - apply (reads_then _ _ (fun header i => '(n, i) ← (if Z.shiftr header 4 =? 15 then integer i else Ok (Z.shiftr header 4, i));
      n ← count n i; times (Z.to_nat n) (value room (Z.land header 15) false) i)
      (fun h b => exists b1 b2 n, b = b1 ++ b2 /\ (if Z.shiftr h 4 =? 15 then number b1 n else short h b1 n) /\ listed h n b2) byte_reads).
    intros h b0 (x & _ & ->). destruct (Z.eqb_spec (Z.shiftr (byte_to_Z x) 4) 15).
    + apply (reads_then _ _ (fun n i => n ← count n i; times (Z.to_nat n) (value room (Z.land (byte_to_Z x) 15) false) i) _ integer_reads).
      intros n c Hn%number_u64. by apply listed_passes.
    + apply (reads_then (fun i => Ok (Z.shiftr (byte_to_Z x) 4, i)) (short (byte_to_Z x))
        (fun n i => n ← count n i; times (Z.to_nat n) (value room (Z.land (byte_to_Z x) 15) false) i)).
      * intros p s Hl. split; [done|]. intros a i. split; [intros [= <- <-]; exists [], s; by rewrite app_nil_r|].
        intros (b & s' & -> & [-> ->] & ->). by rewrite app_nil_r.
      * intros m c Hc. destruct Hc as [_ Hm]. subst m. apply listed_passes. pose proof (header_bound x). unfold is_uint. lia.
  - intros b. split.
    + intros (b1 & b2 & h & -> & (x & -> & ->) & l & d & n & -> & Hn & Hd). destruct (Z.eqb_spec (Z.shiftr (byte_to_Z x) 4) 15).
      * apply (enc_long_list _ _ _ _ l n d); [exact Hk|exact e|exact Hn|exact Hd].
      * destruct Hn as [-> ->]. by apply enc_list.
    + inversion 1; subst; try lia.
      * exists [x], b0, (byte_to_Z x). split_and!; [done|by eexists|]. exists [], b0, (Z.shiftr (byte_to_Z x) 4).
        destruct (Z.eqb_spec (Z.shiftr (byte_to_Z x) 4) 15); [lia|]. done.
      * exists [x], (l ++ b0), (byte_to_Z x). split_and!; [done|by eexists|]. exists l, b0, n.
        destruct (Z.eqb_spec (Z.shiftr (byte_to_Z x) 4) 15); [|lia]. done.
Qed.

Lemma maps_pass field : passes (value (S room) 11 field) (encoded (S room) 11 field).
Proof.
  cbn [value].
  set (pairs := fun x n b => elements room (concat (repeat [Z.shiftr x 4; Z.land x 15] (Z.to_nat n))) b).
  eapply passes_iff.
  - apply (reads_then _ _ (fun n i => if n =? 0 then Ok i else '(kinds, i) ← input_byte i; twice ← ok_or (checked_mul 64 n 2) Invalid;
      n ← count twice i; times (Z.to_nat (n / 2)) (fun i => i ← value room (Z.shiftr kinds 4) false i; value room (Z.land kinds 15) false i) i)
      (fun n b => (n = 0 /\ b = []) \/ (n <> 0 /\ exists b1 b2 x, b = b1 ++ b2 /\ (exists y, b1 = [y] /\ x = byte_to_Z y) /\ pairs x n b2)) integer_reads).
    intros n l Hn%number_u64. destruct (Z.eqb_spec n 0) as [Hz|Hz].
    + eapply passes_iff; [apply passes_done|]. naive_solver.
    + eapply passes_iff; [apply (reads_then _ _ _ (fun x => pairs x n) byte_reads); intros x b _; by apply map_passes|].
      intros b. split; [by right|]. by intros [[? _]|[_ Hb]].
  - intros b. split.
    + intros (l & d & n & -> & Hl & [[-> ->]|(Hn & ? & b2 & ? & -> & (x & -> & ->) & Hb)]); [rewrite app_nil_r; by constructor|].
      by eapply enc_map.
    + inversion 1; subst; try lia; [exists b, [], 0; rewrite app_nil_r; naive_solver|].
      eexists l, _, n. split_and!; try done. right. split; [done|]. exists [x], b0, (byte_to_Z x). split_and!; try done. by eexists.
Qed.

Lemma struct_passes field : passes (value (S room) 12 field) (encoded (S room) 12 field).
Proof.
  cbn [value]. intros p s Hl. assert (bytes_left (at_ p s) = length s) as Hb.
  { unfold bytes_left, at_. cbn [in_bytes in_at]. rewrite len_app. unfold len. lia. }
  rewrite Hb. destruct (fields_passes room _ (fun kind => IH kind true) (S (length s)) p s Hl ltac:(lia)) as [Hp Hi]. split; [done|].
  intros i. rewrite Hi. split; intros (b & s' & -> & Hm & ->); exists b, s'; [by split_and!; [|constructor|]|].
  by inversion Hm; subst; try lia.
Qed.

Lemma other_passes kind field : ~ 1 <= kind <= 13 -> passes (value (S room) kind field) (encoded (S room) kind field).
Proof.
  intros Hk. assert (value (S room) kind field = fun _ => Err Invalid) as ->; [|apply passes_none; inversion 1; lia].
  cbn [value]. destruct kind as [|k|]; try done. do 4 (destruct k as [k|k|]; try done; try lia).
Qed.
End level.

(** The walk accepts the values of the grammar. *)
Lemma value_passes room : forall kind field, passes (value room kind field) (encoded room kind field).
Proof.
  induction room as [|room IH]; intros kind field; [apply passes_none; by inversion 1|].
  destruct (decide (1 <= kind <= 13)); [|by apply other_passes].
  assert (kind = 1 \/ kind = 2 \/ kind = 3 \/ 4 <= kind <= 6 \/ kind = 7 \/ kind = 8 \/ kind = 9 \/ kind = 10 \/ kind = 11 \/ kind = 12 \/ kind = 13)
    as [->|[->|[->|[?|[->|[->|[->|[->|[->|[->| ->]]]]]]]]]] by lia.
  - apply bool_passes. lia.
  - apply bool_passes. lia.
  - apply (fixed_passes room 3 field 1). lia.
  - by apply number_passes.
  - apply (fixed_passes room 7 field 8). lia.
  - apply binary_passes.
  - apply lists_pass; [done|lia].
  - apply lists_pass; [done|lia].
  - by apply maps_pass.
  - by apply struct_passes.
  - apply (fixed_passes room 13 field 16). lia.
Qed.

(** ** Property *)

(** C24: the check accepts exactly the compact Thrift structs of the grammar, nested
    at most 64 deep, that end where the footer ends; it never panics. In
    particular the elements that a list or a map announces are all there, and no
    footer whose elements are there is refused. *)
Theorem footer_bounds_exact (b : bytes) (Hb : is_usize (len b)) :
  validate b <> Err BoundsPanic /\ (validate b = Ok tt <-> members 64 b).
Proof.
  unfold validate. destruct (value_passes 65 12 true [] b Hb) as [Hp Hi]. change (at_ [] b) with (MkInput b 0) in *.
  assert (forall c, encoded 65 12 true c <-> members 64 c) as Hm.
  { intros c. split; [by inversion 1; subst; try lia|by constructor]. }
  destruct (value 65 12 true (MkInput b 0)) as [i|e] eqn:E; cbn [mbind result_bind].
  - destruct (proj1 (Hi i) eq_refl) as (c & s & -> & Hc & ->). split; [by destruct (negb _)|]. rewrite reject_ok, negb_false_iff, Z.eqb_eq.
    cbn [app at_ in_at]. rewrite len_app. split.
    + intros El. assert (s = []) as -> by (apply len_zero; lia). rewrite app_nil_r. by apply Hm.
    + intros Hc'. assert (Ok (at_ ([] ++ c) s) = Ok (at_ ([] ++ c ++ s) []) :> bresult Input) as [= _ El].
      { apply Hi. exists (c ++ s), []. rewrite app_nil_r. split_and!; try done. by apply Hm. }
      by rewrite len_app in El.
  - split; [by intros [= ->]|]. split; [done|]. intros Hc%Hm. discriminate (proj2 (Hi (at_ ([] ++ b) []))).
    exists b, []. by rewrite app_nil_r.
Qed.

(** ** Examples *)

Definition bytes_of (l : list Z) : bytes := map byte_of_Z l.

(** A struct with a list of two empty structs; a list that announces 2^31 - 1. *)
Definition two_structs : bytes := bytes_of [0x19; 0x2c; 0; 0; 0].
Definition huge_list : bytes := bytes_of [0x19; 0xfc; 0xff; 0xff; 0xff; 0xff; 0x07; 0].

Lemma footer_bounds_exact_witness : members 64 two_structs /\ ~ members 64 huge_list.
Proof.
  split.
  - apply (footer_bounds_exact two_structs); [split; vm_compute; done|]. vm_compute. reflexivity.
  - intros Hm. apply (footer_bounds_exact huge_list) in Hm; [|split; vm_compute; done]. vm_compute in Hm. discriminate Hm.
Defined.

(** Sixty-five structs inside one another are too many. *)
Example too_deep : validate (repeat (byte_of_Z 0x1c) 65 ++ repeat Byte.x00 66) = Err Invalid /\
  validate (repeat (byte_of_Z 0x1c) 64 ++ repeat Byte.x00 65) = Ok tt.
Proof. split; vm_compute; reflexivity. Qed.
