(* ===== verification/Cache.v ===== *)
(** The metadata cache of the reader (otmp/src/reader/cache.rs): cached byte
    strings shared by reference counts, first-in first-out eviction, and the
    budget that reservations draw on until they are dropped. *)
From S2P Require Import Prelude Bytes Errors Values PageMap PageTree ByteArray Storage.

(** ** Data *)

Record Identity := MkIdentity {
  id_uri : string; id_hash : Sha256; id_length : Z; id_version : option ObjectVersion }.
#[export] Instance identity_eq_dec : EqDecision Identity.
Proof. solve_decision. Defined.

Record PageKey := MkPageKey { pk_generation : Sha256; pk_checkpoint : bool; pk_page : Z }.
#[export] Instance page_key_eq_dec : EqDecision PageKey.
Proof. solve_decision. Defined.

Inductive Key :=
| ObjectRange (uri : string) (start stop : Z)
| AuthenticatedPage (key : PageKey).
#[export] Instance key_eq_dec : EqDecision Key.
Proof. solve_decision. Defined.

#[export] Instance key_countable : Countable Key.
Proof.
  refine (inj_countable'
    (fun k => match k with
              | ObjectRange u s e => inl (u, s, e)
              | AuthenticatedPage k => inr (sha_bytes (pk_generation k), pk_checkpoint k, pk_page k)
              end)
    (fun x => match x with
              | inl (u, s, e) => ObjectRange u s e
              | inr (g, c, p) => AuthenticatedPage (MkPageKey (MkSha256 g) c p)
              end) _).
  by intros [|[[] ? ?]].
Defined.

(** A shared byte string with its reservation; [cb_owners] is its strong count. *)
Record CachedBytes := MkCached { cb_bytes : bytes; cb_amount : Z; cb_owners : Z }.

(** [c_arcs] are the shared byte strings that are alive, in the cache or in the
    hands of a reader; [values] point to them. *)
Record Cache := MkCache {
  c_used : Z; c_peak : Z; c_limit : Z;
  c_values : gmap Key nat;
  c_identities : gmap string (Identity * Z);
  c_order : list Key;
  c_arcs : gmap nat CachedBytes;
  c_next : nat }.

Definition cache_new (limit : Z) : Cache := MkCache 0 0 limit ∅ ∅ [] ∅ 0.

Definition exhausted (message : string) : rerror := RuntimeError.ResourceExhausted message.

(** ** Reservations and reference counts *)

(** [used.fetch_sub(amount)], which wraps around *)
Definition release (amount : Z) (c : Cache) : Cache :=
  MkCache ((c_used c - amount) mod 2 ^ 64) (c_peak c) (c_limit c) (c_values c) (c_identities c) (c_order c) (c_arcs c) (c_next c).

Definition set_arcs (arcs : gmap nat CachedBytes) (c : Cache) : Cache :=
  MkCache (c_used c) (c_peak c) (c_limit c) (c_values c) (c_identities c) (c_order c) arcs (c_next c).

(** [Arc::clone] *)
Definition clone_arc (a : nat) (c : Cache) : Cache :=
  match c_arcs c !! a with
  | Some cb => set_arcs (<[a := MkCached (cb_bytes cb) (cb_amount cb) (cb_owners cb + 1)]> (c_arcs c)) c
  | None => c
  end.

(** Dropping an [Arc]; the last one drops the bytes and their reservation. *)
Definition drop_arc (a : nat) (c : Cache) : Cache :=
  match c_arcs c !! a with
  | Some cb =>
    if cb_owners cb =? 1 then release (cb_amount cb) (set_arcs (delete a (c_arcs c)) c)
    else set_arcs (<[a := MkCached (cb_bytes cb) (cb_amount cb) (cb_owners cb - 1)]> (c_arcs c)) c
  | None => c
  end.

(** [Arc::new(CachedBytes { .. })] *)
Definition new_arc (b : bytes) (amount : Z) (c : Cache) : nat * Cache :=
  (c_next c, MkCache (c_used c) (c_peak c) (c_limit c) (c_values c) (c_identities c) (c_order c)
               (<[c_next c := MkCached b amount 1]> (c_arcs c)) (S (c_next c))).

Definition arc_bytes (a : nat) (c : Cache) : bytes := from_option cb_bytes [] (c_arcs c !! a).

(** [Reservation::shrink_to]; the assertion is a precondition. *)
Definition shrink_to (held amount : Z) (c : Cache) : Cache := release (held - amount) c.

(** ** Operations *)

(** What [reserve] does with the key it takes from the queue. *)
Definition forget (key : Key) (identities : gmap string (Identity * Z)) : gmap string (Identity * Z) :=
  match key with
  | ObjectRange uri _ _ =>
    match identities !! uri with
    | Some (identity, count) => if count - 1 =? 0 then delete uri identities else <[uri := (identity, count - 1)]> identities
    | None => identities
    end
  | AuthenticatedPage _ => identities
  end.

(** [pop_front] and the removals, but for the drop of the removed value. *)
Definition unlink (key : Key) (order : list Key) (c : Cache) : Cache :=
  MkCache (c_used c) (c_peak c) (c_limit c) (delete key (c_values c)) (forget key (c_identities c)) order (c_arcs c) (c_next c).
Definition evict (key : Key) (order : list Key) (c : Cache) : Cache :=
  from_option drop_arc id (c_values c !! key) (unlink key order c).

Definition charge (next : Z) (c : Cache) : Cache :=
  MkCache next (Z.max (c_peak c) next) (c_limit c) (c_values c) (c_identities c) (c_order c) (c_arcs c) (c_next c).

(** The loop of [reserve]. The lock is held throughout, and the exchange of
    [used] fails only when another thread drops a reservation meanwhile, which
    leaves more room: the retry is not modelled. *)
Fixpoint reserve_loop (order : list Key) (amount : Z) (c : Cache) : rresult Z * Cache :=
  let fits := next ← checked_add 64 (c_used c) amount; if next <=? c_limit c then Some next else None in
  match fits, order with
  | Some next, _ => (Ok amount, charge next c)
  | None, [] => (Err (exhausted ("metadata cache: " +:+ u64_to_string amount +:+ " requested, " +:+ u64_to_string (c_used c)
                                 +:+ " active, " +:+ u64_to_string (c_limit c) +:+ " limit")), c)
  | None, key :: order => reserve_loop order amount (evict key order c)
  end.

(** A reservation is its amount. *)
Definition reserve (amount : Z) (c : Cache) : rresult Z * Cache := reserve_loop (c_order c) amount c.

Definition check_identity (c : Cache) (identity : Identity) : rresult unit :=
  reject (match c_identities c !! id_uri identity with
          | Some (old, _) => negb (bool_decide (old = identity))
          | None => false
          end) (corrupt "conflicting cached object reference").

Definition range_key (identity : Identity) (range : Z * Z) : Key := ObjectRange (id_uri identity) range.1 range.2.

Definition get (identity : Identity) (range : Z * Z) (c : Cache) : rresult (option nat) * Cache :=
  match check_identity c identity with
  | Err e => (Err e, c)
  | Ok _ =>
    match c_values c !! range_key identity range with
    | Some a => (Ok (Some a), clone_arc a c)
    | None => (Ok None, c)
    end
  end.

Definition metadata_for (reference : PageObjectReference) (c : Cache) : rresult (option ObjectMetadata) :=
  match c_identities c !! uri_str (ref_uri reference) with
  | None => Ok None
  | Some (identity, _) =>
    _ ← reject (negb (bool_decide (id_hash identity = ref_sha256 reference)) || negb (id_length identity =? ref_length reference))
          (corrupt "conflicting cached object reference");
    Ok (MkMetadata (id_length identity) <$> id_version identity)
  end.

Definition get_page (key : PageKey) (c : Cache) : rresult (option nat) * Cache :=
  match c_values c !! AuthenticatedPage key with
  | Some a =>
    if negb (len (arc_bytes a c) =? 4096) then (Err (corrupt "invalid cached page length"), c)
    else (Ok (Some a), clone_arc a c)
  | None => (Ok None, c)
  end.

(** The value enters the cache; its count is not touched, the cache becomes the owner. *)
Definition link (key : Key) (a : nat) (identities : gmap string (Identity * Z)) (c : Cache) : Cache :=
  MkCache (c_used c) (c_peak c) (c_limit c) (<[key := a]> (c_values c)) identities (c_order c ++ [key]) (c_arcs c) (c_next c).

(** [capacity] is the capacity of the vector [b]; [held] the reservation passed,
    which is dropped with every return that does not store it. *)
Definition insert_page (key : PageKey) (b : bytes) (capacity held : Z) (c : Cache) : rresult unit * Cache :=
  if negb (len b =? 4096) then (Err (corrupt "invalid authenticated page length"), release held c) else
  if match checked_add 64 capacity 256 with Some size => held <? size | None => true end
  then (Err (exhausted "page allocation exceeded reservation"), release held c) else
  match c_values c !! AuthenticatedPage key with
  | Some _ => (Ok tt, release held c)
  | None => let '(a, c) := new_arc b held c in (Ok tt, link (AuthenticatedPage key) a (c_identities c) c)
  end.

Definition remember (identity : Identity) (identities : gmap string (Identity * Z)) : gmap string (Identity * Z) :=
  let '(old, count) := default (identity, 0) (identities !! id_uri identity) in
  <[id_uri identity := (old, count + 1)]> identities.

Definition insert_range (identity : Identity) (range : Z * Z) (b : bytes) (capacity held : Z) (c : Cache) : rresult nat * Cache :=
  if match checked_add 64 capacity (256 + str_len (id_uri identity) * 4) with Some size => held <? size | None => true end
  then (Err (exhausted "cache allocation exceeded reservation"), release held c) else
  match check_identity c identity with
  | Err e => (Err e, release held c)
  | Ok _ =>
    let key := range_key identity range in
    match c_values c !! key with
    | Some a => (Ok a, release held (clone_arc a c))
    | None =>
      let '(a, c) := new_arc b held c in
      (Ok a, clone_arc a (link key a (remember identity (c_identities c)) c))
    end
  end.

(** ** Readers *)

(** The cache with the reservations and the shared byte strings that its readers hold. *)
Record Readers := MkReaders { rd_cache : Cache; rd_held : list Z; rd_arcs : list nat }.

(** A reader's next step; an index names one of the things held. *)
Inductive CacheOp :=
| OpReserve (amount : Z)
| OpRelease (i : nat)
| OpShrink (i : nat) (amount : Z)
| OpGet (identity : Identity) (range : Z * Z)
| OpGetPage (key : PageKey)
| OpInsert (identity : Identity) (range : Z * Z) (b : bytes) (capacity : Z) (i : nat)
| OpInsertPage (key : PageKey) (b : bytes) (capacity : Z) (i : nat)
| OpDrop (i : nat).

Definition without {A} (i : nat) (l : list A) : list A := take i l ++ drop (S i) l.

Definition cache_step (s : Readers) (op : CacheOp) : Readers :=
  let '(MkReaders c held arcs) := s in
  match op with
  | OpReserve amount =>
    match reserve amount c with
    | (Ok x, c) => MkReaders c (x :: held) arcs
    | (Err _, c) => MkReaders c held arcs
    end
  | OpRelease i => match held !! i with Some x => MkReaders (release x c) (without i held) arcs | None => s end
  | OpShrink i amount =>
    match held !! i with
    | Some x => if amount <=? x then MkReaders (shrink_to x amount c) (amount :: without i held) arcs else s
    | None => s
    end
  | OpGet identity range =>
    match get identity range c with
    | (Ok (Some a), c) => MkReaders c held (a :: arcs)
    | (_, c) => MkReaders c held arcs
    end
  | OpGetPage key =>
    match get_page key c with
    | (Ok (Some a), c) => MkReaders c held (a :: arcs)
    | (_, c) => MkReaders c held arcs
    end
  | OpInsert identity range b capacity i =>
    match held !! i with
    | Some x =>
      match insert_range identity range b capacity x c with
      | (Ok a, c) => MkReaders c (without i held) (a :: arcs)
      | (Err _, c) => MkReaders c (without i held) arcs
      end
    | None => s
    end
  | OpInsertPage key b capacity i =>
    match held !! i with
    | Some x => let '(_, c) := insert_page key b capacity x c in MkReaders c (without i held) arcs
    | None => s
    end
  | OpDrop i => match arcs !! i with Some a => MkReaders (drop_arc a c) held (without i arcs) | None => s end
  end.

Definition cache_run (limit : Z) (ops : list CacheOp) : Readers := fold_left cache_step ops (MkReaders (cache_new limit) [] []).

(** Amounts are unsigned, a vector's capacity is at least its length. *)
Definition cache_op_ok (op : CacheOp) : Prop :=
  match op with
  | OpReserve amount | OpShrink _ amount => 0 <= amount
  | OpInsert _ _ b capacity _ | OpInsertPage _ b capacity _ => len b <= capacity
  | _ => True
  end.

(** ** The invariant *)

Definition total (arcs : gmap nat CachedBytes) : Z := map_fold (fun _ cb t => cb_amount cb + t) 0 arcs.

Lemma total_insert a cb arcs : arcs !! a = None -> total (<[a := cb]> arcs) = cb_amount cb + total arcs.
Proof. intros Ha. unfold total. by rewrite map_fold_insert_L by (intros; lia || done). Qed.

Lemma total_delete a cb arcs : arcs !! a = Some cb -> total arcs = cb_amount cb + total (delete a arcs).
Proof. intros Ha. rewrite <- (insert_id arcs a cb) at 1 by done. rewrite <- insert_delete_eq. apply total_insert, lookup_delete_eq. Qed.

Lemma total_update a cb cb' arcs : arcs !! a = Some cb -> cb_amount cb' = cb_amount cb -> total (<[a := cb']> arcs) = total arcs.
Proof.
  intros Ha E. rewrite <- insert_delete_eq, total_insert by apply lookup_delete_eq. rewrite (total_delete a cb arcs) by done. lia.
Qed.

Lemma total_nonneg arcs : map_Forall (fun _ cb => 0 <= cb_amount cb) arcs -> 0 <= total arcs.
Proof.
  induction arcs as [|a cb arcs Ha IH] using map_ind; [done|]. intros [? ?]%map_Forall_insert; [|done]. rewrite total_insert by done.
  specialize (IH ltac:(done)). lia.
Qed.

(** How many owners an arc has among a list of arcs, and in the cache. *)
Definition uses (a : nat) (arcs : list nat) : Z := Z.of_nat (length (filter (fun b => b = a) arcs)).
Definition linked (a : nat) (values : gmap Key nat) : Prop := exists k, values !! k = Some a.
Definition in_cache (a : nat) (values : gmap Key nat) : Z := Z.b2z (bool_decide (a ∈ (map_img values : gset nat))).

Definition is_range (uri : string) (k : Key) : Prop := match k with ObjectRange u _ _ => u = uri | AuthenticatedPage _ => False end.
#[export] Instance is_range_dec uri k : Decision (is_range uri k).
Proof. destruct k; cbn; apply _. Defined.
Definition ranges (uri : string) (order : list Key) : Z := Z.of_nat (length (filter (is_range uri) order)).

(** [held] are the reservations and [arcs] the shared byte strings in the hands
    of readers; [P] is what holds of the values admitted under a key. *)
Record cache_ok (P : Key -> bytes -> Prop) (c : Cache) (held : list Z) (arcs : list nat) : Prop := {
  ck_used : c_used c = foldr Z.add 0 held + total (c_arcs c);
  ck_peak : c_used c <= c_peak c <= c_limit c;
  ck_limit : is_usize (c_limit c);
  ck_held : Forall (fun x => 0 <= x) held;
  ck_arcs : forall a cb, c_arcs c !! a = Some cb -> cb_owners cb = in_cache a (c_values c) + uses a arcs /\ 0 < cb_owners cb /\
    len (cb_bytes cb) <= cb_amount cb - 256 /\ (a < c_next c)%nat;
  ck_live : forall a, a ∈ arcs \/ linked a (c_values c) -> is_Some (c_arcs c !! a);
  ck_once : forall k k' a, c_values c !! k = Some a -> c_values c !! k' = Some a -> k = k';
  ck_order : NoDup (c_order c) /\ forall k, k ∈ c_order c <-> is_Some (c_values c !! k);
  ck_identities : forall uri, match c_identities c !! uri with
    | Some (identity, n) => id_uri identity = uri /\ n = ranges uri (c_order c) /\ 0 < n
    | None => ranges uri (c_order c) = 0
    end;
  ck_values : forall k a cb, c_values c !! k = Some a -> c_arcs c !! a = Some cb -> P k (cb_bytes cb) }.
Arguments ck_used {P c held arcs}. Arguments ck_peak {P c held arcs}. Arguments ck_limit {P c held arcs}.
Arguments ck_held {P c held arcs}. Arguments ck_arcs {P c held arcs}. Arguments ck_live {P c held arcs}.
Arguments ck_once {P c held arcs}. Arguments ck_order {P c held arcs}. Arguments ck_identities {P c held arcs}.
Arguments ck_values {P c held arcs}.

Lemma uses_cons a b arcs : uses a (b :: arcs) = (if decide (b = a) then 1 else 0) + uses a arcs.
Proof. unfold uses. rewrite filter_cons. case_decide; cbn [length]; lia. Qed.

Lemma uses_in a arcs : a ∈ arcs <-> 0 < uses a arcs.
Proof.
  unfold uses. split.
  - intros Hin. destruct (filter _ arcs) eqn:E; [|cbn; lia]. assert (a ∈ filter (fun b => b = a) arcs) as Ha by (by apply list_elem_of_filter).
    rewrite E in Ha. by apply not_elem_of_nil in Ha.
  - intros Hu. destruct (filter _ arcs) as [|b l] eqn:E; [cbn in Hu; lia|]. assert (b ∈ filter (fun b => b = a) arcs) as Hb.
    { rewrite E. by left. }
    by apply list_elem_of_filter in Hb as [-> ?].
Qed.

Lemma in_cache_linked a v : linked a v -> in_cache a v = 1.
Proof. intros Hl. unfold in_cache. rewrite bool_decide_eq_true_2; [done|]. by apply elem_of_map_img. Qed.
Lemma in_cache_not a v : ~ linked a v -> in_cache a v = 0.
Proof. intros Hl. unfold in_cache. rewrite bool_decide_eq_false_2; [done|]. by rewrite elem_of_map_img. Qed.
Lemma in_cache_same a v v' : (linked a v <-> linked a v') -> in_cache a v = in_cache a v'.
Proof. intros Hl. unfold in_cache. f_equal. apply bool_decide_ext. by rewrite !elem_of_map_img. Qed.
Lemma in_cache_range a v : 0 <= in_cache a v <= 1.
Proof. unfold in_cache. destruct (bool_decide _); cbn; lia. Qed.

Lemma ranges_cons uri k order : ranges uri (k :: order) = (if decide (is_range uri k) then 1 else 0) + ranges uri order.
Proof. unfold ranges. rewrite filter_cons. case_decide; cbn [length]; lia. Qed.
Lemma ranges_snoc uri k order : ranges uri (order ++ [k]) = ranges uri order + (if decide (is_range uri k) then 1 else 0).
Proof. unfold ranges. rewrite filter_app, length_app, filter_cons, filter_nil. case_decide; cbn [length]; lia. Qed.

Lemma sum_nonneg l : Forall (fun x => 0 <= x) l -> 0 <= foldr Z.add 0 l.
Proof. induction 1; cbn; lia. Qed.

Section steps.
Context (P : Key -> bytes -> Prop).

Lemma ok_new_cache limit : is_usize limit -> cache_ok P (cache_new limit) [] [].
Proof.
  intros Hl. constructor; cbn; try done.
  - unfold is_uint in *. lia.
  - intros a [Ha|[k Hk]]; [by apply not_elem_of_nil in Ha|]. done.
  - split; [constructor|]. intros k. split; [by intros ?%not_elem_of_nil|by intros [? ?]].
Qed.

Lemma amounts_nonneg c held arcs : cache_ok P c held arcs -> 0 <= total (c_arcs c).
Proof.
  intros Hc. apply total_nonneg. intros a cb Ha. destruct (ck_arcs Hc a cb Ha) as (_ & _ & Hl & _).
  pose proof (len_nonneg (cb_bytes cb)). lia.
Qed.

Lemma ok_perm c held held' arcs arcs' : held ≡ₚ held' -> arcs ≡ₚ arcs' -> cache_ok P c held arcs -> cache_ok P c held' arcs'.
Proof.
  intros Hh Ha Hc. destruct Hc as [Hu Hp Hl Hheld Harcs Hlive Honce Hord Hids Hvals]. constructor; try done.
  - rewrite Hu. f_equal. clear -Hh. induction Hh; cbn; lia.
  - by rewrite <- Hh.
  - intros a cb Hcb. assert (uses a arcs' = uses a arcs) as ->; [|by apply Harcs]. unfold uses. f_equal. by rewrite Ha.
  - intros a. rewrite <- Ha. apply Hlive.
Qed.

(** [release] takes a reservation back. *)
Lemma ok_release x c held arcs : cache_ok P c (x :: held) arcs -> cache_ok P (release x c) held arcs /\ c_used (release x c) = c_used c - x.
Proof.
  intros Hc. pose proof (amounts_nonneg _ _ _ Hc) as Ht. destruct Hc as [Hu Hp Hl Hheld Harcs Hlive Honce Hord Hids Hvals].
  apply Forall_cons in Hheld as [Hx Hheld]. pose proof (sum_nonneg _ Hheld). cbn [foldr] in Hu. unfold is_uint in Hl.
  assert ((c_used c - x) mod 2 ^ 64 = c_used c - x) as E by (apply Z.mod_small; lia).
  split; [|done]. unfold release. rewrite E. constructor; cbn; try done; lia.
Qed.

(** Changing an arc's count. *)
Lemma ok_recount c held arcs arcs' a cb n : cache_ok P c held arcs -> c_arcs c !! a = Some cb ->
  n = in_cache a (c_values c) + uses a arcs' -> 0 < n -> (forall b, b <> a -> uses b arcs' = uses b arcs) ->
  cache_ok P (set_arcs (<[a := MkCached (cb_bytes cb) (cb_amount cb) n]> (c_arcs c)) c) held arcs'.
Proof.
  intros Hc Ha Hn Hpos Huses. destruct Hc as [Hu Hp Hl Hheld Harcs Hlive Honce Hord Hids Hvals]. constructor; cbn; try done.
  - by rewrite (total_update a cb).
  - intros b cb'. destruct (decide (b = a)) as [->|Hne].
    + rewrite lookup_insert_eq. intros [= <-]. cbn. destruct (Harcs a cb Ha) as (_ & _ & ? & ?). done.
    + rewrite lookup_insert_ne by done. rewrite (Huses b Hne). apply Harcs.
  - intros b Hb. destruct (decide (b = a)) as [->|Hne]; [by rewrite lookup_insert_eq|]. rewrite lookup_insert_ne by done. apply Hlive.
    by rewrite uses_in, <- Huses, <- uses_in.
  - intros k b cb' Hk. destruct (decide (b = a)) as [->|Hne].
    + rewrite lookup_insert_eq. intros [= <-]. cbn. by apply (Hvals k a).
    + rewrite lookup_insert_ne by done. by apply Hvals.
Qed.

Lemma ok_clone a c held arcs : cache_ok P c held arcs -> a ∈ arcs \/ linked a (c_values c) -> cache_ok P (clone_arc a c) held (a :: arcs).
Proof.
  intros Hc Ha. unfold clone_arc. destruct (ck_live Hc a Ha) as [cb Hcb]. rewrite Hcb.
  destruct (ck_arcs Hc a cb Hcb) as (Ho & ? & _). eapply (ok_recount c held arcs); try done.
  - rewrite uses_cons, decide_True by done. lia.
  - lia.
  - intros b Hb. by rewrite uses_cons, decide_False by done.
Qed.

Lemma ok_drop a c held arcs : cache_ok P c held (a :: arcs) -> cache_ok P (drop_arc a c) held arcs.
Proof.
  intros Hc. unfold drop_arc. destruct (ck_live Hc a ltac:(left; by left)) as [cb Hcb]. rewrite Hcb.
  destruct (ck_arcs Hc a cb Hcb) as (Ho & Hpos & _). rewrite uses_cons, decide_True in Ho by done.
  assert (forall b, b <> a -> uses b arcs = uses b (a :: arcs)) as Huses by (intros b Hb; by rewrite uses_cons, decide_False by done).
  destruct (Z.eqb_spec (cb_owners cb) 1) as [E|E].
  2:{ eapply (ok_recount c held (a :: arcs)); try done; lia. }
  pose proof (in_cache_range a (c_values c)). assert (uses a arcs = 0 /\ in_cache a (c_values c) = 0) as [Hz Hnl] by (unfold uses in *; lia).
  assert (cache_ok P (set_arcs (delete a (c_arcs c)) c) (cb_amount cb :: held) arcs) as Hc'; [|by apply ok_release in Hc' as [? _]].
  destruct Hc as [Hu Hp Hl Hheld Harcs Hlive Honce Hord Hids Hvals]. constructor; cbn; try done.
  - rewrite Hu, (total_delete a cb) by done. lia.
  - constructor; [|done]. destruct (Harcs a cb Hcb) as (_ & _ & ? & _). pose proof (len_nonneg (cb_bytes cb)). lia.
  - intros b cb' Hb. apply lookup_delete_Some in Hb as [Hne Hb]. rewrite Huses by done. by apply Harcs.
  - intros b Hb. destruct (decide (b = a)) as [->|Hne].
    + exfalso. destruct Hb as [Hb%uses_in|Hb]; [lia|]. rewrite in_cache_linked in Hnl by done. lia.
    + rewrite lookup_delete_ne by done. apply Hlive. by rewrite uses_in, <- Huses, <- uses_in.
  - intros k b cb' Hk Hb. apply lookup_delete_Some in Hb as [Hne Hb]. by eapply Hvals.
Qed.

Lemma ok_new_arc b x c held arcs : cache_ok P c (x :: held) arcs -> len b <= x - 256 ->
  let '(a, c') := new_arc b x c in cache_ok P c' held (a :: arcs) /\ ~ linked a (c_values c) /\
    c_arcs c' !! a = Some (MkCached b x 1) /\ a ∉ arcs.
Proof.
  intros Hc Hb. unfold new_arc. destruct Hc as [Hu Hp Hl Hheld Harcs Hlive Honce Hord Hids Hvals].
  assert (c_arcs c !! c_next c = None) as Hnone.
  { destruct (c_arcs c !! c_next c) as [cb|] eqn:E; [|done]. destruct (Harcs _ _ E) as (_ & _ & _ & ?). lia. }
  assert (c_next c ∉ arcs /\ ~ linked (c_next c) (c_values c)) as [Hno Hnl].
  { split; intros ?; destruct (Hlive (c_next c)) as [? ?]; auto; congruence. }
  assert (forall a, a <> c_next c -> uses a (c_next c :: arcs) = uses a arcs) as Huses.
  { intros a Ha. by rewrite uses_cons, decide_False by done. }
  split; [|split_and!; [done|cbn; by rewrite lookup_insert_eq|done]]. constructor; cbn; try done.
  - rewrite Hu, total_insert by done. cbn. lia.
  - by apply Forall_cons in Hheld as [_ ?].
  - intros a cb. destruct (decide (a = c_next c)) as [->|Hne].
    + rewrite lookup_insert_eq. intros [= <-]. cbn. rewrite in_cache_not, uses_cons, decide_True by done.
      assert (uses (c_next c) arcs = 0) as ->; [|lia]. rewrite uses_in in Hno. unfold uses in *. lia.
    + rewrite lookup_insert_ne by done. intros Ha. rewrite Huses by done. destruct (Harcs a cb Ha) as (? & ? & ? & ?). lia.
  - intros a Ha. destruct (decide (a = c_next c)) as [->|Hne]; [by rewrite lookup_insert_eq|]. rewrite lookup_insert_ne by done.
    apply Hlive. rewrite elem_of_cons in Ha. naive_solver.
  - intros k a cb Hk. rewrite lookup_insert_ne; [by apply Hvals|]. intros <-. apply Hnl. by exists k.
Qed.

Definition identities_ok (order : list Key) (identities : gmap string (Identity * Z)) : Prop :=
  forall uri, match identities !! uri with
    | Some (identity, n) => id_uri identity = uri /\ n = ranges uri order /\ 0 < n
    | None => ranges uri order = 0
    end.

Lemma forget_ok key order identities : identities_ok (key :: order) identities -> identities_ok order (forget key identities).
Proof.
  intros Hi uri. specialize (Hi uri) as Hu. rewrite ranges_cons in Hu. destruct key as [u s e|k]; cbn in *; [|done].
  specialize (Hi u). rewrite ranges_cons in Hi. cbn in Hi. rewrite decide_True in Hi by done.
  destruct (identities !! u) as [[identity n]|] eqn:Eu; [|unfold ranges in *; lia]. destruct Hi as (Hid & -> & Hpos).
  destruct (decide (u = uri)) as [<-|Hne].
  - destruct (Z.eqb_spec (1 + ranges u order - 1) 0); [rewrite lookup_delete_eq; lia|]. rewrite lookup_insert_eq. split_and!; [done|lia|unfold ranges in *; lia].
  - destruct (_ =? 0); [rewrite lookup_delete_ne by done|rewrite lookup_insert_ne by done]; done.
Qed.

Lemma remember_ok identity range order identities :
  (forall old n, identities !! id_uri identity = Some (old, n) -> old = identity) -> identities_ok order identities ->
  identities_ok (order ++ [range_key identity range]) (remember identity identities).
Proof.
  intros Hsame Hi uri. unfold remember. specialize (Hi uri) as Hu. specialize (Hi (id_uri identity)).
  assert (ranges uri (order ++ [range_key identity range]) = ranges uri order + (if decide (id_uri identity = uri) then 1 else 0)) as ->.
  { by rewrite ranges_snoc. }
  assert (exists n, (let '(old, count) := default (identity, 0) (identities !! id_uri identity) in <[id_uri identity := (old, count + 1)]> identities)
    = <[id_uri identity := (identity, n + 1)]> identities /\ n = ranges (id_uri identity) order /\ 0 <= n) as (n & -> & Hn & Hpos).
  { destruct (identities !! id_uri identity) as [[old n]|]; [exists n; rewrite (Hsame _ _ eq_refl); cbn; naive_solver lia|].
    exists 0. rewrite Hi. done. }
  destruct (decide (id_uri identity = uri)) as [<-|Hne]; [rewrite lookup_insert_eq; split_and!; [done|lia|lia]|].
  rewrite lookup_insert_ne, Z.add_0_r by done. done.
Qed.

Lemma ok_unlink key a order c held arcs : cache_ok P c held arcs -> c_order c = key :: order -> c_values c !! key = Some a ->
  cache_ok P (unlink key order c) held (a :: arcs).
Proof.
  intros Hc Ho Hk. pose proof (ck_live Hc a ltac:(right; by exists key)) as [cb Hcb].
  assert (~ linked a (delete key (c_values c))) as Hnl.
  { intros [k Hk']. apply lookup_delete_Some in Hk' as [Hne Hk']. apply Hne. by apply (ck_once Hc _ _ a). }
  destruct Hc as [Hu Hp Hl Hheld Harcs Hlive Honce [Hnd Hord] Hids Hvals]. rewrite Ho in Hnd, Hord, Hids. constructor; cbn; try done.
  - intros b cb' Hb. destruct (Harcs b cb' Hb) as (Hn & ? & ? & ?). split_and!; try done. rewrite Hn, uses_cons.
    destruct (decide (a = b)) as [->|Hne].
    + rewrite (in_cache_linked b (c_values c)) by (by exists key). rewrite in_cache_not by done. lia.
    + rewrite (in_cache_same b (delete key (c_values c)) (c_values c)); [lia|].
      split; intros [k Hk']; [apply lookup_delete_Some in Hk' as [_ ?]; by exists k|]. exists k. apply lookup_delete_Some. split; [|done].
      intros <-. congruence.
  - intros b [[->|Hb]%elem_of_cons|[k Hb]]; [by eexists|by apply Hlive; left|]. apply lookup_delete_Some in Hb as [_ Hb].
    apply Hlive. right. by exists k.
  - intros k k' b Hb Hb'. apply lookup_delete_Some in Hb as [_ Hb], Hb' as [_ Hb']. by apply (Honce _ _ b).
  - apply NoDup_cons in Hnd as [Hnin Hnd]. split; [done|]. intros k. destruct (decide (k = key)) as [->|Hne].
    + rewrite lookup_delete_eq. split; [done|by intros [? ?]].
    + rewrite lookup_delete_ne by done. rewrite <- Hord, elem_of_cons. naive_solver.
  - by apply forget_ok.
  - intros k b cb' Hb. apply lookup_delete_Some in Hb as [_ Hb]. by apply Hvals.
Qed.

Lemma ok_link key a identities c held arcs : cache_ok P c held (a :: arcs) -> ~ linked a (c_values c) -> c_values c !! key = None ->
  P key (arc_bytes a c) -> identities_ok (c_order c ++ [key]) identities -> cache_ok P (link key a identities c) held arcs.
Proof.
  intros Hc Hnl Hk HP Hi. assert (key ∉ c_order c) as Hnin.
  { intros Hin%(proj2 (ck_order Hc)). rewrite Hk in Hin. by destruct Hin. }
  destruct (ck_live Hc a ltac:(left; by left)) as [cb Hcb].
  destruct Hc as [Hu Hp Hl Hheld Harcs Hlive Honce [Hnd Hord] Hids Hvals]. constructor; cbn; try done.
  - intros b cb' Hb. destruct (Harcs b cb' Hb) as (Hn & ? & ? & ?). split_and!; try done. rewrite Hn, uses_cons.
    destruct (decide (a = b)) as [->|Hne].
    + rewrite (in_cache_not b (c_values c)) by done. rewrite in_cache_linked; [lia|]. exists key. by rewrite lookup_insert_eq.
    + rewrite (in_cache_same b (<[key := a]> (c_values c)) (c_values c)); [lia|].
      split; intros [k Hk']; exists k; [apply lookup_insert_Some in Hk' as [[_ ?]|[_ ?]]; [done|done]|].
      rewrite lookup_insert_ne; [done|]. intros <-. congruence.
  - intros b [Hb|[k Hb]]; [apply Hlive; left; by right|]. apply lookup_insert_Some in Hb as [[_ <-]|[_ Hb]]; [by eexists|].
    apply Hlive. right. by exists k.
  - intros k k' b Hb Hb'. apply lookup_insert_Some in Hb as [[<- Eb]|[Hne Hb]], Hb' as [[<- Eb']|[Hne' Hb']]; subst; try done;
      [exfalso; apply Hnl; by eexists..|]. by apply (Honce _ _ b).
  - split; [apply NoDup_app; split_and!; [done| |apply NoDup_singleton]; intros k Hin ->%list_elem_of_singleton; done|].
    intros k. rewrite elem_of_app, list_elem_of_singleton, Hord. destruct (decide (k = key)) as [->|Hne].
    + rewrite lookup_insert_eq. naive_solver.
    + rewrite lookup_insert_ne by done. naive_solver.
  - intros k b cb' Hb Hcb'. apply lookup_insert_Some in Hb as [[<- <-]|[_ Hb]]; [|by apply (Hvals k b)].
    unfold arc_bytes in HP. by rewrite Hcb' in HP.
Qed.

Lemma ok_evict key order c held arcs : cache_ok P c held arcs -> c_order c = key :: order -> cache_ok P (evict key order c) held arcs.
Proof.
  intros Hc Ho. assert (is_Some (c_values c !! key)) as [a Ha] by (apply (proj2 (ck_order Hc)); rewrite Ho; by left).
  unfold evict. rewrite Ha. cbn [from_option]. apply ok_drop. by apply ok_unlink.
Qed.

Lemma ok_charge next x c held arcs : cache_ok P c held arcs -> 0 <= x -> next = c_used c + x -> next <= c_limit c ->
  cache_ok P (charge next c) (x :: held) arcs.
Proof.
  intros Hc Hx -> Hle. destruct Hc as [Hu Hp Hl Hheld Harcs Hlive Honce Hord Hids Hvals]. constructor; cbn; try done; [lia|lia|].
  by constructor.
Qed.

(** ** What the operations do *)

Definition arc_data (a : nat) (c : Cache) : option (bytes * Z) := (fun cb => (cb_bytes cb, cb_amount cb)) <$> c_arcs c !! a.

(** What a reader holds does not change under its hands. *)
Definition keeps (arcs : list nat) (c c' : Cache) : Prop := forall a, a ∈ arcs -> arc_data a c' = arc_data a c.

Lemma keeps_refl arcs c : keeps arcs c c.
Proof. done. Qed.
Lemma keeps_trans arcs c1 c2 c3 : keeps arcs c1 c2 -> keeps arcs c2 c3 -> keeps arcs c1 c3.
Proof. intros H12 H23 a Ha. by rewrite H23, H12. Qed.
Lemma keeps_cons a arcs c c' : keeps (a :: arcs) c c' -> keeps arcs c c'.
Proof. intros Hk b Hb. apply Hk. by right. Qed.
Lemma keeps_bytes arcs c c' a : keeps arcs c c' -> a ∈ arcs -> arc_bytes a c' = arc_bytes a c.
Proof.
  intros Hk Ha. specialize (Hk a Ha). unfold arc_data, arc_bytes in *. destruct (c_arcs c !! a), (c_arcs c' !! a); cbn in *; congruence.
Qed.

Lemma drop_keeps a c held arcs : cache_ok P c held (a :: arcs) -> keeps arcs c (drop_arc a c).
Proof.
  intros Hc b Hb. unfold drop_arc, arc_data. destruct (ck_live Hc a ltac:(left; by left)) as [cb Hcb]. rewrite Hcb.
  destruct (ck_arcs Hc a cb Hcb) as (Ho & _). rewrite uses_cons, decide_True in Ho by done. pose proof (in_cache_range a (c_values c)).
  destruct (decide (b = a)) as [->|Hne].
  - apply uses_in in Hb. destruct (Z.eqb_spec (cb_owners cb) 1); [lia|]. cbn. by rewrite lookup_insert_eq, Hcb.
  - destruct (_ =? 1); cbn; [by rewrite lookup_delete_ne by done|by rewrite lookup_insert_ne by done].
Qed.

Lemma clone_keeps a c arcs : keeps arcs c (clone_arc a c).
Proof.
  intros b _. unfold clone_arc, arc_data. destruct (c_arcs c !! a) as [cb|] eqn:E; [|done]. cbn. destruct (decide (b = a)) as [->|Hne].
  - by rewrite lookup_insert_eq, E.
  - by rewrite lookup_insert_ne by done.
Qed.

Lemma evict_keeps key order c held arcs : cache_ok P c held arcs -> c_order c = key :: order -> keeps arcs c (evict key order c).
Proof.
  intros Hc Ho. assert (is_Some (c_values c !! key)) as [a Ha] by (apply (proj2 (ck_order Hc)); rewrite Ho; by left).
  unfold evict. rewrite Ha. cbn [from_option]. apply (drop_keeps a (unlink key order c) held). by apply ok_unlink.
Qed.

(** The bytes that the readers hold, shared or reserved. *)
Definition amount_of (c : Cache) (a : nat) : Z := from_option cb_amount 0 (c_arcs c !! a).
Definition active (c : Cache) (held : list Z) (arcs : list nat) : Z :=
  foldr Z.add 0 held + foldr Z.add 0 (map (amount_of c) (remove_dups arcs)).

Lemma total_split l : forall m, NoDup l -> (forall a, a ∈ l -> is_Some (m !! a)) -> map_Forall (fun _ cb => 0 <= cb_amount cb) m ->
  let s := foldr Z.add 0 (map (fun a => from_option cb_amount 0 (m !! a)) l) in
  s <= total m /\ ((forall a, is_Some (m !! a) -> a ∈ l) -> s = total m).
Proof.
  induction l as [|a l IH]; intros m Hnd Hin Hpos; cbn.
  - split; [by apply total_nonneg|]. intros Hall. assert (m = ∅) as ->; [|done]. apply map_empty. intros a.
    destruct (m !! a) eqn:E; [|done]. exfalso. by apply (not_elem_of_nil a), Hall.
  - apply NoDup_cons in Hnd as [Hnin Hnd]. destruct (Hin a ltac:(by left)) as [cb Ha]. rewrite (total_delete a cb), Ha by done. cbn.
    assert (map (fun b => from_option cb_amount 0 (m !! b)) l = map (fun b => from_option cb_amount 0 (delete a m !! b)) l) as ->.
    { apply map_ext_in. intros b Hb%list_elem_of_In. rewrite lookup_delete_ne; [done|]. by intros ->. }
    destruct (IH (delete a m)) as [H1 H2]; [done| | |].
    + intros b Hb. rewrite lookup_delete_ne by (by intros ->). apply Hin. by right.
    + by apply map_Forall_delete.
    + split; [lia|]. intros Hall. rewrite H2; [done|]. intros b [x Hb]. apply lookup_delete_Some in Hb as [Hne Hb].
      assert (b ∈ a :: l) as [->|?]%elem_of_cons by (apply Hall; by eexists); done.
Qed.

Lemma active_used c held arcs : cache_ok P c held arcs -> active c held arcs <= c_used c /\ (c_order c = [] -> active c held arcs = c_used c).
Proof.
  intros Hc. rewrite (ck_used Hc). unfold active. destruct (total_split (remove_dups arcs) (c_arcs c)) as [H1 H2].
  - apply NoDup_remove_dups.
  - intros a Ha. apply (ck_live Hc a). left. by apply (proj1 (elem_of_remove_dups _ _)) in Ha.
  - intros a cb Ha. destruct (ck_arcs Hc a cb Ha) as (_ & _ & Hl & _). pose proof (len_nonneg (cb_bytes cb)). lia.
  - fold (amount_of c) in *. unfold amount_of in *. split; [lia|]. intros Ho. rewrite H2; [done|]. intros a [cb Ha].
    apply (proj2 (elem_of_remove_dups _ _)). destruct (ck_arcs Hc a cb Ha) as (Hn & Hpos & _). rewrite in_cache_not in Hn; [apply uses_in; lia|].
    intros [k Hk]. assert (k ∈ c_order c) as Hin by (apply (proj2 (ck_order Hc)); by eexists). rewrite Ho in Hin. by apply not_elem_of_nil in Hin.
Qed.

Lemma active_keeps c c' held arcs : keeps arcs c c' -> active c' held arcs = active c held arcs.
Proof.
  intros Hk. unfold active. f_equal. f_equal. apply map_ext_in. intros a Ha%list_elem_of_In. apply (proj1 (elem_of_remove_dups _ _)) in Ha. specialize (Hk a Ha).
  unfold arc_data, amount_of in *. destruct (c_arcs c !! a), (c_arcs c' !! a); cbn in *; congruence.
Qed.

Lemma drop_same a c : c_order (drop_arc a c) = c_order c /\ c_values (drop_arc a c) = c_values c /\ c_limit (drop_arc a c) = c_limit c.
Proof. unfold drop_arc. destruct (c_arcs c !! a); [|done]. by destruct (_ =? 1). Qed.

Lemma evict_same key order c : c_order (evict key order c) = order /\ c_values (evict key order c) = delete key (c_values c) /\
  c_limit (evict key order c) = c_limit c.
Proof. unfold evict. destruct (c_values c !! key) as [a|]; cbn [from_option]; [|done]. destruct (drop_same a (unlink key order c)) as (-> & -> & ->). done. Qed.

(** The room there is. *)
Definition room (amount : Z) (c : Cache) : option Z := next ← checked_add 64 (c_used c) amount; if next <=? c_limit c then Some next else None.

Lemma room_some amount c held arcs next : cache_ok P c held arcs -> room amount c = Some next -> next = c_used c + amount /\ next <= c_limit c.
Proof.
  intros Hc E. unfold room, checked_add in E. destruct (try_uint _ _) as [n|] eqn:En; cbn in E; [|done]. apply try_uint_some in En as [-> _].
  destruct (Z.leb_spec (c_used c + amount) (c_limit c)); [|done]. by injection E as <-.
Qed.

Lemma room_none amount c held arcs : cache_ok P c held arcs -> 0 <= amount -> room amount c = None -> c_limit c < c_used c + amount.
Proof.
  intros Hc Ha E. pose proof (ck_limit Hc) as Hl. pose proof (ck_used Hc). pose proof (amounts_nonneg _ _ _ Hc). pose proof (sum_nonneg _ (ck_held Hc)).
  unfold is_uint in Hl. unfold room, checked_add in E. destruct (try_uint _ _) as [n|] eqn:En; cbn in E.
  - apply try_uint_some in En as [-> _]. destruct (Z.leb_spec (c_used c + amount) (c_limit c)); [done|lia].
  - apply try_uint_none in En. unfold is_uint in En. lia.
Qed.

(** [reserve] evicts the oldest values; it fails only if the amount does not fit
    next to what the readers hold. *)
Definition reserved (amount : Z) (held : list Z) (arcs : list nat) (c c' : Cache) (r : rresult Z) : Prop :=
  keeps arcs c c' /\ c_limit c' = c_limit c /\
  (exists gone, c_order c = gone ++ c_order c' /\ forall k, c_values c' !! k = if decide (k ∈ gone) then None else c_values c !! k) /\
  match r with
  | Ok x => x = amount /\ cache_ok P c' (amount :: held) arcs /\ active c held arcs + amount <= c_limit c
  | Err e => cache_ok P c' held arcs /\ (exists m, e = exhausted m) /\ c_limit c < active c held arcs + amount
  end.

Lemma reserve_loop_ok order : forall amount c held arcs, cache_ok P c held arcs -> c_order c = order -> 0 <= amount ->
  let '(r, c') := reserve_loop order amount c in reserved amount held arcs c c' r.
Proof.
  assert (forall amount c held arcs next, cache_ok P c held arcs -> 0 <= amount -> room amount c = Some next ->
    reserved amount held arcs c (charge next c) (Ok amount)) as Hfits.
  { intros amount c held arcs next Hc Ha E. destruct (room_some _ _ _ _ _ Hc E) as [-> Hle]. destruct (active_used _ _ _ Hc) as [Hau _].
    split_and!; try done; [|by apply ok_charge|lia]. exists []. split; [done|]. intros k. by rewrite decide_False by apply not_elem_of_nil. }
  induction order as [|key order IH]; intros amount c held arcs Hc Ho Ha; cbn [reserve_loop]; fold (room amount c).
  - destruct (room amount c) as [next|] eqn:E; [by apply Hfits|]. pose proof (room_none _ _ _ _ Hc Ha E). destruct (active_used _ _ _ Hc) as [_ Haz].
    specialize (Haz Ho). split_and!; try done; [|by eexists|lia]. exists []. split; [done|]. intros k. by rewrite decide_False by apply not_elem_of_nil.
  - destruct (room amount c) as [next|] eqn:E; [by apply Hfits|]. destruct (evict_same key order c) as (Eo & Ev & El).
    pose proof (evict_keeps key order c held arcs Hc Ho) as Hk.
    specialize (IH amount (evict key order c) held arcs (ok_evict _ _ _ _ _ Hc Ho) Eo Ha). destruct (reserve_loop _ _ _) as [r c'].
    destruct IH as (Hk' & Hl & (gone & Hg & Hv) & Hr). rewrite Eo in Hg. rewrite El in *. rewrite (active_keeps _ _ _ _ Hk) in Hr.
    split_and!; [by eapply keeps_trans|done| |done]. exists (key :: gone). rewrite Ho, Hg. split; [done|]. intros k. rewrite Hv, Ev.
    destruct (decide (k = key)) as [->|Hne].
    + rewrite lookup_delete_eq, (decide_True (P := key ∈ key :: gone)) by (by left). by case_decide.
    + rewrite lookup_delete_ne by done. apply decide_ext. rewrite elem_of_cons. naive_solver.
Qed.

Lemma reserve_ok amount c held arcs : cache_ok P c held arcs -> 0 <= amount ->
  let '(r, c') := reserve amount c in reserved amount held arcs c c' r.
Proof. intros. by apply reserve_loop_ok. Qed.

(** The other operations, as a reader sees them. *)
Lemma check_identity_ok c identity u : check_identity c identity = Ok u ->
  forall old n, c_identities c !! id_uri identity = Some (old, n) -> old = identity.
Proof. intros E%reject_ok old n Eo. rewrite Eo in E. by bool_to_prop. Qed.

Lemma linked_data c held arcs k a : cache_ok P c held arcs -> c_values c !! k = Some a -> P k (arc_bytes a c).
Proof.
  intros Hc Hk. destruct (ck_live Hc a ltac:(right; by exists k)) as [cb Hcb]. unfold arc_bytes. rewrite Hcb. by apply (ck_values Hc k a).
Qed.

Lemma clone_arc_bytes a b c : arc_bytes b (clone_arc a c) = arc_bytes b c.
Proof. apply (keeps_bytes [b]); [apply clone_keeps|by left]. Qed.

Definition got (key : Key) (held : list Z) (arcs : list nat) (c c' : Cache) (r : rresult (option nat)) : Prop :=
  match r with
  | Ok (Some a) => cache_ok P c' held (a :: arcs) /\ keeps arcs c c' /\ P key (arc_bytes a c')
  | Ok None => c' = c
  | Err e => c' = c /\ exists m, e = corrupt m
  end.

Lemma get_ok identity range c held arcs : cache_ok P c held arcs ->
  let '(r, c') := get identity range c in got (range_key identity range) held arcs c c' r.
Proof.
  intros Hc. unfold get, check_identity. destruct (match _ with Some _ => _ | None => _ end) eqn:E; cbn [reject]; [split; [done|by eexists]|].
  destruct (c_values c !! _) as [a|] eqn:Ea; [|done]. cbn [got]. split_and!.
  - apply ok_clone; [done|]. right. by eexists.
  - apply clone_keeps.
  - rewrite clone_arc_bytes. by eapply linked_data.
Qed.

Lemma get_page_ok key c held arcs : cache_ok P c held arcs ->
  let '(r, c') := get_page key c in got (AuthenticatedPage key) held arcs c c' r.
Proof.
  intros Hc. unfold get_page. destruct (c_values c !! _) as [a|] eqn:Ea; [|done].
  destruct (negb _); [split; [done|by eexists]|]. cbn [got]. split_and!.
  - apply ok_clone; [done|]. right. by eexists.
  - apply clone_keeps.
  - rewrite clone_arc_bytes. by eapply linked_data.
Qed.

Lemma release_keeps arcs x c : keeps arcs c (release x c).
Proof. done. Qed.

(** A vector that leaves 256 bytes of its reservation. *)
Definition too_big (capacity extra x : Z) : bool :=
  match checked_add 64 capacity extra with Some size => x <? size | None => true end.

Lemma too_big_not capacity extra x : too_big capacity extra x = false -> capacity + extra <= x.
Proof.
  unfold too_big, checked_add. destruct (try_uint _ _) as [size|] eqn:E; [|done]. apply try_uint_some in E as [-> _]. lia.
Qed.

(** A new value enters the cache. *)
Lemma ok_admit key b x identities c held arcs : cache_ok P c (x :: held) arcs -> len b <= x - 256 -> c_values c !! key = None ->
  P key b -> identities_ok (c_order c ++ [key]) identities ->
  let '(a, c') := new_arc b x c in
  cache_ok P (link key a identities c') held arcs /\ keeps arcs c (link key a identities c') /\
  arc_bytes a (link key a identities c') = b /\ linked a (c_values (link key a identities c')).
Proof.
  intros Hc Hb Hk HP Hi. pose proof (ok_new_arc b x c held arcs Hc Hb) as Hn. unfold new_arc in *. destruct Hn as (Hc' & Hnl & Ha & Hna).
  split_and!.
  - apply ok_link; try done. unfold arc_bytes. by rewrite Ha.
  - intros d Hd. unfold arc_data. cbn. rewrite lookup_insert_ne; [done|]. by intros <-.
  - unfold arc_bytes. cbn. by rewrite lookup_insert_eq.
  - exists key. cbn. by rewrite lookup_insert_eq.
Qed.

Lemma insert_page_ok key b capacity x c held arcs : cache_ok P c (x :: held) arcs -> len b <= capacity -> P (AuthenticatedPage key) b ->
  let '(r, c') := insert_page key b capacity x c in cache_ok P c' held arcs /\ keeps arcs c c'.
Proof.
  intros Hc Hb HP. unfold insert_page. assert (cache_ok P (release x c) held arcs) as Hr by (by apply ok_release).
  destruct (negb _); [done|]. fold (too_big capacity 256 x). destruct (too_big capacity 256 x) eqn:Et; [done|]. apply too_big_not in Et.
  destruct (c_values c !! AuthenticatedPage key) as [a|] eqn:Ea; [done|].
  assert (identities_ok (c_order c ++ [AuthenticatedPage key]) (c_identities c)) as Hi.
  { intros uri. rewrite ranges_snoc. cbn. rewrite Z.add_0_r. apply (ck_identities Hc). }
  pose proof (ok_admit (AuthenticatedPage key) b x (c_identities c) c held arcs Hc ltac:(lia) Ea HP Hi) as Hn. cbn [new_arc] in *. naive_solver.
Qed.

Lemma insert_range_ok identity range b capacity x c held arcs : cache_ok P c (x :: held) arcs -> len b <= capacity ->
  P (range_key identity range) b ->
  let '(r, c') := insert_range identity range b capacity x c in
  match r with
  | Ok a => cache_ok P c' held (a :: arcs) /\ keeps arcs c c' /\ P (range_key identity range) (arc_bytes a c')
  | Err e => cache_ok P c' held arcs /\ keeps arcs c c'
  end.
Proof.
  intros Hc Hb HP. unfold insert_range. assert (cache_ok P (release x c) held arcs) as Hr by (by apply ok_release).
  set (extra := 256 + str_len (id_uri identity) * 4). fold (too_big capacity extra x). destruct (too_big capacity extra x) eqn:Et; [done|].
  apply too_big_not in Et. assert (0 <= str_len (id_uri identity)) by apply len_nonneg.
  destruct (check_identity c identity) as [u|e] eqn:Ei; [|done]. pose proof (check_identity_ok _ _ _ Ei) as Hsame.
  destruct (c_values c !! range_key identity range) as [a|] eqn:Ea.
  - assert (linked a (c_values c)) as Hla by (by eexists). pose proof (ok_clone a c (x :: held) arcs Hc (or_intror Hla)) as Hcl.
    split; [by apply ok_release|]. split; [apply clone_keeps|]. change (P (range_key identity range) (arc_bytes a (clone_arc a c))).
    rewrite clone_arc_bytes. by eapply linked_data.
  - pose proof (ok_admit (range_key identity range) b x (remember identity (c_identities c)) c held arcs Hc ltac:(lia) Ea HP
      (remember_ok _ _ _ _ Hsame (ck_identities Hc))) as Hn. cbn [new_arc] in *. destruct Hn as (Hn & Hkeep & Hbytes & Hl).
    split_and!.
    + apply ok_clone; [done|by right].
    + eapply keeps_trans; [exact Hkeep|apply clone_keeps].
    + rewrite clone_arc_bytes. exact (eq_ind_r (P _) HP Hbytes).
Qed.
End steps.

(** ** Reachable states *)

Lemma without_perm {A} (l : list A) i x : l !! i = Some x -> l ≡ₚ x :: without i l.
Proof. intros Hx. unfold without. rewrite <- (take_drop_middle l i x Hx) at 1. symmetry. apply Permutation_middle. Qed.

Definition page_sized (k : Key) (b : bytes) : Prop := match k with AuthenticatedPage _ => len b = 4096 | ObjectRange _ _ _ => True end.

Definition readers_ok (s : Readers) : Prop := cache_ok page_sized (rd_cache s) (rd_held s) (rd_arcs s).

(** A page of another length is refused by [insert_page] itself. *)
Lemma insert_page_any key b capacity x c held arcs : cache_ok page_sized c (x :: held) arcs -> len b <= capacity ->
  cache_ok page_sized (insert_page key b capacity x c).2 held arcs.
Proof.
  intros Hc Hb. destruct (decide (len b = 4096)) as [E|E].
  - pose proof (insert_page_ok page_sized key b capacity x c held arcs Hc Hb E) as Hi. destruct (insert_page _ _ _ _ _). by destruct Hi.
  - unfold insert_page. destruct (Z.eqb_spec (len b) 4096); [done|]. cbn. by apply ok_release.
Qed.

Lemma cache_step_ok s op : readers_ok s -> cache_op_ok op -> readers_ok (cache_step s op).
Proof.
  unfold readers_ok. destruct s as [c held arcs], op; cbn; intros Hc Hop.
  - pose proof (reserve_ok page_sized amount c held arcs Hc Hop) as Hr. destruct (reserve amount c) as [[x|e] c']; cbn;
      destruct Hr as (_ & _ & _ & Hr); [by destruct Hr as (-> & ? & _)|by destruct Hr].
  - destruct (held !! i) as [x|] eqn:E; [|done]. cbn. apply (ok_perm _ _ _ (x :: without i held) arcs arcs), ok_release in Hc as [? _]; [done| |done].
    by apply without_perm.
  - destruct (held !! i) as [x|] eqn:E; [|done]. destruct (Z.leb_spec amount x); [|done]. cbn.
    apply (ok_perm _ _ _ (x :: without i held) arcs arcs) in Hc; [|by apply without_perm|done].
    unfold shrink_to. apply (ok_release page_sized (x - amount)). destruct Hc as [Hu Hp Hl Hheld Harcs Hlive Honce Hord Hids Hvals].
    apply Forall_cons in Hheld as [? Hheld]. constructor; try done; [cbn in *; lia|]. constructor; [lia|]. by constructor.
  - pose proof (get_ok page_sized identity range c held arcs Hc) as Hg. destruct (get _ _ _) as [[[a|]|e] c']; cbn in *; [naive_solver|naive_solver|].
    by destruct Hg as [-> _].
  - pose proof (get_page_ok page_sized key c held arcs Hc) as Hg. destruct (get_page _ _) as [[[a|]|e] c']; cbn in *; [naive_solver|naive_solver|].
    by destruct Hg as [-> _].
  - destruct (held !! i) as [x|] eqn:E; [|done]. apply (ok_perm _ _ _ (x :: without i held) arcs arcs) in Hc; [|by apply without_perm|done].
    pose proof (insert_range_ok page_sized identity range b capacity x c (without i held) arcs Hc Hop I) as Hi.
    destruct (insert_range _ _ _ _ _ _) as [[a|e] c']; cbn; tauto.
  - destruct (held !! i) as [x|] eqn:E; [|done]. apply (ok_perm _ _ _ (x :: without i held) arcs arcs) in Hc; [|by apply without_perm|done].
    pose proof (insert_page_any key b capacity x c (without i held) arcs Hc Hop) as Hi. by destruct (insert_page _ _ _ _ _).
  - destruct (arcs !! i) as [a|] eqn:E; [|done]. cbn. apply ok_drop. eapply ok_perm; [done| |exact Hc]. by apply without_perm.
Qed.

Lemma cache_run_ok limit ops : is_usize limit -> Forall cache_op_ok ops -> readers_ok (cache_run limit ops).
Proof.
  intros Hl Hops. assert (readers_ok (MkReaders (cache_new limit) [] [])) as Hs by (by apply ok_new_cache).
  unfold cache_run. revert Hs. generalize (MkReaders (cache_new limit) [] []). induction Hops as [|op ops Hop Hops IH]; intros s Hs; [done|].
  apply IH. by apply cache_step_ok.
Qed.

(** The bytes that are alive, in the cache or with a reader. *)
Definition alive_bytes (c : Cache) : Z := map_fold (fun _ cb t => len (cb_bytes cb) + t) 0 (c_arcs c).

Lemma alive_total m : map_Forall (fun _ cb => len (cb_bytes cb) <= cb_amount cb) m ->
  map_fold (fun _ cb t => len (cb_bytes cb) + t) 0 m <= total m.
Proof.
  induction m as [|a cb m Ha IH] using map_ind; [done|]. intros [? ?]%map_Forall_insert; [|done].
  rewrite total_insert, map_fold_insert_L by (done || intros; lia). specialize (IH ltac:(done)). lia.
Qed.

Lemma cache_step_limit s op : readers_ok s -> cache_op_ok op -> c_limit (rd_cache (cache_step s op)) = c_limit (rd_cache s).
Proof.
  assert (forall a c, c_limit (clone_arc a c) = c_limit c) as Hcl by (intros a c; unfold clone_arc; by destruct (c_arcs c !! a)).
  destruct s as [c held arcs]. unfold readers_ok. cbn [rd_cache rd_held rd_arcs]. intros Hc Hop. destruct op; cbn in *.
  - pose proof (reserve_ok page_sized amount c held arcs Hc Hop) as Hr. destruct (reserve amount c) as [[x|e] c']; by destruct Hr as (_ & ? & _).
  - by destruct (held !! i).
  - destruct (held !! i); [|done]. by destruct (_ <=? _).
  - unfold get. destruct (check_identity _ _); [|done]. destruct (c_values c !! _); [|done]. apply Hcl.
  - unfold get_page. destruct (c_values c !! _); [|done]. destruct (negb _); [done|]. apply Hcl.
  - destruct (held !! i) as [x|]; [|done]. unfold insert_range. destruct (match _ with Some _ => _ | None => _ end); [done|].
    destruct (check_identity _ _); [|done]. destruct (c_values c !! _); cbn; by rewrite Hcl.
  - destruct (held !! i) as [x|]; [|done]. unfold insert_page. destruct (negb _); [done|]. destruct (match _ with Some _ => _ | None => _ end); [done|].
    by destruct (c_values c !! _).
  - destruct (arcs !! i); [|done]. apply drop_same.
Qed.

Lemma cache_run_limit limit ops : is_usize limit -> Forall cache_op_ok ops -> c_limit (rd_cache (cache_run limit ops)) = limit.
Proof.
  intros Hl Hops. assert (readers_ok (MkReaders (cache_new limit) [] [])) as Hs by (by apply ok_new_cache).
  unfold cache_run. change limit with (c_limit (rd_cache (MkReaders (cache_new limit) [] []))) at 2. revert Hs.
  generalize (MkReaders (cache_new limit) [] []). induction Hops as [|op ops Hop Hops IH]; intros s Hs; [done|]. cbn [fold_left].
  rewrite IH by (by apply cache_step_ok). by apply cache_step_limit.
Qed.

(** ** Properties *)

(** C15: whatever readers do with the cache, the bytes alive in the cache or in their
    hands never exceed the budget. The counter is exactly what the reservations
    held and the live byte strings were charged, within the recorded peak and the
    limit; what a reader holds is alive; the queue lists every cached key once; an
    identity is remembered with the number of its cached ranges; cached pages have
    4096 bytes; and when everything is dropped and evicted nothing remains charged. *)
Theorem cache_budget_kept (limit : Z) (ops : list CacheOp) (Hlimit : is_usize limit) (Hops : Forall cache_op_ok ops) :
  let s := cache_run limit ops in
  let c := rd_cache s in
  c_used c = foldr Z.add 0 (rd_held s) + total (c_arcs c) /\
  foldr Z.add 0 (rd_held s) + alive_bytes c <= c_used c <= c_peak c /\ c_peak c <= limit /\
  (forall a, a ∈ rd_arcs s -> is_Some (c_arcs c !! a)) /\
  (NoDup (c_order c) /\ forall k, k ∈ c_order c <-> is_Some (c_values c !! k)) /\
  identities_ok (c_order c) (c_identities c) /\
  (forall key a, c_values c !! AuthenticatedPage key = Some a -> len (arc_bytes a c) = 4096) /\
  (rd_held s = [] -> rd_arcs s = [] -> c_order c = [] -> c_used c = 0 /\ c_arcs c = ∅).
Proof.
  intros s c. pose proof (cache_run_ok limit ops Hlimit Hops) as Hc. pose proof (cache_run_limit limit ops Hlimit Hops) as Hl.
  fold s in Hc, Hl. unfold readers_ok in Hc. fold c in Hc, Hl. pose proof (ck_peak Hc) as Hp. rewrite Hl in Hp.
  assert (alive_bytes c <= total (c_arcs c)) as Ha.
  { apply alive_total. intros a cb Ha. destruct (ck_arcs Hc a cb Ha) as (_ & _ & ? & _). lia. }
  pose proof (ck_used Hc) as Hu. split_and!; try lia; try done.
  - intros a Hin. apply (ck_live Hc). by left.
  - apply (ck_order Hc).
  - apply (ck_order Hc).
  - exact (ck_identities Hc).
  - intros key a Hk. by apply (linked_data page_sized c _ _ (AuthenticatedPage key) a Hc).
  - intros Hh Har Ho. assert (c_arcs c = ∅) as Hz; [|split; [|done]; rewrite Hu, Hh, Hz; done].
    apply map_empty. intros a. destruct (c_arcs c !! a) as [cb|] eqn:E; [|done]. exfalso.
    destruct (ck_arcs Hc a cb E) as (Hn & Hpos & _). rewrite Har in Hn. change (uses a []) with 0 in Hn.
    rewrite in_cache_not in Hn; [lia|]. intros [k Hk]. assert (k ∈ c_order c) as Hin by (apply (proj2 (ck_order Hc)); by eexists).
    rewrite Ho in Hin. by apply not_elem_of_nil in Hin.
Qed.

(** C26: a reservation succeeds exactly when it fits next to what the readers hold,
    whatever the cache is filled with: the oldest entries are evicted for it, each
    out of the map with the queue; nothing a reader holds changes. It fails with the
    error of an exhausted budget, never another. *)
Theorem cache_reserve_exact (limit : Z) (ops : list CacheOp) (amount : Z) (Hlimit : is_usize limit) (Hops : Forall cache_op_ok ops)
    (Hamount : 0 <= amount) :
  let s := cache_run limit ops in
  let c := rd_cache s in
  let '(r, c') := reserve amount c in
  (r = Ok amount <-> active c (rd_held s) (rd_arcs s) + amount <= limit) /\
  (r <> Ok amount -> exists m, r = Err (RuntimeError.ResourceExhausted m)) /\
  (exists gone, c_order c = gone ++ c_order c' /\ forall k, c_values c' !! k = if decide (k ∈ gone) then None else c_values c !! k) /\
  (forall a, a ∈ rd_arcs s -> arc_data a c' = arc_data a c).
Proof.
  intros s c. pose proof (cache_run_ok limit ops Hlimit Hops) as Hc. pose proof (cache_run_limit limit ops Hlimit Hops) as Hl.
  pose proof (reserve_ok page_sized amount c (rd_held s) (rd_arcs s) Hc Hamount) as Hr. fold s in Hl. fold c in Hl.
  destruct (reserve amount c) as [r c']. destruct Hr as (Hk & _ & Hg & Hr). rewrite Hl in Hr. split_and!; try done.
  - destruct r as [x|e]; [destruct Hr as (-> & _ & ?); done|]. destruct Hr as (_ & _ & ?). split; [done|lia].
  - destruct r as [x|e]; [by destruct Hr as (-> & _)|]. destruct Hr as (_ & [m ->] & _). by exists m.
Qed.

(** ** Example *)

Definition example_page : PageKey := MkPageKey (MkSha256 []) false 1.

(** A page is admitted, read and held; the budget is then too small for another. *)
Definition example_cache_ops : list CacheOp :=
  [OpReserve 4352; OpInsertPage example_page (repeat Byte.x07 4096) 4096 0; OpGetPage example_page; OpReserve 4096].

Lemma example_cache_ops_ok : Forall cache_op_ok example_cache_ops.
Proof. unfold example_cache_ops. repeat (apply Forall_cons; split; [cbn; lia || done|]). constructor. Qed.

Lemma cache_budget_kept_witness :
  let s := cache_run 8192 example_cache_ops in
  c_used (rd_cache s) = 4352 /\ c_peak (rd_cache s) <= 8192.
Proof.
  intros s. destruct (cache_budget_kept 8192 example_cache_ops ltac:(split; lia) example_cache_ops_ok) as (_ & _ & Hp & _).
  split; [vm_compute; reflexivity|exact Hp].
Defined.

Lemma cache_reserve_exact_witness :
  let s := cache_run 8192 example_cache_ops in
  exists m, (reserve 4096 (rd_cache s)).1 = Err (RuntimeError.ResourceExhausted m).
Proof.
  pose proof (cache_reserve_exact 8192 example_cache_ops 4096 ltac:(split; lia) example_cache_ops_ok ltac:(lia)) as Hr.
  cbv zeta in *. destruct (reserve 4096 (rd_cache (cache_run 8192 example_cache_ops))) as [r c'] eqn:E. destruct Hr as (_ & Hr & _).
  apply Hr. intros ->. apply (f_equal (fun x => is_ok x.1)) in E. vm_compute in E. discriminate E.
Defined.
