(* ===== verification/Reader.v ===== *)
(** Reading single pages of a metadata image (otmp/src/reader/pages.rs and the
    options of otmp/src/reader/mod.rs): bounded range reads through the cache, the
    walk from the page map or the checkpoint index to one page, and its checks. *)
From S2P Require Import Prelude Bytes Errors Values Scalars Cbor PageMap CheckpointIndex PagePack Hashes PageTree PageLoad.
From S2P Require Import ByteArray Storage CanonicalJson Objects CheckpointBuild Resolve Cache.

(** ** Options *)

Record ReaderOptions := {
  cache_budget_bytes : Z;
  engine_page_cache_bytes : Z;
  checkpoint_window_bytes : Z;
  max_inflight_reads : Z;
  maximum_record_bytes : Z }.

Definition default_options : ReaderOptions :=
  {| cache_budget_bytes := 64 * 1024 * 1024; engine_page_cache_bytes := 4 * 1024 * 1024; checkpoint_window_bytes := 64 * 1024;
     max_inflight_reads := 8; maximum_record_bytes := 1024 * 1024 |}.

Definition validate_options (o : ReaderOptions) : rresult unit :=
  reject ((cache_budget_bytes o <? 4096) || (engine_page_cache_bytes o <? 4096) || (checkpoint_window_bytes o <? 4096)
          || negb (checkpoint_window_bytes o mod 4096 =? 0) || (cache_budget_bytes o <? checkpoint_window_bytes o)
          || negb ((1 <=? max_inflight_reads o) && (max_inflight_reads o <=? 8))
          || (maximum_record_bytes o <? 4096) || (cache_budget_bytes o / 8 <? maximum_record_bytes o))
    (exhausted "invalid reader budgets").

(** ** The reader's state *)

(** The store, the cache and the counters that the clones of a context share. *)
Record Reader {S : Type} := MkReader {
  rx_store : S; rx_cache : Cache; rx_requests : Z; rx_bytes : Z; rx_pages : Z; rx_hits : Z }.
Arguments Reader S : clear implicits.
Arguments MkReader {S}.

Definition M (S A : Type) : Type := Reader S -> rresult A * Reader S.
#[export] Instance reader_ret S : MRet (M S) := fun A a s => (Ok a, s).
#[export] Instance reader_bind S : MBind (M S) := fun A B f m s =>
  match m s with
  | (Ok a, s) => f a s
  | (Err e, s) => (Err e, s)
  end.

Section monad.
Context {S : Type}.

(** [?] on a result *)
Definition pure {A} (m : rresult A) : M S A := fun s => (m, s).
Definition refuse_when (b : bool) (message : string) : M S unit := pure (reject b (corrupt message)).

Definition with_cache (c : Cache) (s : Reader S) : Reader S :=
  MkReader (rx_store s) c (rx_requests s) (rx_bytes s) (rx_pages s) (rx_hits s).
Definition on_cache {A} (f : Cache -> rresult A * Cache) : M S A := fun s =>
  let '(r, c) := f (rx_cache s) in (r, with_cache c s).
Definition on_store {A} (f : S -> sresult A * S) : M S A := fun s =>
  let '(r, store) := f (rx_store s) in
  (map_err RuntimeError.Storage r, MkReader store (rx_cache s) (rx_requests s) (rx_bytes s) (rx_pages s) (rx_hits s)).

(** [fetch_add] on a counter *)
Definition plus64 (x n : Z) : Z := (x + n) mod 2 ^ 64.
Definition count_request : M S unit := fun s =>
  (Ok tt, MkReader (rx_store s) (rx_cache s) (plus64 (rx_requests s) 1) (rx_bytes s) (rx_pages s) (rx_hits s)).
Definition count_bytes (n : Z) : M S unit := fun s =>
  (Ok tt, MkReader (rx_store s) (rx_cache s) (rx_requests s) (plus64 (rx_bytes s) n) (rx_pages s) (rx_hits s)).
Definition count_page : M S unit := fun s =>
  (Ok tt, MkReader (rx_store s) (rx_cache s) (rx_requests s) (rx_bytes s) (plus64 (rx_pages s) 1) (rx_hits s)).
Definition count_hit : M S unit := fun s =>
  (Ok tt, MkReader (rx_store s) (rx_cache s) (rx_requests s) (rx_bytes s) (rx_pages s) (plus64 (rx_hits s) 1)).

(** Owned values are dropped when their scope ends, also by [?]: a shared byte
    string, and a reservation. *)
Definition with_arc {A} (m : M S nat) (body : bytes -> M S A) : M S A := fun s =>
  match m s with
  | (Ok a, s) => let '(r, s) := body (arc_bytes a (rx_cache s)) s in (r, with_cache (drop_arc a (rx_cache s)) s)
  | (Err e, s) => (Err e, s)
  end.
Definition reserving {A} (amount : Z) (body : M S A) : M S A := fun s =>
  match reserve amount (rx_cache s) with
  | (Ok x, c) => let '(r, s) := body (with_cache c s) in (r, with_cache (release x (rx_cache s)) s)
  | (Err e, c) => (Err e, with_cache c s)
  end.
(** A reservation that is dropped unless the body ends well. *)
Definition or_release {A} (x : Z) (body : M S A) : M S A := fun s =>
  match body s with
  | (Ok a, s) => (Ok a, s)
  | (Err e, s) => (Err e, with_cache (release x (rx_cache s)) s)
  end.
End monad.

(** [zstd::bulk::Decompressor] with a window of 2^12 bytes; the capacity of a
    vector that holds the bytes. *)
Class ReaderCrates := {
  zstd_decompress_window : bytes -> Z -> result string bytes;
  vec_capacity : bytes -> Z }.

Section context.
Context `{HexCrate, Sha2Crate, ReaderCrates} `{ToJson Generation} {S : Type} `{ObjectStore S} (options : ReaderOptions).
Notation M := (M S).

(** ** Range reads *)

Definition reader_new (store : S) : rresult (Reader S) :=
  _ ← validate_options options; Ok (MkReader store (cache_new (cache_budget_bytes options)) 0 0 0 0).

Definition stat (uri : RelativeUri) : M ObjectMetadata := _ ← count_request; on_store (fun s => os_stat s uri).

(** One response, checked against the request. *)
Definition read_checked (uri : RelativeUri) (rng : Z * Z) (metadata : ObjectMetadata) : M bytes :=
  _ ← count_request;
  response ← on_store (fun s => os_read_range s uri rng metadata);
  _ ← pure (map_err RuntimeError.Storage (validate_stored_range response metadata rng));
  _ ← count_bytes (len (sr_bytes response));
  mret (sr_bytes response).

Definition mutable_range (uri : RelativeUri) (metadata : ObjectMetadata) : M bytes :=
  read_checked uri (0, om_length metadata) metadata.

Definition token_len (metadata : ObjectMetadata) : Z := str_len (version_token (om_version metadata)).

Definition fill_range (reference : PageObjectReference) (metadata : ObjectMetadata) (identity : Identity) (rng : Z * Z) : M nat :=
  cached ← on_cache (get identity rng);
  match cached with
  | Some a => _ ← count_hit; mret a
  | None =>
    let size := rng.2 - rng.1 in
    allocation ← pure (ok_or (n ← checked_mul 64 size 2; checked_add 64 n (1024 + str_len (id_uri identity) * 4 + token_len metadata * 2))
                         (exhausted "range allocation overflow"));
    x ← on_cache (reserve allocation);
    b ← or_release x (read_checked (ref_uri reference) rng metadata);
    on_cache (insert_range identity rng b (vec_capacity b) x)
  end.

(** For one reader at a time: then no other load is in flight, and the load
    registered here is gone when the call returns. *)
Definition range (reference : PageObjectReference) (metadata : ObjectMetadata) (rng : Z * Z) : M nat :=
  _ ← refuse_when (negb (ref_length reference =? om_length metadata)) "object length differs from authenticated reference";
  _ ← pure (map_err RuntimeError.Storage (validate_range_request metadata rng));
  let identity := MkIdentity (uri_str (ref_uri reference)) (ref_sha256 reference) (ref_length reference) (Some (om_version metadata)) in
  cached ← on_cache (get identity rng);
  match cached with
  | Some a => _ ← count_hit; mret a
  | None => reserving (512 + str_len (id_uri identity) * 4 + token_len metadata * 2) (fill_range reference metadata identity rng)
  end.

(** The bytes are kept if they have the hash of the reference. *)
Definition authenticate (reference : PageObjectReference) (a : nat) : M nat := fun s =>
  if bool_decide (digest (arc_bytes a (rx_cache s)) = ref_sha256 reference) then (Ok a, s)
  else (Err (corrupt "authenticated metadata object hash mismatch"), with_cache (drop_arc a (rx_cache s)) s).
Definition node (reference : PageObjectReference) (metadata : ObjectMetadata) : M nat :=
  a ← range reference metadata (0, ref_length reference);
  authenticate reference a.

Definition object (reference : ObjectReference) : M nat :=
  metadata ← stat (or_uri reference);
  _ ← refuse_when (match or_length reference with Some n => negb (n =? om_length metadata) | None => false end) "object reference length mismatch";
  node (MkRef (or_uri reference) (or_sha256 reference) (om_length metadata)) metadata.

Definition immutable_metadata (reference : PageObjectReference) : M ObjectMetadata := fun s =>
  match metadata_for reference (rx_cache s) with
  | Err e => (Err e, s)
  | Ok (Some metadata) => (Ok metadata, s)
  | Ok None => stat (ref_uri reference) s
  end.

Definition tree_node (reference : PageObjectReference) : M nat :=
  _ ← refuse_when ((ref_length reference =? 0) || (1024 * 1024 <? ref_length reference)) "invalid authenticated tree node size";
  metadata ← immutable_metadata reference;
  node reference metadata.

(** A tree node, decoded; the reservation covers the decoded form. *)
Definition with_tree_node {A} (reference : PageObjectReference) (body : bytes -> M A) : M A :=
  with_arc (tree_node reference) (fun raw => reserving (Z.min (2 ^ 64 - 1) (len raw * 6) + 4096) (body raw)).

(** ** Images *)

Record AuthenticatedImage := {
  ai_generation : Generation; ai_checkpoint : ObjectMetadata; ai_fingerprint : Sha256; ai_base_only : bool }.

Definition generation_fingerprint (g : Generation) (checkpoint : ObjectMetadata) : rresult Sha256 :=
  json ← map_err (fun e => corrupt ("generation fingerprint: " +:+ e)) (serde_to_vec g);
  Ok (digest (as_bytes "otmp.reader.authenticated-page.v1" ++ [Byte.x00] ++ json ++ [Byte.x00] ++ as_bytes "checkpoint-revision"
              ++ [Byte.x00] ++ as_bytes (version_token (om_version checkpoint)))).

Definition image (g : Generation) : M AuthenticatedImage :=
  _ ← pure (of_protocol (validate_generation g));
  let im := g_metadata_image g in
  index ← pure (ok_or (mi_checkpoint_page_index im) RuntimeError.AuthenticatedRangesUnavailable);
  _ ← pure (of_protocol (validate_page_index index (mi_checkpoint im) (mi_page_size im)));
  _ ← refuse_when ((mi_page_count im =? 0) || (2 ^ 32 - 1 <? mi_page_count im)
                   || match mi_page_map im with Some r => 64 <? root_height r | None => false end
                   || negb (bool_decide (image_root_hash (g_table_id g) (g_table_version g) (mi_page_size im) (mi_page_count im)
                                           (ck_sha256 (mi_checkpoint im)) (root_sha256 <$> mi_page_map im) = mi_image_root_sha256 im)))
        "invalid logical image identity or geometry";
  _ ← refuse_when (negb (bool_decide (is_Some (mi_page_map im))) && negb (mi_page_count im =? ci_page_count index))
        "null map does not cover image";
  checkpoint ← stat (ck_uri (mi_checkpoint im));
  _ ← refuse_when (negb (om_length checkpoint =? ck_length (mi_checkpoint im))) "checkpoint length mismatch";
  fingerprint ← pure (generation_fingerprint g checkpoint);
  mret {| ai_generation := g; ai_checkpoint := checkpoint; ai_fingerprint := fingerprint; ai_base_only := false |}.

Definition checkpoint_view (a : AuthenticatedImage) : AuthenticatedImage :=
  {| ai_generation := ai_generation a; ai_checkpoint := ai_checkpoint a; ai_fingerprint := ai_fingerprint a; ai_base_only := true |}.

Section authenticated.
Context (self : AuthenticatedImage).

Definition image_length : Z :=
  if ai_base_only self then om_length (ai_checkpoint self) else mi_page_count (g_metadata_image (ai_generation self)) * 4096.

(** ** The entry of a page *)

(** A round of the loop ends it, or goes on to a child. *)
Inductive mapping_step :=
| Mapped (e : option PageMapEntry)
| Descend (child : PageObjectReference) (lower upper : Z).

Definition mapping_round (page height lower upper : Z) (is_root : bool) (raw : bytes) : rresult mapping_step :=
  node ← of_protocol (decode_page_map raw);
  _ ← reject (negb (PageMapNode.level node =? height)
              || match PageMapNode.max_page node with
                 | Some n => (upper <? n) || negb is_root && negb (n =? upper)
                 | None => true
                 end) (corrupt "invalid page-map height or interval");
  match node with
  | PageMapNode.Leaf entries =>
    _ ← reject (match entries with e :: _ => e_page_number e <=? lower | [] => false end) (corrupt "overlapping page-map interval");
    Ok (Mapped (match binary_search_by (fun e => e_page_number e ?= page) entries with
                | Ok i => entries !! i
                | Err _ => None
                end))
  | PageMapNode.Internal _ entries =>
    _ ← reject (match entries with e :: _ => b_max_page e <=? lower | [] => false end) (corrupt "overlapping page-map child interval");
    let position := partition_point (fun e => b_max_page e <? page) entries in
    match entries !! position with
    | None => Ok (Mapped None)
    | Some child =>
      let lower := if (0 <? Z.of_nat position) then from_option b_max_page lower (entries !! (position - 1)%nat) else lower in
      Ok (Descend (b_child child) lower (b_max_page child))
    end
  end.

(** [height] falls by one with every round: a node at height 0 is a leaf, since
    the decoder refuses an internal node of level 0. *)
Fixpoint mapping_loop (height : nat) (page : Z) (reference : PageObjectReference) (lower upper : Z) (is_root : bool) : M (option PageMapEntry) :=
  step ← with_tree_node reference (fun raw => pure (mapping_round page (Z.of_nat height) lower upper is_root raw));
  match step, height with
  | Mapped e, _ => mret e
  | Descend child lower upper, Datatypes.S height => mapping_loop height page child lower upper false
  | Descend _ _ _, O => pure (Err (corrupt "height underflow"))
  end.

Definition mapping (page : Z) : M (option PageMapEntry) :=
  if ai_base_only self then mret None else
  match mi_page_map (g_metadata_image (ai_generation self)) with
  | None => mret None
  | Some root => mapping_loop (Z.to_nat (root_height root)) page (root_reference root) 0 (image_length / 4096) true
  end.

(** ** The hash of a checkpoint page *)

Inductive index_step :=
| Hashed (h : Sha256)
| DescendIndex (child : CheckpointIndexChild).

Definition index_round (page height first count : Z) (raw : bytes) : rresult index_step :=
  node ← of_protocol (decode_checkpoint_index raw);
  _ ← reject (negb (CheckpointIndexNode.level node =? height) || negb (CheckpointIndexNode.first_page node =? first)
              || negb (CheckpointIndexNode.page_count node =? count)) (corrupt "checkpoint index interval or height mismatch");
  match node with
  | CheckpointIndexNode.Leaf first_page hashes =>
    offset ← ok_or (checked_sub 64 page first_page) (corrupt "checkpoint leaf index exceeds platform size");
    h ← ok_or (hashes !! Z.to_nat offset) (corrupt "checkpoint hash missing");
    Ok (Hashed h)
  | CheckpointIndexNode.Internal _ entries =>
    child ← ok_or (List.find (fun e => (c_first_page e <=? page) && (page - c_first_page e <? c_page_count e)) entries)
              (corrupt "checkpoint index gap");
    Ok (DescendIndex child)
  end.

Fixpoint index_loop (height : nat) (page : Z) (reference : PageObjectReference) (first count : Z) : M Sha256 :=
  step ← with_tree_node reference (fun raw => pure (index_round page (Z.of_nat height) first count raw));
  match step, height with
  | Hashed h, _ => mret h
  | DescendIndex child, Datatypes.S height => index_loop height page (c_child child) (c_first_page child) (c_page_count child)
  | DescendIndex _, O => pure (Err (corrupt "height underflow"))
  end.

Definition checkpoint_hash (page : Z) : M Sha256 :=
  index ← pure (ok_or (mi_checkpoint_page_index (g_metadata_image (ai_generation self))) RuntimeError.AuthenticatedRangesUnavailable);
  _ ← refuse_when ((page =? 0) || (ci_page_count index <? page)) "missing extended metadata page";
  index_loop (Z.to_nat (root_height (ci_root index))) page (root_reference (ci_root index)) 1 (ci_page_count index).

(** ** One page *)

(** The index entry of the page must be the entry of the map. *)
Definition check_indexed (entry : PageMapEntry) (page : Z) (header index_raw : bytes) : rresult unit :=
  index ← of_protocol (decode_pack_index_parts header index_raw (ref_length (e_pack entry)));
  position ← match binary_search_by (fun e => p_page_number e ?= page) (pi_entries index) with
             | Ok i => Ok i
             | Err _ => Err (corrupt "mapped page absent from pack index")
             end;
  indexed ← ok_or (pi_entries index !! position) (corrupt "mapped page absent from pack index");
  reject (negb (p_offset indexed =? e_offset entry) || negb (p_stored_length indexed =? e_stored_length entry)
          || negb (p_raw_length indexed =? e_raw_length entry) || negb (bool_decide (p_codec indexed = e_codec entry))
          || negb (bool_decide (p_page_sha256 indexed = e_page_sha256 entry)))
    (corrupt "page map and pack index disagree").

Definition decode_stored (entry : PageMapEntry) (stored : bytes) : rresult bytes :=
  page ← match e_codec entry with
         | PageCodec.None => Ok stored
         | PageCodec.Zstd => map_err (fun _ => corrupt "invalid or oversized compressed metadata page") (zstd_decompress_window stored 4096)
         end;
  _ ← reject (negb (len page =? 4096) || negb (bool_decide (digest page = e_page_sha256 entry)))
        (corrupt "metadata page hash or decoded length mismatch");
  Ok page.

Definition mapped_page (entry : PageMapEntry) (page : Z) : M bytes :=
  _ ← refuse_when (negb (e_raw_length entry =? 4096)) "incorrect mapped page size";
  metadata ← immutable_metadata (e_pack entry);
  with_arc (range (e_pack entry) metadata (0, 64)) (fun header =>
    parsed ← pure (of_protocol (decode_pack_header header (ref_length (e_pack entry))));
    _ ← refuse_when (negb (ph_page_size parsed =? 4096)) "pack page size mismatch";
    let stop := ph_index_offset parsed + ph_entry_count parsed * 64 in
    with_arc (range (e_pack entry) metadata (ph_index_offset parsed, stop)) (fun index_raw =>
      reserving (Z.min (2 ^ 64 - 1) (len index_raw * 3) + 4096) (
        _ ← pure (check_indexed entry page header index_raw);
        with_arc (range (e_pack entry) metadata (e_offset entry, e_offset entry + e_stored_length entry)) (fun stored =>
          pure (decode_stored entry stored))))).

Definition page_key (page : Z) : PageKey := MkPageKey (ai_fingerprint self) (ai_base_only self) page.

(** The end of [copy_page]: the header of page 1, the admission to the cache, the copy. *)
Definition check_header (page : Z) (data : bytes) : rresult unit :=
  reject ((page =? 1) && (negb (bool_decide (ByteArray.range 0 16 data = SQLITE_MAGIC))
                          || negb (bool_decide (ByteArray.range 16 18 data = [byte_of_Z 16; byte_of_Z 0]))
                          || negb (be_val (ByteArray.range 28 32 data) =? image_length / 4096)))
    (corrupt "logical SQLite header mismatch").

Definition finish_page (page n : Z) (data : bytes) : M bytes :=
  _ ← pure (check_header page data);
  x ← on_cache (reserve (4096 + 256));
  _ ← on_cache (insert_page (page_key page) data (vec_capacity data) x);
  _ ← count_page;
  mret (take (Z.to_nat n) data).

(** The window of the checkpoint around the page. *)
Definition checkpoint_page (page n : Z) : M bytes :=
  hash ← checkpoint_hash page;
  let start := (page - 1) * 4096 in
  let size := checkpoint_window_bytes options in
  let window_start := start / size * size in
  let window_end := Z.min (Z.min (2 ^ 64 - 1) (window_start + size)) (om_length (ai_checkpoint self)) in
  let cp := mi_checkpoint (g_metadata_image (ai_generation self)) in
  with_arc (range (MkRef (ck_uri cp) (ck_sha256 cp) (ck_length cp)) (ai_checkpoint self) (window_start, window_end)) (fun window =>
    let offset := start - window_start in
    data ← pure (ok_or (slice window offset (offset + 4096)) (corrupt "short checkpoint window"));
    _ ← refuse_when (negb (bool_decide (digest data = hash))) "checkpoint page hash mismatch";
    finish_page page n data).

(** [n] is the length of the output buffer; the bytes copied into it are returned. *)
Definition copy_page (page n : Z) : M bytes :=
  _ ← refuse_when ((page =? 0) || (image_length / 4096 <? page) || (4096 <? n)) "metadata page request outside image";
  cached ← on_cache (get_page (page_key page));
  match cached with
  | Some a =>
    with_arc (mret a) (fun b => _ ← count_hit; _ ← count_page; mret (take (Z.to_nat n) b))
  | None =>
    reserving 4096 (
      entry ← mapping page;
      match entry with
      | Some entry => data ← mapped_page entry page; finish_page page n data
      | None => checkpoint_page page n
      end)
  end.
End authenticated.
End context.

(** ** Reasoning about readers *)

Section triples.
Context {S : Type} (P : Key -> bytes -> Prop) (PI : Identity -> Prop) (SI : S -> Prop) (E : rerror -> Prop).

(** The identities that the cache remembers. *)
Definition knows (c : Cache) : Prop := forall uri i n, c_identities c !! uri = Some (i, n) -> PI i.
Definition reader_ok (s : Reader S) (held : list Z) (arcs : list nat) : Prop :=
  cache_ok P (rx_cache s) held arcs /\ knows (rx_cache s) /\ SI (rx_store s).

(** [m] gives back all it takes; its result satisfies [Q], its error [E]. *)
Definition yields {A} (m : M S A) (Q : A -> Prop) : Prop := forall s held arcs, reader_ok s held arcs ->
  let '(r, s') := m s in reader_ok s' held arcs /\ match r with Ok a => Q a | Err e => E e end.
(** [m] hands out a shared byte string. *)
Definition yields_arc (m : M S nat) (Q : bytes -> Prop) : Prop := forall s held arcs, reader_ok s held arcs ->
  let '(r, s') := m s in
  match r with
  | Ok a => reader_ok s' held (a :: arcs) /\ Q (arc_bytes a (rx_cache s'))
  | Err e => reader_ok s' held arcs /\ E e
  end.

Lemma yields_mono {A} (m : M S A) (Q Q' : A -> Prop) : yields m Q -> (forall a, Q a -> Q' a) -> yields m Q'.
Proof. intros Hm HQ s held arcs Hs. specialize (Hm s held arcs Hs). destruct (m s) as [[a|e] s']; naive_solver. Qed.

Lemma yields_ret {A} (a : A) (Q : A -> Prop) : Q a -> yields (mret a) Q.
Proof. by intros HQ s held arcs Hs. Qed.

Lemma yields_pure {A} (m : rresult A) (Q : A -> Prop) : (forall a, m = Ok a -> Q a) -> (forall e, m = Err e -> E e) -> yields (pure m) Q.
Proof. intros Ho He s held arcs Hs. unfold pure. split; [done|]. destruct m; auto. Qed.

Lemma yields_bind {A B} (m : M S A) (f : A -> M S B) Q R : yields m Q -> (forall a, Q a -> yields (f a) R) -> yields (m ≫= f) R.
Proof.
  intros Hm Hf s held arcs Hs. specialize (Hm s held arcs Hs). unfold mbind, reader_bind. destruct (m s) as [[a|e] s'].
  - destruct Hm as [Hs' HQ]. by apply Hf.
  - done.
Qed.

Lemma yields_arc_bind {A} (m : M S A) (f : A -> M S nat) Q R : yields m Q -> (forall a, Q a -> yields_arc (f a) R) -> yields_arc (m ≫= f) R.
Proof.
  intros Hm Hf s held arcs Hs. specialize (Hm s held arcs Hs). unfold mbind, reader_bind. destruct (m s) as [[a|e] s'].
  - destruct Hm as [Hs' HQ]. by apply Hf.
  - done.
Qed.

(** A guard, with what its passing tells. *)
Lemma yields_refuse {A} b message (k : M S A) Q : (b = true -> E (corrupt message)) -> (b = false -> yields k Q) ->
  yields (_ ← refuse_when b message; k) Q.
Proof. intros He Hk. destruct b; [|by apply Hk]. intros s held arcs Hs. split; [done|by apply He]. Qed.
Lemma yields_arc_refuse b message (k : M S nat) Q : (b = true -> E (corrupt message)) -> (b = false -> yields_arc k Q) ->
  yields_arc (_ ← refuse_when b message; k) Q.
Proof. intros He Hk. destruct b; [|by apply Hk]. intros s held arcs Hs. split; [done|by apply He]. Qed.

Lemma count_yields {A} (m : M S unit) (k : M S A) Q : m ∈ [count_request; count_page; count_hit] -> yields k Q -> yields (_ ← m; k) Q.
Proof.
  intros Hm Hk. apply (yields_bind _ _ (fun _ => True)); [|done]. intros s held arcs Hs.
  repeat (apply elem_of_cons in Hm as [->|Hm]; [done|]). by apply not_elem_of_nil in Hm.
Qed.

Lemma reader_ok_cache s c held arcs held' arcs' : reader_ok s held arcs -> cache_ok P c held' arcs' ->
  (forall uri i n, c_identities c !! uri = Some (i, n) -> PI i) -> reader_ok (with_cache c s) held' arcs'.
Proof. intros (_ & _ & Hst) Hc Hi. done. Qed.

Lemma drop_identities a c : c_identities (drop_arc a c) = c_identities c.
Proof. unfold drop_arc. destruct (c_arcs c !! a); [|done]. by destruct (_ =? 1). Qed.
Lemma clone_identities a c : c_identities (clone_arc a c) = c_identities c.
Proof. unfold clone_arc. by destruct (c_arcs c !! a). Qed.

Lemma forget_knows key m : (forall uri i n, m !! uri = Some (i, n) -> PI i) ->
  forall uri i n, forget key m !! uri = Some (i, n) -> PI i.
Proof.
  intros Hm uri i n. destruct key as [u st e|k]; cbn; [|apply Hm]. destruct (m !! u) as [[j k]|] eqn:Eu; [|apply Hm].
  destruct (_ =? 0).
  - intros [_ Hd]%lookup_delete_Some. by eapply Hm.
  - intros [[_ [= <- <-]]|[_ Hd]]%lookup_insert_Some; by eapply Hm.
Qed.

Lemma evict_knows key order c : knows c -> knows (evict key order c).
Proof.
  intros Hc. unfold evict, knows. destruct (c_values c !! key); cbn [from_option]; [rewrite drop_identities|]; by apply forget_knows.
Qed.

Lemma reserve_knows order : forall amount c, knows c -> knows (reserve_loop order amount c).2.
Proof.
  induction order as [|key order IH]; intros amount c Hc; cbn [reserve_loop]; destruct (mbind _ _) as [next|]; try done.
  by apply IH, evict_knows.
Qed.

Lemma ok_reserve amount s held arcs : 0 <= amount -> reader_ok s held arcs ->
  let '(r, c) := reserve amount (rx_cache s) in
  match r with
  | Ok x => x = amount /\ reader_ok (with_cache c s) (amount :: held) arcs
  | Err e => reader_ok (with_cache c s) held arcs /\ exists m, e = exhausted m
  end.
Proof.
  intros Ha (Hc & Hk & Hs). pose proof (reserve_knows (c_order (rx_cache s)) amount _ Hk) as Hk'. fold (reserve amount (rx_cache s)) in Hk'.
  pose proof (reserve_ok P amount _ held arcs Hc Ha) as Hr. destruct (reserve amount (rx_cache s)) as [[x|e] c]; cbn [snd] in Hk'.
  - destruct Hr as (_ & _ & _ & -> & Hc' & _). done.
  - destruct Hr as (_ & _ & _ & Hc' & Hm & _). done.
Qed.

Lemma ok_released x s held arcs : reader_ok s (x :: held) arcs -> reader_ok (with_cache (release x (rx_cache s)) s) held arcs.
Proof. intros (Hc & Hk & Hs). split; [by apply ok_release|done]. Qed.

Lemma ok_dropped a s held arcs : reader_ok s held (a :: arcs) -> reader_ok (with_cache (drop_arc a (rx_cache s)) s) held arcs.
Proof. intros (Hc & Hk & Hs). split; [by apply ok_drop|]. split; [|done]. unfold knows. cbn. by rewrite drop_identities. Qed.

Lemma yields_reserving {A} amount (m : M S A) Q : (forall msg, E (exhausted msg)) -> 0 <= amount -> yields m Q -> yields (reserving amount m) Q.
Proof.
  intros He Ha Hm s held arcs Hs. unfold reserving. pose proof (ok_reserve amount s held arcs Ha Hs) as Hr.
  destruct (reserve amount (rx_cache s)) as [[x|e] c].
  - destruct Hr as [-> Hr]. specialize (Hm _ _ _ Hr). destruct (m (with_cache c s)) as [r s']. destruct Hm as [Hs' HQ].
    split; [by apply ok_released|done].
  - destruct Hr as [Hr [msg ->]]. done.
Qed.

Lemma yields_arc_reserving amount (m : M S nat) Q : (forall msg, E (exhausted msg)) -> 0 <= amount -> yields_arc m Q -> yields_arc (reserving amount m) Q.
Proof.
  intros He Ha Hm s held arcs Hs. unfold reserving. pose proof (ok_reserve amount s held arcs Ha Hs) as Hr.
  destruct (reserve amount (rx_cache s)) as [[x|e] c].
  - destruct Hr as [-> Hr]. specialize (Hm _ _ _ Hr). destruct (m (with_cache c s)) as [[a|e] s']; destruct Hm as [Hs' HQ].
    + split; [by apply ok_released|done].
    + split; [by apply ok_released|done].
  - destruct Hr as [Hr [msg ->]]. done.
Qed.

Lemma yields_with_arc {A} m (body : bytes -> M S A) Q R : yields_arc m Q -> (forall b, Q b -> yields (body b) R) -> yields (with_arc m body) R.
Proof.
  intros Hm Hb s held arcs Hs. unfold with_arc. specialize (Hm s held arcs Hs). destruct (m s) as [[a|e] s1]; [|done].
  destruct Hm as [Hs1 HQ]. specialize (Hb _ HQ s1 held (a :: arcs) Hs1). destruct (body _ s1) as [r s2]. destruct Hb as [Hs2 HR].
  split; [by apply ok_dropped|done].
Qed.
End triples.
