(* ===== verification/ReaderRanges.v ===== *)
(** What a reader may rely on when it asks a store for ranges
    (otmp/src/reader/pages.rs): the interface between the store, the cache and the
    walks over authenticated objects, and the range reads proved against it. *)
From S2P Require Import Prelude Bytes Errors Values Scalars Cbor PageMap CheckpointIndex PagePack Hashes PageTree PageLoad.
From S2P Require Import ByteArray Storage CanonicalJson Objects CheckpointBuild Resolve Cache Reader.

Definition identity_of (reference : PageObjectReference) (metadata : ObjectMetadata) : Identity :=
  MkIdentity (uri_str (ref_uri reference)) (ref_sha256 reference) (ref_length reference) (Some (om_version metadata)).

(** The terms of a store [S] with its readers. [SI] is an invariant of the store;
    [wanted] the objects that are asked for, by name; [request] the revision of an
    object that may be read; [good] the references that are followed; [P] and [PI]
    what holds of cached values and identities; [E] the errors that may come up. *)
Record trusts `{HexCrate, Sha2Crate, ReaderCrates} {S} `{ObjectStore S} (P : Key -> bytes -> Prop) (PI : Identity -> Prop)
    (SI : S -> Prop) (E : rerror -> Prop) (wanted : string -> Prop) (request : string -> ObjectMetadata -> Prop)
    (good : PageObjectReference -> Prop) : Prop := {
  tr_exhausted m : E (exhausted m);
  tr_page k b : P (AuthenticatedPage k) b -> len b = 4096;
  tr_capacity b : len b <= vec_capacity b;
  tr_stat s uri : SI s -> wanted (uri_str uri) ->
    let '(r, s') := os_stat s uri in
    SI s' /\ match r with Ok md => request (uri_str uri) md | Err e => E (RuntimeError.Storage e) end;
  tr_read s uri rng md : SI s -> request (uri_str uri) md -> validate_range_request md rng = Ok tt ->
    let '(r, s') := os_read_range s uri rng md in
    SI s' /\ match r with
             | Ok response => match validate_stored_range response md rng with
                              | Ok _ => P (ObjectRange (uri_str uri) rng.1 rng.2) (sr_bytes response)
                              | Err e => E (RuntimeError.Storage e)
                              end
             | Err e => E (RuntimeError.Storage e)
             end;
  tr_wanted r : good r -> wanted (uri_str (ref_uri r));
  tr_length r md : good r -> request (uri_str (ref_uri r)) md ->
    ref_length r = om_length md \/ E (corrupt "object length differs from authenticated reference");
  tr_identity r md : good r -> request (uri_str (ref_uri r)) md -> ref_length r = om_length md -> PI (identity_of r md);
  tr_conflict i j : PI i -> PI j -> id_uri i = id_uri j -> i = j \/ E (corrupt "conflicting cached object reference");
  tr_metadata i r : PI i -> good r -> id_uri i = uri_str (ref_uri r) ->
    id_hash i = ref_sha256 r /\ id_length i = ref_length r \/ E (corrupt "conflicting cached object reference");
  tr_request i v : PI i -> id_version i = Some v -> request (id_uri i) (MkMetadata (id_length i) v) }.

Section ranges.
Context `{HexCrate, Sha2Crate, ReaderCrates} `{ToJson Generation} {S : Type} `{ObjectStore S} (options : ReaderOptions).
Context (P : Key -> bytes -> Prop) (PI : Identity -> Prop) (SI : S -> Prop) (E : rerror -> Prop)
  (wanted : string -> Prop) (request : string -> ObjectMetadata -> Prop) (good : PageObjectReference -> Prop)
  (T : trusts P PI SI E wanted request good).

Notation yields := (yields P PI SI E).
Notation yields_arc := (yields_arc P PI SI E).
Notation reader_ok := (reader_ok P PI SI).
Let exhausted_ok := tr_exhausted _ _ _ _ _ _ _ T.

Lemma stat_yields uri : wanted (uri_str uri) -> yields (stat uri) (request (uri_str uri)).
Proof.
  intros Hw. unfold stat. apply count_yields; [by left|]. intros s held arcs (Hc & Hk & Hs). unfold on_store.
  pose proof (tr_stat _ _ _ _ _ _ _ T (rx_store s) uri Hs Hw) as Ht. destruct (os_stat (rx_store s) uri) as [[md|e] s']; by destruct Ht.
Qed.

Lemma read_yields uri rng md : request (uri_str uri) md -> validate_range_request md rng = Ok tt ->
  yields (read_checked uri rng md) (P (ObjectRange (uri_str uri) rng.1 rng.2)).
Proof.
  intros Hr Hv. unfold read_checked. apply count_yields; [by left|].
  apply (yields_bind P PI SI E _ _ (fun response => match validate_stored_range response md rng with
    | Ok _ => P (ObjectRange (uri_str uri) rng.1 rng.2) (sr_bytes response) | Err e => E (RuntimeError.Storage e) end)).
  - intros s held arcs (Hc & Hk & Hs). unfold on_store. pose proof (tr_read _ _ _ _ _ _ _ T (rx_store s) uri rng md Hs Hr Hv) as Ht.
    destruct (os_read_range (rx_store s) uri rng md) as [[resp|e] s']; by destruct Ht.
  - intros resp HP. eapply (yields_bind P PI SI E _ _ (fun _ => P (ObjectRange (uri_str uri) rng.1 rng.2) (sr_bytes resp))).
    + apply yields_pure; destruct (validate_stored_range resp md rng) as [u|e]; cbn; [done|done|done|by intros ? [= <-]].
    + intros _ HP'. eapply (yields_bind P PI SI E _ _ (fun _ => True)); [|intros _ _; by apply yields_ret].
      by intros s held arcs Hs.
Qed.

(** Cached bytes, or none. *)
Lemma get_yields i rng s held arcs : PI i -> reader_ok s held arcs ->
  let '(r, c) := get i rng (rx_cache s) in
  match r with
  | Ok (Some a) => reader_ok (with_cache c s) held (a :: arcs) /\ P (range_key i rng) (arc_bytes a c)
  | Ok None => reader_ok (with_cache c s) held arcs
  | Err e => reader_ok (with_cache c s) held arcs /\ E e
  end.
Proof.
  intros Hi (Hc & Hk & Hs). pose proof (get_ok P i rng (rx_cache s) held arcs Hc) as Hg.
  assert (knows PI (get i rng (rx_cache s)).2) as Hk'.
  { unfold get. destruct (check_identity _ _); [|done]. destruct (c_values _ !! _); [|done]. cbn. unfold knows. by rewrite clone_identities. }
  destruct (get i rng (rx_cache s)) as [[[a|]|e] c] eqn:Eg; cbn [snd] in Hk'.
  - destruct Hg as (Hc' & _ & HP). done.
  - cbn in Hg. subst c. done.
  - destruct Hg as [-> _]. split; [done|]. unfold get, check_identity in Eg. destruct (c_identities (rx_cache s) !! id_uri i) as [[old n]|] eqn:Ei.
    + destruct (decide (old = i)) as [->|Hne].
      * rewrite bool_decide_eq_true_2 in Eg by done. cbn in Eg. by destruct (c_values _ !! _).
      * pose proof (ck_identities Hc (id_uri i)) as Hids. rewrite Ei in Hids. destruct Hids as (Hu & _).
        destruct (tr_conflict _ _ _ _ _ _ _ T old i (Hk _ _ _ Ei) Hi Hu) as [?|?]; [done|].
        rewrite bool_decide_eq_false_2 in Eg by done. cbn in Eg. by injection Eg as <-.
    + cbn in Eg. by destruct (c_values _ !! _).
Qed.

(** Bytes read under a reservation enter the cache with it. *)
Lemma insert_yields i rng b x s held arcs : PI i -> P (range_key i rng) b -> reader_ok s (x :: held) arcs ->
  let '(r, c) := insert_range i rng b (vec_capacity b) x (rx_cache s) in
  match r with
  | Ok a => reader_ok (with_cache c s) held (a :: arcs) /\ P (range_key i rng) (arc_bytes a c)
  | Err e => reader_ok (with_cache c s) held arcs /\ E e
  end.
Proof.
  intros Hi HP (Hc & Hk & Hs). pose proof (insert_range_ok P i rng b (vec_capacity b) x (rx_cache s) held arcs Hc (tr_capacity _ _ _ _ _ _ _ T b) HP) as Hins.
  assert (knows PI (insert_range i rng b (vec_capacity b) x (rx_cache s)).2 /\
    forall e, (insert_range i rng b (vec_capacity b) x (rx_cache s)).1 = Err e -> E e) as [Hk' He].
  { unfold insert_range. destruct (match _ with Some _ => _ | None => _ end); [split; [done|intros ? [= <-]; apply exhausted_ok]|].
    unfold check_identity. destruct (c_identities (rx_cache s) !! id_uri i) as [[old n]|] eqn:Ei.
    - destruct (decide (old = i)) as [->|Hne].
      + rewrite bool_decide_eq_true_2 by done. cbn [reject negb]. destruct (c_values _ !! _) as [a|]; cbn.
        * split; [|done]. unfold knows. cbn. by rewrite clone_identities.
        * split; [|done]. unfold knows. rewrite clone_identities. cbn. intros uri j m. unfold remember. rewrite Ei. cbn.
          intros [[_ [= <- _]]|[_ Hj]]%lookup_insert_Some; [done|by eapply Hk].
      + rewrite bool_decide_eq_false_2 by done. cbn. split; [done|]. intros e [= <-]. pose proof (ck_identities Hc (id_uri i)) as Hids.
        rewrite Ei in Hids. destruct Hids as (Hu & _).
        by destruct (tr_conflict _ _ _ _ _ _ _ T old i (Hk _ _ _ Ei) Hi Hu) as [?|?].
    - cbn [reject]. destruct (c_values _ !! _) as [a|]; cbn.
      + split; [|done]. unfold knows. cbn. by rewrite clone_identities.
      + split; [|done]. unfold knows. rewrite clone_identities. cbn. intros uri j m. unfold remember. rewrite Ei. cbn.
        intros [[_ [= <- _]]|[_ Hj]]%lookup_insert_Some; [done|by eapply Hk]. }
  destruct (insert_range i rng b (vec_capacity b) x (rx_cache s)) as [[a|e] c]; cbn [fst snd] in *.
  - destruct Hins as (Hc' & _ & HP'). done.
  - destruct Hins as (Hc' & _). split; [done|by apply He].
Qed.

Lemma token_nonneg md : 0 <= token_len md.
Proof. apply len_nonneg. Qed.

(** Cached bytes, or what [m] finds. *)
Lemma get_or_yields i rng (m : M S nat) : PI i -> yields_arc m (P (range_key i rng)) ->
  yields_arc (cached ← on_cache (get i rng); match cached with Some a => _ ← count_hit; mret a | None => m end) (P (range_key i rng)).
Proof.
  intros Hi Hm s held arcs Hs. pose proof (get_yields i rng s held arcs Hi Hs) as Hget. unfold mbind, reader_bind, on_cache.
  destruct (get i rng (rx_cache s)) as [[[a|]|e] c]; [done| |done]. by apply Hm.
Qed.

(** Bytes read into the cache under a reservation of their own. *)
Lemma filled_yields i rng n (body : M S bytes) : PI i -> 0 <= n -> yields body (P (range_key i rng)) ->
  yields_arc (x ← on_cache (reserve n); b ← or_release x body; on_cache (insert_range i rng b (vec_capacity b) x)) (P (range_key i rng)).
Proof.
  intros Hi Hn Hb s held arcs Hs. pose proof (ok_reserve P PI SI n s held arcs Hn Hs) as Hr. unfold mbind, reader_bind, on_cache at 1.
  destruct (reserve n (rx_cache s)) as [[x|e] c]; [|destruct Hr as [Hr [m ->]]; split; [done|apply exhausted_ok]].
  destruct Hr as [-> Hr]. unfold or_release. specialize (Hb _ _ _ Hr). destruct (body (with_cache c s)) as [[b|e] s1]; destruct Hb as [Hs1 HQ].
  - pose proof (insert_yields i rng b n s1 held arcs Hi HQ Hs1) as Hins. unfold on_cache.
    destruct (insert_range _ _ _ _ _ _) as [[a|e] c1]; done.
  - split; [by apply ok_released|done].
Qed.

Lemma fill_yields r md rng : good r -> request (uri_str (ref_uri r)) md -> ref_length r = om_length md ->
  validate_range_request md rng = Ok tt ->
  yields_arc (fill_range r md (identity_of r md) rng) (P (ObjectRange (uri_str (ref_uri r)) rng.1 rng.2)).
Proof.
  intros Hg Hr Hl Hv. pose proof (tr_identity _ _ _ _ _ _ _ T r md Hg Hr Hl) as Hi. unfold fill_range.
  apply (get_or_yields (identity_of r md) rng _ Hi).
  eapply (yields_arc_bind P PI SI E _ _ (fun n => 0 <= n)).
  - apply yields_pure; [|intros e He; destruct (n ← _; _); cbn in He; [done|injection He as <-; apply exhausted_ok]].
    intros n Hn%ok_or_ok. destruct (checked_mul _ _ _) as [k|]; cbn in Hn; [|done]. apply try_uint_some in Hn as [-> [? _]]. done.
  - intros n Hn. apply (filled_yields (identity_of r md) rng n); [done|done|]. by apply read_yields.
Qed.

Lemma range_yields r md rng : good r -> request (uri_str (ref_uri r)) md ->
  validate_range_request md rng = Ok tt \/ (forall e, E (RuntimeError.Storage e)) ->
  yields_arc (range r md rng) (P (ObjectRange (uri_str (ref_uri r)) rng.1 rng.2)).
Proof.
  intros Hg Hr Hv. unfold range. apply yields_arc_refuse.
  { intros Hl. bool_to_prop. by destruct (tr_length _ _ _ _ _ _ _ T r md Hg Hr). }
  intros Hl. bool_to_prop. eapply (yields_arc_bind P PI SI E _ _ (fun _ => validate_range_request md rng = Ok tt)).
  { apply yields_pure; destruct (validate_range_request md rng) as [[]|e]; cbn; try done. intros e' [= <-]. by destruct Hv. }
  intros _ Hok. pose proof (tr_identity _ _ _ _ _ _ _ T r md Hg Hr Hl) as Hi. apply (get_or_yields (identity_of r md) rng _ Hi).
  apply yields_arc_reserving; [apply exhausted_ok| |by apply fill_yields].
  pose proof (token_nonneg md). pose proof (len_nonneg (as_bytes (uri_str (ref_uri r)))). unfold str_len. cbn [id_uri]. lia.
Qed.

(** ** Whole objects *)

Lemma authenticate_yields r (m : M S nat) (Q : bytes -> Prop) : yields_arc m Q ->
  (forall b, Q b -> digest b <> ref_sha256 r -> E (corrupt "authenticated metadata object hash mismatch")) ->
  yields_arc (a ← m; authenticate r a) (fun b => Q b /\ digest b = ref_sha256 r).
Proof.
  intros Hm He s held arcs Hs. specialize (Hm s held arcs Hs). unfold mbind, reader_bind. destruct (m s) as [[a|e] s1]; [|done].
  destruct Hm as [Hs1 HQ]. unfold authenticate. case_bool_decide as Hd; [done|]. split; [by apply ok_dropped|by eapply He].
Qed.

Lemma immutable_yields r : good r -> yields (immutable_metadata r) (request (uri_str (ref_uri r))).
Proof.
  intros Hg s held arcs Hs. unfold immutable_metadata, metadata_for. pose proof Hs as (Hc & Hk & _).
  assert (let '(r', s') := stat (ref_uri r) s in reader_ok s' held arcs /\
    match r' with Ok md => request (uri_str (ref_uri r)) md | Err e => E e end) as Hstat.
  { apply (stat_yields (ref_uri r)); [|done]. by apply (tr_wanted _ _ _ _ _ _ _ T). }
  destruct (c_identities (rx_cache s) !! uri_str (ref_uri r)) as [[i n]|] eqn:Ei; [|done].
  pose proof (ck_identities Hc (uri_str (ref_uri r))) as Hids. rewrite Ei in Hids. destruct Hids as (Hu & _).
  pose proof (Hk _ _ _ Ei) as Hi. destruct (negb _ || negb _) eqn:Eb; cbn [reject mbind result_bind].
  - split; [done|]. destruct (tr_metadata _ _ _ _ _ _ _ T i r Hi Hg Hu) as [[Hh Hle]|?]; [|done].
    rewrite Hh, Hle, bool_decide_eq_true_2, Z.eqb_refl in Eb by done. done.
  - destruct (id_version i) as [v|] eqn:Ev; cbn; [|done]. split; [done|]. rewrite <- Hu. by apply (tr_request _ _ _ _ _ _ _ T).
Qed.

(** A tree node: its bytes have the hash of the reference. *)
Lemma tree_node_yields r :
  good r -> (0 < ref_length r <= 1024 * 1024 \/ (forall e, E e)) ->
  (forall md, request (uri_str (ref_uri r)) md -> ref_length r = om_length md -> validate_range_request md (0, ref_length r) = Ok tt \/ (forall e, E e)) ->
  (forall b, P (ObjectRange (uri_str (ref_uri r)) 0 (ref_length r)) b -> digest b <> ref_sha256 r ->
     E (corrupt "authenticated metadata object hash mismatch")) ->
  yields_arc (tree_node r) (fun b => P (ObjectRange (uri_str (ref_uri r)) 0 (ref_length r)) b /\ digest b = ref_sha256 r).
Proof.
  intros Hg Hl Hv Hd. unfold tree_node. apply yields_arc_refuse.
  { intros Hb. destruct Hl as [Hl|He]; [|apply He]. apply orb_true_iff in Hb as [Hb|Hb]; lia. }
  intros _. eapply yields_arc_bind; [by apply immutable_yields|]. intros md Hmd. unfold node.
  apply (authenticate_yields r _ (P (ObjectRange (uri_str (ref_uri r)) 0 (ref_length r)))); [|done].
  destruct (decide (ref_length r = om_length md)) as [E1|E1].
  - apply (range_yields r md (0, ref_length r)); [done|done|]. destruct (Hv md Hmd E1) as [?|?]; [by left|right; auto].
  - intros s held arcs Hs. unfold range, refuse_when, mbind, reader_bind. rewrite (proj2 (Z.eqb_neq _ _) E1). cbn. split; [done|].
    by destruct (tr_length _ _ _ _ _ _ _ T r md Hg Hmd).
Qed.
End ranges.
