(* ===== verification/LazyPages.v ===== *)
(** Reading one page at a time is reading the resolved image
    (otmp/src/reader/pages.rs against otmp/src/physical.rs): the walks over the
    page map and the checkpoint index reach what [resolve_generation] builds. *)
From S2P Require Import Prelude Bytes Errors Values Scalars Cbor PageMap CheckpointIndex PagePack Hashes PageTree PagePersist PageLoad.
From S2P Require Import ByteArray Overlay Storage CanonicalJson Objects CheckpointBuild Resolve ImageRoundtrip Publication Candidate.
From S2P Require Import Cache Reader ReaderRanges.

(** ** Entries *)

Lemma increasing_lookup {A} (f : A -> Z) p l i j x y : increasing p (map f l) -> (i < j)%nat -> l !! i = Some x -> l !! j = Some y -> f x < f y.
Proof.
  intros Hi Hij Hx Hy. rewrite <- (take_drop_middle l i x Hx), map_app in Hi. cbn [map] in Hi. apply increasing_app in Hi as (_ & Hi & _).
  apply increasing_cons in Hi as [_ Hi%increasing_above]. rewrite Forall_forall in Hi. apply Hi. apply list_elem_of_fmap_2.
  apply (list_elem_of_lookup_2 _ (j - S i)). rewrite lookup_drop. by replace (S i + (j - S i))%nat with j by lia.
Qed.

Lemma increasing_probe_by {A} (f : A -> Z) p l n : increasing p (map f l) -> probe_sorted (fun x => f x ?= n) l.
Proof.
  intros Hi i j x y Hij Hx Hy. pose proof (increasing_lookup f p l i j x y Hi Hij Hx Hy). rewrite !Z.compare_gt_iff, !Z.compare_lt_iff. lia.
Qed.

Lemma keyed_in n es e : bt_get n (keyed es) = Some e -> e ∈ es /\ e_page_number e = n.
Proof. intros E. apply bt_get_some_elem, list_elem_of_fmap in E as (e' & [= -> ->] & ?). done. Qed.

Lemma lookup_page_elem p es e : increasing p (pages_of es) -> e ∈ es -> lookup_page (e_page_number e) es = Some e.
Proof.
  intros Hi He. unfold lookup_page. apply bt_get_elem; [by apply (increasing_sorted p)|].
  by apply (list_elem_of_fmap_2 (fun e => (e_page_number e, e))).
Qed.

Lemma lookup_page_none n es : n ∉ pages_of es -> lookup_page n es = None.
Proof.
  intros Hn. destruct (lookup_page n es) as [e|] eqn:E; [|done]. apply keyed_in in E as [He <-]. exfalso.
  apply Hn. by apply list_elem_of_fmap_2.
Qed.

(** Entries elsewhere do not matter. *)
Lemma lookup_page_middle p n l1 l2 l3 : increasing p (pages_of (l1 ++ l2 ++ l3)) ->
  n ∉ pages_of l1 -> n ∉ pages_of l3 -> lookup_page n (l1 ++ l2 ++ l3) = lookup_page n l2.
Proof.
  intros Hi H1n H3n. destruct (lookup_page n l2) as [e|] eqn:E2.
  - apply keyed_in in E2 as [He <-]. apply (lookup_page_elem p); [done|]. rewrite !elem_of_app. auto.
  - apply lookup_page_none. rewrite !pages_of_app, !elem_of_app. intros [?|[Hn|?]]; [done| |done].
    rewrite !pages_of_app in Hi. apply increasing_app in Hi as (_ & Hi & _). apply increasing_app in Hi as (Hi & _ & _).
    apply (lookup_page_is_some p) in Hn as [e He]; [congruence|done].
Qed.

Lemma search_entries p n es : increasing p (pages_of es) ->
  match binary_search_by (fun e => e_page_number e ?= n) es with Ok i => es !! i | Err _ => None end = lookup_page n es.
Proof.
  intros Hi. destruct (binary_search_by _ es) as [i|i] eqn:Es.
  - apply binary_search_by_ok in Es as (e & He & Ee). apply Z.compare_eq in Ee. rewrite He, <- Ee. symmetry.
    apply (lookup_page_elem p); [done|]. by apply list_elem_of_lookup_2 in He.
  - symmetry. apply lookup_page_none. intros (e & -> & He)%list_elem_of_fmap.
    assert (is_ok (binary_search_by (fun x => e_page_number x ?= e_page_number e) es) = true) as Hok.
    { apply binary_search_by_found; [|exists e; split; [done|apply Z.compare_refl]].
      by apply (increasing_probe_by e_page_number p). }
    by rewrite Es in Hok.
Qed.

(** ** One round over the page map *)

Lemma max_increasing l cs : forall p, Forall (shape l) cs -> increasing p (pages_of (all_entries cs)) -> increasing p (map t_max cs).
Proof.
  induction cs as [|c cs IH]; intros p Hs Hi; [apply increasing_nil|]. apply Forall_cons in Hs as [Hc Hs].
  unfold all_entries in Hi. cbn [map concat] in Hi. rewrite pages_of_app in Hi. apply increasing_app in Hi as (Hi & His & Hlt).
  pose proof (last_page_in _ _ Hc) as Hin. cbn [map]. apply increasing_cons. split.
  - apply increasing_above in Hi. rewrite Forall_forall in Hi. by apply Hi.
  - apply IH; [done|]. apply (increasing_raise p); [done|]. apply Forall_forall. intros y Hy. by apply Hlt.
Qed.

(** The pages of trees lie at or below their bounds, above what precedes them. *)
Lemma pages_below l cs n : forall p, Forall (shape l) cs -> increasing p (pages_of (all_entries cs)) -> Forall (fun c => t_max c < n) cs ->
  n ∉ pages_of (all_entries cs).
Proof.
  induction cs as [|c cs IH]; intros p Hs Hi Hm; [by intros ?%not_elem_of_nil|]. apply Forall_cons in Hs as [Hc Hs], Hm as [Hn Hm].
  unfold all_entries in *. cbn [map concat] in *. rewrite pages_of_app in *. apply increasing_app in Hi as (Hi & His & _).
  rewrite elem_of_app. intros [Hin|Hin]; [|by eapply IH]. pose proof (increasing_last _ _ _ Hi (last_page _ _ Hc)) as Hle.
  rewrite Forall_forall in Hle. specialize (Hle n Hin). lia.
Qed.

(** The child that covers a page: the first whose pages reach it. *)
Lemma child_covers l cs n p : Forall (shape l) cs -> increasing p (pages_of (all_entries cs)) ->
  let i := partition_point (fun e => b_max_page e <? n) (map branch_of cs) in
  match cs !! i with
  | None => lookup_page n (all_entries cs) = None
  | Some c => lookup_page n (all_entries cs) = lookup_page n (entries_of c)
  end.
Proof.
  intros Hs Hi i. pose proof (max_increasing _ _ _ Hs Hi) as Hmax.
  destruct (partition_point_spec (fun e => b_max_page e <? n) (map branch_of cs)) as (Hle & Hbefore & Hafter).
  { intros a b x y Hab Hx Hy. rewrite list_lookup_fmap in Hx, Hy. destruct (cs !! a) as [ca|] eqn:Ea; [|done].
    destruct (cs !! b) as [cb|] eqn:Eb; [|done]. injection Hx as <-. injection Hy as <-. cbn. rewrite !Z.ltb_lt.
    pose proof (increasing_lookup t_max p cs a b ca cb Hmax Hab Ea Eb). lia. }
  fold i in Hle, Hbefore, Hafter. rewrite <- fmap_take, Forall_fmap in Hbefore. rewrite <- fmap_drop, Forall_fmap in Hafter.
  rewrite <- (take_drop i cs) in Hs, Hi. apply Forall_app in Hs as [Hs1 Hs2].
  assert (forall a b, all_entries (a ++ b) = all_entries a ++ all_entries b) as Happ.
  { intros a b. unfold all_entries. by rewrite map_app, concat_app. }
  pose proof Hi as Hi0. rewrite Happ, pages_of_app in Hi. apply increasing_app in Hi as (Hi1 & Hi2 & _).
  assert (n ∉ pages_of (all_entries (take i cs))) as Hpre.
  { eapply pages_below; [done|done|]. eapply Forall_impl; [exact Hbefore|]. cbn. intros c. lia. }
  destruct (cs !! i) as [c|] eqn:Ec.
  - pose proof (drop_S cs c i Ec) as Ed. rewrite Ed in *. rewrite <- (take_drop_middle cs i c Ec).
    change (take i cs ++ c :: drop (S i) cs) with (take i cs ++ [c] ++ drop (S i) cs). rewrite !Happ.
    change (all_entries [c]) with (entries_of c ++ []). rewrite app_nil_r.
    apply (lookup_page_middle p); [|done|].
    + change (c :: drop (S i) cs) with ([c] ++ drop (S i) cs) in Hi0. rewrite !Happ in Hi0.
      change (all_entries [c]) with (entries_of c ++ []) in Hi0. by rewrite app_nil_r in Hi0.
    + apply Forall_cons in Hs2 as [Hc _], Hafter as [Hn _]. cbn in Hn.
      unfold all_entries in Hi2. cbn [map concat] in Hi2. rewrite pages_of_app in Hi2. apply increasing_app in Hi2 as (_ & _ & Hlt).
      intros Hin. specialize (Hlt _ n (last_page_in _ _ Hc) Hin). lia.
  - apply lookup_ge_None in Ec. rewrite drop_ge in Hi2 by done. rewrite take_ge in Hpre by done. by apply lookup_page_none.
Qed.

(** The interval of a node as it is passed down the loop. *)
Definition interval_fits (t : Tree) (lower upper : Z) (is_root : bool) : Prop :=
  lower < t_min t /\ t_max t <= upper /\ (is_root = false -> upper = t_max t).

Lemma node_bound l t : shape l t -> PageMapNode.max_page (t_node t) = Some (t_max t) /\ PageMapNode.level (t_node t) = l.
Proof.
  inversion 1 as [r es Hne|r l' cs Hl Hne Hcs]; subst; cbn [t_node t_max PageMapNode.max_page PageMapNode.level]; split; try done.
  - destruct (last es) eqn:El; [done|]. by apply last_None in El.
  - rewrite fmap_last. destruct (last cs) eqn:El; [done|]. by apply last_None in El.
Qed.

Lemma entries_app_trees a b : all_entries (a ++ b) = all_entries a ++ all_entries b.
Proof. unfold all_entries. by rewrite map_app, concat_app. Qed.

(** A child among its siblings. *)
Lemma child_between l pre c post : Forall (shape l) (pre ++ c :: post) -> increasing 0 (pages_of (all_entries (pre ++ c :: post))) ->
  tree_inv l c /\ forall d, last pre = Some d -> t_max d < t_min c.
Proof.
  intros Hs Hi. apply Forall_app in Hs as [Hpre [Hc _]%Forall_cons]. rewrite entries_app_trees, pages_of_app in Hi.
  apply increasing_app in Hi as (Hip & Hi & Hlt). unfold all_entries in Hi at 1. cbn [map concat] in Hi. rewrite pages_of_app in Hi.
  apply increasing_app in Hi as (Hi & _ & _). split; [done|]. intros d Hd.
  destruct (tree_bounds l c (conj Hc Hi)) as [Hb _]. destruct (shape_bounds l c Hc) as (Hne & Hmin & _).
  apply Hlt.
  - apply last_Some in Hd as [q ->]. apply Forall_app in Hpre as [_ [Hd _]%Forall_cons]. rewrite entries_app_trees, pages_of_app, elem_of_app. right.
    unfold all_entries. cbn [map concat]. rewrite app_nil_r. by apply (last_page_in l).
  - unfold all_entries. cbn [map concat]. rewrite pages_of_app, elem_of_app. left. destruct (entries_of c) as [|e es]; [done|].
    injection Hmin as <-. by left.
Qed.

Lemma round_step h t lower upper is_root page raw : tree_inv (Z.of_nat h) t -> decode_page_map raw = Ok (t_node t) ->
  match mapping_round page (Z.of_nat h) lower upper is_root raw with
  | Ok (Mapped e) => e = lookup_page page (entries_of t)
  | Ok (Descend r lo up) => exists h' c, h = S h' /\ c ∈ t_children t /\ r = t_reference c /\ tree_inv (Z.of_nat h') c /\
      lookup_page page (entries_of t) = lookup_page page (entries_of c) /\
      (interval_fits t lower upper is_root -> interval_fits c lo up false)
  | Err e => ~ interval_fits t lower upper is_root
  end.
Proof.
  intros Ht Hd. pose proof Ht as [Hs Hi]. unfold mapping_round. rewrite Hd. cbn [of_protocol map_err mbind result_bind].
  destruct (node_bound _ _ Hs) as [Hmax Hlev]. rewrite Hmax, Hlev, Z.eqb_refl. cbn [negb orb].
  destruct ((upper <? t_max t) || negb is_root && negb (t_max t =? upper)) eqn:Eu; cbn [reject mbind result_bind].
  { intros (Hlow & Hup & Hr). apply orb_true_iff in Eu as [Eu|Eu]; [lia|]. apply andb_true_iff in Eu as [Er Eq].
    apply negb_true_iff in Er, Eq. specialize (Hr Er). lia. }
  inversion Hs as [r es Hne|r l cs Hl Hne Hcs]; subst; cbn [t_node t_min t_max t_children entries_of] in *.
  - destruct es as [|e es]; [done|]. destruct (Z.leb_spec (e_page_number e) lower) as [Hle|Hgt]; cbn [reject mbind result_bind].
    + intros (Hlow & _). cbn in Hlow. lia.
    + by apply (search_entries 0).
  - destruct cs as [|c0 cs]; [done|]. pose proof (child_between (Z.of_nat h - 1) [] c0 cs Hcs Hi) as [Ht0 _].
    destruct (tree_bounds _ _ Ht0) as [_ Hb0]. cbn [map b_max_page branch_of].
    destruct (Z.leb_spec (t_max c0) lower) as [Hle|Hgt]; cbn [reject mbind result_bind].
    + intros (Hlow & _). cbn in Hlow. lia.
    + pose proof (child_covers (Z.of_nat h - 1) (c0 :: cs) page 0 Hcs Hi) as Hcov. cbn zeta in Hcov.
      change (branch_of c0 :: map branch_of cs) with (map branch_of (c0 :: cs)).
      set (i := partition_point (fun e => b_max_page e <? page) (map branch_of (c0 :: cs))) in *.
      rewrite list_lookup_fmap. destruct ((c0 :: cs) !! i) as [c|] eqn:Ec; cbn [fmap option_fmap option_map]; [|done].
      destruct h as [|h']; [lia|]. exists h', c. pose proof (take_drop_middle _ _ _ Ec) as Etd.
      destruct (child_between (Z.of_nat (S h') - 1) (take i (c0 :: cs)) c (drop (S i) (c0 :: cs))) as [Htc Hprev]; [by rewrite Etd|rewrite Etd; exact Hi|].
      replace (Z.of_nat (S h') - 1) with (Z.of_nat h') in * by lia. split_and!; try done; [by eapply list_elem_of_lookup_2|].
      intros (Hlow & _ & _). cbn [b_max_page branch_of]. split_and!; [|done|done]. destruct (Z.ltb_spec 0 (Z.of_nat i)) as [Hi0|Hi0].
      * rewrite list_lookup_fmap. destruct ((c0 :: cs) !! (i - 1)%nat) as [d|] eqn:Ed; cbn.
        -- apply Hprev. rewrite last_lookup, length_take. pose proof (lookup_lt_Some _ _ _ Ec).
           rewrite Nat.min_l by lia. rewrite lookup_take_lt by lia. by replace (pred i) with (i - 1)%nat by lia.
        -- apply lookup_ge_None in Ed. pose proof (lookup_lt_Some _ _ _ Ec). lia.
      * assert (i = O) as Ez by lia. rewrite Ez in Ec. injection Ec as <-. exact Hlow.
Qed.

(** ** One round over the checkpoint index *)

Section index.
Context `{Sha2Crate} (read : ObjectReference -> rresult bytes).

(** [covers] by the height of the tree. *)
Fixpoint covers_at (h : nat) (r : PageObjectReference) (first count : Z) (hs : list Sha256) : Prop :=
  exists raw, read (CheckpointBuild.object r CHECKPOINT_PAGE_INDEX_MEDIA_TYPE) = Ok raw /\
  match h with
  | O => decode_checkpoint_index raw = Ok (CheckpointIndexNode.Leaf first hs) /\ count = len hs
  | S h => exists entries parts,
      decode_checkpoint_index raw = Ok (CheckpointIndexNode.Internal (Z.of_nat (S h)) entries) /\
      Forall2 (fun e part => covers_at h (c_child e) (c_first_page e) (c_page_count e) part) entries parts /\
      first = CheckpointIndexNode.first_page (CheckpointIndexNode.Internal (Z.of_nat (S h)) entries) /\
      count = page_sum entries /\ hs = concat parts
  end.

Lemma covers_height h : forall r first count hs, covers read r (Z.of_nat h) first count hs -> covers_at h r first count hs.
Proof.
  induction h as [|h IH]; intros r first count hs Hc; inversion Hc as [r' raw f hs' Hr Hd|r' raw l es parts Hr Hd Hp]; subst.
  - by exists raw.
  - destruct (decoded_index _ _ Hd) as (_ & _ & _ & Hl & _). done.
  - exists raw. split; [done|]. exists es, parts. split_and!; try done. eapply Forall2_impl; [exact Hp|]. intros e part Hep. apply IH.
    by replace (Z.of_nat h) with (Z.of_nat (S h) - 1) by lia.
Qed.

Lemma covers_len h : forall r first count hs, covers_at h r first count hs -> len hs = count.
Proof.
  induction h as [|h IH]; intros r first count hs (raw & _ & Hc); [by destruct Hc as [_ ->]|].
  destruct Hc as (es & parts & _ & Hp & _ & -> & ->). induction Hp as [|e part es parts He Hp IHp]; [done|].
  cbn [concat]. rewrite len_app, IHp. rewrite (IH _ _ _ _ He). done.
Qed.

(** The child of an adjacent list that holds a page. *)
Lemma find_child h es : forall parts first page, adjacent first es ->
  Forall2 (fun e part => covers_at h (c_child e) (c_first_page e) (c_page_count e) part) es parts ->
  first <= page < first + page_sum es ->
  exists e part, List.find (fun e => (c_first_page e <=? page) && (page - c_first_page e <? c_page_count e)) es = Some e /\ e ∈ es /\
    covers_at h (c_child e) (c_first_page e) (c_page_count e) part /\ first <= c_first_page e <= page /\ page < c_first_page e + c_page_count e /\
    concat parts !! Z.to_nat (page - first) = part !! Z.to_nat (page - c_first_page e).
Proof.
  induction es as [|e es IH]; intros parts first page Ha Hp Hb; cbn [page_sum map foldr] in Hb; [unfold page_sum in Hb; cbn in Hb; lia|].
  apply Forall2_cons_inv_l in Hp as (part & parts' & He & Hp & ->). destruct Ha as (Ef & Hpos & Ha). cbn [List.find concat].
  pose proof (covers_len _ _ _ _ _ He) as Hl. unfold len in Hl.
  destruct ((c_first_page e <=? page) && (page - c_first_page e <? c_page_count e)) eqn:Et.
  - apply andb_true_iff in Et as [E1 E2]. exists e, part. split_and!; try done; [by left|lia|lia|lia|]. rewrite Ef. apply lookup_app_l. lia.
  - destruct (IH parts' (first + c_page_count e) page Ha Hp) as (e' & part' & Hf & Hin & Hc & Hr & Hr2 & Hx).
    { unfold page_sum in *. cbn in Hb. apply andb_false_iff in Et as [?|?]; lia. }
    exists e', part'. split_and!; try done; [by right|lia|lia|]. rewrite <- Hx. rewrite lookup_app_r by (apply andb_false_iff in Et as [?|?]; lia).
    f_equal. apply andb_false_iff in Et as [?|?]; lia.
Qed.

Lemma index_round_ok h r first count hs page raw : covers_at h r first count hs ->
  read (CheckpointBuild.object r CHECKPOINT_PAGE_INDEX_MEDIA_TYPE) = Ok raw -> 0 <= first <= page -> page < first + count -> page < 2 ^ 64 ->
  match index_round page (Z.of_nat h) first count raw with
  | Ok (Hashed x) => hs !! Z.to_nat (page - first) = Some x
  | Ok (DescendIndex c) => exists h' part, h = S h' /\ child_ref_ok c /\ covers_at h' (c_child c) (c_first_page c) (c_page_count c) part /\
      0 <= c_first_page c <= page /\ page < c_first_page c + c_page_count c /\
      part !! Z.to_nat (page - c_first_page c) = hs !! Z.to_nat (page - first)
  | Err e => False
  end.
Proof.
  intros Hc Hr Hf Hp H64. pose proof (covers_len _ _ _ _ _ Hc) as Hl. destruct h as [|h]; destruct Hc as (raw' & Hr' & Hc);
    assert (raw' = raw) as -> by congruence; unfold index_round.
  - destruct Hc as [Hd ->]. rewrite Hd. cbn -[Z.to_nat]. rewrite !Z.eqb_refl. cbn -[Z.to_nat]. unfold checked_sub. rewrite try_uint_id by (unfold is_uint; lia).
    cbn -[Z.to_nat]. destruct (hs !! Z.to_nat (page - first)) as [x|] eqn:Ex; [done|]. apply lookup_ge_None in Ex. unfold len in Hp. lia.
  - destruct Hc as (es & parts & Hd & Hfa & -> & -> & ->). destruct (decoded_index _ _ Hd) as (_ & _ & _ & _ & Ha & Hrefs & _).
    rewrite Hd. cbn [of_protocol map_err mbind result_bind]. cbn [CheckpointIndexNode.level CheckpointIndexNode.page_count]. fold (page_sum es).
    rewrite !Z.eqb_refl. cbn [negb orb reject mbind result_bind].
    destruct (find_child h es parts _ page Ha Hfa ltac:(lia)) as (e & part & Hfind & Hin & He & Hlo & Hhi & Hx). rewrite Hfind.
    cbn [ok_or mbind result_bind]. exists h, part. rewrite Forall_forall in Hrefs. split_and!; try done; [by apply Hrefs|lia|lia].
Qed.
End index.

(** ** The walks *)

(** What binds cached bytes to the objects that are resolved: the byte strings met
    are known, known byte strings have distinct digests. *)
Record authentic `{Sha2Crate} (known : bytes -> Prop) (read : ObjectReference -> rresult bytes) (P : Key -> bytes -> Prop)
    (E : rerror -> Prop) (good : PageObjectReference -> Prop) : Prop := {
  au_known u s e b : P (ObjectRange u s e) b -> known b;
  au_read : faithful known read;
  au_distinct a b : known a -> known b -> digest a = digest b -> a = b;
  au_hash r b : good r -> P (ObjectRange (uri_str (ref_uri r)) 0 (ref_length r)) b ->
    digest b = ref_sha256 r \/ E (corrupt "authenticated metadata object hash mismatch") }.

Section walks.
Context `{HexCrate, Sha2Crate, ReaderCrates} `{ToJson Generation} {S : Type} `{ObjectStore S} (options : ReaderOptions).
Context (P : Key -> bytes -> Prop) (PI : Identity -> Prop) (SI : S -> Prop) (E : rerror -> Prop)
  (wanted : string -> Prop) (request : string -> ObjectMetadata -> Prop) (good : PageObjectReference -> Prop)
  (T : trusts P PI SI E wanted request good).
Context (known : bytes -> Prop) (read : ObjectReference -> rresult bytes) (A : authentic known read P E good).
Context (Hgood : forall r mt raw, read (CheckpointBuild.object r mt) = Ok raw -> good r).

Notation yields := (yields P PI SI E).
Notation yields_arc := (yields_arc P PI SI E).

(** A size that the reader accepts for a tree node, unless errors do not matter. *)
Definition sized (r : PageObjectReference) : Prop := 0 < ref_length r <= 1024 * 1024 \/ forall e, E e.

Lemma range_valid md n : 0 < n <= MAXIMUM_RANGE_LENGTH -> n <= om_length md -> validate_range_request md (0, n) = Ok tt.
Proof.
  intros Hn Hl. unfold validate_range_request, checked_sub. cbn [fst snd]. unfold MAXIMUM_RANGE_LENGTH in *.
  rewrite try_uint_id by (unfold is_uint; lia). cbn [ok_or mbind result_bind]. replace (_ || _ || _) with false by lia. cbn [reject mbind result_bind].
  by rewrite try_uint_id by (unfold is_uint; lia).
Qed.

(** A tree node that is handed out is the object that is resolved. *)
Lemma tree_node_reads r mt raw : sized r -> read (CheckpointBuild.object r mt) = Ok raw -> yields_arc (tree_node r) (fun b => b = raw).
Proof.
  intros Hz Hr. pose proof (Hgood r mt raw Hr) as Hg. destruct (au_read _ _ _ _ _ A _ _ Hr) as [Hd Hk]. cbn in Hd.
  assert (yields_arc (tree_node r) (fun b => P (ObjectRange (uri_str (ref_uri r)) 0 (ref_length r)) b /\ digest b = ref_sha256 r)) as Ht.
  { apply (tree_node_yields P PI SI E wanted request good T r Hg Hz).
    - intros md _ Hl. destruct Hz as [Hz|?]; [left|by right]. apply range_valid; [unfold MAXIMUM_RANGE_LENGTH; lia|lia].
    - intros b Hb Hne. by destruct (au_hash _ _ _ _ _ A r b Hg Hb). }
  intros s held arcs Hs. specialize (Ht s held arcs Hs). destruct (tree_node r s) as [[a|e] s']; [|done]. destruct Ht as [Hs' [HP Hb]].
  split; [done|]. apply (au_distinct _ _ _ _ _ A); [by eapply (au_known _ _ _ _ _ A)|done|congruence].
Qed.

Lemma tree_node_walk {B} r mt raw (body : bytes -> M S B) Q : sized r -> read (CheckpointBuild.object r mt) = Ok raw ->
  yields (body raw) Q -> yields (with_tree_node r body) Q.
Proof.
  intros Hz Hr Hb. unfold with_tree_node. eapply yields_with_arc; [by eapply tree_node_reads|]. intros b ->.
  apply yields_reserving; [apply (tr_exhausted _ _ _ _ _ _ _ T)| |done]. pose proof (len_nonneg raw). lia.
Qed.

Notation serves := (fun r => read (CheckpointBuild.object r PAGE_MAP_MEDIA_TYPE)).

(** What a round over the node of [t] leads to. *)
Definition mapping_next (h : nat) (t : Tree) (page : Z) (s : mapping_step) : Prop :=
  match s with
  | Mapped e => e = lookup_page page (entries_of t)
  | Descend r lo up => exists h' c, h = Datatypes.S h' /\ c ∈ t_children t /\ r = t_reference c /\ tree_inv (Z.of_nat h') c /\
      lookup_page page (entries_of t) = lookup_page page (entries_of c) /\ (interval_fits c lo up false \/ forall e, E e)
  end.

Lemma round_yields h t lower upper is_root page : tree_inv (Z.of_nat h) t -> reads_back serves t ->
  sized (t_reference t) -> interval_fits t lower upper is_root \/ (forall e, E e) ->
  yields (with_tree_node (t_reference t) (fun raw => pure (mapping_round page (Z.of_nat h) lower upper is_root raw))) (mapping_next h t page).
Proof.
  intros Ht (_ & raw & Hraw & Hd) Hz Hf. apply (tree_node_walk _ PAGE_MAP_MEDIA_TYPE raw); [done|done|].
  pose proof (round_step h t lower upper is_root page raw Ht Hd) as Hr. apply yields_pure.
  - intros s Hs. rewrite Hs in Hr. destruct s as [e|r lo up]; [done|]. destruct Hr as (h' & c & Hh & Hc & Hrc & Hi & Hl & Hfit).
    exists h', c. split_and!; try done. destruct Hf; auto.
  - intros e He. rewrite He in Hr. by destruct Hf as [Hf|Hf].
Qed.

(** The subtrees of a child are subtrees. *)
Lemma subtrees_of_child (Q : Tree -> Prop) t : Forall Q (subtrees t) -> Q t /\ forall c, c ∈ t_children t -> Forall Q (subtrees c).
Proof.
  destruct t as [r n cs mn mx]. cbn [subtrees t_children]. intros [Hq Hqs]%Forall_cons. split; [done|]. intros c Hc.
  apply Forall_forall. intros x Hx. apply (proj1 (Forall_forall _ _) Hqs). apply elem_of_concat_map. by exists c.
Qed.

Lemma mapping_loop_yields page h : forall t lower upper is_root, tree_inv (Z.of_nat h) t -> Forall (reads_back serves) (subtrees t) ->
  Forall (fun x => sized (t_reference x)) (subtrees t) ->
  interval_fits t lower upper is_root \/ (forall e, E e) ->
  yields (mapping_loop h page (t_reference t) lower upper is_root) (fun e => e = lookup_page page (entries_of t)).
Proof.
  induction h as [|h IH]; intros t lower upper is_root Ht Hr Hz Hf; cbn [mapping_loop];
    destruct (subtrees_of_child _ _ Hr) as [Hrt Hrs]; destruct (subtrees_of_child _ _ Hz) as [Hzt Hzs];
    (eapply yields_bind; [by apply (round_yields _ t)|]); intros [e|r lo up] Hs; try (by apply yields_ret);
    destruct Hs as (h' & c & Hh & Hc & -> & Hi & Hl & Hfit); try done.
  injection Hh as <-. rewrite Hl. apply IH; auto.
Qed.

(** ** The checkpoint index *)

Definition index_next (h : nat) (first : Z) (hs : list Sha256) (page : Z) (s : index_step) : Prop :=
  match s with
  | Hashed x => hs !! Z.to_nat (page - first) = Some x
  | DescendIndex c => exists h' part, h = Datatypes.S h' /\ child_ref_ok c /\ covers_at read h' (c_child c) (c_first_page c) (c_page_count c) part /\
      0 <= c_first_page c <= page /\ page < c_first_page c + c_page_count c /\
      part !! Z.to_nat (page - c_first_page c) = hs !! Z.to_nat (page - first)
  end.

Lemma index_loop_yields page (Hpage : page < 2 ^ 64) h :
  forall r first count hs, covers_at read h r first count hs -> 0 <= first <= page -> page < first + count -> sized r ->
  yields (index_loop h page r first count) (fun x => hs !! Z.to_nat (page - first) = Some x).
Proof.
  assert (forall h r first count hs, covers_at read h r first count hs -> 0 <= first <= page -> page < first + count -> sized r ->
    yields (with_tree_node r (fun raw => pure (index_round page (Z.of_nat h) first count raw))) (index_next h first hs page)) as Hround.
  { clear h. intros h r first count hs Hc Hf Hlt Hz. assert (exists raw, read (CheckpointBuild.object r CHECKPOINT_PAGE_INDEX_MEDIA_TYPE) = Ok raw) as [raw Hr].
    { destruct h; destruct Hc as (raw & ? & _); by exists raw. }
    apply (tree_node_walk _ CHECKPOINT_PAGE_INDEX_MEDIA_TYPE raw); [done|done|].
    pose proof (index_round_ok read h r first count hs page raw Hc Hr Hf Hlt Hpage) as Hi.
    apply yields_pure; [intros s Hs; by rewrite Hs in Hi|intros e He; by rewrite He in Hi]. }
  induction h as [|h IH]; intros r first count hs Hc Hf Hlt Hz; cbn [index_loop];
    (eapply yields_bind; [by eapply Hround|]); intros [x|c] Hs; try (by apply yields_ret);
    destruct Hs as (h' & part & Hh & Hrc & Hc' & Hf' & Hlt' & Hx); try done.
  injection Hh as <-. rewrite <- Hx. apply IH; [done|done|done|]. left. exact Hrc.
Qed.
End walks.

(** ** Pages are authentic *)

Section pages.
Context `{HexCrate, Sha2Crate, ImageCrates, ReaderCrates} `{ToJson Generation} {S : Type} `{ObjectStore S} (options : ReaderOptions).
Context (P : Key -> bytes -> Prop) (PI : Identity -> Prop) (SI : S -> Prop) (E : rerror -> Prop)
  (wanted : string -> Prop) (request : string -> ObjectMetadata -> Prop) (good : PageObjectReference -> Prop)
  (T : trusts P PI SI E wanted request good).
Context (known : bytes -> Prop) (read : ObjectReference -> rresult bytes) (A : authentic known read P E good).
Context (Hgood : forall r, good r) (Hlax : forall e, E e).
(** What is decompressed, and the pages of what is read, are known with it. *)
Context (Hunzip : forall b page, known b -> zstd_decompress_window b 4096 = Ok page -> known page).
Context (Hwindow : forall b k page, known b -> slice b (k * 4096) (k * 4096 + 4096) = Some page -> known page).
Context (Hoptions : checkpoint_window_bytes options mod 4096 = 0 /\ 0 < checkpoint_window_bytes options).

Notation yields := (yields P PI SI E).
Notation yields_arc := (yields_arc P PI SI E).

Lemma lax_pure {B} (m : rresult B) : yields (pure m) (fun a => m = Ok a).
Proof. apply yields_pure; auto. Qed.

Lemma lax_range r md rng : request (uri_str (ref_uri r)) md -> yields_arc (range r md rng) known.
Proof.
  intros Hr s held arcs Hs. pose proof (range_yields P PI SI E wanted request good T r md rng (Hgood r) Hr (or_intror (fun e => Hlax _)) s held arcs Hs) as Hx.
  destruct (range r md rng s) as [[a|e] s']; [|done]. destruct Hx as [Hs' HP]. split; [done|]. by eapply (au_known _ _ _ _ _ A).
Qed.

Definition is_page (sha : Sha256) (b : bytes) : Prop := len b = 4096 /\ digest b = sha /\ known b.

Lemma decode_stored_page entry stored data : known stored -> decode_stored entry stored = Ok data -> is_page (e_page_sha256 entry) data.
Proof.
  intros Hk E1. unfold decode_stored in E1. apply bind_ok in E1 as (p & Hp & E1). apply bind_reject in E1 as [Hc [= <-]].
  bool_to_prop. split_and!; try done. destruct (e_codec entry); [by injection Hp as <-|]. apply map_err_ok in Hp. by eapply Hunzip.
Qed.

Lemma mapped_page_yields entry page : yields (mapped_page entry page) (is_page (e_page_sha256 entry)).
Proof.
  unfold mapped_page. apply yields_refuse; [auto|]. intros _.
  eapply yields_bind; [by apply (immutable_yields P PI SI E wanted request good T)|]. intros md Hmd.
  eapply yields_with_arc; [by apply lax_range|]. intros header _. eapply yields_bind; [apply lax_pure|]. intros parsed _.
  apply yields_refuse; [auto|]. intros _. eapply yields_with_arc; [by apply lax_range|]. intros index_raw _.
  apply yields_reserving; [auto|pose proof (len_nonneg index_raw); lia|]. eapply yields_bind; [apply lax_pure|]. intros u _.
  eapply yields_with_arc; [by apply lax_range|]. intros stored Hk. eapply yields_mono; [apply lax_pure|]. intros data Hd.
  by eapply decode_stored_page.
Qed.

Context (g : Generation) (r : ResolvedGeneration) (Hres : resolves read g r) (Hps : mi_page_size (g_metadata_image g) = 4096).
Context (Hbytes : forall n page, page_at 4096 (rg_bytes r) n = Some page -> known page).
Context (Hcheckpoint : forall n page, page_at 4096 (rg_checkpoint r) n = Some page -> known page).
Context (self : AuthenticatedImage) (Hself : ai_generation self = g).

(** The index leads to the hash of the checkpoint's page. *)
Lemma checkpoint_hash_yields page : 0 <= page < 2 ^ 64 ->
  yields (checkpoint_hash self page) (fun h => exists b, page_at 4096 (rg_checkpoint r) page = Some b /\ digest b = h).
Proof.
  intros Hp. unfold checkpoint_hash. rewrite Hself. eapply yields_bind; [apply lax_pure|]. intros index Hi%ok_or_ok.
  apply yields_refuse; [auto|]. intros Hr. apply orb_false_iff in Hr as [Hr1 Hr2].
  pose proof (rs_index _ _ _ Hres) as Hv. unfold verify_checkpoint_index in Hv. rewrite Hi in Hv.
  apply bind_ok in Hv as (u & _ & Hv). apply bind_ok in Hv as (seen & Hv & _). rewrite Hps in Hv.
  apply verify_node_sound in Hv as (hs & Hc & Hl & Ha).
  assert (0 <= root_height (ci_root index)) as Hh0.
  { inversion Hc as [|? raw l es parts Hraw Hd]; subst; [done|]. destruct (decoded_index _ _ Hd) as [[? _] _]. unfold is_uint in *. lia. }
  rewrite <- (Z2Nat.id (root_height (ci_root index)) Hh0) in Hc. apply covers_height in Hc.
  eapply yields_mono; [apply (index_loop_yields P PI SI E wanted request good T known read A (fun x _ _ _ => Hgood x) page (proj2 Hp) _ _ _ _ _ Hc)|].
  - lia.
  - lia.
  - by right.
  - intros h Hh. destruct (Ha _ _ Hh) as (b & Hb & Hd). exists b. split; [|done]. rewrite <- Hb. f_equal. lia.
Qed.

(** The pages of the two views of the image. *)
Definition view (base_only : bool) : bytes := if base_only then rg_checkpoint r else rg_bytes r.
Context (Hadmit : forall page b, len b = 4096 -> page_at 4096 (view (ai_base_only self)) page = Some b -> P (AuthenticatedPage (page_key self page)) b).
Context (Hadmitted : forall page b, P (AuthenticatedPage (page_key self page)) b -> page_at 4096 (view (ai_base_only self)) page = Some b).

(** The answer to a request is the page, as far as the buffer goes. *)
Definition answers (page n : Z) (b : bytes) : Prop := exists p, page_at 4096 (view (ai_base_only self)) page = Some p /\ b = take (Z.to_nat n) p.

Lemma finish_yields page n data : page_at 4096 (view (ai_base_only self)) page = Some data -> yields (finish_page self page n data) (answers page n).
Proof.
  intros Hp. unfold finish_page. eapply yields_bind; [apply lax_pure|]. intros u _ s held arcs Hs.
  unfold mbind, reader_bind, on_cache at 1. pose proof (ok_reserve P PI SI (4096 + 256) s held arcs ltac:(lia) Hs) as Hres'.
  destruct (reserve (4096 + 256) (rx_cache s)) as [[x|e] c]; [|destruct Hres' as [? _]; auto]. destruct Hres' as [-> (Hc & Hk & Hst)].
  assert (len data = 4096) as Hl by (by apply page_at_some in Hp as (_ & _ & ? & _)).
  pose proof (insert_page_ok P (page_key self page) data (vec_capacity data) _ _ held arcs Hc (tr_capacity _ _ _ _ _ _ _ T data)
    (Hadmit page data Hl Hp)) as Hi.
  assert (c_identities (insert_page (page_key self page) data (vec_capacity data) (4096 + 256) c).2 = c_identities c) as Hids.
  { unfold insert_page. destruct (negb _); [done|]. destruct (match _ with Some _ => _ | None => _ end); [done|]. by destruct (c_values c !! _). }
  unfold on_cache. cbn [rx_cache with_cache] in *. destruct (insert_page _ _ _ _ c) as [[v|e] c']; destruct Hi as [Hc' _]; cbn [snd] in Hids.
  - split; [|by exists data]. split; [done|]. split; [|done]. unfold knows. cbn. by rewrite Hids.
  - split; [|auto]. split; [done|]. split; [|done]. unfold knows. cbn. by rewrite Hids.
Qed.

Lemma window_offset k : 0 <= k -> exists j, k * 4096 - k * 4096 / checkpoint_window_bytes options * checkpoint_window_bytes options = j * 4096.
Proof.
  intros Hk. destruct Hoptions as [Hm Hpos]. apply Z.mod_divide in Hm as [q Hq]; [|done]. rewrite Hq.
  exists (k - k * 4096 / (q * 4096) * q). lia.
Qed.

Context (Hrequest : request (uri_str (ck_uri (mi_checkpoint (g_metadata_image g)))) (ai_checkpoint self)).

Lemma checkpoint_page_yields page n : 1 <= page < 2 ^ 64 -> page_at 4096 (view (ai_base_only self)) page = page_at 4096 (rg_checkpoint r) page ->
  yields (checkpoint_page options self page n) (answers page n).
Proof.
  intros Hp Hsame. unfold checkpoint_page. eapply yields_bind; [apply checkpoint_hash_yields; lia|]. intros h (b & Hb & Hd).
  rewrite Hself. eapply yields_with_arc; [by apply lax_range|]. intros window Hk.
  eapply yields_bind; [apply lax_pure|]. intros data Hdata%ok_or_ok. apply yields_refuse; [auto|]. intros Hdig. bool_to_prop.
  destruct (window_offset (page - 1) ltac:(lia)) as [j Hj]. rewrite Hj in Hdata.
  assert (data = b) as ->; [|apply finish_yields; by rewrite Hsame].
  apply (au_distinct _ _ _ _ _ A); [by eapply Hwindow|by eapply Hcheckpoint|congruence].
Qed.

(** ** The entry of a page *)

Lemma mapping_yields page : ai_base_only self = false -> yields (mapping self page) (fun e => e = lookup_page page (image_entries (rg_tree r))).
Proof.
  intros Hbase. unfold mapping. rewrite Hbase, Hself. pose proof (rs_tree _ _ _ Hres) as Ht. unfold tree_resolves in Ht.
  destruct (mi_page_map (g_metadata_image g)) as [root|]; [|rewrite Ht; by apply yields_ret].
  destruct Ht as (t & -> & Hroot & (_ & Hs & Hi & _ & _ & _ & Hr)). rewrite Hroot. cbn [image_entries].
  assert (0 <= root_height root) as Hh by (inversion Hs; lia). rewrite <- (Z2Nat.id _ Hh) in Hs.
  apply (mapping_loop_yields P PI SI E wanted request good T known read A (fun x _ _ _ => Hgood x) page _ t); [done|done| |by right].
  apply Forall_forall. intros x _. by right.
Qed.

(** A request is answered with the page of the view. *)
Lemma copy_page_yields page n : 0 <= page < 2 ^ 64 -> yields (copy_page options self page n) (answers page n).
Proof.
  intros Hp. unfold copy_page. apply yields_refuse; [auto|]. intros Hr. apply orb_false_iff in Hr as [Hr _]. apply orb_false_iff in Hr as [Hp0 Hlen].
  set (rest := reserving 4096 _). assert (yields rest (answers page n)) as Hrest.
  { apply yields_reserving; [auto|lia|].
    destruct (Bool.bool_dec (ai_base_only self) true) as [Ebase|Ebase%not_true_is_false].
    - eapply (yields_bind P PI SI E _ _ (fun e => e = None)); [unfold mapping; rewrite Ebase; by apply yields_ret|]. intros e ->.
      apply checkpoint_page_yields; [lia|]. by rewrite Ebase.
    - eapply yields_bind; [by apply mapping_yields|]. intros e ->.
      assert (1 <= page <= mi_page_count (g_metadata_image g)) as Hcount.
      { unfold image_length in Hlen. rewrite Ebase, Hself, Z.div_mul in Hlen by done. lia. }
      pose proof (rs_pages _ _ _ Hres page Hcount) as Hpage. rewrite Hps in Hpage.
      destruct (lookup_page page (image_entries (rg_tree r))) as [entry|].
      + destruct Hpage as (b & Hm & Hb). destruct (Resolve.mapped_page _ _ _ _ Hm) as [_ Hd].
        eapply yields_bind; [apply mapped_page_yields|]. intros data (Hl & Hdd & Hk). apply finish_yields. rewrite Ebase.
        replace data with b; [done|]. apply (au_distinct _ _ _ _ _ A); [by eapply Hbytes|done|congruence].
      + apply checkpoint_page_yields; [lia|]. by rewrite Ebase. }
  intros s held arcs Hs. unfold mbind at 1, reader_bind at 1, on_cache. pose proof (get_page_ok P (page_key self page) (rx_cache s) held arcs (proj1 Hs)) as Hg.
  destruct Hs as (Hc & Hk & Hst).
  assert (c_identities (get_page (page_key self page) (rx_cache s)).2 = c_identities (rx_cache s)) as Hids.
  { unfold get_page. destruct (c_values _ !! _); [|done]. destruct (negb _); [done|]. cbn. apply clone_identities. }
  destruct (get_page (page_key self page) (rx_cache s)) as [[[a|]|e] c]; cbn [got snd] in *.
  - destruct Hg as (Hc' & _ & HP). apply Hadmitted in HP.
    assert (reader_ok P PI SI (with_cache c s) held (a :: arcs)) as Hs1 by (split; [done|]; split; [|done]; unfold knows; cbn; by rewrite Hids).
    apply ok_dropped in Hs1. unfold with_arc, mret, reader_ret, mbind, reader_bind. cbn. split; [exact Hs1|]. by exists (arc_bytes a c).
  - subst c. by apply Hrest.
  - destruct Hg as [-> [m ->]]. split; [done|auto].
Qed.
End pages.

(** ** Property *)

(** Requests for pages, of the image or of its checkpoint: the page number and the
    length of the buffer. *)
Definition request_list : Type := list (bool * Z * Z).

Section requests.
Context `{HexCrate, Sha2Crate, ReaderCrates} `{ToJson Generation} {S : Type} `{ObjectStore S} (options : ReaderOptions).

Fixpoint read_pages (self : AuthenticatedImage) (requests : request_list) (s : Reader S) : list (rresult bytes) * Reader S :=
  match requests with
  | [] => ([], s)
  | (base_only, page, n) :: requests =>
    let '(answer, s) := copy_page options (if base_only : bool then checkpoint_view self else self) page n s in
    let '(answers, s) := read_pages self requests s in
    (answer :: answers, s)
  end.

Lemma image_start g (s s' : Reader S) self : image g s = (Ok self, s') ->
  ai_generation self = g /\ ai_base_only self = false /\ rx_cache s' = rx_cache s /\ mi_page_size (g_metadata_image g) = 4096 /\
  exists s1 md, os_stat (rx_store s) (ck_uri (mi_checkpoint (g_metadata_image g))) = (Ok md, s1) /\ rx_store s' = s1.
Proof.
  intros E. unfold image, mbind, reader_bind, pure, refuse_when in E.
  destruct (of_protocol (validate_generation g)) as [u|e] eqn:Ev; [|done]. cbn [pure] in E.
  destruct (ok_or (mi_checkpoint_page_index _) _) as [index|e]; [|done]. cbn in E.
  destruct (of_protocol (validate_page_index _ _ _)) as [u1|e]; [|done]. cbn in E.
  destruct (reject _ _) as [u2|e]; [|done]. destruct (reject _ _) as [u3|e]; [|done].
  unfold stat, mbind, reader_bind, count_request, on_store in E. cbn in E.
  destruct (os_stat (rx_store s) _) as [[md|e] s1] eqn:Es; cbn in E; [|done]. destruct (reject _ _) as [u4|e]; [|done].
  destruct (generation_fingerprint g md) as [fp|e]; [|done]. cbn in E. injection E as <- <-. cbn. split_and!; try done; [|by exists s1, md].
  apply map_err_ok in Ev. unfold validate_generation in Ev. apply bind_reject in Ev as [Hc _]. bool_to_prop. done.
Qed.
End requests.

(** An opened image: the reader's state is kept by every request, and a request is
    answered with the page or with an error. *)
Lemma opened_reads `{HexCrate, Sha2Crate, ImageCrates, ReaderCrates} `{ToJson Generation} {S : Type} `{ObjectStore S}
    (SI : S -> Prop) (options : ReaderOptions) (store : S) (known : bytes -> Prop) (read : ObjectReference -> rresult bytes)
    (g : Generation) (r : ResolvedGeneration) (s0 s1 : Reader S) (self : AuthenticatedImage)
    (Hnew : reader_new options store = Ok s0) (Hoptions : is_usize (cache_budget_bytes options))
    (Himage : image g s0 = (Ok self, s1)) (Hg : runtime_generation g)
    (Hresolve : resolve_generation read g = Ok r)
    (Hread : faithful known read) (Hno : forall a b, known a -> known b -> digest a = digest b -> a = b)
    (Hstore : SI store) (Hstat : forall s uri, SI s -> SI (os_stat s uri).2)
    (Hranges : forall s uri rng md, SI s -> let '(a, s') := os_read_range s uri rng md in
       SI s' /\ forall response, a = Ok response -> known (sr_bytes response))
    (Hunzip : forall b page, known b -> zstd_decompress_window b 4096 = Ok page -> known page)
    (Hwindow : forall b k page, known b -> slice b (k * 4096) (k * 4096 + 4096) = Some page -> known page)
    (Hbytes : forall n page, page_at 4096 (rg_bytes r) n = Some page -> known page)
    (Hcheckpoint : forall n page, page_at 4096 (rg_checkpoint r) n = Some page -> known page)
    (Hcapacity : forall b, len b <= vec_capacity b) :
  exists (P : Key -> bytes -> Prop) (PI : Identity -> Prop) (E : rerror -> Prop), reader_ok P PI SI s1 [] [] /\
    forall base_only page n, is_u64 page -> yields P PI SI E (copy_page options (if base_only : bool then checkpoint_view self else self) page n)
      (fun b => exists p, page_at 4096 (if base_only : bool then rg_checkpoint r else rg_bytes r) page = Some p /\ b = take (Z.to_nat n) p).
Proof.
  set (P := fun k b => match k with
    | ObjectRange _ _ _ => known b
    | AuthenticatedPage k => len b = 4096 /\ (pk_generation k = ai_fingerprint self -> page_at 4096 (view r (pk_checkpoint k)) (pk_page k) = Some b)
    end).
  set (PI := fun _ : Identity => True). set (E := fun _ : rerror => True).
  assert (trusts P PI SI E (fun _ => True) (fun _ _ => True) (fun _ => True)) as T.
  { constructor; try done; try (by intros; right).
    - intros k b [? _]. done.
    - intros s uri Hs _. pose proof (Hstat s uri Hs). destruct (os_stat s uri) as [[md|e] s']; done.
    - intros s uri rng md Hs _ _. pose proof (Hranges s uri rng md Hs) as Hr. destruct (os_read_range s uri rng md) as [[resp|e] s'].
      + destruct Hr as [? Hr]. split; [done|]. destruct (validate_stored_range _ _ _); [|done]. by apply Hr.
      + by destruct Hr. }
  assert (authentic known read P E (fun _ => True)) as A.
  { constructor; [by intros u s e b ?|done|done|by intros; right]. }
  destruct (image_start g s0 s1 self Himage) as (Hself & Hbase & Hcache & Hps & st & md & Hst & Hstore1).
  unfold reader_new in Hnew. apply bind_ok in Hnew as (u & Hv & [= <-]). cbn [rx_cache rx_store] in *.
  assert (checkpoint_window_bytes options mod 4096 = 0 /\ 0 < checkpoint_window_bytes options) as Hwin.
  { unfold validate_options in Hv. apply reject_ok in Hv. bool_to_prop. split; [done|lia]. }
  assert (reader_ok P PI SI s1 [] []) as Hs1.
  { split; [rewrite Hcache; by apply ok_new_cache|]. split; [done|]. rewrite Hstore1. rewrite <- (f_equal snd Hst : _ = st). by apply Hstat. }
  assert (resolves read g r) as Hres.
  { destruct Hg as (Hp4 & Hpc & _). apply resolve_sound; [rewrite Hps; split; lia|done|done]. }
  exists P, PI, E. split; [done|]. change (forall base_only page n, is_u64 page -> yields P PI SI E (copy_page options (if base_only : bool then checkpoint_view self else self) page n)
    (fun b => exists p, page_at 4096 (view r base_only) page = Some p /\ b = take (Z.to_nat n) p)).
  intros base_only page n Hp. set (v := if base_only then checkpoint_view self else self).
    assert (ai_generation v = g /\ ai_base_only v = base_only /\ ai_fingerprint v = ai_fingerprint self) as (Hv1 & Hv2 & Hv3) by (by destruct base_only).
    pose proof (copy_page_yields options P PI SI E _ _ _ T known read A (fun _ => I) (fun _ => I) Hunzip Hwindow Hwin g r Hres Hps Hbytes Hcheckpoint
      v Hv1) as Hy. rewrite Hv2 in Hy. unfold answers in Hy. rewrite Hv2 in Hy. apply Hy; [| |done|done].
    - intros q b Hl Hb. split; [done|]. intros _. unfold page_key. cbn. by rewrite Hv2.
    - intros q b [_ Hb]. unfold page_key in Hb. cbn in Hb. rewrite Hv2, Hv3 in Hb. by apply Hb.
Qed.

(** C9: reading a metadata image page by page is reading the resolved image. Over
    any store, whatever it answers, a request for a page of an opened image, or of
    the checkpoint under it, is answered with an error or with that very page of
    what [resolve_generation] builds from the generation, however the walks, the
    cache and its evictions went before; the answers never leave a reservation or
    a shared byte string behind. The byte strings that are read and hashed are
    taken to have distinct digests. *)
Theorem lazy_pages_authentic `{HexCrate, Sha2Crate, ImageCrates, ReaderCrates} `{ToJson Generation} {S : Type} `{ObjectStore S}
    (SI : S -> Prop) (options : ReaderOptions) (store : S) (known : bytes -> Prop) (read : ObjectReference -> rresult bytes)
    (g : Generation) (r : ResolvedGeneration) (s0 s1 : Reader S) (self : AuthenticatedImage) (requests : request_list)
    (Hnew : reader_new options store = Ok s0) (Hoptions : is_usize (cache_budget_bytes options))
    (Himage : image g s0 = (Ok self, s1)) (Hg : runtime_generation g)
    (Hresolve : resolve_generation read g = Ok r)
    (Hread : faithful known read) (Hno : forall a b, known a -> known b -> digest a = digest b -> a = b)
    (Hstore : SI store) (Hstat : forall s uri, SI s -> SI (os_stat s uri).2)
    (Hranges : forall s uri rng md, SI s -> let '(a, s') := os_read_range s uri rng md in
       SI s' /\ forall response, a = Ok response -> known (sr_bytes response))
    (Hunzip : forall b page, known b -> zstd_decompress_window b 4096 = Ok page -> known page)
    (Hwindow : forall b k page, known b -> slice b (k * 4096) (k * 4096 + 4096) = Some page -> known page)
    (Hbytes : forall n page, page_at 4096 (rg_bytes r) n = Some page -> known page)
    (Hcheckpoint : forall n page, page_at 4096 (rg_checkpoint r) n = Some page -> known page)
    (Hcapacity : forall b, len b <= vec_capacity b) (Hrequests : Forall (fun q => is_u64 q.1.2) requests) :
  let '(answers, s2) := read_pages options self requests s1 in
  (forall i base_only page n b, requests !! i = Some (base_only, page, n) -> answers !! i = Some (Ok b) ->
    exists p, page_at 4096 (if base_only : bool then rg_checkpoint r else rg_bytes r) page = Some p /\ b = take (Z.to_nat n) p) /\
  c_used (rx_cache s2) = total (c_arcs (rx_cache s2)).
Proof.
  destruct (opened_reads SI options store known read g r s0 s1 self Hnew Hoptions Himage Hg Hresolve Hread Hno Hstore Hstat Hranges Hunzip Hwindow Hbytes Hcheckpoint Hcapacity) as (P & PI & E & Hs1 & Hcopy).
  clear Himage. revert s1 Hs1 Hrequests. induction requests as [|[[base_only page] n] requests IH]; intros s1 Hs1 Hq; cbn [read_pages].
  { split; [done|]. destruct Hs1 as (Hc & _ & _). by rewrite (ck_used Hc). }
  apply Forall_cons in Hq as [Hp Hq]. specialize (Hcopy base_only page n Hp s1 [] [] Hs1) as Hy.
  destruct (copy_page options _ page n s1) as [a s']. destruct Hy as [Hs' Ha]. specialize (IH s' Hs' Hq).
  destruct (read_pages options self requests s') as [answers s2]. destruct IH as [Hall Hused]. split; [|done].
  intros [|i] b0 p0 n0 b Hi Hb; cbn in Hi, Hb; [|by eapply Hall]. injection Hi as <- <- <-. injection Hb as ->. exact Ha.
Qed.

(** ** Example *)

#[local] Existing Instances Candidate.example_hex Candidate.example_sha2 Candidate.example_serde Candidate.example_crates.
#[local] Existing Instance Candidate.example_to_json.
#[local] Instance example_reader : ReaderCrates := {| zstd_decompress_window b _ := Ok b; vec_capacity b := len b |}.

(** The candidate's generation, over a store that serves whole objects only. *)
Definition lazy_generation : Generation :=
  new_generation small_table_pinned small_commit (MkUri "_otmp/commits/2/a.json") (as_bytes "commit") small_table 2
    (ok_default (Build_ImageParts small_checkpoint None None []) (full_image 2 small_table small_bytes)).
Definition lazy_objects : list (string * MemoryObject) := bt_of_list (map (fun kv => (kv.1, MkObject kv.2 1)) candidate_store).
Definition lazy_store : MemoryState := MkMemory lazy_objects 1 [] 0.
#[local] Instance whole_store : ObjectStore MemoryState :=
  {| os_read := memory_read; os_stat := memory_stat;
     os_read_range s key rng expected :=
       if bool_decide (rng = (0, om_length expected)) then memory_read_range s key rng expected
       else (Err (StorageError.VerificationFailed "parts are not served"), s);
     os_create_from_reader := memory_create; os_create_head s b := memory_conditional s None b;
     os_replace_head s v b := memory_conditional s (Some v) b; os_delete_if_version := memory_delete |}.

Definition lazy_resolved : ResolvedGeneration :=
  ok_default {| rg_checkpoint := []; rg_bytes := []; rg_tree := None |} (resolve_generation (store_read candidate_store) lazy_generation).
Definition lazy_reader : Reader MemoryState := MkReader lazy_store (cache_new (64 * 1024 * 1024)) 0 0 0 0.
Definition no_image : AuthenticatedImage :=
  {| ai_generation := lazy_generation; ai_checkpoint := MkMetadata 0 (MkVersion ""); ai_fingerprint := MkSha256 []; ai_base_only := false |}.
Definition opened (x : rresult AuthenticatedImage * Reader MemoryState) : AuthenticatedImage * Reader MemoryState := (ok_default no_image x.1, x.2).
Definition lazy_opened : AuthenticatedImage * Reader MemoryState := opened (image lazy_generation lazy_reader).
Definition lazy_known : list bytes :=
  map snd candidate_store ++ [ByteArray.range 0 4096 small_bytes; ByteArray.range 4096 8192 small_bytes].
Definition lazy_requests : request_list := [(false, 2, 4096); (true, 2, 100); (false, 3, 10)].

Lemma lazy_resolves : resolve_generation (store_read candidate_store) lazy_generation = Ok lazy_resolved.
Proof. vm_compute. reflexivity. Qed.
Lemma lazy_opens : image lazy_generation lazy_reader = (Ok lazy_opened.1, lazy_opened.2).
Proof. vm_compute. reflexivity. Qed.
Lemma lazy_distinct : forall a b, a ∈ lazy_known -> b ∈ lazy_known -> digest a = digest b -> a = b.
Proof. apply distinct_digests_inj. apply (bool_decide_eq_true_1 _). vm_compute. reflexivity. Qed.

(** The aligned pages of the known byte strings are known. *)
Definition pages_closed (l : list bytes) : bool :=
  forallb (fun b => forallb (fun k => match slice b (k * 4096) (k * 4096 + 4096) with Some page => bool_decide (page ∈ l) | None => true end)
                      (seqZ 0 (len b / 4096))) l.

Lemma pages_closed_ok l b k page : pages_closed l = true -> b ∈ l -> slice b (k * 4096) (k * 4096 + 4096) = Some page -> page ∈ l.
Proof.
  intros Hl Hb Hs. pose proof Hs as (? & ? & _)%slice_some. unfold pages_closed in Hl. rewrite forallb_forall in Hl.
  specialize (Hl b (proj1 (list_elem_of_In _ _) Hb)). rewrite forallb_forall in Hl.
  specialize (Hl k). rewrite Hs in Hl. refine (bool_decide_eq_true_1 _ (Hl _)). apply list_elem_of_In, elem_of_seqZ. pose proof (len_nonneg b).
  split; [lia|]. rewrite Z.add_0_l. apply Z.lt_le_trans with (k + 1); [lia|]. apply Z.div_le_lower_bound; lia.
Qed.

Lemma lazy_closed : pages_closed lazy_known = true.
Proof. vm_compute. reflexivity. Qed.

Lemma page_known b n page : b ∈ lazy_known -> page_at 4096 b n = Some page -> page ∈ lazy_known.
Proof.
  intros Hb Hp. apply (pages_closed_ok _ b (n - 1)); [apply lazy_closed|done|]. unfold page_at in Hp. rewrite <- Hp. f_equal. lia.
Qed.

Lemma small_bytes_known : small_bytes ∈ lazy_known.
Proof. apply (bool_decide_eq_true_1 _). vm_compute. reflexivity. Qed.
Lemma lazy_bytes : rg_bytes lazy_resolved = small_bytes /\ rg_checkpoint lazy_resolved = small_bytes.
Proof. split; vm_compute; reflexivity. Qed.

Lemma objects_known (l : list bytes) (m : list (string * MemoryObject)) k o :
  forallb (fun kv => bool_decide (mo_bytes kv.2 ∈ l)) m = true -> bt_get k m = Some o -> mo_bytes o ∈ l.
Proof.
  intros Hall Ho%bt_get_some_elem. rewrite forallb_forall in Hall. exact (bool_decide_eq_true_1 _ (Hall _ (proj1 (list_elem_of_In _ _) Ho))).
Qed.
Lemma lazy_objects_known : forallb (fun kv : string * MemoryObject => bool_decide (mo_bytes kv.2 ∈ lazy_known)) lazy_objects = true.
Proof. vm_compute. reflexivity. Qed.
Lemma store_known k o : bt_get k lazy_objects = Some o -> mo_bytes o ∈ lazy_known.
Proof. apply objects_known, lazy_objects_known. Qed.

Lemma whole_ranges (l : list bytes) (m : list (string * MemoryObject)) s uri rng md :
  (forall k o, bt_get k m = Some o -> mo_bytes o ∈ l) -> ms_objects s = m ->
  let '(a, s') := os_read_range s uri rng md in ms_objects s' = m /\ forall response, a = Ok response -> sr_bytes response ∈ l.
Proof.
  intros Hl Hs. cbn [os_read_range whole_store]. case_bool_decide as Hr; [|by split]. subst rng. unfold memory_read_range. split; [done|].
  intros response E. apply bind_ok in E as (u & _ & E). apply bind_ok in E as (o & Ho & E). apply bind_reject in E as [Hm E].
  apply bind_ok in E as (start & Hstart & E). apply bind_ok in E as (stop & Hstop & [= <-]). cbn [sr_bytes fst snd] in *.
  apply ok_or_ok, try_uint_some in Hstart as [-> _]. apply ok_or_ok, try_uint_some in Hstop as [-> _]. bool_to_prop. subst md.
  cbn [om_length memory_metadata]. apply ok_or_ok in Ho. rewrite Hs in Ho. apply Hl in Ho.
  assert (ByteArray.range 0 (len (mo_bytes o)) (mo_bytes o) = mo_bytes o) as ->; [|done].
  unfold ByteArray.range, len. cbn [Z.to_nat]. rewrite drop_0. apply take_ge. lia.
Qed.

Lemma lazy_faithful : faithful (fun b => b ∈ lazy_known) (store_read candidate_store).
Proof. apply store_read_faithful. apply Forall_forall. intros b Hb. apply elem_of_app. by left. Qed.
Lemma lazy_runtime : runtime_generation lazy_generation.
Proof. split_and!; vm_compute; done. Qed.
Lemma lazy_unzip b page : b ∈ lazy_known -> zstd_decompress_window b 4096 = Ok page -> page ∈ lazy_known.
Proof. by intros Hb [= <-]. Qed.
Lemma lazy_requests_ok : Forall (fun q : bool * Z * Z => is_u64 q.1.2) lazy_requests.
Proof. repeat (apply Forall_cons; split; [split; vm_compute; done|]). constructor. Qed.
Lemma lazy_answers : map (fun a => is_ok a) (read_pages default_options lazy_opened.1 lazy_requests lazy_opened.2).1 = [true; true; false].
Proof. vm_compute. reflexivity. Qed.

Lemma lazy_pages_authentic_witness :
  let answers := (read_pages default_options lazy_opened.1 lazy_requests lazy_opened.2).1 in
  exists p, page_at 4096 small_bytes 2 = Some p /\ answers !! 0%nat = Some (Ok (take 4096 p)) /\ answers !! 1%nat = Some (Ok (take 100 p)).
Proof.
  pose proof (lazy_pages_authentic (fun s => ms_objects s = lazy_objects) default_options lazy_store (fun b => b ∈ lazy_known)
    (store_read candidate_store) lazy_generation lazy_resolved lazy_reader lazy_opened.2 lazy_opened.1 lazy_requests eq_refl
    ltac:(split; vm_compute; done) lazy_opens lazy_runtime lazy_resolves lazy_faithful lazy_distinct eq_refl
    (fun s uri Hs => Hs)
    (fun s uri rng md => whole_ranges lazy_known lazy_objects s uri rng md store_known) lazy_unzip (fun b k page => pages_closed_ok lazy_known b k page lazy_closed)) as Ht.
  rewrite (proj1 lazy_bytes), (proj2 lazy_bytes) in Ht.
  specialize (Ht (fun n page => page_known small_bytes n page small_bytes_known) (fun n page => page_known small_bytes n page small_bytes_known)
    (fun b => Z.le_refl _) lazy_requests_ok).
  pose proof lazy_answers as Ha. destruct (read_pages default_options lazy_opened.1 lazy_requests lazy_opened.2) as [answers s2].
  destruct Ht as [Ht _]. cbn [fst] in *. destruct answers as [|[a0|] [|[a1|] rest]]; try discriminate Ha.
  destruct (Ht 0%nat false 2 4096 a0 eq_refl eq_refl) as (p & Hp & ->). destruct (Ht 1%nat true 2 100 a1 eq_refl eq_refl) as (p' & Hp' & ->).
  exists p. split; [exact Hp|]. split; [reflexivity|]. assert (p' = p) as -> by congruence. reflexivity.
Defined.
