(* ===== verification/EnginePages.v ===== *)
(** Structural validation of the pages a SQL engine asks for
    (otmp/src/reader_engine_pages.rs): the role every page plays in the b-trees of the
    image, registered by the pages that refer to it, and the bounds of the cells. *)
From S2P Require Import Prelude Bytes Errors PageTree ByteArray.

Definition PAGE : Z := 4096.

Inductive Role :=
| Btree (parent slot : Z) (root schema_tree : bool)
| Overflow (owner cell remaining record_bytes : Z).
#[export] Instance Role_eq_dec : EqDecision Role.
Proof. solve_decision. Defined.

Record PageValidator := MkValidator { pv_pages : Z; pv_max : Z; pv_roles : gmap Z Role; pv_max_roles : Z }.

Definition role_count (v : PageValidator) : Z := Z.of_nat (size (pv_roles v)).
Definition validator_new (image_bytes max_record_bytes max_roles : Z) : PageValidator :=
  {| pv_pages := image_bytes / PAGE; pv_max := max_record_bytes; pv_roles := {[1 := Btree 0 0 true true]}; pv_max_roles := max_roles |}.

(** ** Effects *)

(** An error, or a panic: an index out of bounds, [unwrap] or [expect] on nothing. *)
Inductive page_fault := Failure (e : rerror) | PagePanic.
Notation page_result := (result page_fault).

(** [&mut self] and the counter [added]: what was registered before an error stays. *)
Definition V (A : Type) : Type := PageValidator * Z -> page_result A * (PageValidator * Z).
#[export] Instance v_ret : MRet V := fun A a s => (Ok a, s).
#[export] Instance v_bind : MBind V := fun A B f m s => match m s with (Ok a, s) => f a s | (Err e, s) => (Err e, s) end.
Definition pure {A} (m : page_result A) : V A := fun s => (m, s).
Definition lift {A} (m : rresult A) : V A := pure (map_err Failure m).
Definition refuse_when (b : bool) (message : string) : V unit := lift (reject b (corrupt message)).
(** [ok_or_else(..)?] *)
Definition or_corrupt {A} (o : option A) (message : string) : V A := lift (ok_or o (corrupt message)).
(** [for i in l { f(i)?; }] *)
Fixpoint for_each (f : Z -> V unit) (l : list Z) : V unit :=
  match l with
  | [] => mret tt
  | i :: l => _ ← f i; for_each f l
  end.
Definition read_self : V PageValidator := fun s => (Ok s.1, s).

(** ** Bytes *)

(** [b[i]], [b.get(s..e)] and [&b[s..e]] *)
Definition byte_at (b : bytes) (i : Z) : page_result Z := ok_or (byte_to_Z <$> b !! Z.to_nat i) PagePanic.
Definition get_range (b : bytes) (s e : Z) : option bytes := if (s <=? e) && (e <=? len b) then Some (range s e b) else None.
Definition index_range (b : bytes) (s e : Z) : page_result bytes := ok_or (get_range b s e) PagePanic.

(** The first nine bytes, from the [i]th on *)
Fixpoint varint_loop (i v : Z) (b : bytes) : rresult (Z * Z) :=
  match b with
  | [] => Err (corrupt "invalid SQLite varint")
  | x :: b =>
    let x := byte_to_Z x in
    if i =? 8 then Ok (Z.lor (Z.shiftl v 8 mod 2 ^ 64) x, 9) else
    let v := Z.lor (Z.shiftl v 7 mod 2 ^ 64) (Z.land x 127) in
    if x <? 128 then Ok (v, i + 1) else varint_loop (i + 1) v b
  end.
Definition varint (b : bytes) : rresult (Z * Z) := varint_loop 0 0 (take 9 b).

Definition local (payload ty : Z) : Z :=
  let usable := 4096 in
  let max := if ty =? 13 then usable - 35 else (usable - 12) * 64 / 255 - 23 in
  if payload <=? max then payload else
  let min := (usable - 12) * 32 / 255 - 23 in
  let n := min + (payload - min) mod (usable - 4) in
  if max <? n then min else n.

(** ** The record of a table in [sqlite_schema] *)

Definition serial_len (s : Z) : rresult Z :=
  if bool_decide (s ∈ [0; 8; 9]) then Ok 0 else
  if (1 <=? s) && (s <=? 4) then Ok s else
  if s =? 5 then Ok 6 else
  if bool_decide (s ∈ [6; 7]) then Ok 8 else
  if bool_decide (s ∈ [10; 11]) then Err (corrupt "reserved SQLite serial type") else
  Ok ((s - 12) / 2).

(** [while at < h]; a round takes a byte at least. *)
Fixpoint serial_types (fuel : nat) (payload : bytes) (h at_ : Z) : page_result (list Z) :=
  if h <=? at_ then Ok [] else
  match fuel with
  | O => Err PagePanic
  | S fuel =>
    rest ← index_range payload at_ h;
    '(v, n) ← map_err Failure (varint rest);
    serial ← serial_types fuel payload h (at_ + n);
    Ok (v :: serial)
  end.

(** The column [i]: the root page is the fourth. *)
Fixpoint root_column (payload : bytes) (i value_at : Z) (serial : list Z) : page_result (option Z) :=
  match serial with
  | [] => Ok None
  | s :: serial =>
    n ← map_err Failure (serial_len s);
    if i =? 3 then
      if s =? 0 then Ok None else if s =? 8 then Ok (Some 0) else if s =? 9 then Ok (Some 1) else
      if (1 <=? s) && (s <=? 6) then
        _ ← reject (len payload <? value_at + n) (Failure (corrupt "sqlite_schema rootpage exceeds local payload"));
        integer ← index_range payload value_at (value_at + n);
        first ← byte_at integer 0;
        _ ← reject (negb (Z.land first 0x80 =? 0)) (Failure (corrupt "negative sqlite_schema root page"));
        Ok (Some (be_val integer))
      else Err (Failure (corrupt "sqlite_schema rootpage is not integer"))
    else
      value_at ← ok_or (checked_add 64 value_at n) (Failure (corrupt "schema record size overflow"));
      _ ← reject (len payload <? value_at) (Failure (corrupt "schema record exceeds local payload"));
      root_column payload (i + 1) value_at serial
  end.

Definition schema_root (payload : bytes) : page_result (option Z) :=
  '(h, hn) ← map_err Failure (varint payload);
  _ ← reject ((h <? hn) || (len payload <? h)) (Failure (corrupt "schema record header exceeds local payload"));
  serial ← serial_types (length payload) payload h hn;
  _ ← reject (len serial <? 4) (Failure (corrupt "sqlite_schema record has too few columns"));
  root_column payload 0 h serial.

(** ** Roles *)

Definition with_roles (roles : gmap Z Role) (v : PageValidator) : PageValidator := MkValidator (pv_pages v) (pv_max v) roles (pv_max_roles v).

Definition add (n : Z) (r : Role) : V unit := fun s =>
  let (v, new) := s in
  if (n =? 0) || (pv_pages v <? n) then (Err (Failure (corrupt "SQLite page reference is outside the authenticated image")), s) else
  match pv_roles v !! n with
  | Some old => if bool_decide (old = r) then (Ok tt, s) else (Err (Failure (corrupt "SQLite page has conflicting structural roles")), s)
  | None =>
    if pv_max_roles v <=? role_count v then (Err (Failure (RuntimeError.ResourceExhausted "SQLite page-role budget exhausted")), s)
    else (Ok tt, (with_roles (<[n := r]> (pv_roles v)) v, new + 1))
  end.

(** ** Pages *)

Definition validate_overflow (b : bytes) (owner cell remaining record_bytes : Z) : V unit :=
  v ← read_self;
  _ ← lift (reject (pv_max v <? record_bytes) (RuntimeError.ResourceExhausted "SQLite record exceeds configured bound"));
  let taken := Z.min remaining (PAGE - 4) in
  next ← pure (index_range b 0 4);
  if taken <? remaining then add (be_val next) (Overflow owner cell (remaining - taken) record_bytes)
  else refuse_when (negb (be_val next =? 0)) "overflow chain has an unexpected continuation".

Definition interior (ty : Z) : bool := (ty =? 2) || (ty =? 5).
Definition usize_max : Z := 2 ^ 64 - 1.

(** A cell that holds a payload, from [cursor] on *)
Definition validate_payload (page : Z) (schema_tree : bool) (b : bytes) (ty i cursor : Z) : V unit :=
  rest ← pure (index_range b cursor (len b));
  '(payload, varint_len) ← lift (varint rest);
  let local := local payload ty in
  rowid ← (if ty =? 13 then
             rest ← or_corrupt (get_range b (cursor + varint_len) (len b)) "truncated rowid";
             '(_, n) ← lift (varint rest); mret n
           else mret 0);
  let payload_start := cursor + varint_len + rowid in
  payload_end ← or_corrupt (checked_add 64 payload_start local) "payload bounds overflow";
  _ ← refuse_when (PAGE <? payload_end) "SQLite local payload exceeds page";
  _ ← (if schema_tree && (ty =? 13) then
         record ← or_corrupt (get_range b payload_start (payload_start + local)) "truncated schema local payload";
         root ← pure (schema_root record);
         match root with
         | Some root => if root =? 0 then mret tt else add root (Btree page i true false)
         | None => mret tt
         end
       else mret tt);
  if local <? payload then
    let overflow_offset := cursor + varint_len + rowid + local in
    raw ← or_corrupt (get_range b overflow_offset (overflow_offset + 4)) "truncated SQLite overflow pointer";
    cell ← pure (ok_or (try_uint 16 i) PagePanic);
    add (be_val raw) (Overflow page cell (payload - local) payload)
  else mret tt.

Definition validate_cell (page : Z) (schema_tree : bool) (b : bytes) (ty start cells i : Z) : V unit :=
  high ← pure (byte_at b (start + i * 2));
  low ← pure (byte_at b (start + i * 2 + 1));
  let cell_start := 256 * high + low in
  _ ← refuse_when ((cell_start <? start + cells * 2) || (PAGE <=? cell_start)) "SQLite cell pointer out of bounds";
  cursor ← (if interior ty then
              child ← or_corrupt (get_range b cell_start (cell_start + 4)) "truncated internal child";
              _ ← add (be_val child) (Btree page i false schema_tree);
              mret (cell_start + 4)
            else mret cell_start);
  if ty =? 5 then
    rest ← or_corrupt (get_range b cursor (len b)) "truncated table-internal rowid";
    _ ← lift (varint rest); mret tt
  else validate_payload page schema_tree b ty i cursor.

(** The header of the image, and the offset of the page's own header *)
Definition page_offset (page : Z) (b : bytes) : V Z :=
  if page =? 1 then
    magic ← pure (index_range b 0 16);
    _ ← refuse_when (negb (bool_decide (magic = as_bytes "SQLite format 3" ++ [Byte.x00]))) "invalid SQLite header";
    size ← pure (index_range b 16 18);
    fractions ← pure (index_range b 20 24);
    _ ← refuse_when (negb (bool_decide (size = [Byte.x10; Byte.x00])) || negb (bool_decide (fractions = [Byte.x00; Byte.x40; Byte.x20; Byte.x20])))
          "unsupported SQLite page geometry";
    mret 100
  else mret 0.

Definition validate_btree (page : Z) (schema_tree : bool) (b : bytes) : V unit :=
  off ← page_offset page b;
  ty ← or_corrupt (byte_to_Z <$> b !! Z.to_nat off) "truncated btree header";
  _ ← refuse_when (negb (bool_decide (ty ∈ [2; 5; 10; 13]))) "page is neither registered overflow nor btree";
  let header := if interior ty then 12 else 8 in
  high ← pure (byte_at b (off + 3));
  low ← pure (byte_at b (off + 4));
  let cells := 256 * high + low in
  let start := off + header in
  _ ← refuse_when (PAGE <? start + cells * 2) "SQLite cell pointers exceed page";
  _ ← (if interior ty then
         child ← or_corrupt (get_range b (off + 8) (off + 12)) "truncated internal child";
         add (be_val child) (Btree page usize_max false schema_tree)
       else mret tt);
  for_each (validate_cell page schema_tree b ty start cells) (seqZ 0 cells).

Definition validate_page (page : Z) (b : bytes) : V unit :=
  _ ← refuse_when (negb (len b =? PAGE)) "invalid SQLite page length";
  v ← read_self;
  _ ← refuse_when ((page =? 0) || (pv_pages v <? page)) "SQLite page is outside image";
  match pv_roles v !! page with
  | Some (Overflow owner cell remaining record_bytes) => validate_overflow b owner cell remaining record_bytes
  | Some (Btree _ _ _ schema_tree) => validate_btree page schema_tree b
  | None => refuse_when true "unregistered SQLite page role"
  end.

(** [PageValidator::validate]: the number of pages registered, or an error; and the
    validator. *)
Definition validate (page : Z) (b : bytes) (v : PageValidator) : page_result Z * PageValidator :=
  let '(r, (v, added)) := validate_page page b (v, 0) in (_ ← r; Ok added, v).
