(* ===== verification/EngineFacts.v ===== *)
(** What the structural validation of engine pages establishes: it never panics, it
    registers a bounded number of pages, the b-tree pages form a tree, and an
    accepted page has its cells inside the page and its references registered. *)
From S2P Require Import Prelude Bytes Errors PageTree ByteArray EnginePages.

(** ** Bytes *)

Lemma get_range_some b s e c : get_range b s e = Some c <-> s <= e <= len b /\ c = range s e b.
Proof.
  unfold get_range. destruct (Z.leb_spec s e); destruct (Z.leb_spec e (len b)); cbn; (split; [intros [= <-]|intros [? ->]]); try lia; try done; split; done || lia.
Qed.
Lemma index_range_ok b s e : s <= e <= len b -> index_range b s e = Ok (range s e b).
Proof. intros Hs. unfold index_range. by rewrite (proj2 (get_range_some b s e _) (conj Hs eq_refl)). Qed.
Lemma byte_at_ok b i : 0 <= i < len b -> byte_at b i = Ok (byte_to_Z (ix b i)).
Proof.
  intros Hi. unfold byte_at, ix. assert (exists x, b !! Z.to_nat i = Some x) as [x Hx]. { apply lookup_lt_is_Some_2. unfold len in Hi. lia. }
  rewrite Hx, (proj2 (Z.ltb_ge i 0)) by lia. cbn. by rewrite (nth_lookup_Some _ _ Byte.x00 x Hx).
Qed.

(** ** Numbers *)

Lemma shift_in v k x : 0 <= k -> 0 <= v -> v * 2 ^ k < 2 ^ 64 -> 0 <= x < 2 ^ k -> Z.lor (Z.shiftl v k mod 2 ^ 64) x = v * 2 ^ k + x.
Proof. intros Hk Hv Hw Hx. rewrite Z.mod_small by (rewrite Z.shiftl_mul_pow2; lia). rewrite Z.lor_comm, lor_shift by lia. lia. Qed.

Lemma varint_loop_ok b : forall i v r n, 0 <= i <= 8 -> 0 <= v < 2 ^ (7 * i) -> varint_loop i v b = Ok (r, n) ->
  i + 1 <= n <= 9 /\ n <= i + len b /\ 0 <= r < 2 ^ 64.
Proof.
  induction b as [|x b IH]; intros i v r n Hi Hv; cbn [varint_loop]; [done|]. pose proof (byte_to_Z_range x) as Hx. unfold is_u8, is_uint in Hx.
  rewrite len_cons. pose proof (len_nonneg b) as Hb. assert (2 ^ (7 * i) <= 2 ^ 56) as Hle by (apply Z.pow_le_mono_r; lia).
  destruct (Z.eqb_spec i 8) as [->|Hn].
  - rewrite shift_in by lia. intros [= <- <-]. lia.
  - change 127 with (Z.ones 7). rewrite Z.land_ones by lia. pose proof (Z.mod_pos_bound (byte_to_Z x) (2 ^ 7) ltac:(lia)) as Hm.
    rewrite shift_in by lia. assert (2 ^ (7 * (i + 1)) = 2 ^ (7 * i) * 2 ^ 7) as Hp by (rewrite <- Z.pow_add_r by lia; f_equal; lia).
    destruct (byte_to_Z x <? 128); [intros [= <- <-]; lia|].
    intros (H1 & H2 & H3)%IH; lia.
Qed.
Lemma varint_ok b r n : varint b = Ok (r, n) -> 1 <= n <= 9 /\ n <= len b /\ 0 <= r < 2 ^ 64.
Proof. unfold varint. intros (H1 & H2 & H3)%varint_loop_ok; [|lia|lia]. rewrite len_take in H2. lia. Qed.

Lemma serial_len_ok s n : 0 <= s -> serial_len s = Ok n -> 0 <= n /\ (1 <= s <= 6 -> 1 <= n).
Proof.
  unfold serial_len. intros Hs. destruct (bool_decide (s ∈ [0; 8; 9])) eqn:E0; [apply bool_decide_eq_true in E0|apply bool_decide_eq_false in E0];
    rewrite !elem_of_cons, elem_of_nil in E0; [intros [= <-]; lia|].
  destruct ((1 <=? s) && (s <=? 4)) eqn:E1; [bool_to_prop; intros [= <-]; lia|]. destruct (Z.eqb_spec s 5); [intros [= <-]; lia|].
  destruct (bool_decide (s ∈ [6; 7])) eqn:E2; [intros [= <-]; lia|apply bool_decide_eq_false in E2]. destruct (bool_decide (s ∈ [10; 11])) eqn:E3; [done|].
  apply bool_decide_eq_false in E3. rewrite !elem_of_cons, elem_of_nil in E2, E3. apply andb_false_iff in E1 as [E1%Z.leb_gt|E1%Z.leb_gt];
    intros [= <-]; [lia|]. split; [apply Z.div_pos|]; lia.
Qed.

Lemma serial_types_ok payload h : h <= len payload -> forall fuel at_, 0 <= at_ -> h - at_ <= Z.of_nat fuel ->
  serial_types fuel payload h at_ <> Err PagePanic /\ forall l, serial_types fuel payload h at_ = Ok l -> Forall (fun s => 0 <= s) l.
Proof.
  intros Hh. induction fuel as [|fuel IH]; intros at_ Ha Hf; cbn [serial_types]; destruct (Z.leb_spec h at_) as [|Hlt]; try (split; [done|]; intros l [= <-]; constructor); [lia|].
  rewrite index_range_ok by lia. cbn [mbind result_bind]. destruct (varint _) as [[v n]|e] eqn:Ev; [|done]. cbn [map_err mbind result_bind].
  apply varint_ok in Ev as (Hn & Hn' & Hv). destruct (IH (at_ + n)) as [Hp Hl]; [lia|lia|].
  destruct (serial_types fuel payload h (at_ + n)) as [l|e]; [|split; [intros [= ->]; by apply Hp|done]]. cbn. split; [done|]. intros l' [= <-]. constructor; [lia|]. by apply Hl.
Qed.
Lemma root_column_ok payload : len payload < 2 ^ 64 -> forall serial i value_at, Forall (fun s => 0 <= s) serial -> 0 <= value_at <= len payload ->
  root_column payload i value_at serial <> Err PagePanic /\ forall r, root_column payload i value_at serial = Ok (Some r) -> 0 <= r.
Proof.
  intros Hw serial. induction serial as [|s serial IH]; intros i value_at Hs Hv; cbn [root_column]; [done|]. apply Forall_cons in Hs as [Hs Hrest].
  destruct (serial_len s) as [n|e] eqn:En; [|done]. cbn [map_err mbind result_bind]. destruct (serial_len_ok s n Hs En) as [Hn Hn1].
  destruct (i =? 3).
  - destruct (s =? 0); [done|]. destruct (s =? 8); [split; [done|]; by intros r [= <-]|]. destruct (s =? 9); [split; [done|]; by intros r [= <-]|].
    destruct ((1 <=? s) && (s <=? 6)) eqn:E6; [|done]. apply andb_true_iff in E6 as [E1 E6]. specialize (Hn1 ltac:(lia)).
    destruct (Z.ltb_spec (len payload) (value_at + n)) as [|Hle]; [done|]. cbn [reject mbind result_bind]. rewrite index_range_ok by lia.
    cbn [mbind result_bind]. rewrite byte_at_ok by (rewrite range_len; lia). cbn [mbind result_bind].
    destruct (Z.land _ _ =? 0); [|done]. cbn [negb reject mbind result_bind]. split; [done|]. intros r [= <-]. apply be_val_range.
  - unfold checked_add, try_uint. destruct (decide _); [|done]. cbn [ok_or mbind result_bind].
    destruct (Z.ltb_spec (len payload) (value_at + n)) as [|Hle]; [done|]. cbn [reject mbind result_bind]. apply IH; [done|lia].
Qed.
Lemma schema_root_ok payload : len payload < 2 ^ 64 -> schema_root payload <> Err PagePanic /\ forall r, schema_root payload = Ok (Some r) -> 0 <= r.
Proof.
  intros Hw. unfold schema_root. destruct (varint payload) as [[h hn]|e] eqn:Ev; [|done]. cbn [map_err mbind result_bind].
  apply varint_ok in Ev as (Hn & Hn' & Hh). destruct (Z.ltb_spec h hn); [done|]. destruct (Z.ltb_spec (len payload) h) as [|Hle]; [done|]. cbn [orb reject mbind result_bind].
  destruct (serial_types_ok payload h Hle (length payload) hn) as [Hp Hl]; [lia|unfold len in *; lia|].
  destruct (serial_types _ _ _ _) as [l|e]; [|split; [intros [= ->]; by apply Hp|done]]. cbn [mbind result_bind]. destruct (len l <? 4); [done|]. cbn [reject mbind result_bind].
  apply root_column_ok; [done|by apply Hl|lia].
Qed.
Lemma local_range payload ty : 0 <= payload -> 0 <= local payload ty <= payload /\ local payload ty <= 4061.
Proof.
  intros Hp. unfold local. cbn zeta. change ((4096 - 12) * 64 / 255 - 23) with 1002. change ((4096 - 12) * 32 / 255 - 23) with 489. change (4096 - 4) with 4092.
  pose proof (Z.mod_pos_bound (payload - 489) 4092 ltac:(lia)) as Hm. destruct (ty =? 13).
  - destruct (Z.leb_spec payload (4096 - 35)); [lia|]. pose proof (Z.mod_le (payload - 489) 4092 ltac:(lia) ltac:(lia)). destruct (Z.ltb_spec (4096 - 35) (489 + (payload - 489) mod 4092)); lia.
  - destruct (Z.leb_spec payload 1002); [lia|]. pose proof (Z.mod_le (payload - 489) 4092 ltac:(lia) ltac:(lia)). destruct (Z.ltb_spec 1002 (489 + (payload - 489) mod 4092)); lia.
Qed.

(** ** What a computation registers *)

(** [v'] knows all that [v] knows, of the same image. *)
Definition extends (v v' : PageValidator) : Prop :=
  pv_pages v' = pv_pages v /\ pv_max v' = pv_max v /\ pv_max_roles v' = pv_max_roles v /\ pv_roles v ⊆ pv_roles v'.
Lemma extends_refl v : extends v v.
Proof. by split_and!. Qed.
Lemma extends_trans a b c : extends a b -> extends b c -> extends a c.
Proof. intros (A1 & A2 & A3 & A4) (B1 & B2 & B3 & B4). split_and!; try congruence. by etrans. Qed.

(** The page is one of the image, and plays the role. *)
Definition registered (n : Z) (r : Role) (v : PageValidator) : Prop := pv_roles v !! n = Some r /\ 0 < n <= pv_pages v.
Lemma registered_extends n r v v' : registered n r v -> extends v v' -> registered n r v'.
Proof. intros [Hr Hn] (Hp & _ & _ & Hs). split; [by eapply lookup_weaken|]. by rewrite Hp. Qed.

Section logic.
Context (allowed : Z -> Role -> Prop).

(** [k] pages were registered, in roles that are allowed. *)
Inductive added_by : nat -> PageValidator * Z -> PageValidator * Z -> Prop :=
| added_none s : added_by 0 s s
| added_more k s v new n r : added_by k s (v, new) -> allowed n r -> 0 < n <= pv_pages v -> pv_roles v !! n = None -> role_count v < pv_max_roles v ->
  added_by (S k) s (with_roles (<[n := r]> (pv_roles v)) v, new + 1).

Lemma added_trans j k a b c : added_by j a b -> added_by k b c -> added_by (k + j) a c.
Proof. intros Hj Hk. induction Hk; [done|]. cbn. constructor; auto. Qed.
Lemma added_extends k a b : added_by k a b -> extends a.1 b.1 /\ role_count b.1 = role_count a.1 + Z.of_nat k /\ b.2 = a.2 + Z.of_nat k.
Proof.
  induction 1 as [s|k s v new n r _ (He & Hc & Hn) _ Hr Hnone _]; [split; [apply extends_refl|lia]|]. cbn [fst snd] in *. split; [|split; [|lia]].
  - eapply extends_trans; [exact He|]. split_and!; try done. by apply insert_subseteq.
  - unfold role_count in *. cbn [with_roles pv_roles]. rewrite map_size_insert_None by done. lia.
Qed.

(** [m] panics never, registers at most [k] pages, and where it succeeds [Q] holds. *)
Definition spec (k : nat) {A} (Q : A -> PageValidator -> Prop) (m : V A) : Prop := forall s,
  (exists j, (j <= k)%nat /\ added_by j s (m s).2) /\
  match (m s).1 with Ok a => Q a (m s).2.1 | Err e => e <> PagePanic end.

Lemma spec_weaken {A} k k' (Q Q' : A -> PageValidator -> Prop) m : spec k Q m -> (k <= k')%nat -> (forall a v, Q a v -> Q' a v) -> spec k' Q' m.
Proof. intros Hm Hk HQ s. destruct (Hm s) as [(j & Hj & Ha) Hr]. split; [exists j; split; [lia|done]|]. destruct (m s).1; [by apply HQ|done]. Qed.
Lemma spec_ret {A} k (Q : A -> PageValidator -> Prop) a : (forall v, Q a v) -> spec k Q (mret a).
Proof. intros HQ s. split; [exists 0%nat; split; [lia|constructor]|]. apply HQ. Qed.
Lemma spec_bind {A B} k1 k2 k (Q1 : A -> PageValidator -> Prop) (Q2 : B -> PageValidator -> Prop) m f :
  spec k1 Q1 m -> (forall a v0, Q1 a v0 -> spec k2 (fun b v => extends v0 v -> Q2 b v) (f a)) -> (k1 + k2 <= k)%nat -> spec k Q2 (m ≫= f).
Proof.
  intros Hm Hf Hk s. destruct (Hm s) as [(j & Hj & Ha) Hr]. unfold mbind, v_bind. destruct (m s) as [[a|e] s1]; cbn [fst snd] in *.
  - destruct (Hf a s1.1 Hr s1) as [(j' & Hj' & Ha') Hr']. split; [exists (j' + j)%nat; split; [lia|by eapply added_trans]|].
    destruct (f a s1) as [[b|e] s2]; cbn [fst snd] in *; [|done]. apply Hr'. by apply added_extends in Ha' as [? _].
  - split; [exists j; split; [lia|done]|done].
Qed.
(** A step that registers nothing *)
Lemma spec_pure {A B} k (Q : B -> PageValidator -> Prop) (m : page_result A) f :
  m <> Err PagePanic -> (forall a, m = Ok a -> spec k Q (f a)) -> spec k Q (pure m ≫= f).
Proof.
  intros Hp Hf s. unfold mbind, v_bind, pure. destruct m as [a|e]; [by apply Hf|]. split; [exists 0%nat; split; [lia|constructor]|]. cbn. congruence.
Qed.
Lemma spec_lift {A B} k (Q : B -> PageValidator -> Prop) (m : rresult A) f : (forall a, m = Ok a -> spec k Q (f a)) -> spec k Q (lift m ≫= f).
Proof. intros Hf. apply spec_pure; [by destruct m|]. intros a Ha. destruct m; [|done]. injection Ha as <-. by apply Hf. Qed.
Lemma spec_refuse {B} k (Q : B -> PageValidator -> Prop) b message f : (b = false -> spec k Q f) -> spec k Q (_ ← refuse_when b message; f).
Proof. intros Hf. apply spec_lift. intros [] ?%reject_ok. by apply Hf. Qed.
Lemma spec_some {A B} k (Q : B -> PageValidator -> Prop) (o : option A) message f : (forall a, o = Some a -> spec k Q (f a)) -> spec k Q (or_corrupt o message ≫= f).
Proof. intros Hf. apply spec_lift. intros a ?%ok_or_ok. by apply Hf. Qed.
Lemma spec_byte {B} k (Q : B -> PageValidator -> Prop) b i f : 0 <= i < len b -> spec k Q (f (byte_to_Z (ix b i))) -> spec k Q (pure (byte_at b i) ≫= f).
Proof. intros Hi Hf. rewrite byte_at_ok by done. apply spec_pure; [done|]. by intros a [= <-]. Qed.
Lemma spec_range {B} k (Q : B -> PageValidator -> Prop) b s e f : s <= e <= len b -> spec k Q (f (range s e b)) -> spec k Q (pure (index_range b s e) ≫= f).
Proof. intros Hi Hf. rewrite index_range_ok by done. apply spec_pure; [done|]. by intros a [= <-]. Qed.
Lemma spec_add n r : 0 <= n -> allowed n r -> spec 1 (fun _ v => registered n r v) (add n r).
Proof.
  intros Hn Ha [v new]. unfold add. destruct ((n =? 0) || (pv_pages v <? n)) eqn:E; [split; [exists 0%nat; split; [lia|constructor]|done]|].
  apply orb_false_iff in E as [En%Z.eqb_neq Ep%Z.ltb_ge]. destruct (pv_roles v !! n) as [old|] eqn:Er.
  - case_bool_decide as Ho; (split; [exists 0%nat; split; [lia|constructor]|]); cbn; [|done]. subst. split; [done|lia].
  - destruct (Z.leb_spec (pv_max_roles v) (role_count v)) as [|Hm]; [split; [exists 0%nat; split; [lia|constructor]|done]|].
    split; [exists 1%nat; split; [lia|]; apply added_more; try done; [constructor|lia]|]. cbn. split; [apply lookup_insert_eq|cbn; lia].
Qed.
Lemma spec_for_each k f (Q : Z -> PageValidator -> Prop) l : (forall i v v', Q i v -> extends v v' -> Q i v') ->
  (forall i, i ∈ l -> spec k (fun _ v => Q i v) (f i)) -> spec (k * length l) (fun _ v => forall i, i ∈ l -> Q i v) (for_each f l).
Proof.
  intros HQ. induction l as [|i l IH]; intros Hf; cbn [for_each]; [apply spec_ret; intros v j Hj; by apply not_elem_of_nil in Hj|].
  eapply (spec_bind k (k * length l)); [apply Hf; left| |cbn; lia]. intros [] v0 Hi. eapply spec_weaken; [apply IH; intros j Hj; apply Hf; by right|lia|].
  intros [] v Hv He j [->|Hj]%elem_of_cons; [by eapply HQ|by apply Hv].
Qed.
End logic.

(** ** What a page refers to *)

Definition u16_at (b : bytes) (i : Z) : Z := 256 * byte_to_Z (ix b i) + byte_to_Z (ix b (i + 1)).
Definition u32_at (b : bytes) (i : Z) : Z := be_val (range i (i + 4) b).

(** A payload from [cursor] on lies within the page, its overflow page is registered,
    and so is the root page of the table it describes. *)
Definition payload_ok (page : Z) (schema_tree : bool) (b : bytes) (ty i cursor : Z) (v : PageValidator) : Prop :=
  exists payload n rowid, varint (range cursor (len b) b) = Ok (payload, n) /\
    (if ty =? 13 then exists key, varint (range (cursor + n) (len b) b) = Ok (key, rowid) else rowid = 0) /\
    let start := cursor + n + rowid in
    let finish := start + local payload ty in
    finish <= PAGE /\
    (local payload ty < payload -> finish + 4 <= PAGE /\ registered (u32_at b finish) (Overflow page i (payload - local payload ty) payload) v) /\
    (schema_tree && (ty =? 13) = true -> exists root, schema_root (range start finish b) = Ok root /\
       forall r, root = Some r -> r <> 0 -> registered r (Btree page i true false) v).

(** A cell starts after the cell pointers, and its child is registered. *)
Definition cell_ok (page : Z) (schema_tree : bool) (b : bytes) (ty start cells i : Z) (v : PageValidator) : Prop :=
  let cell := u16_at b (start + i * 2) in
  start + cells * 2 <= cell < PAGE /\
  (interior ty = true -> cell + 4 <= PAGE /\ registered (u32_at b cell) (Btree page i false schema_tree) v) /\
  (if ty =? 5 then exists key n, varint (range (cell + 4) (len b) b) = Ok (key, n)
   else payload_ok page schema_tree b ty i (if interior ty then cell + 4 else cell) v).

Record btree_ok (page : Z) (schema_tree : bool) (b : bytes) (off ty cells : Z) (v : PageValidator) : Prop := {
  bo_off : off = if page =? 1 then 100 else 0;
  bo_type : ty = byte_to_Z (ix b off) /\ ty ∈ [2; 5; 10; 13];
  bo_cells : cells = u16_at b (off + 3) /\ off + (if interior ty then 12 else 8) + cells * 2 <= PAGE;
  bo_right : interior ty = true -> registered (u32_at b (off + 8)) (Btree page usize_max false schema_tree) v;
  bo_each : forall i, 0 <= i < cells -> cell_ok page schema_tree b ty (off + (if interior ty then 12 else 8)) cells i v }.

(** The roles that a page in the role [own] may give to others *)
Definition below (own : Role) (page : Z) (r : Role) : Prop :=
  match own, r with
  | Btree _ _ _ schema_tree, Btree parent _ root schema_tree' => parent = page /\ schema_tree' = (if root then false else schema_tree) /\ (root = true -> schema_tree = true)
  | Btree _ _ _ _, Overflow owner _ remaining record_bytes => owner = page /\ 0 < remaining <= record_bytes
  | Overflow owner cell remaining record_bytes, Overflow owner' cell' remaining' record_bytes' =>
    owner' = owner /\ cell' = cell /\ record_bytes' = record_bytes /\ remaining' = remaining - (PAGE - 4) /\ 0 < remaining'
  | Overflow _ _ _ _, Btree _ _ _ _ => False
  end.

Lemma payload_ok_extends page st b ty i cursor v v' : payload_ok page st b ty i cursor v -> extends v v' -> payload_ok page st b ty i cursor v'.
Proof.
  intros (payload & n & rowid & Hv & Hr & Hf & Ho & Hs) He. exists payload, n, rowid. cbn zeta. split_and!; try done.
  - intros Hl. destruct (Ho Hl) as [? ?]. split; [done|by eapply registered_extends].
  - intros Hc. destruct (Hs Hc) as (root & ? & Hroot). exists root. split; [done|]. intros r Hr1 Hr2. eapply registered_extends; [by apply Hroot|done].
Qed.
Lemma cell_ok_extends page st b ty start cells i v v' : cell_ok page st b ty start cells i v -> extends v v' -> cell_ok page st b ty start cells i v'.
Proof.
  intros (H1 & H2 & H3) He. unfold cell_ok. cbn zeta in *. split_and!; try tauto.
  - intros Hi. destruct (H2 Hi) as [? ?]. split; [done|by eapply registered_extends].
  - destruct (ty =? 5); [done|]. by eapply payload_ok_extends.
Qed.

Section btree.
Context (page parent slot : Z) (root st : bool) (b : bytes) (Hb : len b = PAGE).
#[local] Notation own := (Btree parent slot root st).
#[local] Notation spec := (spec (fun _ r => below own page r)).

Lemma validate_payload_spec ty i cursor : 0 <= i < 2 ^ 16 -> 0 <= cursor <= PAGE ->
  spec (if ty =? 13 then 2 else 1) (fun _ v => payload_ok page st b ty i cursor v) (validate_payload page st b ty i cursor).
Proof.
  intros Hi Hc. unfold validate_payload. apply spec_range; [lia|].
  apply spec_lift. intros [payload n] Hv. pose proof (varint_ok _ _ _ Hv) as (Hn & Hnl & Hp). rewrite range_len in Hnl by lia.
  pose proof (local_range payload ty ltac:(lia)) as [Hl Hl']. cbn zeta.
  eapply (spec_bind _ 0 (if ty =? 13 then 2 else 1) _ (fun rowid _ => 0 <= rowid <= 9 /\ (if ty =? 13 then exists key, varint (range (cursor + n) (len b) b) = Ok (key, rowid) else rowid = 0))); [| |lia].
  { destruct (ty =? 13); [|by apply spec_ret]. apply spec_some. intros rest [_ ->]%get_range_some. apply spec_lift. intros [key m] Hm.
    apply spec_ret. intros _. pose proof (varint_ok _ _ _ Hm) as (? & _). split; [lia|by exists key]. }
  intros rowid v1 [Hr Hrow]. apply spec_some. intros finish [Hfin _]%try_uint_some. subst finish.
  apply spec_refuse. intros Hpage%Z.ltb_ge.
  eapply (spec_bind _ (if st && (ty =? 13) then 1 else 0) 1 _ (fun _ v => st && (ty =? 13) = true -> exists root, schema_root (range (cursor + n + rowid) (cursor + n + rowid + local payload ty) b) = Ok root /\
       forall r, root = Some r -> r <> 0 -> registered r (Btree page i true false) v)); [| |destruct st; destruct (ty =? 13); cbn; lia].
  { destruct (st && (ty =? 13)) eqn:Est; [|by apply spec_ret]. apply spec_some. intros record [Hrange ->]%get_range_some.
    pose proof (schema_root_ok (range (cursor + n + rowid) (cursor + n + rowid + local payload ty) b)) as Hroot. rewrite range_len in Hroot by lia.
    destruct (Hroot ltac:(unfold PAGE in *; lia)) as [Hcalm Hpos]. apply spec_pure; [done|]. intros [r|] Hsr; [|apply spec_ret; intros v _; exists None; by split].
    destruct (Z.eqb_spec r 0) as [->|Hr0]; [apply spec_ret; intros v _; exists (Some 0); split; [done|]; by intros r [= <-] ?|].
    apply andb_true_iff in Est as [Hst _]. eapply spec_weaken; [apply spec_add; [by apply Hpos|by split_and!]|lia|].
    intros [] v Hreg _. exists (Some r). split; [done|]. by intros r' [= <-] _. }
  intros [] v0 Hschema. destruct (Z.ltb_spec (local payload ty) payload) as [Hlt|Hge].
  - apply spec_some. intros raw [Hraw ->]%get_range_some. apply spec_pure; [unfold try_uint; by rewrite decide_True by (unfold is_uint; lia)|].
    intros cell Hcell. apply ok_or_ok, try_uint_some in Hcell as [-> _].
    eapply spec_weaken; [apply spec_add; [apply be_val_range|cbn; lia]|lia|]. intros [] v Hreg He. exists payload, n, rowid. cbn zeta. split_and!; try done.
    + intros _. split; [lia|done].
    + intros Hs. destruct (Hschema Hs) as (r & Hr1 & Hr2). exists r. split; [done|]. intros x Hx Hx0. eapply registered_extends; [by apply Hr2|done].
  - apply spec_ret. intros v He. exists payload, n, rowid. cbn zeta. split_and!; try done; [lia|].
    intros Hs. destruct (Hschema Hs) as (r & Hr1 & Hr2). exists r. split; [done|]. intros x Hx Hx0. eapply registered_extends; [by apply Hr2|done].
Qed.

Lemma u16_range i : 0 <= u16_at b i < 2 ^ 16.
Proof. unfold u16_at. pose proof (byte_to_Z_range (ix b i)). pose proof (byte_to_Z_range (ix b (i + 1))). unfold is_u8, is_uint in *. lia. Qed.

Lemma validate_cell_spec ty start cells i : 0 <= i < cells -> cells < 2 ^ 16 -> 0 <= start -> start + cells * 2 <= PAGE ->
  spec 2 (fun _ v => cell_ok page st b ty start cells i v) (validate_cell page st b ty start cells i).
Proof.
  intros Hi Hc Hs Hp. unfold validate_cell, cell_ok. do 2 (apply spec_byte; [lia|]).
  fold (u16_at b (start + i * 2)). set (cell := u16_at b (start + i * 2)). cbn zeta. apply spec_refuse. intros [Hlow%Z.ltb_ge Hhigh%Z.leb_gt]%orb_false_iff.
  eapply (spec_bind _ (if interior ty then 1 else 0) (if ty =? 5 then 0 else if ty =? 13 then 2 else 1) 2 (fun cursor v => cursor = (if interior ty then cell + 4 else cell) /\
    (interior ty = true -> cell + 4 <= PAGE /\ registered (u32_at b cell) (Btree page i false st) v)));
    [| |unfold interior; destruct (Z.eqb_spec ty 2), (Z.eqb_spec ty 5), (Z.eqb_spec ty 13); cbn; lia].
  { destruct (interior ty); [|by apply spec_ret]. apply spec_some. intros child [Hchild ->]%get_range_some.
    eapply (spec_bind _ 1 0 1); [apply spec_add; [apply be_val_range|by split_and!]| |lia]. intros [] v0 Hreg. apply spec_ret. intros v He. split; [done|].
    intros _. split; [lia|by eapply registered_extends]. }
  intros cursor v0 [-> Hchild]. set (cursor := if interior ty then cell + 4 else cell) in *.
  assert (0 <= cursor <= PAGE) as Hcur. { pose proof (u16_range (start + i * 2)). subst cursor cell. destruct (interior ty); [destruct (Hchild eq_refl)|]; lia. }
  destruct (Z.eqb_spec ty 5) as [->|H5].
  - apply spec_some. intros rest [_ ->]%get_range_some. apply spec_lift. intros [key n] Hv. apply spec_ret. intros v He. split_and!; try done.
    + intros Hint. destruct (Hchild Hint). split; [done|by eapply registered_extends].
    + by exists key, n.
  - eapply spec_weaken; [by apply validate_payload_spec; [lia|]|lia|]. intros [] v Hpay He. split_and!; try done.
    intros Hint. destruct (Hchild Hint). split; [done|by eapply registered_extends].
Qed.

Lemma page_offset_spec {B} k (Q : B -> PageValidator -> Prop) f : spec k Q (f (if page =? 1 then 100 else 0)) -> spec k Q (page_offset page b ≫= f).
Proof.
  intros Hf. eapply (spec_bind _ 0 k k (fun off _ => off = if page =? 1 then 100 else 0)); [| |lia].
  - unfold page_offset, PAGE in *. destruct (page =? 1); [|by apply spec_ret]. apply spec_range; [lia|]. apply spec_refuse. intros _.
    do 2 (apply spec_range; [lia|]). apply spec_refuse. intros _. by apply spec_ret.
  - intros off v0 ->. eapply spec_weaken; [exact Hf|lia|done].
Qed.

(** A page registers its right child, and two pages for a cell. *)
Lemma validate_btree_spec : spec 4088 (fun _ v => exists off ty cells, btree_ok page st b off ty cells v) (validate_btree page st b).
Proof.
  unfold validate_btree. apply page_offset_spec. set (off := if page =? 1 then 100 else 0). assert (0 <= off <= 100) as Hoff by (subst off; destruct (page =? 1); lia).
  apply spec_some. intros ty Hty. assert (ty = byte_to_Z (ix b off)) as ->.
  { pose proof (byte_at_ok b off ltac:(unfold PAGE in *; lia)) as E. unfold byte_at in E. rewrite Hty in E. by injection E. }
  clear Hty. set (ty := byte_to_Z (ix b off)). apply spec_refuse. intros Hty%negb_false_iff%bool_decide_eq_true.
  do 2 (apply spec_byte; [unfold PAGE in *; lia|]). cbn zeta. replace (off + 4) with (off + 3 + 1) by lia. fold (u16_at b (off + 3)). set (cells := u16_at b (off + 3)).
  set (start := off + (if interior ty then 12 else 8)). apply spec_refuse. intros Hcells%Z.ltb_ge. pose proof (u16_range (off + 3)) as Hr. fold cells in Hr.
  assert (off + 8 <= start) as Hstart by (subst start; destruct (interior ty); lia).
  eapply (spec_bind _ (if interior ty then 1 else 0) (2 * Z.to_nat cells) _ (fun _ v => interior ty = true -> registered (u32_at b (off + 8)) (Btree page usize_max false st) v));
    [| |subst start; unfold PAGE in *; destruct (interior ty); lia].
  { destruct (interior ty); [|by apply spec_ret]. apply spec_some. intros child [Hchild ->]%get_range_some. replace (off + 12) with (off + 8 + 4) by lia.
    eapply spec_weaken; [apply spec_add; [apply be_val_range|by split_and!]|lia|]. by intros [] v Hreg _. }
  intros [] v0 Hright. eapply spec_weaken; [apply (spec_for_each _ 2 _ (fun i v => cell_ok page st b ty start cells i v))|rewrite length_seqZ; lia|].
  - intros i v v' Hcell He. by eapply cell_ok_extends.
  - intros i Hi%elem_of_seqZ. apply validate_cell_spec; [lia|lia|lia|done].
  - intros [] v Heach He. exists off, ty, cells. split; try done.
    + intros Hint. eapply registered_extends; [by apply Hright|done].
    + intros i Hi. apply Heach, elem_of_seqZ. lia.
Qed.
End btree.

(** An overflow page is part of a record that is not too long, and the chain goes on
    exactly as long as bytes of it are left. *)
Definition overflow_ok (owner cell remaining record_bytes : Z) (b : bytes) (v : PageValidator) : Prop :=
  record_bytes <= pv_max v /\ (if PAGE - 4 <? remaining then registered (u32_at b 0) (Overflow owner cell (remaining - (PAGE - 4)) record_bytes) v else (u32_at b 0 = 0)).

Lemma spec_self {B} allowed k (Q : B -> PageValidator -> Prop) f :
  (forall v0, spec allowed k (fun b v => extends v0 v -> Q b v) (f v0)) -> spec allowed k Q (read_self ≫= f).
Proof.
  intros Hf. eapply (spec_bind _ 0 k k (fun a v => a = v)); [| |lia].
  - intros s. split; [exists 0%nat; split; [lia|constructor]|done].
  - intros a v0 ->. apply Hf.
Qed.
Lemma validate_overflow_spec owner cell remaining record_bytes page b : len b = PAGE ->
  spec (fun _ r => below (Overflow owner cell remaining record_bytes) page r) 1 (fun _ v => overflow_ok owner cell remaining record_bytes b v)
    (validate_overflow b owner cell remaining record_bytes).
Proof.
  intros Hb. unfold validate_overflow, overflow_ok. apply spec_self. intros v0. apply spec_lift. intros [] Hmax%reject_ok%Z.ltb_ge. apply spec_range; [unfold PAGE in *; lia|].
  change (range 0 4 b) with (range 0 (0 + 4) b). fold (u32_at b 0). destruct (Z.ltb_spec (PAGE - 4) remaining) as [Hlt|Hge].
  - rewrite Z.min_r by lia. rewrite (proj2 (Z.ltb_lt _ _) Hlt). eapply spec_weaken; [apply spec_add; [apply be_val_range|]|lia|].
    + cbn. unfold PAGE in *. split_and!; try done; lia.
    + intros [] v Hreg (_ & Hm & _). split; [by rewrite Hm|done].
  - rewrite Z.min_l by lia. rewrite Z.ltb_irrefl. intros s. split; [exists 0%nat; split; [lia|constructor]|].
    unfold refuse_when, lift, pure. cbn [fst snd]. destruct (Z.eqb_spec (u32_at b 0) 0) as [E0|]; [|by cbn]. cbn. intros (_ & Hm & _). split; [by rewrite Hm|done].
Qed.

(** ** The validator *)

(** An accepted page is what its role says. *)
Definition page_ok (page : Z) (b : bytes) (r : Role) (v : PageValidator) : Prop :=
  match r with
  | Btree _ _ _ schema_tree => exists off ty cells, btree_ok page schema_tree b off ty cells v
  | Overflow owner cell remaining record_bytes => overflow_ok owner cell remaining record_bytes b v
  end.

Lemma page_ok_extends page b own v v' : page_ok page b own v -> extends v v' -> page_ok page b own v'.
Proof.
  destruct own as [parent slot root st|owner cell remaining record_bytes]; cbn.
  - intros (off & ty & cells & [A1 A2 A3 A4 A5]) He. exists off, ty, cells. split; try done.
    + intros Hi. eapply registered_extends; [by apply A4|done].
    + intros i Hi. eapply cell_ok_extends; [by apply A5|done].
  - intros [Hm Ho] He. pose proof He as (_ & Hmax & _). split; [by rewrite Hmax|]. destruct (_ <? _); [|done]. by eapply registered_extends.
Qed.

Lemma validate_page_spec page b v r v' n : 0 <= page -> validate_page page b (v, 0) = (r, (v', n)) ->
  (v' = v /\ n = 0 /\ exists e, r = Err (Failure e)) \/
  (exists own, len b = PAGE /\ 0 < page <= pv_pages v /\ pv_roles v !! page = Some own /\ exists m, m (v, 0) = (r, (v', n)) /\
     spec (fun _ r => below own page r) 4088 (fun _ v => page_ok page b own v) m).
Proof.
  intros Hpage. unfold validate_page. cbv [mbind v_bind refuse_when lift pure read_self]. destruct (Z.eqb_spec (len b) PAGE) as [Hb|]; cbn [negb reject map_err fst snd];
    [|intros [= <- <- <-]; left; eauto].
  destruct ((page =? 0) || (pv_pages v <? page)) eqn:Ep; cbn [reject map_err]; [intros [= <- <- <-]; left; eauto|].
  apply orb_false_iff in Ep as [E0%Z.eqb_neq Ep%Z.ltb_ge]. destruct (pv_roles v !! page) as [[parent slot root st|owner cell remaining record_bytes]|] eqn:Er;
    cbn [reject map_err]; [| |intros [= <- <- <-]; left; eauto].
  - intros E. right. eexists. split_and!; [done|lia|lia|done|]. eexists. split; [exact E|]. by apply validate_btree_spec.
  - intros E. right. eexists. split_and!; [done|lia|lia|done|]. eexists. split; [exact E|].
    eapply spec_weaken; [by apply validate_overflow_spec|lia|done].
Qed.

Definition child_of (page : Z) (v : PageValidator) (_ : Z) (r : Role) : Prop := exists own, pv_roles v !! page = Some own /\ below own page r.

Lemma added_weaken (P Q : Z -> Role -> Prop) k a b : (forall n r, P n r -> Q n r) -> added_by P k a b -> added_by Q k a b.
Proof. intros HPQ. induction 1; econstructor; eauto. Qed.

Lemma validate_spec page b v : 0 <= page -> let '(r, v') := validate page b v in
  r <> Err PagePanic /\
  (exists k, (k <= 4088)%nat /\ added_by (child_of page v) k (v, 0) (v', Z.of_nat k)) /\
  (forall added, r = Ok added -> len b = PAGE /\ added = role_count v' - role_count v /\ exists own, pv_roles v !! page = Some own /\ page_ok page b own v').
Proof.
  intros Hpage. unfold validate. destruct (validate_page page b (v, 0)) as [r [v' n]] eqn:E.
  destruct (validate_page_spec _ _ _ _ _ _ Hpage E) as [(-> & -> & e & ->)|(own & Hb & Hp & Hown & m & Em & Hm)].
  - split_and!; [done| |done]. exists 0%nat. split; [lia|constructor].
  - specialize (Hm (v, 0)). rewrite Em in Hm. cbn [fst snd] in Hm. destruct Hm as [(k & Hk & Ha) Hr]. pose proof (added_extends _ _ _ _ Ha) as (_ & Hcount & Hn).
    cbn [fst snd] in *. rewrite Hn in *. split_and!.
    + destruct r as [[]|e]; [done|]. cbn. by intros [= ->].
    + exists k. split; [done|]. eapply added_weaken; [|exact Ha]. intros n' r' Hbelow. by exists own.
    + intros added Hok. destruct r as [[]|e]; [|done]. cbn in Hok. injection Hok as <-. split_and!; [done|lia|]. by exists own.
Qed.

(** ** The tree *)

(** The pages an engine asked for, and those that were accepted *)
Inductive validating (image_bytes max_record_bytes max_roles : Z) : PageValidator -> list (Z * bytes) -> Prop :=
| validating_new : validating image_bytes max_record_bytes max_roles (validator_new image_bytes max_record_bytes max_roles) []
| validating_page page b v accepted : validating image_bytes max_record_bytes max_roles v accepted -> 0 <= page ->
    validating image_bytes max_record_bytes max_roles (validate page b v).2 (if is_ok (validate page b v).1 then (page, b) :: accepted else accepted).

Definition is_btree (r : Role) : bool := match r with Btree _ _ _ _ => true | Overflow _ _ _ _ => false end.
(** The b-tree page a role depends on *)
Definition above (r : Role) : Z := match r with Btree parent _ _ _ => parent | Overflow owner _ _ _ => owner end.

(** [rank] grows from a page to those it is above of. *)
Record tree_ok (rank : Z -> nat) (v : PageValidator) : Prop := {
  to_root : pv_roles v !! 1 = Some (Btree 0 0 true true);
  to_rank : forall n r, pv_roles v !! n = Some r -> (rank n < size (pv_roles v))%nat;
  to_above : forall n r, pv_roles v !! n = Some r -> n <> 1 ->
    0 < n <= pv_pages v /\ (exists r', pv_roles v !! above r = Some r' /\ is_btree r' = true) /\ (rank (above r) < rank n)%nat;
  to_left : forall n owner cell remaining record_bytes, pv_roles v !! n = Some (Overflow owner cell remaining record_bytes) -> 0 < remaining <= record_bytes }.

Lemma tree_insert rank v n page own r : tree_ok rank v -> pv_roles v !! page = Some own -> below own page r -> pv_roles v !! n = None -> 0 < n <= pv_pages v ->
  tree_ok (fun m => if decide (m = n) then size (pv_roles v) else rank m) (with_roles (<[n := r]> (pv_roles v)) v).
Proof.
  intros [H1 H2 H3 H4] Hown Hb Hn Hp. assert (exists r', pv_roles v !! above r = Some r' /\ is_btree r' = true) as (ra & Ha & Hab).
  { destruct own as [parent slot root st|owner cell remaining record_bytes], r as [parent' slot' root' st'|owner' cell' remaining' record_bytes']; cbn in Hb |- *.
    - destruct Hb as (-> & _). by eexists.
    - destruct Hb as (-> & _). by eexists.
    - done.
    - destruct Hb as (-> & _). destruct (decide (page = 1)) as [->|Hne]; [congruence|]. by apply (H3 _ _ Hown Hne). }
  assert (above r <> n) as Hne by (intros E; congruence).
  split; cbn [with_roles pv_roles pv_pages].
  - rewrite lookup_insert_ne; [done|]. intros ->. congruence.
  - intros m rm. rewrite map_size_insert_None by done. case_decide as Hm; [lia|]. rewrite lookup_insert_ne by done. intros Hrm. specialize (H2 _ _ Hrm). lia.
  - intros m rm. destruct (decide (m = n)) as [->|Hm].
    + rewrite lookup_insert_eq. intros [= <-] _. split; [lia|]. rewrite lookup_insert_ne by done. rewrite decide_False by done. split; [by eexists|by eapply H2].
    + rewrite lookup_insert_ne by done. intros Hrm Hm1. destruct (H3 _ _ Hrm Hm1) as (Hpm & (r' & Hr' & Hbr) & Hlt). split; [done|].
      assert (above rm <> n) as Hne' by (intros E; congruence). rewrite lookup_insert_ne, decide_False by done. split; [by eexists|done].
  - intros m owner cell remaining record_bytes. destruct (decide (m = n)) as [->|Hm]; [|rewrite lookup_insert_ne by done; apply H4].
    rewrite lookup_insert_eq. intros [= ->]. destruct own; cbn in Hb; [lia|]. specialize (H4 _ _ _ _ _ Hown). unfold PAGE in *. lia.
Qed.
Lemma tree_added page v k s : added_by (child_of page v) k (v, 0) s -> forall rank, tree_ok rank v -> role_count v <= Z.max 1 (pv_max_roles v) ->
  exists rank', tree_ok rank' s.1 /\ role_count s.1 <= Z.max 1 (pv_max_roles v).
Proof.
  intros Ha. remember (v, 0) as s0 eqn:E. revert E. induction Ha as [s|k s v1 new n r Ha IH (own & Hown & Hbelow) Hn Hnone Hmax]; intros -> rank Ht Hc; [by exists rank|].
  destruct (IH eq_refl rank Ht Hc) as (rank1 & Ht1 & Hc1). apply added_extends in Ha as ((_ & _ & Hm & Hsub) & _). cbn [fst snd] in *.
  eexists. split; [eapply tree_insert; [exact Ht1|by eapply lookup_weaken|exact Hbelow|done|done]|].
  unfold role_count in *. cbn [with_roles pv_roles]. rewrite map_size_insert_None by done. rewrite Hm in Hmax. lia.
Qed.

(** ** References *)

(** The page numbers in the bytes of a cell: its child, its overflow page, and the
    root page of the table it describes *)
Definition cell_refers (st : bool) (b : bytes) (ty start i n : Z) : Prop :=
  let cell := u16_at b (start + i * 2) in
  let cursor := if interior ty then cell + 4 else cell in
  (interior ty = true /\ n = u32_at b cell) \/
  (ty <> 5 /\ exists payload k rowid, varint (range cursor (len b) b) = Ok (payload, k) /\
     (if ty =? 13 then exists key, varint (range (cursor + k) (len b) b) = Ok (key, rowid) else rowid = 0) /\
     let finish := cursor + k + rowid + local payload ty in
     (local payload ty < payload /\ n = u32_at b finish \/
      st && (ty =? 13) = true /\ n <> 0 /\ schema_root (range (cursor + k + rowid) finish b) = Ok (Some n))).
(** The page numbers in the bytes of a page in the role [own]: of a b-tree page its
    right child and those of its cells, of an overflow page the next one *)
Definition refers (own : Role) (page : Z) (b : bytes) (n : Z) : Prop :=
  match own with
  | Btree _ _ _ st =>
    let off := if page =? 1 then 100 else 0 in
    let ty := byte_to_Z (ix b off) in
    (interior ty = true /\ n = u32_at b (off + 8)) \/
    exists i, 0 <= i < u16_at b (off + 3) /\ cell_refers st b ty (off + (if interior ty then 12 else 8)) i n
  | Overflow _ _ remaining _ => PAGE - 4 < remaining /\ n = u32_at b 0
  end.
(** An accepted page refers to another. *)
Definition page_link (v : PageValidator) (accepted : list (Z * bytes)) (page n : Z) : Prop :=
  exists b own, (page, b) ∈ accepted /\ pv_roles v !! page = Some own /\ refers own page b n.

Lemma cell_registered page parent slot root st b ty start cells i v n : cell_ok page st b ty start cells i v -> cell_refers st b ty start i n ->
  exists r, registered n r v /\ below (Btree parent slot root st) page r.
Proof.
  intros (_ & Hchild & Hrest) [[Hi ->]|(H5 & payload & k & rowid & Hv & Hrow & Href)]; [eexists; split; [by apply Hchild|by split_and!]|].
  rewrite (proj2 (Z.eqb_neq ty 5) H5) in Hrest. destruct Hrest as (payload' & k' & rowid' & Hv' & Hrow' & _ & Hover & Hschema).
  assert (payload' = payload /\ k' = k) as [-> ->] by (rewrite Hv in Hv'; by injection Hv').
  assert (rowid' = rowid) as -> by (destruct (ty =? 13); [destruct Hrow as [? Hrow], Hrow' as [? Hrow']; congruence|congruence]).
  destruct Href as [[Hl ->]|(Hst & Hn & Hroot)].
  - eexists. split; [by apply Hover|]. apply varint_ok in Hv as (_ & _ & Hp). pose proof (local_range payload ty ltac:(lia)). cbn. lia.
  - destruct (Hschema Hst) as (r & Hr & Hreg). rewrite Hroot in Hr. injection Hr as <-. eexists. split; [by apply Hreg|].
    apply andb_true_iff in Hst as [-> _]. by split_and!.
Qed.
Lemma refers_registered own page b v n : page_ok page b own v -> refers own page b n -> exists r, registered n r v /\ below own page r.
Proof.
  destruct own as [parent slot root st|owner cell remaining record_bytes]; cbn [page_ok refers].
  - intros (off & ty & cells & [-> [-> _] [-> _] Hright Hcells]) [[Hi ->]|(i & Hi & Hc)]; [eexists; split; [by apply Hright|by split_and!]|].
    eapply cell_registered; [by apply Hcells|done].
  - intros [_ Ho] [Hlt ->]. rewrite (proj2 (Z.ltb_lt _ _) Hlt) in Ho. eexists. split; [exact Ho|]. cbn. unfold PAGE in *. split_and!; try done. lia.
Qed.

(** What a chain of references climbs: b-tree pages by their rank, then overflow
    pages by the bytes of the record before them *)
Definition height (rank : Z -> nat) (v : PageValidator) (n : Z) : Z :=
  match pv_roles v !! n with
  | Some (Overflow _ _ remaining record_bytes) => Z.of_nat (size (pv_roles v)) + (record_bytes - remaining)
  | _ => Z.of_nat (rank n)
  end.
Definition accepted_ok (v : PageValidator) (accepted : list (Z * bytes)) : Prop :=
  forall page b, (page, b) ∈ accepted -> exists own, pv_roles v !! page = Some own /\ page_ok page b own v.

Lemma link_registered v accepted page n : accepted_ok v accepted -> page_link v accepted page n ->
  exists own r, pv_roles v !! page = Some own /\ registered n r v /\ below own page r.
Proof.
  intros Ha (b & own & Hin & Hown & Href). destruct (Ha page b Hin) as (own' & Hown' & Hpo). assert (own' = own) as -> by congruence.
  destruct (refers_registered _ _ _ _ _ Hpo Href) as (r & ? & ?). by exists own, r.
Qed.
Lemma link_climbs rank v accepted page n : tree_ok rank v -> accepted_ok v accepted -> page_link v accepted page n -> height rank v page < height rank v n.
Proof.
  intros [T1 T2 T3 T4] Ha (own & r & Hown & [Hr _] & Hb)%link_registered; [|done]. unfold height. rewrite Hown, Hr.
  assert (0 < page) as Hpos by (destruct (decide (page = 1)) as [->|Hne]; [lia|destruct (T3 _ _ Hown Hne); lia]).
  destruct own as [parent slot root st|owner cell remaining record_bytes], r as [parent' slot' root' st'|owner' cell' remaining' record_bytes']; cbn in Hb; [| |done|].
  - destruct Hb as (-> & _). assert (n <> 1) as Hn by (intros ->; rewrite T1 in Hr; injection Hr; lia). destruct (T3 _ _ Hr Hn) as (_ & _ & Hlt). cbn in Hlt. lia.
  - specialize (T2 _ _ Hown). lia.
  - destruct Hb as (_ & _ & -> & -> & _). unfold PAGE. lia.
Qed.
Lemma links_climb rank v accepted page n : tree_ok rank v -> accepted_ok v accepted -> tc (page_link v accepted) page n -> height rank v page < height rank v n.
Proof.
  intros Ht Ha. induction 1 as [x y Hl|x y z Hl _ IH]; [by eapply link_climbs|]. pose proof (link_climbs _ _ _ _ _ Ht Ha Hl). lia.
Qed.

(** The pages an engine was given form a tree. *)
Record pages_tree (v : PageValidator) (accepted : list (Z * bytes)) : Prop := {
  pt_first : pv_roles v !! 1 = Some (Btree 0 0 true true);
  (** references stay in the image, and are registered *)
  pt_inside : forall page n, page_link v accepted page n -> 0 < n <= pv_pages v /\ is_Some (pv_roles v !! n);
  (** no chain of children, roots and overflow pages comes back to a page *)
  pt_acyclic : forall n, ~ tc (page_link v accepted) n n;
  (** one page only refers to a b-tree page; the pages that refer to an overflow page
      are the owner of its record and overflow pages further up the same record *)
  pt_once : forall page n, page_link v accepted page n ->
    match pv_roles v !! n with
    | Some (Btree parent _ _ _) => page = parent
    | Some (Overflow owner cell remaining record_bytes) =>
      page = owner \/ exists more, pv_roles v !! page = Some (Overflow owner cell more record_bytes) /\ remaining < more
    | None => False
    end;
  (** a page other than the first is under a b-tree page of the image *)
  pt_above : forall n r, pv_roles v !! n = Some r -> n <> 1 ->
    0 < n <= pv_pages v /\ exists parent slot root st, pv_roles v !! above r = Some (Btree parent slot root st) }.

Lemma pages_tree_ok rank v accepted : tree_ok rank v -> accepted_ok v accepted -> pages_tree v accepted.
Proof.
  intros Ht Ha. split.
  - apply (to_root _ _ Ht).
  - intros page n (own & r & _ & [Hr Hn] & _)%link_registered; [|done]. split; [done|by eexists].
  - intros n Hc. pose proof (links_climb _ _ _ _ _ Ht Ha Hc). lia.
  - intros page n (own & r & Hown & [Hr _] & Hb)%link_registered; [|done]. rewrite Hr.
    destruct own, r; cbn in Hb; [by destruct Hb|left; by destruct Hb|done|]. destruct Hb as (-> & -> & -> & -> & _). right. eexists. split; [done|]. unfold PAGE. lia.
  - intros n r Hr Hn. destruct (to_above _ _ Ht _ _ Hr Hn) as (Hp & (r' & Hr' & Hb) & _). split; [done|]. destruct r'; [by do 4 eexists|done].
Qed.
Lemma validating_ok image_bytes max_record_bytes max_roles v accepted : validating image_bytes max_record_bytes max_roles v accepted ->
  pv_max_roles v = max_roles /\ role_count v <= Z.max 1 max_roles /\ (exists rank, tree_ok rank v) /\ accepted_ok v accepted.
Proof.
  induction 1 as [|page b v accepted _ (Hm & Hc & (rank & Ht) & Ha) Hpage].
  - split_and!; [done| |exists (fun _ => 0%nat); split|by intros ? ? ?%not_elem_of_nil]; cbn [validator_new pv_roles pv_pages].
    + unfold role_count. cbn. rewrite map_size_singleton. lia.
    + apply lookup_singleton_eq.
    + intros n r. rewrite map_size_singleton. lia.
    + intros n r [<- _]%lookup_singleton_Some. done.
    + intros n owner cell remaining record_bytes [_ Hr]%lookup_singleton_Some. done.
  - pose proof (validate_spec page b v Hpage) as Hs. destruct (validate page b v) as [r v']. destruct Hs as (_ & (k & _ & Hk) & Hok). cbn [fst snd].
    rewrite <- Hm in Hc. destruct (tree_added _ _ _ _ Hk rank Ht Hc) as (rank' & Ht' & Hc'). apply added_extends in Hk as (He & _). cbn [fst snd] in *.
    pose proof He as (_ & _ & Hm' & Hsub). rewrite <- Hm. split_and!; [congruence|exact Hc'|by exists rank'|].
    assert (accepted_ok v' accepted) as Hold.
    { intros p c Hin. destruct (Ha p c Hin) as (own & Hown & Hpo). exists own. split; [by eapply lookup_weaken|by eapply page_ok_extends]. }
    destruct r as [added|e]; cbn [is_ok]; [|done]. intros p c [[= -> ->]|Hin]%elem_of_cons; [|by apply Hold].
    destruct (Hok added eq_refl) as (_ & _ & own & Hown & Hpo). exists own. split; [by eapply lookup_weaken|done].
Qed.

(** ** Properties *)

(** C12: validating a page, whatever its bytes and whatever was validated before, does
    not panic and registers at most 4088 pages, which stay registered when it fails;
    a page it accepts is 4096 bytes of a page of the image whose role is known: a
    b-tree page has all its cells behind the cell pointers and within the page, every
    local payload ends within the page, and each child, root page of a table and
    first overflow page is a page of the image registered for this page and this
    cell alone; an overflow page belongs to a record of a permitted length and goes
    on exactly as long as bytes of it are left. *)
Theorem page_validation (page : Z) (b : bytes) (v : PageValidator) (Hpage : 0 <= page) :
  let '(r, v') := validate page b v in
  r <> Err PagePanic /\ extends v v' /\ role_count v' <= role_count v + 4088 /\
  (forall added, r = Ok added -> len b = PAGE /\ added = role_count v' - role_count v /\
     exists own, pv_roles v !! page = Some own /\ page_ok page b own v').
Proof.
  pose proof (validate_spec page b v Hpage) as Hs. destruct (validate page b v) as [r v']. destruct Hs as (Hp & (k & Hk & Ha) & Hok).
  apply added_extends in Ha as (He & Hc & _). cbn [fst] in *. split_and!; [done|done|lia|done].
Qed.

(** C16: whatever pages an engine asks for, and whatever their bytes, at most the
    permitted number of pages is registered, and the accepted pages form a tree under
    page 1: each page number in their bytes - a child, the root of a table, the first
    overflow page of a cell, the next page of an overflow chain - is a registered page
    of the image; one page only refers to a b-tree page, and only pages of its own
    record to an overflow page; and no chain of references, through b-tree and
    overflow pages alike, comes back to a page it left. *)
Theorem page_roles_form_a_tree (image_bytes max_record_bytes max_roles : Z) (v : PageValidator) (accepted : list (Z * bytes))
    (Hv : validating image_bytes max_record_bytes max_roles v accepted) :
  role_count v <= Z.max 1 max_roles /\ pages_tree v accepted.
Proof. apply validating_ok in Hv as (_ & Hc & (rank & Ht) & Ha). split; [done|by eapply pages_tree_ok]. Qed.

(** ** Example *)

(** A first page over page 2, a leaf of the schema table with one record of 5000
    bytes, for a table with root page 4, and the overflow page 3 of that record *)
Definition interior_page : bytes :=
  as_bytes "SQLite format 3" ++ [Byte.x00; Byte.x10; Byte.x00; Byte.x01; Byte.x01; Byte.x00; Byte.x40; Byte.x20; Byte.x20] ++ zero_bytes 76
  ++ [Byte.x05] ++ zero_bytes 7 ++ be_bytes 4 2 ++ zero_bytes 3984.
Definition leaf_page : bytes :=
  [Byte.x0d; Byte.x00; Byte.x00; Byte.x00; Byte.x01; Byte.x0b; Byte.xb8; Byte.x00; Byte.x0b; Byte.xb8] ++ zero_bytes 2990
  ++ [Byte.xa7; Byte.x08; Byte.x01] ++ [Byte.x07; Byte.x17; Byte.x0f; Byte.x0f; Byte.x01; Byte.xcd; Byte.x7f] ++ as_bytes "tablett" ++ [Byte.x04]
  ++ zero_bytes 893 ++ be_bytes 4 3 ++ zero_bytes 181.
Definition validated (pages : list (Z * bytes)) : PageValidator := fold_left (fun v p => (validate p.1 p.2 v).2) pages (validator_new 16384 10000 100).

Lemma page_validation_witness : exists v', validate 2 leaf_page (validated [(1, interior_page)]) = (Ok 2, v') /\
  page_ok 2 leaf_page (Btree 1 usize_max false true) v' /\ extends (validated [(1, interior_page)]) v'.
Proof.
  pose proof (page_validation 2 leaf_page (validated [(1, interior_page)]) ltac:(lia)) as Hp.
  destruct (validate 2 leaf_page (validated [(1, interior_page)])) as [r v'] eqn:E. assert (r = Ok 2) as -> by (transitivity (validate 2 leaf_page (validated [(1, interior_page)])).1; [rewrite E; reflexivity|vm_compute; reflexivity]).
  exists v'. split; [reflexivity|]. destruct Hp as (_ & He & _ & Hok). destruct (Hok 2 eq_refl) as (_ & _ & own & Hown & Hpo). split; [|exact He].
  assert (pv_roles (validated [(1, interior_page)]) !! 2 = Some (Btree 1 usize_max false true)) as Hrole by (vm_compute; reflexivity). congruence.
Defined.
(** The three pages are accepted; the overflow page is read after the leaf. *)
Definition example_accepted : list (Z * bytes) := [(3, zero_bytes 4096); (2, leaf_page); (1, interior_page)].
Lemma page_roles_form_a_tree_witness : role_count (validated (rev example_accepted)) <= 100 /\
  (forall n, ~ tc (page_link (validated (rev example_accepted)) example_accepted) n n) /\
  (validate 3 (be_bytes 4 3 ++ zero_bytes 4092) (validated [(1, interior_page); (2, leaf_page)])).1
    = Err (Failure (corrupt "overflow chain has an unexpected continuation")).
Proof.
  assert (validating 16384 10000 100 (validated (rev example_accepted)) example_accepted) as Hv.
  { pose proof (validating_page _ _ _ 1 interior_page _ _ (validating_new 16384 10000 100) ltac:(lia)) as H1.
    pose proof (validating_page _ _ _ 2 leaf_page _ _ H1 ltac:(lia)) as H2. pose proof (validating_page _ _ _ 3 (zero_bytes 4096) _ _ H2 ltac:(lia)) as H3.
    clear H1 H2. match type of H3 with validating _ _ _ _ ?l => assert (l = example_accepted) as E by (vm_compute; reflexivity) end.
    rewrite E in H3. exact H3. }
  destruct (page_roles_form_a_tree 16384 10000 100 _ _ Hv) as [Hc Ht]. split; [exact Hc|]. split; [apply Ht|]. vm_compute. reflexivity.
Defined.
