(* ===== verification/EngineRead.v ===== *)
(** The page reads of the SQL engine (otmp/src/reader_engine.rs, [ReadOnlyStorage]):
    authenticated pages from the lazy reader, admitted by the structural validation,
    with the memory of its roles charged to the reader's budget. *)
From S2P Require Import Prelude Bytes Errors Values Scalars Cbor PageMap CheckpointIndex PagePack Hashes PageTree PagePersist PageLoad.
From S2P Require Import ByteArray Overlay Storage CanonicalJson Objects CheckpointBuild Resolve ImageRoundtrip Publication Candidate.
From S2P Require Import Cache Reader ReaderRanges LazyPages EnginePages EngineFacts.

(** [ReadOnlyStorage] with its source: the validator, the reservations of its roles,
    and the reader behind the image. *)
Record Engine (S : Type) := MkEngine { en_validator : PageValidator; en_roles : list Z; en_reader : Reader S }.
Arguments MkEngine {S}. Arguments en_validator {S}. Arguments en_roles {S}. Arguments en_reader {S}.

Section engine.
Context `{HexCrate, Sha2Crate, ReaderCrates} {S : Type} `{ObjectStore S} (options : ReaderOptions) (self : AuthenticatedImage).

Definition engine_new (s : Reader S) : Engine S :=
  MkEngine (validator_new (image_length self) (maximum_record_bytes options) (2 ^ 64 - 1)) [] s.

(** [ReadOnlyStorage::read] of a buffer of [n] bytes. A malformed page keeps the roles
    it registered, and their reservation. *)
Definition engine_read (page n : Z) (e : Engine S) : page_result bytes * Engine S :=
  if (n =? 0) || (EnginePages.PAGE <? n) || (page =? 0) then (Err (Failure (corrupt "invalid SQLite page read requested by Turso")), e) else
  match copy_page options self page EnginePages.PAGE (en_reader e) with
  | (Err x, s) => (Err (Failure x), MkEngine (en_validator e) (en_roles e) s)
  | (Ok b, s) =>
    match reserve (EnginePages.PAGE * 128) (rx_cache s) with
    | (Err x, c) => (Err (Failure x), MkEngine (en_validator e) (en_roles e) (with_cache c s))
    | (Ok transient, c) =>
      let '(r, v) := validate page b (en_validator e) in
      let added := role_count v - role_count (en_validator e) in
      let answer := _ ← r; Ok (take (Z.to_nat n) b) in
      if added =? 0 then (answer, MkEngine v (en_roles e) (with_cache (release transient c) s)) else
      if added * 128 + 64 <=? transient then
        (answer, MkEngine v (added * 128 + 64 :: en_roles e) (with_cache (shrink_to transient (added * 128 + 64) c) s))
      else (Err PagePanic, MkEngine v (en_roles e) (with_cache c s))
    end
  end.

Fixpoint engine_reads (requests : list (Z * Z)) (e : Engine S) : list (page_result bytes) * Engine S :=
  match requests with
  | [] => ([], e)
  | (page, n) :: requests =>
    let '(answer, e) := engine_read page n e in
    let '(answers, e) := engine_reads requests e in
    (answer :: answers, e)
  end.
End engine.

(** ** Facts *)

Lemma ok_shrunk P x amount c held arcs : 0 <= amount <= x -> cache_ok P c (x :: held) arcs -> cache_ok P (shrink_to x amount c) (amount :: held) arcs.
Proof.
  intros Ha Hc. unfold shrink_to. apply (ok_release P (x - amount)). destruct Hc as [Hu Hp Hl Hheld Harcs Hlive Honce Hord Hids Hvals].
  apply Forall_cons in Hheld as [? Hheld]. constructor; try done; [cbn in *; lia|]. constructor; [lia|]. constructor; [lia|done].
Qed.

Section facts.
Context `{HexCrate, Sha2Crate, ReaderCrates} {S : Type} `{ObjectStore S} (options : ReaderOptions) (self : AuthenticatedImage).
Context (P : Key -> bytes -> Prop) (PI : Identity -> Prop) (SI : S -> Prop) (E : rerror -> Prop) (pages : Z -> bytes -> Prop).
Context (Hcopy : forall page n, is_u64 page -> yields P PI SI E (copy_page options self page n) (fun b => exists p, pages page p /\ b = take (Z.to_nat n) p)).

(** The reservations are held, and each role but that of page 1 is charged. *)
Definition engine_ok (e : Engine S) : Prop :=
  reader_ok P PI SI (en_reader e) (en_roles e) [] /\ 128 * (role_count (en_validator e) - 1) <= foldr Z.add 0 (en_roles e).

(** An answer: no panic; its bytes are those of the page, and the page is in order. *)
Definition answer_ok (page n : Z) (v : PageValidator) (a : page_result bytes) : Prop :=
  a <> Err PagePanic /\ forall b, a = Ok b ->
    exists p q own, pages page p /\ q = take (Z.to_nat EnginePages.PAGE) p /\ b = take (Z.to_nat n) q /\ len q = EnginePages.PAGE /\ pv_roles v !! page = Some own /\ page_ok page q own v.

Lemma answer_ok_extends page n v v' a : answer_ok page n v a -> extends v v' -> answer_ok page n v' a.
Proof.
  intros [Hp Ha] He. split; [done|]. intros b Hb. destruct (Ha b Hb) as (p & q & own & Hp1 & Hp2 & Hp3 & Hp4 & Hp5 & Hp6). exists p, q, own. split_and!; try done.
  - destruct He as (_ & _ & _ & Hs). by eapply lookup_weaken.
  - by eapply page_ok_extends.
Qed.

Lemma engine_read_ok page n e : is_u64 page -> engine_ok e ->
  let '(a, e') := engine_read options self page n e in
  engine_ok e' /\ extends (en_validator e) (en_validator e') /\ answer_ok page n (en_validator e') a.
Proof.
  intros Hp [Hr Hc]. unfold engine_read. destruct (_ || _); [split_and!; try done; apply extends_refl|].
  pose proof (Hcopy page EnginePages.PAGE Hp _ _ _ Hr) as Hy. destruct (copy_page options self page EnginePages.PAGE (en_reader e)) as [[b|x] s]; destruct Hy as [Hs Hb];
    [|split_and!; try done; apply extends_refl].
  pose proof (ok_reserve P PI SI (EnginePages.PAGE * 128) s (en_roles e) [] ltac:(done) Hs) as Hres.
  destruct (reserve (EnginePages.PAGE * 128) (rx_cache s)) as [[x|x] c]; [|destruct Hres as [Hok _]; split_and!; try done; apply extends_refl].
  destruct Hres as [-> Hok]. destruct Hb as (p & Hpage & ->).
  pose proof (validate_spec page (take (Z.to_nat EnginePages.PAGE) p) (en_validator e) ltac:(unfold is_uint in Hp; lia)) as Hv.
  destruct (validate page _ (en_validator e)) as [r v]. destruct Hv as (Hcalm & (k & Hk & Ha) & Hgood). apply added_extends in Ha as (He & Hcount & _). cbn [fst] in *.
  assert (answer_ok page n v (_ ← r; Ok (take (Z.to_nat n) (take (Z.to_nat EnginePages.PAGE) p)))) as Hans.
  { destruct r as [added|f]; [|split; [cbn; intros [= ->]; by apply Hcalm|done]]. split; [done|]. intros b Hb. cbn [mbind result_bind] in Hb. assert (take (Z.to_nat n) (take (Z.to_nat EnginePages.PAGE) p) = b) as <- by congruence. destruct (Hgood added eq_refl) as (Hl & _ & own & Hown & Hpo). exists p, (take (Z.to_nat EnginePages.PAGE) p), own. split_and!; try done. destruct He as (_ & _ & _ & Hsub). by eapply lookup_weaken. }
  destruct (Z.eqb_spec (role_count v - role_count (en_validator e)) 0) as [E0|E0].
  - split_and!; [|done|done]. split; [exact (ok_released P PI SI _ _ _ _ Hok)|]. cbn [en_validator en_roles]. lia.
  - rewrite (proj2 (Z.leb_le _ _)) by (unfold EnginePages.PAGE; lia). split_and!; [|done|done]. split; cbn [en_validator en_roles en_reader]; [|cbn [foldr]; lia].
    destruct Hok as (Hcache & Hk' & Hst). split; [|split; [exact Hk'|exact Hst]]. apply ok_shrunk; [unfold EnginePages.PAGE; lia|exact Hcache].
Qed.

Lemma engine_reads_ok requests : forall e, Forall (fun q => is_u64 q.1) requests -> engine_ok e ->
  let '(answers, e') := engine_reads options self requests e in
  engine_ok e' /\ extends (en_validator e) (en_validator e') /\
  forall i page n a, requests !! i = Some (page, n) -> answers !! i = Some a -> answer_ok page n (en_validator e') a.
Proof.
  induction requests as [|[page n] requests IH]; intros e Hq He; cbn [engine_reads]; [split_and!; [done|apply extends_refl|done]|].
  apply Forall_cons in Hq as [Hp Hq]. pose proof (engine_read_ok page n e Hp He) as Hr. destruct (engine_read options self page n e) as [a e1]. destruct Hr as (He1 & Hx1 & Ha).
  specialize (IH e1 Hq He1). destruct (engine_reads options self requests e1) as [answers e2]. destruct IH as (He2 & Hx2 & Hall).
  split_and!; [done|by eapply extends_trans|]. intros [|i] p0 n0 a0 Hi Hai; cbn in Hi, Hai; [|by eapply Hall].
  injection Hi as <- <-. injection Hai as <-. by eapply answer_ok_extends.
Qed.
End facts.

(** C10: what the SQL engine reads is the resolved image. Over any store, and in any
    sequence of reads, a read of a page by the engine does not panic, and answers with
    an error or with the bytes of that page of what [resolve_generation] builds, after
    the structural validation accepted the page; and the reader's budget holds, beside
    what is cached, exactly the reservations of the roles, at least 128 bytes for each
    page that was registered. *)
Theorem engine_reads_authentic_pages `{HexCrate, Sha2Crate, ImageCrates, ReaderCrates} `{ToJson Generation} {S : Type} `{ObjectStore S}
    (SI : S -> Prop) (options : ReaderOptions) (store : S) (known : bytes -> Prop) (read : ObjectReference -> rresult bytes)
    (g : Generation) (r : ResolvedGeneration) (s0 s1 : Reader S) (self : AuthenticatedImage)
    (Hnew : reader_new options store = Ok s0) (Hoptions : is_usize (cache_budget_bytes options))
    (Himage : image g s0 = (Ok self, s1)) (Hg : runtime_generation g)
    (Hresolve : resolve_generation read g = Ok r)
    (Hread : faithful known read) (Hno : forall a b, known a -> known b -> digest a = digest b -> a = b)
    (Hstore : SI store) (Hstat : forall s uri, SI s -> SI (os_stat s uri).2)
    (Hranges : forall s uri rng md, SI s -> let '(a, s') := os_read_range s uri rng md in
       SI s' /\ forall response, a = Ok response -> known (sr_bytes response))
    (Hunzip : forall b page, known b -> zstd_decompress_window b 4096 = Ok page -> known page)
    (Hwindow : forall b k page, known b -> slice b (k * 4096) (k * 4096 + 4096) = Some page -> known page)
    (Hbytes : forall n page, page_at 4096 (rg_bytes r) n = Some page -> known page)
    (Hcheckpoint : forall n page, page_at 4096 (rg_checkpoint r) n = Some page -> known page)
    (Hcapacity : forall b, len b <= vec_capacity b)
    (requests : list (Z * Z)) (Hrequests : Forall (fun q => is_u64 q.1) requests) :
  let '(answers, e) := engine_reads options self requests (engine_new options self s1) in
  (forall i page n a, requests !! i = Some (page, n) -> answers !! i = Some a -> a <> Err PagePanic /\
    forall b, a = Ok b -> exists p own, page_at 4096 (rg_bytes r) page = Some p /\ b = take (Z.to_nat n) p /\
      pv_roles (en_validator e) !! page = Some own /\ page_ok page p own (en_validator e)) /\
  c_used (rx_cache (en_reader e)) = foldr Z.add 0 (en_roles e) + total (c_arcs (rx_cache (en_reader e))) /\
  128 * (role_count (en_validator e) - 1) <= foldr Z.add 0 (en_roles e).
Proof.
  destruct (opened_reads SI options store known read g r s0 s1 self Hnew Hoptions Himage Hg Hresolve Hread Hno Hstore Hstat Hranges Hunzip Hwindow Hbytes
    Hcheckpoint Hcapacity) as (P & PI & E & Hs1 & Hcopy).
  assert (forall page n, is_u64 page -> yields P PI SI E (copy_page options self page n)
    (fun b => exists p, page_at 4096 (rg_bytes r) page = Some p /\ b = take (Z.to_nat n) p)) as Hy by (intros page n; exact (Hcopy false page n)).
  pose proof (engine_reads_ok options self P PI SI E _ Hy requests (engine_new options self s1) Hrequests) as He.
  destruct (engine_reads options self requests (engine_new options self s1)) as [answers e]. destruct He as ((Hok & Hc) & _ & Hall).
  { split; [exact Hs1|]. unfold role_count. cbn [engine_new en_validator validator_new pv_roles en_roles foldr]. rewrite map_size_singleton. lia. }
  split_and!; [|by destruct Hok as (Hcache & _); rewrite (ck_used Hcache)|done].
  intros i page n a Hi Ha. destruct (Hall i page n a Hi Ha) as [Hp Hans]. split; [done|]. intros b Hb.
  destruct (Hans b Hb) as (p & q & own & Hpage & -> & -> & _ & Hown & Hpo). assert (take (Z.to_nat EnginePages.PAGE) p = p) as E1.
  { apply take_ge. unfold page_at in Hpage. pose proof (slice_len _ _ _ _ Hpage) as Hl. unfold len, EnginePages.PAGE in *. lia. }
  rewrite E1 in *. by exists p, own.
Qed.

(** ** Example *)

#[local] Existing Instances Candidate.example_hex Candidate.example_sha2 Candidate.example_serde Candidate.example_crates Candidate.example_to_json.
#[local] Existing Instances LazyPages.example_reader LazyPages.whole_store.

(** The header of the image, which is part of its first page *)
Definition engine_requests : list (Z * Z) := [(1, 100)].
#[local] Notation engine_run := (engine_reads default_options lazy_opened.1 engine_requests (engine_new default_options lazy_opened.1 lazy_opened.2)).
Lemma engine_answers : map (fun a => is_ok a) engine_run.1 = [true].
Proof. vm_compute. reflexivity. Qed.

Lemma engine_reads_authentic_pages_witness : exists p own, page_at 4096 small_bytes 1 = Some p /\ engine_run.1 !! 0%nat = Some (Ok (take 100 p)) /\
  pv_roles (en_validator engine_run.2) !! 1 = Some own /\ page_ok 1 p own (en_validator engine_run.2).
Proof.
  pose proof (engine_reads_authentic_pages (fun s => ms_objects s = lazy_objects) default_options lazy_store (fun b => b ∈ lazy_known)
    (store_read candidate_store) lazy_generation lazy_resolved lazy_reader lazy_opened.2 lazy_opened.1 eq_refl
    ltac:(split; vm_compute; done) lazy_opens lazy_runtime lazy_resolves lazy_faithful lazy_distinct eq_refl
    (fun s uri Hs => Hs)
    (fun s uri rng md => whole_ranges lazy_known lazy_objects s uri rng md store_known) lazy_unzip (fun b k page => pages_closed_ok lazy_known b k page lazy_closed)) as Ht.
  rewrite (proj1 lazy_bytes), (proj2 lazy_bytes) in Ht.
  specialize (Ht (fun n page => page_known small_bytes n page small_bytes_known) (fun n page => page_known small_bytes n page small_bytes_known)
    (fun b => Z.le_refl _) engine_requests ltac:(repeat constructor; done)).
  pose proof engine_answers as Ha. destruct (engine_reads _ _ _ _) as [answers e].
  destruct Ht as [Ht _]. cbn [fst snd] in *. destruct answers as [|[a0|] rest]; try discriminate Ha.
  destruct (proj2 (Ht 0%nat 1 100 (Ok a0) eq_refl eq_refl) a0 eq_refl) as (p & own & Hp & -> & Hown & Hpo).
  exists p, own. split; [exact Hp|]. split; [reflexivity|]. split; [exact Hown|exact Hpo].
Defined.
