(* ===== verification/Database.v ===== *)
(** The relational image of a table (spec/OTMP-0.0.2-alpha-table-schema.sql): its
    tables as finite maps keyed by their primary keys, the statements the program
    executes on them with the constraints of the schema, and the foreign keys that
    COMMIT checks. *)
From S2P Require Import Prelude Bytes Errors Values PageTree.

(** ** Rows *)

(** Identifiers and hashes are BLOB columns, counts and versions INTEGER columns,
    JSON is TEXT. Columns that no statement of the program reads or writes, and
    the tables without such a statement, are left out. *)
Record MetaRow := {
  m_protocol : string; m_protocol_version : string; m_table_id : bytes; m_table_version : Z;
  m_semantic_state : bytes; m_last_commit_id : bytes; m_last_commit_sha256 : bytes; m_last_sequence_number : Z;
  m_current_schema_id : Z; m_default_partition_spec_id : Z; m_default_sort_order_id : Z; m_created_at_ms : Z;
  m_reader_features : string; m_writer_features : string; m_metadata : string }.
Record CommitRow := {
  k_commit_id : bytes; k_parent_version : option Z; k_created_at_ms : Z; k_intent_count : Z; k_semantic_state : bytes;
  k_object_uri : string; k_object_sha256 : bytes; k_operations : string; k_result : string; k_metadata : string }.
Record IdempotencyRow := { y_intent_sha256 : bytes; y_commit_id : bytes; y_table_version : Z; y_result : string }.
Record PropertyRow := { o_value : string; o_updated_version : Z }.
Record SchemaRow := { d_parent : option Z; d_created_version : Z; d_doc : option string }.
Record FieldRow := {
  w_parent : option Z; w_name : string; w_ordinal : Z; w_required : Z; w_type : string; w_doc : option string;
  w_initial_default : option string; w_write_default : option string }.
Record SnapshotRow := {
  s_parent : option bytes; s_sequence : Z; s_schema_id : Z; s_partition_spec_id : Z; s_sort_order_id : Z; s_operation : string;
  s_version : Z; s_committed_at_ms : Z; s_summary : string; s_metadata : string }.
Record RefRow := { r_type : string; r_snapshot : option bytes; r_created_version : Z; r_updated_version : Z }.
Record FileRow := {
  f_kind : string; f_uri : string; f_object_identity : option string; f_format : string; f_size : Z; f_records : Z;
  f_schema_id : Z; f_partition_spec_id : Z; f_sort_order_id : option Z; f_partition_values : bytes; f_partition_hash : bytes;
  f_sha256 : option bytes; f_data_sequence : Z; f_file_sequence : Z; f_created_snapshot : bytes; f_created_version : Z; f_metadata : string }.
Record MetricRow := {
  q_column_size : option Z; q_values : option Z; q_nulls : option Z; q_nans : option Z; q_distinct : option Z;
  q_lower : option bytes; q_upper : option bytes; q_metadata : string }.
Record LiveRow := { l_added_snapshot : bytes; l_data_sequence : Z; l_file_sequence : Z }.

(** ** The tables *)

Record Db := MkDb {
  db_meta : option MetaRow;
  db_commits : gmap Z CommitRow;
  db_idempotency_rows : gmap string IdempotencyRow;
  db_properties : gmap string PropertyRow;
  db_features : gmap (string * string) Z;
  db_schemas : gmap Z SchemaRow;
  db_field_ids : gmap Z (Z * Z);
  db_field_rows : gmap (Z * Z) FieldRow;
  db_identifiers : gmap (Z * Z) Z;
  db_partition_specs : gmap Z Z;
  db_sort_orders : gmap Z Z;
  db_snapshots : gmap bytes SnapshotRow;
  db_summaries : gmap (bytes * string) string;
  db_refs : gmap string RefRow;
  db_files : gmap bytes FileRow;
  db_metrics : gmap (bytes * Z) MetricRow;
  db_changes : gset (bytes * bytes * string);
  db_live : gmap (string * bytes) LiveRow }.

(** What a statement leaves of the other tables. *)
Definition set_meta (x : option MetaRow) (d : Db) : Db :=
  MkDb x (db_commits d) (db_idempotency_rows d) (db_properties d) (db_features d) (db_schemas d) (db_field_ids d) (db_field_rows d) (db_identifiers d)
    (db_partition_specs d) (db_sort_orders d) (db_snapshots d) (db_summaries d) (db_refs d) (db_files d) (db_metrics d) (db_changes d) (db_live d).
Definition set_commits (x : gmap Z CommitRow) (d : Db) : Db :=
  MkDb (db_meta d) x (db_idempotency_rows d) (db_properties d) (db_features d) (db_schemas d) (db_field_ids d) (db_field_rows d) (db_identifiers d)
    (db_partition_specs d) (db_sort_orders d) (db_snapshots d) (db_summaries d) (db_refs d) (db_files d) (db_metrics d) (db_changes d) (db_live d).
Definition set_idempotency_rows (x : gmap string IdempotencyRow) (d : Db) : Db :=
  MkDb (db_meta d) (db_commits d) x (db_properties d) (db_features d) (db_schemas d) (db_field_ids d) (db_field_rows d) (db_identifiers d)
    (db_partition_specs d) (db_sort_orders d) (db_snapshots d) (db_summaries d) (db_refs d) (db_files d) (db_metrics d) (db_changes d) (db_live d).
Definition set_properties (x : gmap string PropertyRow) (d : Db) : Db :=
  MkDb (db_meta d) (db_commits d) (db_idempotency_rows d) x (db_features d) (db_schemas d) (db_field_ids d) (db_field_rows d) (db_identifiers d)
    (db_partition_specs d) (db_sort_orders d) (db_snapshots d) (db_summaries d) (db_refs d) (db_files d) (db_metrics d) (db_changes d) (db_live d).
Definition set_features (x : gmap (string * string) Z) (d : Db) : Db :=
  MkDb (db_meta d) (db_commits d) (db_idempotency_rows d) (db_properties d) x (db_schemas d) (db_field_ids d) (db_field_rows d) (db_identifiers d)
    (db_partition_specs d) (db_sort_orders d) (db_snapshots d) (db_summaries d) (db_refs d) (db_files d) (db_metrics d) (db_changes d) (db_live d).
Definition set_schemas (x : gmap Z SchemaRow) (d : Db) : Db :=
  MkDb (db_meta d) (db_commits d) (db_idempotency_rows d) (db_properties d) (db_features d) x (db_field_ids d) (db_field_rows d) (db_identifiers d)
    (db_partition_specs d) (db_sort_orders d) (db_snapshots d) (db_summaries d) (db_refs d) (db_files d) (db_metrics d) (db_changes d) (db_live d).
Definition set_field_ids (x : gmap Z (Z * Z)) (d : Db) : Db :=
  MkDb (db_meta d) (db_commits d) (db_idempotency_rows d) (db_properties d) (db_features d) (db_schemas d) x (db_field_rows d) (db_identifiers d)
    (db_partition_specs d) (db_sort_orders d) (db_snapshots d) (db_summaries d) (db_refs d) (db_files d) (db_metrics d) (db_changes d) (db_live d).
Definition set_field_rows (x : gmap (Z * Z) FieldRow) (d : Db) : Db :=
  MkDb (db_meta d) (db_commits d) (db_idempotency_rows d) (db_properties d) (db_features d) (db_schemas d) (db_field_ids d) x (db_identifiers d)
    (db_partition_specs d) (db_sort_orders d) (db_snapshots d) (db_summaries d) (db_refs d) (db_files d) (db_metrics d) (db_changes d) (db_live d).
Definition set_identifiers (x : gmap (Z * Z) Z) (d : Db) : Db :=
  MkDb (db_meta d) (db_commits d) (db_idempotency_rows d) (db_properties d) (db_features d) (db_schemas d) (db_field_ids d) (db_field_rows d) x
    (db_partition_specs d) (db_sort_orders d) (db_snapshots d) (db_summaries d) (db_refs d) (db_files d) (db_metrics d) (db_changes d) (db_live d).
Definition set_partition_specs (x : gmap Z Z) (d : Db) : Db :=
  MkDb (db_meta d) (db_commits d) (db_idempotency_rows d) (db_properties d) (db_features d) (db_schemas d) (db_field_ids d) (db_field_rows d)
    (db_identifiers d) x (db_sort_orders d) (db_snapshots d) (db_summaries d) (db_refs d) (db_files d) (db_metrics d) (db_changes d) (db_live d).
Definition set_sort_orders (x : gmap Z Z) (d : Db) : Db :=
  MkDb (db_meta d) (db_commits d) (db_idempotency_rows d) (db_properties d) (db_features d) (db_schemas d) (db_field_ids d) (db_field_rows d)
    (db_identifiers d) (db_partition_specs d) x (db_snapshots d) (db_summaries d) (db_refs d) (db_files d) (db_metrics d) (db_changes d) (db_live d).
Definition set_snapshots (x : gmap bytes SnapshotRow) (d : Db) : Db :=
  MkDb (db_meta d) (db_commits d) (db_idempotency_rows d) (db_properties d) (db_features d) (db_schemas d) (db_field_ids d) (db_field_rows d)
    (db_identifiers d) (db_partition_specs d) (db_sort_orders d) x (db_summaries d) (db_refs d) (db_files d) (db_metrics d) (db_changes d) (db_live d).
Definition set_summaries (x : gmap (bytes * string) string) (d : Db) : Db :=
  MkDb (db_meta d) (db_commits d) (db_idempotency_rows d) (db_properties d) (db_features d) (db_schemas d) (db_field_ids d) (db_field_rows d)
    (db_identifiers d) (db_partition_specs d) (db_sort_orders d) (db_snapshots d) x (db_refs d) (db_files d) (db_metrics d) (db_changes d) (db_live d).
Definition set_refs (x : gmap string RefRow) (d : Db) : Db :=
  MkDb (db_meta d) (db_commits d) (db_idempotency_rows d) (db_properties d) (db_features d) (db_schemas d) (db_field_ids d) (db_field_rows d)
    (db_identifiers d) (db_partition_specs d) (db_sort_orders d) (db_snapshots d) (db_summaries d) x (db_files d) (db_metrics d) (db_changes d) (db_live d).
Definition set_files (x : gmap bytes FileRow) (d : Db) : Db :=
  MkDb (db_meta d) (db_commits d) (db_idempotency_rows d) (db_properties d) (db_features d) (db_schemas d) (db_field_ids d) (db_field_rows d)
    (db_identifiers d) (db_partition_specs d) (db_sort_orders d) (db_snapshots d) (db_summaries d) (db_refs d) x (db_metrics d) (db_changes d) (db_live d).
Definition set_metrics (x : gmap (bytes * Z) MetricRow) (d : Db) : Db :=
  MkDb (db_meta d) (db_commits d) (db_idempotency_rows d) (db_properties d) (db_features d) (db_schemas d) (db_field_ids d) (db_field_rows d)
    (db_identifiers d) (db_partition_specs d) (db_sort_orders d) (db_snapshots d) (db_summaries d) (db_refs d) (db_files d) x (db_changes d) (db_live d).
Definition set_changes (x : gset (bytes * bytes * string)) (d : Db) : Db :=
  MkDb (db_meta d) (db_commits d) (db_idempotency_rows d) (db_properties d) (db_features d) (db_schemas d) (db_field_ids d) (db_field_rows d)
    (db_identifiers d) (db_partition_specs d) (db_sort_orders d) (db_snapshots d) (db_summaries d) (db_refs d) (db_files d) (db_metrics d) x (db_live d).
Definition set_live (x : gmap (string * bytes) LiveRow) (d : Db) : Db :=
  MkDb (db_meta d) (db_commits d) (db_idempotency_rows d) (db_properties d) (db_features d) (db_schemas d) (db_field_ids d) (db_field_rows d)
    (db_identifiers d) (db_partition_specs d) (db_sort_orders d) (db_snapshots d) (db_summaries d) (db_refs d) (db_files d) (db_metrics d) (db_changes d) x.

(** ** Statements *)

(** The error of a statement that a constraint refuses, or of a query that must
    return a row and finds none; which of the two engines runs it, and its text,
    are the engine's. *)
Class SqlEngine := { sql_failure : string -> rerror }.

(** Some row satisfies [f]: [WHERE] over a whole table. *)
Definition some_row {K V} `{Countable K} (f : K -> V -> bool) (m : gmap K V) : bool :=
  existsb (fun kv => f kv.1 kv.2) (map_to_list m).
Definition has {K V} `{Countable K} (k : K) (m : gmap K V) : bool := bool_decide (is_Some (m !! k)).
(** A foreign key that may be NULL *)
Definition refers {K V} `{Countable K} (k : option K) (m : gmap K V) : bool :=
  match k with Some k => has k m | None => true end.
(** [CHECK (length(x) = n)] *)
Definition blob (n : Z) (b : bytes) : bool := len b =? n.

Section statements.
Context `{SqlEngine}.

Definition constraint (b : bool) : rresult unit := reject (negb b) (sql_failure "constraint failed").
(** [query_row] *)
Definition row {A} (o : option A) : rresult A := ok_or o (sql_failure "query returned no rows").

(** [INSERT INTO] a table with a primary key *)
Definition insert_into {K V} `{Countable K} (k : K) (v : V) (m : gmap K V) : rresult (gmap K V) :=
  _ ← constraint (negb (has k m)); Ok (<[k := v]> m).

Definition meta_checks (m : MetaRow) : bool :=
  bool_decide (m_protocol m = "otmp") && blob 16 (m_table_id m) && (0 <=? m_table_version m) && blob 32 (m_semantic_state m)
  && blob 16 (m_last_commit_id m) && blob 32 (m_last_commit_sha256 m) && (0 <=? m_last_sequence_number m)
  && (0 <? m_current_schema_id m) && (0 <=? m_default_partition_spec_id m) && (0 <=? m_default_sort_order_id m).
Definition insert_meta (m : MetaRow) (d : Db) : rresult Db :=
  _ ← constraint (negb (bool_decide (is_Some (db_meta d))) && meta_checks m); Ok (set_meta (Some m) d).
(** [UPDATE otmp_meta SET ..], which has at most one row *)
Definition update_meta (f : MetaRow -> MetaRow) (d : Db) : rresult Db :=
  match db_meta d with
  | None => Ok d
  | Some m => _ ← constraint (meta_checks (f m)); Ok (set_meta (Some (f m)) d)
  end.

Definition commit_checks (version : Z) (c : CommitRow) : bool :=
  (0 <=? version) && blob 16 (k_commit_id c) && (0 <? k_intent_count c) && blob 32 (k_semantic_state c) && blob 32 (k_object_sha256 c)
  && ((version =? 0) && bool_decide (k_parent_version c = None) || (0 <? version) && bool_decide (k_parent_version c = Some (version - 1))).
Definition insert_commit (version : Z) (c : CommitRow) (d : Db) : rresult Db :=
  _ ← constraint (commit_checks version c
        && negb (some_row (fun _ o => bool_decide (k_commit_id o = k_commit_id c) || bool_decide (k_semantic_state o = k_semantic_state c)) (db_commits d)));
  rows ← insert_into version c (db_commits d);
  Ok (set_commits rows d).

Definition insert_idempotency (key : string) (y : IdempotencyRow) (d : Db) : rresult Db :=
  _ ← constraint (blob 32 (y_intent_sha256 y) && blob 16 (y_commit_id y) && has (y_table_version y) (db_commits d)
        && some_row (fun _ c => bool_decide (k_commit_id c = y_commit_id y)) (db_commits d));
  rows ← insert_into key y (db_idempotency_rows d);
  Ok (set_idempotency_rows rows d).

(** [INSERT INTO otmp_properties .. ON CONFLICT(property_key) DO UPDATE] *)
Definition upsert_property (key : string) (p : PropertyRow) (d : Db) : rresult Db :=
  _ ← constraint (0 <=? o_updated_version p); Ok (set_properties (<[key := p]> (db_properties d)) d).
Definition delete_property (key : string) (d : Db) : rresult Db := Ok (set_properties (delete key (db_properties d)) d).

Definition insert_feature (name requirement : string) (version : Z) (d : Db) : rresult Db :=
  _ ← constraint (bool_decide (requirement ∈ ["reader"; "writer"; "both"]) && (0 <=? version));
  rows ← insert_into (name, requirement) version (db_features d);
  Ok (set_features rows d).

Definition insert_schema_row (id : Z) (s : SchemaRow) (d : Db) : rresult Db :=
  _ ← constraint ((0 <? id) && (0 <=? d_created_version s));
  rows ← insert_into id s (db_schemas d);
  Ok (set_schemas rows d).

(** [INSERT OR IGNORE INTO otmp_field_ids]: a row that breaks a constraint is
    skipped, but foreign keys are enforced. *)
Definition ignore_field_id (id first_schema version : Z) (d : Db) : rresult Db :=
  if has id (db_field_ids d) || (id <=? 0) || (version <? 0) then Ok d else
  _ ← constraint (has first_schema (db_schemas d));
  Ok (set_field_ids (<[id := (first_schema, version)]> (db_field_ids d)) d).

Definition insert_field_row (schema field : Z) (f : FieldRow) (d : Db) : rresult Db :=
  _ ← constraint ((0 <=? w_ordinal f) && ((w_required f =? 0) || (w_required f =? 1)) && has field (db_field_ids d)
        && negb (some_row (fun k o => (k.1 =? schema) && bool_decide (w_parent o = w_parent f) && bool_decide (w_name o = w_name f)) (db_field_rows d)));
  rows ← insert_into (schema, field) f (db_field_rows d);
  Ok (set_field_rows rows d).

Definition insert_identifier (schema ordinal field : Z) (d : Db) : rresult Db :=
  _ ← constraint ((0 <=? ordinal) && has schema (db_schemas d) && has field (db_field_ids d)
        && negb (some_row (fun k o => (k.1 =? schema) && (o =? field)) (db_identifiers d)));
  rows ← insert_into (schema, ordinal) field (db_identifiers d);
  Ok (set_identifiers rows d).

Definition insert_partition_spec (id version : Z) (d : Db) : rresult Db :=
  _ ← constraint ((0 <=? id) && (0 <=? version));
  rows ← insert_into id version (db_partition_specs d);
  Ok (set_partition_specs rows d).
Definition insert_sort_order (id version : Z) (d : Db) : rresult Db :=
  _ ← constraint ((0 <=? id) && (0 <=? version));
  rows ← insert_into id version (db_sort_orders d);
  Ok (set_sort_orders rows d).

Definition operation_names : list string := ["append"; "overwrite"; "rewrite"; "delete"; "update"; "merge"; "optimize"; "metadata"].
Definition insert_snapshot (id : bytes) (s : SnapshotRow) (d : Db) : rresult Db :=
  _ ← constraint (blob 16 id && (0 <? s_sequence s) && has (s_schema_id s) (db_schemas d)
        && has (s_partition_spec_id s) (db_partition_specs d) && has (s_sort_order_id s) (db_sort_orders d)
        && bool_decide (s_operation s ∈ operation_names) && (0 <? s_version s)
        && negb (some_row (fun _ o => s_sequence o =? s_sequence s) (db_snapshots d)));
  rows ← insert_into id s (db_snapshots d);
  Ok (set_snapshots rows d).
Definition insert_summary (snapshot : bytes) (key value : string) (d : Db) : rresult Db :=
  _ ← constraint (has snapshot (db_snapshots d));
  rows ← insert_into (snapshot, key) value (db_summaries d);
  Ok (set_summaries rows d).

Definition ref_checks (r : RefRow) : bool :=
  bool_decide (r_type r ∈ ["branch"; "tag"]) && (0 <=? r_created_version r) && (r_created_version r <=? r_updated_version r)
  && (bool_decide (r_type r = "branch") || bool_decide (is_Some (r_snapshot r))).
Definition insert_ref (name : string) (r : RefRow) (d : Db) : rresult Db :=
  _ ← constraint (ref_checks r);
  rows ← insert_into name r (db_refs d);
  Ok (set_refs rows d).
(** [UPDATE otmp_refs SET snapshot_id, updated_version WHERE ref_name = .. AND p],
    with the number of rows *)
Definition update_ref (name : string) (p : RefRow -> bool) (snapshot : bytes) (version : Z) (d : Db) : rresult (Z * Db) :=
  match db_refs d !! name with
  | Some r =>
    if p r then
      let r := {| r_type := r_type r; r_snapshot := Some snapshot; r_created_version := r_created_version r; r_updated_version := version |} in
      _ ← constraint (ref_checks r);
      Ok (1, set_refs (<[name := r]> (db_refs d)) d)
    else Ok (0, d)
  | None => Ok (0, d)
  end.
Definition delete_ref (name : string) (d : Db) : rresult Db :=
  _ ← constraint (negb (has name (db_refs d)) || negb (some_row (fun k _ => bool_decide (k.1 = name)) (db_live d)));
  Ok (set_refs (delete name (db_refs d)) d).

Definition file_checks (id : bytes) (f : FileRow) (d : Db) : bool :=
  blob 16 id && bool_decide (f_kind f ∈ ["data"; "position_delete"; "equality_delete"]) && (0 <=? f_size f) && (0 <=? f_records f)
  && has (f_schema_id f) (db_schemas d) && has (f_partition_spec_id f) (db_partition_specs d) && refers (f_sort_order_id f) (db_sort_orders d)
  && blob 32 (f_partition_hash f) && from_option (blob 32) true (f_sha256 f) && (0 <=? f_data_sequence f) && (0 <? f_file_sequence f)
  && has (f_created_snapshot f) (db_snapshots d) && (0 <? f_created_version f).
(** The two unique indexes: the URIs without an identity, and the pairs *)
Definition insert_file (id : bytes) (f : FileRow) (d : Db) : rresult Db :=
  _ ← constraint (file_checks id f d
        && negb (some_row (fun _ o => bool_decide (f_uri o = f_uri f) && bool_decide (f_object_identity o = f_object_identity f)) (db_files d)));
  rows ← insert_into id f (db_files d);
  Ok (set_files rows d).
Definition insert_metric (file : bytes) (field : Z) (q : MetricRow) (d : Db) : rresult Db :=
  _ ← constraint (has file (db_files d) && has field (db_field_ids d)
        && forallb (fun x => 0 <=? x) (omap id [q_column_size q; q_values q; q_nulls q; q_nans q; q_distinct q]));
  rows ← insert_into (file, field) q (db_metrics d);
  Ok (set_metrics rows d).
Definition insert_change (snapshot file : bytes) (kind : string) (d : Db) : rresult Db :=
  _ ← constraint (has snapshot (db_snapshots d) && has file (db_files d) && bool_decide (kind ∈ ["add"; "remove"])
        && negb (bool_decide ((snapshot, file, kind) ∈ db_changes d)));
  Ok (set_changes ({[(snapshot, file, kind)]} ∪ db_changes d) d).

Definition insert_live (name : string) (file : bytes) (l : LiveRow) (d : Db) : rresult Db :=
  _ ← constraint (has name (db_refs d) && has file (db_files d) && has (l_added_snapshot l) (db_snapshots d)
        && (0 <=? l_data_sequence l) && (0 <? l_file_sequence l));
  rows ← insert_into (name, file) l (db_live d);
  Ok (set_live rows d).
(** [DELETE FROM otmp_ref_live_files WHERE ref_name = ..] *)
Definition delete_live (name : string) (d : Db) : rresult Db :=
  Ok (set_live (filter (fun kv => kv.1.1 <> name) (db_live d)) d).

(** ** COMMIT *)

(** The deferred foreign keys of schemas, of fields to their schema and to the field
    above, of snapshots, and of refs *)
Definition deferred_schemas (d : Db) : bool := negb (some_row (fun _ s => negb (refers (d_parent s) (db_schemas d))) (db_schemas d)).
Definition deferred_fields (d : Db) : bool := negb (some_row (fun k _ => negb (has k.1 (db_schemas d))) (db_field_rows d)).
Definition deferred_field_parents (d : Db) : bool :=
  negb (some_row (fun k f => negb (refers (pair k.1 <$> w_parent f) (db_field_rows d))) (db_field_rows d)).
Definition deferred_snapshots (d : Db) : bool := negb (some_row (fun _ s => negb (refers (s_parent s) (db_snapshots d))) (db_snapshots d)).
Definition deferred_refs (d : Db) : bool := negb (some_row (fun _ r => negb (refers (r_snapshot r) (db_snapshots d))) (db_refs d)).
Definition commit (d : Db) : rresult Db :=
  _ ← constraint (deferred_schemas d && deferred_fields d && deferred_field_parents d && deferred_snapshots d && deferred_refs d); Ok d.
End statements.
