(* ===== verification/History.v ===== *)
(** Snapshots, their ancestry and the rebase of appends (otmp/src/runtime/history.rs,
    the queries of otmp/src/runtime.rs on a pinned image, and [Writer::ancestry] of
    otmp/src/sql_writer.rs). *)
From S2P Require Import Prelude Bytes Errors Values Scalars CanonicalJson PageTree Objects Database.

(** ** Reading columns *)

(** [id_from_blob] and [hash_from_blob] *)
Section columns.
Context `{HexCrate}.

Definition id_from_blob (b : bytes) : rresult Id :=
  _ ← reject (negb (len b =? 16)) (corrupt "invalid ID blob");
  of_protocol (id_try_from_bytes b).
Definition hash_from_blob (b : bytes) : rresult Sha256 :=
  _ ← reject (negb (len b =? 32)) (corrupt "invalid SHA-256 blob");
  Ok (MkSha256 b).
Definition nonnegative (value : Z) (name : string) : rresult Z := ok_or (try_uint 64 value) (corrupt ("negative " +:+ name)).
(** [map(..).transpose()] *)
Definition transpose {A B} (f : A -> rresult B) (o : option A) : rresult (option B) :=
  match o with Some a => b ← f a; Ok (Some b) | None => Ok None end.
End columns.

(** [ORDER BY] an integer primary key *)
Definition key_le {V} (a b : Z * V) : Prop := a.1 <= b.1.
#[export] Instance key_le_dec V : RelDecision (@key_le V).
Proof. intros a b. unfold key_le. apply _. Defined.
Definition by_key {V} (m : gmap Z V) : list (Z * V) := merge_sort key_le (map_to_list m).

(** ** Refs *)

Inductive RefType := Branch | Tag.
#[export] Instance ref_type_eq_dec : EqDecision RefType.
Proof. solve_decision. Defined.
Definition ref_type_str (t : RefType) : string := match t with Branch => "branch" | Tag => "tag" end.

(** ** Snapshots *)

Record SnapshotDescriptor := {
  sd_snapshot_id : Id; sd_parent_snapshot_id : option Id; sd_sequence_number : Z; sd_committed_table_version : Z;
  sd_schema_id : Z; sd_partition_spec_id : Z; sd_sort_order_id : Z; sd_operation : string; sd_committed_at_ms : Z;
  sd_summary : cvalue; sd_metadata : cvalue }.

Inductive SnapshotSelection :=
| SelectRef (name : string)
| SelectSnapshotId (id : Id)
| SelectSequenceNumber (sequence : Z).

Record LiveFile := {
  lf_file_id : Id; lf_uri : RelativeUri; lf_file_format : string; lf_file_size_bytes : Z; lf_record_count : Z;
  lf_content_sha256 : option Sha256; lf_sequence_number : Z }.

Section history.
Context `{HexCrate, SqlEngine, SerdeJson} `{FromJson (list cvalue)}.

Definition ref_row (d : Db) (name : string) : rresult (option (RefType * option Id)) :=
  transpose (fun r =>
    kind ← (if bool_decide (r_type r = "branch") then Ok Branch else if bool_decide (r_type r = "tag") then Ok Tag
            else Err (corrupt "invalid ref type"));
    id ← transpose id_from_blob (r_snapshot r);
    Ok (kind, id)) (db_refs d !! name).

(** [r.get] of a column into a u32 *)
Definition get_u32 (z : Z) : rresult Z := ok_or (try_uint 32 z) (sql_failure "integer out of range").

Definition descriptor (d : Db) (id : Id) : rresult SnapshotDescriptor :=
  s ← ok_or (db_snapshots d !! id_bytes id) RuntimeError.SnapshotNotFound;
  schema ← get_u32 (s_schema_id s);
  spec ← get_u32 (s_partition_spec_id s);
  order ← get_u32 (s_sort_order_id s);
  parent ← transpose id_from_blob (s_parent s);
  sequence ← nonnegative (s_sequence s) "sequence";
  version ← nonnegative (s_version s) "version";
  summary ← of_protocol (parse_canonical (as_bytes (s_summary s)));
  metadata ← of_protocol (parse_canonical (as_bytes (s_metadata s)));
  Ok {| sd_snapshot_id := id; sd_parent_snapshot_id := parent; sd_sequence_number := sequence; sd_committed_table_version := version;
        sd_schema_id := schema; sd_partition_spec_id := spec; sd_sort_order_id := order; sd_operation := s_operation s;
        sd_committed_at_ms := s_committed_at_ms s; sd_summary := summary; sd_metadata := metadata |}.

(** The loop of the two [ancestry] functions: [step] reads the snapshot, checks its
    sequence number against the last one and returns its parent and its number.
    The snapshots seen are those of the chain. [None] when the fuel runs out. *)
Fixpoint ancestry_loop (fuel : nat) (step : Id -> Z -> rresult (option Id * Z)) (tip : option Id) (last : Z) (chain : list Id) : option (rresult (list Id)) :=
  match tip, fuel with
  | None, _ => Some (Ok chain)
  | Some id, O => None
  | Some id, S fuel =>
    match (_ ← reject (bool_decide (id ∈ chain)) (corrupt "snapshot ancestry cycle"); step id last) with
    | Err e => Some (Err e)
    | Ok (parent, sequence) => ancestry_loop fuel step parent sequence (chain ++ [id])
    end
  end.
(** Every round takes another row of the table, so one round more than its size is
    enough: that the loop never runs out of fuel is proved. *)
Definition ancestry_fuel (d : Db) : nat := S (size (db_snapshots d)).
Definition within_fuel {A} (m : option (rresult A)) : rresult A := default (Err (corrupt "out of fuel")) m.

Definition ancestry_step (d : Db) (id : Id) (last : Z) : rresult (option Id * Z) :=
  snapshot ← map_err (fun e => match e with RuntimeError.SnapshotNotFound => corrupt "dangling snapshot ancestry" | other => other end) (descriptor d id);
  _ ← reject (last <=? sd_sequence_number snapshot) (corrupt "nondecreasing snapshot ancestry");
  Ok (sd_parent_snapshot_id snapshot, sd_sequence_number snapshot).
Definition ancestry (d : Db) (tip : option Id) : rresult (list Id) :=
  within_fuel (ancestry_loop (ancestry_fuel d) (ancestry_step d) tip (2 ^ 64 - 1) []).

(** [Writer::ancestry] *)
Definition writer_step (d : Db) (id : Id) (last : Z) : rresult (option Id * Z) :=
  s ← row (db_snapshots d !! id_bytes id);
  _ ← reject ((s_sequence s <=? 0) || (last <=? s_sequence s)) (corrupt "nondecreasing snapshot ancestry");
  parent ← transpose (fun b => _ ← reject (negb (len b =? 16)) (corrupt "invalid snapshot ID"); of_protocol (id_try_from_bytes b)) (s_parent s);
  Ok (parent, s_sequence s).
Definition writer_ancestry (d : Db) (tip : option Id) : rresult (list Id) :=
  within_fuel (ancestry_loop (ancestry_fuel d) (writer_step d) tip (2 ^ 64 - 1) []).

(** [PinnedTable::resolve_snapshot] *)
Definition resolve_snapshot (d : Db) (selection : SnapshotSelection) : rresult (option SnapshotDescriptor) :=
  id ← match selection with
       | SelectRef name => r ← ref_row d name; r ← ok_or r (RuntimeError.RefNotFound name); Ok r.2
       | SelectSnapshotId id => Ok (Some id)
       | SelectSequenceNumber sequence =>
         sequence ← ok_or (if sequence <? 2 ^ 63 then Some sequence else None) RuntimeError.SnapshotNotFound;
         match filter (fun kv => s_sequence kv.2 = sequence) (map_to_list (db_snapshots d)) with
         | [] => Err RuntimeError.SnapshotNotFound
         | [kv] => id ← id_from_blob kv.1; Ok (Some id)
         | _ => Err (corrupt "duplicate snapshot sequence")
         end
       end;
  transpose (descriptor d) id.

(** ** Files *)

(** [SELECT file_id FROM otmp_snapshot_file_changes WHERE snapshot_id AND kind = 'add'] *)
Definition added_files (d : Db) (snapshot : bytes) : list bytes :=
  omap (fun c => if bool_decide (c.1.1 = snapshot) && bool_decide (c.2 = "add") then Some c.1.2 else None) (elements (db_changes d)).

Definition live_file (id : bytes) (f : FileRow) (sequence : Z) : rresult LiveFile :=
  file_id ← id_from_blob id;
  uri ← of_protocol (relative_uri_from_str (f_uri f));
  length ← nonnegative (f_size f) "length";
  records ← nonnegative (f_records f) "record count";
  sha ← transpose hash_from_blob (f_sha256 f);
  sequence ← nonnegative sequence "sequence";
  Ok {| lf_file_id := file_id; lf_uri := uri; lf_file_format := f_format f; lf_file_size_bytes := length; lf_record_count := records;
        lf_content_sha256 := sha; lf_sequence_number := sequence |}.

(** [ORDER BY file_sequence_number, file_id] *)
Definition file_le (a b : Z * bytes) : Prop := a.1 < b.1 \/ a.1 = b.1 /\ bytes_cmp a.2 b.2 <> Gt.
#[export] Instance file_le_dec : RelDecision file_le.
Proof. intros a b. unfold file_le. apply _. Defined.
Definition live_key (f : LiveFile) : Z * bytes := (lf_sequence_number f, id_bytes (lf_file_id f)).
Definition live_le (a b : LiveFile) : Prop := file_le (live_key a) (live_key b).
#[export] Instance live_le_dec : RelDecision live_le.
Proof. intros a b. unfold live_le. apply _. Defined.

(** The rows of the join of files, changes and snapshots for one snapshot. *)
Definition snapshot_rows (d : Db) (snapshot : Id) : list (bytes * FileRow * Z) :=
  match db_snapshots d !! id_bytes snapshot with
  | Some s => omap (fun id => f ← db_files d !! id; Some (id, f, s_sequence s)) (added_files d (id_bytes snapshot))
  | None => []
  end.

(** [ResolvedSnapshot::files] of the snapshot [tip] *)
Definition snapshot_files (d : Db) (tip : option Id) : rresult (list LiveFile) :=
  chain ← ancestry d tip;
  files ← try_fold (fun files id =>
    new ← collect (fun r => live_file r.1.1 r.1.2 r.2) (snapshot_rows d id);
    Ok (files ++ new)) [] chain;
  Ok (merge_sort live_le files).

(** [PinnedTable::files]: the rows of the view otmp_live_files of one branch, in order *)
Definition row_key (r : bytes * FileRow) : Z * bytes := (f_file_sequence r.2, r.1).
Definition row_le (a b : bytes * FileRow) : Prop := file_le (row_key a) (row_key b).
#[export] Instance row_le_dec : RelDecision row_le.
Proof. intros a b. unfold row_le. apply _. Defined.
Definition live_rows (d : Db) (name : string) : list (bytes * FileRow) :=
  omap (fun kv => if bool_decide (kv.1.1 = name) then f ← db_files d !! kv.1.2; Some (kv.1.2, f) else None) (map_to_list (db_live d)).
Definition branch_files (d : Db) (name : string) : rresult (list LiveFile) :=
  _ ← reject (match db_refs d !! name with Some r => negb (bool_decide (r_type r = "branch")) | None => true end) (RuntimeError.RefNotFound name);
  collect (fun r => live_file r.1 r.2 (f_file_sequence r.2)) (merge_sort row_le (live_rows d name)).

(** ** Rebasing an append *)

(** One operation of a commit since the base. *)
Definition rebase_operation (name : string) (operation : cvalue) : rresult unit :=
  match operation with
  | CanonicalValue.Object fields =>
    _ ← reject (bool_decide (bt_get "ref" fields = Some (CanonicalValue.String name))
                && negb (bool_decide (bt_get "type" fields = Some (CanonicalValue.String "commit_snapshot"))))
          (RuntimeError.SemanticConflict "target ref changed during append");
    reject (bool_decide (bt_get "type" fields = Some (CanonicalValue.String "set_current_schema")))
      (RuntimeError.SemanticConflict "current schema changed during append")
  | _ => Ok tt
  end.
Definition rebase_commit (name : string) (c : CommitRow) : rresult unit :=
  operations ← of_protocol (from_slice_canonical (T := list cvalue) (as_bytes (k_operations c)));
  try_fold (fun _ operation => rebase_operation name operation) tt operations.

Definition validate_append_rebase (parent : Db) (name : string) (original : option (RefType * option Id)) (version : Z) : rresult unit :=
  match original with
  | Some (Branch, old) =>
    r ← ref_row parent name;
    match r with
    | Some (Branch, current) =>
      chain ← ancestry parent current;
      _ ← reject (match old with Some id => negb (bool_decide (id ∈ chain)) | None => false end)
            (RuntimeError.SemanticConflict "target is not an append descendant");
      _ ← reject (2 ^ 63 <=? version) (corrupt "version overflow");
      try_fold (fun _ kv => rebase_commit name kv.2) tt (filter (fun kv => version < kv.1) (by_key (db_commits parent)))
    | _ => Err (RuntimeError.SemanticConflict "append target removed")
    end
  | _ => Err (RuntimeError.SemanticConflict "append target was not a branch")
  end.
End history.
