(* ===== verification/SchemaRows.v ===== *)
(** Schemas as rows (otmp/src/image.rs): a schema with its nested fields is written
    field by field, read back from the rows of its top level, and the rows of an
    image are checked against each other. *)
From S2P Require Import Prelude Bytes Errors Values Scalars CanonicalJson Schema PageTree Objects Database History.

(** ** Equality as Rust derives it *)

(** Floats compare as IEEE-754 numbers: a NaN differs from itself. *)
Definition scalar_eqb (a b : scalar) : bool :=
  match a, b with
  | TypedScalar.Float32 x, TypedScalar.Float32 y => bool_decide (f32_partial_cmp x y = Some Eq)
  | TypedScalar.Float64 x, TypedScalar.Float64 y => bool_decide (f64_partial_cmp x y = Some Eq)
  | _, _ => bool_decide (a = b)
  end.
Definition option_eqb {A} (eqb : A -> A -> bool) (a b : option A) : bool :=
  match a, b with
  | Some a, Some b => eqb a b
  | None, None => true
  | _, _ => false
  end.

Fixpoint field_eqb (a b : Field) {struct a} : bool :=
  match a, b with
  | MkField id name required ty doc initial write, MkField id' name' required' ty' doc' initial' write' =>
    (id =? id') && bool_decide (name = name') && Bool.eqb required required' && type_eqb ty ty' && bool_decide (doc = doc')
    && option_eqb scalar_eqb initial initial' && option_eqb scalar_eqb write write'
  end
with type_eqb (a b : LogicalType) {struct a} : bool :=
  match a, b with
  | TBoolean, TBoolean | TInt32, TInt32 | TInt64, TInt64 | TFloat32, TFloat32 | TFloat64, TFloat64 | TDate, TDate
  | TTimeMicros, TTimeMicros | TTimestampMicros, TTimestampMicros | TTimestamptzMicros, TTimestamptzMicros
  | TString, TString | TBinary, TBinary | TUuid, TUuid => true
  | TDecimal p s, TDecimal p' s' => (p =? p') && (s =? s')
  | TFixed n, TFixed n' => n =? n'
  | TStruct l, TStruct l' =>
    (fix go (l l' : list Field) : bool :=
       match l, l' with
       | [], [] => true
       | f :: l, f' :: l' => field_eqb f f' && go l l'
       | _, _ => false
       end) l l'
  | TList e, TList e' => field_eqb e e'
  | TMap k v, TMap k' v' => field_eqb k k' && field_eqb v v'
  | _, _ => false
  end.

(** ** Writing *)

Definition sqlite_i64 (value : Z) (name : string) : rresult Z :=
  ok_or (if value <? 2 ^ 63 then Some value else None) (RuntimeError.InvalidAppend (name +:+ " exceeds SQLite INTEGER")).

Section rows.
Context `{HexCrate, SqlEngine, SerdeJson} `{ToJson LogicalType, FromJson LogicalType, ToJson scalar, FromJson scalar}.

(** The message of a UTF-8 error is not modelled. *)
Definition canonical_string {T} `{ToJson T} (value : T) : rresult string :=
  b ← of_protocol (to_vec value);
  _ ← reject (negb (utf8_valid b)) (corrupt "invalid utf-8 sequence");
  Ok (string_of_list_byte b).
Definition optional_canonical (value : option scalar) : rresult (option string) := transpose canonical_string value.

(** The loop of [insert_fields], given what one round does. *)
Definition insert_siblings (one : Z -> Field -> Db -> rresult Db) : Z -> list Field -> Db -> rresult Db :=
  fix go (ordinal : Z) (fields : list Field) (d : Db) : rresult Db :=
    match fields with
    | [] => Ok d
    | f :: fields => d ← one ordinal f d; go (ordinal + 1) fields d
    end.

(** One round, at position [ordinal] under [parent]: a field with the fields below it. *)
Fixpoint insert_field (schema version : Z) (parent : option Z) (ordinal : Z) (f : Field) (d : Db) {struct f} : rresult Db :=
  let '(MkField id name required ty doc initial write) := f in
  version_i64 ← sqlite_i64 version "field version";
  d ← ignore_field_id id schema version_i64 d;
  ordinal_i64 ← ok_or (if ordinal <? 2 ^ 63 then Some ordinal else None) (RuntimeError.InvalidAppend "field ordinal overflow");
  type_json ← canonical_string ty;
  initial ← optional_canonical initial;
  write ← optional_canonical write;
  d ← insert_field_row schema id
        {| w_parent := parent; w_name := name; w_ordinal := ordinal_i64; w_required := if required then 1 else 0; w_type := type_json;
           w_doc := doc; w_initial_default := initial; w_write_default := write |} d;
  match ty with
  | TStruct fields => insert_siblings (insert_field schema version (Some id)) 0 fields d
  | TList element => insert_field schema version (Some id) 0 element d
  | TMap key value =>
    d ← insert_field schema version (Some id) 0 key d;
    insert_field schema version (Some id) 1 value d
  | _ => Ok d
  end.
Definition insert_fields (schema version : Z) (parent : option Z) : list Field -> Db -> rresult Db :=
  insert_siblings (insert_field schema version parent) 0.

Fixpoint insert_identifiers (schema ordinal : Z) (ids : list Z) (d : Db) : rresult Db :=
  match ids with
  | [] => Ok d
  | id :: ids =>
    ordinal_i64 ← ok_or (if ordinal <? 2 ^ 63 then Some ordinal else None) (RuntimeError.InvalidAppend "identifier ordinal overflow");
    d ← insert_identifier schema ordinal_i64 id d;
    insert_identifiers schema (ordinal + 1) ids d
  end.

Definition insert_schema (s : Schema) (version : Z) (d : Db) : rresult Db :=
  version_i64 ← sqlite_i64 version "schema version";
  d ← insert_schema_row (schema_id s) {| d_parent := parent_schema_id s; d_created_version := version_i64; d_doc := schema_doc s |} d;
  d ← insert_fields (schema_id s) version None (schema_fields s) d;
  insert_identifiers (schema_id s) 0 (identifier_field_ids s) d.

(** ** Reading *)

Record NormalizedField := { nf_parent : option Z; nf_ordinal : Z; nf_field : Field }.

Definition parse_optional_scalar (value : option string) : rresult (option scalar) :=
  transpose (fun v => of_protocol (from_slice_canonical (T := scalar) (as_bytes v))) value.

Definition normalize_row (id : Z) (r : FieldRow) : rresult (Z * NormalizedField) :=
  id ← ok_or (try_uint 32 id) (corrupt "invalid field ID");
  parent ← transpose (fun p => ok_or (try_uint 32 p) (corrupt "invalid parent field ID")) (w_parent r);
  ordinal ← ok_or (try_uint 32 (w_ordinal r)) (corrupt "invalid field ordinal");
  ty ← of_protocol (from_slice_canonical (T := LogicalType) (as_bytes (w_type r)));
  initial ← parse_optional_scalar (w_initial_default r);
  write ← parse_optional_scalar (w_write_default r);
  Ok (id, {| nf_parent := parent; nf_ordinal := ordinal;
             nf_field := MkField id (w_name r) (w_required r =? 1) ty (w_doc r) initial write |}).

(** [SELECT .. FROM otmp_fields WHERE schema_id ORDER BY field_id] *)
Definition field_rows_of (d : Db) (schema : Z) : list (Z * FieldRow) :=
  merge_sort key_le (omap (fun kv => if kv.1.1 =? schema then Some (kv.1.2, kv.2) else None) (map_to_list (db_field_rows d))).
Definition normalized_fields (d : Db) (schema : Z) : rresult (list (Z * NormalizedField)) :=
  collect (fun kv => normalize_row kv.1 kv.2) (field_rows_of d schema).

(** [sort_by_key(|row| row.ordinal)] *)
Definition ordinal_le (a b : NormalizedField) : Prop := nf_ordinal a <= nf_ordinal b.
#[export] Instance ordinal_le_dec : RelDecision ordinal_le.
Proof. intros a b. unfold ordinal_le. apply _. Defined.
Definition by_ordinal (l : list NormalizedField) : list NormalizedField := merge_sort ordinal_le l.

Definition roots (rows : list (Z * NormalizedField)) : list NormalizedField :=
  filter (fun r => nf_parent r = None) rows.*2.

(** [SELECT field_id FROM otmp_identifier_fields WHERE schema_id ORDER BY ordinal] *)
Definition identifier_rows (d : Db) (schema : Z) : list Z :=
  (merge_sort key_le (omap (fun kv => if kv.1.1 =? schema then Some (kv.1.2, kv.2) else None) (map_to_list (db_identifiers d)))).*2.

Definition read_schema (d : Db) (id : Z) : rresult Schema :=
  s ← row (db_schemas d !! id);
  parent ← transpose get_u32 (d_parent s);
  rows ← normalized_fields d id;
  identifiers ← collect get_u32 (identifier_rows d id);
  Ok {| schema_id := id; parent_schema_id := parent; schema_doc := d_doc s;
        schema_fields := map nf_field (by_ordinal (roots rows)); identifier_field_ids := identifiers |}.

(** ** Checking *)

(** The ordinals are 0, 1, ..., each once. *)
Definition assert_contiguous (rows : list NormalizedField) : rresult unit :=
  let ordinals := merge_sort Z.le (elements (list_to_set (map nf_ordinal rows) : gset Z)) in
  reject (negb (bool_decide (length ordinals = length rows)) || negb (bool_decide (ordinals = seqZ 0 (len ordinals))))
    (corrupt "field ordinals are not unique and contiguous").

Definition children (f : Field) : list Field :=
  match field_type f with
  | TStruct fields => fields
  | TList element => [element]
  | TMap key value => [key; value]
  | _ => []
  end.

(** The rows under a field are its children; then the children are checked. *)
Definition check_children (rows : list (Z * NormalizedField)) (f : Field) : rresult unit :=
  let actual := filter (fun r => nf_parent r = Some (field_id f)) rows.*2 in
  _ ← assert_contiguous actual;
  let actual := by_ordinal actual in
  reject (negb (bool_decide (length actual = length (children f)))
          || existsb (fun p => negb (field_eqb (nf_field p.1) p.2)) (zip actual (children f)))
    (corrupt "recursive type JSON disagrees with normalized field rows").
Fixpoint validate_normalized_children (rows : list (Z * NormalizedField)) (f : Field) {struct f} : rresult unit :=
  _ ← check_children rows f;
  match f with
  | MkField _ _ _ ty _ _ _ =>
    match ty with
    | TStruct fields =>
      (fix go (l : list Field) : rresult unit :=
         match l with
         | [] => Ok tt
         | f :: l => _ ← validate_normalized_children rows f; go l
         end) fields
    | TList element => validate_normalized_children rows element
    | TMap key value => _ ← validate_normalized_children rows key; validate_normalized_children rows value
    | _ => Ok tt
    end
  end.

Fixpoint collect_field_ids (f : Field) (output : gset Z) {struct f} : gset Z :=
  match f with
  | MkField id _ _ ty _ _ _ =>
    let output := {[id]} ∪ output in
    match ty with
    | TStruct fields => (fix go (l : list Field) (output : gset Z) : gset Z := match l with [] => output | f :: l => go l (collect_field_ids f output) end) fields output
    | TList element => collect_field_ids element output
    | TMap key value => collect_field_ids value (collect_field_ids key output)
    | _ => output
    end
  end.

Definition validate_schema_of (d : Db) (id : Z) (s : SchemaRow) : rresult unit :=
  id ← ok_or (try_uint 32 id) (corrupt "invalid schema ID");
  rows ← normalized_fields d id;
  _ ← assert_contiguous (roots rows);
  let root_fields := map nf_field (by_ordinal (roots rows)) in
  _ ← try_fold (fun _ f => validate_normalized_children rows f) tt root_fields;
  let reachable := foldl (fun output f => collect_field_ids f output) ∅ root_fields in
  _ ← reject (negb (bool_decide (size reachable = length rows)) || existsb (fun kv => negb (bool_decide (kv.1 ∈ reachable))) rows)
        (corrupt "normalized schema contains unreachable field rows");
  identifiers ← collect get_u32 (identifier_rows d id);
  parent ← transpose (fun p => ok_or (try_uint 32 p) (corrupt "invalid parent schema ID")) (d_parent s);
  of_protocol (validate_schema {| schema_id := id; parent_schema_id := parent; schema_fields := root_fields;
                                  identifier_field_ids := identifiers; schema_doc := d_doc s |}).
Definition validate_schemas (d : Db) : rresult unit := try_fold (fun _ kv => validate_schema_of d kv.1 kv.2) tt (by_key (db_schemas d)).
End rows.
