(* ===== verification/Transactions.v ===== *)
(** Metadata transactions (otmp/src/runtime/transactions.rs): the requirements on a
    pinned image, the preparation of operations, what they do to the tables, and the
    rules by which a schema may grow. *)
From S2P Require Import Prelude Bytes Errors Values Scalars CanonicalJson Hashes Schema PageTree ByteArray Objects Database History SchemaRows.

(** ** Data *)

Inductive Requirement :=
| PropertyIs (key : string) (value : cvalue)
| RefAbsent (name : string)
| RefExists (name : string) (ref_type : RefType)
| RefSnapshotIs (name : string) (snapshot_id : option Id)
| SnapshotExists (snapshot_id : Id)
| CurrentSchemaIs (schema_id : Z)
| SchemaIdAbsent (schema_id : Z)
| FieldIdsAbsent (field_ids : list Z)
| DefaultPartitionSpecIs (partition_spec_id : Z)
| DefaultSortOrderIs (sort_order_id : Z).
#[export] Instance requirement_eq_dec : EqDecision Requirement.
Proof. solve_decision. Defined.

Inductive OperationRequest :=
| SetProperties (operation_id : string) (updates : list (string * cvalue)) (removals : list string)
| CreateRef (operation_id name : string) (ref_type : RefType) (snapshot_id : option Id)
| ReplaceRef (operation_id name : string) (snapshot_id : Id)
| DropRef (operation_id name : string)
| AddSchema (operation_id : string) (schema : Schema)
| SetCurrentSchema (operation_id : string) (schema_id : Z).

Definition operation_id (o : OperationRequest) : string :=
  match o with
  | SetProperties id _ _ | CreateRef id _ _ _ | ReplaceRef id _ _ | DropRef id _ | AddSchema id _ | SetCurrentSchema id _ => id
  end.

Record TransactionRequest := {
  tr_idempotency_key : string; tr_requirements : list Requirement; tr_operations : list OperationRequest;
  tr_commit_metadata : list (string * cvalue) }.

Inductive OperationResult :=
| PropertiesResult (operation_id : string) (keys : list string)
| RefResult (operation_id name : string) (ref_type : RefType) (snapshot_id : option Id)
| SchemaResult (operation_id : string) (schema_id : Z).

Record DurableResult := { dr_table_version : Z; dr_commit_id : Id; dr_operation_results : list OperationResult }.

Definition invalid (message : string) : rerror := RuntimeError.InvalidTransaction message.

Definition required (request : TransactionRequest) (requirement : Requirement) : rresult unit :=
  reject (negb (bool_decide (length (filter (fun r => r = requirement) (tr_requirements request)) = 1%nat)))
    (invalid "operation requires exactly one matching precondition").

(** [char::is_control] on some character of a UTF-8 text: U+0000 to U+001F and
    U+007F to U+009F *)
Fixpoint has_control (l : bytes) : bool :=
  match l with
  | [] => false
  | b :: l =>
    byte_in 0 0x1F b || byte_in 0x7F 0x7F b
    || (byte_in 0xC2 0xC2 b && match l with c :: _ => byte_in 0x80 0x9F c | [] => false end) || has_control l
  end.

Definition string_le (a b : string) : Prop := String.compare a b <> Gt.
#[export] Instance string_le_dec : RelDecision string_le.
Proof. intros a b. unfold string_le. apply _. Defined.

Section transactions.
Context `{HexCrate, Sha2Crate, SqlEngine, SerdeJson} `{FromJson (list cvalue)}
  `{ToJson LogicalType, FromJson LogicalType, ToJson scalar, FromJson scalar} `{ToJson SemanticCommit, ToJson cvalue, ToJson (list cvalue),
    ToJson Requirement, ToJson OperationRequest, ToJson DurableResult}.
(** The derived [Debug] form of a requirement, part of a message *)
Context (requirement_debug : Requirement -> string).

(** [commit_body] of a commit that [serde] turns into [value] *)
Definition commit_body (commit : SemanticCommit) : rresult bytes :=
  value ← of_protocol (to_value commit);
  match value with
  | CanonicalValue.Object fields => of_protocol (CanonicalJson.encode (CanonicalValue.Object (bt_remove "semantic_state_sha256" fields)))
  | _ => Err (corrupt "commit did not encode as an object")
  end.
Definition with_state (state : Sha256) (c : SemanticCommit) : SemanticCommit :=
  {| sc_kind := sc_kind c; sc_format_version := sc_format_version c; sc_table_id := sc_table_id c; sc_table_version := sc_table_version c;
     sc_parent_table_version := sc_parent_table_version c; sc_commit_id := sc_commit_id c; sc_parent_commit := sc_parent_commit c;
     sc_created_at_ms := sc_created_at_ms c; sc_intents := sc_intents c; sc_requirements := sc_requirements c;
     sc_operations := sc_operations c;
     sc_required_reader_features_after_commit := sc_required_reader_features_after_commit c;
     sc_required_writer_features_after_commit := sc_required_writer_features_after_commit c;
     sc_previous_semantic_state_sha256 := sc_previous_semantic_state_sha256 c; sc_semantic_state_sha256 := state;
     sc_metadata := sc_metadata c |}.

(** ** Requirements *)

Definition meta_row (d : Db) : rresult MetaRow := row (db_meta d).

(** The loop over the identifiers of [FieldIdsAbsent] *)
Definition field_id_absent (d : Db) (absent : gset Z) (id : Z) : rresult (gset Z) :=
  _ ← reject ((id =? 0) || bool_decide (id ∈ absent) || has id (db_field_ids d))
        (RuntimeError.SemanticConflict "field ID already exists or is invalid");
  Ok ({[id]} ∪ absent).

Definition matched (d : Db) (requirement : Requirement) : rresult bool :=
  match requirement with
  | PropertyIs key value =>
    match db_properties d !! key with
    | None => Ok (bool_decide (value = CanonicalValue.Null))
    | Some actual => actual ← of_protocol (parse_canonical (as_bytes (o_value actual))); Ok (bool_decide (actual = value))
    end
  | RefAbsent name => r ← ref_row d name; Ok (negb (bool_decide (is_Some r)))
  | RefExists name ref_type => r ← ref_row d name; Ok (from_option (fun r => bool_decide (r.1 = ref_type)) false r)
  | RefSnapshotIs name snapshot_id => r ← ref_row d name; Ok (from_option (fun r => bool_decide (r.2 = snapshot_id)) false r)
  | SnapshotExists snapshot_id => Ok (has (id_bytes snapshot_id) (db_snapshots d))
  | CurrentSchemaIs schema_id => m ← meta_row d; Ok (m_current_schema_id m =? schema_id)
  | SchemaIdAbsent schema_id => Ok (negb (has schema_id (db_schemas d)))
  | FieldIdsAbsent field_ids => _ ← try_fold (field_id_absent d) ∅ field_ids; Ok true
  | DefaultPartitionSpecIs spec => m ← meta_row d; Ok (m_default_partition_spec_id m =? spec)
  | DefaultSortOrderIs order => m ← meta_row d; Ok (m_default_sort_order_id m =? order)
  end.

Definition evaluate (d : Db) (requirements : list Requirement) : rresult unit :=
  try_fold (fun _ requirement =>
    matched ← matched d requirement;
    reject (negb matched) (RuntimeError.SemanticConflict ("requirement failed: " +:+ requirement_debug requirement))) tt requirements.

(** ** Growing a schema *)

Fixpoint collect_new_field (f : Field) (ids : gset Z) {struct f} : rresult (gset Z) :=
  match f with
  | MkField id _ required ty _ _ _ =>
    _ ← reject required (invalid "new fields must be optional");
    let ids := {[id]} ∪ ids in
    match ty with
    | TStruct fields =>
      (fix go (l : list Field) (ids : gset Z) : rresult (gset Z) :=
         match l with [] => Ok ids | f :: l => ids ← collect_new_field f ids; go l ids end) fields ids
    | TList element => collect_new_field element ids
    | TMap key value => ids ← collect_new_field key ids; collect_new_field value ids
    | _ => Ok ids
    end
  end.

(** [additive_fields], given how a pair of fields is compared *)
Definition additive_list (compare : Field -> Field -> gset Z -> rresult (gset Z)) : list Field -> list Field -> gset Z -> rresult (gset Z) :=
  fun old new ids =>
  _ ← reject (len new <? len old) (invalid "field removal");
  (fix go (old new : list Field) (ids : gset Z) {struct old} : rresult (gset Z) :=
     match old, new with
     | a :: old, b :: new => ids ← compare a b ids; go old new ids
     | [], new => try_fold (fun ids f => collect_new_field f ids) ids new
     | _ :: _, [] => Ok ids
     end) old new ids.

(** [b] with the type of [a] *)
Definition comparable (a b : Field) : Field :=
  MkField (field_id b) (field_name b) (field_required b) (field_type a) (field_doc b) (initial_default b) (write_default b).

Fixpoint additive_field (a b : Field) (ids : gset Z) {struct a} : rresult (gset Z) :=
  _ ← reject (negb (field_eqb a (comparable a b))) (invalid "existing field changed or reordered");
  match a with
  | MkField _ _ _ ty _ _ _ =>
    match ty, field_type b with
    | TStruct la, TStruct lb => additive_list additive_field la lb ids
    | TList a, TList b => additive_list (fun _ b ids => additive_field a b ids) [a] [b] ids
    | TMap ak av, TMap bk bv =>
      if field_eqb ak bk then additive_list (fun _ b ids => additive_field av b ids) [av] [bv] ids
      else Err (invalid "type change is not additive")
    | a, b => if type_eqb a b then Ok ids else Err (invalid "type change is not additive")
    end
  end.
Definition additive_fields : list Field -> list Field -> gset Z -> rresult (gset Z) := additive_list additive_field.

Definition additive_schema (old new : Schema) : rresult (list Z) :=
  _ ← of_protocol (validate_schema new);
  _ ← reject (negb (bool_decide (parent_schema_id new = Some (schema_id old)))
              || negb (bool_decide (identifier_field_ids new = identifier_field_ids old))) (invalid "schema parent or identifiers changed");
  ids ← additive_fields (schema_fields old) (schema_fields new) ∅;
  Ok (merge_sort Z.le (elements ids)).

(** ** Preparing operations *)

Record Prepared := {
  pr_ids : list string; pr_keys : list string; pr_refs : list string; pr_add_schema : bool; pr_set_schema : bool;
  pr_results : list OperationResult }.

Definition validate_ref_name (name : string) (refs : list string) : rresult (list string) :=
  _ ← reject ((str_len name =? 0) || has_control (as_bytes name) || bool_decide (name ∈ refs)) (invalid "invalid or repeated ref name");
  Ok (name :: refs).

(** One key of the loop over [updates.keys().chain(removals.iter())] *)
Definition touch_key (request : TransactionRequest) (keys : list string) (key : string) : rresult (list string) :=
  _ ← reject ((str_len key =? 0) || String.prefix "otmp." key || bool_decide (key ∈ keys))
        (invalid "reserved, empty, overlapping, or repeated property key");
  _ ← reject (negb (bool_decide (length (List.filter (fun r => match r with PropertyIs k _ => String.eqb k key | _ => false end) (tr_requirements request)) = 1%nat)))
        (invalid "each property key requires exactly one property_is");
  Ok (key :: keys).

(** The preparation of an operation: the sets [keys], [refs] and the two flags, and
    the result. *)
Definition prepare_operation (d : Db) (request : TransactionRequest) (p : Prepared) (operation : OperationRequest) : rresult Prepared :=
  let id := operation_id operation in
  _ ← reject ((str_len id =? 0) || bool_decide (id ∈ pr_ids p)) (invalid "operation IDs must be nonempty and unique");
  let done keys refs add_schema set_schema result :=
    Ok {| pr_ids := id :: pr_ids p; pr_keys := keys; pr_refs := refs; pr_add_schema := add_schema; pr_set_schema := set_schema;
          pr_results := pr_results p ++ [result] |} in
  let done_ref name result := refs ← validate_ref_name name (pr_refs p); done (pr_keys p) refs (pr_add_schema p) (pr_set_schema p) result in
  match operation with
  | SetProperties _ updates removals =>
    _ ← reject (existsb (fun kv => bool_decide (kv.2 = CanonicalValue.Null)) updates) (invalid "top-level null property value");
    let touched := updates.*1 ++ removals in
    keys ← try_fold (touch_key request) (pr_keys p) touched;
    done keys (pr_refs p) (pr_add_schema p) (pr_set_schema p) (PropertiesResult id (merge_sort string_le touched))
  | CreateRef _ name ref_type snapshot_id =>
    _ ← required request (RefAbsent name);
    _ ← reject (bool_decide (ref_type = Tag) && negb (bool_decide (is_Some snapshot_id))) (invalid "tags require a snapshot");
    _ ← match snapshot_id with Some snapshot => required request (SnapshotExists snapshot) | None => Ok tt end;
    done_ref name (RefResult id name ref_type snapshot_id)
  | ReplaceRef _ name snapshot_id =>
    r ← ref_row d name;
    r ← ok_or r (RuntimeError.RefNotFound name);
    _ ← required request (RefExists name Branch);
    _ ← required request (RefSnapshotIs name r.2);
    _ ← required request (SnapshotExists snapshot_id);
    done_ref name (RefResult id name Branch (Some snapshot_id))
  | DropRef _ name =>
    _ ← reject (bool_decide (name = "main")) (invalid "main cannot be dropped");
    r ← ref_row d name;
    r ← ok_or r (RuntimeError.RefNotFound name);
    _ ← required request (RefExists name r.1);
    _ ← required request (RefSnapshotIs name r.2);
    done_ref name (RefResult id name r.1 r.2)
  | AddSchema _ schema =>
    _ ← reject (pr_add_schema p) (invalid "only one add_schema is supported");
    m ← meta_row d;
    current ← get_u32 (m_current_schema_id m);
    _ ← required request (CurrentSchemaIs current);
    _ ← required request (SchemaIdAbsent (schema_id schema));
    old ← read_schema d current;
    new_ids ← additive_schema old schema;
    match omap (fun r => match r with FieldIdsAbsent field_ids => Some field_ids | _ => None end) (tr_requirements request) with
    | [] => Err (invalid "field_ids_absent required")
    | actual :: rest =>
      _ ← reject (negb (bool_decide (rest = [])) || negb (bool_decide (merge_sort Z.le actual = new_ids)))
            (invalid "field_ids_absent must cover exactly all new IDs");
      done (pr_keys p) (pr_refs p) true (pr_set_schema p) (SchemaResult id (schema_id schema))
    end
  | SetCurrentSchema _ schema_id =>
    _ ← reject (pr_set_schema p) (invalid "only one set_current_schema is supported");
    m ← meta_row d;
    current ← get_u32 (m_current_schema_id m);
    _ ← required request (CurrentSchemaIs current);
    done (pr_keys p) (pr_refs p) (pr_add_schema p) true (SchemaResult id schema_id)
  end.

Definition prepare_operations (d : Db) (request : TransactionRequest) : rresult (list OperationResult) :=
  _ ← reject ((str_len (tr_idempotency_key request) =? 0) || bool_decide (tr_idempotency_key request = "otmp.genesis")
              || bool_decide (tr_operations request = [])) (invalid "nonempty key and operations required");
  _ ← evaluate d (tr_requirements request);
  p ← try_fold (prepare_operation d request)
        {| pr_ids := []; pr_keys := []; pr_refs := []; pr_add_schema := false; pr_set_schema := false; pr_results := [] |} (tr_operations request);
  Ok (pr_results p).

(** ** Applying operations *)

(** [INSERT INTO otmp_ref_live_files SELECT ..] for one snapshot *)
Definition insert_live_of (name : string) (d : Db) (snapshot : Id) : rresult Db :=
  match db_snapshots d !! id_bytes snapshot with
  | Some s =>
    try_fold (fun d file => insert_live name file {| l_added_snapshot := id_bytes snapshot; l_data_sequence := s_sequence s; l_file_sequence := s_sequence s |} d)
      d (added_files d (id_bytes snapshot))
  | None => Ok d
  end.
Definition materialize_branch (name : string) (snapshot : option Id) (d : Db) : rresult Db :=
  d ← delete_live name d;
  chain ← writer_ancestry d snapshot;
  try_fold (insert_live_of name) d chain.

Definition apply_operation (version : Z) (d : Db) (operation : OperationRequest) : rresult Db :=
  match operation with
  | SetProperties _ updates removals =>
    d ← try_fold (fun d kv =>
      value ← canonical_string kv.2;
      upsert_property kv.1 {| o_value := value; o_updated_version := version |} d) d updates;
    try_fold (fun d key => delete_property key d) d removals
  | CreateRef _ name ref_type snapshot_id =>
    d ← insert_ref name {| r_type := ref_type_str ref_type; r_snapshot := id_bytes <$> snapshot_id; r_created_version := version;
                           r_updated_version := version |} d;
    if bool_decide (ref_type = Branch) then materialize_branch name snapshot_id d else Ok d
  | ReplaceRef _ name snapshot_id =>
    '(_, d) ← update_ref name (fun _ => true) (id_bytes snapshot_id) version d;
    materialize_branch name (Some snapshot_id) d
  | DropRef _ name => d ← delete_live name d; delete_ref name d
  | AddSchema _ schema => insert_schema schema version d
  | SetCurrentSchema _ schema_id =>
    _ ← map_err (fun _ => invalid "selected schema must already exist in operation order") (row (db_schemas d !! schema_id));
    update_meta (fun m =>
      {| m_protocol := m_protocol m; m_protocol_version := m_protocol_version m; m_table_id := m_table_id m; m_table_version := m_table_version m;
         m_semantic_state := m_semantic_state m; m_last_commit_id := m_last_commit_id m; m_last_commit_sha256 := m_last_commit_sha256 m;
         m_last_sequence_number := m_last_sequence_number m; m_current_schema_id := schema_id;
         m_default_partition_spec_id := m_default_partition_spec_id m; m_default_sort_order_id := m_default_sort_order_id m;
         m_created_at_ms := m_created_at_ms m; m_reader_features := m_reader_features m; m_writer_features := m_writer_features m;
         m_metadata := m_metadata m |}) d
  end.
Definition apply_operations (operations : list OperationRequest) (version : Z) (d : Db) : rresult Db :=
  version ← ok_or (if version <? 2 ^ 63 then Some version else None) (invalid "version exhausted");
  try_fold (apply_operation version) d operations.

(** [UPDATE otmp_meta SET table_version, semantic_state_sha256, last_commit_id, last_commit_sha256] *)
Definition advance_meta (version : Z) (semantic_state commit_id commit_hash : bytes) (sequence : option Z) (m : MetaRow) : MetaRow :=
  {| m_protocol := m_protocol m; m_protocol_version := m_protocol_version m; m_table_id := m_table_id m; m_table_version := version;
     m_semantic_state := semantic_state; m_last_commit_id := commit_id; m_last_commit_sha256 := commit_hash;
     m_last_sequence_number := default (m_last_sequence_number m) sequence; m_current_schema_id := m_current_schema_id m;
     m_default_partition_spec_id := m_default_partition_spec_id m; m_default_sort_order_id := m_default_sort_order_id m;
     m_created_at_ms := m_created_at_ms m; m_reader_features := m_reader_features m; m_writer_features := m_writer_features m;
     m_metadata := m_metadata m |}.

(** [image::mutate_metadata], up to the COMMIT that follows it in [finish_turso].
    The commits that reach it have one intent. *)
Definition mutate_metadata (commit : SemanticCommit) (uri : RelativeUri) (operations : list OperationRequest) (d : Db) : rresult Db :=
  d ← apply_operations operations (sc_table_version commit) d;
  b ← of_protocol (to_vec commit);
  let hash := object_hash b in
  version ← sqlite_i64 (sc_table_version commit) "version";
  intent ← ok_or (head (sc_intents commit)) (corrupt "index out of bounds");
  result ← canonical_string (ir_result intent);
  operations ← canonical_string (sc_operations commit);
  metadata ← canonical_string (sc_metadata commit);
  d ← insert_commit version
        {| k_commit_id := id_bytes (sc_commit_id commit); k_parent_version := Some (version - 1); k_created_at_ms := sc_created_at_ms commit;
           k_intent_count := 1; k_semantic_state := sha_bytes (sc_semantic_state_sha256 commit); k_object_uri := uri_str uri;
           k_object_sha256 := sha_bytes hash; k_operations := operations; k_result := result; k_metadata := metadata |} d;
  d ← insert_idempotency (ir_key intent)
        {| y_intent_sha256 := sha_bytes (ir_intent_sha256 intent); y_commit_id := id_bytes (sc_commit_id commit); y_table_version := version;
           y_result := result |} d;
  update_meta (advance_meta version (sha_bytes (sc_semantic_state_sha256 commit)) (id_bytes (sc_commit_id commit)) (sha_bytes hash) None) d.

(** [PreparedTransaction::build] up to the candidate image: [commit_id] is the
    identifier drawn, [created_at_ms] the clock. *)
Definition transaction_commit (request : TransactionRequest) (logical_hash : Sha256) (head : Head) (table_version : Z) (commit_id : Id)
    (created_at_ms : Z) (result : cvalue) : rresult SemanticCommit :=
  requirements ← collect (fun r => of_protocol (to_value r)) (tr_requirements request);
  operations ← collect (fun o => of_protocol (to_value o)) (tr_operations request);
  metadata ← of_protocol (to_value (CanonicalValue.Object (tr_commit_metadata request)));
  Ok {| sc_kind := "otmp.semantic-commit"; sc_format_version := 1; sc_table_id := h_table_id head; sc_table_version := table_version;
        sc_parent_table_version := Some (h_table_version head); sc_commit_id := commit_id;
        sc_parent_commit := Some (h_semantic_commit head); sc_created_at_ms := created_at_ms;
        sc_intents := [{| ir_key := tr_idempotency_key request; ir_intent_sha256 := logical_hash;
                          ir_operation_ids := map operation_id (tr_operations request); ir_result := result |}];
        sc_requirements := requirements; sc_operations := operations;
        sc_required_reader_features_after_commit := h_required_reader_features head;
        sc_required_writer_features_after_commit := h_required_writer_features head;
        sc_previous_semantic_state_sha256 := Some (h_semantic_state_sha256 head);
        sc_semantic_state_sha256 := MkSha256 (zero_bytes 32);
        sc_metadata := metadata |}.
Definition build_transaction (request : TransactionRequest) (logical_hash : Sha256) (head : Head) (results : list OperationResult)
    (commit_id : Id) (created_at_ms : Z) : rresult (SemanticCommit * (RelativeUri * bytes) * DurableResult) :=
  table_version ← ok_or (checked_add 64 (h_table_version head) 1) (invalid "version exhausted");
  let result := {| dr_table_version := table_version; dr_commit_id := commit_id; dr_operation_results := results |} in
  result_value ← of_protocol (to_value result);
  commit ← transaction_commit request logical_hash head table_version commit_id created_at_ms result_value;
  body ← commit_body commit;
  let commit := with_state (next_state_hash (h_semantic_state_sha256 head) body) commit in
  commit_bytes ← of_protocol (to_vec commit);
  commit_uri ← of_protocol (relative_uri_from_str ("_otmp/commits/" +:+ u64_to_string table_version +:+ "/" +:+ id_to_string commit_id +:+ ".json"));
  Ok (commit, (commit_uri, commit_bytes), result).

(** A metadata transaction on the image of a table, to the COMMIT. *)
Definition transact (request : TransactionRequest) (logical_hash : Sha256) (head : Head) (commit_id : Id) (created_at_ms : Z) (d : Db)
  : rresult (DurableResult * Db) :=
  results ← prepare_operations d request;
  '(commit, (uri, _), result) ← build_transaction request logical_hash head results commit_id created_at_ms;
  d ← mutate_metadata commit uri (tr_operations request) d;
  d ← Database.commit d;
  Ok (result, d).
End transactions.
