(* ===== verification/Append.v ===== *)
(** Appends and the first image (otmp/src/runtime.rs, otmp/src/image.rs): the request
    with its validation, the commit built from it, and what genesis and an append
    write into the tables. *)
From S2P Require Import Prelude Bytes Errors Values Scalars Cbor CanonicalJson Hashes Schema PageTree Objects Storage Publication.
From S2P Require Import ByteArray Database History SchemaRows Transactions.

(** ** Requests *)

Record FileMetric := {
  fm_field_id : Z; fm_column_size_bytes : option Z; fm_value_count : option Z; fm_null_count : option Z; fm_nan_count : option Z;
  fm_distinct_count : option Z; fm_lower_bound : option scalar; fm_upper_bound : option scalar; fm_metadata : list (string * cvalue) }.
Record AppendFile := {
  af_source_path : string; af_fingerprint : SourceFingerprint; af_format : FileFormat; af_record_count : Z; af_schema_id : Z;
  af_partition_spec_id : Z; af_sort_order_id : Z; af_partition_values : list (Z * scalar); af_metrics : list FileMetric;
  af_metadata : list (string * cvalue) }.
Record AppendRequest := {
  ar_idempotency_key : string; ar_target_ref : string; ar_files : list AppendFile; ar_summary : list (string * cvalue);
  ar_commit_metadata : list (string * cvalue); ar_snapshot_metadata : list (string * cvalue) }.
Definition append_request (key : string) (files : list AppendFile) : AppendRequest :=
  {| ar_idempotency_key := key; ar_target_ref := "main"; ar_files := files; ar_summary := []; ar_commit_metadata := [];
     ar_snapshot_metadata := [] |}.

Record CommittedFile := { cf_file_id : Id; cf_uri : RelativeUri }.
Record AppendResult := {
  ap_table_version : Z; ap_commit_id : Id; ap_snapshot_id : Id; ap_sequence_number : Z; ap_target_ref : string;
  ap_files : list CommittedFile }.

(** What identifies an append: its serialized form is hashed. *)
Record LogicalMetric := {
  lm_field_id : string; lm_column_size_bytes : option string; lm_value_count : option string; lm_null_count : option string;
  lm_nan_count : option string; lm_distinct_count : option string; lm_lower_bound : option scalar; lm_upper_bound : option scalar;
  lm_metadata : list (string * cvalue) }.
Record LogicalFile := {
  lo_expected_sha256 : Sha256; lo_expected_length : string; lo_format : FileFormat; lo_record_count : string; lo_schema_id : string;
  lo_partition_spec_id : string; lo_sort_order_id : string; lo_partition_values : list (Z * scalar); lo_metrics : list LogicalMetric;
  lo_metadata : list (string * cvalue) }.
Record LogicalIntent := {
  li_operation : string; li_target_ref : string; li_files : list LogicalFile; li_caller_summary : list (string * cvalue);
  li_commit_metadata : list (string * cvalue); li_snapshot_metadata : list (string * cvalue) }.

#[export] Instance file_format_eq_dec : EqDecision FileFormat.
Proof. solve_decision. Defined.
Definition file_format_str (f : FileFormat) : string := match f with Parquet => "parquet" end.

(** ** What an append inserts *)

Record ImageMetric := {
  im_field_id : Z; im_column_size_bytes : option Z; im_value_count : option Z; im_null_count : option Z; im_nan_count : option Z;
  im_distinct_count : option Z; im_lower_bound_cbor : option bytes; im_upper_bound_cbor : option bytes; im_metadata_json : string }.
Record ImageFile := {
  if_file_id : Id; if_uri : string; if_format : FileFormat; if_file_size_bytes : Z; if_record_count : Z; if_schema_id : Z;
  if_partition_spec_id : Z; if_sort_order_id : Z; if_partition_values_cbor : bytes; if_partition_hash : Sha256; if_content_sha256 : Sha256;
  if_metrics : list ImageMetric; if_metadata_json : string }.
Record AppendImage := {
  ai_table_version : Z; ai_created_at_ms : Z; ai_semantic_state : Sha256; ai_commit_id : Id; ai_commit_hash : Sha256; ai_commit_uri : string;
  ai_operation_json : string; ai_result_json : string; ai_commit_metadata_json : string; ai_idempotency_key : string; ai_intent_hash : Sha256;
  ai_snapshot_id : Id; ai_parent_snapshot_id : option Id; ai_target_ref : string; ai_sequence_number : Z; ai_summary : list (string * cvalue);
  ai_snapshot_metadata_json : string; ai_files : list ImageFile }.
Record GenesisImage := {
  gi_table_id : Id; gi_schema : Schema; gi_created_at_ms : Z; gi_semantic_state : Sha256; gi_commit_id : Id; gi_commit_hash : Sha256;
  gi_commit_uri : string; gi_operation_json : string; gi_result_json : string; gi_intent_hash : Sha256; gi_metadata_json : string;
  gi_reader_features_json : string; gi_writer_features_json : string }.

Definition invalid_append (message : string) : rerror := RuntimeError.InvalidAppend message.
Definition I64_MAX : Z := 2 ^ 63 - 1.

Section append.
Context `{HexCrate, Sha2Crate, SqlEngine, SerdeJson} `{FromJson (list cvalue)}
  `{ToJson LogicalType, FromJson LogicalType, ToJson scalar, FromJson scalar}
  `{ToJson SemanticCommit, ToJson cvalue, ToJson (list cvalue), ToJson LogicalFile, ToJson LogicalIntent,
    ToJson (list (Z * scalar)), ToJson (list LogicalMetric), ToJson AppendResult}.

(** ** Queries *)

Definition current_schema_and_snapshot (d : Db) : rresult (Z * option Id * Z) :=
  '(m, r) ← row (m ← db_meta d; r ← db_refs d !! "main"; Some (m, r));
  schema ← ok_or (try_uint 32 (m_current_schema_id m)) (corrupt "invalid schema ID");
  snapshot ← transpose id_from_blob (r_snapshot r);
  sequence ← ok_or (try_uint 64 (m_last_sequence_number m)) (corrupt "invalid sequence");
  Ok (schema, snapshot, sequence).

Definition field_types (d : Db) (schema : Z) : rresult (list (Z * LogicalType)) :=
  collect (fun kv =>
    ty ← of_protocol (from_slice_canonical (T := LogicalType) (as_bytes (w_type kv.2)));
    id ← ok_or (try_uint 32 kv.1) (corrupt "invalid field ID");
    Ok (id, ty)) (field_rows_of d schema).

(** ** Validation of a request *)

Definition logical_metric (m : FileMetric) : LogicalMetric :=
  {| lm_field_id := u64_to_string (fm_field_id m); lm_column_size_bytes := u64_to_string <$> fm_column_size_bytes m;
     lm_value_count := u64_to_string <$> fm_value_count m; lm_null_count := u64_to_string <$> fm_null_count m;
     lm_nan_count := u64_to_string <$> fm_nan_count m; lm_distinct_count := u64_to_string <$> fm_distinct_count m;
     lm_lower_bound := fm_lower_bound m; lm_upper_bound := fm_upper_bound m; lm_metadata := fm_metadata m |}.
Definition logical_metrics (metrics : list FileMetric) : list LogicalMetric := map logical_metric metrics.
Definition logical_file (f : AppendFile) : LogicalFile :=
  {| lo_expected_sha256 := fp_sha256 (af_fingerprint f); lo_expected_length := u64_to_string (fp_length (af_fingerprint f));
     lo_format := af_format f; lo_record_count := u64_to_string (af_record_count f); lo_schema_id := u64_to_string (af_schema_id f);
     lo_partition_spec_id := u64_to_string (af_partition_spec_id f); lo_sort_order_id := u64_to_string (af_sort_order_id f);
     lo_partition_values := af_partition_values f; lo_metrics := logical_metrics (af_metrics f); lo_metadata := af_metadata f |}.
Definition logical_intent (request : AppendRequest) : rresult bytes :=
  of_protocol (to_vec
    {| li_operation := "append"; li_target_ref := ar_target_ref request; li_files := map logical_file (ar_files request);
       li_caller_summary := ar_summary request; li_commit_metadata := ar_commit_metadata request;
       li_snapshot_metadata := ar_snapshot_metadata request |}).

Definition metric_counts (m : FileMetric) : list Z :=
  omap id [fm_column_size_bytes m; fm_value_count m; fm_null_count m; fm_nan_count m; fm_distinct_count m].
Definition metric_bounds (m : FileMetric) : list scalar := omap id [fm_lower_bound m; fm_upper_bound m].

Definition validate_metric_of (field_types : list (Z * LogicalType)) (ids : list Z) (m : FileMetric) : rresult (list Z) :=
  _ ← reject (bool_decide (fm_field_id m ∈ ids)) (invalid_append "duplicate metric field ID");
  field_type ← ok_or (bt_get (fm_field_id m) field_types) (invalid_append "metric field ID does not exist");
  _ ← reject (negb (is_primitive field_type)) (invalid_append "metrics require primitive fields");
  _ ← reject (match fm_null_count m, fm_value_count m with Some nulls, Some values => values <? nulls | _, _ => false end
              || bool_decide (is_Some (fm_nan_count m)) && negb (is_float field_type)) (invalid_append "invalid metric counts");
  _ ← reject (existsb (fun value => I64_MAX <? value) (metric_counts m)) (invalid_append "metric count exceeds SQLite INTEGER");
  _ ← try_fold (fun _ bound =>
        _ ← of_protocol (validate_scalar bound);
        reject (negb (accepts field_type bound) || bool_decide (bound = TypedScalar.Null) || scalar_is_nan bound)
          (invalid_append "invalid metric bound")) tt (metric_bounds m);
  _ ← reject (match fm_lower_bound m, fm_upper_bound m with
              | Some lower, Some upper => bool_decide (partial_cmp_same_type lower upper = Some Gt)
              | _, _ => false
              end) (invalid_append "metric bounds are reversed");
  Ok (fm_field_id m :: ids).
Definition validate_metrics (metrics : list FileMetric) (field_types : list (Z * LogicalType)) : rresult unit :=
  _ ← try_fold (validate_metric_of field_types) [] metrics; Ok tt.

Definition RESERVED_SUMMARY : list string := ["added-data-files"; "added-records"; "added-files-size"].

Definition sum_u64 (message : string) (f : AppendFile -> Z) (files : list AppendFile) : rresult Z :=
  try_fold (fun total file => ok_or (checked_add 64 total (f file)) (invalid_append message)) 0 files.
Definition text (s : string) : cvalue := CanonicalValue.String s.

Definition derived_summary (request : AppendRequest) : rresult (list (string * cvalue)) :=
  record_count ← sum_u64 "record count overflow" af_record_count (ar_files request);
  file_size ← sum_u64 "file size overflow" (fun f => fp_length (af_fingerprint f)) (ar_files request);
  _ ← reject ((I64_MAX <? record_count) || (I64_MAX <? file_size)) (invalid_append "summary exceeds SQLite INTEGER");
  Ok (bt_insert "added-files-size" (text (u64_to_string file_size))
       (bt_insert "added-records" (text (u64_to_string record_count))
         (bt_insert "added-data-files" (text (u64_to_string (len (ar_files request)))) (ar_summary request)))).

(** One file of a request; [entries] are the serialized forms seen. *)
Definition validate_append_file (current_schema : Z) (field_types : list (Z * LogicalType)) (entries : list bytes) (f : AppendFile) : rresult (list bytes) :=
  _ ← reject (negb (af_schema_id f =? current_schema) || negb (af_partition_spec_id f =? 0) || negb (af_sort_order_id f =? 0)
              || negb (bool_decide (af_partition_values f = [])) || (I64_MAX <? fp_length (af_fingerprint f)) || (I64_MAX <? af_record_count f))
        (invalid_append "file assertions do not match local/full-image profile table defaults");
  entry ← of_protocol (to_vec (logical_file f));
  _ ← reject (bool_decide (entry ∈ entries)) (invalid_append "duplicate logical file entry");
  _ ← validate_metrics (af_metrics f) field_types;
  Ok (entry :: entries).

Definition validate_request (request : AppendRequest) (d : Db) : rresult unit :=
  _ ← reject ((str_len (ar_idempotency_key request) =? 0) || bool_decide (ar_idempotency_key request = "otmp.genesis"))
        (invalid_append "invalid idempotency key");
  _ ← reject (bool_decide (length (ar_files request) = 0%nat)) (invalid_append "local/full-image profile requires one non-empty append batch to main");
  r ← ref_row d (ar_target_ref request);
  _ ← reject (match r with Some (Branch, _) => false | _ => true end) (invalid_append "target must exist and be a branch");
  '(current_schema, _, _) ← current_schema_and_snapshot d;
  types ← field_types d current_schema;
  _ ← reject (existsb (fun key => bool_decide (key ∈ RESERVED_SUMMARY)) (ar_summary request).*1)
        (invalid_append "caller summary uses a runtime-reserved key");
  _ ← try_fold (validate_append_file current_schema types) [] (ar_files request);
  _ ← derived_summary request;
  Ok tt.

(** The pair of a file and its staged object; [ids] and [uris] are those seen. *)
Definition staged_matches (table_id : Id) (seen : nat * (list Id * list RelativeUri)) (p : AppendFile * VerifiedStagedFile)
  : rresult (nat * (list Id * list RelativeUri)) :=
  let '(ordinal, (ids, uris)) := seen in
  let '(logical, verified) := p in
  _ ← reject (negb (bool_decide (vs_table_id verified = table_id)) || negb (bool_decide (vs_ordinal verified = ordinal))
              || negb (bool_decide (vs_sha256 verified = fp_sha256 (af_fingerprint logical)))
              || negb (vs_length verified =? fp_length (af_fingerprint logical)) || negb (bool_decide (vs_format verified = af_format logical))
              || bool_decide (is_Some (vs_object_identity verified)) || bool_decide (vs_file_id verified ∈ ids)
              || bool_decide (uri_str (vs_uri verified) ∈ map uri_str uris))
        (RuntimeError.StagingMismatch ("entry " +:+ u64_to_string (Z.of_nat ordinal) +:+ " does not match"));
  Ok (S ordinal, (vs_file_id verified :: ids, vs_uri verified :: uris)).
Definition validate_staged (request : AppendRequest) (staged : list VerifiedStagedFile) (table_id : Id) : rresult unit :=
  _ ← reject (negb (bool_decide (length (ar_files request) = length staged))) (RuntimeError.StagingMismatch "entry count differs");
  _ ← try_fold (staged_matches table_id) (0%nat, ([], [])) (zip (ar_files request) staged);
  Ok tt.

(** ** Building the commit *)

Definition object (entries : list (string * cvalue)) : cvalue := CanonicalValue.Object (bt_of_list entries).

Definition operation_file (p : VerifiedStagedFile * AppendFile) : rresult cvalue :=
  let '(staged, logical) := p in
  partition_values ← of_protocol (to_value (af_partition_values logical));
  metrics ← of_protocol (to_value (logical_metrics (af_metrics logical)));
  Ok (object
    [("file_id", text (id_to_string (vs_file_id staged))); ("uri", text (uri_str (vs_uri staged))); ("object_identity", CanonicalValue.Null);
     ("file_format", text (file_format_str (af_format logical))); ("file_size_bytes", text (u64_to_string (fp_length (af_fingerprint logical))));
     ("record_count", text (u64_to_string (af_record_count logical))); ("schema_id", text (u64_to_string (af_schema_id logical)));
     ("partition_spec_id", text (u64_to_string (af_partition_spec_id logical)));
     ("sort_order_id", text (u64_to_string (af_sort_order_id logical)));
     ("content_sha256", text (sha256_to_string (fp_sha256 (af_fingerprint logical)))); ("partition_values", partition_values);
     ("metrics", metrics); ("metadata", CanonicalValue.Object (af_metadata logical))]).

(** [request.files[0]]; a request without files is refused before. *)
Definition first_file (request : AppendRequest) : rresult AppendFile := ok_or (head (ar_files request)) (corrupt "index out of bounds").

Definition append_operation (request : AppendRequest) (staged : list VerifiedStagedFile) (snapshot_id : Id) (parent_snapshot : option Id)
    (sequence_number : Z) (summary : list (string * cvalue)) : rresult cvalue :=
  files ← collect operation_file (zip staged (ar_files request));
  first ← first_file request;
  let snapshot := object
    [("snapshot_id", text (id_to_string snapshot_id));
     ("parent_snapshot_id", from_option (fun id => text (id_to_string id)) CanonicalValue.Null parent_snapshot);
     ("sequence_number", text (u64_to_string sequence_number)); ("schema_id", text (u64_to_string (af_schema_id first)));
     ("partition_spec_id", text (u64_to_string (af_partition_spec_id first))); ("sort_order_id", text (u64_to_string (af_sort_order_id first)));
     ("operation", text "append"); ("summary", CanonicalValue.Object summary);
     ("metadata", CanonicalValue.Object (ar_snapshot_metadata request))] in
  Ok (object
    [("operation_id", text "append-main"); ("type", text "commit_snapshot"); ("target_ref", text (ar_target_ref request)); ("snapshot", snapshot);
     ("added_files", CanonicalValue.Array files); ("removed_file_ids", CanonicalValue.Array []); ("scan_projection", CanonicalValue.Null);
     ("rebase_mode", text "append-safe")]).

(** The commit of an append on the table of [head], before its state is hashed. *)
Definition append_commit (request : AppendRequest) (logical_hash : Sha256) (head : Head) (table_version : Z) (commit_id : Id) (created_at_ms : Z)
    (operation result : cvalue) : rresult SemanticCommit :=
  first ← first_file request;
  Ok {| sc_kind := "otmp.semantic-commit"; sc_format_version := 1; sc_table_id := h_table_id head; sc_table_version := table_version;
        sc_parent_table_version := Some (h_table_version head); sc_commit_id := commit_id;
        sc_parent_commit := Some (h_semantic_commit head); sc_created_at_ms := created_at_ms;
        sc_intents := [{| ir_key := ar_idempotency_key request; ir_intent_sha256 := logical_hash; ir_operation_ids := ["append-main"];
                          ir_result := result |}];
        sc_requirements :=
          [object [("type", text "current_schema_is"); ("schema_id", text (u64_to_string (af_schema_id first)))];
           object [("type", text "default_partition_spec_is"); ("partition_spec_id", text "0")];
           object [("type", text "default_sort_order_is"); ("sort_order_id", text "0")]];
        sc_operations := [operation];
        sc_required_reader_features_after_commit := h_required_reader_features head;
        sc_required_writer_features_after_commit := h_required_writer_features head;
        sc_previous_semantic_state_sha256 := Some (h_semantic_state_sha256 head);
        sc_semantic_state_sha256 := MkSha256 (zero_bytes 32);
        sc_metadata := CanonicalValue.Object (ar_commit_metadata request) |}.

Definition image_metric (m : FileMetric) : rresult ImageMetric :=
  metadata ← canonical_string (CanonicalValue.Object (fm_metadata m));
  Ok {| im_field_id := fm_field_id m; im_column_size_bytes := fm_column_size_bytes m; im_value_count := fm_value_count m;
        im_null_count := fm_null_count m; im_nan_count := fm_nan_count m; im_distinct_count := fm_distinct_count m;
        im_lower_bound_cbor := encode_typed_scalar <$> fm_lower_bound m; im_upper_bound_cbor := encode_typed_scalar <$> fm_upper_bound m;
        im_metadata_json := metadata |}.
Definition image_file (p : AppendFile * VerifiedStagedFile) : rresult ImageFile :=
  let '(logical, staged) := p in
  let partition_cbor := encode_partition_tuple (af_partition_values logical) in
  metrics ← collect image_metric (af_metrics logical);
  metadata ← canonical_string (CanonicalValue.Object (af_metadata logical));
  Ok {| if_file_id := vs_file_id staged; if_uri := uri_str (vs_uri staged); if_format := af_format logical; if_file_size_bytes := vs_length staged;
        if_record_count := af_record_count logical; if_schema_id := af_schema_id logical; if_partition_spec_id := af_partition_spec_id logical;
        if_sort_order_id := af_sort_order_id logical; if_partition_values_cbor := partition_cbor;
        if_partition_hash := partition_hash (af_partition_spec_id logical) partition_cbor; if_content_sha256 := vs_sha256 staged;
        if_metrics := metrics; if_metadata_json := metadata |}.

(** [build_candidate] up to the candidate image: the commit, its object, and what is
    inserted. [commit_id] and [snapshot_id] are the identifiers drawn, [created_at_ms]
    is the clock. *)
Definition build_append (request : AppendRequest) (staged : list VerifiedStagedFile) (logical_hash : Sha256) (head : Head) (d : Db)
    (commit_id snapshot_id : Id) (created_at_ms : Z) : rresult (SemanticCommit * (RelativeUri * bytes) * AppendImage * AppendResult) :=
  table_version ← ok_or (checked_add 64 (h_table_version head) 1) (invalid_append "table version exhausted");
  '(_, _, last_sequence) ← current_schema_and_snapshot d;
  r ← ref_row d (ar_target_ref request);
  '(_, parent_snapshot) ← ok_or r (RuntimeError.RefNotFound (ar_target_ref request));
  sequence_number ← ok_or (checked_add 64 last_sequence 1) (invalid_append "sequence number exhausted");
  let result :=
    {| ap_table_version := table_version; ap_commit_id := commit_id; ap_snapshot_id := snapshot_id; ap_sequence_number := sequence_number;
       ap_target_ref := ar_target_ref request; ap_files := map (fun f => {| cf_file_id := vs_file_id f; cf_uri := vs_uri f |}) staged |} in
  summary ← derived_summary request;
  operation ← append_operation request staged snapshot_id parent_snapshot sequence_number summary;
  result_value ← of_protocol (to_value result);
  commit ← append_commit request logical_hash head table_version commit_id created_at_ms operation result_value;
  body ← commit_body commit;
  let commit := with_state (next_state_hash (h_semantic_state_sha256 head) body) commit in
  commit_bytes ← of_protocol (to_vec commit);
  commit_uri ← of_protocol (relative_uri_from_str ("_otmp/commits/" +:+ u64_to_string table_version +:+ "/" +:+ id_to_string commit_id +:+ ".json"));
  result_json ← canonical_string result_value;
  operation_json ← canonical_string (sc_operations commit);
  commit_metadata_json ← canonical_string (sc_metadata commit);
  snapshot_metadata_json ← canonical_string (CanonicalValue.Object (ar_snapshot_metadata request));
  files ← collect image_file (zip (ar_files request) staged);
  Ok (commit, (commit_uri, commit_bytes),
      {| ai_table_version := table_version; ai_created_at_ms := created_at_ms; ai_semantic_state := sc_semantic_state_sha256 commit;
         ai_commit_id := commit_id; ai_commit_hash := object_hash commit_bytes; ai_commit_uri := uri_str commit_uri;
         ai_operation_json := operation_json; ai_result_json := result_json; ai_commit_metadata_json := commit_metadata_json;
         ai_idempotency_key := ar_idempotency_key request; ai_intent_hash := logical_hash; ai_snapshot_id := snapshot_id;
         ai_parent_snapshot_id := parent_snapshot; ai_target_ref := ar_target_ref request; ai_sequence_number := sequence_number;
         ai_summary := summary; ai_snapshot_metadata_json := snapshot_metadata_json; ai_files := files |}, result).

(** ** Writing the append *)

Definition optional_sqlite_i64 (value : option Z) (name : string) : rresult (option Z) := transpose (fun v => sqlite_i64 v name) value.

Definition append_metric (file : Id) (d : Db) (m : ImageMetric) : rresult Db :=
  column_size ← optional_sqlite_i64 (im_column_size_bytes m) "column size";
  values ← optional_sqlite_i64 (im_value_count m) "value count";
  nulls ← optional_sqlite_i64 (im_null_count m) "null count";
  nans ← optional_sqlite_i64 (im_nan_count m) "nan count";
  distinct ← optional_sqlite_i64 (im_distinct_count m) "distinct count";
  insert_metric (id_bytes file) (im_field_id m)
    {| q_column_size := column_size; q_values := values; q_nulls := nulls; q_nans := nans; q_distinct := distinct;
       q_lower := im_lower_bound_cbor m; q_upper := im_upper_bound_cbor m; q_metadata := im_metadata_json m |} d.

Definition append_file (input : AppendImage) (d : Db) (f : ImageFile) : rresult Db :=
  size ← sqlite_i64 (if_file_size_bytes f) "file size";
  records ← sqlite_i64 (if_record_count f) "record count";
  sequence ← sqlite_i64 (ai_sequence_number input) "sequence number";
  version ← sqlite_i64 (ai_table_version input) "table version";
  let snapshot := id_bytes (ai_snapshot_id input) in
  let file := id_bytes (if_file_id f) in
  d ← insert_file file
        {| f_kind := "data"; f_uri := if_uri f; f_object_identity := None; f_format := file_format_str (if_format f); f_size := size;
           f_records := records; f_schema_id := if_schema_id f; f_partition_spec_id := if_partition_spec_id f;
           f_sort_order_id := Some (if_sort_order_id f); f_partition_values := if_partition_values_cbor f;
           f_partition_hash := sha_bytes (if_partition_hash f); f_sha256 := Some (sha_bytes (if_content_sha256 f)); f_data_sequence := sequence;
           f_file_sequence := sequence; f_created_snapshot := snapshot; f_created_version := version; f_metadata := if_metadata_json f |} d;
  d ← try_fold (append_metric (if_file_id f)) d (if_metrics f);
  d ← insert_change snapshot file "add" d;
  insert_live (ai_target_ref input) file {| l_added_snapshot := snapshot; l_data_sequence := sequence; l_file_sequence := sequence |} d.

Definition append_summary (snapshot : Id) (d : Db) (kv : string * cvalue) : rresult Db :=
  value ← canonical_string kv.2;
  insert_summary (id_bytes snapshot) kv.1 value d.

(** [mutate_append]; the COMMIT that follows it is [Database.commit]. *)
Definition mutate_append (input : AppendImage) (d : Db) : rresult Db :=
  m ← meta_row d;
  _ ← reject (negb (bool_decide ((n ← (if m_table_version m + 1 <? 2 ^ 63 then Some (m_table_version m + 1) else None); try_uint 64 n)
                                 = Some (ai_table_version input)))) (corrupt "candidate parent version mismatch");
  sequence ← sqlite_i64 (ai_sequence_number input) "sequence number";
  version ← sqlite_i64 (ai_table_version input) "table version";
  summary ← canonical_string (CanonicalValue.Object (ai_summary input));
  let snapshot := id_bytes (ai_snapshot_id input) in
  d ← insert_snapshot snapshot
        {| s_parent := id_bytes <$> ai_parent_snapshot_id input; s_sequence := sequence; s_schema_id := m_current_schema_id m;
           s_partition_spec_id := 0; s_sort_order_id := 0; s_operation := "append"; s_version := version;
           s_committed_at_ms := ai_created_at_ms input; s_summary := summary; s_metadata := ai_snapshot_metadata_json input |} d;
  d ← try_fold (append_summary (ai_snapshot_id input)) d (ai_summary input);
  d ← try_fold (append_file input) d (ai_files input);
  '(updated_refs, d) ← update_ref (ai_target_ref input) (fun r => bool_decide (r_type r = "branch")) snapshot version d;
  _ ← reject (negb (updated_refs =? 1)) (corrupt "candidate parent has no unique main branch");
  d ← insert_commit version
        {| k_commit_id := id_bytes (ai_commit_id input); k_parent_version := Some (version - 1); k_created_at_ms := ai_created_at_ms input;
           k_intent_count := 1; k_semantic_state := sha_bytes (ai_semantic_state input); k_object_uri := ai_commit_uri input;
           k_object_sha256 := sha_bytes (ai_commit_hash input); k_operations := ai_operation_json input; k_result := ai_result_json input;
           k_metadata := ai_commit_metadata_json input |} d;
  d ← insert_idempotency (ai_idempotency_key input)
        {| y_intent_sha256 := sha_bytes (ai_intent_hash input); y_commit_id := id_bytes (ai_commit_id input); y_table_version := version;
           y_result := ai_result_json input |} d;
  update_meta (advance_meta version (sha_bytes (ai_semantic_state input)) (id_bytes (ai_commit_id input)) (sha_bytes (ai_commit_hash input))
                 (Some sequence)) d.

(** ** Writing the first image *)

Definition empty_db : Db := MkDb None ∅ ∅ ∅ ∅ ∅ ∅ ∅ ∅ ∅ ∅ ∅ ∅ ∅ ∅ ∅ ∅ ∅.

Definition mutate_genesis (input : GenesisImage) (d : Db) : rresult Db :=
  d ← insert_schema (gi_schema input) 0 d;
  d ← insert_partition_spec 0 0 d;
  d ← insert_sort_order 0 0 d;
  d ← insert_ref "main" {| r_type := "branch"; r_snapshot := None; r_created_version := 0; r_updated_version := 0 |} d;
  d ← try_fold (fun d feature => insert_feature feature "both" 0 d) d
        ["otmp.core.v2"; "otmp.refs.v1"; "otmp.data.parquet.v1"; "otmp.metadata.sqlite3-cow.v1"];
  d ← insert_commit 0
        {| k_commit_id := id_bytes (gi_commit_id input); k_parent_version := None; k_created_at_ms := gi_created_at_ms input; k_intent_count := 1;
           k_semantic_state := sha_bytes (gi_semantic_state input); k_object_uri := gi_commit_uri input;
           k_object_sha256 := sha_bytes (gi_commit_hash input); k_operations := gi_operation_json input; k_result := gi_result_json input;
           k_metadata := gi_metadata_json input |} d;
  d ← insert_idempotency "otmp.genesis"
        {| y_intent_sha256 := sha_bytes (gi_intent_hash input); y_commit_id := id_bytes (gi_commit_id input); y_table_version := 0;
           y_result := gi_result_json input |} d;
  insert_meta
    {| m_protocol := "otmp"; m_protocol_version := "0.0.2-alpha"; m_table_id := id_bytes (gi_table_id input); m_table_version := 0;
       m_semantic_state := sha_bytes (gi_semantic_state input); m_last_commit_id := id_bytes (gi_commit_id input);
       m_last_commit_sha256 := sha_bytes (gi_commit_hash input); m_last_sequence_number := 0; m_current_schema_id := schema_id (gi_schema input);
       m_default_partition_spec_id := 0; m_default_sort_order_id := 0; m_created_at_ms := gi_created_at_ms input;
       m_reader_features := gi_reader_features_json input; m_writer_features := gi_writer_features_json input;
       m_metadata := gi_metadata_json input |} d.

(** [commit_staged_from_base] on one parent, to the COMMIT: [base] is the image that
    was pinned first, with its head, and [d] the image of the parent [head]. *)
Definition append (request : AppendRequest) (staged : list VerifiedStagedFile) (base_head : Head) (base : Db) (head : Head)
    (commit_id snapshot_id : Id) (created_at_ms : Z) (d : Db) : rresult (AppendResult * Db) :=
  logical ← logical_intent request;
  _ ← validate_staged request staged (h_table_id base_head);
  base_tip ← ref_row base (ar_target_ref request);
  _ ← reject (negb (bool_decide (h_table_id head = h_table_id base_head))) (RuntimeError.SemanticConflict "table identity changed");
  _ ← validate_append_rebase d (ar_target_ref request) base_tip (h_table_version base_head);
  _ ← validate_request request d;
  '(_, input, result) ← build_append request staged (intent_hash logical) head d commit_id snapshot_id created_at_ms;
  d ← mutate_append input d;
  d ← commit d;
  Ok (result, d).
Definition genesis (input : GenesisImage) : rresult Db :=
  _ ← of_protocol (validate_schema (gi_schema input));
  d ← mutate_genesis input empty_db;
  commit d.
End append.
