(* ===== verification/RelationalImage.v ===== *)
(** The checks of a relational image (otmp/src/image.rs, [validate]): the rows of the
    tables agree with the head and with each other. *)
From S2P Require Import Prelude Bytes Errors Values Scalars Cbor CanonicalJson Hashes Schema PageTree Objects Candidate.
From S2P Require Import Database History SchemaRows.

(** [SELECT count( * ) .. WHERE f] *)
Definition count_rows {K V} `{Countable K} (f : K -> V -> bool) (m : gmap K V) : Z :=
  len (List.filter (fun kv => f kv.1 kv.2) (map_to_list m)).

Section image.
Context `{HexCrate, Sha2Crate, SqlEngine, SerdeJson} `{FromJson LogicalType, FromJson scalar} `{ToJson (list string)}.

Definition defaults_exist (m : MetaRow) (d : Db) : bool :=
  has (m_current_schema_id m) (db_schemas d) && has (m_default_partition_spec_id m) (db_partition_specs d)
  && has (m_default_sort_order_id m) (db_sort_orders d).

(** ** Commits *)

Definition last_commit_matches (expected : ExpectedImage) (version : Z) (d : Db) : bool :=
  match db_commits d !! version with
  | Some c => bool_decide (k_commit_id c = id_bytes (ei_commit_id expected))
              && bool_decide (k_semantic_state c = sha_bytes (ei_semantic_state expected))
              && bool_decide (k_object_uri c = ei_commit_uri expected) && bool_decide (k_object_sha256 c = sha_bytes (ei_commit_hash expected))
  | None => false
  end.
Definition unpaired_commit (d : Db) (version : Z) (c : CommitRow) : bool :=
  negb (k_intent_count c =? count_rows (fun _ y => bool_decide (y_commit_id y = k_commit_id c) && (y_table_version y =? version)) (db_idempotency_rows d)).
Definition contiguous_commits (version : Z) (d : Db) : bool :=
  let versions := (by_key (db_commits d)).*1 in
  (len versions =? version + 1) && bool_decide (head versions = Some 0) && bool_decide (last versions = Some version).
Definition previous_state (version : Z) (d : Db) : rresult (option Sha256) :=
  if version =? 0 then Ok None else transpose (fun c => hash_from_blob (k_semantic_state c)) (db_commits d !! (version - 1)).

Definition validate_commits (expected : ExpectedImage) (d : Db) : rresult unit :=
  version ← sqlite_i64 (ei_table_version expected) "table version";
  _ ← reject (negb (last_commit_matches expected version d)) (corrupt "last commit row does not match commit object");
  _ ← reject (some_row (unpaired_commit d) (db_commits d)) (corrupt "commit/idempotency pairing mismatch");
  _ ← reject ((version + 1 =? 2 ^ 63) || negb (contiguous_commits version d)) (corrupt "relational commit history is not contiguous through HEAD");
  previous ← previous_state version d;
  reject (negb (bool_decide (previous = ei_previous_semantic_state expected)))
    (corrupt "previous semantic state does not match relational history").

(** ** Snapshots and refs *)

Definition sequences (d : Db) : list Z := map (fun kv => s_sequence kv.2) (map_to_list (db_snapshots d)).
Definition versions (d : Db) : list Z := map (fun kv => s_version kv.2) (map_to_list (db_snapshots d)).

Definition bad_parent (d : Db) (s : SnapshotRow) : bool :=
  match s_parent s with
  | None => false
  | Some parent =>
    match db_snapshots d !! parent with
    | Some p => (s_sequence s <=? s_sequence p) || (s_version s <=? s_version p)
    | None => true
    end
  end.
Definition bad_ref (version : Z) (r : RefRow) : bool :=
  (r_updated_version r <? r_created_version r) || (version <? r_updated_version r)
  || bool_decide (r_type r = "tag") && bool_decide (r_snapshot r = None).
Definition main_exists (d : Db) : bool :=
  match db_refs d !! "main" with Some r => bool_decide (r_type r = "branch") && (r_created_version r =? 0) | None => false end.

Definition validate_relational_history (d : Db) (table_version last_sequence_number : Z) : rresult unit :=
  version ← sqlite_i64 table_version "table version";
  let count := len (sequences d) in
  let maximum := foldr Z.max 0 (sequences d) in
  reject (some_row (fun _ s => (s_version s <? 1) || (version <? s_version s) || (s_sequence s <? 1)) (db_snapshots d)
          || negb (bool_decide (NoDup (versions d))) || negb (bool_decide (NoDup (sequences d))) || negb (count =? maximum)
          || negb (maximum =? last_sequence_number) || some_row (fun _ s => bad_parent d s) (db_snapshots d)
          || some_row (fun _ r => bad_ref version r) (db_refs d) || negb (main_exists d))
    (corrupt "snapshot, sequence, ancestry, or ref invariant violated").

(** ** Files *)

Definition live_error (d : Db) (k : string * bytes) (l : LiveRow) : bool :=
  negb (has k.2 (db_files d)) || negb (bool_decide ((l_added_snapshot l, k.2, "add") ∈ db_changes d)).
Definition unexpected_rows (d : Db) : bool :=
  existsb (fun c => negb (bool_decide (c.2 = "add"))) (elements (db_changes d))
  || some_row (fun _ s => negb (bool_decide (s_operation s = "append"))) (db_snapshots d)
  || some_row (fun _ f => negb (bool_decide (f_kind f = "data")) || negb (bool_decide (f_format f = "parquet"))
                          || bool_decide (is_Some (f_object_identity f)) || negb (f_partition_spec_id f =? 0)
                          || from_option (fun o => negb (o =? 0)) false (f_sort_order_id f) || bool_decide (f_sha256 f = None)) (db_files d).

(** What [otmp_ref_live_files] must hold for a branch: the additions of the
    snapshots of its ancestry. *)
Definition additions_of (d : Db) (snapshot : Id) : list (bytes * bytes * Z * Z) :=
  match db_snapshots d !! id_bytes snapshot with
  | Some s => map (fun file => (file, id_bytes snapshot, s_sequence s, s_sequence s)) (added_files d (id_bytes snapshot))
  | None => []
  end.
Definition expected_membership (d : Db) (r : RefRow) : rresult (gset (bytes * bytes * Z * Z)) :=
  if bool_decide (r_type r = "branch") then
    tip ← transpose id_from_blob (r_snapshot r);
    chain ← ancestry d tip;
    Ok (list_to_set (concat (map (additions_of d) chain)))
  else Ok ∅.
Definition actual_membership (d : Db) (name : string) : gset (bytes * bytes * Z * Z) :=
  list_to_set (omap (fun kv => if bool_decide (kv.1.1 = name)
                               then Some (kv.1.2, l_added_snapshot kv.2, l_data_sequence kv.2, l_file_sequence kv.2) else None)
                 (map_to_list (db_live d))).
Definition validate_membership (d : Db) (name : string) (r : RefRow) : rresult unit :=
  expected ← expected_membership d r;
  reject (negb (bool_decide (actual_membership d name = expected))) (corrupt "materialized membership differs from snapshot ancestry").

Definition validate_descriptor (f : FileRow) : rresult unit :=
  _ ← of_protocol (relative_uri_from_str (f_uri f));
  tuple ← of_protocol (decode_partition_tuple (f_partition_values f));
  spec ← ok_or (try_uint 32 (f_partition_spec_id f)) (corrupt "invalid partition spec ID");
  _ ← reject (negb (spec =? 0) || negb (bool_decide (length tuple = 0%nat)))
        (corrupt "local/full-image profile requires empty partition tuples for spec 0");
  hash ← hash_from_blob (f_partition_hash f);
  reject (negb (bool_decide (hash = partition_hash spec (f_partition_values f)))) (corrupt "partition hash mismatch").

Definition validate_bound (field_type : LogicalType) (bound : scalar) : rresult unit :=
  _ ← of_protocol (validate_scalar bound);
  reject (negb (accepts field_type bound) || bool_decide (bound = TypedScalar.Null) || scalar_is_nan bound)
    (corrupt "invalid relational metric bound").
Definition validate_metric_row (d : Db) (k : bytes * Z) (q : MetricRow) : rresult unit :=
  match db_files d !! k.1 with
  | None => Ok tt
  | Some f =>
    r ← ok_or (db_field_rows d !! (f_schema_id f, k.2)) (corrupt "metric field does not belong to the file schema");
    field_type ← of_protocol (from_slice_canonical (T := LogicalType) (as_bytes (w_type r)));
    _ ← reject (match q_nulls q, q_values q with Some nulls, Some values => values <? nulls | _, _ => false end
                || bool_decide (is_Some (q_nans q)) && negb (is_float field_type)) (corrupt "invalid relational metric counts");
    lower ← transpose (fun b => of_protocol (decode_typed_scalar b)) (q_lower q);
    upper ← transpose (fun b => of_protocol (decode_typed_scalar b)) (q_upper q);
    _ ← try_fold (fun _ bound => validate_bound field_type bound) tt (omap id [lower; upper]);
    reject (match lower, upper with
            | Some lower, Some upper => bool_decide (partial_cmp_same_type lower upper = Some Gt)
            | _, _ => false
            end) (corrupt "relational metric bounds are reversed")
  end.
(** [ORDER BY file_id] and [ORDER BY m.file_id, m.field_id] *)
Definition files_by_id (d : Db) : list (bytes * FileRow) := merge_sort (fun a b => bytes_cmp a.1 b.1 <> Gt) (map_to_list (db_files d)).
Definition metrics_by_id (d : Db) : list ((bytes * Z) * MetricRow) :=
  merge_sort (fun a b => bytes_cmp a.1.1 b.1.1 = Lt \/ bytes_cmp a.1.1 b.1.1 = Eq /\ a.1.2 <= b.1.2) (map_to_list (db_metrics d)).
Definition validate_file_descriptors (d : Db) : rresult unit :=
  _ ← try_fold (fun _ kv => validate_descriptor kv.2) tt (files_by_id d);
  try_fold (fun _ kv => validate_metric_row d kv.1 kv.2) tt (metrics_by_id d).

(** [SELECT feature_name FROM otmp_features WHERE requirement IN (.., 'both') ORDER BY feature_name] *)
Definition feature_rows (d : Db) (requirement : string) : list string :=
  merge_sort (fun a b => String.compare a b <> Gt)
    (omap (fun kv => if bool_decide (kv.1.2 = requirement) || bool_decide (kv.1.2 = "both") then Some kv.1.1 else None) (map_to_list (db_features d))).

(** [validate], after the checks of [otmp_meta] against the head *)
Definition validate_rows (expected : ExpectedImage) (d : Db) : rresult unit :=
  m ← row (db_meta d);
  _ ← reject (negb (defaults_exist m d)) (corrupt "metadata defaults do not exist");
  _ ← validate_commits expected d;
  _ ← validate_relational_history d (ei_table_version expected) (m_last_sequence_number m);
  _ ← reject (some_row (fun _ r => negb (refers (r_snapshot r) (db_snapshots d))) (db_refs d)) (corrupt "ref references missing snapshot");
  _ ← reject (some_row (live_error d) (db_live d)) (corrupt "live membership is inconsistent");
  _ ← reject (unexpected_rows d) (corrupt "relational state uses features outside the local/full-image profile append profile");
  _ ← try_fold (fun _ kv => validate_membership d kv.1 kv.2) tt (map_to_list (db_refs d));
  _ ← validate_schemas d;
  _ ← validate_file_descriptors d;
  reader ← canonical_string (feature_rows d "reader");
  writer ← canonical_string (feature_rows d "writer");
  reject (negb (bool_decide (reader = ei_reader_features_json expected)) || negb (bool_decide (writer = ei_writer_features_json expected)))
    (corrupt "feature rows do not match feature set").
End image.
