(* ===== verification/HistoryFacts.v ===== *)
(** Facts of snapshot ancestry: the loops end, and return the line of parents. *)
From S2P Require Import Prelude Bytes Errors Values Scalars CanonicalJson PageTree Objects Database History.

(** ** The loop *)

Section loop.
Context (step : Id -> Z -> rresult (option Id * Z)).

(** The chain of parents that [step] reads from [tip] on. *)
Inductive steps : Z -> option Id -> list Id -> Prop :=
| steps_nil last : steps last None []
| steps_cons last id parent sequence rest :
  step id last = Ok (parent, sequence) -> steps sequence parent rest -> steps last (Some id) (id :: rest).

(** A snapshot's number does not depend on the last one, and is below it. *)
Context (number : Id -> Z) (Hnumber : forall id last parent sequence, step id last = Ok (parent, sequence) -> sequence = number id /\ sequence < last).

Lemma steps_below last tip rest : steps last tip rest -> forall id, id ∈ rest -> number id < last.
Proof.
  induction 1 as [|last id parent sequence rest Hs _ IH]; intros x Hx; [by apply not_elem_of_nil in Hx|].
  destruct (Hnumber _ _ _ _ Hs) as [-> Hl]. apply elem_of_cons in Hx as [->|Hx]; [done|]. specialize (IH x Hx). lia.
Qed.
Lemma steps_nodup last tip rest : steps last tip rest -> NoDup rest.
Proof.
  induction 1 as [|last id parent sequence rest Hs Hrest IH]; constructor; [|done].
  intros Hin. destruct (Hnumber _ _ _ _ Hs) as [-> _]. pose proof (steps_below _ _ _ Hrest id Hin). lia.
Qed.

Lemma loop_steps fuel : forall tip last chain result, ancestry_loop fuel step tip last chain = Some (Ok result) ->
  exists rest, result = chain ++ rest /\ steps last tip rest.
Proof.
  induction fuel as [|fuel IH]; intros [id|] last chain result; cbn [ancestry_loop]; try done;
    try (intros [= <-]; exists []; split; [by rewrite app_nil_r|constructor]).
  destruct (bool_decide _); cbn [reject mbind result_bind]; [done|]. destruct (step id last) as [[parent sequence]|e] eqn:Hs; [|done]. intros E.
  apply IH in E as (rest & -> & Hrest). exists (id :: rest). split; [by rewrite <- app_assoc|]. by econstructor.
Qed.
Lemma steps_loop fuel : forall tip last chain rest, steps last tip rest -> NoDup (chain ++ rest) -> (length rest <= fuel)%nat ->
  ancestry_loop fuel step tip last chain = Some (Ok (chain ++ rest)).
Proof.
  induction fuel as [|fuel IH]; intros tip last chain rest Hs Hnd Hl; destruct Hs as [last|last id parent sequence rest Hs Hrest];
    cbn [ancestry_loop]; try (by rewrite app_nil_r); [cbn in Hl; lia|].
  assert (id ∉ chain) as Hin. { apply NoDup_app in Hnd as (_ & Hd & _). intros Hin. apply (Hd id Hin). left. }
  rewrite bool_decide_eq_false_2 by done. cbn [reject mbind result_bind]. rewrite Hs.
  cbn [mbind result_bind]. rewrite (cons_middle id chain rest), app_assoc in *. apply IH; [done|done|cbn in Hl; lia].
Qed.
End loop.

#[export] Instance id_bytes_inj : Inj eq eq id_bytes.
Proof. by intros [] [] [= ->]. Qed.
(** Rows that are read are rows: enough fuel. *)
Lemma rows_bound {V} (m : gmap bytes V) (l : list Id) : NoDup l -> (forall id, id ∈ l -> is_Some (m !! id_bytes id)) -> (length l <= size m)%nat.
Proof.
  intros Hnd Hl. rewrite <- size_dom. rewrite <- (length_fmap id_bytes).
  assert (NoDup (id_bytes <$> l)) as Hnd' by (by apply (NoDup_fmap_2 id_bytes)).
  rewrite <- (size_list_to_set (C := gset bytes)) by done. apply subseteq_size. intros b Hb.
  apply elem_of_list_to_set, list_elem_of_fmap in Hb as (id & -> & Hid). apply elem_of_dom. by apply Hl.
Qed.

(** Every round that goes on takes another row, so the loop ends within a round more
    than there are rows, with the same result whatever fuel is left. *)
Lemma loop_ends {V} (m : gmap bytes V) (step : Id -> Z -> rresult (option Id * Z))
    (Hstep : forall id last p, step id last = Ok p -> is_Some (m !! id_bytes id)) fuel : forall tip last chain,
  NoDup chain -> (forall id, id ∈ chain -> is_Some (m !! id_bytes id)) -> (size m < length chain + fuel)%nat ->
  exists r, forall fuel', (fuel <= fuel')%nat -> ancestry_loop fuel' step tip last chain = Some r.
Proof.
  induction fuel as [|fuel IH]; intros tip last chain Hnd Hc Hf; pose proof (rows_bound m chain Hnd Hc) as Hb; [lia|].
  destruct tip as [id|]; [|by eexists; intros [|]]. case (decide (id ∈ chain)) as [Hin|Hin].
  { eexists. intros [|fuel'] ?; [lia|]. cbn [ancestry_loop]. by rewrite bool_decide_eq_true_2. }
  destruct (step id last) as [[parent sequence]|e] eqn:E.
  - destruct (IH parent sequence (chain ++ [id])) as [r Hr]; rewrite ?length_app; cbn [length]; try lia.
    + apply NoDup_app. split_and!; [done| |apply NoDup_singleton]. intros x Hx Hx'%list_elem_of_singleton. by subst x.
    + intros x [Hx|Hx%list_elem_of_singleton]%elem_of_app; [by apply Hc|]. subst x. by eapply Hstep.
    + exists r. intros [|fuel'] ?; [lia|]. cbn [ancestry_loop]. rewrite bool_decide_eq_false_2 by done. cbn [reject mbind result_bind]. rewrite E. apply Hr. lia.
  - eexists. intros [|fuel'] ?; [lia|]. cbn [ancestry_loop]. rewrite bool_decide_eq_false_2 by done. cbn [reject mbind result_bind]. by rewrite E.
Qed.

Section ancestry.
Context `{HexCrate, SqlEngine, SerdeJson}.

(** The line of parents: each snapshot can be read, and numbers fall. *)
Inductive lineage (d : Db) : Z -> option Id -> list Id -> Prop :=
| lineage_root last : lineage d last None []
| lineage_step last id s rest :
  descriptor d id = Ok s -> sd_sequence_number s < last -> lineage d (sd_sequence_number s) (sd_parent_snapshot_id s) rest ->
  lineage d last (Some id) (id :: rest).

Lemma ancestry_step_ok d id last parent sequence : ancestry_step d id last = Ok (parent, sequence) <->
  exists s, descriptor d id = Ok s /\ sd_sequence_number s < last /\ parent = sd_parent_snapshot_id s /\ sequence = sd_sequence_number s.
Proof.
  unfold ancestry_step. rewrite bind_ok. setoid_rewrite map_err_ok. setoid_rewrite bind_reject. split.
  - intros (s & Hs & Hl & [= <- <-]). bool_to_prop. by exists s.
  - intros (s & Hs & Hl & -> & ->). exists s. split_and!; try done. by apply Z.leb_gt.
Qed.

Lemma lineage_steps d last tip rest : lineage d last tip rest <-> steps (ancestry_step d) last tip rest.
Proof.
  split; induction 1; try constructor.
  - econstructor; [|done]. apply ancestry_step_ok. eauto.
  - apply ancestry_step_ok in H2 as (s & Hs & Hl & -> & ->). by econstructor.
Qed.

Lemma descriptor_some d id s : descriptor d id = Ok s -> is_Some (db_snapshots d !! id_bytes id).
Proof. unfold descriptor. intros (r & Hr & _)%bind_ok. apply ok_or_ok in Hr. by eexists. Qed.

(** The result of the loop with the fuel it is given, and with any more *)
Lemma walk_ends d (step : Id -> Z -> rresult (option Id * Z)) tip : (forall id last p, step id last = Ok p -> is_Some (db_snapshots d !! id_bytes id)) ->
  exists r, forall fuel, (size (db_snapshots d) < fuel)%nat -> ancestry_loop fuel step tip (2 ^ 64 - 1) [] = Some r.
Proof.
  intros Hstep. destruct (loop_ends (db_snapshots d) step Hstep (ancestry_fuel d) tip (2 ^ 64 - 1) []) as [r Hr].
  - constructor.
  - by intros id ?%not_elem_of_nil.
  - unfold ancestry_fuel. cbn. lia.
  - exists r. intros fuel Hf. apply Hr. unfold ancestry_fuel. lia.
Qed.
(** A walk succeeds exactly with a chain of steps. *)
Lemma walk_steps d (step : Id -> Z -> rresult (option Id * Z)) (number : Id -> Z) tip chain :
  (forall id last parent sequence, step id last = Ok (parent, sequence) -> sequence = number id /\ sequence < last) ->
  (forall id last p, step id last = Ok p -> is_Some (db_snapshots d !! id_bytes id)) ->
  within_fuel (ancestry_loop (ancestry_fuel d) step tip (2 ^ 64 - 1) []) = Ok chain <-> steps step (2 ^ 64 - 1) tip chain.
Proof.
  intros Hn Hrow. split.
  - unfold within_fuel. destruct (ancestry_loop _ _ _ _ _) as [r|] eqn:E; [|done]. cbn. intros ->. by apply loop_steps in E as (rest & -> & ?).
  - intros Hs. pose proof (steps_nodup _ _ Hn _ _ _ Hs) as Hnd. rewrite (steps_loop _ _ _ _ [] chain); [done|done|exact Hnd|].
    unfold ancestry_fuel. apply le_S, rows_bound; [done|]. clear Hnd.
    induction Hs as [|last id parent sequence rest Hs _ IH]; intros x Hx; [by apply not_elem_of_nil in Hx|].
    apply elem_of_cons in Hx as [->|Hx]; [|by apply IH]. by eapply Hrow.
Qed.

Lemma ancestry_step_row d id last p : ancestry_step d id last = Ok p -> is_Some (db_snapshots d !! id_bytes id).
Proof. destruct p. intros (s & Hs & _)%ancestry_step_ok. by eapply descriptor_some. Qed.
Lemma ancestry_lineage d tip chain : ancestry d tip = Ok chain <-> lineage d (2 ^ 64 - 1) tip chain.
Proof.
  rewrite lineage_steps. apply (walk_steps d _ (fun id => from_option sd_sequence_number 0 (ok (descriptor d id)))); [|apply ancestry_step_row].
  intros id last parent sequence (s & Hs & Hl & _ & ->)%ancestry_step_ok. by rewrite Hs.
Qed.

(** The line the writer follows: rows with falling positive numbers, whose parents
    are identifiers. *)
Inductive writer_lineage (d : Db) : Z -> option Id -> list Id -> Prop :=
| writer_root last : writer_lineage d last None []
| writer_next last id s parent rest :
  db_snapshots d !! id_bytes id = Some s -> 0 < s_sequence s < last ->
  match s_parent s with Some b => len b = 16 /\ exists p, parent = Some p /\ id_try_from_bytes b = Ok p | None => parent = None end ->
  writer_lineage d (s_sequence s) parent rest -> writer_lineage d last (Some id) (id :: rest).

Lemma writer_step_ok d id last parent sequence : writer_step d id last = Ok (parent, sequence) <->
  exists s, db_snapshots d !! id_bytes id = Some s /\ 0 < s_sequence s < last /\ sequence = s_sequence s /\
    match s_parent s with Some b => len b = 16 /\ exists p, parent = Some p /\ id_try_from_bytes b = Ok p | None => parent = None end.
Proof.
  unfold writer_step, row. rewrite bind_ok. setoid_rewrite ok_or_ok. setoid_rewrite bind_reject. setoid_rewrite orb_false_iff. setoid_rewrite Z.leb_gt.
  split.
  - intros (s & Hs & Hn & E). apply bind_ok in E as (p & Hp & [= <- <-]). exists s. split_and!; try done; [lia..|].
    destruct (s_parent s) as [b|]; cbn [transpose] in Hp; [|by injection Hp]. apply bind_ok in Hp as (x & Hx & [= <-]). apply bind_reject in Hx as [Hl Hx].
    apply map_err_ok in Hx. bool_to_prop. split; [done|]. by exists x.
  - intros (s & Hs & Hn & -> & Hp). exists s. split_and!; [done|lia|lia|]. destruct (s_parent s) as [b|]; [|by subst].
    destruct Hp as (Hl & p & -> & Hp). cbn [transpose]. rewrite Hl, Hp. done.
Qed.
Lemma writer_lineage_steps d last tip rest : writer_lineage d last tip rest <-> steps (writer_step d) last tip rest.
Proof.
  split; induction 1 as [|? ? ? ? ? Hs]; try constructor.
  - econstructor; [|done]. apply writer_step_ok. eauto.
  - apply writer_step_ok in Hs as (s & Hs & Hl & -> & Hp). by econstructor.
Qed.
Lemma writer_step_row d id last p : writer_step d id last = Ok p -> is_Some (db_snapshots d !! id_bytes id).
Proof. unfold writer_step. intros (s & Hs%ok_or_ok & _)%bind_ok. by eexists. Qed.
Lemma writer_ancestry_lineage d tip chain : writer_ancestry d tip = Ok chain <-> writer_lineage d (2 ^ 64 - 1) tip chain.
Proof.
  rewrite writer_lineage_steps. apply (walk_steps d _ (fun id => from_option s_sequence 0 (db_snapshots d !! id_bytes id))); [|apply writer_step_row].
  intros id last parent sequence (s & Hs & Hl & -> & _)%writer_step_ok. rewrite Hs. cbn. lia.
Qed.
End ancestry.

(** ** Property *)

(** C17: the walk over the parents of a snapshot ends on every image, a table of
    snapshots that refer to each other in a circle included: for the readers and for
    the writer, the loop comes to a result within one round more than there are
    snapshots, the same however many more rounds it may take; and it succeeds exactly
    with the line of snapshots that can be read one after the other with falling
    sequence numbers. *)
Theorem ancestry_ends `{HexCrate, SqlEngine, SerdeJson} (d : Db) (tip : option Id) :
  (forall fuel, (size (db_snapshots d) < fuel)%nat ->
     ancestry_loop fuel (ancestry_step d) tip (2 ^ 64 - 1) [] = Some (ancestry d tip) /\
     ancestry_loop fuel (writer_step d) tip (2 ^ 64 - 1) [] = Some (writer_ancestry d tip)) /\
  (forall chain, ancestry d tip = Ok chain <-> lineage d (2 ^ 64 - 1) tip chain) /\
  (forall chain, writer_ancestry d tip = Ok chain <-> writer_lineage d (2 ^ 64 - 1) tip chain).
Proof.
  split_and!; [|intros chain; apply ancestry_lineage|intros chain; apply writer_ancestry_lineage].
  destruct (walk_ends d _ tip (ancestry_step_row d)) as [r Hr], (walk_ends d _ tip (writer_step_row d)) as [w Hw]. intros fuel Hf.
  unfold ancestry, writer_ancestry. rewrite !Hr, !Hw by (unfold ancestry_fuel; lia). done.
Qed.

(** ** Example *)

#[local] Instance example_hex : HexCrate := hex_reference.
#[local] Instance example_engine : SqlEngine := {| sql_failure := RuntimeError.Sqlite |}.
#[local] Instance example_serde : SerdeJson := json_reference (as_bytes "null") JUnit.

(** Two snapshots that are each other's parent *)
Definition circle_id (n : Z) : Id := MkId (be_bytes 6 0 ++ [Byte.x70; Byte.x00; Byte.x80] ++ be_bytes 7 n).
Definition circle_row (n parent : Z) : SnapshotRow :=
  {| s_parent := Some (id_bytes (circle_id parent)); s_sequence := n; s_schema_id := 1; s_partition_spec_id := 0; s_sort_order_id := 0;
     s_operation := "append"; s_version := n; s_committed_at_ms := 0; s_summary := "null"; s_metadata := "null" |}.
Definition circle : Db :=
  MkDb None ∅ ∅ ∅ ∅ ∅ ∅ ∅ ∅ ∅ ∅ {[id_bytes (circle_id 1) := circle_row 1 2; id_bytes (circle_id 2) := circle_row 2 1]} ∅ ∅ ∅ ∅ ∅ ∅.
Lemma ancestry_ends_witness :
  ancestry_loop 3 (writer_step circle) (Some (circle_id 1)) (2 ^ 64 - 1) [] = Some (Err (corrupt "nondecreasing snapshot ancestry")) /\
  ancestry_loop 3 (ancestry_step circle) (Some (circle_id 1)) (2 ^ 64 - 1) [] = Some (ancestry circle (Some (circle_id 1))) /\
  ~ exists chain, writer_lineage circle (2 ^ 64 - 1) (Some (circle_id 1)) chain.
Proof.
  destruct (ancestry_ends circle (Some (circle_id 1))) as (Hends & _ & Hw). destruct (Hends 3%nat ltac:(vm_compute; lia)) as [E1 E2].
  assert (writer_ancestry circle (Some (circle_id 1)) = Err (corrupt "nondecreasing snapshot ancestry")) as E by (vm_compute; reflexivity).
  split; [rewrite E2, E; reflexivity|]. split; [exact E1|]. intros [chain Hc]. apply Hw in Hc. rewrite E in Hc. discriminate Hc.
Defined.
