(* ===== verification/FileOrder.v ===== *)
(** The order in which the files of a snapshot are listed, by sequence number and
    then by identifier, and that a listing is a function of the set of its files. *)
From S2P Require Import Prelude Bytes Errors Values Scalars PageTree Objects Database History.

(** ** Byte strings *)

Lemma bytes_cmp_eq a : forall b, bytes_cmp a b = Eq <-> a = b.
Proof.
  induction a as [|x a IH]; intros [|y b]; cbn [bytes_cmp]; try done.
  destruct (byte_to_Z x ?= byte_to_Z y) eqn:E.
  - apply Z.compare_eq, byte_to_Z_inj in E as ->. rewrite IH. split; [by intros ->|by intros [= ->]].
  - split; [done|]. intros [= -> ->]. by rewrite Z.compare_refl in E.
  - split; [done|]. intros [= -> ->]. by rewrite Z.compare_refl in E.
Qed.
Lemma bytes_cmp_opp a : forall b, bytes_cmp b a = CompOpp (bytes_cmp a b).
Proof.
  induction a as [|x a IH]; intros [|y b]; cbn [bytes_cmp]; try done.
  rewrite (Z.compare_antisym (byte_to_Z x) (byte_to_Z y)). by destruct (byte_to_Z x ?= byte_to_Z y); cbn.
Qed.
Lemma bytes_cmp_trans a : forall b c, bytes_cmp a b <> Gt -> bytes_cmp b c <> Gt -> bytes_cmp a c <> Gt.
Proof.
  induction a as [|x a IH]; intros [|y b] [|z c]; cbn [bytes_cmp]; try done.
  destruct (Z.compare_spec (byte_to_Z x) (byte_to_Z y)) as [E1|E1|E1], (Z.compare_spec (byte_to_Z y) (byte_to_Z z)) as [E2|E2|E2],
    (Z.compare_spec (byte_to_Z x) (byte_to_Z z)) as [E3|E3|E3]; try done; try (exfalso; lia).
  apply IH.
Qed.

(** ** Keys *)

#[export] Instance file_le_transitive : Transitive file_le.
Proof.
  intros [a x] [b y] [c z]. unfold file_le. cbn. intros [H1|[H1 H1']] [H2|[H2 H2']]; [left; lia..|right; split; [lia|]].
  by eapply bytes_cmp_trans.
Qed.
#[export] Instance file_le_total : Total file_le.
Proof.
  intros [a x] [b y]. unfold file_le. cbn. destruct (Z.lt_trichotomy a b) as [?|[->|?]]; [tauto| |tauto].
  rewrite (bytes_cmp_opp x y). destruct (bytes_cmp x y); cbn; [left|left|right]; right; by split.
Qed.
#[export] Instance file_le_antisymm : AntiSymm eq file_le.
Proof.
  intros [a x] [b y]. unfold file_le. cbn. intros [H1|[-> H1]] [H2|[H2 H2']]; try lia. f_equal.
  rewrite (bytes_cmp_opp x y) in H2'. apply bytes_cmp_eq. by destruct (bytes_cmp x y).
Qed.
#[export] Instance live_le_transitive : Transitive live_le.
Proof. intros a b c. unfold live_le. apply file_le_transitive. Qed.
#[export] Instance live_le_total : Total live_le.
Proof. intros a b. apply file_le_total. Qed.
#[export] Instance row_le_transitive : Transitive row_le.
Proof. intros a b c. unfold row_le. apply file_le_transitive. Qed.
#[export] Instance row_le_total : Total row_le.
Proof. intros a b. apply file_le_total. Qed.

(** ** Listings *)

(** Files that are the same file where they have the same key. *)
Definition keyed (l : list LiveFile) : Prop := forall a b, a ∈ l -> b ∈ l -> live_key a = live_key b -> a = b.

Lemma listing_unique l1 l2 : keyed l1 -> StronglySorted live_le l1 -> StronglySorted live_le l2 -> l1 ≡ₚ l2 -> l1 = l2.
Proof.
  intros Hk H1 H2 Hp. eapply (StronglySorted_unique_strong live_le); [|done..].
  intros a b Ha Hb Hab Hba. apply Hk; [done|by rewrite Hp|]. by apply (anti_symm file_le).
Qed.
(** A sorted listing is the sorting of any arrangement of its files. *)
Lemma sorted_listing l m : keyed l -> StronglySorted live_le l -> m ≡ₚ l -> merge_sort live_le m = l.
Proof.
  intros Hk Hs Hp. symmetry. apply listing_unique; [done|done|apply StronglySorted_merge_sort; apply _|].
  by rewrite merge_sort_Permutation.
Qed.
Lemma sort_permutation l m : keyed l -> m ≡ₚ l -> merge_sort live_le m = merge_sort live_le l.
Proof.
  intros Hk Hp. apply sorted_listing; [|apply StronglySorted_merge_sort; apply _|by rewrite merge_sort_Permutation].
  intros a b. rewrite merge_sort_Permutation. apply Hk.
Qed.
(** Older files come first. *)
Lemma sort_older l m : keyed (l ++ m) -> (forall a b, a ∈ l -> b ∈ m -> lf_sequence_number a < lf_sequence_number b) ->
  merge_sort live_le (l ++ m) = merge_sort live_le l ++ merge_sort live_le m.
Proof.
  intros Hk Hlt. apply sorted_listing.
  - intros a b. rewrite !merge_sort_Permutation. apply Hk.
  - apply StronglySorted_app_2; [|apply StronglySorted_merge_sort; apply _..].
    intros a b. rewrite !merge_sort_Permutation. intros Ha Hb. left. by apply Hlt.
  - by rewrite !merge_sort_Permutation.
Qed.
