(* ===== verification/TransactionFacts.v ===== *)
(** Why a metadata transaction may be rebased: a request that is prepared on two
    images finds in both what it is about to change, and means the same. *)
From S2P Require Import Prelude Bytes Errors Values Scalars CanonicalJson Hashes Schema PageTree ByteArray Objects Database History SchemaRows Transactions.

Ltac open_steps := repeat first
  [ match goal with E : (_ ← reject _ _; _) = Ok _ |- _ => let H := fresh "Hc" in apply bind_reject in E as [H E] end
  | match goal with E : (_ ← required _ _; _) = Ok _ |- _ => let H := fresh "Hr" in apply bind_unit in E as [H E] end
  | match goal with E : (_ ≫= _) = Ok _ |- _ => let x := fresh "x" in let H := fresh "Hx" in apply bind_ok in E as (x & H & E) end ].

Section facts.
Context `{HexCrate, Sha2Crate, SqlEngine, SerdeJson} `{FromJson (list cvalue)}
  `{ToJson LogicalType, FromJson LogicalType, ToJson scalar, FromJson scalar}.
Context (requirement_debug : Requirement -> string).

(** ** Requirements *)

Lemma evaluate_ok d requirements : evaluate requirement_debug d requirements = Ok tt <->
  forall r, r ∈ requirements -> matched d r = Ok true.
Proof.
  unfold evaluate. rewrite check_all. split; intros Hall r Hr; specialize (Hall r Hr).
  - apply bind_ok in Hall as ([] & Hm & E); [done|]. by apply reject_ok in E.
  - by rewrite Hall.
Qed.

Lemma required_elem request requirement : required request requirement = Ok tt -> requirement ∈ tr_requirements request.
Proof.
  unfold required. intros E%reject_ok. bool_to_prop.
  destruct (filter _ _) as [|r l] eqn:Ef; [done|]. assert (r ∈ filter (fun r => r = requirement) (tr_requirements request)) as Hr by (rewrite Ef; left).
  apply list_elem_of_filter in Hr as [-> Hr]. done.
Qed.

(** What a requirement that holds says of a ref, a property and the schema. *)
Lemma absent_holds d name : matched d (RefAbsent name) = Ok true -> ref_row d name = Ok None.
Proof. cbn. intros ([r|] & -> & E)%bind_ok; [discriminate E|done]. Qed.
Lemma exists_holds d name kind : matched d (RefExists name kind) = Ok true -> exists id, ref_row d name = Ok (Some (kind, id)).
Proof.
  cbn. intros ([[k i]|] & -> & E)%bind_ok; [|discriminate E]. cbn in E. injection E as E. bool_to_prop. subst. by eexists.
Qed.
Lemma snapshot_is_holds d name id : matched d (RefSnapshotIs name id) = Ok true -> exists kind, ref_row d name = Ok (Some (kind, id)).
Proof.
  cbn. intros ([[k i]|] & -> & E)%bind_ok; [|discriminate E]. cbn in E. injection E as E. bool_to_prop. subst. by eexists.
Qed.

(** The value of a property: absent is null. *)
Definition property_value (d : Db) (key : string) : rresult cvalue :=
  match db_properties d !! key with
  | None => Ok CanonicalValue.Null
  | Some p => of_protocol (parse_canonical (as_bytes (o_value p)))
  end.
Lemma property_holds d key value : matched d (PropertyIs key value) = Ok true -> property_value d key = Ok value.
Proof.
  unfold property_value. cbn. destruct (db_properties d !! key) as [p|].
  - intros (v & -> & E)%bind_ok. injection E as E. by bool_to_prop; subst.
  - intros E. injection E as E. by bool_to_prop; subst.
Qed.

Definition current_schema_id (d : Db) : rresult Z := m ← meta_row d; Ok (m_current_schema_id m).
Lemma schema_holds d id : matched d (CurrentSchemaIs id) = Ok true -> current_schema_id d = Ok id.
Proof. unfold current_schema_id. cbn. intros (m & -> & E)%bind_ok. injection E as E. cbn. by bool_to_prop; subst. Qed.

(** ** What an operation is about to change *)

Definition touched_ref (o : OperationRequest) : option string :=
  match o with CreateRef _ name _ _ | ReplaceRef _ name _ | DropRef _ name => Some name | _ => None end.
Definition touched_keys (o : OperationRequest) : list string :=
  match o with SetProperties _ updates removals => updates.*1 ++ removals | _ => [] end.
Definition touches_schema (o : OperationRequest) : bool :=
  match o with AddSchema _ _ | SetCurrentSchema _ _ => true | _ => false end.

(** Two images agree on what the operation changes. *)
Definition agree (d1 d2 : Db) (o : OperationRequest) : Prop :=
  (forall name, touched_ref o = Some name -> ref_row d1 name = ref_row d2 name) /\
  (forall key, key ∈ touched_keys o -> property_value d1 key = property_value d2 key) /\
  (touches_schema o = true -> current_schema_id d1 = current_schema_id d2).

Section two_images.
Context (d1 d2 : Db) (request : TransactionRequest)
  (Hev1 : evaluate requirement_debug d1 (tr_requirements request) = Ok tt) (Hev2 : evaluate requirement_debug d2 (tr_requirements request) = Ok tt).

Lemma both r : required request r = Ok tt -> matched d1 r = Ok true /\ matched d2 r = Ok true.
Proof. intros Hr%required_elem. rewrite evaluate_ok in Hev1, Hev2. auto. Qed.

Lemma touch_keys_agree keys l keys' : try_fold (touch_key request) keys l = Ok keys' ->
  forall key, key ∈ l -> property_value d1 key = property_value d2 key.
Proof.
  revert keys. induction l as [|k l IH]; intros keys E key Hk; [by apply not_elem_of_nil in Hk|]. cbn [try_fold] in E.
  apply bind_ok in E as (keys1 & Hs & E). apply elem_of_cons in Hk as [->|Hk]; [|by eapply IH].
  unfold touch_key in Hs. apply bind_reject in Hs as [_ Hs]. apply bind_reject in Hs as [Hc _]. bool_to_prop.
  destruct (List.filter _ _) as [|r rest] eqn:Ef; [done|].
  assert (In r (r :: rest)) as Hr by by left. rewrite <- Ef in Hr. apply filter_In in Hr as [Hr Hk].
  apply list_elem_of_In in Hr. destruct r as [k' v| | | | | | | | |]; try done. apply String.eqb_eq in Hk as ->.
  rewrite evaluate_ok in Hev1, Hev2. by rewrite (property_holds d1 _ _ (Hev1 _ Hr)), (property_holds d2 _ _ (Hev2 _ Hr)).
Qed.

(** A preparation reads nothing of the image but what the requirements pin down. *)
Lemma current_read d m id : meta_row d = Ok m -> get_u32 (m_current_schema_id m) = Ok id -> current_schema_id d = Ok id.
Proof. unfold current_schema_id, get_u32. intros -> [-> _]%ok_or_ok%try_uint_some. done. Qed.

Lemma schema_agree id : required request (CurrentSchemaIs id) = Ok tt -> current_schema_id d1 = current_schema_id d2.
Proof. intros [A1%schema_holds A2%schema_holds]%both. congruence. Qed.

Lemma operation_agree p o p' : prepare_operation d1 request p o = Ok p' -> agree d1 d2 o.
Proof.
  unfold prepare_operation. intros E. open_steps.
  destruct o as [i updates removals|i name kind snapshot|i name snapshot|i name|i schema|i schema]; open_steps;
    split_and!; try done; cbn [touched_ref touched_keys touches_schema]; try (intros ? ?%elem_of_nil; done).
  - by eapply touch_keys_agree.
  - intros ? [= <-]. apply both in Hr as [A%absent_holds B%absent_holds]. congruence.
  - intros ? [= <-]. apply both in Hr as [A1%exists_holds B1%exists_holds], Hr0 as [A%snapshot_is_holds B%snapshot_is_holds].
    destruct A as (k & A), B as (k' & B), A1 as (i1 & A1), B1 as (i2 & B1). congruence.
  - intros ? [= <-]. apply both in Hr as [A1%exists_holds B1%exists_holds], Hr0 as [A%snapshot_is_holds B%snapshot_is_holds].
    destruct A as (k & A), B as (k' & B), A1 as (i1 & A1), B1 as (i2 & B1). congruence.
  - intros _. apply both in Hr as [A1%schema_holds A2%schema_holds]. congruence.
  - intros _. apply both in Hr as [A1%schema_holds A2%schema_holds]. congruence.
Qed.

Lemma operation_same p o p1 p2 : prepare_operation d1 request p o = Ok p1 -> prepare_operation d2 request p o = Ok p2 -> p1 = p2.
Proof.
  intros E1 E2. pose proof (operation_agree p o p1 E1) as [Href _]. unfold prepare_operation in E1, E2.
  apply bind_reject in E1 as [_ E1]. apply bind_reject in E2 as [_ E2].
  destruct o as [i updates removals|i name kind snapshot|i name snapshot|i name|i schema|i schema]; try congruence.
  - rewrite (Href name eq_refl) in E1. congruence.
  - apply bind_reject in E1 as [_ E1]. apply bind_reject in E2 as [_ E2]. rewrite (Href name eq_refl) in E1. congruence.
  - open_steps. destruct (omap _ (tr_requirements request)) as [|actual rest]; [done|]. open_steps. congruence.
  - open_steps. congruence.
Qed.

Lemma operations_same ops : forall p p1 p2, try_fold (prepare_operation d1 request) p ops = Ok p1 ->
  try_fold (prepare_operation d2 request) p ops = Ok p2 -> p1 = p2 /\ forall o, o ∈ ops -> agree d1 d2 o.
Proof.
  induction ops as [|o ops IH]; intros p p1 p2; cbn [try_fold].
  - intros [= <-] [= <-]. split; [done|]. by intros o ?%not_elem_of_nil.
  - intros (q1 & E1 & R1)%bind_ok (q2 & E2 & R2)%bind_ok. pose proof (operation_same _ _ _ _ E1 E2) as <-.
    destruct (IH _ _ _ R1 R2) as [-> Ha]. split; [done|]. intros o' [->|Ho']%elem_of_cons; [by eapply operation_agree|auto].
Qed.
End two_images.

(** ** No two operations change the same thing *)

Lemma touch_keys_new request l : forall keys keys', try_fold (touch_key request) keys l = Ok keys' -> NoDup keys ->
  NoDup keys' /\ keys' ≡ₚ l ++ keys.
Proof.
  induction l as [|k l IH]; intros keys keys'; cbn [try_fold].
  - by intros [= <-].
  - intros (k1 & Hs & E)%bind_ok Hnd. unfold touch_key in Hs. apply bind_reject in Hs as [Hc Hs]. apply bind_reject in Hs as [_ [= <-]].
    apply orb_false_elim in Hc as [_ Hc]. apply bool_decide_eq_false in Hc. destruct (IH _ _ E) as [Hn Hp]; [by constructor|].
    split; [done|]. rewrite Hp. symmetry. apply Permutation_middle.
Qed.

Lemma operations_distinct d request ops : forall p p', try_fold (prepare_operation d request) p ops = Ok p' -> NoDup (pr_refs p) -> NoDup (pr_keys p) ->
  (NoDup (pr_refs p') /\ pr_refs p' ≡ₚ omap touched_ref ops ++ pr_refs p) /\ (NoDup (pr_keys p') /\ pr_keys p' ≡ₚ (ops ≫= touched_keys) ++ pr_keys p).
Proof.
  induction ops as [|o ops IH]; intros p p'; cbn [try_fold].
  - by intros [= <-].
  - intros (q & Hq & E)%bind_ok Hr Hk. unfold prepare_operation in Hq.
    assert ((NoDup (pr_refs q) /\ pr_refs q ≡ₚ option_list (touched_ref o) ++ pr_refs p) /\
            (NoDup (pr_keys q) /\ pr_keys q ≡ₚ touched_keys o ++ pr_keys p)) as [[Hr1 Hr2] [Hk1 Hk2]].
    { open_steps. destruct o as [i updates removals|i name kind snapshot|i name snapshot|i name|i schema|i schema]; open_steps;
        try (match goal with Hn : validate_ref_name _ _ = Ok _ |- _ => unfold validate_ref_name in Hn; apply bind_reject in Hn as [Hn0 [= <-]];
               apply orb_false_elim in Hn0 as [_ Hn0]; apply bool_decide_eq_false in Hn0 end; injection Hq as <-; cbn; split; [|done];
             split; [by constructor|done]).
      - injection Hq as <-. cbn. split; [done|]. by eapply touch_keys_new.
      - destruct (omap _ (tr_requirements request)); [done|]. open_steps. by injection Hq as <-.
      - by injection Hq as <-. }
    destruct (IH _ _ E Hr1 Hk1) as [[? Hp] [? Hp']]. split; (split; [done|]).
    + rewrite Hp, Hr2. cbn [omap list_omap]. destruct (touched_ref o); cbn [option_list app]; [|done].
      symmetry. apply Permutation_middle.
    + rewrite Hp', Hk2. cbn [mbind list_bind]. rewrite !(assoc_L _). by rewrite (comm _ (touched_keys o) (ops ≫= touched_keys)).
Qed.
End facts.

(** C7: a metadata transaction that is prepared on two images of a table, as
    publication prepares it again on the winner of a race, gives the same results on
    both; what its operations change has the same state in both - each ref that is
    created, moved or dropped, each property that is set or removed, the current
    schema - so no update of another client is overwritten; and no two of its
    operations change the same ref or property. *)
Theorem transaction_rebase_safe `{HexCrate, Sha2Crate, SqlEngine, SerdeJson} `{FromJson LogicalType, FromJson scalar}
    (requirement_debug : Requirement -> string) (d1 d2 : Db) (request : TransactionRequest) (r1 r2 : list OperationResult)
    (Hfirst : prepare_operations requirement_debug d1 request = Ok r1) (Hsecond : prepare_operations requirement_debug d2 request = Ok r2) :
  r1 = r2 /\ (forall o, o ∈ tr_operations request -> agree d1 d2 o) /\
  NoDup (omap touched_ref (tr_operations request)) /\ NoDup (tr_operations request ≫= touched_keys).
Proof.
  unfold prepare_operations in *. apply bind_reject in Hfirst as [_ E1]. apply bind_reject in Hsecond as [_ E2].
  apply bind_unit in E1 as [Ev1 E1]. apply bind_unit in E2 as [Ev2 E2].
  apply bind_ok in E1 as (p1 & E1 & [= <-]). apply bind_ok in E2 as (p2 & E2 & [= <-]).
  destruct (operations_same _ d1 d2 request Ev1 Ev2 _ _ _ _ E1 E2) as [<- Ha]. split_and!; [done|done|..];
    destruct (operations_distinct _ _ _ _ _ E1) as [[Hr Hrp] [Hk Hkp]]; try constructor; cbn [pr_refs pr_keys] in *; rewrite app_nil_r in *.
  - by rewrite <- Hrp.
  - by rewrite <- Hkp.
Qed.

(** ** Example *)

#[local] Instance example_hex : HexCrate := hex_reference.
#[local] Instance example_sha2 : Sha2Crate := sha2_reference.
#[local] Instance example_engine : SqlEngine := {| sql_failure := RuntimeError.Sqlite |}.
#[local] Instance example_serde : SerdeJson := json_reference (as_bytes "null") JUnit.
#[local] Instance example_from_json T : FromJson T := {| serde_from_slice _ := Err "not parsed" |}.

(** Two images that differ in a property the request does not touch. *)
Definition main_only : Db :=
  MkDb None ∅ ∅ ∅ ∅ ∅ ∅ ∅ ∅ ∅ ∅ ∅ ∅ {["main" := {| r_type := "branch"; r_snapshot := None; r_created_version := 0; r_updated_version := 0 |}]} ∅ ∅ ∅ ∅.
Definition with_property : Db := set_properties {["other" := {| o_value := "1"; o_updated_version := 1 |}]} main_only.
Definition two_operations : TransactionRequest :=
  {| tr_idempotency_key := "k"; tr_requirements := [PropertyIs "owner" CanonicalValue.Null; RefAbsent "dev"];
     tr_operations := [SetProperties "p" [("owner", CanonicalValue.String "me")] []; CreateRef "r" "dev" Branch None];
     tr_commit_metadata := [] |}.

Lemma transaction_rebase_safe_witness :
  prepare_operations (fun _ => "") main_only two_operations = prepare_operations (fun _ => "") with_property two_operations /\
  ref_row main_only "dev" = ref_row with_property "dev" /\ property_value main_only "owner" = property_value with_property "owner".
Proof.
  pose (r := [PropertiesResult "p" ["owner"]; RefResult "r" "dev" Branch None]).
  destruct (transaction_rebase_safe (fun _ => "") main_only with_property two_operations r r) as (_ & Ha & _); [vm_compute; reflexivity..|].
  split; [vm_compute; reflexivity|]. split.
  - apply (proj1 (Ha (CreateRef "r" "dev" Branch None) ltac:(right; left))). reflexivity.
  - apply (proj1 (proj2 (Ha (SetProperties "p" [("owner", CanonicalValue.String "me")] []) ltac:(left)))). left.
Defined.
