(* ===== verification/DatabaseFacts.v ===== *)
(** What the statements of a relational image do: each succeeds only where its
    constraints hold, and changes one table. *)
From S2P Require Import Prelude Bytes Errors Values Scalars CanonicalJson Schema PageTree Objects Database History SchemaRows.

Section statements.
Context `{SqlEngine}.

Lemma constraint_ok b u : constraint b = Ok u <-> b = true.
Proof. unfold constraint. rewrite reject_ok. by destruct b. Qed.
Lemma row_ok {A} (o : option A) a : row o = Ok a <-> o = Some a.
Proof. apply ok_or_ok. Qed.
Lemma has_true {K V} `{Countable K} (k : K) (m : gmap K V) : has k m = true <-> is_Some (m !! k).
Proof. apply bool_decide_eq_true. Qed.
Lemma some_row_false {K V} `{Countable K} (f : K -> V -> bool) (m : gmap K V) :
  some_row f m = false <-> forall k v, m !! k = Some v -> f k v = false.
Proof.
  unfold some_row. split.
  - intros E k v Hk. destruct (f k v) eqn:Ef; [|done]. assert (existsb (fun kv => f kv.1 kv.2) (map_to_list m) = true) as <-; [|done].
    apply existsb_exists. exists (k, v). split; [|done]. by apply list_elem_of_In, elem_of_map_to_list.
  - intros Hall. destruct (existsb _ _) eqn:E; [|done]. apply existsb_exists in E as ([k v] & Hin & Ef).
    apply list_elem_of_In, elem_of_map_to_list in Hin. cbn in Ef. by rewrite Hall in Ef.
Qed.
Lemma insert_into_ok {K V} `{Countable K} (k : K) (v : V) (m m' : gmap K V) :
  insert_into k v m = Ok m' <-> m !! k = None /\ m' = <[k := v]> m.
Proof.
  unfold insert_into. rewrite bind_unit, constraint_ok, negb_true_iff. unfold has. rewrite bool_decide_eq_false, <- eq_None_not_Some.
  split; [intros [? [= <-]]|intros [? ->]]; done.
Qed.

(** A statement on one table that takes a new row *)
Lemma insert_row {K V} `{Countable K} (c : bool) (k : K) (v : V) (m : gmap K V) (f : gmap K V -> Db) d' :
  (_ ← constraint c; rows ← insert_into k v m; Ok (f rows)) = Ok d' <-> c = true /\ m !! k = None /\ d' = f (<[k := v]> m).
Proof.
  rewrite bind_unit, constraint_ok, bind_ok. setoid_rewrite insert_into_ok. split.
  - intros (Hc & rows & [Hk ->] & [= <-]). done.
  - intros (Hc & Hk & ->). split; [done|]. eexists. by split.
Qed.

Lemma update_meta_ok f d d' : update_meta f d = Ok d' ->
  (db_meta d = None /\ d' = d) \/ (exists m, db_meta d = Some m /\ meta_checks (f m) = true /\ d' = set_meta (Some (f m)) d).
Proof.
  unfold update_meta. destruct (db_meta d) as [m|] eqn:Em; [|intros [= <-]; by left].
  rewrite bind_unit, constraint_ok. intros [Hc [= <-]]. right. eauto.
Qed.
Lemma update_ref_ok name p snapshot version d n d' : update_ref name p snapshot version d = Ok (n, d') ->
  (n = 0 /\ d' = d) \/
  (exists r, n = 1 /\ db_refs d !! name = Some r /\ p r = true /\
     let r' := {| r_type := r_type r; r_snapshot := Some snapshot; r_created_version := r_created_version r; r_updated_version := version |} in
     ref_checks r' = true /\ d' = set_refs (<[name := r']> (db_refs d)) d).
Proof.
  unfold update_ref. destruct (db_refs d !! name) as [r|]; [|intros [= <- <-]; by left]. destruct (p r) eqn:Ep; [|intros [= <- <-]; by left].
  rewrite bind_unit, constraint_ok. intros [Hc [= <- <-]]. right. eauto 8.
Qed.
End statements.

(** ** What sequences of statements keep *)

(** Induction over a field and the fields below it *)
Section field_induction.
Context (P : Field -> Prop) (Hf : forall f, Forall P (children f) -> P f).
Fixpoint field_children_ind (f : Field) : P f :=
  match f with
  | MkField id name required ty doc initial write =>
    Hf (MkField id name required ty doc initial write)
      (match ty as t return Forall P (children (MkField id name required t doc initial write)) with
       | TStruct fields =>
         (fix go (l : list Field) : Forall P l :=
            match l with
            | [] => List.Forall_nil _
            | f :: l => @List.Forall_cons _ _ f l (field_children_ind f) (go l)
            end) fields
       | TList element => @List.Forall_cons _ _ element [] (field_children_ind element) (List.Forall_nil _)
       | TMap key value =>
         @List.Forall_cons _ _ key [value] (field_children_ind key)
           (@List.Forall_cons _ _ value [] (field_children_ind value) (List.Forall_nil _))
       | _ => List.Forall_nil _
       end)
  end.
End field_induction.


Section frame.
Context `{HexCrate, SqlEngine, SerdeJson} `{ToJson LogicalType, ToJson scalar}.
(** What the statements that write a schema keep, all of it keeps. *)
Context (R : Db -> Db -> Prop) `{!PreOrder R}.

Lemma try_fold_frame {A} (f : Db -> A -> rresult Db) l : (forall d a d', a ∈ l -> f d a = Ok d' -> R d d') ->
  forall d d', try_fold f d l = Ok d' -> R d d'.
Proof.
  intros Hf d d' E. apply (try_fold_inv (R d)) in E; [done|done|]. intros x a y Ha Hx Exy. etrans; [exact Hx|by eapply Hf].
Qed.

Context (Hschema : forall id s d d', insert_schema_row id s d = Ok d' -> R d d')
  (Hid : forall id first version d d', ignore_field_id id first version d = Ok d' -> R d d')
  (Hfield : forall schema field f d d', insert_field_row schema field f d = Ok d' -> R d d')
  (Hident : forall schema ordinal field d d', insert_identifier schema ordinal field d = Ok d' -> R d d').

Lemma insert_siblings_frame one : forall l n d d', (forall f, f ∈ l -> forall n d d', one n f d = Ok d' -> R d d') ->
  insert_siblings one n l d = Ok d' -> R d d'.
Proof.
  intros l. induction l as [|f l IH]; intros n d d' Hone; cbn [insert_siblings]; [by intros [= <-]|].
  intros (e & He & E)%bind_ok. etrans; [eapply Hone; [left|exact He]|]. eapply IH; [|exact E]. intros g Hg. apply Hone. by right.
Qed.
Lemma insert_field_frame schema version : forall f parent n d d', insert_field schema version parent n f d = Ok d' -> R d d'.
Proof.
  intros f. induction f as [f IH] using field_children_ind. rewrite Forall_forall in IH. intros parent n d d'. destruct f as [id name required ty doc initial write].
  cbn [insert_field]. intros (v & _ & E)%bind_ok. apply bind_ok in E as (d1 & E1%Hid & E).
  apply bind_ok in E as (o & _ & E). apply bind_ok in E as (t & _ & E). apply bind_ok in E as (i & _ & E). apply bind_ok in E as (w & _ & E).
  apply bind_ok in E as (d2 & E2%Hfield & E). etrans; [exact E1|]. etrans; [exact E2|]. clear E1 E2. unfold children in IH. cbn [field_type] in IH.
  destruct ty as [| | | | |p s| | | | | | |m| |fields|element|key value]; try (by injection E as <-).
  - eapply insert_siblings_frame; [|exact E]. eauto.
  - eapply IH; [|exact E]. left.
  - apply bind_ok in E as (d3 & E3 & E). etrans; eapply IH; [|exact E3| |exact E]; [left|right; left].
Qed.
Lemma insert_identifiers_frame schema : forall ids n d d', insert_identifiers schema n ids d = Ok d' -> R d d'.
Proof.
  intros ids. induction ids as [|id ids IH]; intros n d d'; cbn [insert_identifiers]; [by intros [= <-]|].
  intros (o & _ & E)%bind_ok. apply bind_ok in E as (d1 & E1%Hident & E). etrans; [exact E1|by eapply IH].
Qed.
Lemma insert_schema_frame s version d d' : insert_schema s version d = Ok d' -> R d d'.
Proof.
  unfold insert_schema. intros (v & _ & E)%bind_ok. apply bind_ok in E as (d1 & E1%Hschema & E).
  apply bind_ok in E as (d2 & E2 & E3%insert_identifiers_frame). etrans; [exact E1|]. etrans; [|exact E3].
  eapply insert_siblings_frame; [|exact E2]. eauto using insert_field_frame.
Qed.
End frame.

(** ** The tables of snapshots, refs and files *)

(** [d'] is [d] but for the other tables. *)
Record same_core (d d' : Db) : Prop := {
  sc_snapshots : db_snapshots d' = db_snapshots d; sc_refs : db_refs d' = db_refs d; sc_files : db_files d' = db_files d;
  sc_changes : db_changes d' = db_changes d; sc_live : db_live d' = db_live d;
  sc_sequence : m_last_sequence_number <$> db_meta d' = m_last_sequence_number <$> db_meta d }.

#[export] Instance same_core_equivalence : Equivalence same_core.
Proof.
  split; [by intros d; split|intros d e []; by split|]. intros d e f [] []. split; congruence.
Qed.

Create HintDb core_frame.

Section frames.
Context `{HexCrate, SqlEngine, SerdeJson} `{ToJson LogicalType, ToJson scalar}.

Lemma try_fold_same_core {A} (f : Db -> A -> rresult Db) : (forall d a d', f d a = Ok d' -> same_core d d') ->
  forall l d d', try_fold f d l = Ok d' -> same_core d d'.
Proof. intros Hf l d d'. apply (try_fold_frame same_core). eauto. Qed.

Lemma insert_commit_core version c d d' : insert_commit version c d = Ok d' -> same_core d d'.
Proof. intros (_ & _ & ->)%insert_row. by split. Qed.
Lemma insert_idempotency_core key y d d' : insert_idempotency key y d = Ok d' -> same_core d d'.
Proof. intros (_ & _ & ->)%insert_row. by split. Qed.
Lemma upsert_property_core key p d d' : upsert_property key p d = Ok d' -> same_core d d'.
Proof. unfold upsert_property. intros [_ [= <-]]%bind_unit. by split. Qed.
Lemma delete_property_core key d d' : delete_property key d = Ok d' -> same_core d d'.
Proof. intros [= <-]. by split. Qed.
Lemma insert_schema_row_core id s d d' : insert_schema_row id s d = Ok d' -> same_core d d'.
Proof. intros (_ & _ & ->)%insert_row. by split. Qed.
Lemma ignore_field_id_core id first version d d' : ignore_field_id id first version d = Ok d' -> same_core d d'.
Proof. unfold ignore_field_id. destruct (_ || _); [by intros [= <-]|]. intros [_ [= <-]]%bind_unit. by split. Qed.
Lemma insert_field_row_core schema field f d d' : insert_field_row schema field f d = Ok d' -> same_core d d'.
Proof. intros (_ & _ & ->)%insert_row. by split. Qed.
Lemma insert_identifier_core schema ordinal field d d' : insert_identifier schema ordinal field d = Ok d' -> same_core d d'.
Proof. intros (_ & _ & ->)%insert_row. by split. Qed.
Lemma insert_summary_core snapshot key value d d' : insert_summary snapshot key value d = Ok d' -> same_core d d'.
Proof. intros (_ & _ & ->)%insert_row. by split. Qed.
Lemma insert_metric_core file field q d d' : insert_metric file field q d = Ok d' -> same_core d d'.
Proof. intros (_ & _ & ->)%insert_row. by split. Qed.
Lemma insert_feature_core name requirement version d d' : insert_feature name requirement version d = Ok d' -> same_core d d'.
Proof. intros (_ & _ & ->)%insert_row. by split. Qed.
Lemma insert_partition_spec_core id version d d' : insert_partition_spec id version d = Ok d' -> same_core d d'.
Proof. intros (_ & _ & ->)%insert_row. by split. Qed.
Lemma insert_sort_order_core id version d d' : insert_sort_order id version d = Ok d' -> same_core d d'.
Proof. intros (_ & _ & ->)%insert_row. by split. Qed.

(** ** Schemas *)

#[local] Hint Resolve ignore_field_id_core insert_field_row_core insert_schema_row_core insert_identifier_core : core_frame.
Lemma insert_schema_core s version d d' : insert_schema s version d = Ok d' -> same_core d d'.
Proof. apply (insert_schema_frame same_core); eauto with core_frame. Qed.
End frames.
#[export] Hint Resolve insert_schema_core : core_frame.
#[export] Hint Resolve insert_commit_core insert_idempotency_core upsert_property_core delete_property_core insert_schema_row_core
  ignore_field_id_core insert_field_row_core insert_identifier_core insert_summary_core insert_metric_core insert_feature_core
  insert_partition_spec_core insert_sort_order_core : core_frame.
