(* ===== verification/SchemaFacts.v ===== *)
(** How a schema may grow (otmp/src/runtime/transactions.rs, [additive_schema]), and
    that the rows of a schema read back as the schema. *)
From S2P Require Import Prelude Bytes Errors Values Scalars CanonicalJson Schema PageTree Objects Database History SchemaRows Transactions DatabaseFacts.

(** ** Positions *)

(** The field at a position: an index at each level. *)
Fixpoint at_path (fields : list Field) (p : list nat) {struct p} : option Field :=
  match p with
  | [] => None
  | i :: p => f ← fields !! i; match p with [] => Some f | _ => at_path (children f) p end
  end.

Lemma at_path_cons_0 f fields p : at_path (f :: fields) (0%nat :: p) = match p with [] => Some f | _ => at_path (children f) p end.
Proof. done. Qed.
Lemma at_path_cons_S f fields i p : at_path (f :: fields) (S i :: p) = at_path fields (i :: p).
Proof. done. Qed.
Lemma at_path_nil p : at_path [] p = None.
Proof. by destruct p. Qed.

(** ** What a field keeps *)

Inductive same_kind : LogicalType -> LogicalType -> Prop :=
| same_primitive t : is_primitive t = true -> same_kind t t
| same_struct l l' : same_kind (TStruct l) (TStruct l')
| same_list e e' : same_kind (TList e) (TList e')
| same_map k v k' v' : same_kind (TMap k v) (TMap k' v').

(** [b] is [a] but for the fields below. *)
Record kept (a b : Field) : Prop := {
  kept_id : field_id b = field_id a; kept_name : field_name b = field_name a; kept_required : field_required b = field_required a;
  kept_doc : field_doc b = field_doc a; kept_kind : same_kind (field_type a) (field_type b);
  kept_initial : option_eqb scalar_eqb (initial_default a) (initial_default b) = true;
  kept_write : option_eqb scalar_eqb (write_default a) (write_default b) = true }.

Lemma struct_eqb l l' : type_eqb (TStruct l) (TStruct l') = true -> Forall2 (fun x y => field_eqb x y = true) l l'.
Proof.
  revert l'. induction l as [|f l IH]; intros [|f' l'] E; try discriminate E; [constructor|].
  change (field_eqb f f' && type_eqb (TStruct l) (TStruct l') = true) in E. apply andb_true_iff in E as [E1 E2]. constructor; [done|by apply IH].
Qed.
Lemma type_eqb_kind t t' : type_eqb t t' = true -> same_kind t t'.
Proof.
  destruct t, t'; intros E; try discriminate E; try (constructor; reflexivity).
  - cbn in E. bool_to_prop. subst. by constructor.
  - cbn in E. bool_to_prop. subst. by constructor.
Qed.
Lemma field_eqb_parts a b : field_eqb a b = true <->
  field_id a = field_id b /\ field_name a = field_name b /\ field_required a = field_required b /\ type_eqb (field_type a) (field_type b) = true /\
  field_doc a = field_doc b /\ option_eqb scalar_eqb (initial_default a) (initial_default b) = true /\
  option_eqb scalar_eqb (write_default a) (write_default b) = true.
Proof.
  destruct a as [id name required ty doc initial write], b as [id' name' required' ty' doc' initial' write'].
  change (field_eqb (MkField id name required ty doc initial write) (MkField id' name' required' ty' doc' initial' write')) with
    ((id =? id') && bool_decide (name = name') && Bool.eqb required required' && type_eqb ty ty' && bool_decide (doc = doc')
     && option_eqb scalar_eqb initial initial' && option_eqb scalar_eqb write write').
  cbn [field_id field_name field_required field_type field_doc initial_default write_default].
  rewrite !andb_true_iff, Z.eqb_eq, !bool_decide_eq_true, Bool.eqb_true_iff. tauto.
Qed.
Lemma field_eqb_kept a b : field_eqb a b = true -> kept a b /\ Forall2 (fun x y => field_eqb x y = true) (children a) (children b).
Proof.
  rewrite field_eqb_parts. intros (E1 & E2 & E3 & Et & E4 & E5 & E6). split; [split; try done; by apply type_eqb_kind|].
  unfold children. destruct (field_type a), (field_type b); try discriminate Et; try constructor.
  - by apply struct_eqb.
  - done.
  - constructor.
  - cbn in Et. by apply andb_true_iff in Et as [? _].
  - cbn in Et. apply andb_true_iff in Et as [_ ?]. by repeat constructor.
Qed.
Lemma comparable_kept a b : field_eqb a (comparable a b) = true -> same_kind (field_type a) (field_type b) -> kept a b.
Proof. rewrite field_eqb_parts. destruct b. cbn. intros (E1 & E2 & E3 & _ & E4 & E5 & E6) Hk. by split. Qed.

(** ** Growth *)

(** [new] keeps every field of [old] in its place, adds only optional ones, and
    [ids'] are [ids] and the identifiers of those. *)
Record grown (old new : list Field) (ids ids' : gset Z) : Prop := {
  gr_kept : forall p a, at_path old p = Some a -> exists b, at_path new p = Some b /\ kept a b;
  gr_new : forall p b, at_path new p = Some b -> at_path old p = None -> field_required b = false /\ field_id b ∈ ids';
  gr_ids : forall i, i ∈ ids' -> i ∈ ids \/ exists p b, at_path new p = Some b /\ at_path old p = None /\ field_id b = i;
  gr_more : ids ⊆ ids' }.

Lemma grown_nil ids : grown [] [] ids ids.
Proof. split; intros; rewrite ?at_path_nil in *; try done. by left. Qed.
(** One field over another, and the fields after them *)
Lemma grown_cons a b old new ids ids1 ids2 : kept a b -> grown (children a) (children b) ids ids1 -> grown old new ids1 ids2 ->
  grown (a :: old) (b :: new) ids ids2.
Proof.
  intros Hk [A1 A2 A3 A4] [B1 B2 B3 B4]. split.
  - intros [|[|i] [|j p]] x; rewrite ?at_path_cons_0, ?at_path_cons_S; try discriminate.
    + intros [= <-]. by exists b.
    + apply A1.
    + apply B1.
    + apply B1.
  - intros [|[|i] [|j p]] x; rewrite ?at_path_cons_0, ?at_path_cons_S; try discriminate.
    + intros Hn Ho. destruct (A2 _ _ Hn Ho) as [? Hin]. split; [done|]. by apply B4.
    + apply B2.
    + apply B2.
  - intros i Hi. destruct (B3 i Hi) as [Hi1|([|j p] & x & Hn & Ho & Hid)]; [|discriminate Hn|right; by exists (S j :: p), x].
    destruct (A3 i Hi1) as [?|([|j p] & x & Hn & Ho & Hid)]; [by left|discriminate Hn|right; by exists (0%nat :: j :: p), x].
  - by etrans.
Qed.
Lemma grown_new b new ids ids1 ids2 : field_required b = false -> grown [] (children b) ({[field_id b]} ∪ ids) ids1 -> grown [] new ids1 ids2 ->
  grown [] (b :: new) ids ids2.
Proof.
  intros Hb [A1 A2 A3 A4] [B1 B2 B3 B4]. split.
  - intros p a. by rewrite at_path_nil.
  - intros [|[|i] [|j p]] x; rewrite ?at_path_cons_0, ?at_path_cons_S; try discriminate.
    + intros [= <-] _. split; [done|]. apply B4, A4. set_solver.
    + intros Hn _. destruct (A2 _ _ Hn (at_path_nil _)) as [? Hin]. split; [done|]. by apply B4.
    + intros Hn _. by apply (B2 _ _ Hn), at_path_nil.
    + intros Hn _. by apply (B2 _ _ Hn), at_path_nil.
  - intros i Hi. destruct (B3 i Hi) as [Hi1|([|j p] & x & Hn & _ & Hid)]; [|discriminate Hn|right; by exists (S j :: p), x].
    destruct (A3 i Hi1) as [Hi2|([|j p] & x & Hn & _ & Hid)]; [|discriminate Hn|right; by exists (0%nat :: j :: p), x].
    apply elem_of_union in Hi2 as [->%elem_of_singleton|]; [right; by exists [0%nat], b|by left].
  - set_solver.
Qed.
Lemma grown_same f g ids : field_eqb f g = true -> grown (children f) (children g) ids ids.
Proof.
  revert g. induction f as [f IH] using field_children_ind. intros g [_ Hc]%field_eqb_kept.
  revert Hc IH. generalize (children f) as fs, (children g) as gs. intros fs gs. induction 1 as [|x y fs gs Hxy _ IHl]; intros IH; [apply grown_nil|].
  inversion IH as [|? ? Hx Hfs]; subst. eapply grown_cons; [by apply field_eqb_kept|by apply Hx|by apply IHl].
Qed.

(** ** The checks *)

Lemma collect_new_children f ids : collect_new_field f ids =
  (_ ← reject (field_required f) (invalid "new fields must be optional");
   try_fold (fun ids g => collect_new_field g ids) ({[field_id f]} ∪ ids) (children f)).
Proof.
  destruct f as [id name required ty doc initial write]. unfold children. cbn [collect_new_field field_required field_id field_type].
  destruct (reject required _); [|done]. cbn [mbind result_bind]. generalize ({[id]} ∪ ids) as s. intros s.
  destruct ty as [| | | | |p sc| | | | | | |n| |fields|element|key value]; try done.
  - revert s. induction fields as [|f fields IH]; intros s; [done|]. cbn [try_fold]. destruct (collect_new_field f s); [apply IH|done].
  - cbn [try_fold]. by destruct (collect_new_field element s).
  - cbn [try_fold]. destruct (collect_new_field key s) as [s'|]; [|done]. cbn [mbind result_bind]. by destruct (collect_new_field value s').
Qed.
Lemma collect_grown_list l : Forall (fun f => forall ids ids', collect_new_field f ids = Ok ids' ->
    field_required f = false /\ grown [] (children f) ({[field_id f]} ∪ ids) ids') l ->
  forall ids ids', try_fold (fun ids g => collect_new_field g ids) ids l = Ok ids' -> grown [] l ids ids'.
Proof.
  induction 1 as [|f l Hf _ IH]; intros ids ids'; cbn [try_fold]; [intros [= <-]; apply grown_nil|].
  intros (ids1 & [Hr Hg]%Hf & E%IH)%bind_ok. by eapply grown_new.
Qed.
Lemma collect_grown f : forall ids ids', collect_new_field f ids = Ok ids' ->
  field_required f = false /\ grown [] (children f) ({[field_id f]} ∪ ids) ids'.
Proof.
  induction f as [f IH] using field_children_ind. intros ids ids'. rewrite collect_new_children.
  intros (u & Hr%reject_ok & E)%bind_ok. split; [done|]. by apply (collect_grown_list _ IH).
Qed.

Lemma additive_list_grown (compare : Field -> Field -> gset Z -> rresult (gset Z)) old :
  (forall a, a ∈ old -> forall b ids ids', compare a b ids = Ok ids' -> kept a b /\ grown (children a) (children b) ids ids') ->
  forall new ids ids', additive_list compare old new ids = Ok ids' -> grown old new ids ids'.
Proof.
  intros Hc new ids ids' (u & Hl%reject_ok & E)%bind_ok. clear u. revert Hc new ids Hl E.
  induction old as [|a old IH]; intros Hc new ids Hl E.
  - apply (collect_grown_list new); [|by destruct new]. apply Forall_true. intros f. apply collect_grown.
  - destruct new as [|b new]; [apply Z.ltb_ge in Hl; unfold len in Hl; rewrite length_cons, length_nil in Hl; lia|]. cbn iota beta in E. apply bind_ok in E as (ids1 & E1 & E2).
    destruct (Hc a ltac:(left) _ _ _ E1) as [Hk Hg]. eapply grown_cons; [done|done|]. apply (IH ltac:(intros; eapply Hc; [by right|done])); [|done].
    apply Z.ltb_ge in Hl. apply Z.ltb_ge. unfold len in *. rewrite !length_cons in Hl. lia.
Qed.

Lemma additive_field_grown a : forall b ids ids', additive_field a b ids = Ok ids' -> kept a b /\ grown (children a) (children b) ids ids'.
Proof.
  induction a as [a IH] using field_children_ind. intros b ids ids' E. rewrite Forall_forall in IH.
  assert (field_eqb a (comparable a b) = true /\ same_kind (field_type a) (field_type b) /\ grown (children a) (children b) ids ids') as (He & Hk & Hg);
    [|by split; [apply comparable_kept|]].
  destruct a as [id name required ty doc initial write]. cbn [additive_field] in E. apply bind_ok in E as (u & He%reject_ok%negb_false_iff & E).
  split; [done|]. clear He. unfold children in *. cbn [field_type] in *.
  destruct ty as [| | | | |p sc| | | | | | |n| |fields|element|key value], (field_type b) as [| | | | |p' sc'| | | | | | |n'| |fields'|element'|key' value'];
    try discriminate E; try (split; [by constructor|injection E as <-; apply grown_nil]).
  all: try (destruct (type_eqb _ _) eqn:Et in E; [|discriminate E]; injection E as <-; split; [by apply type_eqb_kind|apply grown_nil]).
  - split; [constructor|]. eapply additive_list_grown; [|exact E]. eauto.
  - split; [constructor|]. eapply additive_list_grown; [|exact E]. cbn beta. intros a ->%list_elem_of_singleton. apply IH. left.
  - destruct (field_eqb key key') eqn:Ek; [|discriminate E]. split; [constructor|]. eapply grown_cons; [by apply field_eqb_kept|by apply grown_same|].
    eapply additive_list_grown; [|exact E]. cbn beta. intros a ->%list_elem_of_singleton. apply IH. right. left.
Qed.

(** ** Positions of a valid schema *)

Lemma at_path_snoc fields p f i g : at_path fields p = Some f -> children f !! i = Some g -> at_path fields (p ++ [i]) = Some g.
Proof.
  revert fields. induction p as [|j p IH]; intros fields; [discriminate|]. cbn [at_path app]. destruct (fields !! j) as [h|]; [|discriminate]. cbn [mbind option_bind].
  destruct p as [|k p]; [|apply IH]. intros [= ->] Hc. cbn [app at_path]. by rewrite Hc.
Qed.
Lemma at_path_snoc_none fields p i : at_path fields p = None -> p <> [] -> at_path fields (p ++ [i]) = None.
Proof.
  revert fields. induction p as [|j p IH]; intros fields E Hp; [done|]. revert E. cbn [at_path app]. destruct (fields !! j) as [h|]; [|done]. cbn [mbind option_bind].
  destruct p as [|k p]; [discriminate|]. intros E. by apply IH.
Qed.
Lemma valid_children depth f : valid_field depth f -> forall g, g ∈ children f -> exists depth', valid_field depth' g.
Proof.
  intros Hv g. inversion Hv as [? ? _ _ _ _ Hn]; subst. clear Hv. unfold children. revert Hn. generalize (field_type f) as t. intros t Hn.
  inversion Hn as [? l Hs|? e Hs|? k v _ _ Hk Hs|? t' Hp]; subst; [| | |by destruct t; try discriminate Hp; intros ?%elem_of_nil]; inversion Hs as [? ? _ _ Hf]; subst; clear Hs; intros Hg.
  - eexists. by apply Hf.
  - eexists. by apply Hf.
  - apply elem_of_cons in Hg as [->|Hg]; [|eexists; by apply Hf]. inversion Hk as [? ? _ _ Hf']; subst. eexists. apply Hf'. left.
Qed.
Lemma valid_at_path fields p f : (forall g, g ∈ fields -> exists depth, valid_field depth g) -> at_path fields p = Some f -> exists depth, valid_field depth f.
Proof.
  revert fields. induction p as [|j p IH]; intros fields Hf; [discriminate|]. cbn [at_path]. destruct (fields !! j) as [h|] eqn:E; [|discriminate]. cbn [mbind option_bind].
  apply list_elem_of_lookup_2 in E. destruct p as [|k p]; [intros [= <-]; by apply Hf|]. destruct (Hf h E) as [d Hd]. apply IH. by eapply valid_children.
Qed.

Lemma nan_differs s t : scalar_is_nan s = true -> scalar_eqb s t = false.
Proof.
  destruct s, t; intros Hn; try discriminate Hn; cbn [scalar_is_nan scalar_eqb] in *; try (apply bool_decide_eq_false; discriminate).
  - apply bool_decide_eq_false. unfold f32_partial_cmp. by rewrite Hn.
  - apply bool_decide_eq_false. unfold f64_partial_cmp. by rewrite Hn.
Qed.
Lemma strictly_sorted (l : list Z) : StronglySorted Z.le l -> NoDup l -> StronglySorted Z.lt l.
Proof.
  induction 1 as [|x l Hl IH Hx]; intros Hd; [constructor|]. apply NoDup_cons in Hd as [Hn Hd]. constructor; [by apply IH|].
  apply Forall_forall. intros y Hy. rewrite Forall_forall in Hx. specialize (Hx y Hy). assert (x <> y) by (intros ->; done). lia.
Qed.

Lemma additive_schema_grown old new l : additive_schema old new = Ok l -> exists ids,
  (forall p b, at_path (schema_fields new) p = Some b -> exists depth, valid_field depth b) /\
  parent_schema_id new = Some (schema_id old) /\ identifier_field_ids new = identifier_field_ids old /\
  grown (schema_fields old) (schema_fields new) ∅ ids /\ l = merge_sort Z.le (elements ids).
Proof.
  intros (u & Hv & E)%bind_ok. apply bind_ok in E as (u' & [Hp Hi]%reject_ok%orb_false_iff & E). apply bind_ok in E as (ids & E & Hl). injection Hl as <-.
  exists ids. apply negb_false_iff, bool_decide_eq_true in Hp, Hi. split_and!; try done.
  - intros p b. apply valid_at_path. unfold validate_schema in Hv. destruct (reject _ _) in Hv; [|discriminate Hv]. cbn [mbind result_bind] in Hv.
    destruct (validate_siblings _ _ _ _ _) as [st|] eqn:Es in Hv; [|discriminate Hv]. apply (siblings_validates 64 1 ltac:(lia)) in Es as [Hs _].
    inversion Hs as [? ? _ _ Hf]; subst. eauto.
  - eapply additive_list_grown; [|exact E]. intros a _. apply additive_field_grown.
Qed.

(** ** What the check of a new schema establishes *)

(** C11: A schema the transaction accepts over the current one keeps every field, at
    every depth, in its position with its identifier, name, requiredness,
    annotation, defaults and kind of type, is [old]'s declared child with the same
    identifier fields, adds optional fields only, and the field identifiers the
    transaction must declare absent are those of the added fields, in order. *)
Theorem additive_schema_safe (old new : Schema) (l : list Z) : additive_schema old new = Ok l ->
  parent_schema_id new = Some (schema_id old) /\ identifier_field_ids new = identifier_field_ids old /\
  (forall p a, at_path (schema_fields old) p = Some a -> exists b, at_path (schema_fields new) p = Some b /\ kept a b) /\
  (forall p b, at_path (schema_fields new) p = Some b -> at_path (schema_fields old) p = None -> field_required b = false) /\
  (forall i, i ∈ l <-> exists p b, at_path (schema_fields new) p = Some b /\ at_path (schema_fields old) p = None /\ field_id b = i) /\
  StronglySorted Z.lt l.
Proof.
  intros (ids & _ & Hp & Hi & [Hk Hn Hs _] & ->)%additive_schema_grown. split_and!; try done.
  - intros p b Hb Ho. by apply (Hn p b).
  - intros i. rewrite merge_sort_Permutation, elem_of_elements. split.
    + intros [?|?]%Hs; [set_solver|done].
    + intros (p & b & Hb & Ho & <-). by apply (Hn p b).
  - apply strictly_sorted; [apply StronglySorted_merge_sort; apply _|]. rewrite merge_sort_Permutation. apply NoDup_elements.
Qed.

(** C35: What the check refuses although both schemas are valid: an added field of map
    type, at any depth (the key of a map is required, and the check asks every
    field below an added one to be optional), and any schema at all over a schema
    with a NaN default (a NaN differs from itself). *)
Theorem additive_schema_refuses (old new : Schema) (p : list nat) (f : Field) :
  (at_path (schema_fields new) p = Some f /\ at_path (schema_fields old) p = None /\ (exists k v, field_type f = TMap k v)) \/
  (at_path (schema_fields old) p = Some f /\ exists s, (initial_default f = Some s \/ write_default f = Some s) /\ scalar_is_nan s = true) ->
  is_ok (additive_schema old new) = false.
Proof.
  intros Hc. destruct (additive_schema old new) as [l|e] eqn:E; [|done]. exfalso.
  apply additive_schema_grown in E as (ids & Hv & _ & _ & [Hk Hn _ _] & _). destruct Hc as [(Hf & Ho & k & v & Ht)|(Hf & s & Hs & Hnan)].
  - destruct (Hn (p ++ [0%nat]) k) as [Hr _].
    + eapply at_path_snoc; [done|]. unfold children. by rewrite Ht.
    + apply at_path_snoc_none; [done|]. by destruct p.
    + destruct (Hv _ _ Hf) as [depth Hd]. inversion Hd as [? ? _ _ _ _ Hnest]; subst. rewrite Ht in Hnest.
      inversion Hnest as [| |? ? ? Hkey|? t Hp]; subst; [congruence|discriminate Hp].
  - destruct (Hk p f Hf) as (b & _ & [_ _ _ _ _ Hi Hw]). destruct Hs as [Hs|Hs]; rewrite Hs in *; [destruct (initial_default b)|destruct (write_default b)]; try done; cbn [option_eqb] in *; by rewrite nan_differs in *.
Qed.

(** ** Schemas that evolve *)

Definition column (id : Z) (name : string) (ty : LogicalType) : Field := MkField id name false ty None None None.
Definition evolve_schema (fields : list Field) (id : Z) (parent : option Z) : Schema :=
  {| schema_id := id; parent_schema_id := parent; schema_fields := fields; identifier_field_ids := []; schema_doc := None |}.
Definition base_schema : Schema := evolve_schema [column 1 "x" TInt64; column 2 "s" (TStruct [column 3 "a" TString])] 1 None.
(** An optional field below the struct, and a list *)
Definition wider_schema : Schema :=
  evolve_schema [column 1 "x" TInt64; column 2 "s" (TStruct [column 3 "a" TString; column 6 "b" TDate]); column 4 "l" (TList (column 5 "element" TInt32))] 2 (Some 1).
(** An optional column of maps *)
Definition map_schema : Schema :=
  evolve_schema [column 1 "x" TInt64; column 2 "s" (TStruct [column 3 "a" TString]);
    column 4 "m" (TMap (MkField 5 "key" true TString None None None) (column 6 "value" TInt64))] 2 (Some 1).
(** A column whose default is a NaN, and the same schema again *)
Definition nan_schema (id : Z) (parent : option Z) : Schema :=
  evolve_schema [MkField 1 "x" false TFloat64 None (Some (TypedScalar.Float64 0x7ff8000000000000)) None] id parent.

Lemma additive_schema_safe_witness : additive_schema base_schema wider_schema = Ok [4; 5; 6] /\
  (forall p b, at_path (schema_fields wider_schema) p = Some b -> at_path (schema_fields base_schema) p = None -> field_required b = false).
Proof.
  assert (additive_schema base_schema wider_schema = Ok [4; 5; 6]) as E by (vm_compute; reflexivity).
  split; [exact E|]. apply (additive_schema_safe base_schema wider_schema [4; 5; 6] E).
Defined.

Lemma additive_schema_refuses_witness :
  validate_schema map_schema = Ok tt /\ is_ok (additive_schema base_schema map_schema) = false /\
  validate_schema (nan_schema 2 (Some 1)) = Ok tt /\ is_ok (additive_schema (nan_schema 1 None) (nan_schema 2 (Some 1))) = false.
Proof.
  split; [vm_compute; reflexivity|]. split; [|split; [vm_compute; reflexivity|]].
  - eapply (additive_schema_refuses base_schema map_schema [2%nat]). left. split; [reflexivity|]. split; [reflexivity|]. eexists _, _. reflexivity.
  - eapply (additive_schema_refuses (nan_schema 1 None) (nan_schema 2 (Some 1)) [0%nat]). right. split; [reflexivity|].
    eexists. split; [left; reflexivity|vm_compute; reflexivity].
Defined.
