(* ===== verification/TableState.v ===== *)
(** The state of the tables of snapshots, refs and files: what the files of a branch
    and of a snapshot are, the invariant that every image of a table keeps, and that
    the two listings agree. *)
From S2P Require Import Prelude Bytes Errors Values Scalars CanonicalJson PageTree Objects Database History SchemaRows DatabaseFacts HistoryFacts FileOrder.

(** The version, and the last sequence number, 0 before the first image *)
Definition table_version (d : Db) : Z := from_option m_table_version 0 (db_meta d).
Definition last_sequence (d : Db) : Z := from_option m_last_sequence_number 0 (db_meta d).
Lemma same_core_last d d' : same_core d d' -> last_sequence d' = last_sequence d.
Proof. intros [_ _ _ _ _ E]. unfold last_sequence. by destruct (db_meta d), (db_meta d'); simplify_eq/=. Qed.

Section columns.
Context `{HexCrate}.

Lemma id_from_blob_ok b i : id_from_blob b = Ok i <-> id_bytes i = b /\ id_valid i.
Proof.
  unfold id_from_blob. rewrite bind_reject. unfold of_protocol. rewrite map_err_ok. split.
  - intros [Hl Hi]. bool_to_prop. apply id_try_from_bytes_ok in Hi as [-> Hv]; [done|unfold len in *; lia].
  - intros [<- Hv]. destruct (Hv) as [Hw _]. unfold wf_id in Hw. split; [unfold len; rewrite Hw; done|].
    apply id_try_from_bytes_ok; [done|]. by destruct i.
Qed.
Lemma transpose_ok {A B} (f : A -> rresult B) o r : transpose f o = Ok r <->
  (o = None /\ r = None) \/ exists a b, o = Some a /\ f a = Ok b /\ r = Some b.
Proof.
  destruct o as [a|]; cbn; [|naive_solver]. rewrite bind_ok. split.
  - intros (b & Hb & [= <-]). right. by exists a, b.
  - intros [[? _]|(a' & b & [= <-] & Hb & ->)]; [done|]. by exists b.
Qed.
Lemma nonnegative_ok z name n : nonnegative z name = Ok n -> n = z /\ 0 <= z.
Proof. unfold nonnegative. intros [-> Hu]%ok_or_ok%try_uint_some. split; [done|apply Hu]. Qed.

(** A file that is listed has the identifier and the number of its row. *)
Lemma live_file_key id f sequence lf : live_file id f sequence = Ok lf -> live_key lf = (sequence, id) /\ 0 <= sequence.
Proof.
  unfold live_file. intros (i & [Hi _]%id_from_blob_ok & E)%bind_ok. apply bind_ok in E as (u & _ & E).
  apply bind_ok in E as (l & _ & E). apply bind_ok in E as (r & _ & E). apply bind_ok in E as (s & _ & E).
  apply bind_ok in E as (n & [-> Hn]%nonnegative_ok & [= <-]). unfold live_key. cbn. by rewrite Hi.
Qed.
End columns.

Section state.
Context `{HexCrate, SqlEngine, SerdeJson}.

(** ** Ancestry *)

(** What a descriptor says of its row. *)
Lemma descriptor_row d i sd : descriptor d i = Ok sd -> exists s, db_snapshots d !! id_bytes i = Some s /\
  s_parent s = id_bytes <$> sd_parent_snapshot_id sd /\ sd_sequence_number sd = s_sequence s /\ 0 <= s_sequence s /\
  transpose id_from_blob (s_parent s) = Ok (sd_parent_snapshot_id sd).
Proof.
  unfold descriptor. intros (s & Hs%ok_or_ok & E)%bind_ok. apply bind_ok in E as (a & _ & E). apply bind_ok in E as (b & _ & E).
  apply bind_ok in E as (c & _ & E). apply bind_ok in E as (p & Hp & E). apply bind_ok in E as (n & [-> Hn]%nonnegative_ok & E).
  apply bind_ok in E as (v & _ & E). apply bind_ok in E as (u & _ & E). apply bind_ok in E as (m & _ & [= <-]). cbn.
  exists s. split_and!; try done. by apply transpose_ok in Hp as [[-> ->]|(x & i' & -> & [<- _]%id_from_blob_ok & ->)].
Qed.
Lemma descriptor_frame d d' i : db_snapshots d' !! id_bytes i = db_snapshots d !! id_bytes i -> descriptor d' i = descriptor d i.
Proof. unfold descriptor. by intros ->. Qed.

(** [x] is a snapshot of the line that starts at the tip. *)
Inductive ancestor (m : gmap bytes SnapshotRow) : option bytes -> bytes -> Prop :=
| ancestor_here id s : m !! id = Some s -> ancestor m (Some id) id
| ancestor_up id s x : m !! id = Some s -> ancestor m (s_parent s) x -> ancestor m (Some id) x.

Lemma ancestor_none m x : ~ ancestor m None x.
Proof. intros Ha. inversion Ha. Qed.
Lemma ancestor_some m id s x : m !! id = Some s -> ancestor m (Some id) x <-> x = id \/ ancestor m (s_parent s) x.
Proof.
  intros Hs. split.
  - intros Ha. inversion Ha as [? ? Hs'|? ? ? Hs' Hup]; subst; [by left|right]. congruence.
  - intros [->|Ha]; [by eapply ancestor_here|by eapply ancestor_up].
Qed.
Lemma ancestor_row m tip x : ancestor m tip x -> is_Some (m !! x).
Proof. induction 1; [by eexists|done]. Qed.

(** A new snapshot changes no line of the others. *)
Lemma ancestor_insert m id s tip x : m !! id = None -> (forall y sy p, m !! y = Some sy -> s_parent sy = Some p -> is_Some (m !! p)) ->
  (forall t, tip = Some t -> is_Some (m !! t)) -> ancestor (<[id := s]> m) tip x <-> ancestor m tip x.
Proof.
  intros Hid Hclosed Htip. split.
  - intros Ha. revert Htip. induction Ha as [y sy Hy|y sy x Hy _ IH]; intros Htip; destruct (Htip y eq_refl) as [sy' Hsy];
      (rewrite lookup_insert_ne in Hy by congruence); assert (sy' = sy) as -> by congruence.
    + by eapply ancestor_here.
    + eapply ancestor_up; [exact Hy|]. apply IH. intros p Hp. by eapply Hclosed.
  - clear Htip. induction 1 as [y sy Hy|y sy x Hy _ IH].
    + apply (ancestor_here _ y sy). rewrite lookup_insert_ne by congruence. done.
    + apply (ancestor_up _ y sy); [|done]. rewrite lookup_insert_ne by congruence. done.
Qed.

Lemma lineage_ancestor d last tip chain : lineage d last tip chain -> forall x, x ∈ id_bytes <$> chain <-> ancestor (db_snapshots d) (id_bytes <$> tip) x.
Proof.
  induction 1 as [last|last id sd rest Hsd Hlt _ IH]; intros x; cbn [fmap list_fmap option_fmap option_map].
  - split; [by intros ?%not_elem_of_nil|by intros ?%ancestor_none].
  - apply descriptor_row in Hsd as (s & Hs & Hp & _). rewrite (ancestor_some _ _ _ _ Hs), elem_of_cons, IH, Hp. done.
Qed.

(** ** The invariant *)

Definition is_branch (r : RefRow) : bool := bool_decide (r_type r = "branch").

Record snapshot_ok (d : Db) (id : bytes) (s : SnapshotRow) : Prop := {
  sok_readable : exists i sd, id_bytes i = id /\ id_valid i /\ descriptor d i = Ok sd;
  sok_sequence : 0 < s_sequence s <= last_sequence d;
  sok_parent : forall p, s_parent s = Some p -> exists sp, db_snapshots d !! p = Some sp /\ s_sequence sp < s_sequence s }.

(** Snapshots can be read, their numbers are distinct and fall along parents; refs
    point at snapshots; files can be read and are added by the snapshot that created
    them; and the files that are live on a branch are those added along the line of
    its tip. *)
Record table_ok (d : Db) : Prop := {
  to_last : last_sequence d < 2 ^ 63;
  to_snapshot : forall id s, db_snapshots d !! id = Some s -> snapshot_ok d id s;
  to_number : forall id1 id2 s1 s2, db_snapshots d !! id1 = Some s1 -> db_snapshots d !! id2 = Some s2 ->
    s_sequence s1 = s_sequence s2 -> id1 = id2;
  to_ref : forall n r, db_refs d !! n = Some r -> (r_type r = "branch" \/ r_type r = "tag") /\
    forall p, r_snapshot r = Some p -> is_Some (db_snapshots d !! p);
  to_change : forall s f kind, (s, f, kind) ∈ db_changes d -> kind = "add" /\ exists srow frow,
    db_snapshots d !! s = Some srow /\ db_files d !! f = Some frow /\ f_created_snapshot frow = s /\ f_file_sequence frow = s_sequence srow;
  to_file : forall id f, db_files d !! id = Some f -> exists lf, live_file id f (f_file_sequence f) = Ok lf;
  to_live : forall n f, is_Some (db_live d !! (n, f)) <->
    exists r s, db_refs d !! n = Some r /\ is_branch r = true /\ ancestor (db_snapshots d) (r_snapshot r) s /\ (s, f, "add") ∈ db_changes d }.

(** ** Ancestry ends *)

(** A parent that is read from a ref is an identifier. *)
Lemma ref_row_id d n kind tip : ref_row d n = Ok (Some (kind, tip)) -> exists r, db_refs d !! n = Some r /\ r_snapshot r = id_bytes <$> tip /\
  (kind = Branch <-> is_branch r = true) /\ forall p, tip = Some p -> id_valid p.
Proof.
  unfold ref_row. intros [[_ ?]|(r & v & Hr & E & [= <-])]%transpose_ok; [done|]. apply bind_ok in E as (k & Hk & E).
  apply bind_ok in E as (i & Hi & [= -> ->]). exists r. split; [done|]. apply transpose_ok in Hi. split; [|split].
  - by destruct Hi as [[-> ->]|(b & p & -> & [<- _]%id_from_blob_ok & ->)].
  - unfold is_branch. case_bool_decide as Hb; [by injection Hk as <-|]. case_bool_decide; [|done]. by injection Hk as <-.
  - by destruct Hi as [[_ ->]|(b & p & _ & [_ Hv]%id_from_blob_ok & ->)]; intros q; [|intros [= <-]].
Qed.

Section readable.
Context (d : Db) (Hok : table_ok d).

Lemma snapshot_read id s : db_snapshots d !! id = Some s -> exists i sd, id_bytes i = id /\ id_valid i /\ descriptor d i = Ok sd /\
  s_parent s = id_bytes <$> sd_parent_snapshot_id sd /\ sd_sequence_number sd = s_sequence s.
Proof.
  intros Hs. destruct (to_snapshot _ Hok _ _ Hs) as [(i & sd & Hi & Hv & Hsd) _ _]. exists i, sd.
  destruct (descriptor_row _ _ _ Hsd) as (s' & Hs' & Hp & Hn & _). subst id. assert (s' = s) as -> by congruence. done.
Qed.

Lemma lineage_exists : forall last i s, 0 <= last -> db_snapshots d !! id_bytes i = Some s -> s_sequence s < last ->
  exists chain, lineage d last (Some i) chain.
Proof.
  intros last i s Hlast. revert i s. pattern last. revert last Hlast. apply Z_lt_induction.
  intros last IH i s Hs Hlt. destruct (snapshot_read _ _ Hs) as (i' & sd & Hi' & _ & Hsd & Hp & Hn).
  assert (i' = i) as -> by (destruct i, i'; cbn in *; congruence).
  destruct (to_snapshot _ Hok _ _ Hs) as [_ [Hpos _] Hparent].
  destruct (sd_parent_snapshot_id sd) as [p|] eqn:Ep; cbn in Hp.
  - destruct (Hparent _ Hp) as (sp & Hsp & Hlt'). destruct (IH (s_sequence s) ltac:(lia) p sp Hsp Hlt') as (rest & Hrest).
    exists (i :: rest). econstructor; [exact Hsd|lia|]. by rewrite Ep, Hn.
  - exists [i]. econstructor; [exact Hsd|lia|]. rewrite Ep. constructor.
Qed.

(** A tip that is none or a snapshot has a line, and the two walks find it. *)
Lemma lineage_tip tip : (forall i, tip = Some i -> is_Some (db_snapshots d !! id_bytes i)) -> exists chain, lineage d (2 ^ 64 - 1) tip chain.
Proof.
  intros Htip. destruct tip as [i|]; [|exists []; constructor]. destruct (Htip i eq_refl) as [s Hs].
  eapply lineage_exists; [lia|exact Hs|]. pose proof (sok_sequence _ _ _ (to_snapshot _ Hok _ _ Hs)). pose proof (to_last _ Hok). lia.
Qed.

Lemma writer_steps last tip chain : lineage d last tip chain -> steps (writer_step d) last tip chain.
Proof.
  induction 1 as [last|last id sd rest Hsd Hlt _ IH]; [constructor|]. econstructor; [|exact IH].
  destruct (descriptor_row _ _ _ Hsd) as (s & Hs & Hp & Hn & _ & Hblob). unfold writer_step. rewrite Hs. cbn [row ok_or mbind result_bind].
  pose proof (sok_sequence _ _ _ (to_snapshot _ Hok _ _ Hs)). rewrite Hn in *.
  rewrite (proj2 (orb_false_iff _ _)) by (split; apply Z.leb_gt; lia). cbn [reject mbind result_bind].
  unfold id_from_blob in Hblob. destruct (s_parent s) as [b|]; cbn [transpose] in *.
  - apply bind_ok in Hblob as (p & Hb & E). injection E as E. rewrite <- E.
    destruct (len b =? 16); cbn [negb reject mbind result_bind] in *; [|done]. by rewrite Hb.
  - injection Hblob as <-. done.
Qed.
Lemma lineage_rows last tip chain : lineage d last tip chain -> forall i, i ∈ chain -> is_Some (db_snapshots d !! id_bytes i).
Proof.
  induction 1 as [last|last id sd rest Hsd Hlt _ IH]; intros x; [by intros ?%not_elem_of_nil|].
  intros [->|Hx]%elem_of_cons; [by eapply descriptor_some|by apply IH].
Qed.
Lemma lineage_nodup last tip chain : lineage d last tip chain -> NoDup chain.
Proof.
  intros Hl%lineage_steps. revert Hl. apply (steps_nodup _ (fun id => from_option sd_sequence_number 0 (ok (descriptor d id)))).
  intros x l p q (s & Hs & Hl & _ & ->)%ancestry_step_ok. by rewrite Hs.
Qed.
Lemma writer_line tip chain : lineage d (2 ^ 64 - 1) tip chain -> writer_ancestry d tip = Ok chain.
Proof. intros Hl. by apply writer_ancestry_lineage, writer_lineage_steps, writer_steps. Qed.

(** ** Refs *)

Lemma ref_read n r : db_refs d !! n = Some r -> exists tip, ref_row d n = Ok (Some (if is_branch r then Branch else Tag, tip)) /\
  id_bytes <$> tip = r_snapshot r.
Proof.
  intros Hr. destruct (to_ref _ Hok _ _ Hr) as [Ht Htip]. unfold ref_row. rewrite Hr. cbn [transpose].
  assert (exists tip, transpose id_from_blob (r_snapshot r) = Ok tip /\ id_bytes <$> tip = r_snapshot r) as (tip & Hread & Hbytes).
  { destruct (r_snapshot r) as [b|]; [|by exists None]. destruct (Htip b eq_refl) as [s Hs].
    destruct (snapshot_read _ _ Hs) as (i & _ & Hi & Hv & _). exists (Some i). cbn. rewrite (proj2 (id_from_blob_ok b i)) by done. by rewrite <- Hi. }
  exists tip. split; [|done]. unfold is_branch. destruct Ht as [-> | ->]; cbn; by rewrite Hread.
Qed.

(** ** Listings *)

(** The file of a row, as listed. *)
Definition file_of (id : bytes) : option LiveFile := f ← db_files d !! id; ok (live_file id f (f_file_sequence f)).
Definition listing (ids : list bytes) : list LiveFile := merge_sort live_le (omap file_of ids).
(** The files that are live on a branch, and those that a line added *)
Definition live_ids (name : string) : list bytes :=
  omap (fun kv => if bool_decide (kv.1.1 = name) then Some kv.1.2 else None) (map_to_list (db_live d)).
Definition line_ids (chain : list Id) : list bytes := chain ≫= fun i => added_files d (id_bytes i).

Lemma file_of_key id lf : file_of id = Some lf -> (live_key lf).2 = id /\
  exists f, db_files d !! id = Some f /\ live_file id f (f_file_sequence f) = Ok lf.
Proof.
  unfold file_of. intros (f & Hf & E)%bind_Some. destruct (live_file _ _ _) eqn:El; [|done]. injection E as ->.
  destruct (live_file_key _ _ _ _ El) as [-> _]. split; [done|]. by exists f.
Qed.
Lemma keyed_files ids : keyed (omap file_of ids).
Proof.
  intros a b (x & _ & Ha)%list_elem_of_omap (y & _ & Hb)%list_elem_of_omap Hk.
  pose proof (file_of_key _ _ Ha) as [Hx _]. pose proof (file_of_key _ _ Hb) as [Hy _]. rewrite Hk in Hx. congruence.
Qed.
Lemma listing_permutation ids1 ids2 : ids1 ≡ₚ ids2 -> listing ids1 = listing ids2.
Proof. intros Hp. apply sort_permutation; [apply keyed_files|]. by rewrite Hp. Qed.

Lemma collect_readable {A B} (f : A -> rresult B) l : (forall a, a ∈ l -> is_Some (ok (f a))) -> collect f l = Ok (omap (fun a => ok (f a)) l).
Proof.
  induction l as [|a l IH]; intros Hl; cbn [collect omap list_omap]; [done|]. destruct (Hl a ltac:(left)) as [b Hb].
  destruct (f a) as [b'|]; [|done]. cbn [ok mbind result_bind]. rewrite IH by (intros; apply Hl; by right). done.
Qed.

Lemma live_rows_file name r : r ∈ live_rows d name -> is_Some (ok (live_file r.1 r.2 (f_file_sequence r.2))).
Proof.
  unfold live_rows. intros ([[n id] l] & _ & E)%list_elem_of_omap. cbn in E. destruct (bool_decide _); [|done].
  apply bind_Some in E as (f & Hf & [= <-]). cbn. destruct (to_file _ Hok _ _ Hf) as [lf ->]. by eexists.
Qed.
Lemma live_rows_ids name : omap (fun r => ok (live_file r.1 r.2 (f_file_sequence r.2))) (live_rows d name) = omap file_of (live_ids name).
Proof.
  unfold live_rows, live_ids. induction (map_to_list (db_live d)) as [|[[n id] l] rows IH]; [done|]. cbn [omap list_omap fst snd].
  destruct (bool_decide (n = name)); [|exact IH]. cbn [omap list_omap]. unfold file_of at 1.
  destruct (db_files d !! id) as [f|]; cbn [mbind option_bind]; [|exact IH]. cbn [omap list_omap fst snd]. rewrite IH. done.
Qed.
(** Sorted rows are sorted files. *)
Lemma rows_sorted l : StronglySorted row_le l -> StronglySorted live_le (omap (fun r => ok (live_file r.1 r.2 (f_file_sequence r.2))) l).
Proof.
  induction 1 as [|r l Hl IH Hr]; cbn [omap list_omap]; [constructor|]. destruct (live_file r.1 _ _) as [lf|] eqn:Er; cbn [ok]; [|done].
  constructor; [done|]. apply Forall_forall. intros x (y & Hy & Hx)%list_elem_of_omap. rewrite Forall_forall in Hr. specialize (Hr y Hy).
  destruct (live_file y.1 _ _) as [ly|] eqn:Ey; [|done]. injection Hx as <-. unfold live_le.
  by rewrite (proj1 (live_file_key _ _ _ _ Er)), (proj1 (live_file_key _ _ _ _ Ey)).
Qed.

Lemma branch_listing name r : db_refs d !! name = Some r -> is_branch r = true -> branch_files d name = Ok (listing (live_ids name)).
Proof.
  unfold is_branch, branch_files. intros -> ->. cbn [negb reject mbind result_bind].
  rewrite collect_readable by (intros x; rewrite merge_sort_Permutation; apply live_rows_file). f_equal. symmetry. apply sorted_listing.
  - intros a b. rewrite merge_sort_Permutation, live_rows_ids. apply keyed_files.
  - apply rows_sorted, StronglySorted_merge_sort; apply _.
  - by rewrite merge_sort_Permutation, live_rows_ids.
Qed.

Lemma added_file i id : id ∈ added_files d (id_bytes i) <-> (id_bytes i, id, "add") ∈ db_changes d.
Proof.
  unfold added_files. rewrite list_elem_of_omap. split.
  - intros ([[s f] k] & Hin%elem_of_elements & E). cbn in E. destruct (bool_decide (s = _)) eqn:E1; [|done].
    destruct (bool_decide (k = "add")) eqn:E2; [|done]. cbn in E. bool_to_prop. by simplify_eq.
  - intros Hin. exists (id_bytes i, id, "add"). rewrite elem_of_elements. split; [done|]. cbn. by rewrite bool_decide_eq_true_2.
Qed.
Lemma snapshot_rows_read i s : db_snapshots d !! id_bytes i = Some s ->
  collect (fun r => live_file r.1.1 r.1.2 r.2) (snapshot_rows d i) = Ok (omap file_of (added_files d (id_bytes i))).
Proof.
  intros Hs. unfold snapshot_rows. rewrite Hs. assert (forall id, id ∈ added_files d (id_bytes i) ->
    exists f, db_files d !! id = Some f /\ f_file_sequence f = s_sequence s) as Hall.
  { intros id (_ & s' & f & Hs' & Hf & _ & Hseq)%added_file%(to_change _ Hok). exists f. split; [done|]. congruence. }
  induction (added_files d (id_bytes i)) as [|id ids IH]; [done|]. destruct (Hall id ltac:(left)) as (f & Hf & Hseq).
  cbn [omap list_omap]. unfold file_of at 1. rewrite Hf. cbn [mbind option_bind collect fst snd].
  destruct (to_file _ Hok _ _ Hf) as [lf Hlf]. rewrite <- Hseq at 1. rewrite Hlf. cbn [mbind result_bind ok].
  rewrite IH; [done|]. intros x Hx. apply Hall. by right.
Qed.
Lemma snapshot_listing tip chain : lineage d (2 ^ 64 - 1) tip chain -> snapshot_files d tip = Ok (listing (line_ids chain)).
Proof.
  intros Hl. unfold snapshot_files. rewrite (proj2 (ancestry_lineage d tip chain)) by done. cbn [mbind result_bind].
  assert (forall files, try_fold (fun files i => new ← collect (fun r => live_file r.1.1 r.1.2 r.2) (snapshot_rows d i); Ok (files ++ new)) files chain
    = Ok (files ++ omap file_of (line_ids chain))) as ->; [|done].
  pose proof (lineage_rows _ _ _ Hl) as Hrows. clear Hl. induction chain as [|i chain IH]; intros files; cbn [try_fold].
  - cbn. by rewrite app_nil_r.
  - destruct (Hrows i ltac:(left)) as [s Hs]. rewrite (snapshot_rows_read _ _ Hs). cbn [mbind result_bind].
    rewrite IH by (intros x Hx; apply Hrows; by right). unfold line_ids. cbn [mbind list_bind]. by rewrite omap_app, (assoc_L (++)).
Qed.

Lemma live_id name id : id ∈ live_ids name <-> is_Some (db_live d !! (name, id)).
Proof.
  unfold live_ids. rewrite list_elem_of_omap. split.
  - intros ([[n f] l] & Hin%elem_of_map_to_list & E). cbn in E. case_bool_decide; [|done]. simplify_eq. by eexists.
  - intros [l Hl]. exists ((name, id), l). rewrite elem_of_map_to_list. split; [done|]. cbn. by rewrite bool_decide_eq_true_2.
Qed.
Lemma line_id chain id : id ∈ line_ids chain <-> exists s, s ∈ id_bytes <$> chain /\ (s, id, "add") ∈ db_changes d.
Proof.
  unfold line_ids. rewrite list_elem_of_bind. setoid_rewrite list_elem_of_fmap. setoid_rewrite added_file. naive_solver.
Qed.
Lemma live_ids_nodup name : NoDup (live_ids name).
Proof.
  unfold live_ids. pose proof (NoDup_fst_map_to_list (db_live d)) as Hnd. induction (map_to_list (db_live d)) as [|[[n f] l] rows IH]; [constructor|].
  cbn [fmap list_fmap fst] in Hnd. apply NoDup_cons in Hnd as [Hn Hnd]. cbn [omap list_omap fst snd]. case_bool_decide; [|by apply IH].
  constructor; [|by apply IH]. intros ([[n' f'] l'] & Hin & E)%list_elem_of_omap. cbn in E. case_bool_decide; [|done]. simplify_eq.
  apply Hn, list_elem_of_fmap. by eexists (_, l').
Qed.
Lemma added_files_nodup s : NoDup (added_files d s).
Proof.
  unfold added_files. pose proof (NoDup_elements (db_changes d)) as Hnd. induction (elements (db_changes d)) as [|[[x f] k] l IH]; [constructor|].
  apply NoDup_cons in Hnd as [Hn Hnd]. cbn [omap list_omap fst snd]. destruct (bool_decide (x = s)) eqn:E1; [|by apply IH].
  destruct (bool_decide (k = "add")) eqn:E2; cbn [andb]; [|by apply IH]. constructor; [|by apply IH].
  intros ([[x' f'] k'] & Hin & E)%list_elem_of_omap. cbn in E. destruct (bool_decide (x' = s)) eqn:E3; [|done].
  destruct (bool_decide (k' = "add")) eqn:E4; [|done]. cbn in E. bool_to_prop. by simplify_eq.
Qed.
Lemma line_ids_nodup chain : NoDup chain -> NoDup (line_ids chain).
Proof.
  induction 1 as [|i chain Hi _ IH]; [constructor|]. unfold line_ids. cbn [mbind list_bind]. apply NoDup_app. split; [apply added_files_nodup|].
  split; [|exact IH]. intros id (_ & s & f & Hs & Hf & Hc & _)%added_file%(to_change _ Hok) (x & Hx & Hid)%line_id.
  destruct (to_change _ Hok _ _ _ Hid) as (_ & s' & f' & Hs' & Hf' & Hc' & _). apply list_elem_of_fmap in Hx as (j & -> & Hj).
  assert (j = i) as -> by (destruct i, j; cbn in *; congruence). done.
Qed.

(** The files of a branch are those of the snapshot at its tip. *)
Lemma branch_snapshot name r : db_refs d !! name = Some r -> is_branch r = true ->
  exists tip chain, ref_row d name = Ok (Some (Branch, tip)) /\ id_bytes <$> tip = r_snapshot r /\ lineage d (2 ^ 64 - 1) tip chain /\
    listing (live_ids name) = listing (line_ids chain).
Proof.
  intros Hr Hb. destruct (ref_read _ _ Hr) as (tip & Hread & Htip). rewrite Hb in Hread.
  destruct (lineage_tip tip) as [chain Hl]. { intros i ->. cbn in Htip. symmetry in Htip. by apply (proj2 (to_ref _ Hok _ _ Hr)) in Htip. }
  exists tip, chain. split_and!; try done. apply listing_permutation, NoDup_Permutation.
  - apply live_ids_nodup.
  - eapply line_ids_nodup, lineage_nodup; eassumption.
  - intros id. rewrite live_id, line_id, (to_live _ Hok). setoid_rewrite (lineage_ancestor _ _ _ _ Hl). rewrite Htip. split.
    + intros (r' & s & Hr' & _ & Ha & Hc). assert (r' = r) as -> by congruence. eauto.
    + intros (s & Ha & Hc). eauto 8.
Qed.
End readable.
End state.
