(* ===== verification/SchemaRoundtrip.v ===== *)
(** The rows of a schema (otmp/src/image.rs, [insert_schema] and [read_schema]): what
    is written field by field reads back as the schema. *)
From S2P Require Import Prelude Bytes Errors Values Scalars CanonicalJson Schema PageTree Objects Database History SchemaRows Append DatabaseFacts TableState.

(** ** Floats as serialization leaves them *)

Fixpoint canonical_field (f : Field) : Field :=
  match f with
  | MkField id name required ty doc initial write => MkField id name required (canonical_type ty) doc (canonical_nan <$> initial) (canonical_nan <$> write)
  end
with canonical_type (t : LogicalType) : LogicalType :=
  match t with
  | TStruct fields => TStruct (map canonical_field fields)
  | TList element => TList (canonical_field element)
  | TMap key value => TMap (canonical_field key) (canonical_field value)
  | t => t
  end.
Definition canonical_schema (s : Schema) : Schema :=
  {| schema_id := schema_id s; parent_schema_id := parent_schema_id s; schema_fields := map canonical_field (schema_fields s);
     identifier_field_ids := identifier_field_ids s; schema_doc := schema_doc s |}.

(** ** Where the fields of a schema go *)

(** The parent, the position under it, and the field *)
Definition entry : Type := option Z * Z * Field.
Definition sibling_entries (one : option Z -> Z -> Field -> list entry) (parent : option Z) : Z -> list Field -> list entry :=
  fix go (n : Z) (l : list Field) : list entry :=
    match l with
    | [] => []
    | f :: l => one parent n f ++ go (n + 1) l
    end.
Fixpoint field_entries (parent : option Z) (n : Z) (f : Field) {struct f} : list entry :=
  match f with
  | MkField id _ _ ty _ _ _ =>
    (parent, n, f) ::
    match ty with
    | TStruct fields => sibling_entries field_entries (Some id) 0 fields
    | TList element => field_entries (Some id) 0 element
    | TMap key value => field_entries (Some id) 0 key ++ field_entries (Some id) 1 value
    | _ => []
    end
  end.
Notation entries := (sibling_entries field_entries).
Definition entry_id (e : entry) : Z := field_id e.2.

Lemma field_entries_eq parent n f : field_entries parent n f = (parent, n, f) :: entries (Some (field_id f)) 0 (children f).
Proof.
  destruct f as [id name required ty doc initial write]. unfold children. cbn [field_entries field_id field_type]. f_equal.
  destruct ty; cbn [sibling_entries]; rewrite ?app_nil_r; reflexivity.
Qed.
Lemma entries_cons parent n f l : entries parent n (f :: l) = (parent, n, f) :: entries (Some (field_id f)) 0 (children f) ++ entries parent (n + 1) l.
Proof. cbn [sibling_entries]. by rewrite field_entries_eq. Qed.

(** Positions are below the number of entries. *)
Lemma field_entries_bound f : forall parent n e, e ∈ field_entries parent n f -> 0 <= n -> n <= e.1.2 <= n \/ 0 <= e.1.2 < len (field_entries parent n f).
Proof.
  induction f as [f IH] using field_children_ind. intros parent n e. rewrite field_entries_eq, elem_of_cons, len_cons. intros [->|He] Hn; [left; cbn; lia|right].
  assert (forall l m, Forall (fun g => forall parent n e, e ∈ field_entries parent n g -> 0 <= n -> n <= e.1.2 <= n \/ 0 <= e.1.2 < len (field_entries parent n g)) l ->
    0 <= m -> e ∈ entries (Some (field_id f)) m l -> 0 <= e.1.2 < m + len (entries (Some (field_id f)) m l)) as Hl.
  { clear. intros l. induction l as [|g l IHl]; intros m Hl Hm He; [by apply not_elem_of_nil in He|]. apply Forall_cons in Hl as [Hg Hl]. cbn [sibling_entries] in *.
    rewrite len_app. assert (0 < len (field_entries (Some (field_id f)) m g)) as Hpos by (rewrite field_entries_eq, len_cons; pose proof (len_nonneg (entries (Some (field_id g)) 0 (children g))); lia).
    apply elem_of_app in He as [He|He].
    - pose proof (len_nonneg (entries (Some (field_id f)) (m + 1) l)). destruct (Hg _ _ _ He Hm); lia.
    - specialize (IHl (m + 1) Hl ltac:(lia) He). lia. }
  specialize (Hl (children f) 0 IH ltac:(lia) He). lia.
Qed.
Lemma entries_bound parent e : forall l m, 0 <= m -> e ∈ entries parent m l -> 0 <= e.1.2 < m + len (entries parent m l).
Proof.
  intros l. induction l as [|g l IHl]; intros m Hm He; [by apply not_elem_of_nil in He|]. cbn [sibling_entries] in *.
  rewrite len_app. assert (0 < len (field_entries parent m g)) as Hpos by (rewrite field_entries_eq, len_cons; pose proof (len_nonneg (entries (Some (field_id g)) 0 (children g))); lia).
  apply elem_of_app in He as [He|He].
  - pose proof (len_nonneg (entries parent (m + 1) l)). destruct (field_entries_bound g _ _ _ He Hm); lia.
  - specialize (IHl (m + 1) ltac:(lia) He). lia.
Qed.
(** The entries without a parent are the fields themselves. *)
Lemma below_parent f : forall parent n e, e ∈ field_entries parent n f -> e = (parent, n, f) \/ is_Some e.1.1.
Proof.
  induction f as [f IH] using field_children_ind. intros parent n e. rewrite field_entries_eq, elem_of_cons. intros [->|He]; [by left|right].
  rewrite Forall_forall in IH. revert IH He. generalize 0 as m, (children f) as l. intros m l. revert m.
  induction l as [|g l IHl]; intros m IH He; [by apply not_elem_of_nil in He|]. cbn [sibling_entries] in He. apply elem_of_app in He as [He|He].
  - destruct (IH g ltac:(left) _ _ _ He) as [->|]; [by eexists|done].
  - apply (IHl (m + 1)); [intros; eapply IH; [by right|done]|done].
Qed.
Lemma entries_parent p e : forall l m, e ∈ entries (Some p) m l -> is_Some e.1.1.
Proof.
  intros l. induction l as [|g l IHl]; intros m He; [by apply not_elem_of_nil in He|]. cbn [sibling_entries] in He. apply elem_of_app in He as [He|He].
  - destruct (below_parent g _ _ _ He) as [->|]; [by eexists|done].
  - by eapply IHl.
Qed.
(** What holds of the identifiers of entries holds of their parents. *)
Lemma field_entries_parents (P : Z -> Prop) f : forall parent n e p, (forall q, parent = Some q -> P q) ->
  (forall e, e ∈ field_entries parent n f -> P (entry_id e)) -> e ∈ field_entries parent n f -> e.1.1 = Some p -> P p.
Proof.
  induction f as [f IH] using field_children_ind. intros parent n e p Hparent Hids. rewrite field_entries_eq in *. rewrite elem_of_cons. intros [->|He]; [apply Hparent|].
  assert (P (field_id f)) as Hf by (apply (Hids (parent, n, f)); left).
  assert (forall e, e ∈ entries (Some (field_id f)) 0 (children f) -> P (entry_id e)) as Hl by (intros; apply Hids; by right). clear Hids Hparent.
  rewrite Forall_forall in IH. revert Hl He IH. generalize 0 as m, (children f) as l. intros m l. revert m.
  induction l as [|g l IHl]; intros m Hl He IH Hp; [by apply not_elem_of_nil in He|]. cbn [sibling_entries] in *. apply elem_of_app in He as [He|He].
  - apply (IH g ltac:(left) (Some (field_id f)) m e p); [by intros q [= <-]|intros; apply Hl, elem_of_app; by left|exact He|done].
  - apply (IHl (m + 1)); [intros; apply Hl, elem_of_app; by right|exact He|intros h Hh; apply IH; by right|done].
Qed.
Lemma entries_parents (P : Z -> Prop) e p : forall l m, (forall e, e ∈ entries None m l -> P (entry_id e)) -> e ∈ entries None m l -> e.1.1 = Some p -> P p.
Proof.
  intros l. induction l as [|g l IHl]; intros m Hl He Hp; [by apply not_elem_of_nil in He|]. cbn [sibling_entries] in *. apply elem_of_app in He as [He|He].
  - apply (field_entries_parents P g None m e p); [done|intros; apply Hl, elem_of_app; by left|exact He|done].
  - eapply (IHl (m + 1)); [intros; apply Hl, elem_of_app; by right|exact He|done].
Qed.

(** ** Writing *)

Section rows.
Context `{HexCrate, SqlEngine, SerdeJson} `{ToJson LogicalType, FromJson LogicalType, ToJson scalar, FromJson scalar}.

(** The row of an entry *)
Record row_for (e : entry) (r : FieldRow) : Prop := {
  rf_parent : w_parent r = e.1.1; rf_ordinal : w_ordinal r = e.1.2; rf_name : w_name r = field_name e.2;
  rf_required : w_required r = if field_required e.2 then 1 else 0; rf_type : canonical_string (field_type e.2) = Ok (w_type r);
  rf_doc : w_doc r = field_doc e.2; rf_initial : optional_canonical (initial_default e.2) = Ok (w_initial_default r);
  rf_write : optional_canonical (write_default e.2) = Ok (w_write_default r) }.

(** [d'] is [d] with the rows of the entries, each new. *)
Record inserted (schema : Z) (es : list entry) (d d' : Db) : Prop := {
  in_new : forall e, e ∈ es -> db_field_rows d !! (schema, entry_id e) = None /\ exists r, row_for e r /\ db_field_rows d' !! (schema, entry_id e) = Some r;
  in_nodup : NoDup (map entry_id es);
  in_only : forall k r, db_field_rows d' !! k = Some r -> db_field_rows d !! k = Some r \/ exists e, e ∈ es /\ k = (schema, entry_id e);
  in_more : db_field_rows d ⊆ db_field_rows d';
  in_schemas : db_schemas d' = db_schemas d; in_identifiers : db_identifiers d' = db_identifiers d }.

Lemma inserted_nil schema d : inserted schema [] d d.
Proof. split; try done; [intros e He; by apply not_elem_of_nil in He|constructor|intros; by left]. Qed.
Lemma inserted_app schema es1 es2 d d1 d2 : inserted schema es1 d d1 -> inserted schema es2 d1 d2 -> inserted schema (es1 ++ es2) d d2.
Proof.
  intros [A1 A2 A3 A4 A5 A6] [B1 B2 B3 B4 B5 B6]. split; try congruence.
  - intros e [He|He]%elem_of_app.
    + destruct (A1 e He) as (Hn & r & Hr & Hl). split; [done|]. exists r. split; [done|]. by eapply lookup_weaken.
    + destruct (B1 e He) as (Hn & r & Hr & Hl). split; [|by exists r]. destruct (db_field_rows d !! (schema, entry_id e)) as [r'|] eqn:E; [|done].
      by rewrite (lookup_weaken _ _ _ _ E A4) in Hn.
  - rewrite map_app. apply NoDup_app. split_and!; [done| |done]. intros i (e1 & -> & He1)%list_elem_of_fmap (e2 & Hid & He2)%list_elem_of_fmap.
    destruct (A1 e1 He1) as (_ & r & _ & Hl). destruct (B1 e2 He2) as (Hn & _). congruence.
  - intros k r Hk. destruct (B3 k r Hk) as [Hk'|(e & He & ->)]; [|right; exists e; split; [apply elem_of_app; by right|done]].
    destruct (A3 k r Hk') as [?|(e & He & ->)]; [by left|right; exists e; split; [apply elem_of_app; by left|done]].
  - by etrans.
Qed.

Lemma ignore_field_id_rows id first version d d' : ignore_field_id id first version d = Ok d' ->
  db_field_rows d' = db_field_rows d /\ db_schemas d' = db_schemas d /\ db_identifiers d' = db_identifiers d.
Proof. unfold ignore_field_id. destruct (_ || _); [by intros [= <-]|]. intros [_ [= <-]]%bind_unit. done. Qed.

Lemma insert_siblings_inserted schema (one : Z -> Field -> Db -> rresult Db) parent : forall l n d d',
  (forall f, f ∈ l -> forall n d d', one n f d = Ok d' -> inserted schema (field_entries parent n f) d d') ->
  insert_siblings one n l d = Ok d' -> inserted schema (entries parent n l) d d'.
Proof.
  intros l. induction l as [|f l IH]; intros n d d' Hone; cbn [insert_siblings sibling_entries]; [intros [= <-]; apply inserted_nil|].
  intros (d1 & E1 & E)%bind_ok. eapply inserted_app; [by apply Hone; [left|]|]. apply IH; [|done]. intros g Hg. apply Hone. by right.
Qed.
Lemma insert_field_inserted schema version f : forall parent n d d', insert_field schema version parent n f d = Ok d' -> inserted schema (field_entries parent n f) d d'.
Proof.
  induction f as [f IH] using field_children_ind. rewrite Forall_forall in IH. intros parent n d d' E. rewrite field_entries_eq.
  change ((parent, n, f) :: ?l) with ([(parent, n, f)] ++ l). unfold children in *. destruct f as [id name required ty doc initial write]. cbn [insert_field field_type] in *.
  apply bind_ok in E as (v & _ & E). apply bind_ok in E as (d1 & E1%ignore_field_id_rows & E). apply bind_ok in E as (o & Ho & E).
  apply bind_ok in E as (t & Ht & E). apply bind_ok in E as (i & Hi & E). apply bind_ok in E as (w & Hw & E). apply bind_ok in E as (d2 & E2 & E).
  assert (o = n) as -> by (apply ok_or_ok in Ho; destruct (n <? 2 ^ 63); congruence). clear Ho. apply insert_row in E2 as (_ & Hnone & Hd2).
  destruct E1 as (Er & Es & Ei). apply (inserted_app _ _ _ _ d2).
  { subst d2. clear E. split; cbn [db_field_rows set_field_rows db_schemas db_identifiers]; try done.
    - intros e ->%list_elem_of_singleton. unfold entry_id. cbn [snd field_id]. rewrite <- Er. split; [done|]. eexists. split; [|apply lookup_insert_eq]. by split.
    - apply NoDup_singleton.
    - intros k r [[<- _]|[_ Hk]]%lookup_insert_Some; [right; eexists; split; [by left|done]|left; by rewrite <- Er].
    - rewrite <- Er. by apply insert_subseteq. }
  cbn [field_id]. destruct ty as [| | | | |p s| | | | | | |m| |fields|element|key value]; try (injection E as <-; apply inserted_nil).
  - eapply insert_siblings_inserted; [|exact E]. intros g Hg k e e'. by apply IH.
  - cbn [sibling_entries]. rewrite app_nil_r. eapply IH; [left|exact E].
  - cbn [sibling_entries]. apply bind_ok in E as (d3 & E3 & E). eapply inserted_app; [eapply IH; [left|exact E3]|]. rewrite app_nil_r. eapply IH; [right; left|exact E].
Qed.

(** The identifiers of the schema, by position, and those of other schemas *)
Lemma insert_identifiers_rows schema ids : forall n d d', 0 <= n -> insert_identifiers schema n ids d = Ok d' ->
  db_field_rows d' = db_field_rows d /\ db_schemas d' = db_schemas d /\
  forall k id, db_identifiers d' !! k = Some id <-> db_identifiers d !! k = Some id \/ exists i, ids !! i = Some id /\ k = (schema, n + Z.of_nat i).
Proof.
  induction ids as [|x ids IH]; intros n d d' Hn; cbn [insert_identifiers].
  { intros [= <-]. split_and!; try done. intros k id. split; [by left|]. intros [?|(i & Hi & _)]; [done|by rewrite lookup_nil in Hi]. }
  intros (o & Ho & E)%bind_ok. assert (o = n) as -> by (apply ok_or_ok in Ho; destruct (n <? 2 ^ 63); congruence). clear Ho.
  apply bind_ok in E as (d1 & (_ & Hnone & ->)%insert_row & E). apply IH in E as (Er & Es & Ei); [|lia]. split_and!; [done|done|].
  intros k id. rewrite Ei. cbn [db_identifiers set_identifiers]. rewrite lookup_insert_Some. split.
  - intros [[[<- <-]|[_ Hk]]|(i & Hi & ->)]; [right; exists 0%nat; split; [done|f_equal; lia]|by left|right; exists (S i); split; [done|f_equal; lia]].
  - intros [Hk|([|i] & Hi & ->)].
    + left. right. split; [|done]. intros <-. congruence.
    + injection Hi as <-. left. left. split; [f_equal; lia|done].
    + right. exists i. split; [done|f_equal; lia].
Qed.

(** ** Reading *)

(** The rows of a schema in a table keyed by schema and position, in order *)
Definition rows_of {V} (m : gmap (Z * Z) V) (schema : Z) : list (Z * V) :=
  merge_sort key_le (omap (fun kv => if kv.1.1 =? schema then Some (kv.1.2, kv.2) else None) (map_to_list m)).

Lemma elem_rows_of {V} (m : gmap (Z * Z) V) schema k v : (k, v) ∈ rows_of m schema <-> m !! (schema, k) = Some v.
Proof.
  unfold rows_of. rewrite merge_sort_Permutation, list_elem_of_omap. split.
  - intros ([[s i] w] & Hm%elem_of_map_to_list & Hk). cbn in Hk. destruct (Z.eqb_spec s schema) as [->|]; [|done]. by injection Hk as -> ->.
  - intros Hm. exists (schema, k, v). split; [by apply elem_of_map_to_list|]. cbn. by rewrite Z.eqb_refl.
Qed.
Lemma rows_of_nodup {V} (m : gmap (Z * Z) V) schema : NoDup (rows_of m schema).*1.
Proof.
  unfold rows_of. rewrite merge_sort_Permutation. pose proof (NoDup_fst_map_to_list m) as Hn. induction (map_to_list m) as [|[[s i] w] l IH]; [constructor|].
  cbn [fmap list_fmap fst] in Hn. apply NoDup_cons in Hn as [Hi Hn]. cbn [omap list_omap fst snd]. destruct (Z.eqb_spec s schema) as [->|]; [|by apply IH].
  cbn [fmap list_fmap fst]. apply NoDup_cons. split; [|by apply IH]. intros ([j v] & Hj & ([[s' i'] w'] & Hl & Hk)%list_elem_of_omap)%list_elem_of_fmap.
  cbn in Hj, Hk. destruct (Z.eqb_spec s' schema) as [->|]; [|done]. injection Hk as -> ->. cbn in Hj. subst j. apply Hi. apply list_elem_of_fmap. eexists. split; [|exact Hl]. done.
Qed.
Lemma rows_of_unique {V} (m : gmap (Z * Z) V) schema l : NoDup l.*1 -> StronglySorted key_le l -> (forall k v, (k, v) ∈ l <-> m !! (schema, k) = Some v) ->
  rows_of m schema = l.
Proof.
  intros Hn Hs Hl. assert (rows_of m schema ≡ₚ l) as Hp.
  { apply NoDup_Permutation; [apply (NoDup_fmap_1 fst), rows_of_nodup|by apply (NoDup_fmap_1 fst)|]. intros [k v]. by rewrite elem_rows_of, Hl. }
  eapply (StronglySorted_unique_strong key_le); [|apply StronglySorted_merge_sort; [intros a b c; unfold key_le; lia|intros a b; unfold key_le; lia]|done|done].
  intros [a v] [b w] Ha%elem_rows_of Hb%Hl Hab Hba. unfold key_le in *. cbn in *. assert (a = b) as -> by lia. congruence.
Qed.
Lemma rows_of_ext {V} (m m' : gmap (Z * Z) V) schema : (forall k, m' !! (schema, k) = m !! (schema, k)) -> rows_of m' schema = rows_of m schema.
Proof.
  intros He. apply rows_of_unique; [apply rows_of_nodup|apply StronglySorted_merge_sort; [intros a b c; unfold key_le; lia|intros a b; unfold key_le; lia]|].
  intros k v. by rewrite elem_rows_of, He.
Qed.

(** What is read of an entry *)
Definition read_entry (e : entry) : NormalizedField := {| nf_parent := e.1.1; nf_ordinal := e.1.2; nf_field := canonical_field e.2 |}.
Lemma canonical_field_id f : field_id (canonical_field f) = field_id f.
Proof. by destruct f. Qed.

(** What is written of the types and defaults of a field reads back. *)
Record reads_back (f : Field) : Prop := {
  rb_type : forall j, canonical_string (field_type f) = Ok j -> from_slice_canonical (as_bytes j) = Ok (canonical_type (field_type f));
  rb_default : forall v j, initial_default f = Some v \/ write_default f = Some v -> canonical_string v = Ok j -> from_slice_canonical (as_bytes j) = Ok (canonical_nan v) }.

Lemma parse_optional (o : option scalar) j : (forall v j, o = Some v -> canonical_string v = Ok j -> from_slice_canonical (as_bytes j) = Ok (canonical_nan v)) ->
  optional_canonical o = Ok j -> parse_optional_scalar j = Ok (canonical_nan <$> o).
Proof.
  unfold optional_canonical, parse_optional_scalar. destruct o as [v|]; cbn [transpose]; [|by intros _ [= <-]].
  intros Hv (b & Hb & [= <-])%bind_ok. cbn [transpose]. by rewrite (Hv v b eq_refl Hb).
Qed.
Lemma normalize_entry e r : reads_back e.2 -> is_u32 (entry_id e) -> (forall p, e.1.1 = Some p -> is_u32 p) -> is_u32 e.1.2 -> row_for e r ->
  normalize_row (entry_id e) r = Ok (entry_id e, read_entry e).
Proof.
  intros [Ht Hd] Hid Hp Ho [Rp Ro Rn Rr Rt Rd Ri Rw]. unfold normalize_row. rewrite (try_uint_id 32 _ Hid), Rp, Ro, (try_uint_id 32 _ Ho). cbn [ok_or mbind result_bind].
  replace (transpose _ e.1.1) with (Ok (E := rerror) e.1.1) by (destruct e.1.1 as [p|]; [cbn [transpose]; by rewrite (try_uint_id 32 _ (Hp p eq_refl))|done]).
  cbn [mbind result_bind]. rewrite (Ht _ Rt). cbn [of_protocol map_err mbind result_bind].
  rewrite (parse_optional _ _ ltac:(intros; eapply Hd; [by left|done]) Ri), (parse_optional _ _ ltac:(intros; eapply Hd; [by right|done]) Rw). cbn [mbind result_bind].
  unfold read_entry, entry_id in *. rewrite Rn, Rr, Rd. destruct e as [[p o] [id name required ty doc initial write]]. cbn. repeat f_equal. by destruct required.
Qed.

(** The fields of a schema, in their positions *)
Fixpoint numbered (n : Z) (l : list Field) : list NormalizedField :=
  match l with
  | [] => []
  | f :: l => {| nf_parent := None; nf_ordinal := n; nf_field := canonical_field f |} :: numbered (n + 1) l
  end.
Lemma numbered_fields l : forall n, map nf_field (numbered n l) = map canonical_field l.
Proof. induction l as [|f l IH]; intros n; cbn [numbered map]; [done|]. by rewrite IH. Qed.
Lemma numbered_above l : forall n a, a ∈ numbered n l -> n <= nf_ordinal a.
Proof.
  induction l as [|f l IH]; intros n a; cbn [numbered]; [by intros ?%not_elem_of_nil|]. intros [->|Ha]%elem_of_cons; [cbn; lia|]. apply IH in Ha. lia.
Qed.
Lemma numbered_sorted l : forall n, StronglySorted ordinal_le (numbered n l).
Proof.
  induction l as [|f l IH]; intros n; cbn [numbered]; constructor; [done|]. apply Forall_forall. intros a Ha%numbered_above. unfold ordinal_le. cbn. lia.
Qed.
Lemma numbered_once l : forall n a b, a ∈ numbered n l -> b ∈ numbered n l -> nf_ordinal a = nf_ordinal b -> a = b.
Proof.
  induction l as [|f l IH]; intros n a b; cbn [numbered]; [by intros ?%not_elem_of_nil|].
  intros [->|Ha]%elem_of_cons [->|Hb]%elem_of_cons; [done| | |by eapply IH]; cbn; intros E; [apply numbered_above in Hb|apply numbered_above in Ha]; lia.
Qed.
Lemma sort_numbered rows n l : rows ≡ₚ numbered n l -> by_ordinal rows = numbered n l.
Proof.
  intros Hp. unfold by_ordinal. assert (merge_sort ordinal_le rows ≡ₚ numbered n l) as Hq by (by rewrite merge_sort_Permutation).
  eapply (StronglySorted_unique_strong ordinal_le); [|apply StronglySorted_merge_sort; intros a b; unfold ordinal_le; lia|apply numbered_sorted|exact Hq].
  intros a b Ha Hb. rewrite Hq in Ha. unfold ordinal_le. intros. apply (numbered_once l n); [done|done|lia].
Qed.
Lemma below_roots p m l : filter (fun r => nf_parent r = None) (map read_entry (entries (Some p) m l)) = [].
Proof.
  pose proof (entries_parent p) as Hp. specialize (fun e => Hp e l m). induction (entries (Some p) m l) as [|e es IH]; [done|]. cbn [map]. rewrite filter_cons_False.
  - apply IH. intros. apply Hp. by right.
  - destruct (Hp e ltac:(left)) as [q Hq]. cbn. by rewrite Hq.
Qed.
Lemma roots_entries l : forall n, filter (fun r => nf_parent r = None) (map read_entry (entries None n l)) = numbered n l.
Proof.
  induction l as [|f l IH]; intros n; [done|]. rewrite entries_cons. cbn [map numbered]. rewrite filter_cons_True by done.
  rewrite map_app, filter_app, below_roots, IH. done.
Qed.

(** Distinct identifiers of 32 bits number at most 2^32. *)
Lemma count_ids es : NoDup (map entry_id es) -> (forall e, e ∈ es -> is_u32 (entry_id e)) -> len es <= 2 ^ 32.
Proof.
  intros Hn Hu. assert (map entry_id es ⊆+ seqZ 0 (2 ^ 32)) as Hs.
  { apply NoDup_submseteq; [done|]. intros i (e & -> & He)%list_elem_of_fmap. apply elem_of_seqZ. specialize (Hu e He). unfold is_uint in Hu. lia. }
  apply submseteq_length in Hs. rewrite length_seqZ, length_map in Hs. unfold len. lia.
Qed.

Lemma collect_perm {A B C} (f : A -> rresult B) (g : C -> B) l es : (forall a, a ∈ l -> exists c, c ∈ es /\ f a = Ok (g c)) ->
  NoDup (omap (fun a => ok (f a)) l) -> NoDup (map g es) -> (forall c, c ∈ es -> exists a, a ∈ l /\ f a = Ok (g c)) ->
  exists rows, collect f l = Ok rows /\ rows ≡ₚ map g es.
Proof.
  intros Hl Hn He Hb. eexists. split; [apply collect_readable; intros a Ha; destruct (Hl a Ha) as (c & _ & ->); by eexists|].
  apply NoDup_Permutation; [done|done|]. intros b. rewrite list_elem_of_omap, list_elem_of_fmap. split.
  - intros (a & Ha & Hok). destruct (Hl a Ha) as (c & Hc & E). exists c. rewrite E in Hok. by injection Hok as ->.
  - intros (c & -> & Hc). destruct (Hb c Hc) as (a & Ha & E). exists a. by rewrite E.
Qed.

Lemma normalized_entries schema es d d' : inserted schema es d d' -> (forall id, db_field_rows d !! (schema, id) = None) ->
  (forall e, e ∈ es -> reads_back e.2 /\ is_u32 (entry_id e) /\ (forall p, e.1.1 = Some p -> is_u32 p) /\ is_u32 e.1.2) ->
  exists rows, normalized_fields d' schema = Ok rows /\ rows ≡ₚ map (fun e => (entry_id e, read_entry e)) es.
Proof.
  intros [Hnew Hnodup Honly _ _ _] Hfresh Hes. unfold normalized_fields. change (field_rows_of d' schema) with (rows_of (db_field_rows d') schema).
  assert (forall e, e ∈ es -> exists r, db_field_rows d' !! (schema, entry_id e) = Some r /\ normalize_row (entry_id e) r = Ok (entry_id e, read_entry e)) as Hrow.
  { intros e He. destruct (Hnew e He) as (_ & r & Hr & Hl). destruct (Hes e He) as (? & ? & ? & ?). exists r. split; [done|]. by apply normalize_entry. }
  assert (forall a, a ∈ rows_of (db_field_rows d') schema -> exists e, e ∈ es /\ a.1 = entry_id e /\ normalize_row a.1 a.2 = Ok (entry_id e, read_entry e)) as Hread.
  { intros [k r] Ha%elem_rows_of. destruct (Honly _ _ Ha) as [Hold|(e & He & [= ->])]; [by rewrite Hfresh in Hold|]. exists e. split_and!; [done|done|].
    destruct (Hrow e He) as (r' & Hl & E). cbn. congruence. }
  apply collect_perm.
  - intros a Ha. destruct (Hread a Ha) as (e & He & _ & E). by exists e.
  - apply (NoDup_fmap_1 fst). pose proof (rows_of_nodup (db_field_rows d') schema) as Hn. revert Hread Hn. generalize (rows_of (db_field_rows d') schema) as l.
    intros l. induction l as [|a l IH]; intros Hread Hn; cbn [omap list_omap]; [constructor|]. cbn [fmap list_fmap] in Hn. apply NoDup_cons in Hn as [Ha Hn].
    destruct (Hread a ltac:(left)) as (e & He & Hid & E). rewrite E. cbn [ok fmap list_fmap fst]. apply NoDup_cons. split; [|apply IH; [|done]; intros; apply Hread; by right].
    rewrite <- Hid. intros (x & Hx & (b & Hb & Hok)%list_elem_of_omap)%list_elem_of_fmap. destruct (Hread b ltac:(by right)) as (e' & _ & Hid' & E').
    rewrite E' in Hok. injection Hok as <-. cbn in Hx. apply Ha, list_elem_of_fmap. exists b. split; [congruence|done].
  - apply (NoDup_fmap_1 fst). change (map ?f ?l) with (f <$> l). rewrite <- list_fmap_compose. exact Hnodup.
  - intros e He. destruct (Hrow e He) as (r & Hl & E). exists (entry_id e, r). split; [by apply elem_rows_of|done].
Qed.

Lemma get_u32_id x : is_u32 x -> get_u32 x = Ok x.
Proof. intros Hx. unfold get_u32. by rewrite (try_uint_id 32 _ Hx). Qed.
Lemma collect_u32 l : Forall is_u32 l -> collect get_u32 l = Ok l.
Proof.
  induction 1 as [|x l Hx _ IH]; cbn [collect]; [done|]. rewrite (get_u32_id x Hx). cbn [mbind result_bind]. by rewrite IH.
Qed.

(** Identifiers with their positions *)
Fixpoint positions (n : Z) (l : list Z) : list (Z * Z) := match l with [] => [] | x :: l => (n, x) :: positions (n + 1) l end.
Lemma elem_positions k v l : forall n, (k, v) ∈ positions n l <-> exists i, l !! i = Some v /\ k = n + Z.of_nat i.
Proof.
  induction l as [|x l IH]; intros n; cbn [positions]; [split; [by intros ?%not_elem_of_nil|by intros (i & ? & _)]|]. rewrite elem_of_cons, IH. split.
  - intros [[= -> ->]|(i & Hi & ->)]; [exists 0%nat|exists (S i)]; (split; [done|lia]).
  - intros ([|i] & Hi & ->); [injection Hi as ->; left; f_equal; lia|right; exists i; split; [done|lia]].
Qed.
Lemma positions_ids l : forall n, (positions n l).*2 = l.
Proof. induction l as [|x l IH]; intros n; cbn [positions fmap list_fmap snd]; [done|]. f_equal. apply IH. Qed.
Lemma positions_sorted l : forall n, NoDup (positions n l).*1 /\ StronglySorted key_le (positions n l).
Proof.
  induction l as [|x l IH]; intros n; cbn [positions fmap list_fmap fst]; [split; constructor|]. destruct (IH (n + 1)) as [Hn Hs]. split.
  - apply NoDup_cons. split; [|done]. intros ([k v] & -> & (i & _ & Hk)%elem_positions)%list_elem_of_fmap. cbn in Hk. lia.
  - constructor; [done|]. apply Forall_forall. intros [k v] (i & _ & ->)%elem_positions. unfold key_le. cbn. lia.
Qed.

(** The identifiers of the schema are read in the order they were written. *)
Lemma identifiers_read d d' schema ids : (forall k, db_identifiers d !! (schema, k) = None) ->
  (forall k id, db_identifiers d' !! k = Some id <-> db_identifiers d !! k = Some id \/ exists i, ids !! i = Some id /\ k = (schema, 0 + Z.of_nat i)) ->
  identifier_rows d' schema = ids.
Proof.
  intros Hfresh Hids. change (identifier_rows d' schema) with (rows_of (db_identifiers d') schema).*2.
  destruct (positions_sorted ids 0) as [Hn Hs]. rewrite (rows_of_unique _ _ _ Hn Hs); [apply positions_ids|]. intros k v. rewrite elem_positions, Hids, Hfresh. split.
  - intros (i & Hi & ->). right. by exists i.
  - intros [?|(i & Hi & [= ->])]; [done|by exists i].
Qed.

(** The schema is new in the tables that hold its parts. *)
Record schema_rows_fresh (schema : Z) (d : Db) : Prop := {
  sf_fields : forall id, db_field_rows d !! (schema, id) = None;
  sf_identifiers : forall n, db_identifiers d !! (schema, n) = None }.
(** Its identifiers are of 32 bits, as the program's types have them. *)
Record schema_u32 (s : Schema) : Prop := {
  su_parent : forall p, parent_schema_id s = Some p -> is_u32 p;
  su_fields : forall e, e ∈ entries None 0 (schema_fields s) -> is_u32 (entry_id e);
  su_identifiers : Forall is_u32 (identifier_field_ids s) }.

(** What the statements of [insert_schema] leave *)
Lemma insert_schema_rows s version d d' : insert_schema s version d = Ok d' -> exists v,
  db_schemas d' = <[schema_id s := {| d_parent := parent_schema_id s; d_created_version := v; d_doc := schema_doc s |}]> (db_schemas d) /\
  (exists e, inserted (schema_id s) (entries None 0 (schema_fields s)) (set_schemas (db_schemas d') d) e /\ db_field_rows d' = db_field_rows e) /\
  forall k id, db_identifiers d' !! k = Some id <-> db_identifiers d !! k = Some id \/ exists i, identifier_field_ids s !! i = Some id /\ k = (schema_id s, 0 + Z.of_nat i).
Proof.
  unfold insert_schema. intros (v & _ & E)%bind_ok. apply bind_ok in E as (d1 & (_ & _ & ->)%insert_row & E). apply bind_ok in E as (d2 & E2 & E).
  exists v.
  eapply (insert_siblings_inserted (schema_id s) _ None) in E2 as Hin; [|intros g _ n e e'; by apply insert_field_inserted].
  apply insert_identifiers_rows in E as (Er & Es & Ei); [|lia]. pose proof (in_schemas _ _ _ _ Hin) as Hs. cbn in Hs.
  pose proof (in_identifiers _ _ _ _ Hin) as Hi. cbn in Hi. rewrite Es, Hs. split_and!; [done| |by rewrite Hi in Ei]. by exists d2.
Qed.

(** C13: a schema written field by field into the image of a table reads back as the
    schema, its nested fields, the order of its fields and its identifiers
    included, up to the NaN that serialization makes canonical; and the other
    schemas of the image read as before. *)
Theorem schema_rows_roundtrip s version d d' :
  schema_u32 s -> schema_rows_fresh (schema_id s) d -> (forall e, e ∈ entries None 0 (schema_fields s) -> reads_back e.2) ->
  insert_schema s version d = Ok d' ->
  read_schema d' (schema_id s) = Ok (canonical_schema s) /\ forall id, id <> schema_id s -> read_schema d' id = read_schema d id.
Proof.
  intros [Hparent Hids Hident] [Hff Hfi] Hback (v & Hs & (e & Hin & Hrows) & Hi)%insert_schema_rows. unfold read_schema. split.
  - rewrite Hs, lookup_insert_eq. unfold row. cbn [ok_or mbind result_bind d_parent d_doc].
    replace (transpose get_u32 (parent_schema_id s)) with (Ok (E := rerror) (parent_schema_id s))
      by (destruct (parent_schema_id s) as [p|]; [cbn [transpose]; by rewrite (get_u32_id _ (Hparent p eq_refl))|done]).
    cbn [mbind result_bind]. pose proof (count_ids _ (in_nodup _ _ _ _ Hin) Hids) as Hcount.
    destruct (normalized_entries _ _ _ _ Hin Hff) as (rows & Hn & Hp).
    { intros x Hx. split_and!; [by apply Hback|by apply Hids|intros p; by apply (entries_parents is_u32 x p (schema_fields s) 0)|].
      apply entries_bound in Hx; [|lia]. unfold is_uint. lia. }
    assert (normalized_fields d' (schema_id s) = Ok rows) as -> by (rewrite <- Hn; unfold normalized_fields, field_rows_of; by rewrite Hrows).
    cbn [mbind result_bind]. rewrite (identifiers_read d d' _ _ Hfi Hi), collect_u32 by done. cbn [mbind result_bind].
    rewrite (sort_numbered _ 0 (schema_fields s)), numbered_fields; [done|]. unfold roots. rewrite Hp, <- roots_entries.
    change (map ?f ?l) with (f <$> l). rewrite <- list_fmap_compose. done.
  - intros id Hid. rewrite Hs, lookup_insert_ne by done.
    assert (normalized_fields d' id = normalized_fields d id) as ->.
    { unfold normalized_fields. f_equal. apply (rows_of_ext (db_field_rows d)). intros k. rewrite Hrows. destruct Hin as [_ _ Honly Hmore _ _].
      cbn [db_field_rows set_schemas] in *. destruct (db_field_rows d !! (id, k)) as [r|] eqn:E; [by eapply lookup_weaken|].
      destruct (db_field_rows e !! (id, k)) as [r|] eqn:E'; [|done]. destruct (Honly _ _ E') as [|(x & _ & [= ? _])]; [congruence|done]. }
    assert (identifier_rows d' id = identifier_rows d id) as ->; [|done].
    unfold identifier_rows. f_equal. apply (rows_of_ext (db_identifiers d)). intros k. apply option_eq. intros x. rewrite Hi. split; [|by left].
    intros [?|(i & _ & [= ? _])]; [done|done].
Qed.
End rows.

(** ** Example *)

(** A [serde] whose documents are words: a word for each type and scalar used. *)
#[local] Instance example_hex : HexCrate := hex_reference.
#[local] Instance example_engine : SqlEngine := {| sql_failure := RuntimeError.Sqlite |}.
#[local] Instance example_serde : SerdeJson :=
  {| json_document b := JStr (of_bytes (take (length b - 2) (drop 1 b))); json_end _ := None; json_position _ _ := " at line 1 column 1";
     json_not_a_string _ := "invalid type: expected a string"; json_string s := Ok (quoted s) |}.

(** A struct with a NaN default and a list, before a column with a smaller identifier *)
Definition nan_field : Field := MkField 3 "a" false TFloat32 None (Some (TypedScalar.Float32 0x7fc00001)) None.
Definition list_type : LogicalType := TList (MkField 5 "element" true TInt64 None None None).
Definition struct_type : LogicalType := TStruct [nan_field; MkField 4 "l" false list_type None None None].
Definition example_schema : Schema :=
  {| schema_id := 1; parent_schema_id := None; schema_fields := [MkField 2 "s" false struct_type None None None; MkField 1 "x" true TInt64 None None None];
     identifier_field_ids := [1]; schema_doc := Some "doc" |}.

Definition type_word (t : LogicalType) : string :=
  match t with TInt64 => "int64" | TFloat32 => "float32" | TList _ => "list" | TStruct _ => "struct" | _ => "other" end.
Definition word_type (b : bytes) : result string LogicalType :=
  match find (fun t => bool_decide (b = as_bytes (quoted (type_word t)))) [TInt64; TFloat32; list_type; struct_type] with
  | Some t => Ok (canonical_type t)
  | None => Err "unknown variant"
  end.
#[local] Instance example_type_json : ToJson LogicalType := {| serde_to_vec t := Ok (as_bytes (quoted (type_word t))) |}.
#[local] Instance example_type_from : FromJson LogicalType := {| serde_from_slice := word_type |}.
#[local] Instance example_scalar_json : ToJson scalar := {| serde_to_vec _ := Ok (as_bytes (quoted "nan")) |}.
#[local] Instance example_scalar_from : FromJson scalar := {| serde_from_slice _ := Ok (TypedScalar.Float32 0x7fc00000) |}.

#[local] Notation example_image := (from_option id empty_db (ok (insert_schema example_schema 0 empty_db))).

Lemma schema_rows_roundtrip_witness : read_schema example_image 1 = Ok (canonical_schema example_schema).
Proof.
  apply (schema_rows_roundtrip example_schema 0 empty_db example_image).
  - split; [done| |repeat constructor; done]. intros e He. cbn in He. set_unfold. by destruct He as [-> | [-> | [-> | [-> | [-> | []]]]]].
  - split; intros; apply lookup_empty.
  - intros e He. cbn in He. set_unfold. destruct He as [-> | [-> | [-> | [-> | [-> | []]]]]]; split; cbn [snd field_type initial_default write_default].
    all: try (intros j Hj; vm_compute in Hj; injection Hj as <-; vm_compute; reflexivity).
    all: intros v j [Hv|Hv] Hj; try discriminate Hv. injection Hv as <-. vm_compute in Hj. injection Hj as <-. vm_compute. reflexivity.
  - vm_compute. reflexivity.
Defined.

(** A schema with a NaN below a struct is valid, and its rows are read back; but the
    check of an image compares the rows of the children with the type of their parent
    as floats, so it refuses the image that holds the schema. *)
Lemma nested_nan_refused : validate_schema example_schema = Ok tt /\
  validate_schemas example_image = Err (corrupt "recursive type JSON disagrees with normalized field rows").
Proof. split; vm_compute; reflexivity. Qed.
