(* ===== verification/AppendFacts.v ===== *)
(** What an append does to the tables: a new snapshot on the tip of a branch, the
    files it adds, and nothing else of snapshots, refs and files. *)
From S2P Require Import Prelude Bytes Errors Values Scalars CanonicalJson Hashes Schema PageTree Objects Storage Publication.
From S2P Require Import Database History SchemaRows Transactions Append DatabaseFacts HistoryFacts FileOrder TableState.

(** ** One file *)

(** The row of a file, and the file it lists as. *)
Definition new_row (input : AppendImage) (f : ImageFile) : FileRow :=
  {| f_kind := "data"; f_uri := if_uri f; f_object_identity := None; f_format := file_format_str (if_format f); f_size := if_file_size_bytes f;
     f_records := if_record_count f; f_schema_id := if_schema_id f; f_partition_spec_id := if_partition_spec_id f;
     f_sort_order_id := Some (if_sort_order_id f); f_partition_values := if_partition_values_cbor f;
     f_partition_hash := sha_bytes (if_partition_hash f); f_sha256 := Some (sha_bytes (if_content_sha256 f));
     f_data_sequence := ai_sequence_number input; f_file_sequence := ai_sequence_number input; f_created_snapshot := id_bytes (ai_snapshot_id input);
     f_created_version := ai_table_version input; f_metadata := if_metadata_json f |}.
Definition new_listed (input : AppendImage) (f : ImageFile) : LiveFile :=
  {| lf_file_id := if_file_id f; lf_uri := MkUri (if_uri f); lf_file_format := file_format_str (if_format f);
     lf_file_size_bytes := if_file_size_bytes f; lf_record_count := if_record_count f; lf_content_sha256 := Some (if_content_sha256 f);
     lf_sequence_number := ai_sequence_number input |}.

(** What the types of an identifier and a URI guarantee. *)
Definition image_file_ok (f : ImageFile) : Prop := id_valid (if_file_id f) /\ relative_uri_from_str (if_uri f) = Ok (MkUri (if_uri f)).

Lemma sqlite_i64_ok v name w : sqlite_i64 v name = Ok w -> w = v /\ v < 2 ^ 63.
Proof. unfold sqlite_i64. intros E%ok_or_ok. destruct (Z.ltb_spec v (2 ^ 63)); [|done]. injection E as <-. done. Qed.

Section append.
Context `{HexCrate, SqlEngine, SerdeJson}.

Lemma append_metric_core file d m d' : append_metric file d m = Ok d' -> same_core d d'.
Proof.
  unfold append_metric. intros (a & _ & E)%bind_ok. apply bind_ok in E as (b & _ & E). apply bind_ok in E as (c & _ & E).
  apply bind_ok in E as (n & _ & E). apply bind_ok in E as (x & _ & E). by apply insert_metric_core in E.
Qed.

(** The effect of the files of an append: [d'] has the new rows, each added by the
    snapshot and live on the branch. *)
Record files_added (input : AppendImage) (fs : list ImageFile) (d d' : Db) : Prop := {
  fa_snapshots : db_snapshots d' = db_snapshots d;
  fa_refs : db_refs d' = db_refs d;
  fa_sequence : m_last_sequence_number <$> db_meta d' = m_last_sequence_number <$> db_meta d;
  fa_fresh : forall f, f ∈ fs -> db_files d !! id_bytes (if_file_id f) = None;
  fa_nodup : NoDup (map if_file_id fs);
  fa_kept : forall id, id ∉ map (fun f => id_bytes (if_file_id f)) fs -> db_files d' !! id = db_files d !! id;
  fa_new : forall f, f ∈ fs -> db_files d' !! id_bytes (if_file_id f) = Some (new_row input f) /\
    live_file (id_bytes (if_file_id f)) (new_row input f) (ai_sequence_number input) = Ok (new_listed input f);
  fa_changes : forall c, c ∈ db_changes d' <-> c ∈ db_changes d \/
    exists f, f ∈ fs /\ c = (id_bytes (ai_snapshot_id input), id_bytes (if_file_id f), "add");
  fa_live : forall n id, is_Some (db_live d' !! (n, id)) <-> is_Some (db_live d !! (n, id)) \/
    n = ai_target_ref input /\ exists f, f ∈ fs /\ id = id_bytes (if_file_id f) }.

Lemma nonnegative_id z name : 0 <= z < 2 ^ 63 -> nonnegative z name = Ok z.
Proof. intros Hz. unfold nonnegative. rewrite try_uint_id by (unfold is_uint; lia). done. Qed.

Lemma new_row_read input f d : image_file_ok f -> file_checks (id_bytes (if_file_id f)) (new_row input f) d = true ->
  if_file_size_bytes f < 2 ^ 63 -> if_record_count f < 2 ^ 63 -> ai_sequence_number input < 2 ^ 63 ->
  live_file (id_bytes (if_file_id f)) (new_row input f) (ai_sequence_number input) = Ok (new_listed input f).
Proof.
  intros [Hid Huri] Hc Hs Hr Hq. unfold file_checks in Hc. cbn [new_row f_sha256 f_size f_records f_file_sequence from_option] in Hc.
  rewrite !andb_true_iff in Hc. destruct Hc as ((((((((((((_ & _) & Hsize) & Hrec) & _) & _) & _) & _) & Hsha) & _) & Hseq) & _) & _).
  unfold live_file. rewrite (proj2 (id_from_blob_ok _ (if_file_id f))) by done. cbn [mbind result_bind].
  cbn [new_row f_uri f_size f_records f_sha256 f_format]. rewrite Huri. cbn [of_protocol map_err mbind result_bind].
  rewrite !nonnegative_id by lia. cbn [mbind result_bind transpose]. unfold hash_from_blob. unfold blob in Hsha. rewrite Hsha.
  cbn [negb reject mbind result_bind]. unfold new_listed. by destruct (if_content_sha256 f).
Qed.

Lemma append_file_added input d f d' : image_file_ok f -> append_file input d f = Ok d' -> files_added input [f] d d'.
Proof.
  intros Hf. unfold append_file. intros (size & [-> Hs]%sqlite_i64_ok & E)%bind_ok. apply bind_ok in E as (records & [-> Hr]%sqlite_i64_ok & E).
  apply bind_ok in E as (sequence & [-> Hq]%sqlite_i64_ok & E). apply bind_ok in E as (version & [-> Hv]%sqlite_i64_ok & E).
  apply bind_ok in E as (d1 & E1 & E). apply bind_ok in E as (d2 & E2 & E). apply bind_ok in E as (d3 & E3 & E).
  change {| f_kind := _ |} with (new_row input f) in E1. apply insert_row in E1 as (Hc & Hfresh & ->).
  apply andb_true_iff in Hc as [Hc _]. apply (try_fold_same_core (append_metric (if_file_id f)) (append_metric_core (if_file_id f))) in E2.
  unfold insert_change in E3. apply bind_unit in E3 as [_ [= <-]]. apply insert_row in E as (_ & Hlive & ->).
  destruct E2 as [S1 S2 S3 S4 S5 S6]. split; cbn; rewrite ?S1, ?S2, ?S3, ?S4, ?S5; cbn.
  - done.
  - done.
  - exact S6.
  - by intros g ->%list_elem_of_singleton.
  - apply NoDup_singleton.
  - intros id Hid. rewrite lookup_insert_ne; [done|]. intros <-. apply Hid. left.
  - intros g ->%list_elem_of_singleton. rewrite lookup_insert_eq. split; [done|]. by eapply new_row_read.
  - intros c. rewrite elem_of_union, elem_of_singleton. setoid_rewrite list_elem_of_singleton. naive_solver.
  - intros n id. setoid_rewrite list_elem_of_singleton. destruct (decide ((ai_target_ref input, id_bytes (if_file_id f)) = (n, id))) as [[= <- <-]|Hne].
    + rewrite lookup_insert_eq. split; [|intros _; by eexists]. intros _. right. eauto.
    + rewrite lookup_insert_ne by done. split; [by left|]. intros [?|(-> & g & -> & ->)]; done.
Qed.

Lemma files_added_nil input d : files_added input [] d d.
Proof.
  split; try done; try (intros ? ?%not_elem_of_nil; done); [constructor|..].
  - intros c. split; [by left|]. intros [?|(f & ?%not_elem_of_nil & _)]; done.
  - intros n id. split; [by left|]. intros [?|(_ & f & ?%not_elem_of_nil & _)]; done.
Qed.
Lemma files_added_app input fs gs d e d' : files_added input fs d e -> files_added input gs e d' -> files_added input (fs ++ gs) d d'.
Proof.
  intros A B. assert (forall f g, f ∈ fs -> g ∈ gs -> id_bytes (if_file_id f) <> id_bytes (if_file_id g)) as Hne.
  { intros f g Hf Hg E. pose proof (fa_fresh _ _ _ _ B g Hg) as Hn. rewrite <- E in Hn. destruct (fa_new _ _ _ _ A f Hf) as [Hs _]. congruence. }
  assert (forall g, g ∈ gs -> id_bytes (if_file_id g) ∉ map (fun f => id_bytes (if_file_id f)) fs) as Hnin.
  { intros g Hg (f & Hf & Hfs)%list_elem_of_fmap. by apply (Hne f g). }
  split.
  - by rewrite (fa_snapshots _ _ _ _ B), (fa_snapshots _ _ _ _ A).
  - by rewrite (fa_refs _ _ _ _ B), (fa_refs _ _ _ _ A).
  - by rewrite (fa_sequence _ _ _ _ B), (fa_sequence _ _ _ _ A).
  - intros f [Hf|Hf]%elem_of_app; [by apply (fa_fresh _ _ _ _ A)|]. rewrite <- (fa_kept _ _ _ _ A) by by apply Hnin. by apply (fa_fresh _ _ _ _ B).
  - rewrite map_app. apply NoDup_app. split_and!; [apply A| |apply B].
    intros i (f & -> & Hf)%list_elem_of_fmap (g & E & Hg)%list_elem_of_fmap. apply (Hne f g Hf Hg). by rewrite E.
  - intros id Hid. rewrite map_app, not_elem_of_app in Hid. by rewrite (fa_kept _ _ _ _ B), (fa_kept _ _ _ _ A) by apply Hid.
  - intros f [Hf|Hf]%elem_of_app; [|by apply (fa_new _ _ _ _ B)]. rewrite (fa_kept _ _ _ _ B); [by apply (fa_new _ _ _ _ A)|].
    intros (g & E & Hg)%list_elem_of_fmap. by apply (Hne f g).
  - intros c. rewrite (fa_changes _ _ _ _ B), (fa_changes _ _ _ _ A). setoid_rewrite elem_of_app. naive_solver.
  - intros n id. rewrite (fa_live _ _ _ _ B), (fa_live _ _ _ _ A). setoid_rewrite elem_of_app. naive_solver.
Qed.
Lemma append_files_added input fs : Forall image_file_ok fs -> forall d d', try_fold (append_file input) d fs = Ok d' -> files_added input fs d d'.
Proof.
  induction 1 as [|f fs Hf _ IH]; intros d d'; cbn [try_fold]; [intros [= <-]; apply files_added_nil|].
  intros (e & E1 & E2)%bind_ok. apply (files_added_app input [f] fs d e d'); [by apply append_file_added|by apply IH].
Qed.

(** ** The whole append *)

Definition new_snapshot (input : AppendImage) (schema : Z) (summary : string) : SnapshotRow :=
  {| s_parent := id_bytes <$> ai_parent_snapshot_id input; s_sequence := ai_sequence_number input; s_schema_id := schema;
     s_partition_spec_id := 0; s_sort_order_id := 0; s_operation := "append"; s_version := ai_table_version input;
     s_committed_at_ms := ai_created_at_ms input; s_summary := summary; s_metadata := ai_snapshot_metadata_json input |}.

Record appended (input : AppendImage) (s : SnapshotRow) (r : RefRow) (d d' : Db) : Prop := {
  an_fresh : db_snapshots d !! id_bytes (ai_snapshot_id input) = None;
  an_snapshots : db_snapshots d' = <[id_bytes (ai_snapshot_id input) := s]> (db_snapshots d);
  an_target : db_refs d !! ai_target_ref input = Some r /\ is_branch r = true;
  an_refs : exists r', db_refs d' = <[ai_target_ref input := r']> (db_refs d) /\ r_type r' = "branch" /\
    r_snapshot r' = Some (id_bytes (ai_snapshot_id input));
  an_last : last_sequence d' = ai_sequence_number input;
  an_version : table_version d' = ai_table_version input;
  an_new_fresh : forall f, f ∈ ai_files input -> db_files d !! id_bytes (if_file_id f) = None;
  an_nodup : NoDup (map if_file_id (ai_files input));
  an_kept : forall id, id ∉ map (fun f => id_bytes (if_file_id f)) (ai_files input) -> db_files d' !! id = db_files d !! id;
  an_new : forall f, f ∈ ai_files input -> db_files d' !! id_bytes (if_file_id f) = Some (new_row input f) /\
    live_file (id_bytes (if_file_id f)) (new_row input f) (ai_sequence_number input) = Ok (new_listed input f);
  an_changes : forall c, c ∈ db_changes d' <-> c ∈ db_changes d \/
    exists f, f ∈ ai_files input /\ c = (id_bytes (ai_snapshot_id input), id_bytes (if_file_id f), "add");
  an_live : forall n id, is_Some (db_live d' !! (n, id)) <-> is_Some (db_live d !! (n, id)) \/
    n = ai_target_ref input /\ exists f, f ∈ ai_files input /\ id = id_bytes (if_file_id f) }.

Context `{ToJson cvalue}.

Lemma append_summary_core snapshot d kv d' : append_summary snapshot d kv = Ok d' -> same_core d d'.
Proof. unfold append_summary. intros (v & _ & E)%bind_ok. by apply insert_summary_core in E. Qed.

Lemma mutate_append_ok input d d' : Forall image_file_ok (ai_files input) -> mutate_append input d = Ok d' ->
  exists m summary r, db_meta d = Some m /\ canonical_string (CanonicalValue.Object (ai_summary input)) = Ok summary /\
    appended input (new_snapshot input (m_current_schema_id m) summary) r d d' /\
    0 < ai_sequence_number input < 2 ^ 63 /\ 0 < ai_table_version input < 2 ^ 63.
Proof.
  intros Hf. unfold mutate_append. intros (m & Hm%row_ok & E)%bind_ok. apply bind_reject in E as [_ E].
  apply bind_ok in E as (q & [-> Hq]%sqlite_i64_ok & E). apply bind_ok in E as (v & [-> Hv]%sqlite_i64_ok & E).
  apply bind_ok in E as (summary & Hsum & E). apply bind_ok in E as (d1 & E1 & E). apply bind_ok in E as (d2 & E2 & E).
  apply bind_ok in E as (d3 & E3 & E). apply bind_ok in E as ([n d4] & E4 & E). apply bind_reject in E as [Hn E].
  apply bind_ok in E as (d5 & E5%insert_commit_core & E). apply bind_ok in E as (d6 & E6%insert_idempotency_core & E).
  change {| s_parent := _ |} with (new_snapshot input (m_current_schema_id m) summary) in E1.
  apply insert_row in E1 as (Hc & Hfresh & ->). apply (try_fold_same_core (append_summary _) (append_summary_core _)) in E2.
  apply append_files_added in E3; [|done]. apply update_ref_ok in E4 as [[-> _]|(r & -> & Hr & Hb & _ & ->)]; [done|].
  assert (same_core (set_refs (<[ai_target_ref input := {| r_type := r_type r; r_snapshot := Some (id_bytes (ai_snapshot_id input));
    r_created_version := r_created_version r; r_updated_version := ai_table_version input |}]> (db_refs d3)) d3) d6) as Hcore by (etrans; eassumption).
  clear E5 E6. destruct Hcore as [C1 C2 C3 C4 C5 C6], E2 as [S1 S2 S3 S4 S5 S6]. cbn in *.
  destruct E3 as [F1 F2 F3 F4 F5 F6 F7 F8 F9]. rewrite S1, S2, S3, S4, S5 in *. rewrite Hm in S6. rewrite S6 in F3. rewrite F3 in C6.
  apply update_meta_ok in E as [[Hnone ->]|(m' & Hm' & _ & ->)]; [by rewrite Hnone in C6|].
  rewrite !andb_true_iff in Hc. cbn in Hc. destruct Hc as (((((((_ & Hseq) & _) & _) & _) & _) & Hver) & _).
  exists m, summary, r. split_and!; [done|done| |lia..]. split; cbn; rewrite ?C1, ?C2, ?C3, ?C4, ?C5, ?F1, ?F2; try done.
  - split; [|done]. by rewrite <- F2.
  - eexists. split_and!; [done| |done]. cbn. unfold is_branch in Hb. by bool_to_prop.
Qed.

(** ** The invariant after an append *)

Section after.
Context (input : AppendImage) (s : SnapshotRow) (r : RefRow) (d d' : Db) (Hok : table_ok d) (Ha : appended input s r d d').
Context (Hparent : s_parent s = r_snapshot r) (Hnumber : s_sequence s = ai_sequence_number input)
  (Hnext : ai_sequence_number input = last_sequence d + 1) (Hbound : ai_sequence_number input < 2 ^ 63) (Hpos : 0 < ai_sequence_number input)
  (Hid : id_valid (ai_snapshot_id input)) (Hread : exists sd, descriptor d' (ai_snapshot_id input) = Ok sd).

Notation new_id := (id_bytes (ai_snapshot_id input)).

Lemma old_row id o : db_snapshots d !! id = Some o -> db_snapshots d' !! id = Some o /\ id <> new_id /\ s_sequence o < s_sequence s.
Proof.
  intros Ho. pose proof (an_fresh _ _ _ _ _ Ha) as Hfresh. assert (id <> new_id) as Hne by congruence.
  rewrite (an_snapshots _ _ _ _ _ Ha), lookup_insert_ne by done. split_and!; [done|done|].
  pose proof (sok_sequence _ _ _ (to_snapshot _ Hok _ _ Ho)). lia.
Qed.
Lemma new_or_old id o : db_snapshots d' !! id = Some o -> (id = new_id /\ o = s) \/ (id <> new_id /\ db_snapshots d !! id = Some o).
Proof.
  rewrite (an_snapshots _ _ _ _ _ Ha), lookup_insert_Some. intros [[<- <-]|[? ?]]; [by left|right]. split; [congruence|done].
Qed.
Lemma target_tip : forall p, r_snapshot r = Some p -> is_Some (db_snapshots d !! p).
Proof. apply (to_ref _ Hok (ai_target_ref input)). apply (an_target _ _ _ _ _ Ha). Qed.

(** Lines of the image before, and the line of the new snapshot *)
Lemma closed_rows y sy p : db_snapshots d !! y = Some sy -> s_parent sy = Some p -> is_Some (db_snapshots d !! p).
Proof. intros Hy Hp. destruct (sok_parent _ _ _ (to_snapshot _ Hok _ _ Hy) _ Hp) as (sp & Hsp & _). by eexists. Qed.
Lemma old_line tip x : (forall t, tip = Some t -> is_Some (db_snapshots d !! t)) ->
  ancestor (db_snapshots d') tip x <-> ancestor (db_snapshots d) tip x.
Proof.
  intros Htip. rewrite (an_snapshots _ _ _ _ _ Ha). apply ancestor_insert; [apply (an_fresh _ _ _ _ _ Ha)|apply closed_rows|done].
Qed.
Lemma new_line x : ancestor (db_snapshots d') (Some new_id) x <-> x = new_id \/ ancestor (db_snapshots d) (r_snapshot r) x.
Proof.
  rewrite (ancestor_some _ _ s); [|by rewrite (an_snapshots _ _ _ _ _ Ha), lookup_insert_eq]. rewrite Hparent, old_line; [done|apply target_tip].
Qed.

(** Changes of the image before are of its snapshots. *)
Lemma old_change x f : x <> new_id -> (x, f, "add") ∈ db_changes d' <-> (x, f, "add") ∈ db_changes d.
Proof. intros Hx. rewrite (an_changes _ _ _ _ _ Ha). split; [|by left]. intros [?|(g & _ & [= ? _])]; done. Qed.
Lemma new_change f : (new_id, f, "add") ∈ db_changes d' <-> exists g, g ∈ ai_files input /\ f = id_bytes (if_file_id g).
Proof.
  rewrite (an_changes _ _ _ _ _ Ha). split.
  - intros [Hin|(g & Hg & [= ->])]; [exfalso|by exists g]. destruct (to_change _ Hok _ _ _ Hin) as (_ & srow & _ & Hs & _).
    pose proof (an_fresh _ _ _ _ _ Ha). congruence.
  - intros (g & Hg & ->). right. by exists g.
Qed.

Lemma snapshots_after id o : db_snapshots d' !! id = Some o -> snapshot_ok d' id o.
Proof.
  intros Ho. destruct (new_or_old _ _ Ho) as [[-> ->]|[Hne Hold]].
  - destruct Hread as [sd Hsd]. split; [by exists (ai_snapshot_id input), sd|rewrite (an_last _ _ _ _ _ Ha); lia|].
    intros p Hp. rewrite Hparent in Hp. destruct (target_tip _ Hp) as [sp Hsp]. exists sp. by apply old_row in Hsp as (? & _ & ?).
  - destruct (to_snapshot _ Hok _ _ Hold) as [(i & sd & Hi & Hv & Hsd) Hq Hp]. split.
    + exists i, sd. split_and!; [done|done|]. rewrite <- Hsd. apply descriptor_frame. congruence.
    + rewrite (an_last _ _ _ _ _ Ha). lia.
    + intros p (sp & Hsp & ?)%Hp. exists sp. by apply old_row in Hsp as (? & _ & _).
Qed.
Lemma live_after n f : is_Some (db_live d' !! (n, f)) <->
  exists r0 x, db_refs d' !! n = Some r0 /\ is_branch r0 = true /\ ancestor (db_snapshots d') (r_snapshot r0) x /\ (x, f, "add") ∈ db_changes d'.
Proof.
  rewrite (an_live _ _ _ _ _ Ha), (to_live _ Hok). destruct (an_target _ _ _ _ _ Ha) as [Hr Hb].
  destruct (an_refs _ _ _ _ _ Ha) as (r' & Hrefs & Htype & Htip). assert (forall x, ancestor (db_snapshots d) (r_snapshot r) x -> x <> new_id) as Hnew.
  { intros x Hx ->. apply ancestor_row in Hx as [o Ho]. by destruct (old_row _ _ Ho) as (_ & ? & _). }
  destruct (decide (n = ai_target_ref input)) as [->|Hne]; rewrite Hrefs.
  - rewrite lookup_insert_eq. split.
    + intros [(r0 & x & Hr0 & _ & Hx & Hc)|(_ & g & Hg & ->)]; exists r'.
      * assert (r0 = r) as -> by congruence. exists x. rewrite Htip, new_line, old_change by auto.
        split_and!; [done|unfold is_branch; by rewrite Htype|by right|done].
      * exists new_id. rewrite Htip, new_line, new_change. split_and!; [done|unfold is_branch; by rewrite Htype|by left|by exists g].
    + intros (r0 & x & [= <-] & _ & Hx & Hc). rewrite Htip in Hx. apply new_line in Hx as [->|Hx].
      * right. split; [done|]. by apply new_change.
      * left. exists r, x. rewrite old_change in Hc by auto. done.
  - rewrite lookup_insert_ne by done. split.
    + intros [(r0 & x & Hr0 & Hb0 & Hx & Hc)|[? _]]; [|done]. exists r0, x. split_and!; [done|done| |].
      * apply old_line; [|done]. by apply (to_ref _ Hok n).
      * rewrite (an_changes _ _ _ _ _ Ha). by left.
    + intros (r0 & x & Hr0 & Hb0 & Hx & Hc). left. exists r0, x. apply old_line in Hx; [|by apply (to_ref _ Hok n)].
      split_and!; try done. rewrite old_change in Hc; [done|]. intros ->. apply ancestor_row in Hx as [o Ho]. by destruct (old_row _ _ Ho) as (_ & ? & _).
Qed.

Lemma new_id_case id : (exists g, g ∈ ai_files input /\ id = id_bytes (if_file_id g)) \/ id ∉ map (fun f => id_bytes (if_file_id f)) (ai_files input).
Proof.
  destruct (decide (id ∈ map (fun f => id_bytes (if_file_id f)) (ai_files input))) as [(g & -> & Hg)%list_elem_of_fmap|]; [left|by right]. by exists g.
Qed.

Lemma appended_ok : table_ok d'.
Proof.
  split.
  - rewrite (an_last _ _ _ _ _ Ha). lia.
  - apply snapshots_after.
  - intros id1 id2 s1 s2 R1 R2 Hs. destruct (new_or_old _ _ R1) as [[-> ->]|[_ O1]], (new_or_old _ _ R2) as [[-> ->]|[_ O2]]; [done|..].
    + apply old_row in O2 as (_ & _ & ?). lia.
    + apply old_row in O1 as (_ & _ & ?). lia.
    + by eapply (to_number _ Hok).
  - intros n r0. destruct (an_refs _ _ _ _ _ Ha) as (r' & -> & Htype & Htip). intros [[<- <-]|[_ Hr0]]%lookup_insert_Some.
    + split; [by left|]. rewrite Htip. intros p [= <-]. rewrite (an_snapshots _ _ _ _ _ Ha), lookup_insert_eq. by eexists.
    + destruct (to_ref _ Hok _ _ Hr0) as [Ht Hp]. split; [done|]. intros p [o Ho]%Hp. apply old_row in Ho as (? & _). by eexists.
  - intros x f kind. rewrite (an_changes _ _ _ _ _ Ha). intros [Hin|(g & Hg & [= -> -> ->])].
    + destruct (to_change _ Hok _ _ _ Hin) as (-> & srow & frow & Hs & Hf & Hc & Hq). split; [done|]. exists srow, frow.
      split_and!; try done; [by apply old_row in Hs as (? & _)|]. destruct (new_id_case f) as [(g & Hg & ->)|Hn].
      * pose proof (an_new_fresh _ _ _ _ _ Ha g Hg). congruence.
      * by rewrite (an_kept _ _ _ _ _ Ha).
    + split; [done|]. exists s, (new_row input g). rewrite (an_snapshots _ _ _ _ _ Ha), lookup_insert_eq. split_and!; try done.
      by apply (an_new _ _ _ _ _ Ha).
  - intros id f Hf. destruct (new_id_case id) as [(g & Hg & ->)|Hn].
    + destruct (an_new _ _ _ _ _ Ha g Hg) as [Hnew Hl]. rewrite Hnew in Hf. injection Hf as <-. eexists. exact Hl.
    + rewrite (an_kept _ _ _ _ _ Ha) in Hf by done. by eapply (to_file _ Hok).
  - apply live_after.
Qed.

(** ** The listings after an append *)

Lemma live_file_exists n id : is_Some (db_live d !! (n, id)) -> is_Some (db_files d !! id).
Proof. intros (r0 & x & _ & _ & _ & Hc)%(to_live _ Hok). destruct (to_change _ Hok _ _ _ Hc) as (_ & _ & f & _ & Hf & _). by eexists. Qed.
(** A file of the image before is listed as before. *)
Lemma old_file id : is_Some (db_files d !! id) -> file_of d' id = file_of d id.
Proof.
  intros [f Hf]. unfold file_of. destruct (new_id_case id) as [(g & Hg & ->)|Hn].
  - pose proof (an_new_fresh _ _ _ _ _ Ha g Hg). congruence.
  - by rewrite (an_kept _ _ _ _ _ Ha).
Qed.
Lemma old_listing ids : (forall id, id ∈ ids -> is_Some (db_files d !! id)) -> listing d' ids = listing d ids.
Proof.
  intros Hids. unfold listing. f_equal. induction ids as [|id ids IH]; [done|]. cbn [omap list_omap].
  rewrite old_file by (apply Hids; left). rewrite IH by (intros x Hx; apply Hids; by right). done.
Qed.
Lemma new_listing fs : (forall f, f ∈ fs -> f ∈ ai_files input) -> omap (file_of d') (map (fun f => id_bytes (if_file_id f)) fs) = map (new_listed input) fs.
Proof.
  intros Hfs. induction fs as [|f fs IH]; [done|]. cbn [map omap list_omap]. destruct (an_new _ _ _ _ _ Ha f (Hfs f ltac:(left))) as [Hrow Hl].
  unfold file_of at 1. rewrite Hrow. cbn [mbind option_bind new_row f_file_sequence]. change (ai_sequence_number input) with (f_file_sequence (new_row input f)) in Hl at 1.
  cbn [new_row f_file_sequence] in Hl. rewrite Hl. cbn [ok]. rewrite IH by (intros x Hx; apply Hfs; by right). done.
Qed.

Lemma live_file_number n id f : is_Some (db_live d !! (n, id)) -> db_files d !! id = Some f -> f_file_sequence f <= last_sequence d.
Proof.
  intros (r0 & x & _ & _ & _ & Hc)%(to_live _ Hok) Hf. destruct (to_change _ Hok _ _ _ Hc) as (_ & srow & f' & Hs & Hf' & _ & Hq).
  assert (f' = f) as -> by congruence. rewrite Hq. apply (sok_sequence _ _ _ (to_snapshot _ Hok _ _ Hs)).
Qed.

Lemma target_ids : live_ids d' (ai_target_ref input) ≡ₚ live_ids d (ai_target_ref input) ++ map (fun f => id_bytes (if_file_id f)) (ai_files input).
Proof.
  apply NoDup_Permutation; [apply live_ids_nodup|apply NoDup_app; split_and!; [apply live_ids_nodup| |]|].
  - intros id Hin%live_id%live_file_exists (g & -> & Hg)%list_elem_of_fmap. rewrite (an_new_fresh _ _ _ _ _ Ha g Hg) in Hin. by destruct Hin.
  - pose proof (an_nodup _ _ _ _ _ Ha) as Hnd. rewrite <- (map_map if_file_id id_bytes). by apply (NoDup_fmap_2 id_bytes).
  - intros id. rewrite live_id, elem_of_app, live_id, (an_live _ _ _ _ _ Ha), list_elem_of_fmap. naive_solver.
Qed.
(** The files of the target are those of before, and then the new ones. *)
Lemma target_listing : listing d' (live_ids d' (ai_target_ref input)) =
  listing d (live_ids d (ai_target_ref input)) ++ merge_sort live_le (map (new_listed input) (ai_files input)).
Proof.
  rewrite (listing_permutation d' _ _ target_ids). set (target := ai_target_ref input). set (fs := ai_files input).
  assert (omap (file_of d') (live_ids d target ++ map (fun f => id_bytes (if_file_id f)) fs) = omap (file_of d) (live_ids d target) ++ map (new_listed input) fs) as E.
  { rewrite omap_app, (new_listing fs) by done. f_equal. assert (forall id, id ∈ live_ids d target -> is_Some (db_files d !! id)) as Hfiles
      by (intros id Hin; apply (live_file_exists target), live_id, Hin).
    induction (live_ids d target) as [|id ids IH]; [done|]. cbn [omap list_omap].
    rewrite old_file by (apply Hfiles; left). rewrite IH by (intros x Hx; apply Hfiles; by right). done. }
  unfold listing. rewrite E. apply sort_older; [rewrite <- E; apply keyed_files|].
  intros a b (id & Hin & (_ & f & Hf & Hl)%file_of_key)%list_elem_of_omap (g & -> & _)%list_elem_of_fmap.
  apply live_file_key in Hl as [Hk _]. injection Hk as -> _. apply live_id in Hin. pose proof (live_file_number _ _ _ Hin Hf). cbn. lia.
Qed.
Lemma other_listing n : n <> ai_target_ref input -> listing d' (live_ids d' n) = listing d (live_ids d n).
Proof.
  intros Hn. rewrite (listing_permutation d' _ (live_ids d n)).
  - apply old_listing. intros id Hin. by eapply live_file_exists, live_id.
  - apply NoDup_Permutation; [apply live_ids_nodup..|]. intros id. rewrite !live_id, (an_live _ _ _ _ _ Ha). naive_solver.
Qed.

Lemma target_branch : exists old, branch_files d (ai_target_ref input) = Ok old /\
  branch_files d' (ai_target_ref input) = Ok (old ++ merge_sort live_le (map (new_listed input) (ai_files input))).
Proof.
  destruct (an_target _ _ _ _ _ Ha) as [Hr Hb]. destruct (an_refs _ _ _ _ _ Ha) as (r' & Hrefs & Ht & _).
  eexists. split; [by eapply branch_listing|]. rewrite <- target_listing. eapply (branch_listing d' appended_ok).
  - by rewrite Hrefs, lookup_insert_eq.
  - unfold is_branch. by rewrite Ht.
Qed.
Lemma other_branch n : n <> ai_target_ref input -> branch_files d' n = branch_files d n.
Proof.
  intros Hn. destruct (an_refs _ _ _ _ _ Ha) as (r' & Hrefs & _). assert (db_refs d' !! n = db_refs d !! n) as Er by (rewrite Hrefs; by apply lookup_insert_ne).
  destruct (db_refs d !! n) as [r0|] eqn:Hr; [|unfold branch_files; by rewrite Hr, Er].
  destruct (is_branch r0) eqn:Hb; [|unfold branch_files, is_branch in *; by rewrite Hr, Er, Hb].
  rewrite (branch_listing d Hok n r0 Hr Hb), (branch_listing d' appended_ok n r0 Er Hb). f_equal. by apply other_listing.
Qed.

(** The line of a snapshot of before, and its files *)
Lemma old_lineage last tip chain : lineage d last tip chain -> lineage d' last tip chain.
Proof.
  induction 1 as [last|last id sd rest Hsd Hlt _ IH]; [constructor|]. econstructor; [|done|done]. rewrite <- Hsd. apply descriptor_frame.
  apply descriptor_some in Hsd as [o Ho]. rewrite Ho. by apply old_row in Ho as (? & _).
Qed.
Lemma old_snapshot_files tip chain : lineage d (2 ^ 64 - 1) tip chain -> snapshot_files d' tip = snapshot_files d tip.
Proof.
  intros Hl. rewrite (snapshot_listing d Hok _ _ Hl), (snapshot_listing d' appended_ok _ _ (old_lineage _ _ _ Hl)). f_equal.
  pose proof (lineage_rows _ _ _ _ Hl) as Hrows. rewrite <- old_listing.
  - apply listing_permutation, NoDup_Permutation.
    + apply (line_ids_nodup _ appended_ok), (lineage_nodup d _ _ _ Hl).
    + apply (line_ids_nodup _ Hok), (lineage_nodup d _ _ _ Hl).
    + intros id. rewrite !line_id. assert (forall x, x ∈ id_bytes <$> chain -> x <> new_id) as Hne.
      { intros x (i & -> & [o Ho]%Hrows)%list_elem_of_fmap. by destruct (old_row _ _ Ho) as (_ & ? & _). }
      split; intros (x & Hx & Hc); exists x; (split; [done|]); by apply (old_change x id (Hne _ Hx)).
  - intros id (x & _ & Hc)%line_id. destruct (to_change _ Hok _ _ _ Hc) as (_ & _ & f & _ & Hf & _). by eexists.
Qed.
End after.
End append.
