(* ===== verification/TransactState.v ===== *)
(** What a metadata transaction does to the refs: the operations keep the invariant of
    the tables, and change no branch that they do not name. *)
From S2P Require Import Prelude Bytes Errors Values Scalars CanonicalJson Hashes Schema PageTree ByteArray Objects.
From S2P Require Import Database History SchemaRows Transactions DatabaseFacts HistoryFacts TransactionFacts FileOrder TableState.

(** [d'] is [d] but for refs, live files and the other tables. *)
Record same_files (d d' : Db) : Prop := {
  sf_snapshots : db_snapshots d' = db_snapshots d; sf_files : db_files d' = db_files d; sf_changes : db_changes d' = db_changes d;
  sf_sequence : last_sequence d' = last_sequence d;
  sf_meta : is_Some (db_meta d) -> is_Some (db_meta d') }.
#[export] Instance same_files_preorder : PreOrder same_files.
Proof. split; [by intros d; split|]. intros d e f [] []. split; [congruence..|auto]. Qed.
Lemma same_core_files d d' : same_core d d' -> same_files d d'.
Proof.
  intros Hs. pose proof (sc_sequence _ _ Hs) as E. pose proof (same_core_last _ _ Hs). destruct Hs. split; try done.
  intros [m Hm]. rewrite Hm in E. destruct (db_meta d'); [by eexists|done].
Qed.

Section state.
Context `{HexCrate, SqlEngine, SerdeJson}.

Lemma same_files_descriptor d d' i : same_files d d' -> descriptor d' i = descriptor d i.
Proof. intros Hs. apply descriptor_frame. by rewrite (sf_snapshots _ _ Hs). Qed.

Lemma same_files_walk d d' tip : same_files d d' -> writer_ancestry d' tip = writer_ancestry d tip.
Proof. intros [E _ _ _ _]. unfold writer_ancestry, ancestry_fuel. assert (writer_step d' = writer_step d) as -> by (unfold writer_step; by rewrite E). by rewrite E. Qed.
Lemma same_files_snapshot d d' tip : same_files d d' -> snapshot_files d' tip = snapshot_files d tip.
Proof.
  intros Hs. pose proof Hs as [E1 E2 E3 _ _]. unfold snapshot_files, ancestry, ancestry_fuel.
  assert (ancestry_step d' = ancestry_step d) as -> by (unfold ancestry_step, descriptor; by rewrite E1).
  assert (snapshot_rows d' = snapshot_rows d) as -> by (unfold snapshot_rows, added_files; by rewrite E1, E2, E3).
  by rewrite E1.
Qed.

(** The refs of an image that keep the invariant of the files *)
Lemma refs_ok d d' : table_ok d -> same_files d d' ->
  (forall n r, db_refs d' !! n = Some r -> db_refs d !! n = Some r \/
    (r_type r = "branch" \/ r_type r = "tag") /\ forall p, r_snapshot r = Some p -> is_Some (db_snapshots d !! p)) ->
  (forall n f, is_Some (db_live d' !! (n, f)) <-> exists r s, db_refs d' !! n = Some r /\ is_branch r = true /\
    ancestor (db_snapshots d) (r_snapshot r) s /\ (s, f, "add") ∈ db_changes d) -> table_ok d'.
Proof.
  intros Hok Hs Hrefs Hlive. pose proof Hs as [E1 E2 E3 Hlast _].
  split; rewrite ?E1, ?E2, ?E3, ?Hlast.
  - apply Hok.
  - intros id o Ho. destruct (to_snapshot _ Hok _ _ Ho) as [(i & sd & Hi & Hv & Hsd) Hq Hp]. split.
    + exists i, sd. by rewrite (same_files_descriptor _ _ _ Hs).
    + by rewrite Hlast.
    + by rewrite E1.
  - apply Hok.
  - intros n r [Hr|Hr]%Hrefs; [by apply (to_ref _ Hok n)|done].
  - apply Hok.
  - apply Hok.
  - apply Hlive.
Qed.
Lemma same_core_ok d d' : table_ok d -> same_core d d' -> table_ok d'.
Proof.
  intros Hok Hs. pose proof Hs as [E1 E2 E3 E4 E5 _]. apply (refs_ok d); [done|by apply same_core_files|..].
  - rewrite E2. by left.
  - rewrite E2, E5. apply Hok.
Qed.

(** A branch whose ref is unchanged has its files unchanged. *)
Lemma kept_branch d d' n : table_ok d -> table_ok d' -> same_files d d' -> db_refs d' !! n = db_refs d !! n -> branch_files d' n = branch_files d n.
Proof.
  intros Hok Hok' [E1 E2 E3 _ _] Er. destruct (db_refs d !! n) as [r|] eqn:Hr; [|unfold branch_files; by rewrite Hr, Er].
  destruct (is_branch r) eqn:Hb; [|unfold branch_files, is_branch in *; by rewrite Hr, Er, Hb].
  rewrite (branch_listing _ Hok _ _ Hr Hb), (branch_listing _ Hok' _ _ Er Hb). f_equal. unfold listing, file_of. rewrite E2. apply (sort_permutation _ _ (keyed_files d (live_ids d n))).
  apply omap_Permutation, NoDup_Permutation; [apply live_ids_nodup..|]. intros id. by rewrite !live_id, (to_live _ Hok), (to_live _ Hok'), E1, E3, Er, Hr.
Qed.

(** ** The files of a branch, written again *)

Record lives_added (name : string) (ids : list bytes) (d d' : Db) : Prop := {
  la_same : same_files d d';
  la_refs : db_refs d' = db_refs d;
  la_live : forall n f, is_Some (db_live d' !! (n, f)) <-> is_Some (db_live d !! (n, f)) \/ n = name /\ f ∈ ids }.
Lemma lives_added_app name l1 l2 d e d' : lives_added name l1 d e -> lives_added name l2 e d' -> lives_added name (l1 ++ l2) d d'.
Proof.
  intros [A1 A2 A3] [B1 B2 B3]. split; [by etrans|congruence|]. intros n f. rewrite B3, A3, elem_of_app. naive_solver.
Qed.
Lemma lives_added_nil name d : lives_added name [] d d.
Proof. split; [done|done|]. intros n f. split; [by left|]. intros [?|[_ ?%not_elem_of_nil]]; done. Qed.
Lemma insert_live_added name f l d d' : insert_live name f l d = Ok d' -> lives_added name [f] d d'.
Proof.
  unfold insert_live. intros (_ & _ & ->)%insert_row. split; [by split|done|]. intros n x. cbn. rewrite list_elem_of_singleton.
  destruct (decide ((name, f) = (n, x))) as [[= <- <-]|Hne].
  - rewrite lookup_insert_eq. split; [by right|]. by eexists.
  - rewrite lookup_insert_ne by done. split; [by left|]. intros [?|[-> ->]]; done.
Qed.
Lemma fold_live_added {A} name (f : Db -> A -> rresult Db) (ids : A -> list bytes) d0 l :
  (forall a d d', a ∈ l -> same_files d0 d -> f d a = Ok d' -> lives_added name (ids a) d d') ->
  forall d d', same_files d0 d -> try_fold f d l = Ok d' -> lives_added name (l ≫= ids) d d'.
Proof.
  intros Hf. induction l as [|a l IH]; intros d d' Hd; cbn [try_fold]; [intros [= <-]; apply lives_added_nil|].
  intros (e & E1 & E2)%bind_ok. cbn [mbind list_bind]. apply Hf in E1; [|left|done]. eapply lives_added_app; [exact E1|].
  apply IH; [|etrans; [exact Hd|apply E1]|done]. intros b x y Hb. apply Hf. by right.
Qed.
Lemma bind_single {A} (l : list A) : l ≫= (fun a => [a]) = l.
Proof. induction l as [|a l IH]; [done|]. cbn [mbind list_bind app]. by f_equal. Qed.

Lemma insert_live_of_added name d i d' : is_Some (db_snapshots d !! id_bytes i) -> insert_live_of name d i = Ok d' ->
  lives_added name (added_files d (id_bytes i)) d d'.
Proof.
  intros [s Hs]. unfold insert_live_of. rewrite Hs. intros E. rewrite <- (bind_single (added_files d (id_bytes i))).
  eapply (fold_live_added name _ (fun a => [a]) d); [|done|exact E]. intros a x y _ _. apply insert_live_added.
Qed.
(** The branch gets the files of the line of its tip, and only those. *)
Lemma branch_materialized name tip d0 d d' chain : table_ok d0 -> same_files d0 d -> lineage d0 (2 ^ 64 - 1) tip chain ->
  materialize_branch name tip d = Ok d' -> same_files d0 d' /\ db_refs d' = db_refs d /\
  forall n f, is_Some (db_live d' !! (n, f)) <-> n <> name /\ is_Some (db_live d !! (n, f)) \/ n = name /\ f ∈ line_ids d0 chain.
Proof.
  intros Hok Hs Hl. unfold materialize_branch, delete_live. cbn [mbind result_bind].
  set (e := set_live (filter (fun kv => kv.1.1 <> name) (db_live d)) d). assert (same_files d0 e) as Hse by (etrans; [exact Hs|by split]).
  intros (c & Hc & E)%bind_ok. rewrite (same_files_walk _ _ _ Hse), (writer_line _ Hok _ _ Hl) in Hc. injection Hc as <-.
  pose proof (lineage_rows _ _ _ _ Hl) as Hrows. assert (lives_added name (line_ids d0 chain) e d') as [A1 A2 A3].
  { eapply (fold_live_added name (insert_live_of name) (fun i => added_files d0 (id_bytes i)) d0); [|exact Hse|exact E].
    intros i x y Hi Hx Hy. apply insert_live_of_added in Hy; [|by rewrite (sf_snapshots _ _ Hx); apply Hrows].
    unfold added_files in *. by rewrite (sf_changes _ _ Hx) in Hy. }
  split; [by etrans|]. split; [done|]. intros n f. rewrite A3. unfold e. cbn. rewrite map_lookup_filter.
  destruct (db_live d !! (n, f)) as [l|]; cbn; [|by split; [intros [[? ?]|?]; [done|by right]|intros [[_ [? ?]]|?]; [done|by right]]].
  case_guard; cbn; split; try naive_solver.
Qed.

(** ** Operations *)

(** What preparation guarantees of an operation on the image it is applied to. *)
Definition op_fits (d : Db) (o : OperationRequest) : Prop :=
  match o with
  | CreateRef _ _ _ tip => forall i, tip = Some i -> is_Some (db_snapshots d !! id_bytes i)
  | ReplaceRef _ name i => is_Some (db_snapshots d !! id_bytes i) /\ exists r, db_refs d !! name = Some r /\ is_branch r = true
  | _ => True
  end.

(** What an operation makes of the ref it names. *)
Definition op_ref (d : Db) (o : OperationRequest) : Prop :=
  match o with
  | CreateRef _ n t tip => exists r, db_refs d !! n = Some r /\ r_type r = ref_type_str t /\ r_snapshot r = id_bytes <$> tip
  | ReplaceRef _ n tip => exists r, db_refs d !! n = Some r /\ is_branch r = true /\ r_snapshot r = Some (id_bytes tip)
  | DropRef _ n => db_refs d !! n = None
  | _ => True
  end.
(** What an operation keeps, and its ref. *)
Record op_effect (d d' : Db) (o : OperationRequest) : Prop := {
  oe_ok : table_ok d';
  oe_same : same_files d d';
  oe_refs : forall n, touched_ref o <> Some n -> db_refs d' !! n = db_refs d !! n;
  oe_ref : op_ref d' o }.

Lemma core_effect d d' o : table_ok d -> same_core d d' -> touched_ref o = None -> op_effect d d' o.
Proof.
  intros Hok Hs Ho. split; [by eapply same_core_ok|by apply same_core_files| |by destruct o].
  intros n _. by rewrite (sc_refs _ _ Hs).
Qed.

(** The ref [name] set to a branch at [tip], with its files *)
Lemma branch_set_ok name tip r' d d1 d' : table_ok d -> same_files d d1 -> db_refs d1 = <[name := r']> (db_refs d) -> db_live d1 = db_live d ->
  is_branch r' = true -> r_snapshot r' = id_bytes <$> tip -> (forall i, tip = Some i -> is_Some (db_snapshots d !! id_bytes i)) ->
  materialize_branch name tip d1 = Ok d' -> table_ok d' /\ same_files d d' /\ db_refs d' = <[name := r']> (db_refs d).
Proof.
  intros Hok Hs Hrefs Hlive Hb Htip Hex E. destruct (lineage_tip _ Hok tip Hex) as [chain Hl].
  destruct (branch_materialized _ _ _ _ _ _ Hok Hs Hl E) as (Hs' & Hr' & Hl'). rewrite Hrefs in Hr'. split; [|by split].
  apply (refs_ok d); [done|done|rewrite Hr'..].
  - intros n r [[<- <-]|[_ Hr]]%lookup_insert_Some; [right|by left]. split; [left; unfold is_branch in Hb; by bool_to_prop|].
    rewrite Htip. intros p Hp. destruct tip as [i|]; [|done]. injection Hp as <-. by apply Hex.
  - intros n f. rewrite Hl', Hlive, line_id, (to_live _ Hok). setoid_rewrite (lineage_ancestor _ _ _ _ Hl). split.
    + intros [(Hn & r & s & Hr & Hrest)|(-> & s & Ha & Hc)].
      * exists r, s. rewrite lookup_insert_ne by done. done.
      * exists r', s. rewrite lookup_insert_eq, Htip. done.
    + intros (r & s & [[<- <-]|[Hn Hr]]%lookup_insert_Some & Hbr & Ha & Hc); [right|left].
      * split; [done|]. exists s. by rewrite <- Htip.
      * split; [done|]. by exists r, s.
Qed.
End state.

Section operations.
Context `{HexCrate, Sha2Crate, SqlEngine, SerdeJson} `{FromJson (list cvalue)}
  `{ToJson LogicalType, FromJson LogicalType, ToJson scalar, FromJson scalar} `{ToJson cvalue}.

Lemma update_meta_core (f : MetaRow -> MetaRow) d d' : (forall m, m_last_sequence_number (f m) = m_last_sequence_number m) ->
  update_meta f d = Ok d' -> same_core d d'.
Proof.
  intros Hf [[_ ->]|(m & Hm & _ & ->)]%update_meta_ok; [done|]. split; try done. cbn. rewrite Hm. cbn. by rewrite Hf.
Qed.

Lemma set_properties_core version updates removals d d' :
  apply_operation version d (SetProperties "" updates removals) = Ok d' -> same_core d d'.
Proof.
  cbn. intros (e & E1 & E2)%bind_ok. etrans.
  - eapply (try_fold_same_core _); [|exact E1]. intros x kv y. cbn. intros (v & _ & E)%bind_ok. by apply upsert_property_core in E.
  - eapply (try_fold_same_core _); [|exact E2]. intros x key y. apply delete_property_core.
Qed.
Lemma drop_ref_effect version i name d d' : table_ok d -> apply_operation version d (DropRef i name) = Ok d' -> op_effect d d' (DropRef i name).
Proof.
  intros Hok. cbn. unfold delete_ref. intros [_ [= <-]]%bind_unit. split; cbn.
  - apply (refs_ok d); [done|by split|cbn..].
    + intros n r [_ Hr]%lookup_delete_Some. by left.
    + intros n f. rewrite map_lookup_filter. destruct (decide (n = name)) as [->|Hn].
      * split.
        -- destruct (db_live d !! (name, f)); cbn; [case_guard; cbn in *; [done|]|]; by intros [? ?].
        -- intros (r & s & Hr & _). by rewrite lookup_delete_eq in Hr.
      * rewrite lookup_delete_ne by done. rewrite <- (to_live _ Hok). destruct (db_live d !! (n, f)) as [l|]; cbn; [|done].
        rewrite option_guard_True by done. done.
  - by split.
  - intros n Hn. rewrite lookup_delete_ne; congruence.
  - apply lookup_delete_eq.
Qed.
Lemma create_ref_effect version i name t tip d d' : table_ok d -> op_fits d (CreateRef i name t tip) ->
  apply_operation version d (CreateRef i name t tip) = Ok d' -> op_effect d d' (CreateRef i name t tip).
Proof.
  intros Hok Hfit. cbn [op_fits] in Hfit. unfold apply_operation, insert_ref.
  set (r := {| r_type := ref_type_str t; r_snapshot := id_bytes <$> tip; r_created_version := version; r_updated_version := version |}).
  intros (e & (Hc & Hnew & ->)%insert_row & E)%bind_ok.
  assert (table_ok d' /\ same_files d d' /\ db_refs d' = <[name := r]> (db_refs d)) as (Hok' & Hs & Hrefs).
  { case_bool_decide as Ht.
    - subst t. by eapply (branch_set_ok name tip r d (set_refs (<[name := r]> (db_refs d)) d)).
    - injection E as <-. split_and!; [|by split|done]. apply (refs_ok d); [done|by split|cbn..].
      + intros n x [[<- <-]|[_ Hx]]%lookup_insert_Some; [right|by left]. split; [by destruct t; [|right]|].
        intros q Hq. cbn in Hq. destruct tip as [j|]; [|done]. injection Hq as <-. by apply Hfit.
      + intros n f. rewrite (to_live _ Hok). split.
        * intros (x & s & Hx & Hrest). exists x, s. rewrite lookup_insert_ne by congruence. done.
        * intros (x & s & [[<- <-]|[_ Hx]]%lookup_insert_Some & Hb & Hrest); [|by exists x, s]. exfalso.
          unfold is_branch in Hb. destruct t; [done|]. done. }
  split; [done|done| |].
  - intros n Hn. rewrite Hrefs, lookup_insert_ne; [done|]. intros ->. by apply Hn.
  - exists r. rewrite Hrefs, lookup_insert_eq. done.
Qed.
Lemma replace_ref_effect version i name tip d d' : table_ok d -> op_fits d (ReplaceRef i name tip) ->
  apply_operation version d (ReplaceRef i name tip) = Ok d' -> op_effect d d' (ReplaceRef i name tip).
Proof.
  intros Hok (Htip & r & Hr & Hb). unfold apply_operation, update_ref. rewrite Hr.
  set (r' := {| r_type := r_type r; r_snapshot := Some (id_bytes tip); r_created_version := r_created_version r; r_updated_version := version |}).
  intros ([n e] & E1 & E)%bind_ok. apply bind_unit in E1 as [_ [= <- <-]].
  assert (is_branch r' = true) as Hb' by done.
  edestruct (branch_set_ok name (Some tip) r' d (set_refs (<[name := r']> (db_refs d)) d) d') as (Hok' & Hs & Hrefs); try done; [by intros ? [= <-]|].
  split; [done|done| |].
  - intros m Hm. rewrite Hrefs, lookup_insert_ne; [done|]. intros ->. by apply Hm.
  - exists r'. rewrite Hrefs, lookup_insert_eq. done.
Qed.

Lemma apply_operation_effect version d o d' : table_ok d -> op_fits d o -> apply_operation version d o = Ok d' -> op_effect d d' o.
Proof.
  intros Hok Hfit E. destruct o as [i updates removals|i name t tip|i name tip|i name|i schema|i schema].
  - apply core_effect; [done| |done]. by eapply set_properties_core.
  - by eapply create_ref_effect.
  - by eapply replace_ref_effect.
  - by eapply drop_ref_effect.
  - apply core_effect; [done| |done]. by eapply insert_schema_core.
  - apply core_effect; [done| |done]. cbn in E. apply bind_ok in E as (x & _ & E). by eapply update_meta_core; [|exact E].
Qed.

(** ** The operations of a request *)

Context (requirement_debug : Requirement -> string).

Lemma prepared_fits d request p o p' : evaluate requirement_debug d (tr_requirements request) = Ok tt ->
  prepare_operation d request p o = Ok p' -> op_fits d o.
Proof.
  intros Hev. assert (forall i, required request (SnapshotExists i) = Ok tt -> is_Some (db_snapshots d !! id_bytes i)) as Hexists.
  { intros i Hr%required_elem. rewrite evaluate_ok in Hev. specialize (Hev _ Hr). cbn in Hev. injection Hev as Hev. by apply has_true. }
  unfold prepare_operation. intros E. open_steps. destruct o as [i updates removals|i name t tip|i name tip|i name|i schema|i schema]; cbn [op_fits]; try done; open_steps.
  - intros j ->. destruct x. by apply Hexists.
  - split; [by apply Hexists|]. apply required_elem in Hr. rewrite evaluate_ok in Hev. specialize (Hev _ Hr).
    apply exists_holds in Hev as (k & Hk). apply ref_row_id in Hk as (r & Hk & _ & Hb & _). exists r. split; [done|]. by apply Hb.
Qed.
Lemma prepare_each d request ops : forall p p', try_fold (prepare_operation d request) p ops = Ok p' ->
  forall o, o ∈ ops -> exists q q', prepare_operation d request q o = Ok q'.
Proof.
  induction ops as [|o ops IH]; intros p p'; cbn [try_fold]; [by intros _ o ?%not_elem_of_nil|].
  intros (q & Hq & E)%bind_ok x [->|Hx]%elem_of_cons; [by exists p, q|]. by eapply IH.
Qed.
Lemma prepared_ok d request results : prepare_operations requirement_debug d request = Ok results ->
  (forall o, o ∈ tr_operations request -> op_fits d o) /\ NoDup (omap touched_ref (tr_operations request)).
Proof.
  unfold prepare_operations. intros [_ E]%bind_reject. apply bind_unit in E as [Hev E]. apply bind_ok in E as (p & E & _). split.
  - intros o Ho. destruct (prepare_each _ _ _ _ _ E o Ho) as (q & q' & Hq). by eapply prepared_fits.
  - destruct (operations_distinct _ _ _ _ _ E) as [[Hn Hp] _]; [constructor..|]. cbn in Hp. rewrite app_nil_r in Hp. by rewrite <- Hp.
Qed.

Lemma op_fits_kept d d' o : same_files d d' -> (forall n, touched_ref o = Some n -> db_refs d' !! n = db_refs d !! n) -> op_fits d o -> op_fits d' o.
Proof.
  intros Hs Hr. destruct o as [i updates removals|i name t tip|i name tip|i name|i schema|i schema]; cbn [op_fits] in *; try done; rewrite (sf_snapshots _ _ Hs); [done|].
  by rewrite (Hr name eq_refl).
Qed.
Lemma op_ref_kept d d' o : (forall n, touched_ref o = Some n -> db_refs d' !! n = db_refs d !! n) -> op_ref d o -> op_ref d' o.
Proof. intros Hr. destruct o; cbn [op_ref]; try done; by rewrite (Hr name eq_refl). Qed.
Lemma op_ref_core d d' o : db_refs d' = db_refs d -> op_ref d o -> op_ref d' o.
Proof. intros E. apply op_ref_kept. by rewrite E. Qed.

(** The operations of a request, one after the other *)
Lemma apply_operations_effect version ops : forall d d', table_ok d -> (forall o, o ∈ ops -> op_fits d o) -> NoDup (omap touched_ref ops) ->
  try_fold (apply_operation version) d ops = Ok d' ->
  table_ok d' /\ same_files d d' /\ (forall n, n ∉ omap touched_ref ops -> db_refs d' !! n = db_refs d !! n) /\ forall o, o ∈ ops -> op_ref d' o.
Proof.
  induction ops as [|o ops IH]; intros d d' Hok Hfit Hnd; cbn [try_fold].
  - intros [= <-]. split_and!; try done. by intros o ?%not_elem_of_nil.
  - intros (e & E1 & E2)%bind_ok. apply apply_operation_effect in E1 as [Hoke Hs Hrefs Href]; [|done|apply Hfit; left].
    assert (forall n, touched_ref o = Some n -> n ∉ omap touched_ref ops) as Hfresh.
    { intros n Hn. cbn [omap list_omap] in Hnd. rewrite Hn in Hnd. by apply NoDup_cons in Hnd as [? _]. }
    destruct (IH e d') as (Hok' & Hs' & Hrefs' & Hall); [done| | |done|].
    + intros x Hx. apply (op_fits_kept d); [done| |apply Hfit; by right]. intros n Hn. apply Hrefs. intros Ho.
      apply (Hfresh n Ho), list_elem_of_omap. by exists x.
    + cbn [omap list_omap] in Hnd. destruct (touched_ref o); [by apply NoDup_cons in Hnd as [_ ?]|done].
    + split_and!; [done|by etrans| |].
      * intros n Hn. cbn [omap list_omap] in Hn. rewrite Hrefs'; [apply Hrefs|].
        -- intros Ho. rewrite Ho in Hn. apply Hn. left.
        -- intros Hin. apply Hn. destruct (touched_ref o); [by right|done].
      * intros x [->|Hx]%elem_of_cons; [|by apply Hall]. apply (op_ref_kept e); [|done]. intros n Hn. by apply Hrefs', Hfresh.
Qed.

Context `{ToJson SemanticCommit, ToJson (list cvalue), ToJson Requirement, ToJson OperationRequest, ToJson DurableResult}.

Lemma mutate_metadata_ok commit uri ops d d' : mutate_metadata commit uri ops d = Ok d' ->
  exists version e, try_fold (apply_operation version) d ops = Ok e /\ same_core e d'.
Proof.
  unfold mutate_metadata, apply_operations. intros (e & He & E)%bind_ok. apply bind_ok in He as (version & _ & He).
  exists version, e. split; [done|]. clear He. apply bind_ok in E as (b & _ & E). do 5 (apply bind_ok in E as (? & _ & E)).
  apply bind_ok in E as (d1 & E1%insert_commit_core & E). apply bind_ok in E as (d2 & E2%insert_idempotency_core & E).
  etrans; [exact E1|]. etrans; [exact E2|]. by eapply update_meta_core; [|exact E].
Qed.

Lemma transact_effect request hash head commit_id now d result d' : table_ok d -> transact requirement_debug request hash head commit_id now d = Ok (result, d') ->
  table_ok d' /\ same_files d d' /\ (forall n, n ∉ omap touched_ref (tr_operations request) -> db_refs d' !! n = db_refs d !! n) /\
  forall o, o ∈ tr_operations request -> op_ref d' o.
Proof.
  intros Hok. unfold transact. intros (results & Hp & E)%bind_ok. apply bind_ok in E as ([[commit [uri body]] durable] & _ & E).
  apply bind_ok in E as (d1 & (version & e & He & Hcore)%mutate_metadata_ok & E). unfold Database.commit in E.
  apply bind_ok in E as (d2 & Hc & [= _ <-]). apply bind_unit in Hc as [_ [= <-]]. apply prepared_ok in Hp as [Hfit Hnd].
  destruct (apply_operations_effect _ _ _ _ Hok Hfit Hnd He) as (Hoke & Hs & Hrefs & Hall). split_and!.
  - by eapply same_core_ok.
  - etrans; [exact Hs|by apply same_core_files].
  - intros n Hn. rewrite (sc_refs _ _ Hcore). by apply Hrefs.
  - intros o Ho. apply (op_ref_core e); [apply (sc_refs _ _ Hcore)|by apply Hall].
Qed.
End operations.
