(* ===== verification/TableHistory.v ===== *)
(** The history of a table: the images that genesis, appends and metadata
    transactions reach, the invariant they keep, and what each of them does to the
    files of the branches. *)
From S2P Require Import Prelude Bytes Errors Values Scalars CanonicalJson Hashes Schema PageTree Objects Storage Publication.
From S2P Require Import ByteArray Database History SchemaRows Transactions Append DatabaseFacts HistoryFacts TransactionFacts FileOrder TableState AppendFacts TransactState.

(** [serde_json] reads the canonical text of a value that it wrote. *)
Class CanonicalReads `{SerdeJson, ToJson cvalue} : Prop :=
  canonical_reads : forall (v : cvalue) s, canonical_string v = Ok s -> exists w, parse_canonical (as_bytes s) = Ok w.

Section append.
Context `{HexCrate, Sha2Crate, SqlEngine, SerdeJson} `{FromJson (list cvalue)}
  `{ToJson LogicalType, FromJson LogicalType, ToJson scalar, FromJson scalar}
  `{ToJson SemanticCommit, ToJson cvalue, ToJson (list cvalue), ToJson LogicalFile, ToJson LogicalIntent,
    ToJson (list (Z * scalar)), ToJson (list LogicalMetric), ToJson AppendResult}.

(** The file that a request and its staged object commit. *)
Definition committed_file (sequence : Z) (p : AppendFile * VerifiedStagedFile) : LiveFile :=
  {| lf_file_id := vs_file_id p.2; lf_uri := vs_uri p.2; lf_file_format := file_format_str (af_format p.1);
     lf_file_size_bytes := vs_length p.2; lf_record_count := af_record_count p.1; lf_content_sha256 := Some (vs_sha256 p.2);
     lf_sequence_number := sequence |}.

(** A staged file as staging makes it: a generated identifier and a parsed URI *)
Definition staged_ok (v : VerifiedStagedFile) : Prop := id_valid (vs_file_id v) /\ relative_uri_from_str (uri_str (vs_uri v)) = Ok (vs_uri v).

Lemma image_file_of p f : image_file p = Ok f -> staged_ok p.2 ->
  image_file_ok f /\ forall input, new_listed input f = committed_file (ai_sequence_number input) p.
Proof.
  destruct p as [logical staged]. cbn. intros (metrics & _ & E)%bind_ok [Hid Huri]. apply bind_ok in E as (metadata & _ & [= <-]).
  unfold image_file_ok, new_listed, committed_file. cbn. destruct (vs_uri staged) as [u]. cbn in *. done.
Qed.

Lemma image_files_of ps fs : collect image_file ps = Ok fs -> Forall (fun p => staged_ok p.2) ps ->
  Forall image_file_ok fs /\ forall input, map (new_listed input) fs = map (committed_file (ai_sequence_number input)) ps.
Proof.
  intros E%collect_ok. induction E as [|p f ps fs Hf _ IH]; intros Hok; [by split|]. inversion Hok as [|? ? Hp Hps]; subst.
  destruct (image_file_of _ _ Hf Hp) as [Hi Hl], (IH Hps) as [His Hls]. split; [by constructor|]. intros input. cbn. by rewrite Hl, Hls.
Qed.

(** What the images of an append say. *)
Lemma build_append_ok request staged hash head d commit_id snapshot_id now commit object input result :
  build_append request staged hash head d commit_id snapshot_id now = Ok (commit, object, input, result) ->
  exists m kind parent files metadata,
    db_meta d = Some m /\ is_uint 32 (m_current_schema_id m) /\ ref_row d (ar_target_ref request) = Ok (Some (kind, parent)) /\
    canonical_string (CanonicalValue.Object (ar_snapshot_metadata request)) = Ok metadata /\
    collect image_file (zip (ar_files request) staged) = Ok files /\
    ai_target_ref input = ar_target_ref request /\ ai_snapshot_id input = snapshot_id /\ ai_parent_snapshot_id input = parent /\
    ai_sequence_number input = last_sequence d + 1 /\ ai_files input = files /\ ai_snapshot_metadata_json input = metadata.
Proof.
  unfold build_append. intros (version & _ & E)%bind_ok. apply bind_ok in E as ([[schema main] last] & E1 & E).
  apply bind_ok in E as (r & Hr & E). apply bind_ok in E as ([kind parent] & ->%ok_or_ok & E). apply bind_ok in E as (n & Hn%ok_or_ok & E).
  do 10 (apply bind_ok in E as (? & ? & E)). apply bind_ok in E as (metadata & Hmeta & E). apply bind_ok in E as (files & Hfiles & [= <- <- <- <-]).
  unfold current_schema_and_snapshot in E1. apply bind_ok in E1 as ([m main_ref] & Hm%row_ok & E1).
  apply bind_Some in Hm as (m' & Hm & (rr & _ & [= <- <-])%bind_Some).
  apply bind_ok in E1 as (s & [-> Hs]%ok_or_ok%try_uint_some & E1). apply bind_ok in E1 as (t & _ & E1).
  apply bind_ok in E1 as (q & [-> _]%ok_or_ok%try_uint_some & [= <- <- <-]).
  exists m', kind, parent, files, metadata. split_and!; try done. cbn. unfold last_sequence. rewrite Hm. cbn.
  by apply try_uint_some in Hn as [-> _].
Qed.

Context `{!CanonicalReads}.

(** The new snapshot can be read back. *)
Lemma new_snapshot_read input schema summary metadata d i : id_valid (ai_snapshot_id input) ->
  db_snapshots d !! id_bytes (ai_snapshot_id input) = Some (new_snapshot input schema summary) -> i = ai_snapshot_id input ->
  is_uint 32 schema -> 0 < ai_sequence_number input < 2 ^ 63 -> 0 < ai_table_version input < 2 ^ 63 ->
  (forall p, ai_parent_snapshot_id input = Some p -> id_valid p) ->
  canonical_string (CanonicalValue.Object (ai_summary input)) = Ok summary ->
  canonical_string (CanonicalValue.Object metadata) = Ok (ai_snapshot_metadata_json input) -> exists sd, descriptor d i = Ok sd.
Proof.
  intros Hid Hs -> Hu Hq Hv Hp Hsum Hmeta. unfold descriptor. rewrite Hs. unfold new_snapshot. cbn [ok_or mbind result_bind].
  cbn [s_schema_id s_partition_spec_id s_sort_order_id s_parent s_sequence s_version s_summary s_metadata].
  assert (get_u32 schema = Ok schema) as -> by (unfold get_u32; by rewrite try_uint_id). change (get_u32 0) with (Ok (E := rerror) 0). cbn [mbind result_bind].
  assert (transpose id_from_blob (id_bytes <$> ai_parent_snapshot_id input) = Ok (ai_parent_snapshot_id input)) as ->.
  { destruct (ai_parent_snapshot_id input) as [p|]; [|done]. cbn. rewrite (proj2 (id_from_blob_ok _ p)) by auto. done. }
  cbn [mbind result_bind]. rewrite !nonnegative_id by lia. cbn [mbind result_bind].
  destruct (canonical_reads _ _ Hsum) as [v1 ->], (canonical_reads _ _ Hmeta) as [v2 ->]. by eexists.
Qed.

Lemma append_effect request staged base_head base head commit_id snapshot_id now d result d' : table_ok d -> id_valid snapshot_id -> Forall staged_ok staged ->
  append request staged base_head base head commit_id snapshot_id now d = Ok (result, d') ->
  exists input s r, appended input s r d d' /\ s_parent s = r_snapshot r /\ s_sequence s = ai_sequence_number input /\
    ai_sequence_number input = last_sequence d + 1 /\ ai_sequence_number input < 2 ^ 63 /\ 0 < ai_sequence_number input /\
    (exists sd, descriptor d' (ai_snapshot_id input) = Ok sd) /\ ai_target_ref input = ar_target_ref request /\ ai_snapshot_id input = snapshot_id /\
    map (new_listed input) (ai_files input) = map (committed_file (last_sequence d + 1)) (zip (ar_files request) staged).
Proof.
  intros Hok Hid Hstaged. unfold append. intros (logical & _ & E)%bind_ok. apply bind_unit in E as [_ E]. apply bind_ok in E as (tip & _ & E).
  apply bind_reject in E as [_ E]. apply bind_unit in E as [_ E]. apply bind_unit in E as [_ E].
  apply bind_ok in E as ([[[commit object] input] res] & Hbuild & E). apply bind_ok in E as (d1 & Hmutate & E).
  unfold Database.commit in E. apply bind_ok in E as (d2 & Hcommit & [= -> <-]). apply bind_unit in Hcommit as [_ [= <-]].
  apply build_append_ok in Hbuild as (m & kind & parent & files & metadata & Hm & Hu & Hr & Hmeta & Hfiles & Ht & Hi & Hpar & Hseq & Hf & Hmj).
  destruct (image_files_of _ _ Hfiles) as [Hfok Hlisted].
  { apply Forall_forall. intros [a v] Hin. apply elem_of_zip_r in Hin. rewrite Forall_forall in Hstaged. by apply Hstaged. }
  subst files. apply mutate_append_ok in Hmutate as (m' & summary & r & Hm' & Hsum & Ha & Hq & Hv); [|done]. assert (m' = m) as -> by congruence.
  exists input, (new_snapshot input (m_current_schema_id m) summary), r.
  apply ref_row_id in Hr as (r' & Hr' & Hsnap & _ & Hpv). destruct (an_target _ _ _ _ _ Ha) as [Hr _].
  assert (r' = r) as -> by congruence. split_and!; [done| |done|done|lia|lia| |done|done|].
  - cbn. by rewrite Hpar, Hsnap.
  - eapply (new_snapshot_read input (m_current_schema_id m) summary); try done; [by rewrite Hi| |by rewrite Hpar|by rewrite Hmj].
    by rewrite (an_snapshots _ _ _ _ _ Ha), lookup_insert_eq.
  - by rewrite Hlisted, Hseq.
Qed.

(** ** The branches after an append *)

Lemma branch_read d n r : table_ok d -> db_refs d !! n = Some r -> is_branch r = true -> exists tip files,
  ref_row d n = Ok (Some (Branch, tip)) /\ branch_files d n = Ok files /\ snapshot_files d tip = Ok files.
Proof.
  intros Hok Hr Hb. destruct (branch_snapshot d Hok n r Hr Hb) as (tip & chain & Hread & _ & Hl & He).
  exists tip, (listing d (live_ids d n)). split_and!; [done|by eapply branch_listing|]. rewrite He. by apply snapshot_listing.
Qed.
End append.

(** ** Genesis *)

Section genesis.
Context `{HexCrate, SqlEngine, SerdeJson} `{ToJson LogicalType, ToJson scalar}.

Lemma empty_ok : table_ok empty_db.
Proof.
  split; cbn; try done; try (intros; exfalso; set_solver).
  - intros n f. split; [by intros [? ?]|]. by intros (r & s & ? & _).
Qed.
Lemma genesis_ok input d : genesis input = Ok d -> table_ok d.
Proof.
  unfold genesis. intros (u & _ & E)%bind_ok. apply bind_ok in E as (d1 & E & Hc). unfold Database.commit in Hc. apply bind_unit in Hc as [_ [= <-]].
  unfold mutate_genesis in E. apply bind_ok in E as (e1 & E1%insert_schema_core & E). apply bind_ok in E as (e2 & E2%insert_partition_spec_core & E).
  apply bind_ok in E as (e3 & E3%insert_sort_order_core & E). apply bind_ok in E as (e4 & (_ & _ & ->)%insert_row & E).
  apply bind_ok in E as (e5 & E5 & E). apply bind_ok in E as (e6 & E6%insert_commit_core & E). apply bind_ok in E as (e7 & E7%insert_idempotency_core & E).
  assert (same_core empty_db e3) as C3 by (etrans; [exact E1|]; by etrans).
  apply (try_fold_same_core (fun d feature => insert_feature feature "both" 0 d)) in E5; [|intros x y z; apply insert_feature_core].
  set (main := {| r_type := "branch"; r_snapshot := None; r_created_version := 0; r_updated_version := 0 |}) in *.
  pose proof (same_core_ok _ _ empty_ok C3) as Ok3. assert (table_ok (set_refs (<["main" := main]> (db_refs e3)) e3)) as Ok4.
  { apply (refs_ok e3); [done|by split|cbn..].
    - intros n r [[<- <-]|[_ Hr]]%lookup_insert_Some; [right|by left]. by split; [left|].
    - intros n f. rewrite (sc_live _ _ C3), (sc_refs _ _ C3). split; [by intros [? ?]|].
      intros (r & s & [[<- <-]|[_ Hr]]%lookup_insert_Some & _ & Ha & _); [by apply ancestor_none in Ha|done]. }
  assert (same_core (set_refs (<["main" := main]> (db_refs e3)) e3) e7) as C7 by (etrans; [exact E5|]; by etrans).
  unfold insert_meta in E. apply bind_unit in E as [_ [= <-]]. pose proof (same_core_ok _ _ Ok4 C7) as Ok7.
  pose proof (same_core_last _ _ C7) as L7. pose proof (same_core_last _ _ C3) as L3.
  apply (refs_ok e7); [done| |by left|apply Ok7]. split; try done. rewrite L7. exact (eq_sym L3).
Qed.
End genesis.

(** ** Histories *)

Section reachable.
Context `{HexCrate, Sha2Crate, SqlEngine, SerdeJson} `{FromJson (list cvalue)}
  `{ToJson LogicalType, FromJson LogicalType, ToJson scalar, FromJson scalar}
  `{ToJson SemanticCommit, ToJson cvalue, ToJson (list cvalue), ToJson LogicalFile, ToJson LogicalIntent,
    ToJson (list (Z * scalar)), ToJson (list LogicalMetric), ToJson AppendResult, ToJson Requirement, ToJson OperationRequest, ToJson DurableResult}.
Context `{!CanonicalReads} (requirement_debug : Requirement -> string).

(** The images of a table: its first one, and those that appends and metadata
    transactions commit; the head of a transaction's parent is that of its image. *)
Inductive reachable : Db -> Prop :=
| reach_genesis input d : genesis input = Ok d -> reachable d
| reach_append d request staged base_head base head commit_id snapshot_id now result d' : reachable d ->
  id_valid snapshot_id -> Forall staged_ok staged ->
  append request staged base_head base head commit_id snapshot_id now d = Ok (result, d') -> reachable d'
| reach_transact d request hash head commit_id now result d' : reachable d -> h_table_version head = table_version d ->
  transact requirement_debug request hash head commit_id now d = Ok (result, d') -> reachable d'.

Lemma reachable_ok d : reachable d -> table_ok d.
Proof.
  induction 1 as [input d E|d request staged bh base head cid sid now result d' _ Hok Hid Hst E|d request hash head cid now result d' _ Hok _ E].
  - by eapply genesis_ok.
  - destruct (append_effect _ _ _ _ _ _ _ _ _ _ _ Hok Hid Hst E) as (input & s & r & Ha & Hp & Hn & Hnext & Hb & Hpos & Hr & _ & <- & _).
    by apply (appended_ok input s r d d').
  - by apply transact_effect in E as (? & _).
Qed.
End reachable.

(** ** Properties *)

(** C5: in every image that genesis, appends and metadata transactions reach, each
    branch can be read, and its files are exactly those of the snapshot at its tip:
    the rows that are kept for the branch agree with the files its line of snapshots
    added, each once, in the order of sequence numbers and identifiers. *)
Theorem branch_is_its_snapshot `{HexCrate, Sha2Crate, SqlEngine, SerdeJson} `{FromJson (list cvalue)}
    `{ToJson LogicalType, FromJson LogicalType, ToJson scalar, FromJson scalar}
    `{ToJson SemanticCommit, ToJson cvalue, ToJson (list cvalue), ToJson LogicalFile, ToJson LogicalIntent,
      ToJson (list (Z * scalar)), ToJson (list LogicalMetric), ToJson AppendResult, ToJson Requirement, ToJson OperationRequest, ToJson DurableResult}
    `{!CanonicalReads} (requirement_debug : Requirement -> string) (d : Db) (name : string) (r : RefRow)
    (Hd : reachable requirement_debug d) (Hr : db_refs d !! name = Some r) (Hbranch : r_type r = "branch") :
  exists tip files, ref_row d name = Ok (Some (Branch, tip)) /\ branch_files d name = Ok files /\ snapshot_files d tip = Ok files.
Proof. apply (branch_read d name r); [by eapply reachable_ok|done|]. unfold is_branch. by rewrite Hbranch. Qed.

(** C3: an append adds its files to the branch it names and changes nothing else:
    the branch lists what it listed before and then one file per entry of the
    request, with the staged object's identifier, URI, length and hash and the next
    sequence number; the branch's tip is the new snapshot; every other branch, and
    every snapshot of before, lists the same files. *)
Theorem append_refines `{HexCrate, Sha2Crate, SqlEngine, SerdeJson} `{FromJson (list cvalue)}
    `{ToJson LogicalType, FromJson LogicalType, ToJson scalar, FromJson scalar}
    `{ToJson SemanticCommit, ToJson cvalue, ToJson (list cvalue), ToJson LogicalFile, ToJson LogicalIntent,
      ToJson (list (Z * scalar)), ToJson (list LogicalMetric), ToJson AppendResult, ToJson Requirement, ToJson OperationRequest, ToJson DurableResult}
    `{!CanonicalReads} (requirement_debug : Requirement -> string) (d d' base : Db) (base_head head : Head)
    (request : AppendRequest) (staged : list VerifiedStagedFile) (commit_id snapshot_id : Id) (created_at_ms : Z) (result : AppendResult)
    (Hd : reachable requirement_debug d) (Hid : id_valid snapshot_id) (Hstaged : Forall staged_ok staged)
    (Happend : append request staged base_head base head commit_id snapshot_id created_at_ms d = Ok (result, d')) :
  (exists old, branch_files d (ar_target_ref request) = Ok old /\
     branch_files d' (ar_target_ref request)
       = Ok (old ++ merge_sort live_le (map (committed_file (last_sequence d + 1)) (zip (ar_files request) staged)))) /\
  ref_row d' (ar_target_ref request) = Ok (Some (Branch, Some snapshot_id)) /\
  (forall name, name <> ar_target_ref request -> ref_row d' name = ref_row d name /\ branch_files d' name = branch_files d name) /\
  (forall id, is_Some (db_snapshots d !! id_bytes id) -> snapshot_files d' (Some id) = snapshot_files d (Some id)).
Proof.
  apply reachable_ok in Hd.
  destruct (append_effect _ _ _ _ _ _ _ _ _ _ _ Hd Hid Hstaged Happend) as (input & s & r & Ha & Hp & Hn & Hnext & Hb & Hpos & Hr & Ht & <- & Hf).
  rewrite <- Ht, <- Hf. pose proof (appended_ok input s r d d' Hd Ha Hp Hn Hnext Hb Hpos Hid Hr) as Hok'.
  destruct (an_refs _ _ _ _ _ Ha) as (r' & Hrefs & Htype & Htip). split_and!.
  - by apply (target_branch input s r d d').
  - unfold ref_row. rewrite Hrefs, lookup_insert_eq. cbn [transpose]. rewrite Htype, Htip. cbn.
    by rewrite (proj2 (id_from_blob_ok _ (ai_snapshot_id input))).
  - intros name Hname. split; [unfold ref_row; by rewrite Hrefs, lookup_insert_ne|]. by apply (other_branch input s r d d').
  - intros id Hrow. destruct (lineage_tip d Hd (Some id)) as [chain Hl]; [by intros ? [= <-]|].
    by apply (old_snapshot_files input s r d d' Hd Ha Hp Hn Hnext Hb Hpos Hid Hr (Some id) chain).
Qed.

(** C2: a metadata transaction moves the refs it names and changes no file: every
    snapshot lists the same files; a ref that no operation names is unchanged, and so
    are the files of its branch; a branch that is created or moved lists the files
    of the snapshot it was given, and a ref that is dropped is no branch. *)
Theorem transact_refines `{HexCrate, Sha2Crate, SqlEngine, SerdeJson} `{FromJson (list cvalue)}
    `{ToJson LogicalType, FromJson LogicalType, ToJson scalar, FromJson scalar}
    `{ToJson SemanticCommit, ToJson cvalue, ToJson (list cvalue), ToJson LogicalFile, ToJson LogicalIntent,
      ToJson (list (Z * scalar)), ToJson (list LogicalMetric), ToJson AppendResult, ToJson Requirement, ToJson OperationRequest, ToJson DurableResult}
    `{!CanonicalReads} (requirement_debug : Requirement -> string) (d d' : Db) (request : TransactionRequest) (logical_hash : Sha256) (head : Head)
    (commit_id : Id) (created_at_ms : Z) (result : DurableResult) (Hd : reachable requirement_debug d)
    (Htransact : transact requirement_debug request logical_hash head commit_id created_at_ms d = Ok (result, d')) :
  (forall tip, snapshot_files d' tip = snapshot_files d tip) /\
  (forall name, name ∉ omap touched_ref (tr_operations request) -> ref_row d' name = ref_row d name /\ branch_files d' name = branch_files d name) /\
  (forall o, o ∈ tr_operations request ->
    match o with
    | CreateRef _ name Branch tip => branch_files d' name = snapshot_files d tip
    | CreateRef _ name Tag tip => ref_row d' name = Ok (Some (Tag, tip))
    | ReplaceRef _ name tip => branch_files d' name = snapshot_files d (Some tip)
    | DropRef _ name => branch_files d' name = Err (RuntimeError.RefNotFound name)
    | _ => True
    end).
Proof.
  apply reachable_ok in Hd. apply transact_effect in Htransact as (Hok' & Hs & Hrefs & Hall); [|done].
  assert (forall name r tip, db_refs d' !! name = Some r -> is_branch r = true -> r_snapshot r = id_bytes <$> tip -> branch_files d' name = snapshot_files d tip) as Hset.
  { intros name r tip Hr Hb Htip. destruct (branch_snapshot d' Hok' name r Hr Hb) as (tip' & chain & _ & Htip' & Hl & He).
    assert (tip' = tip) as -> by (apply (inj (fmap id_bytes)); congruence).
    rewrite <- (same_files_snapshot d d' tip Hs), (branch_listing d' Hok' name r Hr Hb), He. symmetry. by apply snapshot_listing. }
  split_and!.
  - intros tip. by apply same_files_snapshot.
  - intros name Hn%Hrefs. split; [unfold ref_row; by rewrite Hn|by apply kept_branch].
  - intros o Ho. specialize (Hall o Ho). destruct o as [i updates removals|i name [] tip|i name tip|i name|i schema|i schema]; cbn [op_ref] in Hall; try done.
    + destruct Hall as (r & Hr & Ht & Htip). apply (Hset name r tip Hr); [unfold is_branch; by rewrite Ht|done].
    + destruct Hall as (r & Hr & Ht & Htip). destruct (ref_read d' Hok' name r Hr) as (tip' & Hread & Htip').
      assert (tip' = tip) as -> by (apply (inj (fmap id_bytes)); congruence). unfold is_branch in Hread. by rewrite Ht in Hread.
    + destruct Hall as (r & Hr & Hb & Htip). by apply (Hset name r (Some tip) Hr Hb).
    + unfold branch_files. by rewrite Hall.
Qed.

(** ** Example *)

(** A [serde] that writes and reads one text. *)
#[local] Instance example_hex : HexCrate := hex_reference.
#[local] Instance example_sha2 : Sha2Crate := sha2_reference.
#[local] Instance example_engine : SqlEngine := {| sql_failure := RuntimeError.Sqlite |}.
#[local] Instance example_serde : SerdeJson := json_reference (as_bytes "{}") (JMap [] None).
#[local] Instance example_to_json T : ToJson T := {| serde_to_vec _ := Ok (as_bytes "{}") |}.
#[local] Instance example_types : FromJson LogicalType := {| serde_from_slice _ := Ok TInt64 |}.
#[local] Instance example_scalars : FromJson scalar := {| serde_from_slice _ := Err "not parsed" |}.
#[local] Instance example_values : FromJson (list cvalue) := {| serde_from_slice _ := Ok [] |}.
#[local] Instance example_reads : CanonicalReads.
Proof. intros v s E. vm_compute in E. injection E as <-. eexists. vm_compute. reflexivity. Qed.

Definition example_id (n : Z) : Id := MkId (be_bytes 6 0 ++ [Byte.x70; Byte.x00; Byte.x80] ++ be_bytes 7 n).
Definition example_sha (n : Z) : Sha256 := MkSha256 (be_bytes 32 n).
Definition example_head (version : Z) : Head :=
  {| h_protocol := "otmp"; h_protocol_version := "0.0.2-alpha"; h_table_id := example_id 1; h_table_version := version; h_root_revision := version;
     h_semantic_state_sha256 := example_sha version; h_semantic_commit := {| or_uri := MkUri "c"; or_sha256 := example_sha 0; or_length := None; or_media_type := None |};
     h_metadata_generation := {| or_uri := MkUri "g"; or_sha256 := example_sha 0; or_length := None; or_media_type := None |};
     h_required_reader_features := MkFeatures []; h_required_writer_features := MkFeatures [] |}.
Definition example_schema : Schema :=
  {| schema_id := 1; parent_schema_id := None; schema_fields := [MkField 1 "x" false TInt64 None None None]; identifier_field_ids := []; schema_doc := None |}.
Definition example_genesis : GenesisImage :=
  {| gi_table_id := example_id 1; gi_schema := example_schema; gi_created_at_ms := 0; gi_semantic_state := example_sha 0; gi_commit_id := example_id 2;
     gi_commit_hash := example_sha 0; gi_commit_uri := "c"; gi_operation_json := "[]"; gi_result_json := "{}"; gi_intent_hash := example_sha 0;
     gi_metadata_json := "{}"; gi_reader_features_json := "[]"; gi_writer_features_json := "[]" |}.
Definition example_file : AppendFile :=
  {| af_source_path := "a.parquet"; af_fingerprint := {| fp_sha256 := example_sha 7; fp_length := 10 |}; af_format := Parquet; af_record_count := 3;
     af_schema_id := 1; af_partition_spec_id := 0; af_sort_order_id := 0; af_partition_values := []; af_metrics := []; af_metadata := [] |}.
Definition example_staged : VerifiedStagedFile :=
  {| vs_table_id := example_id 1; vs_ordinal := 0; vs_file_id := example_id 3; vs_uri := MkUri "data/a.parquet"; vs_version := MkVersion "v";
     vs_sha256 := example_sha 7; vs_length := 10; vs_format := Parquet; vs_object_identity := None |}.
Definition example_dev : TransactionRequest :=
  {| tr_idempotency_key := "b"; tr_requirements := [RefAbsent "dev"; SnapshotExists (example_id 5)];
     tr_operations := [CreateRef "o" "dev" Branch (Some (example_id 5))]; tr_commit_metadata := [] |}.

(** The image of a step that succeeds *)
Definition image_of {R} (m : rresult (R * Db)) : Db := match m with Ok (_, d) => d | Err _ => empty_db end.
Lemma image_of_ok {R} (m : rresult (R * Db)) : is_ok m = true -> exists r, m = Ok (r, image_of m).
Proof. destruct m as [[r d]|]; [by exists r|done]. Qed.

(** A first image, an append to main, and a branch at the new snapshot *)
Definition example_first : Db := ok_default empty_db (genesis example_genesis).
Definition example_append : rresult (AppendResult * Db) :=
  append (append_request "k" [example_file]) [example_staged] (example_head 0) example_first (example_head 0) (example_id 4) (example_id 5) 0 example_first.
Definition example_second : Db := image_of example_append.
Definition example_transact : rresult (DurableResult * Db) :=
  transact (fun _ => "") example_dev (example_sha 9) (example_head 1) (example_id 6) 0 example_second.
Definition example_third : Db := image_of example_transact.

Lemma example_id_valid n : id_valid (example_id n).
Proof. split; [|by split]. unfold wf_id, example_id. cbn [id_bytes]. by rewrite !length_app, !be_bytes_length. Qed.
Lemma example_staged_ok : Forall staged_ok [example_staged].
Proof. repeat constructor. Qed.
Lemma example_first_reached : reachable (fun _ => "") example_first.
Proof. apply (reach_genesis _ example_genesis). assert (is_ok (genesis example_genesis) = true) as [d E]%is_ok_true by (vm_compute; reflexivity). unfold example_first. by rewrite E. Qed.
Lemma example_second_reached : reachable (fun _ => "") example_second.
Proof.
  destruct (image_of_ok example_append) as [r E]; [vm_compute; reflexivity|].
  by eapply reach_append; [apply example_first_reached|apply (example_id_valid 5)|apply example_staged_ok|exact E].
Qed.
Lemma example_third_reached : reachable (fun _ => "") example_third.
Proof.
  destruct (image_of_ok example_transact) as [r E]; [vm_compute; reflexivity|]. 
  refine (reach_transact _ example_second example_dev (example_sha 9) (example_head 1) (example_id 6) 0 r _ example_second_reached _ E). vm_compute. reflexivity.
Qed.

Lemma branch_is_its_snapshot_witness : exists tip files, ref_row example_third "dev" = Ok (Some (Branch, tip)) /\
  branch_files example_third "dev" = Ok files /\ snapshot_files example_third tip = Ok files.
Proof.
  apply (branch_is_its_snapshot (fun _ => "") example_third "dev"
    {| r_type := "branch"; r_snapshot := Some (id_bytes (example_id 5)); r_created_version := 2; r_updated_version := 2 |}).
  - apply example_third_reached.
  - vm_compute. reflexivity.
  - reflexivity.
Defined.
Lemma append_refines_witness : exists old, branch_files example_first "main" = Ok old /\
  branch_files example_second "main" = Ok (old ++ merge_sort live_le [committed_file (last_sequence example_first + 1) (example_file, example_staged)]).
Proof.
  destruct (image_of_ok example_append) as [r E]; [vm_compute; reflexivity|].
  exact (proj1 (append_refines (fun _ => "") example_first example_second _ _ _ _ _ _ (example_id 5) 0 r
    example_first_reached (example_id_valid 5) example_staged_ok E)).
Defined.
Lemma transact_refines_witness : branch_files example_third "dev" = snapshot_files example_second (Some (example_id 5)).
Proof.
  destruct (image_of_ok example_transact) as [r E]; [vm_compute; reflexivity|].
  destruct (transact_refines (fun _ => "") example_second example_third example_dev (example_sha 9) (example_head 1)
    (example_id 6) 0 r example_second_reached E) as (_ & _ & Hall).
  apply (Hall (CreateRef "o" "dev" Branch (Some (example_id 5)))). left.
Defined.
