(* ===== verification/CommitLog.v ===== *)
(** The commits of an image (otmp/src/image.rs, [validate_commits]): every writer adds
    one commit row, one row for its idempotency key and the version of the table, so
    the checks of an image on its commits, its defaults and its features hold of
    every image the writers reach. *)
From S2P Require Import Prelude Bytes Errors Values Scalars CanonicalJson Hashes Schema PageTree Objects Storage Publication Candidate.
From S2P Require Import ByteArray Database History SchemaRows Transactions Append RelationalImage DatabaseFacts HistoryFacts TransactionFacts.
From S2P Require Import FileOrder TableState AppendFacts TransactState TableHistory.

(** ** Rows in the order of their keys *)

#[export] Instance key_le_total V : Total (@key_le V).
Proof. intros a b. unfold key_le. lia. Qed.
#[export] Instance key_le_transitive V : Transitive (@key_le V).
Proof. intros a b c. unfold key_le. lia. Qed.
Lemma by_key_keys {V} (m : gmap Z V) n : (forall v, is_Some (m !! v) <-> 0 <= v < n) -> (by_key m).*1 = seqZ 0 n.
Proof.
  intros Hm. apply (StronglySorted_unique Z.le).
  - eapply StronglySorted_fmap; [|apply StronglySorted_merge_sort; apply _]. by intros [] [].
  - unfold seqZ. apply StronglySorted_fmap with (R1 := le); [intros; lia|]. generalize 0%nat as k. induction (Z.to_nat n) as [|i IH]; intros k; constructor; [done|].
    apply Forall_forall. intros x Hx%elem_of_seq. lia.
  - unfold by_key. rewrite merge_sort_Permutation. apply NoDup_Permutation; [apply NoDup_fst_map_to_list|apply NoDup_seqZ|].
    intros v. rewrite elem_of_seqZ, Z.add_0_l, <- Hm, list_elem_of_fmap. split.
    + intros ([k c] & -> & Hk%elem_of_map_to_list). by eexists.
    + intros [c Hc]. exists (v, c). by rewrite elem_of_map_to_list.
Qed.
Lemma count_rows_insert {K V} `{Countable K} (f : K -> V -> bool) k v (m : gmap K V) : m !! k = None ->
  count_rows f (<[k := v]> m) = count_rows f m + (if f k v then 1 else 0).
Proof.
  intros Hk. unfold count_rows, len. assert (forall l l' : list (K * V), l ≡ₚ l' -> length (List.filter (fun kv => f kv.1 kv.2) l) = length (List.filter (fun kv => f kv.1 kv.2) l')) as Hp.
  { induction 1 as [|x l l' _ IH|x y l|l1 l2 l3 _ IH1 _ IH2]; cbn; repeat case_match; cbn; congruence. }
  rewrite (Hp _ _ (map_to_list_insert m k v Hk)). cbn. destruct (f k v); cbn [length]; lia.
Qed.
Lemma count_rows_none {K V} `{Countable K} (f : K -> V -> bool) (m : gmap K V) : (forall k v, m !! k = Some v -> f k v = false) -> count_rows f m = 0.
Proof.
  intros Hf. unfold count_rows. assert (List.filter (fun kv => f kv.1 kv.2) (map_to_list m) = []) as ->; [|done].
  assert (forall kv, kv ∈ map_to_list m -> f kv.1 kv.2 = false) as Hl by (intros [k v] Hkv%elem_of_map_to_list; by apply Hf).
  induction (map_to_list m) as [|kv l IH]; cbn; [done|]. rewrite Hl by left. apply IH. intros y Hy. apply Hl. by right.
Qed.

(** ** What the statements before the commit row keep *)

Definition defaults_ok (d : Db) : Prop := forall m, db_meta d = Some m -> defaults_exist m d = true.
Definition meta_log (m : MetaRow) : Z * bytes * bytes * bytes := (m_table_version m, m_last_commit_id m, m_semantic_state m, m_last_commit_sha256 m).
(** [d'] has the commits of [d], and its defaults exist if those of [d] do. *)
Record same_log (d d' : Db) : Prop := {
  sl_commits : db_commits d' = db_commits d; sl_rows : db_idempotency_rows d' = db_idempotency_rows d; sl_features : db_features d' = db_features d;
  sl_schemas : db_schemas d ⊆ db_schemas d'; sl_specs : db_partition_specs d ⊆ db_partition_specs d'; sl_orders : db_sort_orders d ⊆ db_sort_orders d';
  sl_meta : meta_log <$> db_meta d' = meta_log <$> db_meta d; sl_defaults : defaults_ok d -> defaults_ok d' }.

#[export] Instance same_log_preorder : PreOrder same_log.
Proof. split; [by intros d; split|]. intros d e f [] []. split; try congruence; [by etrans..|auto]. Qed.

Create HintDb log_frame.
Ltac log_row := first [intros (_ & _ & ->)%insert_row | intros [_ [= <-]]%bind_unit]; by split.

Section frames.
Context `{HexCrate, Sha2Crate, SqlEngine, SerdeJson} `{ToJson LogicalType, ToJson scalar} `{ToJson cvalue}.

Lemma defaults_grow d d' : db_meta d' = db_meta d -> db_schemas d ⊆ db_schemas d' -> db_partition_specs d ⊆ db_partition_specs d' ->
  db_sort_orders d ⊆ db_sort_orders d' -> defaults_ok d -> defaults_ok d'.
Proof.
  intros Hm Hs Hp Ho Hd m Em. rewrite Hm in Em. specialize (Hd m Em). unfold defaults_exist in *. rewrite !andb_true_iff, !has_true in *.
  destruct Hd as [[[? ?] [? ?]] [? ?]]. split_and!; eexists; by eapply lookup_weaken.
Qed.
Lemma insert_schema_row_log id s d d' : insert_schema_row id s d = Ok d' -> same_log d d'.
Proof. intros (_ & Hn & ->)%insert_row. split; try done; [by apply insert_subseteq|]. apply defaults_grow; try done. by apply insert_subseteq. Qed.
Lemma insert_partition_spec_log id version d d' : insert_partition_spec id version d = Ok d' -> same_log d d'.
Proof. intros (_ & Hn & ->)%insert_row. split; try done; [by apply insert_subseteq|]. apply defaults_grow; try done. by apply insert_subseteq. Qed.
Lemma insert_sort_order_log id version d d' : insert_sort_order id version d = Ok d' -> same_log d d'.
Proof. intros (_ & Hn & ->)%insert_row. split; try done; [by apply insert_subseteq|]. apply defaults_grow; try done. by apply insert_subseteq. Qed.
Lemma ignore_field_id_log id first version d d' : ignore_field_id id first version d = Ok d' -> same_log d d'.
Proof. unfold ignore_field_id. destruct (_ || _); [by intros [= <-]|log_row]. Qed.
Lemma insert_field_row_log schema field f d d' : insert_field_row schema field f d = Ok d' -> same_log d d'.
Proof. log_row. Qed.
Lemma insert_identifier_log schema ordinal field d d' : insert_identifier schema ordinal field d = Ok d' -> same_log d d'.
Proof. log_row. Qed.
Lemma insert_schema_log s version d d' : insert_schema s version d = Ok d' -> same_log d d'.
Proof. apply (insert_schema_frame same_log); eauto using insert_schema_row_log, ignore_field_id_log, insert_field_row_log, insert_identifier_log. Qed.
Lemma upsert_property_log key p d d' : upsert_property key p d = Ok d' -> same_log d d'.
Proof. unfold upsert_property. log_row. Qed.
Lemma delete_property_log key d d' : delete_property key d = Ok d' -> same_log d d'.
Proof. intros [= <-]. by split. Qed.
Lemma insert_snapshot_log id s d d' : insert_snapshot id s d = Ok d' -> same_log d d'.
Proof. log_row. Qed.
Lemma insert_summary_log snapshot key value d d' : insert_summary snapshot key value d = Ok d' -> same_log d d'.
Proof. log_row. Qed.
Lemma insert_ref_log name r d d' : insert_ref name r d = Ok d' -> same_log d d'.
Proof. log_row. Qed.
Lemma update_ref_log name p snapshot version d n d' : update_ref name p snapshot version d = Ok (n, d') -> same_log d d'.
Proof. intros [[_ ->]|(r & _ & _ & _ & _ & ->)]%update_ref_ok; by split. Qed.
Lemma delete_ref_log name d d' : delete_ref name d = Ok d' -> same_log d d'.
Proof. unfold delete_ref. log_row. Qed.
Lemma insert_file_log id f d d' : insert_file id f d = Ok d' -> same_log d d'.
Proof. log_row. Qed.
Lemma insert_metric_log file field q d d' : insert_metric file field q d = Ok d' -> same_log d d'.
Proof. log_row. Qed.
Lemma insert_change_log snapshot file kind d d' : insert_change snapshot file kind d = Ok d' -> same_log d d'.
Proof. unfold insert_change. log_row. Qed.
Lemma insert_live_log name file l d d' : insert_live name file l d = Ok d' -> same_log d d'.
Proof. log_row. Qed.
Lemma delete_live_log name d d' : delete_live name d = Ok d' -> same_log d d'.
Proof. intros [= <-]. by split. Qed.

(** ** Operations *)

Lemma materialize_branch_log name tip d d' : materialize_branch name tip d = Ok d' -> same_log d d'.
Proof.
  unfold materialize_branch. intros (e & E1%delete_live_log & E)%bind_ok. apply bind_ok in E as (chain & _ & E). etrans; [exact E1|].
  eapply (try_fold_frame same_log); [|exact E]. intros x i y _. unfold insert_live_of. destruct (db_snapshots x !! id_bytes i); [|by intros [= <-]].
  apply (try_fold_frame same_log). intros u f w _. apply insert_live_log.
Qed.
Lemma apply_operation_log v d o d' : apply_operation v d o = Ok d' -> same_log d d'.
Proof.
  destruct o as [i updates removals|i name t tip|i name tip|i name|i schema|i schema]; unfold apply_operation; intros E.
  - apply bind_ok in E as (e & E1 & E2). etrans.
    + eapply (try_fold_frame same_log); [|exact E1]. intros x kv y _ (w & _ & Ew)%bind_ok. by apply upsert_property_log in Ew.
    + eapply (try_fold_frame same_log); [|exact E2]. intros x k y _. apply delete_property_log.
  - apply bind_ok in E as (e & E1%insert_ref_log & E). etrans; [exact E1|]. case_bool_decide; [by eapply materialize_branch_log|by injection E as <-].
  - apply bind_ok in E as ([n e] & E1%update_ref_log & E%materialize_branch_log). by etrans.
  - apply bind_ok in E as (e & E1%delete_live_log & E%delete_ref_log). by etrans.
  - by apply insert_schema_log in E.
  - apply bind_ok in E as (x & Hx%map_err_ok%row_ok & E). apply update_meta_ok in E as [[_ ->]|(m & Hm & _ & ->)]; [done|].
    split; try done; [by rewrite Hm|]. intros Hd y [= <-]. specialize (Hd m Hm). unfold defaults_exist in *. cbn. rewrite !andb_true_iff in *.
    destruct Hd as [[_ ?] ?]. split_and!; try done. apply has_true. by eexists.
Qed.
End frames.

(** ** The log *)

(** The features that [mutate_genesis] writes; no statement changes them. *)
Definition genesis_features : gmap (string * string) Z :=
  {[("otmp.metadata.sqlite3-cow.v1", "both") := 0; ("otmp.data.parquet.v1", "both") := 0; ("otmp.refs.v1", "both") := 0; ("otmp.core.v2", "both") := 0]}.

(** One commit per version from the first to the table's, each with one row for its
    idempotency key; the table's row names the last of them. *)
Record log_ok (d : Db) : Prop := {
  lo_meta : is_Some (db_meta d);
  lo_positive : 0 <= table_version d;
  lo_versions : forall v, is_Some (db_commits d !! v) <-> 0 <= v < table_version d + 1;
  lo_paired : forall v c, db_commits d !! v = Some c -> unpaired_commit d v c = false;
  lo_keys : forall key y, db_idempotency_rows d !! key = Some y -> y_table_version y <= table_version d;
  lo_last : forall m, db_meta d = Some m -> exists c, db_commits d !! m_table_version m = Some c /\ k_commit_id c = m_last_commit_id m /\
    k_semantic_state c = m_semantic_state m /\ k_object_sha256 c = m_last_commit_sha256 m;
  lo_features : db_features d = genesis_features;
  lo_defaults : defaults_ok d }.

Section log.
Context `{HexCrate, Sha2Crate, SqlEngine, SerdeJson} `{FromJson (list cvalue)}
  `{ToJson LogicalType, FromJson LogicalType, ToJson scalar, FromJson scalar}
  `{ToJson SemanticCommit, ToJson cvalue, ToJson (list cvalue), ToJson LogicalFile, ToJson LogicalIntent,
    ToJson (list (Z * scalar)), ToJson (list LogicalMetric), ToJson AppendResult, ToJson Requirement, ToJson OperationRequest, ToJson DurableResult}.

Lemma log_frame d d' : same_log d d' -> log_ok d -> log_ok d' /\ table_version d' = table_version d.
Proof.
  intros [E1 E2 E3 _ _ _ E4 E5] [A1 A2 A3 A4 A5 A6 A7 A8]. destruct A1 as [m Hm]. rewrite Hm in E4. destruct (db_meta d') as [m'|] eqn:Hm'; [|done].
  injection E4 as M1 M2 M3 M4. assert (table_version d' = table_version d) as Ev by (unfold table_version; by rewrite Hm, Hm').
  split; [|done]. split; rewrite ?Ev, ?E1, ?E2, ?E3; try done.
  - intros v c Hc. unfold unpaired_commit. rewrite E2. by apply A4.
  - intros x Hx. rewrite Hm' in Hx. injection Hx as <-. rewrite M1, M2, M3, M4. by apply A6.
  - by apply E5.
Qed.

(** The last statements of a writer add a commit, its key, and the new version. *)
Lemma log_commit d e1 e2 d' v c key y f : log_ok d -> v = table_version d + 1 ->
  insert_commit v c d = Ok e1 -> insert_idempotency key y e1 = Ok e2 -> update_meta f e2 = Ok d' ->
  k_intent_count c = 1 -> y_commit_id y = k_commit_id c -> y_table_version y = v ->
  (forall m, meta_log (f m) = (v, k_commit_id c, k_semantic_state c, k_object_sha256 c)) ->
  (forall m, defaults_exist (f m) d = defaults_exist m d) -> log_ok d' /\ table_version d' = v.
Proof.
  intros [[m Hm] A2 A3 A4 A5 _ A7 A8] Hv (_ & Hc & ->)%insert_row (_ & Hk & ->)%insert_row E Hone Hid Hver Hf Hdef. cbn in Hk.
  apply update_meta_ok in E as [[? _]|(m' & Hm' & _ & ->)]; cbn in *; [congruence|]. assert (m' = m) as -> by congruence.
  specialize (Hf m). unfold meta_log in Hf. assert (m_table_version (f m) = v) as Hfv by congruence.
  assert (table_version (set_meta (Some (f m)) (set_idempotency_rows (<[key:=y]> (db_idempotency_rows d)) (set_commits (<[v:=c]> (db_commits d)) d))) = v) as Ev by done.
  split; [|exact Ev]. split; rewrite ?Ev; cbn; try done.
  - lia.
  - intros w. destruct (decide (w = v)) as [->|Hne]; [rewrite lookup_insert_eq; split; [lia|by eexists]|].
    rewrite lookup_insert_ne, A3 by done. lia.
  - intros w x [[<- <-]|[Hne Hx]]%lookup_insert_Some; unfold unpaired_commit; cbn; rewrite count_rows_insert by done; apply negb_false_iff, Z.eqb_eq.
    + rewrite Hid, Hver, Z.eqb_refl, bool_decide_eq_true_2 by done. cbn. rewrite count_rows_none; [lia|].
      intros k z Hz%A5. apply andb_false_iff. right. apply Z.eqb_neq. lia.
    + rewrite Hver, (proj2 (Z.eqb_neq v w)), andb_false_r, Z.add_0_r by done. specialize (A4 _ _ Hx). unfold unpaired_commit in A4.
      by apply negb_false_iff, Z.eqb_eq in A4.
  - intros k z [[<- <-]|[_ Hz%A5]]%lookup_insert_Some; lia.
  - intros x [= <-]. exists c. rewrite Hfv, lookup_insert_eq. split_and!; congruence.
  - intros x [= <-]. change (defaults_exist (f m) d = true). rewrite Hdef. by apply A8.
Qed.

(** ** The writers *)

Lemma append_file_log input d f d' : append_file input d f = Ok d' -> same_log d d'.
Proof.
  unfold append_file. intros (size & _ & E)%bind_ok. do 3 (apply bind_ok in E as (? & _ & E)). apply bind_ok in E as (e1 & E1%insert_file_log & E).
  apply bind_ok in E as (e2 & E2 & E). apply bind_ok in E as (e3 & E3%insert_change_log & E%insert_live_log).
  apply (try_fold_frame same_log) in E2; [do 3 (etrans; [eassumption|]); done|].
  intros u a y _. unfold append_metric. intros (w & _ & Ex)%bind_ok. do 4 (apply bind_ok in Ex as (? & _ & Ex)). by apply insert_metric_log in Ex.
Qed.
Lemma mutate_append_log input d d' : log_ok d -> mutate_append input d = Ok d' -> log_ok d' /\ table_version d' = table_version d + 1.
Proof.
  unfold mutate_append. intros Hlog (m & Hm%row_ok & E)%bind_ok. apply bind_reject in E as [Hver E].
  assert (ai_table_version input = table_version d + 1) as Hnext.
  { bool_to_prop. apply bind_Some in Hver as (n & Hn & [-> _]%try_uint_some). unfold table_version. rewrite Hm. cbn. destruct (_ <? _); by simplify_eq. }
  apply bind_ok in E as (q & _ & E). apply bind_ok in E as (v & [-> _]%sqlite_i64_ok & E). apply bind_ok in E as (summary & _ & E).
  apply bind_ok in E as (d1 & E1%insert_snapshot_log & E). apply bind_ok in E as (d2 & E2 & E). apply bind_ok in E as (d3 & E3 & E).
  apply bind_ok in E as ([n d4] & E4%update_ref_log & E). apply bind_reject in E as [_ E].
  apply bind_ok in E as (d5 & E5 & E). apply bind_ok in E as (d6 & E6 & E).
  apply (try_fold_frame same_log) in E2; [|intros x kv y _ (w & _ & Ew)%bind_ok; by apply insert_summary_log in Ew].
  apply (try_fold_frame same_log) in E3; [|intros x f y _; apply append_file_log].
  assert (same_log d d4) as Hd4 by (do 3 (etrans; [eassumption|]); done). destruct (log_frame _ _ Hd4 Hlog) as [Hlog4 Hv4].
  rewrite <- Hv4, <- Hnext in *. eapply log_commit; [exact Hlog4| |exact E5|exact E6|exact E|..]; done.
Qed.
Lemma mutate_metadata_log commit uri ops d d' : log_ok d -> sc_table_version commit = table_version d + 1 ->
  mutate_metadata commit uri ops d = Ok d' -> log_ok d' /\ table_version d' = table_version d + 1.
Proof.
  intros Hlog Hnext. unfold mutate_metadata, apply_operations. intros (e & He & E)%bind_ok.
  apply bind_ok in He as (v & _ & He). apply bind_ok in E as (b & _ & E). apply bind_ok in E as (w & [-> _]%sqlite_i64_ok & E).
  do 4 (apply bind_ok in E as (? & _ & E)). apply bind_ok in E as (d1 & E1 & E). apply bind_ok in E as (d2 & E2 & E).
  apply (try_fold_frame same_log) in He; [|intros u o y _; apply apply_operation_log].
  destruct (log_frame _ _ He Hlog) as [Hloge Hve]. rewrite <- Hve, <- Hnext in *. eapply log_commit; [exact Hloge| |exact E1|exact E2|exact E|..]; done.
Qed.
(** A schema that is written has a row. *)
Lemma insert_schema_has s version d d' : insert_schema s version d = Ok d' -> is_Some (db_schemas d' !! schema_id s).
Proof.
  unfold insert_schema. intros (v & _ & E)%bind_ok. apply bind_ok in E as (d1 & (_ & _ & ->)%insert_row & E).
  match type of E with context [insert_fields _ _ _ _ ?x] => set (e := x) in E end.
  apply bind_ok in E as (d2 & E2 & E3). assert (same_log e d') as Hl.
  { etrans; [eapply (insert_siblings_frame same_log); [|exact E2]|eapply (insert_identifiers_frame same_log); [|exact E3]].
    - intros f _ n. apply (insert_field_frame same_log); eauto using ignore_field_id_log, insert_field_row_log.
    - eauto using insert_identifier_log. }
  eexists. eapply lookup_weaken; [|apply Hl]. cbn. apply lookup_insert_eq.
Qed.
(** The tables of the first image before its commit row *)
Lemma genesis_tables (input : GenesisImage) e1 e2 e3 : insert_schema (gi_schema input) 0 empty_db = Ok e1 -> insert_partition_spec 0 0 e1 = Ok e2 ->
  insert_sort_order 0 0 e2 = Ok e3 -> same_log empty_db e3 /\ has (schema_id (gi_schema input)) (db_schemas e3) && has 0 (db_partition_specs e3) &&
    has 0 (db_sort_orders e3) = true.
Proof.
  intros E1 E2 E3. pose proof (insert_schema_has _ _ _ _ E1) as [s Hs]. pose proof (insert_schema_log _ _ _ _ E1) as L1.
  pose proof (insert_partition_spec_log _ _ _ _ E2) as L2. pose proof (insert_sort_order_log _ _ _ _ E3) as L3.
  split; [by do 2 (etrans; [eassumption|])|]. apply insert_row in E2 as (_ & _ & ->). apply insert_row in E3 as (_ & _ & ->). cbn.
  rewrite !andb_true_iff, !has_true. split_and!; [by eexists|by rewrite lookup_insert_eq; eexists..].
Qed.
(** The first commit, its key and the row of the table *)
Lemma log_first d e1 e2 d' c key y m : db_commits d = ∅ -> db_idempotency_rows d = ∅ -> db_features d = genesis_features ->
  insert_commit 0 c d = Ok e1 -> insert_idempotency key y e1 = Ok e2 -> insert_meta m e2 = Ok d' ->
  k_intent_count c = 1 -> y_commit_id y = k_commit_id c -> y_table_version y = 0 ->
  meta_log m = (0, k_commit_id c, k_semantic_state c, k_object_sha256 c) -> defaults_exist m d = true -> log_ok d'.
Proof.
  intros C1 C2 C3 (_ & _ & ->)%insert_row (_ & _ & ->)%insert_row E Hone Hid Hver Hm Hdef. unfold insert_meta in E. apply bind_unit in E as [_ [= <-]].
  cbn. rewrite C1, C2. unfold meta_log in Hm. injection Hm as M1 M2 M3 M4.
  split; cbn; rewrite ?M1, ?C3; try done.
  - intros v. destruct (decide (v = 0)) as [->|Hne]; [rewrite lookup_insert_eq; split; [lia|by eexists]|].
    rewrite lookup_insert_ne by done. split; [by intros [? ?]|lia].
  - intros v x [[<- <-]|[_ Hx]]%lookup_insert_Some; [|done]. unfold unpaired_commit. cbn [db_idempotency_rows set_meta set_idempotency_rows].
    rewrite count_rows_insert by done. rewrite count_rows_none by done. by rewrite Hone, Hid, Hver, bool_decide_eq_true_2.
  - intros k z [[<- <-]|[_ Hx]]%lookup_insert_Some; [by rewrite Hver|done].
  - intros x [= <-]. exists c. by rewrite M1, lookup_insert_eq.
  - by intros x [= <-].
Qed.
Lemma genesis_features_written (d d' : Db) : try_fold (fun d feature => insert_feature feature "both" 0 d) d
    ["otmp.core.v2"; "otmp.refs.v1"; "otmp.data.parquet.v1"; "otmp.metadata.sqlite3-cow.v1"] = Ok d' -> db_features d = ∅ -> d' = set_features genesis_features d.
Proof.
  cbn [try_fold]. intros (? & (_ & _ & ->)%insert_row & E)%bind_ok Hd. do 3 (apply bind_ok in E as (? & (_ & _ & ->)%insert_row & E)). injection E as <-.
  unfold genesis_features, set_features. cbn [db_meta db_commits db_idempotency_rows db_properties db_features]. by rewrite Hd.
Qed.
Lemma genesis_log input d : genesis input = Ok d -> log_ok d.
Proof.
  unfold genesis. intros (u & _ & E)%bind_ok. apply bind_ok in E as (d1 & E & Hc). unfold Database.commit in Hc. apply bind_unit in Hc as [_ [= <-]].
  unfold mutate_genesis in E. apply bind_ok in E as (e1 & E1 & E). apply bind_ok in E as (e2 & E2 & E). apply bind_ok in E as (e3 & E3 & E).
  destruct (genesis_tables _ _ _ _ E1 E2 E3) as [[C1 C2 C3 _ _ _ _ _] Hdef]. apply bind_ok in E as (e4 & (_ & _ & ->)%insert_row & E).
  apply bind_ok in E as (e5 & ->%genesis_features_written & E); [|done].
  apply bind_ok in E as (e6 & E6 & E). apply bind_ok in E as (e7 & E7 & E). by eapply log_first; [| | |exact E6|exact E7|exact E|..].
Qed.

(** Every writer keeps the log and takes the next version. *)
Lemma append_log request staged base_head base head commit_id snapshot_id now d result d' :
  append request staged base_head base head commit_id snapshot_id now d = Ok (result, d') -> log_ok d -> log_ok d'.
Proof.
  unfold append. intros (logical & _ & E)%bind_ok Hlog. apply bind_unit in E as [_ E].
  apply bind_ok in E as (tip & _ & E). apply bind_reject in E as [_ E]. apply bind_unit in E as [_ E]. apply bind_unit in E as [_ E].
  apply bind_ok in E as ([[[commit object] input] res] & _ & E). apply bind_ok in E as (d1 & Hmutate & E).
  unfold Database.commit in E. apply bind_ok in E as (d2 & Hcommit & [= _ <-]). apply bind_unit in Hcommit as [_ [= <-]]. by eapply mutate_append_log.
Qed.
Lemma transact_log (requirement_debug : Requirement -> string) request hash head commit_id now d result d' : h_table_version head = table_version d ->
  transact requirement_debug request hash head commit_id now d = Ok (result, d') -> log_ok d -> log_ok d'.
Proof.
  unfold transact. intros Hhead (results & _ & E)%bind_ok Hlog. apply bind_ok in E as ([[commit [uri body]] durable] & Hbuild & E).
  apply bind_ok in E as (d1 & Hmutate & E). unfold Database.commit in E. apply bind_ok in E as (d2 & Hc & [= _ <-]). apply bind_unit in Hc as [_ [= <-]].
  assert (sc_table_version commit = table_version d + 1) as Hnext; [|by eapply mutate_metadata_log].
  unfold build_transaction in Hbuild. apply bind_ok in Hbuild as (n & [-> _]%ok_or_ok%try_uint_some & Hbuild).
  apply bind_ok in Hbuild as (rv & _ & Hbuild). apply bind_ok in Hbuild as (c & Hcommit & Hbuild). do 3 (apply bind_ok in Hbuild as (? & _ & Hbuild)).
  injection Hbuild as <- _ _ _. unfold transaction_commit in Hcommit. do 3 (apply bind_ok in Hcommit as (? & _ & Hcommit)). injection Hcommit as <-. cbn. lia.
Qed.
Lemma reachable_log `{!CanonicalReads} (requirement_debug : Requirement -> string) d : reachable requirement_debug d -> log_ok d.
Proof.
  induction 1 as [input d E|d request staged bh base head cid sid now result d' _ IH _ _ E|d request hash head cid now result d' _ IH Hhead E].
  - by eapply genesis_log.
  - by eapply append_log.
  - by eapply transact_log.
Qed.
End log.

(** ** The checks *)

(** [SELECT feature_name ..] of the genesis rows *)
Definition feature_names : list string := ["otmp.core.v2"; "otmp.data.parquet.v1"; "otmp.metadata.sqlite3-cow.v1"; "otmp.refs.v1"].
Lemma genesis_feature_names requirement d : requirement = "reader" \/ requirement = "writer" -> db_features d = genesis_features ->
  feature_rows d requirement = feature_names.
Proof. intros Hr E. unfold feature_rows. rewrite E. destruct Hr as [-> | ->]; vm_compute; reflexivity. Qed.

Section checks.
Context `{HexCrate, Sha2Crate, SqlEngine, SerdeJson} (d : Db) (Hlog : log_ok d).

Lemma log_contiguous : contiguous_commits (table_version d) d = true.
Proof.
  unfold contiguous_commits. pose proof (lo_positive _ Hlog) as Hpos. rewrite (by_key_keys _ (table_version d + 1)) by apply Hlog.
  rewrite !andb_true_iff, Z.eqb_eq, !bool_decide_eq_true. split_and!.
  - unfold len. rewrite length_seqZ. lia.
  - rewrite seqZ_cons by lia. done.
  - rewrite last_lookup, length_seqZ, lookup_seqZ_lt by lia. f_equal. lia.
Qed.
Lemma log_unpaired : some_row (unpaired_commit d) (db_commits d) = false.
Proof. apply some_row_false. intros v c. by apply Hlog. Qed.

(** The row of the table names the last commit, so a head that agrees with the one
    agrees with the other, but for the URI. *)
Lemma last_commit_agrees m expected : db_meta d = Some m -> m_semantic_state m = sha_bytes (ei_semantic_state expected) ->
  m_last_commit_id m = id_bytes (ei_commit_id expected) -> m_last_commit_sha256 m = sha_bytes (ei_commit_hash expected) ->
  last_commit_matches expected (table_version d) d = true <-> k_object_uri <$> db_commits d !! table_version d = Some (ei_commit_uri expected).
Proof.
  intros Hm Hs Hi Hh. destruct (lo_last _ Hlog m Hm) as (c & Hc & E1 & E2 & E3). unfold last_commit_matches, table_version. rewrite Hm. cbn [from_option].
  rewrite Hc, E1, E2, E3, Hs, Hi, Hh, !andb_true_iff, !bool_decide_eq_true. cbn. split; [intros (((_ & _) & ->) & _); done|by intros [= ->]].
Qed.
Lemma log_commits_valid expected : ei_table_version expected = table_version d ->
  validate_commits expected d = Ok tt <->
  table_version d < 2 ^ 63 - 1 /\ last_commit_matches expected (table_version d) d = true /\
    previous_state (table_version d) d = Ok (ei_previous_semantic_state expected).
Proof.
  intros Hv. unfold validate_commits, sqlite_i64. rewrite Hv. destruct (Z.ltb_spec (table_version d) (2 ^ 63)) as [Hlt|]; [|split; [done|lia]].
  cbn [ok_or]. cbn [mbind result_bind]. rewrite !bind_reject, log_contiguous, orb_false_r, negb_false_iff, Z.eqb_neq, bind_ok.
  setoid_rewrite reject_ok. setoid_rewrite negb_false_iff. split.
  - intros (Hlast & _ & Hmax & previous & Hp & ->%bool_decide_eq_true). split_and!; [lia|done|done].
  - intros (Hmax & Hlast & Hp). split_and!; [done|apply log_unpaired|lia|]. eexists. split; [exact Hp|]. by apply bool_decide_eq_true.
Qed.
End checks.
