(* ===== verification/HistoryValid.v ===== *)
(** The versions of an image: what snapshots, refs and live rows say of the commits
    that wrote them, kept by every writer, and why the checks of an image
    (otmp/src/image.rs, [validate]) accept what the writers make. *)
From S2P Require Import Prelude Bytes Errors Values Scalars Cbor CanonicalJson Hashes Schema PageTree Objects Storage Publication Candidate.
From S2P Require Import ByteArray Database History SchemaRows Transactions Append RelationalImage DatabaseFacts HistoryFacts TransactionFacts.
From S2P Require Import FileOrder TableState AppendFacts TransactState TableHistory CommitLog.

(** ** The invariant *)

(** A file of the profile: Parquet data, not partitioned, not sorted, with a hash, and
    with a descriptor that the checks accept *)
Definition profile_file `{Sha2Crate} (f : FileRow) : Prop :=
  validate_descriptor f = Ok tt /\
  f_kind f = "data" /\ f_format f = "parquet" /\ f_object_identity f = None /\ f_partition_spec_id f = 0 /\ f_sort_order_id f = Some 0 /\
  is_Some (f_sha256 f).

(** Snapshots are appends of distinct versions that fall along parents; refs were
    changed after they were created; main is a branch of the first image; a live row
    carries the snapshot that added its file and that snapshot's number. [v] bounds
    the versions. *)
Record versions_ok `{Sha2Crate} (v : Z) (d : Db) : Prop := {
  vo_snapshot : forall id s, db_snapshots d !! id = Some s -> 1 <= s_version s <= v /\ s_operation s = "append";
  vo_distinct : forall id1 id2 s1 s2, db_snapshots d !! id1 = Some s1 -> db_snapshots d !! id2 = Some s2 -> s_version s1 = s_version s2 -> id1 = id2;
  vo_parent : forall id s p sp, db_snapshots d !! id = Some s -> s_parent s = Some p -> db_snapshots d !! p = Some sp -> s_version sp < s_version s;
  vo_ref : forall n r, db_refs d !! n = Some r -> ref_checks r = true /\ r_updated_version r <= v;
  vo_main : exists r, db_refs d !! "main" = Some r /\ r_type r = "branch" /\ r_created_version r = 0;
  vo_file : forall id f, db_files d !! id = Some f -> profile_file f;
  vo_live : forall n f l, db_live d !! (n, f) = Some l -> exists s, (l_added_snapshot l, f, "add") ∈ db_changes d /\
    db_snapshots d !! l_added_snapshot l = Some s /\ l_data_sequence l = s_sequence s /\ l_file_sequence l = s_sequence s }.

Section statements.
Context `{HexCrate, Sha2Crate, SqlEngine, SerdeJson}.

Lemma versions_core v d d' : same_core d d' -> versions_ok v d -> versions_ok v d'.
Proof. intros [E1 E2 E3 E4 E5 _] [A1 A2 A3 A4 A5 A6 A7]. split; rewrite ?E1, ?E2, ?E3, ?E4, ?E5; done. Qed.
Lemma versions_later v w d : v <= w -> versions_ok v d -> versions_ok w d.
Proof.
  intros Hvw [A1 A2 A3 A4 A5 A6 A7]. split; try done.
  - intros id s [Hs ?]%A1. split; [lia|done].
  - intros n r [? ?]%A4. split; [done|lia].
Qed.

Lemma versions_snapshot v id s d d' : (forall y sy p, db_snapshots d !! y = Some sy -> s_parent sy = Some p -> is_Some (db_snapshots d !! p)) ->
  s_version s = v + 1 -> s_operation s = "append" -> 0 <= v -> s_parent s <> Some id ->
  insert_snapshot id s d = Ok d' -> versions_ok v d -> versions_ok (v + 1) d'.
Proof.
  intros Hclosed Hv Ho Hpos Hself. unfold insert_snapshot. intros (_ & Hnew & ->)%insert_row [A1 A2 A3 A4 A5 A6 A7]. split; cbn; try done.
  - intros y sy [[<- <-]|[_ Hy]]%lookup_insert_Some; [split; [lia|done]|]. destruct (A1 _ _ Hy). split; [lia|done].
  - intros y1 y2 s1 s2 [[<- <-]|[_ Y1]]%lookup_insert_Some [[<- <-]|[_ Y2]]%lookup_insert_Some E; [done| | |by eapply A2].
    + destruct (A1 _ _ Y2). lia.
    + destruct (A1 _ _ Y1). lia.
  - intros y sy p sp Hy Hp [[<- <-]|[Hne Hsp]]%lookup_insert_Some.
    + apply lookup_insert_Some in Hy as [[<- <-]|[_ Hy]]; [done|]. destruct (Hclosed _ _ _ Hy Hp) as [? ?]. congruence.
    + apply lookup_insert_Some in Hy as [[<- <-]|[_ Hy]]; [|by eapply A3]. destruct (A1 _ _ Hsp). lia.
  - intros n r [? ?]%A4. split; [done|lia].
  - intros n f l (x & Hc & Hx & Hrest)%A7. exists x. split; [done|]. split; [|done]. rewrite lookup_insert_ne; [done|]. intros E. rewrite <- E in Hx. congruence.
Qed.
Lemma versions_file v id f d d' : profile_file f -> insert_file id f d = Ok d' -> versions_ok v d -> versions_ok v d'.
Proof.
  intros Hf. unfold insert_file. intros (_ & _ & ->)%insert_row [A1 A2 A3 A4 A5 A6 A7]. split; cbn; try done.
  intros y g [[<- <-]|[_ Hy]]%lookup_insert_Some; [done|by eapply A6].
Qed.
Lemma versions_change v s f kind d d' : insert_change s f kind d = Ok d' -> versions_ok v d -> versions_ok v d'.
Proof.
  unfold insert_change. intros [_ [= <-]]%bind_unit [A1 A2 A3 A4 A5 A6 A7]. split; cbn; try done.
  intros n x l (y & Hc & Hrest)%A7. exists y. split; [|done]. set_solver.
Qed.
Lemma versions_live v name f l s d d' : (l_added_snapshot l, f, "add") ∈ db_changes d -> db_snapshots d !! l_added_snapshot l = Some s ->
  l_data_sequence l = s_sequence s -> l_file_sequence l = s_sequence s -> insert_live name f l d = Ok d' -> versions_ok v d -> versions_ok v d'.
Proof.
  intros Hc Hs Hd Hf. unfold insert_live. intros (_ & _ & ->)%insert_row [A1 A2 A3 A4 A5 A6 A7]. split; cbn; try done.
  intros n x k [[[= <- <-] <-]|[_ Hk]]%lookup_insert_Some; [by exists s|by eapply A7].
Qed.
Lemma versions_delete_live v name d d' : delete_live name d = Ok d' -> versions_ok v d -> versions_ok v d'.
Proof.
  unfold delete_live. intros [= <-] [A1 A2 A3 A4 A5 A6 A7]. split; cbn; try done.
  intros n x k [Hk _]%map_lookup_filter_Some. by eapply A7.
Qed.
Lemma versions_insert_ref v name r d d' : r_updated_version r <= v -> insert_ref name r d = Ok d' -> versions_ok v d -> versions_ok v d'.
Proof.
  intros Hr. unfold insert_ref. intros (Hc & Hnew & ->)%insert_row [A1 A2 A3 A4 A5 A6 A7]. split; cbn; try done.
  - intros n x [[<- <-]|[_ Hx]]%lookup_insert_Some; [done|by eapply A4].
  - destruct A5 as (x & Hx & Hrest). exists x. split; [|done]. rewrite lookup_insert_ne; [done|]. intros ->. congruence.
Qed.
Lemma versions_update_ref v name p snapshot n d d' : update_ref name p snapshot v d = Ok (n, d') -> versions_ok v d -> versions_ok v d'.
Proof.
  intros [[_ ->]|(r & _ & Hr & _ & Hc & ->)]%update_ref_ok; [done|]. intros [A1 A2 A3 A4 A5 A6 A7]. split; cbn; try done.
  - intros m x [[<- <-]|[_ Hx]]%lookup_insert_Some; [|by eapply A4]. split; [done|]. cbn. lia.
  - destruct A5 as (x & Hx & Ht & Hv). destruct (decide (name = "main")) as [->|Hne].
    + assert (x = r) as -> by congruence. eexists. rewrite lookup_insert_eq. done.
    + exists x. by rewrite lookup_insert_ne.
Qed.
Lemma versions_delete_ref v name d d' : name <> "main" -> delete_ref name d = Ok d' -> versions_ok v d -> versions_ok v d'.
Proof.
  intros Hne. unfold delete_ref. intros [_ [= <-]]%bind_unit [A1 A2 A3 A4 A5 A6 A7]. split; cbn; try done.
  - intros n r [_ Hr]%lookup_delete_Some. by eapply A4.
  - destruct A5 as (x & Hx & Hrest). exists x. by rewrite lookup_delete_ne.
Qed.

Lemma versions_meta v f d d' : update_meta f d = Ok d' -> versions_ok v d -> versions_ok v d'.
Proof. intros [[_ ->]|(m & _ & _ & ->)]%update_meta_ok; [done|]. intros [A1 A2 A3 A4 A5 A6 A7]. by split. Qed.

Lemma versions_fold {A} v (f : Db -> A -> rresult Db) l : (forall d a d', a ∈ l -> f d a = Ok d' -> versions_ok v d -> versions_ok v d') ->
  forall d d', try_fold f d l = Ok d' -> versions_ok v d -> versions_ok v d'.
Proof. intros Hf d d' E Hd. eapply (try_fold_inv (versions_ok v)); [exact Hd| |exact E]. intros s a s' Ha Hs Hf'. by eapply Hf. Qed.
End statements.

(** ** Metadata transactions *)

Section transact.
Context `{HexCrate, Sha2Crate, SqlEngine, SerdeJson} `{FromJson (list cvalue)}
  `{ToJson LogicalType, FromJson LogicalType, ToJson scalar, FromJson scalar} `{ToJson cvalue}.

Lemma versions_live_of v name d0 d i d' : insert_live_of name d i = Ok d' -> versions_ok v d -> same_files d0 d -> versions_ok v d' /\ same_files d0 d'.
Proof.
  unfold insert_live_of. destruct (db_snapshots d !! id_bytes i) as [s|] eqn:Hs; [|by intros [= <-]]. intros E Hv Hd.
  apply (try_fold_inv (fun e => versions_ok v e /\ same_files d e)) in E as [? ?]; [by split; [|etrans]|by split|].
  intros e f e' Hf [He Hde] Ef. split; [|etrans; [exact Hde|by apply insert_live_added in Ef as []]].
  eapply versions_live; [| | | |exact Ef|exact He]; cbn; try done; [|by rewrite (sf_snapshots _ _ Hde)].
  rewrite (sf_changes _ _ Hde). by apply added_file in Hf.
Qed.
Lemma versions_materialize v name tip d d' : materialize_branch name tip d = Ok d' -> versions_ok v d -> versions_ok v d'.
Proof.
  unfold materialize_branch. intros (e & E1 & E)%bind_ok Hv. apply bind_ok in E as (chain & _ & E). apply (versions_delete_live v) in E1; [|done].
  apply (try_fold_inv (fun x => versions_ok v x /\ same_files e x)) in E as [? _]; [done|by split|].
  intros x i y _ [Hx Hex] Ex. by eapply versions_live_of.
Qed.

Lemma versions_operation v d o d' : (forall i, o <> DropRef i "main") -> apply_operation v d o = Ok d' -> versions_ok v d -> versions_ok v d'.
Proof.
  intros Hmain E. destruct o as [i updates removals|i name t tip|i name tip|i name|i schema|i schema]; unfold apply_operation in E.
  - apply versions_core. by eapply (set_properties_core v updates removals).
  - apply bind_ok in E as (e & E1 & E). intros Hv. apply (versions_insert_ref v) in E1; [|cbn; lia|done].
    case_bool_decide; [by eapply versions_materialize|by injection E as <-].
  - apply bind_ok in E as ([n e] & E1 & E). intros Hv. apply versions_update_ref in E1; [|done]. by eapply versions_materialize.
  - apply bind_ok in E as (e & E1 & E2). intros Hv. apply (versions_delete_live v) in E1; [|done]. eapply versions_delete_ref; [|exact E2|done].
    intros ->. by apply (Hmain i).
  - apply versions_core. by eapply insert_schema_core.
  - apply versions_core. apply bind_ok in E as (x & _ & E). by eapply update_meta_core; [|exact E].
Qed.

Context `{ToJson SemanticCommit, ToJson (list cvalue), ToJson Requirement, ToJson OperationRequest, ToJson DurableResult} (requirement_debug : Requirement -> string).

Lemma prepared_keeps_main d request results : prepare_operations requirement_debug d request = Ok results ->
  forall o, o ∈ tr_operations request -> forall i, o <> DropRef i "main".
Proof.
  unfold prepare_operations. intros [_ E]%bind_reject o Ho i ->. apply bind_unit in E as [_ E]. apply bind_ok in E as (p & E & _).
  destruct (prepare_each _ _ _ _ _ E _ Ho) as (q & q' & Hq). unfold prepare_operation in Hq. by apply bind_reject in Hq as [_ Hq].
Qed.

Lemma update_meta_version (f : MetaRow -> MetaRow) v d d' : is_Some (db_meta d) -> (forall m, m_table_version (f m) = v) ->
  update_meta f d = Ok d' -> table_version d' = v.
Proof. intros [m Hm] Hf [[Hn _]|(m' & _ & _ & ->)]%update_meta_ok; [congruence|]. apply Hf. Qed.

Lemma mutate_metadata_versions commit uri ops d d' : table_ok d -> is_Some (db_meta d) -> (forall o, o ∈ ops -> op_fits d o) -> NoDup (omap touched_ref ops) ->
  (forall o, o ∈ ops -> forall i, o <> DropRef i "main") -> mutate_metadata commit uri ops d = Ok d' -> versions_ok (sc_table_version commit) d ->
  versions_ok (sc_table_version commit) d' /\ table_version d' = sc_table_version commit /\ sc_table_version commit < 2 ^ 63.
Proof.
  intros Hok Hmeta Hfit Hnd Hmain. unfold mutate_metadata, apply_operations. intros (e & He & E)%bind_ok Hv.
  apply bind_ok in He as (v & Hbound & He). apply ok_or_ok in Hbound. destruct (Z.ltb_spec (sc_table_version commit) (2 ^ 63)) as [Hlt|]; [|done].
  injection Hbound as <-. destruct (apply_operations_effect _ _ _ _ Hok Hfit Hnd He) as (_ & Hs & _ & _).
  apply (versions_fold (sc_table_version commit)) in He; [|by intros x o y Ho; apply versions_operation, Hmain|done].
  apply bind_ok in E as (b & _ & E). apply bind_ok in E as (w & [-> _]%sqlite_i64_ok & E). do 4 (apply bind_ok in E as (? & _ & E)).
  apply bind_ok in E as (d1 & E1%insert_commit_core & E). apply bind_ok in E as (d2 & E2%insert_idempotency_core & E).
  assert (same_core e d2) as Hcore by (by etrans). assert (is_Some (db_meta d2)) as Hm2 by (by apply (sf_meta _ _ (same_core_files _ _ Hcore)), (sf_meta _ _ Hs)).
  split; [|split; [|done]].
  - eapply versions_core; [|exact He]. etrans; [exact Hcore|]. by eapply update_meta_core; [|exact E].
  - by eapply update_meta_version; [exact Hm2| |exact E].
Qed.
End transact.

(** ** Appends and genesis *)

Section append.
Context `{HexCrate, Sha2Crate, SqlEngine, SerdeJson} `{FromJson (list cvalue)}
  `{ToJson LogicalType, FromJson LogicalType, ToJson scalar, FromJson scalar}
  `{ToJson SemanticCommit, ToJson cvalue, ToJson (list cvalue), ToJson LogicalFile, ToJson LogicalIntent,
    ToJson (list (Z * scalar)), ToJson (list LogicalMetric), ToJson AppendResult}.

Definition unpartitioned (f : ImageFile) : Prop := if_partition_spec_id f = 0 /\ if_sort_order_id f = 0 /\
  relative_uri_from_str (if_uri f) = Ok (MkUri (if_uri f)) /\ if_partition_values_cbor f = encode_partition_tuple [] /\
  if_partition_hash f = partition_hash 0 (encode_partition_tuple []).

Lemma insert_file_hash input id f d d' : insert_file id (new_row input f) d = Ok d' -> len (sha_bytes (if_partition_hash f)) = 32.
Proof.
  unfold insert_file. intros ([Hc _]%andb_true_iff & _ & _)%insert_row. unfold file_checks in Hc. rewrite !andb_true_iff in Hc.
  destruct Hc as ((((((_ & Hb) & _) & _) & _) & _) & _). by apply Z.eqb_eq in Hb.
Qed.
Lemma new_row_descriptor input f : unpartitioned f -> len (sha_bytes (if_partition_hash f)) = 32 -> validate_descriptor (new_row input f) = Ok tt.
Proof.
  intros (Hp & _ & Hu & Hc & Hh) Hl. unfold validate_descriptor, hash_from_blob.
  cbn [new_row f_uri f_partition_values f_partition_spec_id f_partition_hash]. rewrite Hu, Hp, Hl, Hc, Hh. change (try_uint 32 0) with (Some 0).
  assert (decode_partition_tuple (encode_partition_tuple []) = Ok []) as -> by (vm_compute; reflexivity).
  cbn [of_protocol map_err mbind result_bind ok_or Z.eqb negb orb length reject].
  generalize (partition_hash 0 (encode_partition_tuple [])) as h. intros []. rewrite bool_decide_eq_true_2 by done. cbn. by rewrite bool_decide_eq_true_2.
Qed.

Lemma versions_append_file v input s f d d' : unpartitioned f -> db_snapshots d !! id_bytes (ai_snapshot_id input) = Some s ->
  s_sequence s = ai_sequence_number input -> append_file input d f = Ok d' -> versions_ok v d -> versions_ok v d' /\ db_snapshots d' = db_snapshots d.
Proof.
  intros Hunp Hs Hq. unfold append_file. intros (size & [-> _]%sqlite_i64_ok & E)%bind_ok Hv. apply bind_ok in E as (records & [-> _]%sqlite_i64_ok & E).
  apply bind_ok in E as (sequence & [-> _]%sqlite_i64_ok & E). apply bind_ok in E as (version & [-> _]%sqlite_i64_ok & E).
  apply bind_ok in E as (d1 & E1 & E). apply bind_ok in E as (d2 & E2 & E). apply bind_ok in E as (d3 & E3 & E).
  apply (try_fold_same_core (append_metric (if_file_id f)) (append_metric_core (if_file_id f))) in E2.
  change {| f_kind := _ |} with (new_row input f) in E1.
  assert (len (sha_bytes (if_partition_hash f)) = 32) as Hlen by (by eapply insert_file_hash).
  assert (profile_file (new_row input f)) as Hprofile
    by (split; [by apply new_row_descriptor|destruct Hunp as (Hp & Ho & _)]; split_and!; cbn; [done|by destruct (if_format f)|done|done|by rewrite Ho|by eexists]).
  pose proof (versions_file v _ _ _ _ Hprofile E1 Hv) as Hv1.
  pose proof (versions_core v _ _ E2 Hv1) as Hv2. pose proof (versions_change v _ _ _ _ _ E3 Hv2) as Hv3.
  apply insert_row in E1 as (_ & _ & ->). unfold insert_change in E3. apply bind_unit in E3 as [_ [= <-]].
  assert (db_snapshots d2 = db_snapshots d) as Hsnap by by rewrite (sc_snapshots _ _ E2).
  split; [|by apply insert_row in E as (_ & _ & ->)].
  eapply versions_live; [| | | |exact E|exact Hv3]; cbn; [set_solver|by rewrite Hsnap|done|done].
Qed.

Lemma mutate_append_versions input d d' : table_ok d -> Forall unpartitioned (ai_files input) ->
  ai_parent_snapshot_id input <> Some (ai_snapshot_id input) -> 0 <= table_version d -> mutate_append input d = Ok d' ->
  versions_ok (table_version d) d -> ai_table_version input = table_version d + 1 /\ versions_ok (ai_table_version input) d'.
Proof.
  intros Hok Hf Hself Hpos. unfold mutate_append. intros (m & Hm%row_ok & E)%bind_ok Hv. apply bind_reject in E as [Hver E].
  assert (ai_table_version input = table_version d + 1) as Hnext.
  { bool_to_prop. apply bind_Some in Hver as (n & Hn & [-> _]%try_uint_some). unfold table_version. rewrite Hm. cbn. destruct (_ <? _); by simplify_eq. }
  split; [done|]. rewrite Hnext. apply bind_ok in E as (q & [-> Hq]%sqlite_i64_ok & E). apply bind_ok in E as (v & [-> Hvb]%sqlite_i64_ok & E).
  apply bind_ok in E as (summary & Hsum & E). apply bind_ok in E as (d1 & E1 & E). apply bind_ok in E as (d2 & E2 & E).
  apply bind_ok in E as (d3 & E3 & E). apply bind_ok in E as ([n d4] & E4 & E). apply bind_reject in E as [_ E].
  apply bind_ok in E as (d5 & E5%insert_commit_core & E). apply bind_ok in E as (d6 & E6%insert_idempotency_core & E).
  apply (try_fold_same_core (append_summary _) (append_summary_core _)) in E2.
  change {| s_parent := _ |} with (new_snapshot input (m_current_schema_id m) summary) in E1. set (s := new_snapshot _ _ _) in *.
  assert (versions_ok (table_version d + 1) d1) as Hv1.
  { eapply (versions_snapshot _ _ s); [apply (closed_rows d Hok)|exact Hnext|done|done| |exact E1|done]. cbn. intros Hp. apply Hself. by apply (inj (fmap id_bytes)). }
  assert (versions_ok (table_version d + 1) d2) as Hv2.
  { by eapply versions_core. }
  apply insert_row in E1 as (_ & _ & ->).
  assert (db_snapshots d2 !! id_bytes (ai_snapshot_id input) = Some s) as Hs by (rewrite (sc_snapshots _ _ E2); cbn; by rewrite lookup_insert_eq).
  apply (try_fold_inv (fun x => versions_ok (table_version d + 1) x /\ db_snapshots x = db_snapshots d2)) in E3 as [Hv3 _]; [|by split|].
  2: { intros x f y Hin [Hx Hxs] Exy. rewrite Forall_forall in Hf. rewrite <- Hxs in Hs. rewrite <- Hxs.
       by apply (versions_append_file _ _ s f x y (Hf f Hin) Hs eq_refl Exy). }
  rewrite Hnext in E4. apply versions_update_ref in E4; [|done].
  eapply versions_meta; [exact E|]. eapply versions_core; [|exact E4]. by etrans.
Qed.

(** The parent of the snapshot that an append inserts is not that snapshot. *)
Lemma build_append_parent request staged hash head d commit_id snapshot_id now commit object input result s r d' : table_ok d ->
  appended input s r d d' -> build_append request staged hash head d commit_id snapshot_id now = Ok (commit, object, input, result) ->
  ai_parent_snapshot_id input <> Some (ai_snapshot_id input).
Proof.
  intros Hok Ha Hb Hself. apply build_append_ok in Hb as (m & kind & parent & files & metadata & _ & _ & Hr & _ & _ & Ht & _ & Hpar & _).
  apply ref_row_id in Hr as (r' & Hr' & Hsnap & _). rewrite <- Hpar, Hself in Hsnap. cbn in Hsnap.
  destruct (proj2 (to_ref _ Hok _ _ Hr') _ Hsnap) as [o Ho]. pose proof (an_fresh _ _ _ _ _ Ha). congruence.
Qed.

Lemma image_file_unpartitioned p f : image_file p = Ok f -> staged_ok p.2 -> af_partition_spec_id p.1 = 0 -> af_sort_order_id p.1 = 0 ->
  af_partition_values p.1 = [] -> unpartitioned f.
Proof. destruct p as [logical staged]. cbn. intros (ms & _ & E)%bind_ok [_ Hu] Hp Ho Hv.
  apply bind_ok in E as (metadata & _ & [= <-]). unfold unpartitioned. cbn. rewrite Hp, Hv, Hu. by destruct (vs_uri staged).
Qed.
Lemma validate_request_unpartitioned request d : validate_request request d = Ok tt ->
  forall f, f ∈ ar_files request -> af_partition_spec_id f = 0 /\ af_sort_order_id f = 0 /\ af_partition_values f = [].
Proof.
  unfold validate_request. intros [_ E]%bind_reject f Hf. apply bind_reject in E as [_ E]. apply bind_ok in E as (r & _ & E).
  apply bind_reject in E as [_ E]. apply bind_ok in E as ([[current main] last] & _ & E). apply bind_ok in E as (types & _ & E).
  apply bind_reject in E as [_ E]. apply bind_ok in E as (entries & E & _). revert entries E. generalize (@nil bytes) as seen.
  induction (ar_files request) as [|g fs IH]; intros seen entries E; [by apply not_elem_of_nil in Hf|]. cbn [try_fold] in E.
  apply bind_ok in E as (seen' & Eg & E). apply elem_of_cons in Hf as [->|Hf]; [|by eapply IH].
  unfold validate_append_file in Eg. apply bind_reject in Eg as [Hc _]. rewrite !orb_false_iff, !negb_false_iff, bool_decide_eq_true in Hc.
  split_and!; [lia|lia|apply Hc].
Qed.

(** ** What a step makes of the versions *)

Definition table_versions_ok (d : Db) : Prop :=
  versions_ok (table_version d) d /\ 0 <= table_version d < 2 ^ 63 /\ is_Some (db_meta d) /\ Z.of_nat (size (db_snapshots d)) = last_sequence d.

Lemma append_versions `{!CanonicalReads} request staged base_head base head commit_id snapshot_id now d result d' : table_ok d -> id_valid snapshot_id ->
  Forall staged_ok staged -> append request staged base_head base head commit_id snapshot_id now d = Ok (result, d') ->
  table_versions_ok d -> table_versions_ok d'.
Proof.
  intros Hok Hid Hst E (Hv & Hb & _ & Hsize). pose proof E as E0. unfold append in E. apply bind_ok in E as (logical & _ & E). apply bind_unit in E as [_ E].
  apply bind_ok in E as (tip & _ & E). apply bind_reject in E as [_ E]. apply bind_unit in E as [_ E]. apply bind_unit in E as [Hreq E].
  apply bind_ok in E as ([[[commit object] input] res] & Hbuild & E). apply bind_ok in E as (d1 & Hmutate & E).
  unfold Database.commit in E. apply bind_ok in E as (d2 & Hcommit & [= -> <-]). apply bind_unit in Hcommit as [_ [= <-]].
  pose proof (build_append_ok _ _ _ _ _ _ _ _ _ _ _ _ Hbuild) as (m & kind & parent & files & metadata & Hm & _ & _ & _ & Hfiles & _ & _ & _ & Hseq & Hf & _).
  destruct (image_files_of _ _ Hfiles) as [Hfok _].
  { apply Forall_forall. intros [a v] Hin. apply elem_of_zip_r in Hin. rewrite Forall_forall in Hst. by apply Hst. }
  subst files. destruct (mutate_append_ok _ _ _ Hfok Hmutate) as (m' & summary & r & _ & _ & Ha & _ & Hver).
  assert (Forall unpartitioned (ai_files input)) as Hunp.
  { apply collect_ok in Hfiles. apply Forall_forall. intros f Hin. apply list_elem_of_lookup in Hin as [i Hi].
    destruct (Forall2_lookup_r _ _ _ _ _ Hfiles Hi) as ([a v] & Hp%list_elem_of_lookup_2 & Hpf).
    destruct (validate_request_unpartitioned _ _ Hreq a (elem_of_zip_l _ _ _ _ Hp)) as (? & ? & ?). eapply image_file_unpartitioned; try done.
    rewrite Forall_forall in Hst. apply Hst. by eapply elem_of_zip_r. }
  pose proof (build_append_parent _ _ _ _ _ _ _ _ _ _ _ _ _ _ _ Hok Ha Hbuild) as Hself.
  destruct (mutate_append_versions input d d1 Hok Hunp Hself (proj1 Hb) Hmutate Hv) as [Hnext Hv'].
  pose proof (an_version _ _ _ _ _ Ha) as Hvd. split_and!; [by rewrite Hvd|lia|lia| |].
  - destruct (db_meta d1) eqn:Em; [by eexists|]. unfold table_version in Hvd. rewrite Em in Hvd. cbn in Hvd. lia.
  - rewrite (an_snapshots _ _ _ _ _ Ha), (an_last _ _ _ _ _ Ha), Hseq, map_size_insert_None by apply Ha. lia.
Qed.

Lemma genesis_versions input d : genesis input = Ok d -> table_versions_ok d.
Proof.
  unfold genesis. intros (u & _ & E)%bind_ok. apply bind_ok in E as (d1 & E & Hc). unfold Database.commit in Hc. apply bind_unit in Hc as [_ [= <-]].
  unfold mutate_genesis in E. apply bind_ok in E as (e1 & E1%insert_schema_core & E). apply bind_ok in E as (e2 & E2%insert_partition_spec_core & E).
  apply bind_ok in E as (e3 & E3%insert_sort_order_core & E). apply bind_ok in E as (e4 & (_ & _ & ->)%insert_row & E).
  apply bind_ok in E as (e5 & E5 & E). apply bind_ok in E as (e6 & E6%insert_commit_core & E). apply bind_ok in E as (e7 & E7%insert_idempotency_core & E).
  assert (same_core empty_db e3) as [C1 C2 C3 C4 C5 _] by (etrans; [exact E1|]; by etrans).
  apply (try_fold_same_core (fun d feature => insert_feature feature "both" 0 d)) in E5; [|intros x y z; apply insert_feature_core].
  match type of E5 with same_core ?x _ => set (e4 := x) in * end.
  assert (same_core e4 e7) as C7 by (etrans; [exact E5|]; by etrans).
  unfold insert_meta in E. apply bind_unit in E as [_ [= <-]].
  assert (versions_ok 0 e4) as Hv.
  { split; cbn; rewrite ?C1, ?C2, ?C3, ?C4, ?C5; cbn; try done.
    - intros n r [[<- <-]|[_ Hr]]%lookup_insert_Some; [by split|done].
    - eexists. rewrite lookup_insert_eq. done. }
  apply (versions_core _ _ _ C7) in Hv. split_and!; [|done|done|by eexists|].
  - destruct Hv as [A1 A2 A3 A4 A5 A6 A7]. by split.
  - cbn. rewrite (sc_snapshots _ _ C7). cbn. by rewrite C1.
Qed.
End append.

(** ** The checks *)

Lemma foldr_max_le l : (forall x : Z, x ∈ l -> x <= foldr Z.max 0 l) /\ 0 <= foldr Z.max 0 l.
Proof.
  induction l as [|y l [IH IH0]]; cbn [foldr]; [split; [by intros x ?%not_elem_of_nil|done]|]. split; [|lia].
  intros x [->|Hx%IH]%elem_of_cons; lia.
Qed.
(** Distinct numbers from 1 to their count reach it. *)
Lemma foldr_max_full l n : NoDup l -> (forall x, x ∈ l -> 1 <= x <= n) -> len l = n -> foldr Z.max 0 l = n.
Proof.
  intros Hnd Hl Hn. destruct (foldr_max_le l) as [Hge H0]. assert (foldr Z.max 0 l <= n) as Hle.
  { clear -Hl Hn. assert (0 <= n) by (unfold len in Hn; lia). clear Hn. induction l as [|x l IH]; cbn [foldr]; [lia|].
    pose proof (Hl x ltac:(left)). pose proof (IH ltac:(intros y Hy; apply Hl; by right)). lia. }
  destruct (Z.lt_ge_cases (foldr Z.max 0 l) n); [exfalso|lia]. set (m := foldr Z.max 0 l) in *.
  assert (l ⊆+ seqZ 1 m) as Hsub%submseteq_length by (apply NoDup_submseteq; [done|]; intros x Hx; apply elem_of_seqZ; pose proof (Hl x Hx); pose proof (Hge x Hx); lia).
  rewrite length_seqZ in Hsub. unfold len in Hn. lia.
Qed.

Lemma try_fold_all {E A} (f : A -> result E unit) l : (forall a, a ∈ l -> f a = Ok tt) -> try_fold (fun _ a => f a) tt l = Ok tt.
Proof. intros Hf. induction l as [|a l IH]; [done|]. cbn [try_fold]. rewrite Hf by left. apply IH. intros x Hx. apply Hf. by right. Qed.

Section checks.
Context `{HexCrate, Sha2Crate, SqlEngine, SerdeJson} (d : Db) (Hok : table_ok d) (Hvo : table_versions_ok d).

Lemma row_numbers_nodup (g : SnapshotRow -> Z) :
  (forall id1 id2 s1 s2, db_snapshots d !! id1 = Some s1 -> db_snapshots d !! id2 = Some s2 -> g s1 = g s2 -> id1 = id2) ->
  NoDup (map (fun kv => g kv.2) (map_to_list (db_snapshots d))).
Proof.
  intros Hg. apply NoDup_fmap_2_strong; [|apply NoDup_map_to_list]. intros [k1 s1] [k2 s2] R1%elem_of_map_to_list R2%elem_of_map_to_list E. cbn in E.
  assert (k1 = k2) as -> by (by eapply Hg). congruence.
Qed.
Lemma relational_history_valid : validate_relational_history d (table_version d) (last_sequence d) = Ok tt.
Proof.
  destruct Hvo as ([A1 A2 A3 A4 A5 _ _] & Hb & _ & Hsize). unfold validate_relational_history, sqlite_i64.
  rewrite (proj2 (Z.ltb_lt _ _)) by lia. cbn [ok_or mbind result_bind].
  assert (NoDup (sequences d)) as Hseq by apply (row_numbers_nodup s_sequence), Hok. pose proof (row_numbers_nodup s_version A2) as Hver.
  assert (len (sequences d) = last_sequence d) as Hlen by (unfold sequences; rewrite len_map; unfold len; by rewrite length_map_to_list).
  rewrite (foldr_max_full (sequences d) (last_sequence d)); [|done| |done].
  2: { intros x ([k s] & -> & Hs%elem_of_map_to_list)%list_elem_of_fmap. cbn. pose proof (sok_sequence _ _ _ (to_snapshot _ Hok _ _ Hs)). lia. }
  apply reject_ok. rewrite !orb_false_iff, !negb_false_iff. split_and!.
  - apply some_row_false. intros k s Hs. destruct (A1 _ _ Hs) as [? _]. pose proof (sok_sequence _ _ _ (to_snapshot _ Hok _ _ Hs)).
    rewrite !orb_false_iff, !Z.ltb_ge. lia.
  - by apply bool_decide_eq_true.
  - by apply bool_decide_eq_true.
  - by apply Z.eqb_eq.
  - apply Z.eqb_refl.
  - apply some_row_false. intros k s Hs. unfold bad_parent. destruct (s_parent s) as [p|] eqn:Hp; [|done].
    destruct (sok_parent _ _ _ (to_snapshot _ Hok _ _ Hs) _ Hp) as (sp & Hsp & Hlt). rewrite Hsp. pose proof (A3 _ _ _ _ Hs Hp Hsp).
    rewrite orb_false_iff, !Z.leb_gt. lia.
  - apply some_row_false. intros n r Hr. destruct (A4 _ _ Hr) as [Hc Hu]. unfold bad_ref. unfold ref_checks in Hc.
    rewrite !andb_true_iff in Hc. destruct Hc as (((_ & _) & Hcu) & Htag). rewrite !orb_false_iff, !Z.ltb_ge. split_and!; [lia|done|].
    destruct (r_snapshot r); [by rewrite andb_false_r|]. rewrite orb_true_iff in Htag. destruct Htag as [Htag|[? ?]%bool_decide_eq_true]; [|done].
    bool_to_prop. by rewrite Htag.
  - destruct A5 as (r & Hr & Ht & Hc). unfold main_exists. rewrite Hr, Hc. bool_to_prop. by rewrite Ht.
Qed.

Lemma one_creator s1 s2 f : (s1, f, "add") ∈ db_changes d -> (s2, f, "add") ∈ db_changes d -> s1 = s2.
Proof. intros (_ & _ & f1 & _ & F1 & <- & _)%(to_change _ Hok) (_ & _ & f2 & _ & F2 & <- & _)%(to_change _ Hok). congruence. Qed.
Lemma live_row_values n f l : db_live d !! (n, f) = Some l -> exists s, (l_added_snapshot l, f, "add") ∈ db_changes d /\
  db_snapshots d !! l_added_snapshot l = Some s /\ l_data_sequence l = s_sequence s /\ l_file_sequence l = s_sequence s.
Proof. apply Hvo. Qed.

Lemma additions_elem i x : x ∈ additions_of d i <-> exists s f, db_snapshots d !! id_bytes i = Some s /\
  (id_bytes i, f, "add") ∈ db_changes d /\ x = (f, id_bytes i, s_sequence s, s_sequence s).
Proof.
  unfold additions_of. destruct (db_snapshots d !! id_bytes i) as [s|]; [|split; [by intros ?%not_elem_of_nil|by intros (s & f & ? & _)]].
  rewrite list_elem_of_fmap. setoid_rewrite added_file. naive_solver.
Qed.
Lemma actual_elem n f s q1 q2 : (f, s, q1, q2) ∈ actual_membership d n <-> exists l, db_live d !! (n, f) = Some l /\
  l_added_snapshot l = s /\ l_data_sequence l = q1 /\ l_file_sequence l = q2.
Proof.
  unfold actual_membership. rewrite elem_of_list_to_set, list_elem_of_omap. split.
  - intros ([[n' f'] l] & Hl%elem_of_map_to_list & E). cbn in E. case_bool_decide; [|done]. simplify_eq. by exists l.
  - intros (l & Hl & <- & <- & <-). exists ((n, f), l). rewrite elem_of_map_to_list. split; [done|]. cbn. by rewrite bool_decide_eq_true_2.
Qed.
Lemma membership_valid n r : db_refs d !! n = Some r -> validate_membership d n r = Ok tt.
Proof.
  intros Hr. unfold validate_membership, expected_membership. change (bool_decide (r_type r = "branch")) with (is_branch r). destruct (is_branch r) eqn:Hb.
  - destruct (branch_snapshot d Hok n r Hr Hb) as (tip & chain & Hread & Htip & Hl & _).
    apply ref_row_id in Hread as (r' & _ & _ & _ & Hv). assert (transpose id_from_blob (r_snapshot r) = Ok tip) as ->.
    { rewrite <- Htip. destruct tip as [i|]; [|done]. cbn. by rewrite (proj2 (id_from_blob_ok _ i)) by (split; [done|by apply Hv]). }
    cbn [mbind result_bind]. rewrite (proj2 (ancestry_lineage d tip chain) Hl). cbn [mbind result_bind]. rewrite bool_decide_eq_true_2; [done|].
    apply set_eq. intros [[[f s] q1] q2]. rewrite actual_elem, elem_of_list_to_set, elem_of_concat_map. setoid_rewrite additions_elem. split.
    + intros (l & Hl' & <- & <- & <-). destruct (live_row_values _ _ _ Hl') as (s & Hc & Hs & -> & ->).
      destruct (proj1 (to_live _ Hok n f) ltac:(by eexists)) as (r0 & x & Hr0 & _ & Ha & Hx). assert (r0 = r) as -> by congruence.
      rewrite (one_creator _ _ _ Hx Hc) in Ha. rewrite <- Htip in Ha. apply (lineage_ancestor _ _ _ _ Hl) in Ha.
      apply list_elem_of_fmap in Ha as (i & Hi & Hin). exists i. split; [done|]. exists s, f. rewrite <- Hi. done.
    + intros (i & Hin & s' & f' & Hs & Hc & [= -> -> -> ->]). assert (ancestor (db_snapshots d) (r_snapshot r) (id_bytes i)) as Ha.
      { rewrite <- Htip. apply (lineage_ancestor _ _ _ _ Hl), list_elem_of_fmap. by exists i. }
      destruct (proj2 (to_live _ Hok n f')) as [l Hl']; [by exists r, (id_bytes i)|]. exists l. split; [done|].
      destruct (live_row_values _ _ _ Hl') as (s & Hc' & Hs' & -> & ->). pose proof (one_creator _ _ _ Hc Hc') as E. rewrite <- E in *.
      assert (s = s') as -> by congruence. done.
  - cbn [mbind result_bind]. rewrite bool_decide_eq_true_2; [done|]. apply set_eq. intros [[[f s] q1] q2]. rewrite actual_elem. split; [|set_solver].
    intros (l & Hl & _). destruct (proj1 (to_live _ Hok n f) ltac:(by eexists)) as (r0 & x & Hr0 & Hb0 & _). congruence.
Qed.

Lemma live_rows_valid : some_row (live_error d) (db_live d) = false.
Proof.
  apply some_row_false. intros [n f] l Hl. unfold live_error. destruct (live_row_values _ _ _ Hl) as (s & Hc & _). cbn [snd].
  destruct (to_change _ Hok _ _ _ Hc) as (_ & _ & frow & _ & Hf & _). rewrite orb_false_iff, !negb_false_iff. split; [|by apply bool_decide_eq_true].
  apply has_true. by eexists.
Qed.
Lemma profile_valid : unexpected_rows d = false.
Proof.
  destruct Hvo as ([A1 _ _ _ _ A6 _] & _). unfold unexpected_rows. rewrite !orb_false_iff. split_and!.
  - apply not_true_iff_false. intros ([[s f] k] & Hin & Hk)%existsb_exists. apply list_elem_of_In, elem_of_elements in Hin.
    apply (to_change _ Hok) in Hin as [-> _]. done.
  - apply some_row_false. intros id s [_ ->]%A1. done.
  - apply some_row_false. intros id f (_ & E1 & E2 & E3 & E4 & E5 & [h E6])%A6. rewrite E1, E2, E3, E4, E5, E6. done.
Qed.
Lemma refs_valid : some_row (fun _ r => negb (refers (r_snapshot r) (db_snapshots d))) (db_refs d) = false.
Proof.
  apply some_row_false. intros n r Hr. apply negb_false_iff. unfold refers. destruct (r_snapshot r) as [p|] eqn:Hp; [|done].
  apply has_true. by apply (to_ref _ Hok _ _ Hr).
Qed.
(** The descriptors of files pass, so what is left of them are the metrics. *)
Lemma descriptors_valid `{FromJson LogicalType} : validate_file_descriptors d = Ok tt <->
  try_fold (fun _ kv => validate_metric_row d kv.1 kv.2) tt (metrics_by_id d) = Ok tt.
Proof.
  unfold validate_file_descriptors. rewrite bind_unit. rewrite try_fold_all; [tauto|].
  intros [id f]. unfold files_by_id. rewrite merge_sort_Permutation. intros Hf%elem_of_map_to_list. destruct Hvo as ([_ _ _ _ _ A6 _] & _). by apply (A6 _ _ Hf).
Qed.
Lemma memberships_valid : try_fold (fun _ kv => validate_membership d kv.1 kv.2) tt (map_to_list (db_refs d)) = Ok tt.
Proof.
  apply try_fold_all. intros [n r] Hr%elem_of_map_to_list. by apply membership_valid.
Qed.
Lemma features_agree {T} `{ToJson T} (v : T) (r w : string) e :
  (reader ← canonical_string v; writer ← canonical_string v; reject (negb (bool_decide (reader = r)) || negb (bool_decide (writer = w))) e) = Ok tt <->
  canonical_string v = Ok r /\ canonical_string v = Ok w.
Proof.
  destruct (canonical_string v) as [s|]; cbn [mbind result_bind]; [|naive_solver]. rewrite reject_ok, orb_false_iff, !negb_false_iff, !bool_decide_eq_true.
  split; [by intros [-> ->]|by intros [[= ->] [= ->]]].
Qed.
End checks.

(** ** Property *)

Lemma reachable_versions `{HexCrate, Sha2Crate, SqlEngine, SerdeJson} `{FromJson (list cvalue)}
    `{ToJson LogicalType, FromJson LogicalType, ToJson scalar, FromJson scalar}
    `{ToJson SemanticCommit, ToJson cvalue, ToJson (list cvalue), ToJson LogicalFile, ToJson LogicalIntent,
      ToJson (list (Z * scalar)), ToJson (list LogicalMetric), ToJson AppendResult, ToJson Requirement, ToJson OperationRequest, ToJson DurableResult}
    `{!CanonicalReads} (requirement_debug : Requirement -> string) d : reachable requirement_debug d -> table_versions_ok d.
Proof.
  induction 1 as [input d E|d request staged bh base head cid sid now result d' Hd Hv Hid Hst E|d request hash head cid now result d' Hd Hv Hhead E].
  - by eapply genesis_versions.
  - eapply append_versions; [by eapply reachable_ok|exact Hid|exact Hst|exact E|exact Hv].
  - pose proof (reachable_ok _ _ Hd) as Hok. pose proof (transact_effect _ _ _ _ _ _ _ _ _ Hok E) as (_ & Hs & _ & _).
    destruct Hv as (Hv & Hb & Hm & Hsize). unfold transact in E. apply bind_ok in E as (results & Hp & E).
    apply bind_ok in E as ([[commit [uri body]] durable] & Hbuild & E). apply bind_ok in E as (d1 & Hmutate & E). unfold Database.commit in E.
    apply bind_ok in E as (d2 & Hc & [= _ <-]). apply bind_unit in Hc as [_ [= <-]].
    assert (sc_table_version commit = table_version d + 1) as Hnext.
    { unfold build_transaction in Hbuild. apply bind_ok in Hbuild as (n & [-> _]%ok_or_ok%try_uint_some & Hbuild).
      apply bind_ok in Hbuild as (rv & _ & Hbuild). apply bind_ok in Hbuild as (c & Hcommit & Hbuild). do 3 (apply bind_ok in Hbuild as (? & _ & Hbuild)).
      injection Hbuild as <- _ _ _. unfold transaction_commit in Hcommit. do 3 (apply bind_ok in Hcommit as (? & _ & Hcommit)). injection Hcommit as <-. cbn. lia. }
    destruct (prepared_ok _ _ _ _ Hp) as [Hfit Hnd].
    destruct (mutate_metadata_versions commit uri (tr_operations request) d d1) as (Hv' & Htv & Hlt); try done;
      [by eapply prepared_keeps_main|eapply versions_later; [|exact Hv]; lia|].
    split_and!; [by rewrite Htv|lia|lia|by apply (sf_meta _ _ Hs)|]. by rewrite (sf_snapshots _ _ Hs), (sf_sequence _ _ Hs).
Qed.

(** C6: what decides whether an image that genesis, appends and metadata transactions
    reach passes the checks of a relational image. The checks of the defaults, of the
    pairing and contiguity of commits, of snapshots, sequence numbers, ancestry and
    refs, of live rows and the profile, of the live files of every branch and tag
    against the ancestry of their tips, and of the descriptors of files never refuse
    it. So, once the row of the table agrees with the head, the image is accepted
    exactly if its version is below the last one of 63 bits, the head names the URI of
    the last commit row and the state before it, the features are those of genesis,
    and the checks of the schemas and of the metrics pass. *)
Theorem writers_pass_validation `{HexCrate, Sha2Crate, SqlEngine, SerdeJson} `{FromJson (list cvalue)}
    `{ToJson LogicalType, FromJson LogicalType, ToJson scalar, FromJson scalar} `{ToJson (list string)}
    `{ToJson SemanticCommit, ToJson cvalue, ToJson (list cvalue), ToJson LogicalFile, ToJson LogicalIntent,
      ToJson (list (Z * scalar)), ToJson (list LogicalMetric), ToJson AppendResult, ToJson Requirement, ToJson OperationRequest, ToJson DurableResult}
    `{!CanonicalReads} (requirement_debug : Requirement -> string) (d : Db) (m : Database.MetaRow) (expected : ExpectedImage)
    (Hd : reachable requirement_debug d) (Hm : db_meta d = Some m) (Hversion : m_table_version m = ei_table_version expected)
    (Hstate : m_semantic_state m = sha_bytes (ei_semantic_state expected)) (Hid : m_last_commit_id m = id_bytes (ei_commit_id expected))
    (Hhash : m_last_commit_sha256 m = sha_bytes (ei_commit_hash expected)) :
  validate_rows expected d = Ok tt <->
    m_table_version m < 2 ^ 63 - 1 /\
    k_object_uri <$> db_commits d !! m_table_version m = Some (ei_commit_uri expected) /\
    previous_state (m_table_version m) d = Ok (ei_previous_semantic_state expected) /\
    canonical_string feature_names = Ok (ei_reader_features_json expected) /\ canonical_string feature_names = Ok (ei_writer_features_json expected) /\
    validate_schemas d = Ok tt /\ try_fold (fun _ kv => validate_metric_row d kv.1 kv.2) tt (metrics_by_id d) = Ok tt.
Proof.
  pose proof (reachable_ok _ _ Hd) as Hok. pose proof (reachable_versions _ _ Hd) as Hvo. pose proof (reachable_log _ _ Hd) as Hlog.
  assert (table_version d = m_table_version m) as Ev by (unfold table_version; by rewrite Hm).
  pose proof (relational_history_valid d Hok Hvo) as Hh. unfold last_sequence in Hh. rewrite Hm in Hh. cbn [from_option] in Hh.
  rewrite <- Ev in *. unfold validate_rows. rewrite Hm. cbn [row ok_or mbind result_bind].
  rewrite (lo_defaults _ Hlog m Hm), <- Hversion, Hh, refs_valid, live_rows_valid, profile_valid, memberships_valid by done.
  cbn [negb reject mbind result_bind].
  rewrite bind_unit, (log_commits_valid d Hlog expected), (last_commit_agrees d Hlog m expected), !bind_unit by done.
  rewrite !genesis_feature_names by (first [by left|by right|apply Hlog]). rewrite features_agree, descriptors_valid by done. tauto.
Qed.

#[local] Existing Instances example_hex example_sha2 example_engine example_serde example_to_json example_types example_scalars example_values example_reads.

(** The head that a row of the example table agrees with *)
Definition example_expected (m : Database.MetaRow) : ExpectedImage :=
  {| ei_table_id := example_id 1; ei_table_version := m_table_version m; ei_semantic_state := MkSha256 (m_semantic_state m);
     ei_commit_id := from_option id (example_id 1) (ok (id_try_from_bytes (m_last_commit_id m)));
     ei_commit_hash := MkSha256 (m_last_commit_sha256 m);
     ei_commit_uri := from_option k_object_uri "" (db_commits example_third !! m_table_version m);
     ei_reader_features_json := "{}"; ei_writer_features_json := "{}";
     ei_previous_semantic_state := from_option id None (ok (previous_state (m_table_version m) example_third)) |}.

Lemma writers_pass_validation_witness : exists m, db_meta example_third = Some m /\ validate_rows (example_expected m) example_third = Ok tt.
Proof.
  destruct (db_meta example_third) as [m|] eqn:Hm; [|exfalso; vm_compute in Hm; discriminate Hm].
  assert (E := Hm). vm_compute in E. injection E as E. exists m. split; [reflexivity|].
  apply (writers_pass_validation (fun _ => "") example_third m (example_expected m) example_third_reached Hm); rewrite <- E; [reflexivity..|].
  split_and!; vm_compute; reflexivity.
Defined.
